(* ===== verification/_CoqProject ===== *)
-Q . S2P
Prelude.v
GoNum.v
TxId.v
Float64.v
Domain.v
Sql.v
Postgres.v
Transfer.v
Bank.v
Redis.v
Queue.v
World.v
Reference.v
QueueClient.v
Session.v
Repository.v
TransactionService.v
AccountService.v
Cache.v
Staleness.v
Http.v
Handlers.v
RequestLog.v
Config.v
Breaker.v
Resources.v
Seeds.v
Worker.v
Settlement.v
Frames.v
Ledger.v
Concurrency.v
Deliveries.v
Pool.v
Duplicates.v
Anomalies.v
Server.v
Startup.v
System.v
WellFormed.v
Equivalence.v
Roundtrip.v
