(* ===== verification/Prelude.v ===== *)
(** * Banking peak-load prototype: verification development (root file)

    ** The program

    A Go service that moves money between accounts.  cmd/server/main.go reads
    the configuration, connects to what it names (PostgreSQL through
    PgBouncer, a read replica, Redis, RabbitMQ), builds repositories, services
    and handlers over what was reached, and serves three routes behind a rate
    limiter, a circuit breaker and a request log:
    - [POST /api/v1/transactions] calls [CreateTransaction] of
      internal/service/transaction.go, which takes one of three paths: with a
      queue it stores the transaction as pending and publishes a message
      ([createAsync]); with a database and no queue it executes the transfer in
      one database transaction ([createSync]); with neither it only records
      the transaction in memory.
    - [GET /api/v1/transactions/:id/status] and
      [GET /api/v1/accounts/:id/balance] read through a Redis cache.
    internal/worker consumes the messages: [process] settles one delivery in
    one database transaction ([settle]) and acknowledges it, or records the
    failure and sends it to the dead-letter queue.  Two goroutines keep
    gauges: the runtime collector and the dependency collector.
    cmd/seeds/main.go fills an empty database.

    ** The model

    Shallow embedding.  A call that reads or changes state is a function in
    the state monad [M] of this file, a Go function with results [(T, error)]
    returns [result T], [try x <- m catch h ;; k] is [if err != nil] with an
    early return, and [wp m Q s] says that [m] run in [s] ends with a result
    and a state in [Q]; [M] is a total function, so every [wp] statement also
    says that the call returns.  Whatever is not in the repository (PostgreSQL
    and its drivers, Redis, RabbitMQ, Echo, gobreaker, the clock,
    encoding/json, math/rand, the operating system) is a class of operations,
    with the documented behaviour the code relies on in a second class of
    laws ([PgLaws], [RedisLaws], [AmqpLaws], [EchoLaws], [GobreakerLaws],
    [JSONLaws], [SeedLaws], [SeedConnLaws], [InfraSteady]; [EnvParser] and
    [HttpServer] have no laws).  The laws let every operation fail at any point;
    theorems that need more name it ([commit_definite], [reads_definite],
    [PgLiteral]).  Reference.v has executable servers with a list of faults
    that keep these laws; the witnesses run on them.

    The files, in dependency order:
    - Prelude: the monad and its rules, [goerror], [result], sums over finite
      maps.  GoNum: int64 and uint64, [Sprintf] with [%d] and [%022d],
      [ParseInt], [ParseUint], [TrimSpace].  Float64: [float64] with its
      comparisons and the conversion from decimal text, with an error bound.
    - TxId: [nextTransactionID] as a step relation over goroutines, one step
      per atomic action ([Load], clock reading, [CompareAndSwap]).
    - Domain, Sql, Postgres, Transfer: internal/domain; the schema of
      migrations/ and each SQL statement as data with its effect on the
      tables; the driver interface; what a debit and a credit do to balances.
      [transfer_statements] is the abstract transfer that [createSync] and
      [settle] implement.
    - Bank: the abstract specification.  Its state is the balances in cents
      and the book of transfers; its moves record a transfer as pending or
      completed, settle a recorded one, or fail it.
    - Redis, Queue, QueueClient: the cache interface;
      internal/infrastructure/queue and its properties.
    - World, Reference: the state of the process with internal/logger and
      internal/metrics, and the reference servers.
    - Session, Repository: rules for calls inside a database transaction;
      internal/repository/memory and internal/repository/postgres, with the
      contract [TxRepoLaws] that both keep and the services rely on.
    - TransactionService, AccountService, Cache: internal/service, and what
      its caches guarantee.  Staleness: the cached reads step by step, with
      other requests, commits and invalidations between the steps; and
      [GetBalance] itself, its calls interrupted between their commands.
    - Http, Handlers, RequestLog, Config, Breaker: internal/handler,
      internal/middleware and internal/config over the Echo interface.
    - Worker, Settlement: internal/worker, and what a goroutine of [Start]
      guarantees over any sequence of deliveries.
    - Frames, Ledger: what each call leaves alone; the moves of the bank that
      the database operations of the services and of the worker make.
    - Concurrency: synchronous transfers and settlements interleaved statement
      by statement under row locks.
    - Deliveries: [process] in the steps that others can come between, around
      those statements: the look at the status, the failure mark, the answer,
      with reads that fail and answers to commits that are lost; the
      invariants of any number of deliveries at the same time; and that
      [process] is these steps.
    - Pool: [Start], its goroutines inside [process] on one delivery channel,
      and its join.  Duplicates: what goes wrong without the restrictions
      under which the pool implements the bank.
    - Resources, Seeds, Server: internal/metrics/resources.go, cmd/seeds, and
      internal/infrastructure/postgres, internal/infrastructure/redis and
      cmd/server/main.go.  Startup: both entry points, from the environment to
      the running server and to the seeded tables.
    - System: the server that [main] builds with everything around it, one
      step per request, delivery or outside event; it refines the bank under
      conditions.  WellFormed: what holds of it without them.
    - Equivalence, Roundtrip: the queued path against the synchronous one; a
      created transaction against a later read of it.
    - Anomalies: what happens outside the conditions of the theorems.

    ** What the theorems show

    The whole server, a request or a delivery at a time: it implements the
    bank ([system_refines_bank]), so that each account holds its opening
    balance plus the completed transfers to it less those from it, nobody is
    overdrawn, and completed transfers stay so ([ledger_consistent]).  The
    conditions: requests for whole cents ([fair_request]), which the handler
    does not enforce; a primary database without a replica, whose reads do
    not fail and whose answers to commits arrive ([reads_definite],
    [commit_definite]); and no account that holds more than 2^43 units
    ([modest]).  The seeds under deployments/ put 10^14 units into 100000
    accounts of 10^9: within the bound for an account, though the sum is not.
    Without any of these conditions the stored transactions and the messages
    in the broker stay well formed ([system_well_formed]).

    The worker, its goroutines interleaved: [process] is the steps of
    Deliveries.v ([process_is_steps]).  The pool of [Start] implements the
    bank and settles each message at most once ([pool_refines_bank]), under
    the same conditions and if no message is received while a delivery of it
    is handled, and none is delivered that was reported as unsent.  Every one
    of these restrictions is needed: with any one lifted, any message can be
    settled twice ([restrictions_needed]), and an overlapping delivery can
    mark a completed transfer as failed ([completed_transfer_marked_failed]).
    What holds without them is that no money appears or disappears and nobody
    is overdrawn ([pool_money_safe]).  The pool ends with its channel
    ([Start_ends_with_channel]).

    Money: [CreateTransaction] without a queue is one atomic transfer
    ([CreateTransaction_sync_atomic]); it and the worker conserve the sum of
    the balances up to a cent of rounding per transfer, exactly for whole
    cents ([CreateTransaction_sync_conserves], [goroutine_conserves]); neither
    overdraws an account ([CreateTransaction_sync_no_overdraft],
    [goroutine_no_overdraft]), although the check compares [float64].  One
    goroutine that reads the primary settles a message at most once however
    often it is delivered ([redelivery_settles_at_most_once]).  Interleaved
    transfers are serializable ([interleavings_serializable]) and keep the
    same guarantees ([interleaved_transfers_safe]), but any two opposite
    transfers can deadlock ([opposite_transfers_deadlock]).  The queued path
    and the synchronous path leave the same balances and the same book
    ([queue_path_equals_sync_path]).

    Identifiers are unique in one process under every interleaving, and the
    generator is lock-free ([ids_unique], [cas_succeeds_without_interference]);
    the sequential function that the service calls is that step relation run
    by one goroutine ([nextTransactionID_refines]).

    Queue: [Publish] sends one persistent message or fails; [createAsync]
    publishes only what it stored; [process] answers each delivery at most
    once and never requeues ([process_outcome] has every case, down to the
    operations).

    Reads: both reads are cache-aside; no client is shown another account; a
    pending status stays in the cache for two seconds at most.  A created
    transaction of whole cents is read back with the same data, the amount bit
    for bit ([created_transaction_is_read]).  Under any interleaving a cached
    answer is at most the TTL, the deadline of a request and the lag of the
    database behind ([cached_answers_recent]), and calls of [GetBalance],
    however interrupted, are such reads ([GetBalance_calls_are_readers]); the
    deletion of the entry after a write gives no better bound
    ([answer_after_invalidation]), and a TTL of 0 gives none
    ([zero_ttl_never_expires]).

    Edge: what the handlers answer is what happened; one log line per request
    that reaches the log; the breaker opens at the configured failure, its
    gauges show its state, and what it refuses reaches nothing else; the
    server starts exactly when its database answers, wired to exactly what its
    configuration enables and what answers ([main_wiring],
    [server_main_starts]).  Seeding produces the
    accounts and transactions it announces, with identifiers the running
    service never generates.

    ** Bounds and fuel

    [nextTransactionID] in World.v runs its loop once: with no interference
    the [CompareAndSwap] succeeds at once ([nextTransactionID_once]); the
    retries are in TxId.v.  [seed_batches] has a round per batch and one to
    leave the loop, and the theorem says that all rows are copied.
    [safe_cents], 2^43 currency units, is a bound below which the rounding of
    [float64] cannot hide half a cent; [float_funds_check_overdraws] is a run
    beyond 2^53.  [measure] bounds the steps of a pool whose channel is closed.
    [request_timeout] is the 60 s of the middleware; the delay of a command
    that was started before it is the parameter [grace] of Staleness.v.
    Identifiers are unique while the counter is below the end of int64.
    Loops that wait for events ([goroutine], [collector_loop],
    [dependency_loop]) are recursive in the list of the events.

    ** What is not modelled

    Parsing of the environment into [Config] (caarlos0/env); the HTTP server,
    its signals and the middleware of Echo itself (the decision of the rate
    limiter is an input); panics and [Recover]; the text of JSON (only that it
    round-trips); context cancellation inside a call, other than as a failure
    of the operation; Prometheus and slog internals; Docker, Kubernetes and
    load-test files.  In System.v a request or a delivery is one step; the
    interleavings inside them are those of Concurrency.v, Pool.v and
    Staleness.v, each for its own part of the state.  The broker around the
    pool delivers what it likes: unacknowledged deliveries are not followed
    back to it.

    ** Plan

    Next: the broker with unacknowledged deliveries and redelivery around the
    pool; the JSON text of the messages and cached values; requests, pool and
    broker in one interleaving. *)

From Corelib Require Export ssreflect.
From Stdlib Require Export ZArith Lia Bool.
From Stdlib Require Export Strings.String Strings.Ascii.
From stdpp Require Export base option list strings gmap fin_maps relations tactics.
Export ListNotations.

#[global] Open Scope general_if_scope.
#[global] Open Scope Z_scope.

(** ** Scopes and notations of the development *)

Declare Scope go_scope.
Delimit Scope go_scope with go.

(** ** Go errors

    The [error] values the program creates, compares and wraps.  The
    sentinels are the package-level [errors.New] values; [ErrorString] is an
    error built by [fmt.Errorf] without [%w] or returned by a library;
    [Wrapped p e] is [fmt.Errorf("p: %w", e)]; [HTTPError] is the value of
    [echo.NewHTTPError]. *)
Inductive goerror : Type :=
| ErrInsufficientFunds
| ErrAccountNotFound
| ErrNoRows
| ErrOpenState
| ErrTooManyRequests
| HTTPError (code : Z) (msg : string)
| ErrorString (msg : string)
| Wrapped (prefix : string) (inner : goerror).

#[export] Instance goerror_eq_dec : EqDecision goerror.
Proof. solve_decision. Defined.

(** [errors.Is(err, target)] walks the chain of wrapped errors. *)
Fixpoint errors_Is (err target : goerror) : bool :=
  if decide (err = target) then true
  else match err with
       | Wrapped _ inner => errors_Is inner target
       | _ => false
       end.

(** An error that comes from a library: not one of the program's sentinels,
    nor [sql.ErrNoRows] (which the query interfaces report as "no row"). *)
Definition foreign (e : goerror) : bool :=
  negb (errors_Is e ErrInsufficientFunds || errors_Is e ErrAccountNotFound || errors_Is e ErrNoRows).

(** A Go function with results [(T, error)]. *)
Inductive result (A : Type) : Type :=
| Ok (a : A)
| Err (e : goerror).
Arguments Ok {A} _.
Arguments Err {A} _.

Definition is_ok {A} (r : result A) : bool :=
  match r with Ok _ => true | Err _ => false end.

(** ** Stateful code

    A Go call is a function of the state it runs in. *)
Definition M (W A : Type) : Type := W -> A * W.

Definition mret {W A} (a : A) : M W A := fun w => (a, w).
Definition mbind {W A B} (m : M W A) (k : A -> M W B) : M W B :=
  fun w => let '(a, w') := m w in k a w'.

(** [x, err := m; if err != nil { return h(err) }; k] *)
Definition mtry {W A B} (m : M W (result A)) (h : goerror -> M W (result B))
    (k : A -> M W (result B)) : M W (result B) :=
  mbind m (fun r => match r with Ok a => k a | Err e => h e end).

(** Run an operation on one part of the state. *)
Definition mlift {W P A} (get : W -> P) (set : P -> W -> W) (m : M P A) : M W A :=
  fun w => let '(a, p) := m (get w) in (a, set p w).

Definition mget {W A} (f : W -> A) : M W A := fun w => (f w, w).
Definition mput {W} (f : W -> W) : M W unit := fun w => (tt, f w).

Notation "x <- m ;; k" := (mbind m (fun x => k))
  (at level 100, m at next level, right associativity,
   format "x  <-  m  ;;  '/' k") : go_scope.
Notation "m ;;; k" := (mbind m (fun _ => k))
  (at level 100, right associativity, format "m  ;;;  '/' k") : go_scope.
Notation "'try' x <- m 'catch' h ;; k" := (mtry m h (fun x => k))
  (at level 100, x binder, m at next level, h at next level, right associativity,
   format "'try'  x  <-  m  'catch'  h  ;;  '/' k") : go_scope.

(** ** Weakest preconditions

    [wp m Q w]: run from [w], the call [m] returns a value and a state that
    satisfy [Q].  The laws of the external components and the theorems about
    the services are stated with it. *)
Definition wp {W A} (m : M W A) (Q : A -> W -> Prop) (w : W) : Prop :=
  let '(a, w') := m w in Q a w'.

Section wp_rules.
Context {W : Type}.

Lemma wp_ret {A} (a : A) (Q : A -> W -> Prop) w : Q a w -> wp (mret a) Q w.
Proof. done. Qed.

Lemma wp_bind {A B} (m : M W A) (k : A -> M W B) Q w :
  wp m (fun a => wp (k a) Q) w -> wp (mbind m k) Q w.
Proof. rw /wp /mbind. by destruct (m w) as [a w']. Qed.

Lemma wp_mono {A} (m : M W A) (Q Q' : A -> W -> Prop) w :
  wp m Q w -> (forall a w', Q a w' -> Q' a w') -> wp m Q' w.
Proof. rw /wp. destruct (m w) as [a w']. eauto. Qed.

Lemma wp_try {A B} (m : M W (result A)) (h : goerror -> M W (result B)) k Q w :
  wp m (fun r => match r with Ok a => wp (k a) Q | Err e => wp (h e) Q end) w ->
  wp (mtry m h k) Q w.
Proof.
  intros Hm. apply wp_bind. eapply wp_mono; [exact Hm|]. by intros [a|e] w'.
Qed.

Lemma wp_lift {P A} (get : W -> P) set (m : M P A) Q w :
  wp m (fun a p => Q a (set p w)) (get w) -> wp (mlift get set m) Q w.
Proof. rw /wp /mlift. by destruct (m (get w)). Qed.

Lemma wp_get {A} (f : W -> A) (Q : A -> W -> Prop) w : Q (f w) w -> wp (mget f) Q w.
Proof. done. Qed.

Lemma wp_put (f : W -> W) (Q : unit -> W -> Prop) w : Q tt (f w) -> wp (mput f) Q w.
Proof. done. Qed.

Lemma wp_run {A} (m : M W A) (Q : A -> W -> Prop) w a w' :
  wp m Q w -> m w = (a, w') -> Q a w'.
Proof. by rw /wp; intros H Hm; rw Hm in H. Qed.

Lemma wp_of {A} (m : M W A) (Q : A -> W -> Prop) w :
  (forall a w', m w = (a, w') -> Q a w') -> wp m Q w.
Proof. rw /wp. destruct (m w) as [a w'] eqn:E. eauto. Qed.

Lemma wp_and {A} (m : M W A) (Q Q' : A -> W -> Prop) w :
  wp m Q w -> wp m Q' w -> wp m (fun a w' => Q a w' /\ Q' a w') w.
Proof. rw /wp. by destruct (m w). Qed.
End wp_rules.

(** One step of symbolic execution of monadic code. *)
Ltac wp_step :=
  lazymatch goal with
  | |- wp (mret _) _ _ => apply wp_ret
  | |- wp (mbind _ _) _ _ => apply wp_bind
  | |- wp (mtry _ _ _) _ _ => apply wp_try
  | |- wp (mlift _ _ _) _ _ => apply wp_lift
  | |- wp (mget _) _ _ => apply wp_get
  | |- wp (mput _) _ _ => apply wp_put
  end.
Ltac wp_steps := repeat (wp_step; cbn beta iota delta [fst snd]).

(** Use the specification [H] of the call at the head of the goal. *)
Tactic Notation "wp_apply" uconstr(H) := eapply wp_mono; [eapply H|cbn beta iota delta [fst snd]].

(** ** Shared lemmas *)

Lemma foreign_not e : foreign e = true ->
  errors_Is e ErrInsufficientFunds = false /\ errors_Is e ErrAccountNotFound = false /\
  errors_Is e ErrNoRows = false.
Proof.
  unfold foreign. by destruct (errors_Is e ErrInsufficientFunds), (errors_Is e ErrAccountNotFound),
    (errors_Is e ErrNoRows).
Qed.

(** Sum of a measure over a finite map. *)
Definition map_sum {K V} `{Countable K} (f : V -> Z) (m : gmap K V) : Z :=
  map_fold (fun _ v acc => f v + acc) 0 m.

Section map_sum.
Context {K V : Type} `{Countable K} (f : V -> Z).

Lemma map_sum_insert_new (m : gmap K V) k v :
  m !! k = None -> map_sum f (<[k:=v]> m) = f v + map_sum f m.
Proof.
  intros Hk. unfold map_sum.
  rw (map_fold_insert_L (fun _ v acc => f v + acc)) //. intros; lia.
Qed.

Lemma map_sum_insert (m : gmap K V) k v old :
  m !! k = Some old -> map_sum f (<[k:=v]> m) = map_sum f m - f old + f v.
Proof.
  intros Hk. rw -(insert_delete_id m k old Hk) insert_insert_eq.
  rw !map_sum_insert_new ?lookup_delete_eq //. lia.
Qed.

Lemma map_sum_insert_same (m : gmap K V) k v old :
  m !! k = Some old -> f v = f old -> map_sum f (<[k:=v]> m) = map_sum f m.
Proof. intros Hk Hf. rw (map_sum_insert _ _ _ _ Hk). lia. Qed.

(** A non-negative measure of one entry is at most the sum. *)
Lemma map_sum_nonneg (m : gmap K V) : (forall k v, m !! k = Some v -> 0 <= f v) -> 0 <= map_sum f m.
Proof.
  induction m as [|k v m Hk IH] using map_ind; [done|]. intros Hf. rw map_sum_insert_new //.
  pose proof (Hf k v (lookup_insert_eq _ _ _)). enough (0 <= map_sum f m) by lia.
  apply IH. intros j x Hj. apply (Hf j). rw lookup_insert_ne //. intros ->. congruence.
Qed.

Lemma map_sum_ge (m : gmap K V) k v :
  (forall k v, m !! k = Some v -> 0 <= f v) -> m !! k = Some v -> f v <= map_sum f m.
Proof.
  intros Hf Hk. rw -(insert_delete_id m k v Hk) map_sum_insert_new ?lookup_delete_eq //.
  enough (0 <= map_sum f (delete k m)) by lia. apply map_sum_nonneg.
  intros j x [_ Hj]%lookup_delete_Some. by apply (Hf j).
Qed.
End map_sum.

(** Case analysis on every [match] of the goal or of a hypothesis. *)
Ltac case_all :=
  repeat (case_match; simplify_eq/=; try done).

Create HintDb bank.
#[export] Hint Resolve wp_ret wp_bind wp_try wp_lift wp_get wp_put : bank.
