(* ===== verification/GoNum.v ===== *)
(** * Go integers and their text

    Machine-width integers of Go ([int64], [uint64]), the decimal forms the
    program prints with [fmt.Sprintf] ([%d], [%022d]) and the parsers of
    [strconv] it reads them back with ([ParseUint], [ParseInt], base 10,
    64 bits), with [strings.TrimSpace] as the memory-limit reader uses it. *)

From S2P Require Import Prelude.

(** ** Widths *)

Definition max_int64 : Z := 2 ^ 63 - 1.
Definition min_int64 : Z := - 2 ^ 63.
Definition max_uint64 : Z := 2 ^ 64 - 1.

Definition int64_wrap (z : Z) : Z := (z + 2 ^ 63) mod 2 ^ 64 - 2 ^ 63.
Definition is_int64 (z : Z) : Prop := min_int64 <= z <= max_int64.
Definition is_uint64 (z : Z) : Prop := 0 <= z <= max_uint64.

#[export] Instance is_int64_dec z : Decision (is_int64 z).
Proof. unfold is_int64. apply _. Defined.
#[export] Instance is_uint64_dec z : Decision (is_uint64 z).
Proof. unfold is_uint64. apply _. Defined.

(** ** Decimal digits *)

Definition digit (d : Z) : ascii := ascii_of_nat (48 + Z.to_nat d).

Definition digit_val (c : ascii) : option Z :=
  let k := Z.of_nat (nat_of_ascii c) in
  if (48 <=? k) && (k <=? 57) then Some (k - 48) else None.

(** The decimal digits of a non-negative integer, in front of [acc]. *)
Fixpoint dec_aux (fuel : nat) (n : Z) (acc : string) : string :=
  match fuel with
  | O => acc
  | S f =>
      let acc' := String (digit (n mod 10)) acc in
      if n <? 10 then acc' else dec_aux f (n / 10) acc'
  end.

Definition dec (n : Z) : string := dec_aux (S (Z.to_nat (Z.log2 n))) n "".

(** [fmt.Sprintf("%d", z)] *)
Definition Sprintf_d (z : Z) : string :=
  if z <? 0 then String "-" (dec (- z)) else dec z.

Fixpoint zeros (k : nat) : string :=
  match k with O => "" | S k' => String "0" (zeros k') end.

(** [fmt.Sprintf("%022d", z)]: zeros up to width 22, after the sign. *)
Definition Sprintf_022d (z : Z) : string :=
  let body := dec (Z.abs z) in
  if z <? 0 then String "-" (zeros (21 - String.length body) +:+ body)%nat
  else (zeros (22 - String.length body) +:+ body)%nat.

(** The value of a digit string, of any length: the reference parser. *)
Fixpoint digits_value (n : Z) (s : string) : option Z :=
  match s with
  | EmptyString => Some n
  | String c s' =>
      match digit_val c with
      | Some d => digits_value (n * 10 + d) s'
      | None => None
      end
  end.

(** ** strconv *)

Definition ErrSyntax : goerror := ErrorString "invalid syntax".
Definition ErrRange : goerror := ErrorString "value out of range".

(** The loop of [strconv.ParseUint(s, 10, 64)]: [cutoff] is the smallest
    number that overflows when multiplied by ten, and the sum is taken in 64
    bits and tested for wrap-around. *)
Fixpoint ParseUint_loop (n : Z) (s : string) : result Z :=
  match s with
  | EmptyString => Ok n
  | String c s' =>
      match digit_val c with
      | None => Err ErrSyntax
      | Some d =>
          if max_uint64 / 10 + 1 <=? n then Err ErrRange
          else let n10 := n * 10 in
               let n1 := (n10 + d) mod 2 ^ 64 in
               if n1 <? n10 then Err ErrRange else ParseUint_loop n1 s'
      end
  end.

Definition ParseUint (s : string) : result Z :=
  match s with
  | EmptyString => Err ErrSyntax
  | _ => ParseUint_loop 0 s
  end.

(** [strconv.ParseInt(s, 10, 64)] *)
Definition ParseInt (s : string) : result Z :=
  match s with
  | EmptyString => Err ErrSyntax
  | String c s' =>
      let '(neg, digits) :=
        if Ascii.eqb c "+" then (false, s')
        else if Ascii.eqb c "-" then (true, s')
        else (false, s) in
      match ParseUint digits with
      | Err e => Err e
      | Ok un =>
          if negb neg && (2 ^ 63 <=? un) then Err ErrRange
          else if neg && (2 ^ 63 <? un) then Err ErrRange
          else Ok (if neg then - un else un)
      end
  end.

(** ** strings.TrimSpace

    The UTF-8 encodings of the runes of [unicode.IsSpace]. *)
Definition bytes_string (l : list nat) : string :=
  String.string_of_list_ascii (map ascii_of_nat l).

Definition space_runes : list string :=
  map bytes_string
    ([[9]; [10]; [11]; [12]; [13]; [32]; [194; 133]; [194; 160]; [225; 154; 128];
      [226; 128; 168]; [226; 128; 169]; [226; 128; 175]; [226; 129; 159]; [227; 128; 128]]
     ++ map (fun k => [226; 128; k]) (seq 128 11))%nat.

Fixpoint strip_prefix (p s : string) : option string :=
  match p, s with
  | EmptyString, _ => Some s
  | String a p', String b s' => if Ascii.eqb a b then strip_prefix p' s' else None
  | String _ _, EmptyString => None
  end.

Definition strip_one (runes : list string) (s : string) : option string :=
  fold_right (fun p acc => match strip_prefix p s with Some r => Some r | None => acc end)
    None runes.

Fixpoint trim_front (fuel : nat) (runes : list string) (s : string) : string :=
  match fuel with
  | O => s
  | S f => match strip_one runes s with Some r => trim_front f runes r | None => s end
  end.

Definition rev_string (s : string) : string :=
  String.string_of_list_ascii (rev (String.list_ascii_of_string s)).

Definition TrimLeft (runes : list string) (s : string) : string :=
  trim_front (String.length s) runes s.

Definition TrimSpace (s : string) : string :=
  rev_string (TrimLeft (map rev_string space_runes)
    (rev_string (TrimLeft space_runes s))).

(** ** Lemmas *)

Lemma digit_cases d : 0 <= d < 10 ->
  d = 0 \/ d = 1 \/ d = 2 \/ d = 3 \/ d = 4 \/ d = 5 \/ d = 6 \/ d = 7 \/ d = 8 \/ d = 9.
Proof. lia. Qed.

Lemma digit_val_digit d : 0 <= d < 10 -> digit_val (digit d) = Some d.
Proof.
  intros Hd%digit_cases. by destruct_or!; subst.
Qed.

Lemma digit_val_range c d : digit_val c = Some d -> 0 <= d <= 9.
Proof. unfold digit_val. intros. case_match; simplify_eq. lia. Qed.

(** The recursive step of [dec_aux]: one digit fewer. *)
Lemma div10_step n f : (n <? 10) = false -> 0 <= n < 10 ^ Z.of_nat (S f) ->
  0 <= n / 10 < 10 ^ Z.of_nat f /\ (0 < f)%nat.
Proof.
  intros E. rw Nat2Z.inj_succ Z.pow_succ_r; [lia|]. intros Hn.
  split; [split; [apply Z.div_pos|apply Z.div_lt_upper_bound]; lia|].
  destruct f; [|lia]. change (10 ^ Z.of_nat 0) with 1 in Hn. lia.
Qed.

Lemma dec_aux_value fuel n acc :
  0 <= n < 10 ^ Z.of_nat fuel -> (0 < fuel)%nat ->
  digits_value 0 (dec_aux fuel n acc) = digits_value n acc.
Proof.
  revert n acc. induction fuel as [|f IH]; intros n acc Hn Hf; [lia|].
  cbn -[Z.modulo Z.div]. pose proof (Z.mod_pos_bound n 10).
  case_match eqn:E.
  - cbn -[Z.modulo]. rw digit_val_digit; [lia|]. by rw (Z.mod_small n); [lia|].
  - destruct (div10_step n f E Hn). rw IH //.
    cbn -[Z.modulo Z.div]. rw digit_val_digit; [lia|].
    rw (Z.mul_comm (n / 10)) -Z.div_mod //.
Qed.

Lemma dec_fuel n : 0 <= n -> n < 10 ^ Z.of_nat (S (Z.to_nat (Z.log2 n))).
Proof.
  intros Hn. rw Nat2Z.inj_succ Z2Nat.id; [apply Z.log2_nonneg|].
  destruct (decide (n = 0)) as [->|]; [done|].
  pose proof (Z.log2_spec n ltac:(lia)).
  enough (2 ^ Z.succ (Z.log2 n) <= 10 ^ Z.succ (Z.log2 n)) by lia.
  apply Z.pow_le_mono_l; lia.
Qed.

Lemma dec_value n : 0 <= n -> digits_value 0 (dec n) = Some n.
Proof. intros Hn. unfold dec. rw dec_aux_value //; [|lia]. split; [done|by apply dec_fuel]. Qed.

Lemma dec_aux_length fuel n acc k :
  (0 < k)%nat -> 0 <= n < 10 ^ Z.of_nat k ->
  (String.length (dec_aux fuel n acc) <= k + String.length acc)%nat.
Proof.
  revert n acc k. induction fuel as [|f IH]; intros n acc k Hk Hn; cbn -[Z.modulo Z.div]; [lia|].
  case_match eqn:E; cbn -[Z.modulo Z.div]; [lia|].
  destruct k as [|k]; [lia|]. destruct (div10_step n k E Hn).
  etrans; [by apply (IH _ _ k)|cbn; lia].
Qed.

Lemma dec_length n k : (0 < k)%nat -> 0 <= n < 10 ^ Z.of_nat k -> (String.length (dec n) <= k)%nat.
Proof. intros Hk Hn. unfold dec. etrans; [by apply dec_aux_length|cbn; lia]. Qed.

Lemma dec_aux_head fuel n acc : (0 < fuel)%nat -> 0 <= n < 10 ^ Z.of_nat fuel ->
  exists d s, 0 <= d < 10 /\ dec_aux fuel n acc = String (digit d) s.
Proof.
  revert n acc. induction fuel as [|f IH]; intros n acc Hf Hn; [lia|].
  cbn -[Z.modulo Z.div]. pose proof (Z.mod_pos_bound n 10).
  case_match eqn:E; [exists (n mod 10), acc; split; [lia|done]|].
  destruct (div10_step n f E Hn). by apply IH.
Qed.

Lemma dec_head n : 0 <= n -> exists d s, 0 <= d < 10 /\ dec n = String (digit d) s.
Proof. intros Hn. apply dec_aux_head; [lia|]. split; [done|by apply dec_fuel]. Qed.

Lemma dec_inj n m : 0 <= n -> 0 <= m -> dec n = dec m -> n = m.
Proof. intros Hn%dec_value Hm%dec_value E. congruence. Qed.

Lemma digit_not_sign d : 0 <= d < 10 -> Ascii.eqb (digit d) "+" = false /\ Ascii.eqb (digit d) "-" = false.
Proof.
  intros Hd%digit_cases. by destruct_or!; subst.
Qed.

Lemma dec_not_minus n s : 0 <= n -> dec n <> String "-" s.
Proof.
  intros Hn E. destruct (dec_head n Hn) as (d & s' & Hd & E').
  rw E' in E. injection E as E _. destruct (digit_not_sign d Hd) as [_ H]. by rw E in H.
Qed.

(** [%d] is injective on all integers. *)
Lemma Sprintf_d_inj z z' : Sprintf_d z = Sprintf_d z' -> z = z'.
Proof.
  unfold Sprintf_d. destruct (Z.ltb_spec z 0), (Z.ltb_spec z' 0); intros E.
  - injection E as E. apply dec_inj in E; lia.
  - by destruct (dec_not_minus z' (dec (- z)) ltac:(lia)).
  - by destruct (dec_not_minus z (dec (- z')) ltac:(lia)).
  - apply dec_inj in E; lia.
Qed.

Lemma zeros_value k s : digits_value 0 (zeros k +:+ s) = digits_value 0 s.
Proof. by induction k. Qed.

Lemma zeros_length k : String.length (zeros k) = k.
Proof. by induction k; cbn; f_equal. Qed.

Lemma app_length s t : String.length (s +:+ t) = (String.length s + String.length t)%nat.
Proof. induction s as [|c s IH]; [done|].
  change (S (String.length (s +:+ t)) = S (String.length s + String.length t)). by rw IH.
Qed.

Lemma Sprintf_022d_value z : 0 <= z -> digits_value 0 (Sprintf_022d z) = Some z.
Proof.
  intros Hz. unfold Sprintf_022d. rw (proj2 (Z.ltb_ge z 0)) //.
  by rw zeros_value Z.abs_eq // dec_value.
Qed.

Lemma Sprintf_022d_inj z z' :
  0 <= z -> 0 <= z' -> Sprintf_022d z = Sprintf_022d z' -> z = z'.
Proof. intros Hz%Sprintf_022d_value Hz'%Sprintf_022d_value E. congruence. Qed.

Lemma Sprintf_022d_length z : 0 <= z <= max_int64 -> String.length (Sprintf_022d z) = 22%nat.
Proof.
  intros [Hz Hm]. unfold Sprintf_022d. rw (proj2 (Z.ltb_ge z 0)) //.
  rw app_length zeros_length Z.abs_eq //.
  assert (String.length (dec z) <= 19)%nat; [|lia].
  apply dec_length; [lia|]. unfold max_int64 in Hm. lia.
Qed.

(** The value only grows as digits are read. *)
Lemma digits_value_ge n s v : 0 <= n -> digits_value n s = Some v -> n <= v.
Proof.
  revert n. induction s as [|c s IH]; intros n Hn; cbn; [intros; simplify_eq; lia|].
  destruct (digit_val c) as [d|] eqn:Ed; [|done].
  apply digit_val_range in Ed. intros Hv%IH; lia.
Qed.

(** One round of the overflow tests of [ParseUint] rejects exactly the digits
    that leave 64 bits. *)
Lemma ParseUint_step n d : 0 <= n <= max_uint64 -> 0 <= d <= 9 ->
  (if max_uint64 / 10 + 1 <=? n then true
   else (n * 10 + d) mod 2 ^ 64 <? n * 10) = bool_decide (max_uint64 < n * 10 + d).
Proof.
  intros Hn Hd. symmetry. unfold max_uint64 in *.
  change ((2 ^ 64 - 1) / 10 + 1) with 1844674407370955162.
  change (2 ^ 64) with 18446744073709551616 in *.
  destruct (Z.leb_spec 1844674407370955162 n); [apply bool_decide_eq_true_2; lia|].
  destruct (decide (n * 10 + d < 18446744073709551616)).
  - rw bool_decide_eq_false_2; [lia|]. symmetry. apply Z.ltb_ge. rw Z.mod_small; lia.
  - rw bool_decide_eq_true_2; [lia|]. symmetry. apply Z.ltb_lt.
    replace (n * 10 + d) with (n * 10 + d - 18446744073709551616 + 1 * 18446744073709551616) by lia.
    rw Z.mod_add // Z.mod_small; lia.
Qed.

Lemma ParseUint_loop_ok s : forall n v, 0 <= n <= max_uint64 ->
  ParseUint_loop n s = Ok v <-> digits_value n s = Some v /\ v <= max_uint64.
Proof.
  induction s as [|c s IH]; intros n v Hn; cbn -[Z.mul Z.modulo Z.div Z.pow].
  { split; [intros [= ->]; by destruct Hn|by intros [[= ->] _]]. }
  destruct (digit_val c) as [d|] eqn:Ed; [|naive_solver].
  apply digit_val_range in Ed. pose proof (ParseUint_step n d Hn Ed) as Hs.
  destruct (decide (max_uint64 < n * 10 + d)) as [Hov|Hov].
  - rw bool_decide_eq_true_2 // in Hs.
    assert (forall w, digits_value (n * 10 + d) s = Some w -> max_uint64 < w).
    { intros w Hw%digits_value_ge; lia. }
    destruct (_ <=? n); [|rw Hs]; (split; [done|]); intros [Hv ?]; apply H in Hv; lia.
  - rw bool_decide_eq_false_2 // in Hs. destruct (_ <=? n); [done|]. rw Hs.
    unfold max_uint64 in Hov. rw Z.mod_small; [lia|]. apply IH. unfold max_uint64; lia.
Qed.

(** [ParseUint] accepts exactly the non-empty digit strings whose value fits
    in 64 bits, and returns that value. *)
Lemma ParseUint_ok s v :
  ParseUint s = Ok v <-> s <> "" /\ digits_value 0 s = Some v /\ v <= max_uint64.
Proof.
  destruct s as [|c s]; [cbn; naive_solver|].
  unfold ParseUint. rw ParseUint_loop_ok; [done|]. naive_solver.
Qed.

Lemma ParseUint_range s v : ParseUint s = Ok v -> is_uint64 v.
Proof. intros (_ & Hv & Hm)%ParseUint_ok. by apply digits_value_ge in Hv. Qed.

Lemma dec_nonempty n : 0 <= n -> dec n <> "".
Proof. intros Hn. destruct (dec_head n Hn) as (d & s & _ & ->). done. Qed.

Lemma ParseUint_dec n : is_uint64 n -> ParseUint (dec n) = Ok n.
Proof.
  intros [Hn Hm]. apply ParseUint_ok. split; [by apply dec_nonempty|].
  by rw dec_value.
Qed.

(** Printing an [int64] with [%d] and parsing it back with [ParseInt]. *)
Lemma ParseInt_Sprintf_d z : is_int64 z -> ParseInt (Sprintf_d z) = Ok z.
Proof.
  unfold is_int64, min_int64, max_int64, Sprintf_d. intros Hz.
  destruct (Z.ltb_spec z 0).
  - unfold ParseInt. change (Ascii.eqb "-" "+") with false. cbn -[ParseUint dec Z.pow].
    rw ParseUint_dec; [unfold is_uint64, max_uint64; lia|].
    rw (proj2 (Z.ltb_ge _ _)); [lia|]. f_equal. lia.
  - destruct (dec_head z ltac:(lia)) as (d & s & Hd & E). unfold ParseInt. rw E.
    destruct (digit_not_sign d Hd) as [-> ->]. rw -E ParseUint_dec.
    { unfold is_uint64, max_uint64; lia. }
    cbn -[Z.pow]. by rw (proj2 (Z.leb_gt _ _)); [lia|].
Qed.

Lemma ParseInt_range s z : ParseInt s = Ok z -> is_int64 z.
Proof.
  destruct s as [|c s]; [done|]. unfold ParseInt.
  assert (forall neg ds z', (match ParseUint ds with
    | Err e => Err e
    | Ok un => if negb neg && (2 ^ 63 <=? un) then Err ErrRange
               else if neg && (2 ^ 63 <? un) then Err ErrRange
               else Ok (if neg then - un else un) end) = Ok z' -> is_int64 z') as Hall.
  { intros neg ds z'. destruct (ParseUint ds) as [un|] eqn:E; [|done].
    apply ParseUint_range in E. unfold is_int64, is_uint64, min_int64, max_int64 in *.
    destruct neg; cbn -[Z.pow]; case_match eqn:Hc; intros; simplify_eq; lia. }
  destruct (Ascii.eqb c "+"); [apply Hall|]. destruct (Ascii.eqb c "-"); apply Hall.
Qed.
