(* ===== verification/TxId.v ===== *)
(** * Transaction identifiers

    [nextTransactionID] of internal/service/transaction.go: a lock-free loop
    over the process-wide [txCounter].  The goroutines that run it are the
    threads of a step relation, one step per atomic action, so that every
    interleaving of concurrent requests is covered.  The clock is an input:
    each reading may be any value the platform can return. *)

From stdpp Require Import sorting.
From S2P Require Import Prelude GoNum.

(** The number a goroutine tries to install, from its clock reading and the
    counter value it loaded (the addition is 64-bit). *)
Definition next_id (now last : Z) : Z :=
  let next := now in
  if next <=? last then int64_wrap (last + 1) else next.

(** [fmt.Sprintf("txn%022d", next)] *)
Definition format_id (next : Z) : string := "txn" +:+ Sprintf_022d next.

(** Program counter of a goroutine in [nextTransactionID]: at the head of the
    loop, after the clock reading, after the [Load]. *)
Inductive pc : Type :=
| AtLoop
| AtLoad (now : Z)
| AtCAS (now last : Z).

(** [txCounter], the goroutines, and the numbers formatted and returned so
    far, oldest first. *)
Record config : Type := mkConfig {
  txCounter : Z;
  goroutines : gmap nat pc;
  issued : list Z;
}.

Definition initial (ts : gset nat) : config :=
  mkConfig 0 (gset_to_gmap AtLoop ts) [].

Section steps.
(** The values [time.Now().UnixNano()] can return. *)
Context (clock : Z -> Prop).

Inductive step : config -> config -> Prop :=
| step_now c t now :
    goroutines c !! t = Some AtLoop -> clock now ->
    step c (mkConfig (txCounter c) (<[t := AtLoad now]> (goroutines c)) (issued c))
| step_load c t now :
    goroutines c !! t = Some (AtLoad now) ->
    step c (mkConfig (txCounter c) (<[t := AtCAS now (txCounter c)]> (goroutines c)) (issued c))
| step_cas_ok c t now last :
    goroutines c !! t = Some (AtCAS now last) -> txCounter c = last ->
    step c (mkConfig (next_id now last) (<[t := AtLoop]> (goroutines c))
              (issued c ++ [next_id now last]))
| step_cas_fail c t now last :
    goroutines c !! t = Some (AtCAS now last) -> txCounter c <> last ->
    step c (mkConfig (txCounter c) (<[t := AtLoop]> (goroutines c)) (issued c)).

(** Identifiers in the order the goroutines returned them. *)
Definition returned_ids (c : config) : list string := map format_id (issued c).

Section bounded.
(** No clock reading is later than [latest] (UnixNano leaves int64 in
    2262). *)
Context (latest : Z) (latest_nonneg : 0 <= latest)
  (clock_bound : forall t, clock t -> t <= latest).

(** What holds while fewer numbers were issued than fit above [latest]. *)
Record id_inv (c : config) : Prop := {
  inv_counter : 0 <= txCounter c <= latest + Z.of_nat (length (issued c));
  inv_issued : Forall (fun n => 0 < n <= txCounter c) (issued c);
  inv_sorted : StronglySorted Z.lt (issued c);
  inv_now : forall t now, goroutines c !! t = Some (AtLoad now) -> now <= latest;
  inv_cas : forall t now last, goroutines c !! t = Some (AtCAS now last) -> now <= latest;
}.

Lemma next_id_gt now last :
  0 <= last < max_int64 -> last < next_id now last.
Proof.
  unfold max_int64, next_id, int64_wrap. intros Hl.
  destruct (Z.leb_spec now last); [|done]. rw Z.mod_small; lia.
Qed.

Lemma next_id_le now last :
  0 <= last < max_int64 -> next_id now last <= Z.max now (last + 1).
Proof.
  unfold max_int64, next_id, int64_wrap. intros Hl.
  destruct (Z.leb_spec now last); [|lia]. rw Z.mod_small; lia.
Qed.

Lemma id_inv_init ts : id_inv (initial ts).
Proof.
  split; cbn; [lia|constructor|constructor| |];
    intros *; rw lookup_gset_to_gmap_Some; by intros [_ ?].
Qed.

Lemma sorted_snoc (l : list Z) b n :
  StronglySorted Z.lt l -> Forall (fun m => 0 < m <= b) l -> b < n ->
  StronglySorted Z.lt (l ++ [n]).
Proof.
  intros Hs Hb Hn. induction Hs as [|a l Hs IH Ha]; cbn; [repeat constructor|].
  inversion Hb; subst. constructor; [by apply IH|].
  apply Forall_app. split; [done|]. repeat constructor. lia.
Qed.

Lemma id_inv_step c c' :
  step c c' -> latest + Z.of_nat (length (issued c')) <= max_int64 ->
  id_inv c -> id_inv c'.
Proof.
  intros Hstep Hroom [Hc Hi Hs Hnow Hcas].
  destruct Hstep as [c t now Ht Hck|c t now Ht|c t now last Ht <-|c t now last Ht Hne];
    cbn in *; (split; cbn; [| | |intros u ?|intros u ??]);
    try done; try (rw lookup_insert; case_decide; naive_solver).
  - rw length_app /= in Hroom |- *.
    pose proof (next_id_gt now (txCounter c)). pose proof (next_id_le now (txCounter c)).
    apply Hcas in Ht. lia.
  - rw length_app /= in Hroom. pose proof (next_id_gt now (txCounter c) ltac:(lia)) as Hgt.
    apply Forall_app. split; [|repeat constructor; lia].
    apply (list.Forall_impl _ _ _ Hi). intros; cbn in *; lia.
  - rw length_app /= in Hroom. pose proof (next_id_gt now (txCounter c) ltac:(lia)) as Hgt.
    by eapply sorted_snoc.
Qed.

Lemma issued_grows c c' : step c c' -> (length (issued c) <= length (issued c'))%nat.
Proof. destruct 1; cbn; rw ?length_app; lia. Qed.

Lemma id_inv_reachable ts c :
  rtc step (initial ts) c -> latest + Z.of_nat (length (issued c)) <= max_int64 ->
  id_inv c.
Proof.
  intros Hr. pattern c. refine (rtc_ind_r _ _ _ _ _ Hr); clear c Hr.
  { intros _. apply id_inv_init. }
  intros c c' _ Hstep IH Hroom. eapply id_inv_step; [done|done|].
  apply IH. apply issued_grows in Hstep. lia.
Qed.
End bounded.

Lemma counter_same c c' : step c c' -> issued c' = issued c -> txCounter c' = txCounter c.
Proof.
  destruct 1; cbn; try done. intros E. apply (f_equal length) in E.
  rw length_app /= in E. lia.
Qed.

Lemma issued_prefix c c' : step c c' -> issued c `prefix_of` issued c'.
Proof. destruct 1; cbn; done || by apply prefix_app_r. Qed.

Lemma issued_prefix_rtc c c' : rtc step c c' -> issued c `prefix_of` issued c'.
Proof. induction 1 as [|c c1 c2 Hs _ IH]; [done|]. etrans; [by apply issued_prefix|done]. Qed.

Lemma counter_same_rtc c c' : rtc step c c' -> issued c' = issued c -> txCounter c' = txCounter c.
Proof.
  intros Hr. induction Hr as [|c c1 c2 Hs Hr IH]; [done|]. intros E.
  assert (issued c1 = issued c) as E1.
  { apply (anti_symm prefix); [|by apply issued_prefix].
    rw -E. by apply issued_prefix_rtc. }
  rw IH; [congruence|]. by apply counter_same.
Qed.

(** The goroutine's own steps are deterministic: after the [Load] the next
    one is the [CompareAndSwap]. *)
Lemma cas_step_inv c c' t now last :
  goroutines c !! t = Some (AtCAS now last) -> step c c' ->
  goroutines c' !! t <> Some (AtCAS now last) ->
  goroutines c' !! t = Some AtLoop /\
  ((txCounter c = last /\ issued c' = issued c ++ [next_id now last]) \/
   (txCounter c <> last /\ issued c' = issued c)).
Proof.
  intros Ht Hs. destruct Hs as [c u ? Hu|c u ? Hu|c u ?? Hu|c u ?? Hu]; cbn;
    (destruct (decide (u = t)) as [->|];
     [rw lookup_insert_eq; simplify_eq; eauto | rw lookup_insert_ne //]).
Qed.
End steps.

(** ** Properties *)

Lemma format_id_inj n m : 0 <= n -> 0 <= m -> format_id n = format_id m -> n = m.
Proof. intros Hn Hm [= E]. by apply Sprintf_022d_inj. Qed.

Lemma format_id_length n : 0 <= n <= max_int64 -> String.length (format_id n) = 25%nat.
Proof. intros Hn. unfold format_id. by rw app_length Sprintf_022d_length. Qed.

Lemma sorted_NoDup (l : list Z) : StronglySorted Z.lt l -> NoDup l.
Proof.
  induction 1 as [|a l Hs IH Ha]; constructor; [|done].
  intros Hin. rw list.Forall_forall in Ha. specialize (Ha a Hin). lia.
Qed.

(** The identifiers of a reachable configuration that still has room. *)
Lemma issued_positive clock latest ts c :
  0 <= latest -> (forall t, clock t -> t <= latest) ->
  rtc (step clock) (initial ts) c -> latest + Z.of_nat (length (issued c)) <= max_int64 ->
  Forall (fun n => 0 < n <= max_int64) (issued c).
Proof.
  intros Hl Hb Hr Hroom. destruct (id_inv_reachable clock latest Hl Hb ts c Hr Hroom) as [Hc Hi _ _ _].
  apply (list.Forall_impl _ _ _ Hi). intros; cbn in *; lia.
Qed.

(** C20: no two calls of [nextTransactionID] in one process return the same
    identifier, under every interleaving of the goroutines and every sequence
    of clock readings (repeated and backward readings included), as long as
    the counter has room below the end of int64; and every identifier has 25
    characters, so that it fits the VARCHAR(26) primary key. *)
Theorem ids_unique clock latest ts c :
  0 <= latest -> (forall t, clock t -> t <= latest) ->
  rtc (step clock) (initial ts) c -> latest + Z.of_nat (length (issued c)) <= max_int64 ->
  NoDup (returned_ids c) /\ Forall (fun id => String.length id = 25%nat) (returned_ids c).
Proof.
  intros Hl Hb Hr Hroom. pose proof (issued_positive _ _ _ _ Hl Hb Hr Hroom) as Hpos.
  destruct (id_inv_reachable clock latest Hl Hb ts c Hr Hroom) as [_ _ Hs _ _].
  unfold returned_ids. split.
  - apply NoDup_fmap_2_strong; [|by apply sorted_NoDup].
    rw list.Forall_forall in Hpos. intros x y Hx%Hpos Hy%Hpos. apply format_id_inj; lia.
  - apply Forall_map, (list.Forall_impl _ _ _ Hpos). intros n Hn. apply format_id_length. lia.
Qed.

(** Two goroutines interleaved: both load 0, the second one wins with clock
    reading 7, the first one fails, retries with a clock that went back to 5
    and gets 8. *)
Definition race_clock (t : Z) : Prop := t = 7 \/ t = 5.
Definition race_end : config := mkConfig 8 {[0%nat := AtLoop; 1%nat := AtLoop]} [7; 8].

Lemma race_reachable : rtc (step race_clock) (initial {[0%nat; 1%nat]}) race_end.
Proof.
  eapply rtc_l; [apply (step_now _ _ 0%nat 5); [done|by right]|].
  eapply rtc_l; [by apply (step_load _ _ 0%nat 5)|].
  eapply rtc_l; [apply (step_now _ _ 1%nat 7); [done|by left]|].
  eapply rtc_l; [by apply (step_load _ _ 1%nat 7)|].
  eapply rtc_l; [by apply (step_cas_ok _ _ 1%nat 7 0)|].
  eapply rtc_l; [by apply (step_cas_fail _ _ 0%nat 5 0)|].
  eapply rtc_l; [apply (step_now _ _ 0%nat 5); [done|by right]|].
  eapply rtc_l; [by apply (step_load _ _ 0%nat 5)|].
  eapply rtc_l; [by apply (step_cas_ok _ _ 0%nat 5 7)|].
  apply rtc_refl.
Qed.

Lemma race_bound t : race_clock t -> t <= 7.
Proof. unfold race_clock. lia. Qed.

Lemma ids_unique_witness :
  NoDup (returned_ids race_end) /\
  Forall (fun id => String.length id = 25%nat) (returned_ids race_end).
Proof.
  apply (ids_unique race_clock 7 {[0%nat; 1%nat]} race_end).
  - done.
  - exact race_bound.
  - exact race_reachable.
  - vm_compute. discriminate.
Defined.

(** C30: the generator is lock-free.  If a goroutine loads the counter at
    [c1] and no call has returned an identifier by the time it stands at its
    [CompareAndSwap] in [c2], then that [CompareAndSwap] succeeds and the
    goroutine returns: a retry always means that another call made progress. *)
Theorem cas_succeeds_without_interference clock c1 c2 c3 t now :
  goroutines c1 !! t = Some (AtCAS now (txCounter c1)) ->
  rtc (step clock) c1 c2 ->
  goroutines c2 !! t = Some (AtCAS now (txCounter c1)) ->
  issued c2 = issued c1 ->
  step clock c2 c3 -> goroutines c3 !! t <> Some (AtCAS now (txCounter c1)) ->
  issued c3 = issued c2 ++ [next_id now (txCounter c1)].
Proof.
  intros _ Hr Ht Hi Hs Hmoved.
  destruct (cas_step_inv clock c2 c3 t now (txCounter c1) Ht Hs Hmoved) as [_ [[_ ?]|[Hne _]]]; [done|].
  destruct Hne. by eapply counter_same_rtc.
Qed.

Definition contended : config := mkConfig 0 {[0%nat := AtCAS 9 0; 1%nat := AtLoop]} [].
Definition contended_later : config :=
  mkConfig 0 (<[1%nat := AtLoad 4]> (goroutines contended)) [].

Lemma cas_succeeds_without_interference_witness :
  issued (mkConfig 9 (<[0%nat := AtLoop]> (goroutines contended_later)) [9]) = [] ++ [next_id 9 0].
Proof.
  apply (cas_succeeds_without_interference (fun _ => True) contended contended_later _ 0%nat 9).
  - reflexivity.
  - apply rtc_once. by apply (step_now _ contended 1%nat 4).
  - reflexivity.
  - reflexivity.
  - by apply (step_cas_ok _ contended_later 0%nat 9 0).
  - cbn. discriminate.
Defined.

(** A goroutine that runs alone returns an identifier after one clock
    reading, one [Load] and one [CompareAndSwap], from any configuration. *)
Theorem solo_termination (clock : Z -> Prop) c t now :
  goroutines c !! t = Some AtLoop -> clock now ->
  exists c', nsteps (step clock) 3 c c' /\ goroutines c' !! t = Some AtLoop /\
    issued c' = issued c ++ [next_id now (txCounter c)].
Proof.
  intros Ht Hck. eexists. split.
  - eapply nsteps_l; [by eapply (step_now _ c t now)|].
    eapply nsteps_l; [eapply (step_load _ _ t now); cbn; apply lookup_insert_eq|].
    eapply nsteps_l; [eapply (step_cas_ok _ _ t now); cbn; [apply lookup_insert_eq|done]|].
    apply nsteps_O.
  - cbn. by rw lookup_insert_eq.
Qed.

Lemma solo_termination_witness :
  exists c', nsteps (step race_clock) 3 (initial {[0%nat]}) c' /\
    goroutines c' !! 0%nat = Some AtLoop /\ issued c' = [] ++ [next_id 7 0].
Proof.
  apply (solo_termination race_clock (initial {[0%nat]}) 0%nat 7).
  - reflexivity.
  - by left.
Defined.
