(* ===== verification/Float64.v ===== *)
(** * Go [float64]

    Balances and amounts are [float64] in the program.  Values are the
    binary64 data of the Standard Library's [SpecFloat]; comparisons are its
    IEEE comparisons; conversion from a decimal text ([strconv.ParseFloat],
    which [database/sql] applies to a NUMERIC column scanned into a
    [float64]) is rounding of a fraction to the nearest binary64, ties to
    even.  Every finite value is an integer multiple of 2^-1074, so values
    are compared exactly as integers through [fscaled]. *)

From Corelib Require Export SpecFloat.
From S2P Require Import Prelude GoNum.

Definition f64 : Type := spec_float.

Definition f64_valid (x : f64) : Prop := valid_binary 53 1024 x = true.

Definition f64_finite (x : f64) : bool :=
  match x with S754_zero _ | S754_finite _ _ _ => true | _ => false end.

(** The operators [<] and [<=] of Go on [float64]. *)
Definition f64_ltb (x y : f64) : bool := SFltb x y.
Definition f64_leb (x y : f64) : bool := SFleb x y.

Definition f64_zero : f64 := S754_zero false.

(** 2^1074, and the value of a finite float in units of 2^-1074. *)
Definition scale : Z := 2 ^ 1074.

Definition fscaled (x : f64) : Z :=
  match x with
  | S754_finite s m e => cond_Zopp s (Zpos m * 2 ^ (e + 1074))
  | _ => 0
  end.

(** Nearest integer to [n/d], ties to even. *)
Definition round_half_even (n d : Z) : Z :=
  let q := n / d in
  let r := n mod d in
  if 2 * r <? d then q
  else if d <? 2 * r then q + 1
  else if Z.even q then q else q + 1.

(** Exponent (above -1074) of the binary64 nearest to [N/d] units. *)
Definition round_exp (N d : Z) : Z := Z.max 0 (Z.log2 (N / d) - 52).

(** Build a non-negative binary64 from a mantissa of at most 2^53. *)
Definition f64_build (m E : Z) : f64 :=
  let '(m, E) := if m =? 2 ^ 53 then (2 ^ 52, E + 1) else (m, E) in
  match m with
  | Zpos p => if 971 + 1074 <? E then S754_infinity false else S754_finite false p (E - 1074)
  | _ => S754_zero false
  end.

(** The binary64 nearest to the non-negative number of [N/d] units. *)
Definition round_units (N d : Z) : f64 :=
  let E := round_exp N d in f64_build (round_half_even N (d * 2 ^ E)) E.

(** The binary64 nearest to the fraction [n/d]. *)
Definition f64_of_frac (n : Z) (d : positive) : f64 :=
  if n <? 0 then SFopp (round_units (- n * scale) (Zpos d))
  else round_units (n * scale) (Zpos d).

Definition f64_of_Z (n : Z) : f64 := f64_of_frac n 1.

Definition two_digits (c : Z) : string := String (digit (c / 10)) (String (digit (c mod 10)) "").

(** [fmt.Sprintf("%.2f", x)] *)
Definition Sprintf_2f (x : f64) : string :=
  match x with
  | S754_nan => "NaN"
  | S754_infinity s => if s then "-Inf" else "+Inf"
  | S754_zero s => if s then "-0.00" else "0.00"
  | S754_finite s _ _ =>
      let c := round_half_even (100 * Z.abs (fscaled x)) scale in
      (if s then "-" else "") +:+ dec (c / 100) +:+ "." +:+ two_digits (c mod 100)
  end.

(** ** Rounding to an integer *)

Lemma round_half_even_spec n d :
  0 < d -> 2 * Z.abs (round_half_even n d * d - n) <= d.
Proof.
  intros Hd. unfold round_half_even.
  pose proof (Z.div_mod n d ltac:(lia)) as Hn. pose proof (Z.mod_pos_bound n d Hd).
  set (q := n / d) in *. set (r := n mod d) in *.
  destruct (Z.ltb_spec (2 * r) d), (Z.ltb_spec d (2 * r)), (Z.even q); nia.
Qed.

Lemma round_half_even_nonneg n d : 0 <= n -> 0 < d -> 0 <= round_half_even n d.
Proof.
  intros Hn Hd. unfold round_half_even. pose proof (Z.div_pos n d Hn Hd).
  repeat case_match; lia.
Qed.

(** ** The shape of the result of rounding *)

Lemma round_exp_nonneg N d : 0 <= round_exp N d.
Proof. unfold round_exp. lia. Qed.

(** The unit of the result is at most 1 or one part in 2^52 of the value. *)
Lemma round_exp_ulp N d :
  0 <= N -> 0 < d -> 2 ^ 52 * (d * 2 ^ round_exp N d) <= Z.max (2 ^ 52 * d) N.
Proof.
  intros HN Hd. unfold round_exp. set (V := N / d).
  assert (0 <= V) by (by apply Z.div_pos).
  destruct (Z.max_spec 0 (Z.log2 V - 52)) as [[Hlt ->]|[Hle ->]]; [|lia].
  assert (0 < V) by (destruct (decide (V = 0)) as [HV|]; [rw HV in Hlt; cbn in Hlt|]; lia).
  pose proof (Z.log2_spec V ltac:(done)) as [Hlog _].
  assert (2 ^ 52 * 2 ^ (Z.log2 V - 52) = 2 ^ Z.log2 V) as Hp.
  { rw -Z.pow_add_r; try lia. f_equal. lia. }
  assert (d * V <= N) by (by apply Z.mul_div_le). nia.
Qed.

Lemma round_exp_bound N d :
  0 <= N -> 0 < d -> N < d * 2 ^ 53 * 2 ^ round_exp N d.
Proof.
  intros HN Hd. pose proof (round_exp_nonneg N d). unfold round_exp in *. set (V := N / d) in *.
  assert (0 <= V) by (by apply Z.div_pos).
  assert (V < 2 ^ 53 * 2 ^ Z.max 0 (Z.log2 V - 52)) as HV.
  { destruct (decide (V = 0)) as [->|]; [done|].
    pose proof (Z.log2_spec V ltac:(lia)) as [_ Hlog].
    eapply Z.lt_le_trans; [exact Hlog|]. rw -Z.pow_add_r; try lia.
    apply Z.pow_le_mono_r; lia. }
  pose proof (Z.mul_succ_div_gt N d Hd). fold V in H1. nia.
Qed.

Lemma round_mant_bound N d :
  0 <= N -> 0 < d -> 0 <= round_half_even N (d * 2 ^ round_exp N d) <= 2 ^ 53.
Proof.
  intros HN Hd. pose proof (round_exp_nonneg N d) as HE.
  assert (0 < 2 ^ round_exp N d) by (by apply Z.pow_pos_nonneg).
  split; [apply round_half_even_nonneg; nia|].
  pose proof (round_exp_bound N d HN Hd) as Hb.
  pose proof (round_half_even_spec N (d * 2 ^ round_exp N d) ltac:(nia)) as Hs.
  set (P := d * 2 ^ round_exp N d) in *. assert (0 < P) by (unfold P; nia).
  assert (N < 2 ^ 53 * P) by (unfold P; nia). nia.
Qed.

Lemma fscaled_build m E :
  0 <= m <= 2 ^ 53 -> 0 <= E -> f64_finite (f64_build m E) = true ->
  fscaled (f64_build m E) = m * 2 ^ E.
Proof.
  intros Hm HE. unfold f64_build. destruct (Z.eqb_spec m (2 ^ 53)) as [->|Hne].
  - change (2 ^ 52) with 4503599627370496. change (2 ^ 53) with (4503599627370496 * 2).
    cbv beta iota. destruct (Z.ltb_spec (971 + 1074) (E + 1)); [done|]. intros _.
    cbn [fscaled cond_Zopp].
    replace (E + 1 - 1074 + 1074) with (E + 1) by lia. rw Z.pow_add_r; lia.
  - destruct m as [|p|p]; [done| |lia]. destruct (Z.ltb_spec (971 + 1074) E); [done|]. intros _.
    cbn [fscaled cond_Zopp]. by replace (E - 1074 + 1074) with E by lia.
Qed.

(** Error of the conversion: at most half a unit, that is half of 2^-1074 or
    one part in 2^53. *)
Lemma round_units_error N d :
  0 <= N -> 0 < d -> f64_finite (round_units N d) = true ->
  2 ^ 53 * Z.abs (fscaled (round_units N d) * d - N) <= Z.max (2 ^ 52 * d) N.
Proof.
  intros HN Hd Hf. pose proof (round_exp_nonneg N d) as HE.
  assert (0 < 2 ^ round_exp N d) by (by apply Z.pow_pos_nonneg).
  rw /round_units in Hf *. rw fscaled_build //; [by apply round_mant_bound|].
  pose proof (round_half_even_spec N (d * 2 ^ round_exp N d) ltac:(nia)) as Hs.
  pose proof (round_exp_ulp N d HN Hd) as Hu.
  set (m := round_half_even _ _) in *. set (P := 2 ^ round_exp N d) in *.
  replace (m * P * d - N) with (m * (d * P) - N) by ring. lia.
Qed.

(** ** Validity and comparison *)

Lemma digits2_pos_log2 p : Zpos (digits2_pos p) = Z.log2 (Zpos p) + 1.
Proof.
  assert (digits2_pos p = Pos.size p) as -> by (by induction p; cbn; f_equal).
  destruct p; cbn; lia.
Qed.

(** A valid finite float has a 53-bit mantissa, or a shorter one at the least
    exponent. *)
Lemma valid_finite s m e : f64_valid (S754_finite s m e) <->
  Z.max (Z.log2 (Zpos m) - 52 + e) (-1074) = e /\ e <= 971.
Proof.
  unfold f64_valid. cbn [valid_binary]. unfold bounded, canonical_mantissa, fexp, emin.
  rw digits2_pos_log2 andb_true_iff Z.eqb_eq Z.leb_le. lia.
Qed.

Lemma fscaled_sign m e : 0 < Zpos m * 2 ^ (e + 1074) \/ e + 1074 < 0.
Proof.
  destruct (decide (e + 1074 < 0)); [by right|]. left.
  pose proof (Z.pow_pos_nonneg 2 (e + 1074)). lia.
Qed.

(** Canonical positive floats are ordered by exponent first. *)
Lemma canonical_lt s1 s2 m1 e1 m2 e2 :
  f64_valid (S754_finite s1 m1 e1) -> f64_valid (S754_finite s2 m2 e2) -> e1 < e2 ->
  Zpos m1 * 2 ^ (e1 + 1074) < Zpos m2 * 2 ^ (e2 + 1074).
Proof.
  intros [H1 _]%valid_finite [H2 _]%valid_finite He.
  pose proof (Z.log2_spec (Zpos m1) ltac:(lia)) as [_ Hm1].
  pose proof (Z.log2_spec (Zpos m2) ltac:(lia)) as [Hm2 _].
  assert (Z.log2 (Zpos m2) = 52) as L2 by lia. rw L2 in Hm2.
  assert (Zpos m1 < 2 ^ 53) as M1.
  { eapply Z.lt_le_trans; [exact Hm1|]. apply Z.pow_le_mono_r; lia. }
  assert (0 < 2 ^ (e1 + 1074)) by (apply Z.pow_pos_nonneg; lia).
  assert (2 * 2 ^ (e1 + 1074) <= 2 ^ (e2 + 1074)) as Hp.
  { rw -Z.pow_succ_r; try lia. apply Z.pow_le_mono_r; lia. }
  change (2 ^ 53) with (2 * 4503599627370496) in M1.
  change (2 ^ 52) with 4503599627370496 in Hm2. nia.
Qed.

Lemma compare_canonical s1 s2 m1 e1 m2 e2 :
  f64_valid (S754_finite s1 m1 e1) -> f64_valid (S754_finite s2 m2 e2) ->
  (match e1 ?= e2 with
   | Lt => Lt | Gt => Gt | Eq => Pos.compare_cont Eq m1 m2
   end) = (Zpos m1 * 2 ^ (e1 + 1074) ?= Zpos m2 * 2 ^ (e2 + 1074)).
Proof.
  intros H1 H2. destruct (Z.compare_spec e1 e2) as [->|Hlt|Hgt].
  - assert (0 < 2 ^ (e2 + 1074)).
    { apply valid_finite in H2 as [? _]. apply Z.pow_pos_nonneg; lia. }
    change (Pos.compare_cont Eq m1 m2) with (Zpos m1 ?= Zpos m2).
    destruct (Z.compare_spec (Zpos m1) (Zpos m2)) as [->|?|?]; symmetry.
    + apply Z.compare_refl.
    + apply Z.compare_lt_iff. nia.
    + apply Z.compare_gt_iff. nia.
  - symmetry. apply Z.compare_lt_iff. by eapply canonical_lt.
  - symmetry. apply Z.compare_gt_iff. by eapply canonical_lt.
Qed.

(** On valid finite floats Go's [<] is the order of the values. *)
Lemma f64_ltb_spec x y :
  f64_valid x -> f64_valid y -> f64_finite x = true -> f64_finite y = true ->
  f64_ltb x y = (fscaled x <? fscaled y).
Proof.
  intros Hx Hy Fx Fy. unfold f64_ltb, SFltb, Z.ltb.
  assert (forall s m e, f64_valid (S754_finite s m e) -> 0 < Zpos m * 2 ^ (e + 1074)) as Hpos.
  { intros s m e [H _]%valid_finite. destruct (fscaled_sign m e); lia. }
  destruct x as [s1| | |s1 m1 e1], y as [s2| | |s2 m2 e2]; try done; cbn [SFcompare fscaled].
  - pose proof (Hpos _ _ _ Hy). destruct s2; cbn [cond_Zopp].
    + by rw (proj2 (Z.compare_gt_iff _ _)); [lia|].
    + by rw (proj2 (Z.compare_lt_iff _ _)); [lia|].
  - pose proof (Hpos _ _ _ Hx). destruct s1; cbn [cond_Zopp].
    + by rw (proj2 (Z.compare_lt_iff _ _)); [lia|].
    + by rw (proj2 (Z.compare_gt_iff _ _)); [lia|].
  - pose proof (Hpos _ _ _ Hx). pose proof (Hpos _ _ _ Hy).
    pose proof (compare_canonical _ _ _ _ _ _ Hx Hy) as Hc.
    destruct s1, s2; cbn [cond_Zopp].
    + rw Z.compare_opp (Z.compare_antisym (Zpos m1 * _)) -Hc. destruct (e1 ?= e2); [|done|done].
      by destruct (Pos.compare_cont Eq m1 m2).
    + by rw (proj2 (Z.compare_lt_iff _ _)); [lia|].
    + by rw (proj2 (Z.compare_gt_iff _ _)); [lia|].
    + by rw -Hc; destruct (e1 ?= e2).
Qed.

(** Rounding produces valid floats. *)
Lemma f64_build_valid m E :
  0 <= m <= 2 ^ 53 -> 0 <= E -> (2 ^ 52 <= m \/ E = 0) -> f64_valid (f64_build m E).
Proof.
  intros Hm HE Hlow. unfold f64_build. destruct (Z.eqb_spec m (2 ^ 53)) as [->|Hne].
  - change (2 ^ 52) with 4503599627370496. cbv beta iota.
    destruct (Z.ltb_spec (971 + 1074) (E + 1)); [done|]. apply valid_finite.
    change (Z.log2 4503599627370496) with 52. lia.
  - destruct m as [|p|p]; [done| |done]. destruct (Z.ltb_spec (971 + 1074) E); [done|].
    apply valid_finite.
    assert (Z.log2 (Zpos p) < 53) by (apply Z.log2_lt_pow2; lia).
    pose proof (Z.log2_nonneg (Zpos p)).
    destruct Hlow as [Hlow| ->]; [|lia]. apply Z.log2_le_pow2 in Hlow; lia.
Qed.

Lemma round_units_valid N d : 0 <= N -> 0 < d -> f64_valid (round_units N d).
Proof.
  intros HN Hd. unfold round_units.
  apply f64_build_valid; [by apply round_mant_bound|apply round_exp_nonneg|].
  destruct (decide (round_exp N d = 0)) as [|HE]; [by right|left].
  pose proof (round_exp_nonneg N d).
  assert (2 ^ 52 * (d * 2 ^ round_exp N d) <= N) as Hu.
  { unfold round_exp in *. set (V := N / d) in *. assert (0 <= V) by (by apply Z.div_pos).
    assert (0 < V) by (destruct (decide (V = 0)) as [HV|]; [rw HV in HE|]; cbn in *; lia).
    pose proof (Z.log2_spec V ltac:(done)) as [Hlog _].
    assert (2 ^ 52 * 2 ^ Z.max 0 (Z.log2 V - 52) = 2 ^ Z.log2 V) as Hp.
    { rw -Z.pow_add_r; try lia. f_equal. lia. }
    assert (d * V <= N) by (by apply Z.mul_div_le). nia. }
  assert (0 < 2 ^ round_exp N d) by (by apply Z.pow_pos_nonneg).
  set (P := d * 2 ^ round_exp N d) in *. assert (0 < P) by (unfold P; nia).
  unfold round_half_even. assert (2 ^ 52 <= N / P) by (apply Z.div_le_lower_bound; lia).
  repeat case_match; lia.
Qed.

Lemma SFopp_valid x : f64_valid (SFopp x) <-> f64_valid x.
Proof. by destruct x. Qed.

Lemma SFopp_finite x : f64_finite (SFopp x) = f64_finite x.
Proof. by destruct x. Qed.

Lemma fscaled_opp x : fscaled (SFopp x) = - fscaled x.
Proof. destruct x as [| | |[] m e]; cbn; lia. Qed.

Lemma scale_pos : 0 < scale.
Proof. done. Qed.

Lemma f64_of_frac_valid n d : f64_valid (f64_of_frac n d).
Proof.
  unfold f64_of_frac. pose proof scale_pos.
  destruct (Z.ltb_spec n 0); [apply SFopp_valid|]; apply round_units_valid; nia.
Qed.

(** The conversion error of a decimal fraction, relative to its size. *)
Lemma f64_of_frac_error n d :
  f64_finite (f64_of_frac n d) = true ->
  2 ^ 53 * Z.abs (fscaled (f64_of_frac n d) * Zpos d - n * scale)
  <= Z.max (2 ^ 52 * Zpos d) (Z.abs n * scale).
Proof.
  unfold f64_of_frac. pose proof scale_pos. destruct (Z.ltb_spec n 0) as [Hn|Hn].
  - rw SFopp_finite fscaled_opp. intros Hf.
    pose proof (round_units_error (- n * scale) (Zpos d) ltac:(nia) ltac:(lia) Hf) as He.
    set (F := fscaled _) in *. rw (Z.abs_neq n); [lia|].
    replace (- F * Z.pos d - n * scale) with (- (F * Z.pos d - - n * scale)) by ring.
    by rw Z.abs_opp.
  - intros Hf. rw (Z.abs_eq n) //.
    apply (round_units_error (n * scale) (Zpos d)); [nia|lia|done].
Qed.

(** A fraction below 2^63 converts to a finite float. *)
Lemma f64_of_frac_finite n d : Z.abs n < 2 ^ 63 -> f64_finite (f64_of_frac n d) = true.
Proof.
  intros Hn.
  assert (forall N, 0 <= N < 2 ^ 63 * scale -> f64_finite (round_units N (Zpos d)) = true) as Hr.
  { intros N HN. unfold round_units.
    assert (round_exp N (Zpos d) <= 1137 - 52) as He.
    { unfold round_exp. enough (Z.log2 (N / Zpos d) <= 1137) by lia.
      etrans; [apply (Z.log2_le_mono _ (2 ^ 63 * scale)), Z.div_le_upper_bound; [lia|nia]|].
      by vm_compute. }
    revert He. generalize (round_exp N (Zpos d)) as E, (round_half_even N (Zpos d * 2 ^ round_exp N (Zpos d))) as m.
    intros E m He. unfold f64_build. destruct (m =? 2 ^ 53).
    - change (2 ^ 52) with 4503599627370496. cbv beta iota.
      by rw (proj2 (Z.ltb_ge _ _)); [lia|].
    - destruct m; try done. by rw (proj2 (Z.ltb_ge _ _)); [lia|]. }
  unfold f64_of_frac. pose proof scale_pos.
  destruct (Z.ltb_spec n 0); [rw SFopp_finite|]; apply Hr; nia.
Qed.

Lemma round_half_even_exact k d : 0 < d -> round_half_even (k * d) d = k.
Proof.
  intros Hd. unfold round_half_even. rw Z.div_mul; [lia|]. rw Z.mod_mul; [lia|].
  by rw (proj2 (Z.ltb_lt _ _)); [lia|].
Qed.

(** A valid positive float is the rounding of its own value. *)
Lemma round_units_exact s m e : f64_valid (S754_finite s m e) ->
  round_units (Zpos m * 2 ^ (e + 1074) * scale) scale = S754_finite false m e.
Proof.
  intros [Hc Hmax]%valid_finite. pose proof scale_pos. pose proof (Z.log2_nonneg (Zpos m)).
  assert (round_exp (Zpos m * 2 ^ (e + 1074) * scale) scale = e + 1074) as HE.
  { unfold round_exp. rw Z.div_mul; [lia|]. rw Z.log2_mul_pow2; lia. }
  unfold round_units. rw HE.
  replace (Zpos m * 2 ^ (e + 1074) * scale) with (Zpos m * (scale * 2 ^ (e + 1074))) by ring.
  rw round_half_even_exact.
  { assert (0 < 2 ^ (e + 1074)) by (apply Z.pow_pos_nonneg; lia). nia. }
  assert (Zpos m < 2 ^ 53) by (apply Z.log2_lt_cancel; change (Z.log2 (2 ^ 53)) with 53; lia).
  unfold f64_build. rw (proj2 (Z.eqb_neq _ _)); [lia|].
  rw (proj2 (Z.ltb_ge _ _)); [lia|]. f_equal. lia.
Qed.

Lemma f64_of_frac_exact a : f64_valid a -> f64_finite a = true ->
  f64_finite (f64_of_frac (fscaled a) (Z.to_pos scale)) = true /\
  fscaled (f64_of_frac (fscaled a) (Z.to_pos scale)) = fscaled a.
Proof.
  intros Hv Hf. unfold f64_of_frac. pose proof scale_pos. rw Z2Pos.id //.
  destruct a as [s| | |s m e]; try done.
  assert (0 < Zpos m * 2 ^ (e + 1074)).
  { apply valid_finite in Hv as [? _]. destruct (fscaled_sign m e); lia. }
  destruct s; cbn [fscaled cond_Zopp].
  - rw (proj2 (Z.ltb_lt _ _)); [lia|]. rw SFopp_finite fscaled_opp Z.opp_involutive.
    by rw (round_units_exact true).
  - rw (proj2 (Z.ltb_ge _ _)); [lia|]. by rw (round_units_exact false).
Qed.

(** ** The float depends on the value of the fraction only *)

Lemma round_half_even_scale n d c : 0 < d -> 0 < c -> round_half_even (n * c) (d * c) = round_half_even n d.
Proof.
  intros Hd Hc. unfold round_half_even. rw Z.div_mul_cancel_r; [lia..|]. rw Z.mul_mod_distr_r; [lia..|].
  set (r := n mod d). assert (forall a b, (a * c <? b * c) = (a <? b)) as Hlt.
  { intros a b. destruct (Z.ltb_spec a b), (Z.ltb_spec (a * c) (b * c)); try done; nia. }
  by rw Z.mul_assoc !Hlt.
Qed.

Lemma f64_of_frac_scale n d c : f64_of_frac (n * Zpos c) (d * c) = f64_of_frac n d.
Proof.
  assert (forall N, round_units (N * Zpos c) (Zpos (d * c)) = round_units N (Zpos d)) as Hr.
  { intros N. unfold round_units, round_exp. rw Pos2Z.inj_mul Z.div_mul_cancel_r; [lia..|].
    set (E := 2 ^ _). f_equal. replace (Zpos d * Zpos c * E) with (Zpos d * E * Zpos c) by ring.
    apply round_half_even_scale; [|done]. apply Z.mul_pos_pos; [done|]. apply Z.pow_pos_nonneg; lia. }
  unfold f64_of_frac. assert ((n * Zpos c <? 0) = (n <? 0)) as ->.
  { destruct (Z.ltb_spec n 0), (Z.ltb_spec (n * Zpos c) 0); try done; nia. }
  destruct (n <? 0); [f_equal|]; rw -Hr; f_equal; ring.
Qed.

Lemma f64_of_frac_ratio n d n' d' : n * Zpos d' = n' * Zpos d -> f64_of_frac n d = f64_of_frac n' d'.
Proof. intros He. rw -(f64_of_frac_scale n d d') -(f64_of_frac_scale n' d' d) He. by rw Pos.mul_comm. Qed.

(** A positive value has one representation. *)
Lemma fscaled_inj x y : f64_valid x -> f64_valid y -> 0 < fscaled x -> fscaled x = fscaled y -> x = y.
Proof.
  intros Hx Hy Hpos Heq.
  assert (forall z : f64, 0 < fscaled z -> exists m e, z = S754_finite false m e) as Hfin.
  { intros [| | |[] m e]; cbn; try lia. by eexists _, _. }
  destruct (Hfin x Hpos) as (m1 & e1 & ->). destruct (Hfin y) as (m2 & e2 & ->); [by rw -Heq|]. cbn in Heq.
  destruct (Z.lt_trichotomy e1 e2) as [Hlt|[<-|Hlt]].
  - pose proof (canonical_lt _ _ _ _ _ _ Hx Hy Hlt). lia.
  - cbn in Hpos. f_equal. nia.
  - pose proof (canonical_lt _ _ _ _ _ _ Hy Hx Hlt). lia.
Qed.
