(* ===== verification/Domain.v ===== *)
(** * Domain types

    The data of internal/domain (accounts, transactions, the status
    constants), the inputs and messages of internal/service and the request
    body of internal/handler/request. Times are nanoseconds since the Unix
    epoch. *)

From S2P Require Import Prelude GoNum Float64.

(** [type Status string]: the type is open, the constants are these three. *)
Definition Status : Type := string.
Definition StatusPending : Status := "pending".
Definition StatusCompleted : Status := "completed".
Definition StatusFailed : Status := "failed".

Record Transaction : Type := mkTransaction {
  ID : string;
  SourceAccount : Z;
  DestAccount : Z;
  Amount : f64;
  TxStatus : Status;
  CreatedAt : Z;
  UpdatedAt : Z;
}.

(** The zero [time.Time], 1 January of year 1. *)
Definition zero_time : Z := -62135596800 * 1000000000.

(** [tx.Status = s] *)
Definition set_status (s : Status) (tx : Transaction) : Transaction :=
  mkTransaction (ID tx) (SourceAccount tx) (DestAccount tx) (Amount tx) s
    (CreatedAt tx) (UpdatedAt tx).

Record Account : Type := mkAccount {
  AccountID : Z;
  Name : string;
  Balance : f64;
  AccountUpdatedAt : Z;
}.

Record CreateTransactionInput : Type := mkInput {
  in_source : Z;
  in_dest : Z;
  in_amount : f64;
}.

Record TxMessage : Type := mkTxMessage {
  msg_tx_id : string;
  msg_source : Z;
  msg_dest : Z;
  msg_amount : f64;
}.

(** [request.CreateTransaction] *)
Record CreateTransactionRequest : Type := mkRequest {
  req_source : Z;
  req_dest : Z;
  req_amount : f64;
}.

#[export] Instance spec_float_eq_dec : EqDecision spec_float.
Proof. solve_decision. Defined.
#[export] Instance Transaction_eq_dec : EqDecision Transaction.
Proof. solve_decision. Defined.
#[export] Instance Account_eq_dec : EqDecision Account.
Proof. solve_decision. Defined.
#[export] Instance TxMessage_eq_dec : EqDecision TxMessage.
Proof. solve_decision. Defined.

(** Cache keys: [fmt.Sprintf("balance:%d", id)], [fmt.Sprintf("tx_status:%s", id)]. *)
Definition balance_key (id : Z) : string := "balance:" +:+ Sprintf_d id.
Definition tx_status_key (id : string) : string := "tx_status:" +:+ id.

Lemma balance_key_inj i j : balance_key i = balance_key j -> i = j.
Proof. intros [= E]. by apply Sprintf_d_inj. Qed.

Lemma tx_status_key_inj i j : tx_status_key i = tx_status_key j -> i = j.
Proof. by intros [= E]. Qed.

Lemma keys_disjoint i t : balance_key i <> tx_status_key t.
Proof. done. Qed.
