(* ===== verification/Sql.v ===== *)
(** * The database schema and the SQL statements of the program

    The two tables of migrations/, the statements that internal/service,
    internal/worker and internal/repository/postgres send, as data, and what
    each of them does to the tables when the server accepts it.  A statement
    that violates a type or constraint of the schema is rejected ([None]).
    Amounts reach the server as decimal literals ([lit], the driver's
    rendering of a [float64]); NUMERIC(18,2) columns are whole cents, and
    storing a value rounds it to two decimals, half away from zero. *)

From S2P Require Import Prelude GoNum Float64 Domain.

(** ** Tables *)

Record AccountRow : Type := mkAccountRow {
  row_name : string;
  row_balance : Z;            (* NUMERIC(18,2), in cents *)
  row_account_updated : Z;
}.

Record TxRow : Type := mkTxRow {
  row_source : Z;             (* REFERENCES accounts(id) *)
  row_dest : Z;               (* REFERENCES accounts(id) *)
  row_amount : Z;             (* NUMERIC(18,2), in cents *)
  row_status : string;        (* VARCHAR(20) *)
  row_created : Z;
  row_updated : Z;
}.

Record Tables : Type := mkTables {
  accounts : gmap Z AccountRow;
  transactions : gmap string TxRow;
}.

#[export] Instance AccountRow_eq_dec : EqDecision AccountRow.
Proof. solve_decision. Defined.
#[export] Instance TxRow_eq_dec : EqDecision TxRow.
Proof. solve_decision. Defined.
#[export] Instance Tables_eq_dec : EqDecision Tables.
Proof. solve_decision. Defined.

(** ** NUMERIC(18,2) *)

(** A decimal literal, as a fraction. *)
Record frac : Type := Frac { fnum : Z; fden : positive }.

(** Nearest integer to [n/d], ties away from zero. *)
Definition round_half_away (n d : Z) : Z :=
  if 0 <=? n then (2 * n + d) / (2 * d) else - ((2 * - n + d) / (2 * d)).

(** Store [n/d] cents in a NUMERIC(18,2) column. *)
Definition numeric_18_2 (n d : Z) : option Z :=
  let c := round_half_away n d in
  if Z.abs c <? 10 ^ 18 then Some c else None.

(** Scan of a NUMERIC(18,2) into a [float64]. *)
Definition scan_numeric (cents : Z) : f64 := f64_of_frac cents 100.

(** ** Statements *)

Inductive stmt : Type :=
(** [UPDATE accounts SET balance = balance - $1, updated_at = NOW() WHERE id = $2] *)
| Debit (amount : f64) (id : Z)
(** [UPDATE accounts SET balance = balance + $1, updated_at = NOW() WHERE id = $2] *)
| Credit (amount : f64) (id : Z)
(** [INSERT INTO transactions (...) VALUES ($1, ..., $6, $6)] *)
| InsertTx (tx : Transaction)
(** The same, [ON CONFLICT (id) DO UPDATE SET status = EXCLUDED.status,
    updated_at = EXCLUDED.updated_at] *)
| UpsertTx (tx : Transaction)
(** [UPDATE transactions SET status = 'completed', updated_at = NOW() WHERE id = $1] *)
| MarkCompleted (id : string)
(** [UPDATE transactions SET status = $1, updated_at = NOW() WHERE id = $2] *)
| UpdateTxStatus (status : string) (id : string).

Section semantics.
(** The driver's decimal literal of a [float64] (none for NaN and the
    infinities), and the stored form of a timestamp. *)
Context (lit : f64 -> option frac) (timestamptz : Z -> Z).

(** [balance = balance + sign * $1 WHERE id = $2] at time [now]. *)
Definition update_balance (sign now : Z) (amount : f64) (id : Z) (tb : Tables) : option Tables :=
  match lit amount with
  | None => None
  | Some q =>
      match accounts tb !! id with
      | None => Some tb
      | Some row =>
          match numeric_18_2 (row_balance row * Zpos (fden q) + sign * (100 * fnum q)) (Zpos (fden q)) with
          | None => None
          | Some b =>
              Some (mkTables (<[id := mkAccountRow (row_name row) b now]> (accounts tb))
                      (transactions tb))
          end
      end
  end.

(** [status = $1 WHERE id = $2] *)
Definition update_status (now : Z) (status id : string) (tb : Tables) : option Tables :=
  if (20 <? String.length status)%nat then None
  else match transactions tb !! id with
       | None => Some tb
       | Some r =>
           Some (mkTables (accounts tb)
                   (<[id := mkTxRow (row_source r) (row_dest r) (row_amount r) status
                              (row_created r) now]> (transactions tb)))
       end.

(** The row of [VALUES ($1, ..., $6, $6)], when its values fit the columns. *)
Definition tx_row (tx : Transaction) : option TxRow :=
  if (26 <? String.length (ID tx))%nat || (20 <? String.length (TxStatus tx))%nat then None
  else match lit (Amount tx) with
       | None => None
       | Some q =>
           match numeric_18_2 (100 * fnum q) (Zpos (fden q)) with
           | None => None
           | Some a =>
               Some (mkTxRow (SourceAccount tx) (DestAccount tx) a (TxStatus tx)
                       (timestamptz (CreatedAt tx)) (timestamptz (CreatedAt tx)))
           end
       end.

(** Both foreign keys of a transaction row. *)
Definition fk_ok (r : TxRow) (tb : Tables) : bool :=
  bool_decide (is_Some (accounts tb !! row_source r)) &&
  bool_decide (is_Some (accounts tb !! row_dest r)).

Definition insert_tx (tx : Transaction) (tb : Tables) : option Tables :=
  match tx_row tx with
  | None => None
  | Some r =>
      match transactions tb !! ID tx with
      | Some _ => None
      | None =>
          if fk_ok r tb
          then Some (mkTables (accounts tb) (<[ID tx := r]> (transactions tb)))
          else None
      end
  end.

Definition upsert_tx (tx : Transaction) (tb : Tables) : option Tables :=
  match tx_row tx with
  | None => None
  | Some r =>
      match transactions tb !! ID tx with
      | Some old =>
          Some (mkTables (accounts tb)
                  (<[ID tx := mkTxRow (row_source old) (row_dest old) (row_amount old)
                                (row_status r) (row_created old) (row_updated r)]>
                     (transactions tb)))
      | None => insert_tx tx tb
      end
  end.

(** Effect of a statement executed at time [now]; [None] is an error. *)
Definition sql_exec (now : Z) (s : stmt) (tb : Tables) : option Tables :=
  match s with
  | Debit amount id => update_balance (-1) now amount id tb
  | Credit amount id => update_balance 1 now amount id tb
  | InsertTx tx => insert_tx tx tb
  | UpsertTx tx => upsert_tx tx tb
  | MarkCompleted id => update_status now StatusCompleted id tb
  | UpdateTxStatus status id => update_status now status id tb
  end.

(** A sequence of accepted statements, each at a time of its own. *)
Inductive sql_run : list stmt -> Tables -> Tables -> Prop :=
| sql_run_nil tb : sql_run [] tb tb
| sql_run_cons now s ss tb tb1 tb2 :
    sql_exec now s tb = Some tb1 -> sql_run ss tb1 tb2 -> sql_run (s :: ss) tb tb2.
End semantics.

(** Sum of all balances, in cents. *)
Definition total_balance (tb : Tables) : Z := map_sum row_balance (accounts tb).

(** Every transaction row refers to existing accounts. *)
Definition fk_inv (tb : Tables) : Prop :=
  forall id r, transactions tb !! id = Some r ->
    is_Some (accounts tb !! row_source r) /\ is_Some (accounts tb !! row_dest r).

(** The amount is a whole number of cents. *)
Definition whole_cents (q : frac) : Prop := (Zpos (fden q) | 100 * fnum q).

(** ** Rounding lemmas *)

Lemma round_half_away_error n d : 0 < d -> Z.abs (2 * (round_half_away n d * d - n)) <= d.
Proof.
  intros Hd. unfold round_half_away. destruct (Z.leb_spec 0 n).
  - pose proof (Z.div_mod (2 * n + d) (2 * d) ltac:(lia)).
    pose proof (Z.mod_pos_bound (2 * n + d) (2 * d) ltac:(lia)). nia.
  - pose proof (Z.div_mod (2 * - n + d) (2 * d) ltac:(lia)).
    pose proof (Z.mod_pos_bound (2 * - n + d) (2 * d) ltac:(lia)). nia.
Qed.

Lemma round_half_away_exact n d : 0 < d -> (d | n) -> round_half_away n d * d = n.
Proof.
  intros Hd [k ->]. pose proof (round_half_away_error (k * d) d Hd) as He.
  enough (round_half_away (k * d) d = k) by lia. nia.
Qed.

(** More than minus half a cent is stored as a non-negative balance. *)
Lemma round_half_away_nonneg n d : 0 < d -> - d < 2 * n -> 0 <= round_half_away n d.
Proof. intros Hd Hn. pose proof (round_half_away_error n d Hd). nia. Qed.

Lemma numeric_18_2_Some n d c :
  0 < d -> numeric_18_2 n d = Some c ->
  c = round_half_away n d /\ Z.abs (2 * (c * d - n)) <= d /\ Z.abs c < 10 ^ 18.
Proof.
  unfold numeric_18_2. intros Hd. case_match eqn:E; [|done]. intros [= <-].
  split; [done|]. split; [by apply round_half_away_error|lia].
Qed.

(** ** Effect of one statement *)

Section lemmas.
Context (lit : f64 -> option frac) (timestamptz : Z -> Z).

#[local] Abbreviation exec := (sql_exec lit timestamptz).
#[local] Abbreviation run := (sql_run lit timestamptz).

Lemma update_balance_Some sign now a id tb tb' :
  update_balance lit sign now a id tb = Some tb' ->
  exists q, lit a = Some q /\ transactions tb' = transactions tb /\
    match accounts tb !! id with
    | None => tb' = tb
    | Some row => exists b,
        numeric_18_2 (row_balance row * Zpos (fden q) + sign * (100 * fnum q)) (Zpos (fden q)) = Some b /\
        accounts tb' = <[id := mkAccountRow (row_name row) b now]> (accounts tb)
    end.
Proof.
  unfold update_balance. intros H. destruct (lit a) as [q|]; [|done]. exists q.
  destruct (accounts tb !! id) as [row|]; [|by simplify_eq].
  case_match eqn:Hb; [|done]. simplify_eq. cbn. eauto.
Qed.

(** The accounts that exist are the same after every statement. *)
Lemma sql_exec_accounts now s tb tb' id :
  exec now s tb = Some tb' -> is_Some (accounts tb' !! id) <-> is_Some (accounts tb !! id).
Proof.
  destruct s as [a i|a i|tx|tx|i|st i]; cbn; intros H.
  1,2: apply update_balance_Some in H as (q & _ & _ & H);
    destruct (accounts tb !! i) as [row|] eqn:Hi; [|by subst];
    destruct H as (b & _ & ->); rw lookup_insert_is_Some';
    destruct (decide (i = id)) as [->|]; [rw Hi|]; naive_solver.
  all: unfold upsert_tx, insert_tx, update_status in H; case_all.
Qed.

(** Statements on the transactions table leave the balances alone. *)
Definition touches_balances (s : stmt) : bool :=
  match s with Debit _ _ | Credit _ _ => true | _ => false end.

Lemma sql_exec_same_accounts now s tb tb' :
  touches_balances s = false -> exec now s tb = Some tb' -> accounts tb' = accounts tb.
Proof.
  destruct s as [a i|a i|tx|tx|i|st i]; cbn; try done; intros _ H;
    unfold upsert_tx, insert_tx, update_status in H; case_all.
Qed.

Lemma sql_exec_same_transactions now s tb tb' :
  touches_balances s = true -> exec now s tb = Some tb' -> transactions tb' = transactions tb.
Proof.
  destruct s as [a i|a i|tx|tx|i|st i]; cbn; try done; intros _ H;
    apply update_balance_Some in H as (q & _ & ? & _); done.
Qed.

Lemma sql_exec_fk now s tb tb' : exec now s tb = Some tb' -> fk_inv tb -> fk_inv tb'.
Proof.
  intros H Hfk id r Hr.
  rw !(sql_exec_accounts now s tb tb' _ H).
  destruct (touches_balances s) eqn:Ht.
  { rw (sql_exec_same_transactions now s tb tb' Ht H) in Hr. by eapply Hfk. }
  destruct s as [a i|a i|tx|tx|i|st i]; cbn in *; try done;
    unfold upsert_tx, insert_tx, update_status, fk_ok in H; case_all.
  all: destruct (decide (id = i)) as [->|]  || destruct (decide (id = ID tx)) as [->|];
    simplify_map_eq; eauto.
  all: repeat match goal with H : _ && _ = true |- _ => apply andb_prop in H as [??] end.
  all: try (by split; eapply bool_decide_eq_true_1).
Qed.

(** A stored transaction keeps its parties and its amount. *)
Definition same_parties (r r' : TxRow) : Prop :=
  row_source r' = row_source r /\ row_dest r' = row_dest r /\ row_amount r' = row_amount r.

Lemma sql_exec_rows now s tb tb' id r :
  exec now s tb = Some tb' -> transactions tb !! id = Some r ->
  exists r', transactions tb' !! id = Some r' /\ same_parties r r'.
Proof.
  intros H Hr. destruct (touches_balances s) eqn:Ht.
  { rw (sql_exec_same_transactions now s tb tb' Ht H). by exists r. }
  destruct s as [a i|a i|tx|tx|i|st i]; cbn in *; try done;
    unfold upsert_tx, insert_tx, update_status in H; case_all; eauto.
  all: destruct (decide (id = i)) as [->|]  || destruct (decide (id = ID tx)) as [->|];
    simplify_map_eq; eauto; by eexists.
Qed.

Lemma sql_run_rows ss tb tb' id r :
  run ss tb tb' -> transactions tb !! id = Some r ->
  exists r', transactions tb' !! id = Some r' /\ same_parties r r'.
Proof.
  intros H. revert r. induction H as [|now s ss tb tb1 tb2 H _ IH]; intros r Hr; [by exists r|].
  destruct (sql_exec_rows _ _ _ _ _ _ H Hr) as (r1 & Hr1 & E1).
  destruct (IH r1 Hr1) as (r2 & Hr2 & E2). exists r2. split; [done|].
  unfold same_parties in *. intuition congruence.
Qed.

(** ** Effect on the sum of the balances *)

Lemma update_balance_total sign now a id tb tb' q :
  update_balance lit sign now a id tb = Some tb' -> lit a = Some q ->
  is_Some (accounts tb !! id) ->
  let delta := (total_balance tb' - total_balance tb) * Zpos (fden q) - sign * (100 * fnum q) in
  Z.abs (2 * delta) <= Zpos (fden q) /\ (whole_cents q -> delta = 0).
Proof.
  intros H Hq [row Hrow] delta. apply update_balance_Some in H as (q' & Hq' & _ & H).
  rw Hq in Hq'. simplify_eq. rw Hrow in H. destruct H as (b & Hb & Hacc).
  assert (total_balance tb' - total_balance tb = b - row_balance row) as Hd.
  { unfold total_balance. rw Hacc (map_sum_insert _ _ _ _ _ Hrow). cbn. lia. }
  pose proof (numeric_18_2_Some _ _ _ (Pos2Z.is_pos _) Hb) as (Hr & He & _).
  unfold delta. rw Hd. split; [lia|]. intros Hw.
  enough (b * Zpos (fden q') = row_balance row * Zpos (fden q') + sign * (100 * fnum q')) by lia.
  rw Hr. apply round_half_away_exact; [done|].
  apply Z.divide_add_r; [apply Z.divide_factor_r|by apply Z.divide_mul_r].
Qed.

(** The identifier of the row a statement may add. *)
Definition row_added (s : stmt) : option string :=
  match s with InsertTx tx | UpsertTx tx => Some (ID tx) | _ => None end.

Lemma lookup_insert_is_Some_or {V} (m : gmap string V) i j v :
  is_Some (<[i := v]> m !! j) -> is_Some (m !! j) \/ Some i = Some j.
Proof. rw lookup_insert. case_decide; subst; auto. Qed.

Lemma sql_exec_keys now s tb tb' i : exec now s tb = Some tb' ->
  is_Some (transactions tb' !! i) -> is_Some (transactions tb !! i) \/ row_added s = Some i.
Proof.
  intros Hx Hi. destruct (touches_balances s) eqn:Ht.
  { left. by rw (sql_exec_same_transactions now s tb tb' Ht Hx) in Hi. }
  destruct s as [a j|a j|tx|tx|j|st j]; cbn in *; try done;
    unfold upsert_tx, insert_tx, update_status in Hx; case_all;
    try apply lookup_insert_is_Some_or in Hi as [Hi|Hi]; simplify_eq; eauto.
Qed.

Lemma sql_run_keys ss tb tb' i : run ss tb tb' ->
  is_Some (transactions tb' !! i) -> is_Some (transactions tb !! i) \/ i ∈ omap row_added ss.
Proof.
  induction 1 as [|now s ss tb tb1 tb2 Hx _ IH]; intros Hi; [by left|].
  destruct (IH Hi) as [H1|H1]; [destruct (sql_exec_keys _ _ _ _ _ Hx H1) as [|Hs]; [by left|]|]; right; cbn.
  - rw Hs. left.
  - destruct (row_added s); [by right|done].
Qed.

Lemma sql_run_accounts ss tb tb' id :
  run ss tb tb' -> is_Some (accounts tb' !! id) <-> is_Some (accounts tb !! id).
Proof. induction 1 as [|now s ss tb tb1 tb2 H _ IH]; [done|]. rw IH. by eapply sql_exec_accounts. Qed.

Lemma sql_run_fk ss tb tb' : run ss tb tb' -> fk_inv tb -> fk_inv tb'.
Proof. induction 1; eauto using sql_exec_fk. Qed.

Lemma sql_run_same_accounts ss tb tb' :
  Forall (fun s => touches_balances s = false) ss -> run ss tb tb' -> accounts tb' = accounts tb.
Proof.
  intros Hss H. induction H as [|now s ss tb tb1 tb2 H _ IH]; [done|].
  inversion_clear Hss as [|?? Hs Hss']. rw IH //. by eapply sql_exec_same_accounts.
Qed.

(** The statements of a transfer: the balance changes, then statements on
    the transactions table. *)
Lemma transfer_total a src dst rest tb tb' q :
  run (Debit a src :: Credit a dst :: rest) tb tb' ->
  Forall (fun s => touches_balances s = false) rest ->
  lit a = Some q -> is_Some (accounts tb !! src) -> is_Some (accounts tb !! dst) ->
  Z.abs (total_balance tb' - total_balance tb) <= 1 /\
  (whole_cents q -> total_balance tb' = total_balance tb).
Proof.
  intros Hrun Hrest Hq Hs Hd. inversion Hrun as [|n1 ??? tb1 ? H1 Hrun1]; subst.
  inversion Hrun1 as [|n2 ??? tb2 ? H2 Hrun2]; subst.
  assert (total_balance tb' = total_balance tb2) as ->.
  { unfold total_balance. by rw (sql_run_same_accounts rest tb2 tb' Hrest Hrun2). }
  pose proof (sql_exec_accounts _ _ _ _ dst H1) as Hd1. cbn in H1, H2.
  pose proof (update_balance_total _ _ _ _ _ _ q H1 Hq Hs) as [E1 W1].
  pose proof (update_balance_total _ _ _ _ _ _ q H2 Hq (proj2 Hd1 Hd)) as [E2 W2].
  set (D := Zpos (fden q)) in *. assert (0 < D) by (unfold D; lia).
  split; [nia|]. intros Hw. specialize (W1 Hw). specialize (W2 Hw). nia.
Qed.

(** The balance of one account after a transfer. *)
Definition balance_of (id : Z) (tb : Tables) : option Z := row_balance <$> accounts tb !! id.

Lemma update_balance_other sign now a id tb tb' j :
  update_balance lit sign now a id tb = Some tb' -> j <> id ->
  accounts tb' !! j = accounts tb !! j.
Proof.
  intros (q & _ & _ & H)%update_balance_Some Hj. destruct (accounts tb !! id); [|by subst].
  destruct H as (b & _ & ->). by rw lookup_insert_ne.
Qed.

Lemma update_balance_self sign now a id tb tb' q row :
  update_balance lit sign now a id tb = Some tb' -> lit a = Some q ->
  accounts tb !! id = Some row ->
  exists b, balance_of id tb' = Some b /\
    b = round_half_away (row_balance row * Zpos (fden q) + sign * (100 * fnum q)) (Zpos (fden q)).
Proof.
  intros (q' & Hq' & _ & H)%update_balance_Some Hq Hrow. rw Hrow in H. simplify_eq.
  destruct H as (b & Hb & Hacc). exists b. unfold balance_of. rw Hacc lookup_insert_eq.
  split; [done|]. by apply numeric_18_2_Some in Hb as (-> & _).
Qed.
End lemmas.

Arguments balance_of : simpl never.
