(* ===== verification/Postgres.v ===== *)
(** * The database driver and server, as an interface

    PostgreSQL, PgBouncer, pgx and sqlx are not part of the repository.  They
    are a type of states with the operations the program calls
    ([PgDriver]) and the documented behaviour the program relies on
    ([PgLaws]), for one session at a time.  Every operation may fail at any
    point: an error leaves the committed tables alone, except that an error
    from [Commit] or from a statement outside a transaction may be reported
    after the server has applied it.  The errors of the driver are its own
    ([foreign]), not the sentinel values of the program. *)

From S2P Require Import Prelude GoNum Float64 Domain Sql.

(** [*sqlx.DB] handles: the primary pool and the read replica. *)
Inductive DB : Type := Primary | Replica.

#[export] Instance DB_eq_dec : EqDecision DB.
Proof. solve_decision. Defined.

Class PgDriver (P : Type) : Type := {
  (** rendering of a [float64] parameter as a decimal literal *)
  pg_literal : f64 -> option frac;
  (** stored form of a timestamp *)
  pg_timestamptz : Z -> Z;

  (** [db.BeginTxx] *)
  pg_begin : M P (result unit);
  (** [SELECT balance FROM accounts WHERE id = $1 FOR UPDATE], in cents *)
  pg_select_balance : Z -> M P (result (option Z));
  (** [SELECT EXISTS(SELECT 1 FROM accounts WHERE id = $1)] *)
  pg_select_exists : Z -> M P (result bool);
  (** [dbTx.ExecContext] *)
  pg_tx_exec : stmt -> M P (result unit);
  pg_commit : M P (result unit);
  pg_rollback : M P (result unit);
  (** [db.ExecContext], outside a transaction *)
  pg_exec : stmt -> M P (result unit);
  (** [SELECT id, name, balance, updated_at FROM accounts WHERE id = $1] *)
  pg_get_account : DB -> Z -> M P (result (option AccountRow));
  (** [SELECT id, source_account, ... FROM transactions WHERE id = $1] *)
  pg_get_tx : DB -> string -> M P (result (option TxRow));

  (** What the server holds: the committed tables, the tables as the open
      transaction sees them, and the tables of the replica. *)
  pg_committed : P -> Tables;
  pg_working : P -> option Tables;
  pg_replica : P -> Tables;
}.

(** Tables a handle reads from. *)
Definition pg_view {P} `{PgDriver P} (h : DB) (p : P) : Tables :=
  match h with Primary => pg_committed p | Replica => pg_replica p end.

(** An error from [Commit] means that nothing was committed; the reads of a
    handle succeed.  Neither is promised by a server that can be lost. *)
Definition commit_definite (P : Type) `{PgDriver P} : Prop := forall p : P,
  wp pg_commit (fun r p' => is_ok r = false -> pg_committed p' = pg_committed p) p.
Definition reads_definite (P : Type) `{PgDriver P} (h : DB) : Prop := forall id (p : P),
  wp (pg_get_tx h id) (fun r _ => is_ok r = true) p.

(** One accepted statement. *)
Definition sql_step {P} `{PgDriver P} (s : stmt) (tb tb' : Tables) : Prop :=
  exists now, sql_exec pg_literal pg_timestamptz now s tb = Some tb'.

Abbreviation sql_steps := (sql_run pg_literal pg_timestamptz).

Class PgLaws (P : Type) `{PgDriver P} : Prop := {
  pg_begin_law p :
    wp pg_begin (fun r p' => pg_committed p' = pg_committed p /\
      match r with Ok _ => pg_working p' = Some (pg_committed p) | Err e => foreign e = true end) p;

  pg_select_balance_law id p tb : pg_working p = Some tb ->
    wp (pg_select_balance id) (fun r p' => pg_committed p' = pg_committed p /\
      match r with
      | Ok b => pg_working p' = Some tb /\ b = balance_of id tb
      | Err e => foreign e = true
      end) p;

  pg_select_exists_law id p tb : pg_working p = Some tb ->
    wp (pg_select_exists id) (fun r p' => pg_committed p' = pg_committed p /\
      match r with
      | Ok b => pg_working p' = Some tb /\ b = bool_decide (is_Some (accounts tb !! id))
      | Err e => foreign e = true
      end) p;

  pg_tx_exec_law s p tb : pg_working p = Some tb ->
    wp (pg_tx_exec s) (fun r p' => pg_committed p' = pg_committed p /\
      match r with
      | Ok _ => exists tb', pg_working p' = Some tb' /\ sql_step s tb tb'
      | Err e => foreign e = true
      end) p;

  pg_commit_law p tb : pg_working p = Some tb ->
    wp pg_commit (fun r p' =>
      match r with
      | Ok _ => pg_committed p' = tb
      | Err e => foreign e = true /\
                 (pg_committed p' = pg_committed p \/ pg_committed p' = tb)
      end) p;

  pg_rollback_law p :
    wp pg_rollback (fun _ p' => pg_committed p' = pg_committed p) p;

  pg_exec_law s p :
    wp (pg_exec s) (fun r p' =>
      match r with
      | Ok _ => sql_step s (pg_committed p) (pg_committed p')
      | Err _ => pg_committed p' = pg_committed p \/ sql_step s (pg_committed p) (pg_committed p')
      end) p;

  pg_get_account_law h id p :
    wp (pg_get_account h id) (fun r p' => pg_committed p' = pg_committed p /\
      match r with Ok row => row = accounts (pg_view h p) !! id | Err e => foreign e = true end) p;

  pg_get_tx_law h id p :
    wp (pg_get_tx h id) (fun r p' => pg_committed p' = pg_committed p /\
      match r with Ok row => row = transactions (pg_view h p) !! id | Err e => foreign e = true end) p;
}.

(** A literal read back as a [float64] is the parameter it was printed from. *)
Class PgLiteral (P : Type) `{PgDriver P} : Prop := {
  pg_literal_back a q : f64_valid a -> f64_finite a = true -> pg_literal a = Some q ->
    f64_finite (f64_of_frac (fnum q) (fden q)) = true /\
    fscaled (f64_of_frac (fnum q) (fden q)) = fscaled a /\
    (0 <= fscaled a -> 0 <= fnum q);
}.
