(* ===== verification/Transfer.v ===== *)
(** * Transfers

    What a debit followed by a credit does to the balances, on the level of
    the SQL statements: the abstract behaviour that [createSync] and the
    worker's [settle] both implement.  The arithmetic that decides whether
    the funds check in [float64] protects a balance held in cents is here. *)

From S2P Require Import Prelude GoNum Float64 Domain Sql Postgres.

(** The debit, the credit, and what follows on the transactions table. *)
Definition transfer_statements (amount : f64) (src dst : Z) (rest : list stmt) : list stmt :=
  Debit amount src :: Credit amount dst :: rest.

(** The amount is a valid, finite, positive float: what the request
    validation lets through, NaN and the infinities apart. *)
Definition good_amount (a : f64) : Prop :=
  f64_valid a /\ f64_finite a = true /\ 0 < fscaled a.

(** Largest balance for which [float64] comparison protects the cents:
    2^43 currency units. *)
Definition safe_cents : Z := 100 * 2 ^ 43.

(** ** The funds check

    [b] cents read as the float [F_b / S], the literal [n / dd] of the amount
    read as [F_a / S], in units of [1 / S]: if the comparison lets the amount
    pass, the debit leaves more than minus half a cent. *)
Lemma funds_arith S F_a F_b n dd b :
  2 ^ 60 <= S -> 0 < dd -> 0 <= n -> 0 <= b <= safe_cents -> F_a <= F_b ->
  2 ^ 53 * Z.abs (F_a * dd - n * S) <= Z.max (2 ^ 52 * dd) (n * S) ->
  2 ^ 53 * Z.abs (F_b * 100 - b * S) <= Z.max (2 ^ 52 * 100) (b * S) ->
  - dd < 2 * (b * dd - 100 * n).
Proof.
  unfold safe_cents. intros HS Hdd Hn Hb HF Ha Hbb. apply Z.lt_nge. intros Hle.
  change (2 ^ 60) with 1152921504606846976 in *. change (2 ^ 53) with 9007199254740992 in *.
  change (2 ^ 52) with 4503599627370496 in *. change (2 ^ 43) with 8796093022208 in *.
  assert (0 <= n * S /\ 0 <= b * S) as [] by nia.
  set (X := n * S) in *. set (Y := b * S) in *.
  assert (9007199254740991 * X <= 9007199254740992 * (F_a * dd) + 4503599627370496 * dd) as E1 by lia.
  assert (900719925474099200 * F_b <= 9007199254740993 * Y + 450359962737049600) as E2 by lia.
  apply (Z.mul_le_mono_nonneg_r _ _ dd) in E2; [|lia].
  assert (2 * (Y * dd) + dd * S <= 200 * X) as E4.
  { unfold X, Y. apply (Z.mul_le_mono_nonneg_r _ _ S) in Hle; lia. }
  apply (Z.mul_le_mono_nonneg_r _ _ dd) in HF; [|lia].
  apply (Z.mul_le_mono_nonneg_r _ _ dd) in HS; [|lia].
  assert (Y * dd <= 879609302220800 * (S * dd)) as E6.
  { replace (Y * dd) with (b * (S * dd)) by (unfold Y; ring).
    apply Z.mul_le_mono_nonneg_r; [nia|lia]. }
  clearbody X Y. rw (Z.mul_comm dd S) in E4. clear Hle Ha Hbb Hn Hb.
  lia.
Qed.

(** The funds check of both paths: the source exists and its balance is not
    less than the amount, compared in [float64]. *)
Definition funds_checked (amount : f64) (src : Z) (tb : Tables) : Prop :=
  exists cents, balance_of src tb = Some cents /\ f64_ltb (scan_numeric cents) amount = false.

(** No account is overdrawn. *)
Definition no_overdraft (tb : Tables) : Prop :=
  forall id c, balance_of id tb = Some c -> 0 <= c.

Lemma balance_of_is_Some id tb c : balance_of id tb = Some c -> is_Some (accounts tb !! id).
Proof. unfold balance_of. intros (row & -> & _)%fmap_Some. eauto. Qed.

Section transfer.
Context {P : Type} `{PgDriver P} `{!PgLiteral P}.

Lemma literal_positive a q : good_amount a -> pg_literal a = Some q -> 0 <= fnum q.
Proof. intros (Hv & Hf & Hp) Hq. destruct (pg_literal_back a q Hv Hf Hq) as (_ & _ & Hn). lia. Qed.

(** The comparison [balance < amount] in [float64] and the subtraction in
    NUMERIC agree up to the half cent that rounding absorbs. *)
Lemma funds_check_sound a q cents :
  good_amount a -> pg_literal a = Some q -> 0 <= cents <= safe_cents ->
  f64_ltb (scan_numeric cents) a = false ->
  - Zpos (fden q) < 2 * (cents * Zpos (fden q) - 100 * fnum q).
Proof.
  intros (Hv & Hf & Hp) Hq Hc Hlt.
  assert (f64_finite (scan_numeric cents) = true) as Hfin.
  { apply f64_of_frac_finite. unfold safe_cents in Hc. lia. }
  destruct (pg_literal_back a q Hv Hf Hq) as (Hqf & Hqa & Hn). specialize (Hn ltac:(lia)).
  rw f64_ltb_spec // in Hlt; [by apply f64_of_frac_valid|]. apply Z.ltb_ge in Hlt.
  pose proof (f64_of_frac_error (fnum q) (fden q) Hqf) as Ea. rw Hqa (Z.abs_eq (fnum q)) // in Ea.
  pose proof (f64_of_frac_error cents 100 Hfin) as Eb. rw (Z.abs_eq cents) in Eb; [lia|].
  eapply (funds_arith scale); [done|lia|exact Hn|exact Hc|exact Hlt|exact Ea|exact Eb].
Qed.

(** The two steps of a transfer, and the literal both of them use. *)
Lemma transfer_inv a src dst rest tb tb' :
  sql_steps (transfer_statements a src dst rest) tb tb' ->
  exists q n1 tb1 n2 tb2,
    pg_literal a = Some q /\
    update_balance pg_literal (-1) n1 a src tb = Some tb1 /\
    update_balance pg_literal 1 n2 a dst tb1 = Some tb2 /\
    sql_steps rest tb2 tb'.
Proof.
  intros Hr. inversion Hr as [|n1 ??? tb1 ? S1 Hr1]; subst.
  inversion Hr1 as [|n2 ??? tb2 ? S2 Hr2]; subst.
  apply update_balance_Some in S1 as Hq. destruct Hq as (q & Hq & _). by exists q, n1, tb1, n2, tb2.
Qed.

(** Accounts other than the two parties keep their row. *)
Lemma transfer_frame a src dst rest tb tb' j :
  sql_steps (transfer_statements a src dst rest) tb tb' ->
  Forall (fun s => touches_balances s = false) rest ->
  j <> src -> j <> dst -> accounts tb' !! j = accounts tb !! j.
Proof.
  intros (q & n1 & tb1 & n2 & tb2 & _ & S1 & S2 & Hr)%transfer_inv Hrest Hs Hd.
  rw (sql_run_same_accounts _ _ _ _ _ Hrest Hr).
  rw (update_balance_other _ _ _ _ _ _ _ _ S2 Hd). by eapply update_balance_other.
Qed.

(** The sum of all balances moves by at most one cent, and not at all when
    the amount is a whole number of cents. *)
Lemma transfer_conserves a src dst rest tb tb' :
  sql_steps (transfer_statements a src dst rest) tb tb' ->
  Forall (fun s => touches_balances s = false) rest ->
  is_Some (accounts tb !! src) -> is_Some (accounts tb !! dst) ->
  Z.abs (total_balance tb' - total_balance tb) <= 1 /\
  (forall q, pg_literal a = Some q -> whole_cents q -> total_balance tb' = total_balance tb).
Proof.
  intros Hr Hrest Hs Hd. destruct (transfer_inv _ _ _ _ _ _ Hr) as (q & _ & _ & _ & _ & Hq & _).
  destruct (transfer_total _ _ _ _ _ _ _ _ q Hr Hrest Hq Hs Hd) as [H1 H2].
  split; [done|]. intros q' Hq'. by simplify_eq.
Qed.

(** A credit never lowers a balance. *)
Lemma credit_grows b n d : 0 < d -> 0 <= n -> b <= round_half_away (b * d + 1 * (100 * n)) d.
Proof.
  intros Hd Hn. pose proof (round_half_away_error (b * d + 1 * (100 * n)) d Hd). nia.
Qed.

(** After a transfer that passed the funds check no party is overdrawn. *)
Lemma transfer_no_overdraft a src dst rest tb tb' cents :
  sql_steps (transfer_statements a src dst rest) tb tb' ->
  Forall (fun s => touches_balances s = false) rest ->
  good_amount a -> balance_of src tb = Some cents -> 0 <= cents <= safe_cents ->
  f64_ltb (scan_numeric cents) a = false ->
  exists c', balance_of src tb' = Some c' /\ 0 <= c'.
Proof.
  intros (q & n1 & tb1 & n2 & tb2 & Hq & S1 & S2 & Hr)%transfer_inv Hrest Ha Hb Hc Hlt.
  pose proof (funds_check_sound a q cents Ha Hq Hc Hlt) as Hsound.
  pose proof (literal_positive a q Ha Hq) as Hn.
  unfold balance_of in Hb. apply fmap_Some in Hb as (row & Hrow & ->).
  destruct (update_balance_self _ _ _ _ _ _ _ q row S1 Hq Hrow) as (b1 & Hb1 & Eb1).
  assert (0 <= b1) as Hb1n by (rw Eb1; apply round_half_away_nonneg; lia).
  assert (balance_of src tb' = balance_of src tb2) as ->.
  { unfold balance_of. by rw (sql_run_same_accounts _ _ _ _ _ Hrest Hr). }
  destruct (decide (src = dst)) as [<-|Hne].
  - unfold balance_of in Hb1. apply fmap_Some in Hb1 as (row1 & Hrow1 & ->).
    destruct (update_balance_self _ _ _ _ _ _ _ q row1 S2 Hq Hrow1) as (b2 & Hb2 & Eb2).
    exists b2. split; [done|]. pose proof (credit_grows (row_balance row1) (fnum q) (Zpos (fden q))). lia.
  - exists b1. split; [|done]. unfold balance_of in *. by rw (update_balance_other _ _ _ _ _ _ _ _ S2).
Qed.

Lemma transfer_no_debit a src dst rest tb tb' c :
  sql_steps (transfer_statements a src dst rest) tb tb' ->
  Forall (fun s => touches_balances s = false) rest ->
  good_amount a -> src <> dst -> balance_of dst tb = Some c ->
  exists c', balance_of dst tb' = Some c' /\ c <= c'.
Proof.
  intros (q & n1 & tb1 & n2 & tb2 & Hq & S1 & S2 & Hr)%transfer_inv Hrest Ha Hne Hb.
  pose proof (literal_positive a q Ha Hq) as Hn.
  unfold balance_of in Hb. apply fmap_Some in Hb as (row & Hrow & ->).
  rw -(update_balance_other _ _ _ _ _ _ _ _ S1 (not_eq_sym Hne)) in Hrow.
  destruct (update_balance_self _ _ _ _ _ _ _ q row S2 Hq Hrow) as (b2 & Hb2 & Eb2).
  exists b2. split.
  - unfold balance_of in *. by rw (sql_run_same_accounts _ _ _ _ _ Hrest Hr).
  - rw Eb2. by apply credit_grows.
Qed.

(** A transfer that passed the funds check overdraws no account. *)
Lemma transfer_keeps_no_overdraft a src dst rest tb tb' :
  sql_steps (transfer_statements a src dst rest) tb tb' ->
  Forall (fun s => touches_balances s = false) rest ->
  funds_checked a src tb -> good_amount a -> no_overdraft tb ->
  (forall c, balance_of src tb = Some c -> c <= safe_cents) ->
  no_overdraft tb'.
Proof.
  intros Hrun Hrest (c & Hb & Hlt) Ha Hno Hsafe id c' Hc'.
  destruct (transfer_no_overdraft _ _ _ _ _ _ c Hrun Hrest Ha Hb
    (conj (Hno _ _ Hb) (Hsafe _ Hb)) Hlt) as (c1 & Hc1 & Hc1pos).
  destruct (decide (id = src)) as [->|Hs]; [congruence|].
  destruct (decide (id = dst)) as [->|Hd].
  - destruct (proj1 (sql_run_accounts _ _ _ _ _ dst Hrun) (balance_of_is_Some _ _ _ Hc')) as [row Hrow].
    assert (balance_of dst tb = Some (row_balance row)) as Hcd by (unfold balance_of; by rw Hrow).
    destruct (transfer_no_debit _ _ _ _ _ _ _ Hrun Hrest Ha (not_eq_sym Hs) Hcd) as (c2 & Hc2 & ?).
    pose proof (Hno _ _ Hcd). simplify_eq. lia.
  - apply (Hno id). unfold balance_of in *. by rw (transfer_frame _ _ _ _ _ _ id Hrun Hrest Hs Hd) in Hc'.
Qed.
End transfer.

(** Without overdrafts, no balance exceeds the sum of the balances. *)
Lemma balance_le_total tb id c : no_overdraft tb -> balance_of id tb = Some c -> c <= total_balance tb.
Proof.
  intros Hno Hc. unfold balance_of in Hc. apply fmap_Some in Hc as (row & Hrow & ->).
  apply (map_sum_ge row_balance _ id); [|done]. intros j r Hj. apply (Hno j). unfold balance_of. by rw Hj.
Qed.
