(* ===== verification/Bank.v ===== *)
(** * The bank, abstractly

    What the service and the worker promise together, without floats, SQL,
    queue or cache: balances in cents, and a book of transfers, each pending,
    completed or failed.  Four moves change the bank.  The files that follow
    prove that the code makes no other ([Ledger]). *)

From S2P Require Import Prelude GoNum Float64 Domain Sql.

Record Posting : Type := mkPosting {
  po_source : Z;
  po_dest : Z;
  po_cents : Z;
  po_status : Status;
}.

Definition post_status (s : Status) (p : Posting) : Posting :=
  mkPosting (po_source p) (po_dest p) (po_cents p) s.

Record Bank : Type := mkBank {
  holdings : gmap Z Z;
  book : gmap string Posting;
}.

(** Move [cents] from [src] to [dst]. *)
Definition move (src dst cents : Z) (bs : gmap Z Z) : gmap Z Z :=
  alter (fun b => b + cents) dst (alter (fun b => b - cents) src bs).

(** The payer can pay, and the payee exists. *)
Definition covered (p : Posting) (bs : gmap Z Z) : Prop :=
  (exists b, bs !! po_source p = Some b /\ po_cents p <= b) /\ is_Some (bs !! po_dest p).

Definition settled (id : string) (p : Posting) (b : Bank) : Bank :=
  mkBank (move (po_source p) (po_dest p) (po_cents p) (holdings b))
    (<[id := post_status StatusCompleted p]> (book b)).

Inductive bank_step : Bank -> Bank -> Prop :=
(** a new transfer is recorded as pending *)
| bank_record b id p :
    book b !! id = None -> po_status p = StatusPending -> 0 <= po_cents p ->
    is_Some (holdings b !! po_source p) -> is_Some (holdings b !! po_dest p) ->
    bank_step b (mkBank (holdings b) (<[id := p]> (book b)))
(** a new transfer is recorded as completed, and its money moves *)
| bank_transfer b id p :
    book b !! id = None -> po_status p = StatusCompleted -> 0 <= po_cents p -> covered p (holdings b) ->
    bank_step b (settled id p b)
(** a recorded transfer is completed, and its money moves *)
| bank_settle b id p :
    book b !! id = Some p -> po_status p <> StatusCompleted -> covered p (holdings b) ->
    bank_step b (settled id p b)
(** a recorded transfer fails *)
| bank_fail b id p :
    book b !! id = Some p -> po_status p <> StatusCompleted ->
    bank_step b (mkBank (holdings b) (<[id := post_status StatusFailed p]> (book b))).

(** ** Invariants *)

Definition known_status (s : Status) : Prop := s = StatusPending \/ s = StatusCompleted \/ s = StatusFailed.

(** No account is overdrawn; every transfer in the book is between accounts
    of the bank, of an amount that is not negative, in one of three states. *)
Record bank_ok (b : Bank) : Prop := {
  ok_holdings : map_Forall (fun _ c => 0 <= c) (holdings b);
  ok_book : map_Forall (fun _ p => is_Some (holdings b !! po_source p) /\ is_Some (holdings b !! po_dest p) /\
              0 <= po_cents p /\ known_status (po_status p)) (book b);
}.

(** What a transfer did to account [id]. *)
Definition flow (id : Z) (p : Posting) : Z :=
  if String.eqb (po_status p) StatusCompleted
  then (if decide (po_dest p = id) then po_cents p else 0) - (if decide (po_source p = id) then po_cents p else 0)
  else 0.

(** The balance of [id] less everything the completed transfers did to it. *)
Definition opening (id : Z) (b : Bank) : option Z :=
  (fun c => c - map_sum (flow id) (book b)) <$> holdings b !! id.

Definition completed (id : string) (b : Bank) : Prop :=
  exists p, book b !! id = Some p /\ po_status p = StatusCompleted.

Lemma lookup_move src dst cents bs id :
  move src dst cents bs !! id =
    (fun b => b + (if decide (dst = id) then cents else 0) - (if decide (src = id) then cents else 0)) <$> bs !! id.
Proof.
  unfold move. rw !lookup_alter. destruct (decide (dst = id)), (decide (src = id)); subst;
    repeat case_decide; try done; destruct (bs !! _); cbn; f_equal; lia.
Qed.

Lemma move_is_Some src dst cents bs id : is_Some (move src dst cents bs !! id) <-> is_Some (bs !! id).
Proof. rw lookup_move fmap_is_Some. done. Qed.

Lemma flow_pending id p : po_status p <> StatusCompleted -> flow id p = 0.
Proof. unfold flow. by destruct (String.eqb_spec (po_status p) StatusCompleted). Qed.

Lemma flow_completed id p : flow id (post_status StatusCompleted p) =
  (if decide (po_dest p = id) then po_cents p else 0) - (if decide (po_source p = id) then po_cents p else 0).
Proof. done. Qed.

(** Recording a transfer adds its flow to the sum. *)
Lemma flows_insert id (bk : gmap string Posting) k p :
  map_sum (flow id) (<[k := p]> bk) = map_sum (flow id) bk - default 0 (flow id <$> bk !! k) + flow id p.
Proof.
  destruct (bk !! k) as [old|] eqn:Hk; cbn; [by apply map_sum_insert|]. rw map_sum_insert_new //. lia.
Qed.

Lemma opening_settled id p b acc :
  default 0 (flow acc <$> book b !! id) = 0 -> opening acc (settled id p b) = opening acc b.
Proof.
  intros Hold. unfold opening, settled. cbn. rw lookup_move flows_insert Hold flow_completed.
  destruct (holdings b !! acc); cbn; [f_equal; lia|done].
Qed.

Lemma opening_step b b' acc : bank_step b b' -> opening acc b' = opening acc b.
Proof.
  intros [b0 id p Hn Hs _ _ _|b0 id p Hn Hs _ _|b0 id p Hp Hs _|b0 id p Hp Hs].
  - unfold opening. cbn. rw flows_insert Hn flow_pending; [by rw Hs|].
    destruct (holdings b0 !! acc); cbn; f_equal; lia.
  - apply opening_settled. by rw Hn.
  - apply opening_settled. rw Hp. by apply flow_pending.
  - unfold opening. cbn. rw flows_insert Hp. cbn. rw !flow_pending //.
    destruct (holdings b0 !! acc); cbn; f_equal; lia.
Qed.

Lemma bank_ok_insert b id p :
  bank_ok b -> is_Some (holdings b !! po_source p) -> is_Some (holdings b !! po_dest p) -> 0 <= po_cents p ->
  known_status (po_status p) -> bank_ok (mkBank (holdings b) (<[id := p]> (book b))).
Proof. intros [Hb Hk] Hs Hd Hc Hst. split; [done|]. by apply map_Forall_insert_2. Qed.

Lemma bank_ok_settled b id p : bank_ok b -> 0 <= po_cents p -> covered p (holdings b) -> bank_ok (settled id p b).
Proof.
  intros [Hb Hk] Hc ((x & Hx & Hle) & Hd). split; cbn.
  - intros acc c. rw lookup_move. intros (c0 & Hc0 & ->)%fmap_Some. pose proof (Hb acc c0 Hc0) as Hpos. cbn in Hpos.
    repeat case_decide; subst; simplify_eq; lia.
  - apply map_Forall_insert_2; cbn.
    + rw !move_is_Some. split_and!; [by rw Hx|done|done|by right; left].
    + intros i r Hr. cbn. rw !move_is_Some. by apply (Hk i r).
Qed.

Lemma bank_ok_step b b' : bank_step b b' -> bank_ok b -> bank_ok b'.
Proof.
  intros [b0 id p Hn Hs Hc Hsrc Hdst|b0 id p Hn Hs Hc Hcov|b0 id p Hp Hs Hcov|b0 id p Hp Hs] Hok.
  - apply bank_ok_insert; try done. by left.
  - by apply bank_ok_settled.
  - apply bank_ok_settled; try done. by apply (ok_book _ Hok id p Hp).
  - destruct (ok_book _ Hok id p Hp) as (? & ? & ? & ?). apply bank_ok_insert; try done. by right; right.
Qed.

(** Moving money between accounts of the bank keeps the sum. *)
Lemma move_total src dst cents bs :
  is_Some (bs !! src) -> is_Some (bs !! dst) -> map_sum id (move src dst cents bs) = map_sum id bs.
Proof.
  assert (forall (k : Z) f (m : gmap Z Z) c, m !! k = Some c -> map_sum id (alter f k m) = map_sum id m - c + f c) as Halter.
  { intros k f m c Hk. rw -(insert_delete_id m k c Hk) alter_insert_eq. rw !map_sum_insert_new ?lookup_delete_eq //.
    unfold id. lia. }
  intros [x Hx] [y Hy]. unfold move. destruct (decide (src = dst)) as [<-|Hne].
  - rw (Halter src _ _ (x - cents)); [by rw lookup_alter_eq Hx|]. rw (Halter src _ _ x) //. lia.
  - rw (Halter dst _ _ y); [by rw lookup_alter_ne|]. rw (Halter src _ _ x) //. lia.
Qed.

Lemma total_step b b' : bank_step b b' -> map_sum id (holdings b') = map_sum id (holdings b).
Proof.
  assert (forall i p b0, covered p (holdings b0) -> map_sum id (holdings (settled i p b0)) = map_sum id (holdings b0)) as Hset.
  { intros i p b0 ((x & Hx & _) & Hd). apply move_total; [by rw Hx|done]. }
  by intros [b0 i p|b0 i p Hn Hs Hc Hcov|b0 i p Hp Hs Hcov|b0 i p]; try apply Hset.
Qed.

Lemma completed_step b b' id : bank_step b b' -> completed id b -> completed id b'.
Proof.
  intros [b0 i p Hn|b0 i p Hn|b0 i p Hp Hs|b0 i p Hp Hs] (r & Hr & Hst); unfold completed; cbn;
    destruct (decide (i = id)) as [->|Hne]; try congruence; exists r; by rw lookup_insert_ne.
Qed.

(** Everything the moves of the bank keep. *)
Definition bank_keeps (b b' : Bank) : Prop :=
  (bank_ok b -> bank_ok b') /\
  map_sum id (holdings b') = map_sum id (holdings b) /\
  (forall acc, opening acc b' = opening acc b) /\
  (forall i, completed i b -> completed i b').

Lemma bank_keeps_steps b b' : rtc bank_step b b' -> bank_keeps b b'.
Proof.
  induction 1 as [b|b b1 b' Hs _ (IHo & IHt & IHp & IHc)]; [by split_and!|]. split_and!.
  - intros Hok. by apply IHo, (bank_ok_step b).
  - by rw IHt (total_step b).
  - intros acc. by rw IHp (opening_step b).
  - intros i Hc. by apply IHc, (completed_step b).
Qed.

(** ** A bank that forgets

    The moves of a worker that may look at the wrong status: a transfer can be
    settled or failed whatever its status. *)
Inductive careless_step : Bank -> Bank -> Prop :=
| careless_bank b b' : bank_step b b' -> careless_step b b'
| careless_settle b id p :
    book b !! id = Some p -> covered p (holdings b) -> careless_step b (settled id p b)
| careless_fail b id p :
    book b !! id = Some p ->
    careless_step b (mkBank (holdings b) (<[id := post_status StatusFailed p]> (book b))).

(** No money appears or disappears, and nobody is overdrawn, even so. *)
Lemma careless_keeps b b' : careless_step b b' -> bank_ok b ->
  bank_ok b' /\ map_sum id (holdings b') = map_sum id (holdings b).
Proof.
  intros [b0 b1 Hs|b0 i p Hp ((x & Hx & Hle) & Hd)|b0 i p Hp] Hok.
  - split; [by eapply bank_ok_step|by apply total_step].
  - split; [apply bank_ok_settled; [done|by apply (ok_book _ Hok i p Hp)|by split; [exists x|]]|].
    apply move_total; [by rw Hx|done].
  - split; [|done]. destruct (ok_book _ Hok i p Hp) as (? & ? & ? & ?). apply bank_ok_insert; try done. by right; right.
Qed.

Lemma careless_keeps_steps b b' : rtc careless_step b b' -> bank_ok b ->
  bank_ok b' /\ map_sum id (holdings b') = map_sum id (holdings b).
Proof.
  induction 1 as [b|b b1 b' Hs _ IH]; intros Hok; [done|]. destruct (careless_keeps _ _ Hs Hok) as [Hok1 E1].
  destruct (IH Hok1) as [Hok' E']. split; [done|]. by rw E'.
Qed.
