(* ===== verification/Redis.v ===== *)
(** * The cache server, as an interface

    Redis and go-redis are not part of the repository.  A cache entry has a
    value and, unless it was set with a zero expiration, a deadline.  The
    server may drop entries at any time (eviction, restart), never returns an
    entry at or after its deadline, and an operation that reports an error
    may or may not have been applied. *)

From S2P Require Import Prelude.

Record Entry : Type := mkEntry { e_value : string; e_deadline : option Z }.

Class RedisServer (R : Type) : Type := {
  (** [rdb.Get(ctx, key).Bytes()]: a missing key is the error [redis.Nil] *)
  rd_get : string -> M R (result string);
  (** [rdb.Set(ctx, key, value, expiration)] *)
  rd_set : string -> string -> Z -> M R (result unit);
  (** [rdb.Del(ctx, keys...)] *)
  rd_del : list string -> M R (result unit);

  rd_entries : R -> gmap string Entry;
  rd_time : R -> Z;
}.

(** [k] holds [v] at time [t]. *)
Definition live (t : Z) (e : Entry) : Prop :=
  match e_deadline e with Some d => t < d | None => True end.

(** The deadline of a [Set] with expiration [ttl] executed at time [t]. *)
Definition deadline (t ttl : Z) : option Z := if ttl =? 0 then None else Some (t + ttl).

Class RedisLaws (R : Type) `{RedisServer R} : Prop := {
  rd_get_law k r :
    wp (rd_get k) (fun res r' =>
      rd_entries r' ⊆ rd_entries r /\ rd_time r <= rd_time r' /\
      match res with
      | Ok v => exists e, rd_entries r !! k = Some e /\ e_value e = v /\ live (rd_time r) e
      | Err _ => True
      end) r;

  rd_set_law k v ttl r : 0 <= ttl ->
    wp (rd_set k v ttl) (fun res r' =>
      rd_time r <= rd_time r' /\
      ((exists t, rd_time r <= t <= rd_time r' /\
          rd_entries r' ⊆ <[k := mkEntry v (deadline t ttl)]> (rd_entries r)) \/
       (res <> Ok tt /\ rd_entries r' ⊆ rd_entries r))) r;

  rd_del_law ks r :
    wp (rd_del ks) (fun res r' =>
      rd_entries r' ⊆ rd_entries r /\ rd_time r <= rd_time r' /\
      match res with
      | Ok _ => forall k, k ∈ ks -> rd_entries r' !! k = None
      | Err _ => True
      end) r;
}.
