(* ===== verification/Queue.v ===== *)
(** * The queue client

    internal/infrastructure/queue/queue.go.  RabbitMQ and amqp091-go are an
    interface ([AmqpLib]): connections and channels are handles, and the view
    [amqp_trace] lists the frames the broker has been sent.  The client is
    the record of queue.go; its mutex makes every operation atomic, so an
    operation is a function of the client and the library state. *)

From S2P Require Import Prelude.

(** [amqp.Publishing] with the fields queue.go sets. *)
Record Publishing : Type := mkPublishing {
  ContentType : string;
  DeliveryMode : Z;
  Body : string;
}.

(** [amqp.Persistent] *)
Definition Persistent : Z := 2.

(** Frames sent on a channel. *)
Inductive frame : Type :=
| FDeclare (queue : string) (durable autoDelete exclusive noWait : bool)
    (args : list (string * string))
| FPublish (exchange key : string) (mandatory immediate : bool) (msg : Publishing)
| FAck (tag : Z) (multiple : bool)
| FNack (tag : Z) (multiple requeue : bool).

#[export] Instance Publishing_eq_dec : EqDecision Publishing.
Proof. solve_decision. Defined.
#[export] Instance frame_eq_dec : EqDecision frame.
Proof. solve_decision. Defined.

Class AmqpLib (A : Type) : Type := {
  amqp_Dial : string -> M A (result nat);
  conn_Channel : nat -> M A (result nat);
  conn_Close : nat -> M A (result unit);
  conn_IsClosed : nat -> M A bool;
  chan_Close : nat -> M A (result unit);
  (** declare, publish, ack and nack: send one frame *)
  chan_send : nat -> frame -> M A (result unit);
  (** [ch.Consume(queue, consumer, autoAck, exclusive, noLocal, noWait, nil)] *)
  chan_Consume : nat -> string -> string -> bool -> bool -> bool -> bool -> M A (result nat);
  (** number of ready messages *)
  chan_QueueInspect : nat -> string -> M A (result Z);

  (** frames sent so far, with their channel, oldest first *)
  amqp_trace : A -> list (nat * frame);
  (** connections and channels that are open *)
  amqp_open_conns : A -> gset nat;
  amqp_open_chans : A -> gset nat;
}.

(** Behaviour of amqp091-go the client relies on. *)
Class AmqpLaws (A : Type) `{AmqpLib A} : Prop := {
  (** a frame is sent once; an error may hide that it was sent *)
  chan_send_law ch f a :
    wp (chan_send ch f) (fun r a' =>
      match r with
      | Ok _ => amqp_trace a' = amqp_trace a ++ [(ch, f)]
      | Err _ => amqp_trace a' = amqp_trace a \/ amqp_trace a' = amqp_trace a ++ [(ch, f)]
      end) a;
  (** every use of a closed channel is refused ([amqp.ErrClosed]) *)
  chan_send_closed ch f a : ch ∉ amqp_open_chans a ->
    wp (chan_send ch f) (fun r a' => is_ok r = false /\ a' = a) a;
  conn_IsClosed_law c a :
    wp (conn_IsClosed c) (fun b a' => a' = a /\ b = bool_decide (c ∉ amqp_open_conns a)) a;
  amqp_Dial_law url a : wp (amqp_Dial url) (fun _ a' => amqp_trace a' = amqp_trace a) a;
  conn_Channel_law c a : wp (conn_Channel c) (fun _ a' => amqp_trace a' = amqp_trace a) a;
  conn_Close_law c a : wp (conn_Close c) (fun _ a' => amqp_trace a' = amqp_trace a) a;
  chan_Close_law c a : wp (chan_Close c) (fun _ a' => amqp_trace a' = amqp_trace a) a;
}.

(** [type Client struct] (the mutex is the atomicity of the operations). *)
Record Client : Type := mkClient {
  url : string;
  conn : option nat;
  channel : option nat;
}.

Definition fmt_wrap (p : string) (e : goerror) : goerror := Wrapped p e.

Section client.
Context {A : Type} `{AmqpLib A}.
Local Open Scope go_scope.

Definition declareQueues (ch : nat) : M A (result unit) :=
  try _ <- chan_send ch (FDeclare "transactions.dlq" true false false false [])
    catch (fun e => mret (Err (fmt_wrap "declare dlq" e))) ;;
  try _ <- chan_send ch (FDeclare "transactions" true false false false
      [("x-dead-letter-exchange", ""); ("x-dead-letter-routing-key", "transactions.dlq")])
    catch (fun e => mret (Err (fmt_wrap "declare transactions queue" e))) ;;
  mret (Ok tt).

(** The client, with the library underneath. *)
Definition with_amqp {B} (m : M A B) : M (Client * A) B := mlift snd (fun a ca => (fst ca, a)) m.
Definition get_client : M (Client * A) Client := mget fst.
Definition put_client (f : Client -> Client) : M (Client * A) unit :=
  mput (fun ca => (f (fst ca), snd ca)).

Definition dial : M (Client * A) (result unit) :=
  c <- get_client ;;
  try conn <- with_amqp (amqp_Dial (url c)) catch (fun e => mret (Err (fmt_wrap "amqp dial" e))) ;;
  try ch <- with_amqp (conn_Channel conn) catch (fun e =>
    with_amqp (conn_Close conn) ;;; mret (Err (fmt_wrap "open channel" e))) ;;
  try _ <- with_amqp (declareQueues ch) catch (fun e =>
    with_amqp (chan_Close ch) ;;;
    with_amqp (conn_Close conn) ;;;
    mret (Err e)) ;;
  put_client (fun c => mkClient (url c) (Some conn) (Some ch)) ;;;
  mret (Ok tt).

Definition New (u : string) : M A (result Client) :=
  fun a =>
    let '(r, (c, a')) := dial (mkClient u None None, a) in
    match r with Ok _ => (Ok c, a') | Err e => (Err e, a') end.

(** The end of [getChannel]; the [nil] channel after a successful [dial]
    does not occur ([redial_spec]). *)
Definition redial : M (Client * A) (result nat) :=
  try _ <- dial catch (fun e => mret (Err (fmt_wrap "reconnect" e))) ;;
  c <- get_client ;;
  mret (match channel c with Some ch => Ok ch | None => Err (ErrorString "nil channel") end).

Definition getChannel : M (Client * A) (result nat) :=
  c <- get_client ;;
  active <- match conn c with
            | None => mret None
            | Some k =>
                closed <- with_amqp (conn_IsClosed k) ;;
                mret (if (closed : bool) then None else channel c)
            end ;;
  match active with
  | Some ch => mret (Ok ch)
  | None => redial
  end.

Definition Close : M (Client * A) unit :=
  c <- get_client ;;
  match channel c with Some ch => with_amqp (chan_Close ch) | None => mret (Ok tt) end ;;;
  match conn c with Some k => with_amqp (conn_Close k) | None => mret (Ok tt) end ;;;
  mret tt.

Definition Publish (queue : string) (body : string) : M (Client * A) (result unit) :=
  try ch <- getChannel catch (fun e => mret (Err e)) ;;
  with_amqp (chan_send ch
    (FPublish "" queue false false (mkPublishing "application/json" Persistent body))).

Definition Consume (queue : string) : M (Client * A) (result nat) :=
  try ch <- getChannel catch (fun e => mret (Err e)) ;;
  with_amqp (chan_Consume ch queue "" false false false false).

Definition QueueDepth (queue : string) : M (Client * A) (result Z) :=
  try ch <- getChannel catch (fun e => mret (Err e)) ;;
  try n <- with_amqp (chan_QueueInspect ch queue)
    catch (fun e => mret (Err (fmt_wrap ("inspect queue " +:+ queue) e))) ;;
  mret (Ok n).
End client.

(** ** Properties of the client *)

(** The two declarations of [declareQueues], on channel [ch]. *)
Definition declare_frames (ch : nat) : list (nat * frame) :=
  [(ch, FDeclare "transactions.dlq" true false false false []);
   (ch, FDeclare "transactions" true false false false
      [("x-dead-letter-exchange", ""); ("x-dead-letter-routing-key", "transactions.dlq")])].

Definition publish_frame (queue body : string) : frame :=
  FPublish "" queue false false (mkPublishing "application/json" Persistent body).

Section laws.
Context {A : Type} `{AmqpLib A} `{!AmqpLaws A}.

(** What a (re)connection leaves: the client untouched, or a fresh
    connection and channel on which both queues were declared. *)
Definition dialed (c : Client) (a : A) (r : bool) (ca : Client * A) : Prop :=
  if r then exists k ch, fst ca = mkClient (url c) (Some k) (Some ch) /\
              amqp_trace (snd ca) = amqp_trace a ++ declare_frames ch
  else fst ca = c.

Lemma declareQueues_spec ch a :
  wp (declareQueues ch) (fun r a' =>
    is_ok r = true -> amqp_trace a' = amqp_trace a ++ declare_frames ch) a.
Proof.
  unfold declareQueues. wp_steps. wp_apply chan_send_law. intros [[]|e] a1 H1; [|by wp_steps].
  wp_steps. wp_apply chan_send_law. intros [[]|e] a2 H2; wp_steps; [|done].
  by rw H2 H1 -app_assoc.
Qed.

Lemma dial_spec c a : wp dial (fun r ca => dialed c a (is_ok r) ca) (c, a).
Proof.
  unfold dial, with_amqp, get_client, put_client. wp_steps.
  wp_apply amqp_Dial_law. intros [k|e] a1 H1; [|by wp_steps].
  wp_steps. wp_apply conn_Channel_law. intros [ch|e] a2 H2; wp_steps.
  2: { by wp_apply conn_Close_law. }
  wp_apply declareQueues_spec. intros [[]|e] a3 H3; wp_steps.
  - exists k, ch. cbn in *. split; [done|]. rw H3 //. by rw H2 H1.
  - wp_apply chan_Close_law. intros. wp_steps. by wp_apply conn_Close_law.
Qed.

(** The channel handed out by [getChannel]: the cached one while the
    connection is open, a newly dialed one otherwise. *)
Definition cached (c : Client) (a : A) (ch : nat) (ca : Client * A) : Prop :=
  exists k, conn c = Some k /\ k ∈ amqp_open_conns a /\ channel c = Some ch /\ ca = (c, a).

Definition handed_out (c : Client) (a : A) (r : result nat) (ca : Client * A) : Prop :=
  match r with
  | Ok ch => cached c a ch ca \/ (channel (fst ca) = Some ch /\ dialed c a true ca)
  | Err _ => fst ca = c
  end.

Lemma redial_spec c a : wp redial (handed_out c a) (c, a).
Proof.
  unfold redial, get_client. wp_steps. wp_apply dial_spec.
  intros [[]|e] [c' a1]; cbn; [|by wp_steps].
  intros (k & ch & -> & Htr). wp_steps. right. split; [done|]. by exists k, ch.
Qed.

Lemma getChannel_spec c a : wp getChannel (handed_out c a) (c, a).
Proof.
  unfold getChannel, get_client, with_amqp. wp_steps.
  destruct (conn c) as [k|] eqn:Hk; wp_steps; [|by apply redial_spec].
  wp_apply conn_IsClosed_law. intros closed a1 [-> ->]. wp_steps.
  case_bool_decide as Hc; [by apply redial_spec|].
  destruct (channel c) as [ch|] eqn:Hch; [|by apply redial_spec]. wp_steps.
  left. exists k. split_and!; done || by apply dec_stable.
Qed.

Lemma Publish_spec c a q body :
  wp (Publish q body) (fun r ca => is_ok r = true ->
    (exists ch, cached c a ch (c, a) /\ fst ca = c /\
      amqp_trace (snd ca) = amqp_trace a ++ [(ch, publish_frame q body)]) \/
    (exists ch, channel (fst ca) = Some ch /\
      amqp_trace (snd ca) = amqp_trace a ++ declare_frames ch ++ [(ch, publish_frame q body)])) (c, a).
Proof.
  unfold Publish. wp_steps. wp_apply getChannel_spec.
  intros [ch|e] [c' a1]; cbn; [|by intros; wp_steps].
  intros [(k & Hk & Ho & Hch & [= -> ->])|(Hch & k & ch' & Hc' & Htr)];
    unfold with_amqp; wp_steps; (wp_apply chan_send_law; intros [[]|e] a2 H2; [intros _|done]).
  - left. exists ch. split; [by exists k|done].
  - right. cbn in *. subst c'. injection Hch as ->. exists ch. split; [done|].
    by rw H2 Htr -app_assoc.
Qed.

(** The messages published so far: routing key and body. *)
Definition published (tr : list (nat * frame)) : list (string * string) :=
  omap (fun cf => match snd cf with FPublish _ key _ _ m => Some (key, Body m) | _ => None end) tr.

Lemma published_app t1 t2 : published (t1 ++ t2) = published t1 ++ published t2.
Proof. apply omap_app. Qed.

(** Reconnecting publishes nothing, whatever fails. *)
Lemma send_declare_published ch (f : frame) a : published [(ch, f)] = [] ->
  wp (chan_send ch f) (fun _ a' => published (amqp_trace a') = published (amqp_trace a)) a.
Proof.
  intros Hf. wp_apply chan_send_law. intros [_|_] a' Ha; [|destruct Ha as [Ha|Ha]];
    rw Ha ?published_app ?Hf ?app_nil_r //.
Qed.

Lemma declareQueues_published ch a :
  wp (declareQueues ch) (fun _ a' => published (amqp_trace a') = published (amqp_trace a)) a.
Proof.
  unfold declareQueues. wp_steps. wp_apply send_declare_published; [done|].
  intros [_|e] a1 H1; wp_steps; [|done]. wp_apply send_declare_published; [done|].
  intros [_|e] a2 H2; wp_steps; by rw H2.
Qed.

Lemma dial_published c a :
  wp dial (fun _ ca => published (amqp_trace (snd ca)) = published (amqp_trace a)) (c, a).
Proof.
  unfold dial, with_amqp, get_client, put_client. wp_steps.
  wp_apply amqp_Dial_law. intros [k|e] a1 E1; wp_steps; [|by rw E1].
  wp_apply conn_Channel_law. intros [ch|e] a2 E2; wp_steps.
  2: { wp_apply conn_Close_law. intros ? a3 E3. wp_steps. by rw E3 E2 E1. }
  wp_apply declareQueues_published. intros [_|e] a3 E3; wp_steps; [by rw E3 E2 E1|].
  wp_apply chan_Close_law. intros ? a4 E4. wp_steps. wp_apply conn_Close_law. intros ? a5 E5. wp_steps.
  by rw E5 E4 E3 E2 E1.
Qed.

Lemma getChannel_published c a :
  wp getChannel (fun _ ca => published (amqp_trace (snd ca)) = published (amqp_trace a)) (c, a).
Proof.
  assert (wp redial (fun _ ca => published (amqp_trace (snd ca)) = published (amqp_trace a)) (c, a)) as Hr.
  { unfold redial, get_client. wp_steps. wp_apply dial_published. intros [_|e] ca E; by wp_steps. }
  unfold getChannel, get_client, with_amqp. wp_steps. destruct (conn c) as [k|]; wp_steps; [|done].
  wp_apply conn_IsClosed_law. intros b a1 [-> _]. wp_steps.
  destruct b; [done|]. by destruct (channel c).
Qed.

Lemma Publish_published c a q body :
  wp (Publish q body) (fun r ca =>
    published (amqp_trace (snd ca)) = published (amqp_trace a) ++ [(q, body)] \/
    (is_ok r = false /\ published (amqp_trace (snd ca)) = published (amqp_trace a))) (c, a).
Proof.
  unfold Publish. wp_steps. wp_apply getChannel_published. intros [ch|e] [c' a1] E; wp_steps; [|by right].
  unfold with_amqp. wp_steps. wp_apply chan_send_law. cbn in E. intros [u|e] a2 H2; cbn.
  - left. rw H2 published_app. by rw E.
  - destruct H2 as [->| ->]; [by right; rw E|left]. rw published_app. by rw E.
Qed.
End laws.
