(* ===== verification/World.v ===== *)
(** * The state of the process

    Everything the handlers, services and worker read or change, in one
    record: the external servers, the process-wide [txCounter], the maps of
    the in-memory repositories, the wide event of the current request, the
    Prometheus metrics and the lines written to the log.  With it, the
    operations of internal/logger and internal/metrics. *)

From S2P Require Import Prelude GoNum Float64 Domain Sql Postgres Redis Queue TxId.

(** [time.Now()] *)
Class Clock (C : Type) : Type := { clock_now : M C Z }.

(** Values of log attributes; [LErr e] is the text [e.Error()]. *)
Inductive LogVal : Type :=
| LInt (z : Z)
| LFloat (f : f64)
| LStr (s : string)
| LBool (b : bool)
| LErr (e : goerror).

(** [encoding/json] on a type of the program. *)
Class JSON (T : Type) : Type := {
  json_Marshal : T -> result string;
  json_Unmarshal : string -> result T;
}.

(** What is marshalled is read back as it was. *)
Class JSONLaws (T : Type) `{JSON T} (ok : T -> Prop) : Prop := {
  json_roundtrip t s : ok t -> json_Marshal t = Ok s -> json_Unmarshal s = Ok t;
}.

(** [type WideEvent map[string]any] *)
Abbreviation WideEvent := (gmap string LogVal).

Record LogLine : Type := mkLogLine {
  log_level : string;
  log_msg : string;
  log_attrs : list (string * LogVal);
}.

(** The collectors of internal/metrics/metrics.go that the program writes:
    counter and gauge vectors by label value, plain gauges by value. *)
Record Metrics : Type := mkMetrics {
  CacheHits : gmap string Z;
  CacheMisses : gmap string Z;
  RateLimiterDrops : gmap string Z;
  QueueDepthGauge : gmap string Z;
  CircuitBreakerOpen : Z;
  CircuitBreakerState : gmap string Z;
  DependencyUp : gmap string Z;
  DBConnectionsActive : Z;
  DBConnectionsIdle : Z;
}.

(** [init] of metrics.go *)
Definition metrics_init : Metrics :=
  mkMetrics ∅ ∅ ∅ {["transactions" := 0]} 0 {["api" := 0]}
    {["api" := 1; "database" := 0; "redis" := 0; "rabbitmq" := 0]} 0 0.

Definition inc (label : string) (v : gmap string Z) : gmap string Z :=
  <[label := default 0 (v !! label) + 1]> v.

Record World (P R A C : Type) : Type := mkWorld {
  w_pg : P;
  w_redis : R;
  w_amqp : A;
  w_clock : C;
  w_client : Client;                      (* *queue.Client *)
  w_counter : Z;                          (* txCounter *)
  w_mem_tx : gmap string Transaction;     (* memory.TransactionRepository.data *)
  w_mem_acc : gmap Z Account;             (* memory.AccountRepository.data *)
  w_event : option WideEvent;             (* the event in ctx, if any *)
  w_metrics : Metrics;
  w_log : list LogLine;
}.
Arguments mkWorld {P R A C}.
Arguments w_pg {P R A C}.
Arguments w_redis {P R A C}.
Arguments w_amqp {P R A C}.
Arguments w_clock {P R A C}.
Arguments w_client {P R A C}.
Arguments w_counter {P R A C}.
Arguments w_mem_tx {P R A C}.
Arguments w_mem_acc {P R A C}.
Arguments w_event {P R A C}.
Arguments w_metrics {P R A C}.
Arguments w_log {P R A C}.

Section world.
Context {P R A C : Type}.
Local Open Scope go_scope.
#[local] Abbreviation World := (World P R A C).

Definition set_pg (x : P) (w : World) : World :=
  mkWorld x (w_redis w) (w_amqp w) (w_clock w) (w_client w) (w_counter w) (w_mem_tx w)
    (w_mem_acc w) (w_event w) (w_metrics w) (w_log w).
Definition set_redis (x : R) (w : World) : World :=
  mkWorld (w_pg w) x (w_amqp w) (w_clock w) (w_client w) (w_counter w) (w_mem_tx w)
    (w_mem_acc w) (w_event w) (w_metrics w) (w_log w).
Definition set_queue (x : Client * A) (w : World) : World :=
  mkWorld (w_pg w) (w_redis w) (snd x) (w_clock w) (fst x) (w_counter w) (w_mem_tx w)
    (w_mem_acc w) (w_event w) (w_metrics w) (w_log w).
Definition set_amqp (x : A) (w : World) : World :=
  mkWorld (w_pg w) (w_redis w) x (w_clock w) (w_client w) (w_counter w) (w_mem_tx w)
    (w_mem_acc w) (w_event w) (w_metrics w) (w_log w).
Definition set_clock (x : C) (w : World) : World :=
  mkWorld (w_pg w) (w_redis w) (w_amqp w) x (w_client w) (w_counter w) (w_mem_tx w)
    (w_mem_acc w) (w_event w) (w_metrics w) (w_log w).
Definition set_counter (x : Z) (w : World) : World :=
  mkWorld (w_pg w) (w_redis w) (w_amqp w) (w_clock w) (w_client w) x (w_mem_tx w)
    (w_mem_acc w) (w_event w) (w_metrics w) (w_log w).
Definition set_mem_tx (x : gmap string Transaction) (w : World) : World :=
  mkWorld (w_pg w) (w_redis w) (w_amqp w) (w_clock w) (w_client w) (w_counter w) x
    (w_mem_acc w) (w_event w) (w_metrics w) (w_log w).
Definition set_event (x : option WideEvent) (w : World) : World :=
  mkWorld (w_pg w) (w_redis w) (w_amqp w) (w_clock w) (w_client w) (w_counter w) (w_mem_tx w)
    (w_mem_acc w) x (w_metrics w) (w_log w).
Definition set_metrics (x : Metrics) (w : World) : World :=
  mkWorld (w_pg w) (w_redis w) (w_amqp w) (w_clock w) (w_client w) (w_counter w) (w_mem_tx w)
    (w_mem_acc w) (w_event w) x (w_log w).
Definition set_log (x : list LogLine) (w : World) : World :=
  mkWorld (w_pg w) (w_redis w) (w_amqp w) (w_clock w) (w_client w) (w_counter w) (w_mem_tx w)
    (w_mem_acc w) (w_event w) (w_metrics w) x.

(** Calls to the external servers, from the process. *)
Definition on_pg {B} (m : M P B) : M World B := mlift w_pg set_pg m.
Definition on_redis {B} (m : M R B) : M World B := mlift w_redis set_redis m.
Definition on_amqp {B} (m : M A B) : M World B := mlift w_amqp set_amqp m.
Definition on_queue {B} (m : M (Client * A) B) : M World B :=
  mlift (fun w => (w_client w, w_amqp w)) set_queue m.

Definition time_Now `{Clock C} : M World Z := mlift w_clock set_clock clock_now.

(** ** internal/logger *)

Definition NewEvent : WideEvent := ∅.

(** [logger.WithEvent]: the event becomes the one of the context. *)
Definition WithEvent (e : WideEvent) : M World unit := mput (set_event (Some e)).

Definition EventFromContext : M World (option WideEvent) := mget w_event.

(** [logger.Set] on the event of the context; a no-op when there is none. *)
Definition logger_Set (key : string) (val : LogVal) : M World unit :=
  e <- EventFromContext ;;
  match e with
  | Some ev => mput (set_event (Some (<[key := val]> ev)))
  | None => mret tt
  end.

Definition log_write (l : LogLine) : M World unit :=
  mput (fun w => set_log (w_log w ++ [l]) w).

(** [logger.Emit]: one flat line with every field of the event. *)
Definition Emit (e : WideEvent) : M World unit :=
  log_write (mkLogLine "INFO" "request" (map_to_list e)).

Definition L_Error (msg : string) (attrs : list (string * LogVal)) : M World unit :=
  log_write (mkLogLine "ERROR" msg attrs).
Definition L_Info (msg : string) (attrs : list (string * LogVal)) : M World unit :=
  log_write (mkLogLine "INFO" msg attrs).

(** [logger.Init]: from here on lines of level INFO and above are written. *)
Definition logger_Init (appEnv : string) : M World unit :=
  L_Info "logger initialized" [("app_env", LStr appEnv)].

(** ** internal/metrics *)

Definition on_metrics (f : Metrics -> Metrics) : M World unit :=
  mput (fun w => set_metrics (f (w_metrics w)) w).

Definition CacheHits_Inc (label : string) : M World unit :=
  on_metrics (fun m => mkMetrics (inc label (CacheHits m)) (CacheMisses m) (RateLimiterDrops m)
    (QueueDepthGauge m) (CircuitBreakerOpen m) (CircuitBreakerState m)
    (DependencyUp m) (DBConnectionsActive m) (DBConnectionsIdle m)).
Definition CacheMisses_Inc (label : string) : M World unit :=
  on_metrics (fun m => mkMetrics (CacheHits m) (inc label (CacheMisses m)) (RateLimiterDrops m)
    (QueueDepthGauge m) (CircuitBreakerOpen m) (CircuitBreakerState m)
    (DependencyUp m) (DBConnectionsActive m) (DBConnectionsIdle m)).
Definition RateLimiterDrops_Inc (label : string) : M World unit :=
  on_metrics (fun m => mkMetrics (CacheHits m) (CacheMisses m) (inc label (RateLimiterDrops m))
    (QueueDepthGauge m) (CircuitBreakerOpen m) (CircuitBreakerState m)
    (DependencyUp m) (DBConnectionsActive m) (DBConnectionsIdle m)).
Definition QueueDepth_Set (label : string) (v : Z) : M World unit :=
  on_metrics (fun m => mkMetrics (CacheHits m) (CacheMisses m) (RateLimiterDrops m)
    (<[label := v]> (QueueDepthGauge m)) (CircuitBreakerOpen m) (CircuitBreakerState m)
    (DependencyUp m) (DBConnectionsActive m) (DBConnectionsIdle m)).
Definition CircuitBreakerState_Set (label : string) (v : Z) : M World unit :=
  on_metrics (fun m => mkMetrics (CacheHits m) (CacheMisses m) (RateLimiterDrops m)
    (QueueDepthGauge m) (CircuitBreakerOpen m) (<[label := v]> (CircuitBreakerState m))
    (DependencyUp m) (DBConnectionsActive m) (DBConnectionsIdle m)).
Definition CircuitBreakerOpen_Set (v : Z) : M World unit :=
  on_metrics (fun m => mkMetrics (CacheHits m) (CacheMisses m) (RateLimiterDrops m)
    (QueueDepthGauge m) v (CircuitBreakerState m)
    (DependencyUp m) (DBConnectionsActive m) (DBConnectionsIdle m)).
Definition DependencyUp_Set (label : string) (v : Z) : M World unit :=
  on_metrics (fun m => mkMetrics (CacheHits m) (CacheMisses m) (RateLimiterDrops m)
    (QueueDepthGauge m) (CircuitBreakerOpen m) (CircuitBreakerState m)
    (<[label := v]> (DependencyUp m)) (DBConnectionsActive m) (DBConnectionsIdle m)).
Definition DBConnectionsActive_Set (v : Z) : M World unit :=
  on_metrics (fun m => mkMetrics (CacheHits m) (CacheMisses m) (RateLimiterDrops m)
    (QueueDepthGauge m) (CircuitBreakerOpen m) (CircuitBreakerState m)
    (DependencyUp m) v (DBConnectionsIdle m)).
Definition DBConnectionsIdle_Set (v : Z) : M World unit :=
  on_metrics (fun m => mkMetrics (CacheHits m) (CacheMisses m) (RateLimiterDrops m)
    (QueueDepthGauge m) (CircuitBreakerOpen m) (CircuitBreakerState m)
    (DependencyUp m) (DBConnectionsActive m) v).

(** ** [nextTransactionID], one caller at a time

    The body of the loop: [None] when the [CompareAndSwap] fails and the
    loop goes round.  (The interleavings of concurrent callers are the
    step relation of [TxId].) *)
Definition CompareAndSwap (old new : Z) : M World bool :=
  fun w => if w_counter w =? old then (true, set_counter new w) else (false, w).

Definition nextTransactionID_body `{Clock C} : M World (option string) :=
  now <- time_Now ;;
  last <- mget w_counter ;;
  let next := next_id now last in
  swapped <- CompareAndSwap last next ;;
  mret (if (swapped : bool) then Some (format_id next) else None).

Fixpoint nextTransactionID_loop `{Clock C} (fuel : nat) : M World string :=
  match fuel with
  | O => mret ""
  | S f =>
      r <- nextTransactionID_body ;;
      match r with
      | Some id => mret id
      | None => nextTransactionID_loop f
      end
  end.

(** One round is enough when no other goroutine runs
    ([nextTransactionID_once]). *)
Definition nextTransactionID `{Clock C} : M World string := nextTransactionID_loop 1.

Lemma set_event_same (w : World) : set_event (w_event w) w = w.
Proof. by destruct w. Qed.

Lemma wp_logger_Set k v Q (w : World) :
  (forall e, Q tt (set_event e w)) -> wp (logger_Set k v) Q w.
Proof.
  intros Hs. unfold logger_Set, EventFromContext. wp_steps.
  specialize (Hs (w_event w)) as Hn. rw set_event_same in Hn.
  destruct (w_event w); by wp_steps.
Qed.

(** The servers and stores are the same; logs, metrics, clock and counter
    may differ. *)
Definition same_stores (w w' : World) : Prop :=
  w_pg w' = w_pg w /\ w_redis w' = w_redis w /\ w_amqp w' = w_amqp w /\
  w_client w' = w_client w /\ w_mem_tx w' = w_mem_tx w /\ w_mem_acc w' = w_mem_acc w.

Lemma same_stores_refl w : same_stores w w.
Proof. done. Qed.

Lemma same_stores_trans w1 w2 w3 : same_stores w1 w2 -> same_stores w2 w3 -> same_stores w1 w3.
Proof. unfold same_stores. intuition congruence. Qed.

Lemma nextTransactionID_once `{Clock C} Q (w : World) :
  wp clock_now (fun now c =>
    Q (format_id (next_id now (w_counter w)))
      (set_counter (next_id now (w_counter w)) (set_clock c w))) (w_clock w) ->
  wp nextTransactionID Q w.
Proof.
  intros Hq. unfold nextTransactionID, nextTransactionID_loop, nextTransactionID_body, time_Now.
  wp_steps. eapply wp_mono; [exact Hq|]. intros now c Hc. wp_steps.
  unfold wp, CompareAndSwap. cbn. rw Z.eqb_refl. by wp_steps.
Qed.
End world.
