(* ===== verification/Reference.v ===== *)
(** * Reference servers

    Concrete, executable servers for the interfaces of [Postgres], [Redis],
    [Queue] and [World], with proofs that they keep the laws.  The examples
    and witnesses of the development run on them.  Each takes a list of
    faults, consumed one per operation, so that a run can fail at any point. *)

From S2P Require Import Prelude GoNum Float64 Domain Sql Postgres Redis Queue World.

Inductive fault : Type := Fine | Fail | FailAfter.

Definition ErrConn : goerror := ErrorString "connection lost".

(** ** Database *)

Record RefPg : Type := mkRefPg {
  rp_committed : Tables;
  rp_working : option Tables;
  rp_replica : option Tables;      (* None: the replica follows the primary *)
  rp_faults : list fault;
  rp_now : Z;
}.

Definition rp_pop (p : RefPg) : fault * RefPg :=
  match rp_faults p with
  | [] => (Fine, mkRefPg (rp_committed p) (rp_working p) (rp_replica p) [] (rp_now p))
  | f :: fs => (f, mkRefPg (rp_committed p) (rp_working p) (rp_replica p) fs (rp_now p))
  end.

Definition rp_set (p : RefPg) (tb : Tables) (wk : option Tables) : RefPg :=
  mkRefPg tb wk (rp_replica p) (rp_faults p) (rp_now p).

(** The exact value of the float, over 2^1074. *)
Definition ref_literal (a : f64) : option frac :=
  if f64_finite a then Some (Frac (fscaled a) (Z.to_pos scale)) else None.

(** Run [f] unless the next fault says otherwise. *)
Definition rp_op {B} (f : M RefPg (result B)) : M RefPg (result B) := fun p =>
  let '(x, p) := rp_pop p in
  match x with
  | Fine => f p
  | Fail => (Err ErrConn, p)
  | FailAfter => let '(r, p') := f p in (Err ErrConn, p')
  end.

(** A read: a fault loses the answer, never changes the tables. *)
Definition rp_read {B} (f : RefPg -> result B) : M RefPg (result B) :=
  rp_op (fun p => (f p, p)).

Definition rp_view (h : DB) (p : RefPg) : Tables :=
  match h with Primary => rp_committed p | Replica => default (rp_committed p) (rp_replica p) end.

Definition rp_exec (s : stmt) : M RefPg (result unit) := rp_op (fun p =>
  match sql_exec ref_literal (fun t => t) (rp_now p) s (rp_committed p) with
  | Some tb => (Ok tt, rp_set p tb (rp_working p))
  | None => (Err (ErrorString "constraint violation"), p)
  end).

(** Inside a transaction: an error aborts it. *)
Definition rp_tx_exec (s : stmt) : M RefPg (result unit) := fun p =>
  let '(x, p) := rp_pop p in
  match x, rp_working p with
  | Fine, Some tb =>
      match sql_exec ref_literal (fun t => t) (rp_now p) s tb with
      | Some tb' => (Ok tt, rp_set p (rp_committed p) (Some tb'))
      | None => (Err (ErrorString "constraint violation"), rp_set p (rp_committed p) None)
      end
  | _, _ => (Err ErrConn, rp_set p (rp_committed p) None)
  end.

Definition rp_commit : M RefPg (result unit) := rp_op (fun p =>
  match rp_working p with
  | Some tb => (Ok tt, rp_set p tb None)
  | None => (Err (ErrorString "transaction aborted"), p)
  end).

#[export] Instance RefPg_driver : PgDriver RefPg := {
  pg_literal := ref_literal;
  pg_timestamptz := fun t => t;
  pg_begin := fun p =>
    let '(x, p) := rp_pop p in
    match x with
    | Fine => (Ok tt, rp_set p (rp_committed p) (Some (rp_committed p)))
    | _ => (Err ErrConn, p)
    end;
  pg_select_balance := fun id => rp_read (fun p =>
    match rp_working p with Some tb => Ok (balance_of id tb) | None => Err ErrConn end);
  pg_select_exists := fun id => rp_read (fun p =>
    match rp_working p with
    | Some tb => Ok (bool_decide (is_Some (accounts tb !! id)))
    | None => Err ErrConn
    end);
  pg_tx_exec := rp_tx_exec;
  pg_commit := rp_commit;
  pg_rollback := fun p => (Ok tt, rp_set p (rp_committed p) None);
  pg_exec := rp_exec;
  pg_get_account := fun h id => rp_read (fun p => Ok (accounts (rp_view h p) !! id));
  pg_get_tx := fun h id => rp_read (fun p => Ok (transactions (rp_view h p) !! id));
  pg_committed := rp_committed;
  pg_working := rp_working;
  pg_replica := rp_view Replica;
}.

Lemma rp_pop_view p x p' : rp_pop p = (x, p') ->
  rp_committed p' = rp_committed p /\ rp_working p' = rp_working p /\ rp_replica p' = rp_replica p /\
  rp_now p' = rp_now p.
Proof. unfold rp_pop. destruct (rp_faults p); intros E; injection E as <- <-; by split_and!. Qed.

(** Split on the next fault. *)
Ltac ref_step :=
  rw /wp /=; match goal with |- context [rp_pop ?p] =>
    let E := fresh "E" in
    destruct (rp_pop p) as [[] ?] eqn:E;
    apply rp_pop_view in E as (Ec & Ew & Er & En) end; cbn.

#[export] Instance RefPg_laws : PgLaws RefPg.
Proof.
  split.
  - intros p. ref_step; by rw ?Ec.
  - intros id p tb Hw. cbn in Hw. rw /wp /= /rp_read /rp_op. ref_step; by rw ?Ec ?Ew ?Hw.
  - intros id p tb Hw. cbn in Hw. rw /wp /= /rp_read /rp_op. ref_step; by rw ?Ec ?Ew ?Hw.
  - intros s p tb Hw. cbn in Hw. rw /wp /= /rp_tx_exec. ref_step; rw ?Ec ?Ew ?Hw //.
    destruct (sql_exec ref_literal _ (rp_now r) s tb) as [tb'|] eqn:Hs; cbn; rw ?Ec //. split; [done|]. eexists. split; [done|]. by exists (rp_now r).
  - intros p tb Hw. cbn in Hw. rw /wp /= /rp_commit /rp_op. ref_step; rw ?Ew ?Hw ?Ec; cbn; [done| |].
    + by split; [|left].
    + by split; [|right].
  - intros p. done.
  - intros s p. rw /wp /= /rp_exec /rp_op. ref_step; rw ?Ec.
    + destruct (sql_exec ref_literal _ (rp_now r) s _) as [tb'|] eqn:Hs; cbn; rw ?Ec;
        [by exists (rp_now r)|by left].
    + by left.
    + destruct (sql_exec ref_literal _ (rp_now r) s _) as [tb'|] eqn:Hs; cbn; rw ?Ec;
        [right; by exists (rp_now r)|by left].
  - intros h id p. rw /wp /= /rp_read /rp_op. ref_step; rw ?Ec; try done.
    split; [done|]. unfold rp_view. rw Ec Er. by destruct h.
  - intros h id p. rw /wp /= /rp_read /rp_op. ref_step; rw ?Ec; try done.
    split; [done|]. unfold rp_view. rw Ec Er. by destruct h.
Qed.

#[export] Instance RefPg_literal : PgLiteral RefPg.
Proof.
  split.
  - intros a q Hv Hf Hq. cbn in Hq. unfold ref_literal in Hq. rw Hf in Hq. injection Hq as <-.
    cbn [fnum fden]. destruct (f64_of_frac_exact a Hv Hf) as [H1 H2]. by split_and!.
Qed.

(** A server that never fails: the one above, with the faults cleared. *)
Record SurePg : Type := mkSurePg { sp_pg : RefPg }.

Definition rp_calm (p : RefPg) : RefPg :=
  mkRefPg (rp_committed p) (rp_working p) (rp_replica p) [] (rp_now p).

Definition sure {B} (m : M RefPg B) : M SurePg B := fun p =>
  let '(r, p') := m (rp_calm (sp_pg p)) in (r, mkSurePg p').

#[export] Instance SurePg_driver : PgDriver SurePg | 10 := {
  pg_literal := ref_literal;
  pg_timestamptz := fun t => t;
  pg_begin := sure pg_begin;
  pg_select_balance := fun id => sure (pg_select_balance id);
  pg_select_exists := fun id => sure (pg_select_exists id);
  pg_tx_exec := fun s => sure (pg_tx_exec s);
  pg_commit := sure pg_commit;
  pg_rollback := sure pg_rollback;
  pg_exec := fun s => sure (pg_exec s);
  pg_get_account := fun h id => sure (pg_get_account h id);
  pg_get_tx := fun h id => sure (pg_get_tx h id);
  pg_committed := fun p => pg_committed (sp_pg p);
  pg_working := fun p => pg_working (sp_pg p);
  pg_replica := fun p => pg_replica (sp_pg p);
}.

Lemma wp_sure {B} (m : M RefPg B) (Q : B -> SurePg -> Prop) p :
  wp m (fun r p' => Q r (mkSurePg p')) (rp_calm (sp_pg p)) -> wp (sure m) Q p.
Proof. unfold wp, sure. by destruct (m _). Qed.

#[export] Instance SurePg_laws : PgLaws SurePg | 10.
Proof.
  split.
  - intros p. apply wp_sure. exact (pg_begin_law (rp_calm (sp_pg p))).
  - intros id p tb Hw. apply wp_sure. exact (pg_select_balance_law id (rp_calm (sp_pg p)) tb Hw).
  - intros id p tb Hw. apply wp_sure. exact (pg_select_exists_law id (rp_calm (sp_pg p)) tb Hw).
  - intros st p tb Hw. apply wp_sure. exact (pg_tx_exec_law st (rp_calm (sp_pg p)) tb Hw).
  - intros p tb Hw. apply wp_sure. exact (pg_commit_law (rp_calm (sp_pg p)) tb Hw).
  - intros p. apply wp_sure. exact (pg_rollback_law (rp_calm (sp_pg p))).
  - intros st p. apply wp_sure. exact (pg_exec_law st (rp_calm (sp_pg p))).
  - intros h id p. apply wp_sure. pose proof (pg_get_account_law h id (rp_calm (sp_pg p))). by destruct h.
  - intros h id p. apply wp_sure. pose proof (pg_get_tx_law h id (rp_calm (sp_pg p))). by destruct h.
Qed.

#[export] Instance SurePg_literal : PgLiteral SurePg | 10.
Proof. split. exact (pg_literal_back (P := RefPg)). Qed.

Lemma SurePg_commit : commit_definite SurePg.
Proof.
  intros [[tb wk rep fs now]]. rw /wp /= /sure /rp_commit /rp_op /=. by destruct wk.
Qed.

Lemma SurePg_reads h : reads_definite SurePg h.
Proof. by intros id p. Qed.

(** ** Cache *)

Record RefRedis : Type := mkRefRedis {
  rr_entries : gmap string Entry;
  rr_time : Z;
  rr_faults : list fault;
}.

Definition rr_pop (r : RefRedis) : fault * RefRedis :=
  match rr_faults r with
  | [] => (Fine, mkRefRedis (rr_entries r) (rr_time r) [])
  | f :: fs => (f, mkRefRedis (rr_entries r) (rr_time r) fs)
  end.

Definition rr_put (r : RefRedis) (m : gmap string Entry) : RefRedis :=
  mkRefRedis m (rr_time r) (rr_faults r).

Definition live_b (t : Z) (e : Entry) : bool :=
  match e_deadline e with Some d => t <? d | None => true end.

#[export] Instance RefRedis_server : RedisServer RefRedis := {
  rd_get := fun k r =>
    let '(x, r) := rr_pop r in
    match x, rr_entries r !! k with
    | Fine, Some e => (if live_b (rr_time r) e then Ok (e_value e) else Err (ErrorString "redis: nil"), r)
    | _, _ => (Err (ErrorString "redis: nil"), r)
    end;
  rd_set := fun k v ttl r =>
    let '(x, r) := rr_pop r in
    match x with
    | Fail => (Err ErrConn, r)
    | _ => (Ok tt, rr_put r (<[k := mkEntry v (deadline (rr_time r) ttl)]> (rr_entries r)))
    end;
  rd_del := fun ks r =>
    let '(x, r) := rr_pop r in
    match x with
    | Fail => (Err ErrConn, r)
    | _ => (Ok tt, rr_put r (foldr delete (rr_entries r) ks))
    end;
  rd_entries := rr_entries;
  rd_time := rr_time;
}.

Lemma rr_pop_view r x r' : rr_pop r = (x, r') -> rr_entries r' = rr_entries r /\ rr_time r' = rr_time r.
Proof. unfold rr_pop. destruct (rr_faults r); intros E; injection E as <- <-; by split_and!. Qed.

Lemma foldr_delete_subseteq (m : gmap string Entry) ks : foldr delete m ks ⊆ m.
Proof. induction ks as [|k ks IH]; cbn; [done|]. etrans; [apply delete_subseteq|done]. Qed.

Lemma foldr_delete_lookup (m : gmap string Entry) ks k : k ∈ ks -> foldr delete m ks !! k = None.
Proof.
  induction ks as [|k' ks IH]; cbn; [by intros ?%not_elem_of_nil|].
  rw elem_of_cons lookup_delete. intros [->|Hk]; case_decide; auto. done.
Qed.

#[export] Instance RefRedis_laws : RedisLaws RefRedis.
Proof.
  split.
  - intros k r. rw /wp /=. destruct (rr_pop r) as [x r'] eqn:E. apply rr_pop_view in E as [Ee Et].
    destruct (rr_entries r' !! k) as [e|] eqn:Hk, x; cbn; rw Ee Et; split_and!; try done.
    destruct (live_b (rr_time r) e) eqn:Hl; [|done]. rw Ee in Hk. exists e. split_and!; try done.
    unfold live, live_b in *. destruct (e_deadline e); [lia|done].
  - intros k v ttl r Httl. rw /wp /=. destruct (rr_pop r) as [x r'] eqn:E.
    apply rr_pop_view in E as [Ee Et].
    destruct x; cbn; rw Et Ee; (split; [done|]);
      ((left; exists (rr_time r); split; [lia|done]) || by right).
  - intros ks r. rw /wp /=. destruct (rr_pop r) as [x r'] eqn:E. apply rr_pop_view in E as [Ee Et].
    destruct x; cbn; rw Et Ee; split_and!; try done; eauto using foldr_delete_subseteq, foldr_delete_lookup.
Qed.

(** ** Message broker *)

Record RefAmqp : Type := mkRefAmqp {
  ra_trace : list (nat * frame);
  ra_conns : gset nat;
  ra_chans : gset nat;
  ra_next : nat;
  ra_faults : list fault;
}.

Definition ra_pop (a : RefAmqp) : fault * RefAmqp :=
  match ra_faults a with
  | [] => (Fine, mkRefAmqp (ra_trace a) (ra_conns a) (ra_chans a) (ra_next a) [])
  | f :: fs => (f, mkRefAmqp (ra_trace a) (ra_conns a) (ra_chans a) (ra_next a) fs)
  end.

Definition ErrClosed : goerror := ErrorString "channel/connection is not open".

#[export] Instance RefAmqp_lib : AmqpLib RefAmqp := {
  amqp_Dial := fun _ a =>
    let '(x, a) := ra_pop a in
    match x with
    | Fine => (Ok (ra_next a), mkRefAmqp (ra_trace a) ({[ra_next a]} ∪ ra_conns a) (ra_chans a)
                                 (S (ra_next a)) (ra_faults a))
    | _ => (Err ErrConn, a)
    end;
  conn_Channel := fun _ a =>
    let '(x, a) := ra_pop a in
    match x with
    | Fine => (Ok (ra_next a), mkRefAmqp (ra_trace a) (ra_conns a) ({[ra_next a]} ∪ ra_chans a)
                                 (S (ra_next a)) (ra_faults a))
    | _ => (Err ErrConn, a)
    end;
  conn_Close := fun c a =>
    (Ok tt, mkRefAmqp (ra_trace a) (ra_conns a ∖ {[c]}) (ra_chans a) (ra_next a) (ra_faults a));
  conn_IsClosed := fun c a => (bool_decide (c ∉ ra_conns a), a);
  chan_Close := fun c a =>
    (Ok tt, mkRefAmqp (ra_trace a) (ra_conns a) (ra_chans a ∖ {[c]}) (ra_next a) (ra_faults a));
  chan_send := fun ch f a =>
    if decide (ch ∈ ra_chans a) then
      let '(x, a) := ra_pop a in
      let a' := mkRefAmqp (ra_trace a ++ [(ch, f)]) (ra_conns a) (ra_chans a) (ra_next a) (ra_faults a) in
      match x with Fine => (Ok tt, a') | Fail => (Err ErrConn, a) | FailAfter => (Err ErrConn, a') end
    else (Err ErrClosed, a);
  chan_Consume := fun ch _ _ _ _ _ _ a => (if decide (ch ∈ ra_chans a) then Ok ch else Err ErrClosed, a);
  chan_QueueInspect := fun ch _ a => (if decide (ch ∈ ra_chans a) then Ok 0 else Err ErrClosed, a);
  amqp_trace := ra_trace;
  amqp_open_conns := ra_conns;
  amqp_open_chans := ra_chans;
}.

Lemma ra_pop_view a x a' : ra_pop a = (x, a') -> ra_trace a' = ra_trace a.
Proof. unfold ra_pop. destruct (ra_faults a); intros E; by injection E as <- <-. Qed.

#[export] Instance RefAmqp_laws : AmqpLaws RefAmqp.
Proof.
  split.
  - intros ch f a. rw /wp /=. case_decide; [|by left].
    destruct (ra_pop a) as [[] a'] eqn:E; apply ra_pop_view in E; cbn; rw E; auto.
  - intros ch f a Hch. rw /wp /=. by rw decide_False.
  - done.
  - intros u a. rw /wp /=. destruct (ra_pop a) as [[] a'] eqn:E; by apply ra_pop_view in E.
  - intros u a. rw /wp /=. destruct (ra_pop a) as [[] a'] eqn:E; by apply ra_pop_view in E.
  - done.
  - done.
Qed.

(** ** Clock: the next readings *)

#[export] Instance RefClock : Clock Z := { clock_now := fun t => (t, t + 1) }.

(** ** A codec

    A self-delimiting text form for the types that are marshalled; like
    [json.Marshal] it refuses amounts that are not finite. *)

Definition sf_tuple (x : spec_float) : nat * bool * positive * Z :=
  match x with
  | S754_zero s => (0%nat, s, 1%positive, 0)
  | S754_infinity s => (1%nat, s, 1%positive, 0)
  | S754_nan => (2%nat, false, 1%positive, 0)
  | S754_finite s m e => (3%nat, s, m, e)
  end.
Definition sf_untuple (t : nat * bool * positive * Z) : spec_float :=
  match t with
  | (0%nat, s, _, _) => S754_zero s
  | (1%nat, s, _, _) => S754_infinity s
  | (2%nat, _, _, _) => S754_nan
  | (_, s, m, e) => S754_finite s m e
  end.

#[export] Instance spec_float_countable : Countable spec_float.
Proof. apply (inj_countable' sf_tuple sf_untuple). by intros []. Defined.

#[export] Instance TxMessage_countable : Countable TxMessage.
Proof.
  apply (inj_countable' (fun m => (msg_tx_id m, msg_source m, msg_dest m, msg_amount m))
    (fun '(i, s, d, a) => mkTxMessage i s d a)). by intros [].
Defined.

#[export] Instance Transaction_countable : Countable Transaction.
Proof.
  apply (inj_countable'
    (fun t => (ID t, SourceAccount t, DestAccount t, Amount t, TxStatus t, CreatedAt t, UpdatedAt t))
    (fun '(i, s, d, a, st, c, u) => mkTransaction i s d a st c u)). by intros [].
Defined.

#[export] Instance Account_countable : Countable Account.
Proof.
  apply (inj_countable' (fun a => (AccountID a, Name a, Balance a, AccountUpdatedAt a))
    (fun '(i, n, b, u) => mkAccount i n b u)). by intros [].
Defined.

Definition ref_Marshal {T} `{Countable T} (amount : T -> f64) (t : T) : result string :=
  if f64_finite (amount t) then Ok (dec (Zpos (encode t)))
  else Err (ErrorString "json: unsupported value").

Definition ref_Unmarshal {T} `{Countable T} (s : string) : result T :=
  match digits_value 0 s with
  | Some (Zpos p) => match decode p with Some t => Ok t | None => Err ErrSyntax end
  | _ => Err ErrSyntax
  end.

Lemma ref_roundtrip {T} `{Countable T} (amount : T -> f64) t s :
  ref_Marshal amount t = Ok s -> ref_Unmarshal s = Ok t.
Proof.
  unfold ref_Marshal, ref_Unmarshal. case_match; [|done]. intros [= <-].
  rw dec_value; [done|]. by rw decode_encode.
Qed.

#[export] Instance TxMessage_json : JSON TxMessage :=
  { json_Marshal := ref_Marshal msg_amount; json_Unmarshal := ref_Unmarshal }.
#[export] Instance Transaction_json : JSON Transaction :=
  { json_Marshal := ref_Marshal Amount; json_Unmarshal := ref_Unmarshal }.
#[export] Instance Account_json : JSON Account :=
  { json_Marshal := ref_Marshal Balance; json_Unmarshal := ref_Unmarshal }.

#[export] Instance TxMessage_json_laws : JSONLaws TxMessage (fun _ => True).
Proof. split. intros t s _. apply ref_roundtrip. Qed.
#[export] Instance Transaction_json_laws : JSONLaws Transaction (fun _ => True).
Proof. split. intros t s _. apply ref_roundtrip. Qed.
#[export] Instance Account_json_laws : JSONLaws Account (fun _ => True).
Proof. split. intros t s _. apply ref_roundtrip. Qed.

(** ** A starting state

    Two accounts, 1001 with 100.00 and 1002 with 50.00; a connected queue
    client on connection 0 and channel 1; an empty cache; the clock at 7. *)
Abbreviation RefWorld := (World RefPg RefRedis RefAmqp Z).

Definition ref_tables : Tables :=
  mkTables {[1001 := mkAccountRow "Budi Santoso" 10000 0; 1002 := mkAccountRow "Siti Rahayu" 5000 0]} ∅.

Definition ref_pg (tb : Tables) (faults : list fault) : RefPg := mkRefPg tb None None faults 0.
Definition ref_redis : RefRedis := mkRefRedis ∅ 0 [].
Definition ref_amqp (faults : list fault) : RefAmqp := mkRefAmqp [] {[0%nat]} {[1%nat]} 2 faults.
Definition ref_client : Client := mkClient "amqp://" (Some 0%nat) (Some 1%nat).

Definition ref_world {P} (p : P) (a : RefAmqp) : World P RefRedis RefAmqp Z :=
  mkWorld p ref_redis a 7 ref_client 0 ∅ ∅ (Some ∅) metrics_init [].

(** Amounts used in examples: 0.125, 30 and 60. *)
Definition amount_eighth : f64 := f64_of_frac 1 8.
Definition amount_30 : f64 := f64_of_Z 30.
Definition amount_60 : f64 := f64_of_Z 60.

Definition ref_start : RefWorld := ref_world (ref_pg ref_tables []) (ref_amqp []).

(** The message of a transfer of 30.00, and the tables after [createAsync]
    saved it. *)
Definition ref_message : TxMessage := mkTxMessage "T1" 1001 1002 amount_30.
Definition ref_body : string := match json_Marshal ref_message with Ok b => b | Err _ => "" end.
Definition ref_pending : Tables :=
  mkTables (accounts ref_tables) {["T1" := mkTxRow 1001 1002 3000 StatusPending 0 0]}.
Definition ref_queued : RefWorld := ref_world (ref_pg ref_pending []) (ref_amqp []).

Lemma ref_pending_fk : fk_inv ref_pending.
Proof.
  intros id r Hr. cbn in Hr. apply lookup_singleton_Some in Hr as [_ <-]. cbn. by split; eexists.
Qed.
