(* ===== verification/QueueClient.v ===== *)
(** * What the queue client guarantees

    Properties of internal/infrastructure/queue: what [Publish] sends, when
    it dials again, and when it cannot. *)

From S2P Require Import Prelude GoNum Float64 Domain Sql Postgres Redis Queue World Reference.

(** C25: a successful [Publish] sends exactly one message: persistent, to the
    default exchange, routed to the named queue.  It goes out on the cached
    channel, the client unchanged, while the connection is open; otherwise on
    a new channel on which both queues, the dead-letter queue first, were
    declared before it, and the client keeps that channel.  A failed
    [Publish] sends that message at most once, and no other. *)
Theorem Publish_sends_once {A} `{AmqpLib A, !AmqpLaws A} c a q body :
  wp (Publish q body) (fun r ca =>
    (is_ok r = true ->
      (exists ch, cached c a ch (c, a) /\ fst ca = c /\
        amqp_trace (snd ca) = amqp_trace a ++ [(ch, publish_frame q body)]) \/
      (exists ch, channel (fst ca) = Some ch /\
        amqp_trace (snd ca) = amqp_trace a ++ declare_frames ch ++ [(ch, publish_frame q body)])) /\
    (published (amqp_trace (snd ca)) = published (amqp_trace a) ++ [(q, body)] \/
     (is_ok r = false /\ published (amqp_trace (snd ca)) = published (amqp_trace a)))) (c, a).
Proof. apply wp_and; [apply Publish_spec|apply Publish_published]. Qed.

Lemma Publish_sends_once_witness :
  wp (Publish "transactions" "m") (fun r ca =>
    (is_ok r = true ->
      (exists ch, cached ref_client (ref_amqp []) ch (ref_client, ref_amqp []) /\ fst ca = ref_client /\
        amqp_trace (snd ca) = amqp_trace (ref_amqp []) ++ [(ch, publish_frame "transactions" "m")]) \/
      (exists ch, channel (fst ca) = Some ch /\
        amqp_trace (snd ca) = amqp_trace (ref_amqp []) ++ declare_frames ch ++
          [(ch, publish_frame "transactions" "m")])) /\
    (published (amqp_trace (snd ca)) = published (amqp_trace (ref_amqp [])) ++ [("transactions", "m")] \/
     (is_ok r = false /\ published (amqp_trace (snd ca)) = published (amqp_trace (ref_amqp [])))))
    (ref_client, ref_amqp []).
Proof. apply (Publish_sends_once ref_client (ref_amqp []) "transactions" "m"). Defined.

(** ** The stale channel *)
Section stale.
Context {A : Type} `{AmqpLib A} `{!AmqpLaws A}.
Local Open Scope go_scope.

(** The connection is open, the cached channel is closed: what a channel
    exception leaves. *)
Definition stale (c : Client) (a : A) : Prop :=
  exists k ch, conn c = Some k /\ k ∈ amqp_open_conns a /\
    channel c = Some ch /\ ch ∉ amqp_open_chans a.

(** [Publish] of each message in turn, whatever the results. *)
Fixpoint publish_all (q : string) (bodies : list string) : M (Client * A) (list (result unit)) :=
  match bodies with
  | [] => mret []
  | b :: bodies =>
      r <- Publish q b ;;
      rs <- publish_all q bodies ;;
      mret (r :: rs)
  end.

Lemma Publish_stale c a q body : stale c a ->
  wp (Publish q body) (fun r ca => is_ok r = false /\ ca = (c, a)) (c, a).
Proof.
  intros (k & ch & Hk & Ho & Hch & Hc). unfold Publish, getChannel, get_client, with_amqp. wp_steps.
  rw Hk. wp_steps. wp_apply conn_IsClosed_law. intros b a1 [-> ->]. wp_steps.
  rw bool_decide_eq_false_2; [by intros Hn|]. rw Hch. wp_steps.
  wp_apply chan_send_closed; [exact Hc|]. by intros r a2 [Hr ->].
Qed.
End stale.

(** C36: a channel that was closed under an open connection is never
    replaced: from then on every [Publish] fails and sends nothing, however
    often it is tried, because [getChannel] looks at the connection only. *)
Theorem stale_channel_stuck {A} `{AmqpLib A, !AmqpLaws A} c a q bodies :
  stale c a ->
  wp (publish_all q bodies) (fun rs ca =>
    Forall (fun r => is_ok r = false) rs /\ length rs = length bodies /\ ca = (c, a)) (c, a).
Proof.
  intros Hs. induction bodies as [|b bodies IH]; cbn; wp_steps; [done|].
  wp_apply Publish_stale; [exact Hs|]. intros r ca [Hr ->]. wp_steps. wp_apply IH.
  intros rs ca (Hall & Hlen & ->). wp_steps. split_and!; [by constructor|cbn; by rw Hlen|done].
Qed.

(** Connection 0 is open, channel 1 is not. *)
Definition stale_amqp : RefAmqp := mkRefAmqp [] {[0%nat]} ∅ 2 [].

Lemma stale_channel_stuck_witness :
  wp (publish_all "transactions" ["a"; "b"; "c"]) (fun rs ca =>
    Forall (fun r => is_ok r = false) rs /\ length rs = 3%nat /\ ca = (ref_client, stale_amqp))
    (ref_client, stale_amqp).
Proof.
  apply (stale_channel_stuck ref_client stale_amqp "transactions" ["a"; "b"; "c"]).
  exists 0%nat, 1%nat. split_and!; [done| |done|]; cbn; set_solver.
Defined.
