(* ===== verification/Session.v ===== *)
(** * Rules for database transactions

    The laws of [PgLaws], as rules for the calls the services and the worker
    make inside [BeginTxx] ... [Commit]: [in_tx] says what is committed and
    what the open transaction sees; every rule gives the continuation after
    success and after a library error. *)

From S2P Require Import Prelude GoNum Float64 Domain Sql Postgres Redis Queue World.

Section session.
Context {P R A C : Type} `{PgDriver P} `{!PgLaws P}.
#[local] Abbreviation World := (World P R A C).

Definition in_tx (tb tbw : Tables) (p : P) : Prop :=
  pg_committed p = tb /\ pg_working p = Some tbw.

Lemma on_begin (w : World) Q :
  (forall p, in_tx (pg_committed (w_pg w)) (pg_committed (w_pg w)) p -> Q (Ok tt) (set_pg p w)) ->
  (forall p e, pg_committed p = pg_committed (w_pg w) -> foreign e = true -> Q (Err e) (set_pg p w)) ->
  wp (on_pg pg_begin) Q w.
Proof.
  intros Hok Herr. unfold on_pg. wp_steps. wp_apply pg_begin_law.
  intros [[]|e] p [Hc Hr]; [by apply Hok|by apply Herr].
Qed.

Lemma on_select_balance id tb tbw (w : World) Q :
  in_tx tb tbw (w_pg w) ->
  (forall p, in_tx tb tbw p -> Q (Ok (balance_of id tbw)) (set_pg p w)) ->
  (forall p e, pg_committed p = tb -> foreign e = true -> Q (Err e) (set_pg p w)) ->
  wp (on_pg (pg_select_balance id)) Q w.
Proof.
  intros [<- Hw] Hok Herr. unfold on_pg. wp_steps. wp_apply pg_select_balance_law; [exact Hw|].
  intros [b|e] p [Hc Hr]; [|by apply Herr]. destruct Hr as [Hw' ->]. by apply Hok.
Qed.

Lemma on_select_exists id tb tbw (w : World) Q :
  in_tx tb tbw (w_pg w) ->
  (forall p, in_tx tb tbw p -> Q (Ok (bool_decide (is_Some (accounts tbw !! id)))) (set_pg p w)) ->
  (forall p e, pg_committed p = tb -> foreign e = true -> Q (Err e) (set_pg p w)) ->
  wp (on_pg (pg_select_exists id)) Q w.
Proof.
  intros [<- Hw] Hok Herr. unfold on_pg. wp_steps. wp_apply pg_select_exists_law; [exact Hw|].
  intros [b|e] p [Hc Hr]; [|by apply Herr]. destruct Hr as [Hw' ->]. by apply Hok.
Qed.

Lemma on_tx_exec s tb tbw (w : World) Q :
  in_tx tb tbw (w_pg w) ->
  (forall p tb', in_tx tb tb' p -> sql_step s tbw tb' -> Q (Ok tt) (set_pg p w)) ->
  (forall p e, pg_committed p = tb -> foreign e = true -> Q (Err e) (set_pg p w)) ->
  wp (on_pg (pg_tx_exec s)) Q w.
Proof.
  intros [<- Hw] Hok Herr. unfold on_pg. wp_steps. wp_apply pg_tx_exec_law; [exact Hw|].
  intros [[]|e] p [Hc Hr]; [|by apply Herr]. destruct Hr as (tb' & Hw' & Hs). by apply (Hok p tb').
Qed.

Lemma on_commit tb tbw (w : World) Q :
  in_tx tb tbw (w_pg w) ->
  (forall p, pg_committed p = tbw -> Q (Ok tt) (set_pg p w)) ->
  (forall p e, pg_committed p = tb \/ pg_committed p = tbw -> (commit_definite P -> pg_committed p = tb) ->
     foreign e = true -> Q (Err e) (set_pg p w)) ->
  wp (on_pg pg_commit) Q w.
Proof.
  intros [<- Hw] Hok Herr. unfold on_pg. wp_steps.
  assert (commit_definite P -> _) as Hdef by exact (fun Hd => Hd (w_pg w)).
  pose proof (pg_commit_law (w_pg w) tbw Hw) as Hlaw. unfold wp in *.
  destruct (pg_commit (w_pg w)) as [[[]|e] p]; [by apply Hok|].
  destruct Hlaw as [? Hp]. apply Herr; try done. intros Hd. by apply Hdef.
Qed.

Lemma on_rollback (w : World) Q :
  (forall r p, pg_committed p = pg_committed (w_pg w) -> Q r (set_pg p w)) ->
  wp (on_pg pg_rollback) Q w.
Proof.
  intros Hq. unfold on_pg. wp_steps. wp_apply pg_rollback_law. intros r p Hp. by apply Hq.
Qed.

(** A statement sequence grows at its end. *)
Lemma sql_steps_snoc ss s tb tb1 tb2 :
  sql_steps ss tb tb1 -> sql_step s tb1 tb2 -> sql_steps (ss ++ [s]) tb tb2.
Proof.
  intros Hr [now Hs]. induction Hr as [tb|n s' ss tb tb1 tb3 Hx Hr IH]; cbn.
  - eapply sql_run_cons; [done|apply sql_run_nil].
  - eapply sql_run_cons; [done|]. by apply IH.
Qed.

Lemma sql_steps_cons s ss tb tb1 tb2 :
  sql_step s tb tb1 -> sql_steps ss tb1 tb2 -> sql_steps (s :: ss) tb tb2.
Proof. intros [now Hs] Hr. by eapply sql_run_cons. Qed.

Lemma sql_steps_one s tb tb' : sql_step s tb tb' -> sql_steps [s] tb tb'.
Proof. intros Hs. eapply sql_steps_cons; [exact Hs|constructor]. Qed.
End session.
