(* ===== verification/Repository.v ===== *)
(** * Repositories

    The interfaces [account.Repository] and [transaction.Repository] of
    internal/domain, as records of operations; their implementations in
    internal/repository/memory and internal/repository/postgres; and the
    contract a transaction repository keeps with the services, as a class
    that both implementations satisfy. *)

From S2P Require Import Prelude GoNum Float64 Domain Sql Postgres Redis Queue World Reference.

(** [type Repository interface] of internal/domain/transaction *)
Record TxRepository (W : Type) : Type := mkTxRepository {
  Save : Transaction -> M W (result unit);
  GetByID : string -> M W (result Transaction);
  UpdateStatus : string -> Status -> M W (result unit);
}.
Arguments mkTxRepository {W}.
Arguments Save {W}.
Arguments GetByID {W}.
Arguments UpdateStatus {W}.

(** [type Repository interface] of internal/domain/account *)
Record AccountRepository (W : Type) : Type := mkAccountRepository {
  GetAccountByID : Z -> M W (result Account);
}.
Arguments mkAccountRepository {W}.
Arguments GetAccountByID {W}.

Definition tx_not_found (id : string) : goerror :=
  ErrorString ("transaction " +:+ id +:+ " not found").
Definition account_not_found (id : Z) : goerror :=
  ErrorString ("account " +:+ Sprintf_d id +:+ " not found").

(** The row of a transaction, scanned into the struct. *)
Definition scan_tx (id : string) (r : TxRow) : Transaction :=
  mkTransaction id (row_source r) (row_dest r) (scan_numeric (row_amount r)) (row_status r)
    (row_created r) (row_updated r).

Definition scan_account (id : Z) (r : AccountRow) : Account :=
  mkAccount id (row_name r) (scan_numeric (row_balance r)) (row_account_updated r).

(** ** internal/repository/memory *)

Module memory.
Section memory.
Context {P R A C : Type}.
Local Open Scope go_scope.
#[local] Abbreviation World := (World P R A C).

Definition Save (tx : Transaction) : M World (result unit) :=
  mput (fun w => set_mem_tx (<[ID tx := tx]> (w_mem_tx w)) w) ;;;
  mret (Ok tt).

Definition GetByID (id : string) : M World (result Transaction) :=
  data <- mget w_mem_tx ;;
  mret (match (data : gmap string Transaction) !! id with
        | None => Err (tx_not_found id)
        | Some tx => Ok tx
        end).

Definition UpdateStatus (id : string) (status : Status) : M World (result unit) :=
  data <- mget w_mem_tx ;;
  match (data : gmap string Transaction) !! id with
  | None => mret (Err (tx_not_found id))
  | Some tx =>
      mput (fun w => set_mem_tx (<[id := set_status status tx]> (w_mem_tx w)) w) ;;;
      mret (Ok tt)
  end.

Definition GetAccountByID (id : Z) : M World (result Account) :=
  data <- mget w_mem_acc ;;
  mret (match (data : gmap Z Account) !! id with
        | None => Err (account_not_found id)
        | Some a => Ok a
        end).

Definition NewTransactionRepository : TxRepository World :=
  mkTxRepository Save GetByID UpdateStatus.
Definition NewAccountRepository : AccountRepository World :=
  mkAccountRepository GetAccountByID.

(** The accounts a memory repository starts with, at time [now]. *)
Definition memory_accounts (now : Z) : gmap Z Account :=
  {[ 1001 := mkAccount 1001 "Budi Santoso" (f64_of_Z 10000000) now;
     1002 := mkAccount 1002 "Siti Rahayu" (f64_of_Z 25000000) now;
     1003 := mkAccount 1003 "Agus Wijaya" (f64_of_Z 5000000) now;
     1004 := mkAccount 1004 "Dewi Lestari" (f64_of_Z 50000000) now;
     1005 := mkAccount 1005 "Rudi Hartono" (f64_of_Z 1000000) now ]}.
End memory.
End memory.

(** ** internal/repository/postgres *)

Module postgres.
Section postgres.
Context {P R A C : Type} `{PgDriver P}.
Local Open Scope go_scope.
#[local] Abbreviation World := (World P R A C).

(** The two pools of a repository. *)
Record pools : Type := mkPools { db : DB; replica : DB }.

Definition new_pools (db : DB) (replica : option DB) : pools :=
  mkPools db (match replica with None => db | Some r => r end).

(** [r.db.ExecContext]: every statement of the program goes to the primary
    pool, the only one a repository is built with as [db]. *)
Definition Save (tx : Transaction) : M World (result unit) :=
  on_pg (pg_exec (InsertTx tx)).

Definition GetByID (r : pools) (id : string) : M World (result Transaction) :=
  try row <- on_pg (pg_get_tx (replica r) id) catch (fun e => mret (Err e)) ;;
  mret (match row with
        | None => Err (tx_not_found id)
        | Some row => Ok (scan_tx id row)
        end).

Definition UpdateStatus (id : string) (status : Status) : M World (result unit) :=
  on_pg (pg_exec (UpdateTxStatus status id)).

Definition GetAccountByID (r : pools) (id : Z) : M World (result Account) :=
  try row <- on_pg (pg_get_account (replica r) id) catch (fun e => mret (Err e)) ;;
  mret (match row with
        | None => Err (account_not_found id)
        | Some row => Ok (scan_account id row)
        end).

Definition NewTransactionRepository (db : DB) (replica : option DB) : TxRepository World :=
  let r := new_pools db replica in mkTxRepository Save (GetByID r) UpdateStatus.
Definition NewAccountRepository (db : DB) (replica : option DB) : AccountRepository World :=
  mkAccountRepository (GetAccountByID (new_pools db replica)).
End postgres.
End postgres.

(** ** The contract of a transaction repository

    [repo_status] is the status each transaction is stored with.  A
    successful [Save] stores the status of the transaction, a successful
    [UpdateStatus] replaces the status of a stored one, a successful [GetByID]
    reads a stored one.  A failed write may have been applied.  A repository
    works on its own store and nothing else ([outside_repo]). *)
Section contract.
Context {P R A C : Type}.
#[local] Abbreviation World := (World P R A C).

(** Everything but the database and the in-memory transactions. *)
Definition outside_repo (w w' : World) : Prop :=
  w_redis w' = w_redis w /\ w_amqp w' = w_amqp w /\ w_client w' = w_client w /\
  w_counter w' = w_counter w /\ w_event w' = w_event w /\ w_metrics w' = w_metrics w.

Class TxRepoLaws (repo : TxRepository World) : Type := {
  repo_status : World -> gmap string Status;
  repo_status_frame w w' :
    w_pg w' = w_pg w -> w_mem_tx w' = w_mem_tx w -> repo_status w' = repo_status w;
  Save_law tx w :
    wp (Save repo tx) (fun r w' => outside_repo w w' /\
      match r with
      | Ok _ => repo_status w' = <[ID tx := TxStatus tx]> (repo_status w)
      | Err _ => repo_status w' = repo_status w \/
                 repo_status w' = <[ID tx := TxStatus tx]> (repo_status w)
      end) w;
  GetByID_law id w :
    wp (GetByID repo id) (fun r w' => outside_repo w w' /\
      repo_status w' = repo_status w /\
      match r with
      | Ok tx => repo_status w !! id = Some (TxStatus tx)
      | Err _ => True
      end) w;
  UpdateStatus_law id s w :
    wp (UpdateStatus repo id s) (fun r w' => outside_repo w w' /\
      match r with
      | Ok _ => repo_status w' = alter (fun _ => s) id (repo_status w)
      | Err _ => repo_status w' = repo_status w \/
                 repo_status w' = alter (fun _ => s) id (repo_status w)
      end) w;
}.
End contract.

(** ** Both implementations keep the contract *)

Definition memory_status {P R A C} (w : World P R A C) : gmap string Status :=
  TxStatus <$> w_mem_tx w.

Definition pg_status {P R A C} `{PgDriver P} (w : World P R A C) : gmap string Status :=
  row_status <$> transactions (pg_committed (w_pg w)).

Section implementations.
Context {P R A C : Type} `{PgDriver P} `{!PgLaws P}.
#[local] Abbreviation World := (World P R A C).

Lemma fmap_alter_const {V} (f : V -> Status) (m : gmap string V) id v s :
  m !! id = Some v -> forall v', f v' = s -> f <$> <[id := v']> m = alter (fun _ => s) id (f <$> m).
Proof.
  intros Hid v' <-. apply map_eq. intros j. rw lookup_fmap lookup_alter lookup_insert !lookup_fmap.
  case_decide; subst; by rw ?Hid.
Qed.

Lemma alter_missing {K V} `{Countable K} (f : V -> V) (m : gmap K V) id : m !! id = None -> alter f id m = m.
Proof. intros Hid. apply map_eq. intros j. rw lookup_alter. case_decide; [subst; by rw Hid|done]. Qed.

#[export] Program Instance memory_repo_laws :
  TxRepoLaws (P := P) (R := R) (A := A) (C := C) memory.NewTransactionRepository :=
  { repo_status := memory_status }.
Next Obligation. intros w w' _ Hm. unfold memory_status. by rw Hm. Qed.
Next Obligation.
  intros tx w. cbn. unfold memory.Save. wp_steps. split; [done|].
  unfold memory_status. cbn. by rw fmap_insert.
Qed.
Next Obligation.
  intros id w. cbn. unfold memory.GetByID. wp_steps. split; [done|]. split; [done|].
  unfold memory_status. rw lookup_fmap. by destruct (w_mem_tx w !! id).
Qed.
Next Obligation.
  intros id s w. cbn. unfold memory.UpdateStatus. wp_steps.
  destruct (w_mem_tx w !! id) as [tx|] eqn:Hid; wp_steps; (split; [done|]); [|by left].
  unfold memory_status. cbn. by eapply fmap_alter_const.
Qed.

Lemma insert_status tx (tb tb' : Tables) :
  sql_step (InsertTx tx) tb tb' ->
  row_status <$> transactions tb' = <[ID tx := TxStatus tx]> (row_status <$> transactions tb).
Proof.
  intros [now Hi]. cbn in Hi. unfold insert_tx, tx_row in Hi. case_all. by rw fmap_insert.
Qed.

Lemma update_status_status s id (tb tb' : Tables) :
  sql_step (UpdateTxStatus s id) tb tb' ->
  row_status <$> transactions tb' = alter (fun _ => s) id (row_status <$> transactions tb).
Proof.
  intros [now Hu]. cbn in Hu. unfold update_status in Hu. case_match; [done|].
  destruct (transactions tb !! id) as [r|] eqn:Hr; simplify_eq; cbn.
  - by eapply fmap_alter_const.
  - rw alter_missing //. by rw lookup_fmap Hr.
Qed.

(** The contract holds for a repository that reads from the primary. *)
#[export] Program Instance postgres_repo_laws :
  TxRepoLaws (P := P) (R := R) (A := A) (C := C)
    (postgres.NewTransactionRepository Primary None) := { repo_status := pg_status }.
Next Obligation. intros w w' Hp _. unfold pg_status. by rw Hp. Qed.
Next Obligation.
  intros tx w. cbn. unfold postgres.Save, on_pg. wp_steps. wp_apply pg_exec_law.
  intros r p' Hp. split; [done|]. unfold pg_status. cbn. destruct r as [[]|e].
  - by apply insert_status.
  - destruct Hp as [->|Hp]; [by left|right; by apply insert_status].
Qed.
Next Obligation.
  intros id w. cbn. unfold postgres.GetByID, on_pg. wp_steps. wp_apply (pg_get_tx_law Primary).
  unfold pg_status. intros [row|e] p' [Hc Hr]; wp_steps; cbn; rw Hc; split_and!; try done.
  subst row. cbn. rw lookup_fmap. by destruct (transactions (pg_committed (w_pg w)) !! id).
Qed.
Next Obligation.
  intros id s w. cbn. unfold postgres.UpdateStatus, on_pg. wp_steps. wp_apply pg_exec_law.
  intros r p' Hp. split; [done|]. unfold pg_status. cbn. destruct r as [[]|e].
  - by apply update_status_status.
  - destruct Hp as [->|Hp]; [by left|right; by apply update_status_status].
Qed.
End implementations.

(** A transaction that was saved is read back with the status it was
    saved with, and with the status it was given later: for every repository
    that keeps the contract, hence for the in-memory and the PostgreSQL one
    ([memory_repo_laws], [postgres_repo_laws]). *)
Theorem saved_status_is_read {P R A C} (repo : TxRepository (World P R A C)) `{!TxRepoLaws repo} tx s w :
  wp (Save repo tx) (fun r1 w1 =>
    wp (UpdateStatus repo (ID tx) s) (fun r2 w2 =>
      wp (GetByID repo (ID tx)) (fun r3 _ =>
        forall tx', r1 = Ok tt -> r3 = Ok tx' ->
          match r2 with Ok _ => TxStatus tx' = s | Err _ => TxStatus tx' = TxStatus tx \/ TxStatus tx' = s end)
        w2) w1) w.
Proof.
  wp_apply Save_law. intros r1 w1 [_ H1]. wp_apply UpdateStatus_law. intros r2 w2 [_ H2].
  wp_apply GetByID_law. intros r3 w3 (_ & _ & H3) tx' -> ->. rw H1 in H2.
  destruct r2 as [[]|e]; [|destruct H2 as [H2|H2]]; rw H2 ?lookup_alter_eq lookup_insert_eq in H3;
    cbn in H3; injection H3 as <-; auto.
Qed.

Definition ref_saved : Transaction := mkTransaction "T9" 1001 1002 f64_zero StatusPending 0 0.
Definition ref_memory_laws : TxRepoLaws memory.NewTransactionRepository :=
  memory_repo_laws (P := RefPg) (R := RefRedis) (A := RefAmqp) (C := Z).

Lemma saved_status_is_read_witness :
  wp (Save memory.NewTransactionRepository ref_saved) (fun r1 w1 =>
    wp (UpdateStatus memory.NewTransactionRepository (ID ref_saved) StatusFailed) (fun r2 w2 =>
      wp (GetByID memory.NewTransactionRepository (ID ref_saved)) (fun r3 _ =>
        forall tx', r1 = Ok tt -> r3 = Ok tx' ->
          match r2 with
          | Ok _ => TxStatus tx' = StatusFailed
          | Err _ => TxStatus tx' = TxStatus ref_saved \/ TxStatus tx' = StatusFailed
          end) w2) w1) ref_start.
Proof.
  apply (saved_status_is_read memory.NewTransactionRepository (TxRepoLaws0 := ref_memory_laws)
    ref_saved StatusFailed ref_start).
Defined.
