(* ===== verification/TransactionService.v ===== *)
(** * The transaction service

    internal/service/transaction.go: [CreateTransaction] with its three paths
    (queue, database, memory), [GetTransactionStatus] with its cache, and
    [invalidateBalanceCache].  A [*transaction.Transaction] the code fills in
    along the way is returned with its final fields. *)

From S2P Require Import Prelude GoNum TxId Float64 Domain Sql Postgres Transfer Redis Queue.
From S2P Require Import World Session Repository Reference.

(** [type transactionService struct]: which of the pointers are non-nil, and
    the repository and TTL. *)
Record transactionService (W : Type) : Type := mkTxService {
  svc_repo : TxRepository W;
  svc_db : bool;
  svc_queue : bool;
  svc_redis : bool;
  svc_txStatusTTL : Z;
}.
Arguments mkTxService {W}.
Arguments svc_repo {W}.
Arguments svc_db {W}.
Arguments svc_queue {W}.
Arguments svc_redis {W}.
Arguments svc_txStatusTTL {W}.

(** [time.Second] *)
Definition Second : Z := 1000000000.

(** [QueryRowContext(...).Scan(&balance)] *)
Definition scan_balance (r : result (option Z)) : result f64 :=
  match r with
  | Err e => Err e
  | Ok None => Err ErrNoRows
  | Ok (Some cents) => Ok (scan_numeric cents)
  end.

Section service.
Context {P R A C : Type} `{PgDriver P, RedisServer R, AmqpLib A, Clock C}.
Context `{JSON TxMessage, JSON Transaction}.
#[local] Abbreviation World := (World P R A C).
Context (s : transactionService World).
Local Open Scope go_scope.

Definition invalidateBalanceCache (accountIDs : list Z) : M World unit :=
  if negb (svc_redis s) then mret tt
  else on_redis (rd_del (map balance_key accountIDs)) ;;; mret tt.

(** The statements between [BeginTxx] and the deferred [Rollback]. *)
Definition createSync_body (tx : Transaction) : M World (result Transaction) :=
  row <- on_pg (pg_select_balance (SourceAccount tx)) ;;
  match scan_balance row with
  | Err e =>
      if errors_Is e ErrNoRows then mret (Err ErrAccountNotFound)
      else mret (Err (Wrapped "query source account" e))
  | Ok balance =>
      if f64_ltb balance (Amount tx) then mret (Err ErrInsufficientFunds)
      else
        try exists_ <- on_pg (pg_select_exists (DestAccount tx))
          catch (fun e => mret (Err (Wrapped "query dest account" e))) ;;
        if negb exists_ then mret (Err ErrAccountNotFound)
        else
          try _ <- on_pg (pg_tx_exec (Debit (Amount tx) (SourceAccount tx)))
            catch (fun e => mret (Err (Wrapped "debit source" e))) ;;
          try _ <- on_pg (pg_tx_exec (Credit (Amount tx) (DestAccount tx)))
            catch (fun e => mret (Err (Wrapped "credit dest" e))) ;;
          let tx := set_status StatusCompleted tx in
          try _ <- on_pg (pg_tx_exec (UpsertTx tx))
            catch (fun e => mret (Err (Wrapped "insert transaction" e))) ;;
          try _ <- on_pg pg_commit
            catch (fun e => mret (Err (Wrapped "commit" e))) ;;
          invalidateBalanceCache [SourceAccount tx; DestAccount tx] ;;;
          mret (Ok tx)
  end.

Definition createSync (tx : Transaction) : M World (result Transaction) :=
  try _ <- on_pg pg_begin catch (fun e => mret (Err (Wrapped "begin transaction" e))) ;;
  r <- createSync_body tx ;;
  on_pg pg_rollback ;;;
  mret r.

Definition tx_message (tx : Transaction) : TxMessage :=
  mkTxMessage (ID tx) (SourceAccount tx) (DestAccount tx) (Amount tx).

Definition createAsync (tx : Transaction) : M World (result Transaction) :=
  let tx := set_status StatusPending tx in
  try _ <- Save (svc_repo s) tx
    catch (fun e => mret (Err (Wrapped "save pending transaction" e))) ;;
  match json_Marshal (tx_message tx) with
  | Err e => mret (Err (Wrapped "marshal queue message" e))
  | Ok body =>
      try _ <- on_queue (Publish "transactions" body)
        catch (fun e =>
          UpdateStatus (svc_repo s) (ID tx) StatusFailed ;;;
          mret (Err (Wrapped "publish to queue" e))) ;;
      mret (Ok tx)
  end.

(** The memory/dev fallback of [CreateTransaction]. *)
Definition createMemory (tx : Transaction) : M World (result Transaction) :=
  let tx := set_status StatusCompleted tx in
  try _ <- Save (svc_repo s) tx catch (fun e => mret (Err e)) ;;
  mret (Ok tx).

Definition CreateTransaction (input : CreateTransactionInput) : M World (result Transaction) :=
  logger_Set "source_account" (LInt (in_source input)) ;;;
  logger_Set "dest_account" (LInt (in_dest input)) ;;;
  logger_Set "amount" (LFloat (in_amount input)) ;;;
  now <- time_Now ;;
  id <- nextTransactionID ;;
  let tx := mkTransaction id (in_source input) (in_dest input) (in_amount input) "" now zero_time in
  r <- (if svc_queue s then createAsync tx
        else if svc_db s then createSync tx
        else createMemory tx) ;;
  match r with
  | Err e =>
      logger_Set "transaction_error" (LErr e) ;;;
      mret (Err e)
  | Ok tx =>
      logger_Set "transaction_id" (LStr (ID tx)) ;;;
      logger_Set "transaction_status" (LStr (TxStatus tx)) ;;;
      mret (Ok tx)
  end.

(** The lookup in the cache at the head of [GetTransactionStatus]. *)
Definition cached_tx (id : string) : M World (option Transaction) :=
  cached <- on_redis (rd_get (tx_status_key id)) ;;
  match cached with
  | Err _ => mret None
  | Ok data => mret (match json_Unmarshal data with Ok tx => Some tx | Err _ => None end)
  end.

(** TTL of a cache entry: short while the transaction is pending. *)
Definition status_ttl (tx : Transaction) : Z :=
  if String.eqb (TxStatus tx) StatusPending then 2 * Second else svc_txStatusTTL s.

(** [GetTransactionStatus] after the cache lookup found nothing. *)
Definition load_tx_status (id : string) : M World (result Transaction) :=
  r <- GetByID (svc_repo s) id ;;
  match r with
  | Err e =>
      logger_Set "transaction_error" (LErr e) ;;;
      mret (Err e)
  | Ok tx =>
      (if svc_redis s then
         match json_Marshal tx with
         | Ok data => on_redis (rd_set (tx_status_key id) data (status_ttl tx)) ;;; mret tt
         | Err _ => mret tt
         end
       else mret tt) ;;;
      logger_Set "transaction_status" (LStr (TxStatus tx)) ;;;
      mret (Ok tx)
  end.

Definition GetTransactionStatus (id : string) : M World (result Transaction) :=
  logger_Set "transaction_id" (LStr id) ;;;
  if svc_redis s then
    hit <- cached_tx id ;;
    match hit with
    | Some tx =>
        logger_Set "cache_hit" (LBool true) ;;;
        logger_Set "transaction_status" (LStr (TxStatus tx)) ;;;
        CacheHits_Inc "tx_status" ;;;
        mret (Ok tx)
    | None =>
        CacheMisses_Inc "tx_status" ;;;
        logger_Set "cache_hit" (LBool false) ;;;
        load_tx_status id
    end
  else load_tx_status id.
End service.

(** ** The envelope of [CreateTransaction]

    Whatever the path does, the call generates an identifier from the clock
    and the counter, runs the path on a transaction with the fields of the
    input, and adds fields to the wide event. *)
Section envelope.
Context {P R A C : Type} `{PgDriver P, RedisServer R, AmqpLib A, Clock C}.
Context `{JSON TxMessage, JSON Transaction}.
#[local] Abbreviation World := (World P R A C).

Definition new_tx (input : CreateTransactionInput) (id : string) (now : Z) : Transaction :=
  mkTransaction id (in_source input) (in_dest input) (in_amount input) "" now zero_time.

(** The three-way [switch] of [CreateTransaction]. *)
Definition create_path (s : transactionService World) (tx : Transaction) : M World (result Transaction) :=
  if svc_queue s then createAsync s tx else if svc_db s then createSync s tx else createMemory s tx.

Lemma CreateTransaction_run s input (Q : result Transaction -> World -> Prop) w :
  (forall t now w1, same_stores w w1 -> w_counter w1 = next_id t (w_counter w) ->
     wp (create_path s (new_tx input (format_id (next_id t (w_counter w))) now))
       (fun r w2 => forall w3, same_stores w2 w3 -> w_counter w3 = w_counter w2 -> Q r w3) w1) ->
  wp (CreateTransaction s input) Q w.
Proof.
  intros Hpath. unfold CreateTransaction, time_Now. wp_steps. apply wp_logger_Set. intros e1.
  wp_steps. apply wp_logger_Set. intros e2. wp_steps. apply wp_logger_Set. intros e3. wp_steps.
  apply wp_of. intros now c1 _. wp_steps. apply nextTransactionID_once, wp_of. intros t c2 _.
  wp_steps. wp_apply (Hpath t now); [done|done|]. intros [tx|e] w2 HQ; wp_steps.
  - apply wp_logger_Set. intros e4. wp_steps. apply wp_logger_Set. intros e5. wp_steps. by apply HQ.
  - apply wp_logger_Set. intros e4. wp_steps. by apply HQ.
Qed.

Lemma CreateTransaction_envelope s input (Q : result Transaction -> World -> Prop) w :
  (forall t now w1, same_stores w w1 ->
     wp (create_path s (new_tx input (format_id (next_id t (w_counter w))) now))
       (fun r w2 => forall w3, same_stores w2 w3 -> Q r w3) w1) ->
  wp (CreateTransaction s input) Q w.
Proof.
  intros Hpath. apply CreateTransaction_run. intros t now w1 Hs _. wp_apply (Hpath t now w1 Hs). eauto.
Qed.
End envelope.

(** ** The synchronous path

    [sync_applied]: what a committed transfer did to the tables. *)
Section sync.
Context {P R A C : Type} `{PgDriver P, RedisServer R, AmqpLib A, Clock C} `{!PgLaws P}.
#[local] Abbreviation World := (World P R A C).

Definition sync_statements (tx : Transaction) : list stmt :=
  [Debit (Amount tx) (SourceAccount tx); Credit (Amount tx) (DestAccount tx);
   UpsertTx (set_status StatusCompleted tx)].

Definition sync_applied (tx : Transaction) (tb tb' : Tables) : Prop :=
  funds_checked (Amount tx) (SourceAccount tx) tb /\
  is_Some (accounts tb !! DestAccount tx) /\
  sql_steps (sync_statements tx) tb tb'.

(** Every outcome of [createSync] on the committed tables. *)
Definition sync_outcome (tx : Transaction) (tb : Tables) (r : result Transaction) (tb' : Tables) : Prop :=
  match r with
  | Ok tx' => tx' = set_status StatusCompleted tx /\ sync_applied tx tb tb'
  | Err e =>
      (tb' = tb \/ (exists e', e = Wrapped "commit" e') /\ sync_applied tx tb tb') /\
      (commit_definite P -> tb' = tb) /\
      (errors_Is e ErrAccountNotFound = true ->
         tb' = tb /\ (balance_of (SourceAccount tx) tb = None \/ accounts tb !! DestAccount tx = None)) /\
      (errors_Is e ErrInsufficientFunds = true ->
         tb' = tb /\ exists cents, balance_of (SourceAccount tx) tb = Some cents /\
                       f64_ltb (scan_numeric cents) (Amount tx) = true)
  end.

(** A wrapped library error leaves the tables as they were. *)
Lemma sync_outcome_foreign tx tb p e :
  foreign e = true -> sync_outcome tx tb (Err (Wrapped p e)) tb.
Proof.
  intros (E1 & E2 & _)%foreign_not. split; [by left|]. split; [done|]. cbn.
  by rw E1 E2.
Qed.

Lemma invalidateBalanceCache_pg (s : transactionService World) ids (Q : Tables -> Prop) w :
  Q (pg_committed (w_pg w)) ->
  wp (invalidateBalanceCache s ids) (fun _ w' => Q (pg_committed (w_pg w'))) w.
Proof.
  intros HQ. unfold invalidateBalanceCache. destruct (svc_redis s); cbn; wp_steps; [|done].
  unfold on_redis. wp_steps. by apply wp_of.
Qed.

(** The statements executed so far leave the transaction able to commit. *)
Lemma createSync_body_spec (s : transactionService World) tx tb w :
  in_tx tb tb (w_pg w) ->
  wp (createSync_body s tx) (fun r w' => sync_outcome tx tb r (pg_committed (w_pg w'))) w.
Proof.
  intros Hin. unfold createSync_body. wp_steps.
  assert (forall p q e, pg_committed p = tb -> foreign e = true ->
    sync_outcome tx tb (Err (Wrapped q e)) (pg_committed (w_pg (set_pg p w)))) as Hlib.
  { intros p q e <- He. by apply sync_outcome_foreign. }
  apply (on_select_balance _ tb tb); [done| |]; cbn [scan_balance].
  2: { intros p e Hc He. destruct (foreign_not e He) as (_ & _ & ->). wp_steps. by apply Hlib. }
  intros p1 I1. destruct (balance_of (SourceAccount tx) tb) as [cents|] eqn:Hb;
    cbn [scan_balance errors_Is].
  2: { wp_steps. destruct I1 as [<- _]. split; [by left|]. split; [done|]. split; [|done]. by auto. }
  destruct (f64_ltb (scan_numeric cents) (Amount tx)) eqn:Hfunds.
  { wp_steps. destruct I1 as [<- _]. split; [by left|]. split; [done|]. split; [done|]. by eauto. }
  wp_steps. apply (on_select_exists _ tb tb); [done| |intros; wp_steps; by apply Hlib].
  intros p2 I2. case_bool_decide as Hdst; cbn [negb].
  2: { wp_steps. destruct I2 as [<- _]. split; [by left|]. split; [done|]. split; [|done].
       intros _. split; [done|]. right. by apply eq_None_not_Some. }
  wp_steps. apply (on_tx_exec _ tb tb); [done| |intros; wp_steps; by apply Hlib].
  intros p3 tb3 I3 S3. wp_steps.
  apply (on_tx_exec _ tb tb3); [done| |intros; wp_steps; by apply Hlib]. intros p4 tb4 I4 S4. wp_steps.
  apply (on_tx_exec _ tb tb4); [done| |intros; wp_steps; by apply Hlib]. intros p5 tb5 I5 S5. wp_steps.
  assert (sync_applied tx tb tb5) as Happ.
  { split; [by exists cents|]. split; [done|]. apply (sql_steps_snoc [_; _] _ _ tb4); [|done].
    apply (sql_steps_snoc [_] _ _ tb3); [|done]. by apply sql_steps_one. }
  apply (on_commit tb tb5); [done| |].
  - intros p6 I6. wp_steps. apply (invalidateBalanceCache_pg s _ (fun t => sync_outcome tx tb (Ok _) t)).
    cbn. by rw I6.
  - intros p6 e [Hp| Hp] Hdef Hf; wp_steps; [by apply Hlib|]. cbn. rw Hp. rw Hp in Hdef.
    split; [right; by eauto|]. split; [done|]. destruct (foreign_not e Hf) as (E1 & E2 & _). cbn. by rw E1 E2.
Qed.

Lemma createSync_spec (s : transactionService World) tx w :
  wp (createSync s tx) (fun r w' =>
    sync_outcome tx (pg_committed (w_pg w)) r (pg_committed (w_pg w'))) w.
Proof.
  unfold createSync. wp_steps. apply on_begin.
  - intros p Hin. wp_steps. wp_apply createSync_body_spec; [exact Hin|].
    intros r w1 Hr. wp_steps. apply on_rollback. intros r2 p2 Hp. wp_steps. cbn. by rw Hp.
  - intros p e Hc He. wp_steps. cbn. rw Hc. by apply sync_outcome_foreign.
Qed.
End sync.

(** ** The asynchronous path *)
Section async.
Context {P R A C : Type} `{PgDriver P, RedisServer R, AmqpLib A, Clock C} `{!AmqpLaws A}.
Context `{JSON TxMessage, JSON Transaction}.
#[local] Abbreviation World := (World P R A C).

(** The message for [tx] was sent to the "transactions" queue. *)
Definition message_sent (tx : Transaction) (a : A) : Prop :=
  exists body ch tr, json_Marshal (tx_message tx) = Ok body /\
    amqp_trace a = tr ++ [(ch, publish_frame "transactions" body)].

(** No message was published; or the one for [tx] was, once. *)
Definition published_none (a a' : A) : Prop := published (amqp_trace a') = published (amqp_trace a).
Definition published_one (tx : Transaction) (a a' : A) : Prop :=
  exists body, json_Marshal (tx_message tx) = Ok body /\
    published (amqp_trace a') = published (amqp_trace a) ++ [("transactions", body)].

(** Every outcome of [createAsync] on the stored statuses and the broker:
    nothing is published unless the transaction was stored first. *)
Definition async_outcome (tx : Transaction) (st : gmap string Status) (a : A)
    (r : result Transaction) (st' : gmap string Status) (a' : A) : Prop :=
  match r with
  | Ok tx' =>
      tx' = set_status StatusPending tx /\
      st' = <[ID tx := StatusPending]> st /\ message_sent tx a' /\ published_one tx a a'
  | Err e =>
      (st' = st /\ published_none a a') \/
      (exists status, st' = <[ID tx := status]> st /\ (status = StatusPending \/ status = StatusFailed) /\
         (published_none a a' \/ published_one tx a a'))
  end.

Lemma alter_insert_const (st : gmap string Status) id a b :
  alter (fun _ => b) id (<[id := a]> st) = <[id := b]> st.
Proof.
  apply map_eq. intros j. destruct (decide (id = j)) as [->|];
    [rw lookup_alter_eq|rw lookup_alter_ne //]; by simplify_map_eq.
Qed.

Lemma createAsync_spec (s : transactionService World) `{!TxRepoLaws (svc_repo s)} tx w :
  wp (createAsync s tx) (fun r w' =>
    async_outcome tx (repo_status w) (w_amqp w) r (repo_status w') (w_amqp w')) w.
Proof.
  unfold createAsync. wp_steps. wp_apply Save_law. intros [[]|e] w1 [Ho1 Hst]; cbn [ID set_status TxStatus] in Hst;
    assert (w_amqp w1 = w_amqp w) as Ea by apply Ho1.
  2: { wp_steps. unfold published_none. rw Ea. destruct Hst as [->| ->]; [by left|right].
       exists StatusPending. split_and!; [done|by left|by left]. }
  destruct (json_Marshal (tx_message _)) as [body|e] eqn:Hj; wp_steps.
  2: { right. exists StatusPending. unfold published_none. rw Ea Hst. split_and!; [done|by left|by left]. }
  unfold on_queue. wp_steps. eapply wp_mono; [apply wp_and; [apply Publish_spec|apply Publish_published]|].
  intros [[]|e] [c' a'] [Hsent Hpub]; wp_steps; cbn in Hpub; rw Ea in Hpub.
  - split; [done|]. rw (repo_status_frame w1 (set_queue (c', a') w1)) // Hst. split; [done|]. split.
    + destruct (Hsent eq_refl) as [(ch & _ & _ & Htr)|(ch & _ & Htr)]; cbn in *.
      * by exists body, ch, (amqp_trace (w_amqp w1)).
      * exists body, ch, (amqp_trace (w_amqp w1) ++ declare_frames ch). split; [done|]. by rw -app_assoc.
    + exists body. split; [done|]. cbn. by destruct Hpub as [?|[? _]].
  - wp_apply UpdateStatus_law. intros r w2 [Ho2 Hu]. wp_steps. cbn [ID set_status] in Hu.
    assert (w_amqp w2 = a') as Ea2 by (destruct Ho2 as (_ & -> & _); done).
    rw (repo_status_frame w1 (set_queue (c', a') w1)) // Hst alter_insert_const in Hu.
    assert (published_none (w_amqp w) (w_amqp w2) \/ published_one tx (w_amqp w) (w_amqp w2)) as Hp.
    { unfold published_none, published_one. rw Ea2. destruct Hpub as [?|[_ ?]]; [right; by exists body|by left]. }
    right. destruct r; [eexists; split_and!; eauto|]. destruct Hu as [->| ->]; eexists; split_and!; eauto.
Qed.
End async.

(** ** What the synchronous path guarantees *)

Section sync_lemmas.
Context {P R A C : Type} `{PgDriver P, RedisServer R, AmqpLib A, Clock C} `{!PgLaws P}.
Context `{JSON TxMessage, JSON Transaction}.
#[local] Abbreviation World := (World P R A C).

(** [CreateTransaction] without a queue, on a database. *)
Lemma CreateTransaction_sync (s : transactionService World) input w
    (Q : result Transaction -> Tables -> Prop) :
  svc_queue s = false -> svc_db s = true ->
  (forall id now r tb', sync_outcome (new_tx input id now) (pg_committed (w_pg w)) r tb' -> Q r tb') ->
  wp (CreateTransaction s input) (fun r w' => Q r (pg_committed (w_pg w'))) w.
Proof.
  intros Hq Hd HQ. apply CreateTransaction_envelope. intros t now w1 (Hp & _).
  unfold create_path. rw Hq Hd. wp_apply createSync_spec.
  intros r w2 Hr w3 (Hp3 & _). rw Hp3. eapply HQ. rw -Hp. exact Hr.
Qed.

Lemma sync_rest_untouched tx :
  Forall (fun s => touches_balances s = false) [UpsertTx (set_status StatusCompleted tx)].
Proof. by repeat constructor. Qed.

(** The accounts of a committed transfer existed. *)
Lemma sync_applied_accounts tx tb tb' : sync_applied tx tb tb' ->
  is_Some (accounts tb !! SourceAccount tx) /\ is_Some (accounts tb !! DestAccount tx).
Proof.
  intros ((c & Hb & _) & Hd & _). split; [|done].
  unfold balance_of in Hb. by apply fmap_Some in Hb as (row & -> & _).
Qed.

Lemma sync_applied_no_overdraft `{!PgLiteral P} tx tb tb' :
  sync_applied tx tb tb' -> good_amount (Amount tx) -> no_overdraft tb ->
  (forall c, balance_of (SourceAccount tx) tb = Some c -> c <= safe_cents) ->
  no_overdraft tb'.
Proof. intros (Hf & _ & Hrun). exact (transfer_keeps_no_overdraft _ _ _ _ _ _ Hrun (sync_rest_untouched tx) Hf). Qed.
End sync_lemmas.

(** C8: without a queue, [CreateTransaction] is one atomic transfer.  It
    answers with the completed transaction exactly when the committed tables
    went through the funds check, the debit, the credit and the insert of
    the record, in that order; on any error the tables are as before, except
    that an error of the commit itself may hide a committed transfer; and
    the two business errors are returned only for their business reason. *)
Theorem CreateTransaction_sync_atomic {P R A C}
    `{PgDriver P, RedisServer R, AmqpLib A, Clock C, !PgLaws P, JSON TxMessage, JSON Transaction}
    (s : transactionService (World P R A C)) input (w : World P R A C) :
  svc_queue s = false -> svc_db s = true ->
  wp (CreateTransaction s input) (fun r w' => exists id now,
    sync_outcome (new_tx input id now) (pg_committed (w_pg w)) r (pg_committed (w_pg w'))) w.
Proof.
  intros Hq Hd.
  apply (CreateTransaction_sync s input w
    (fun r tb' => exists id now, sync_outcome (new_tx input id now) (pg_committed (w_pg w)) r tb') Hq Hd).
  eauto.
Qed.

(** A service on the reference servers, with or without queue and cache. *)
Definition ref_service (queue redis : bool) : transactionService RefWorld :=
  mkTxService (postgres.NewTransactionRepository Primary None) true queue redis (30 * Second).

Lemma CreateTransaction_sync_atomic_witness :
  wp (CreateTransaction (ref_service false false) (mkInput 1001 1002 amount_30))
    (fun r w' => exists id now,
      sync_outcome (new_tx (mkInput 1001 1002 amount_30) id now) (pg_committed (w_pg ref_start)) r (pg_committed (w_pg w'))) ref_start.
Proof.
  apply (CreateTransaction_sync_atomic (ref_service false false) (mkInput 1001 1002 amount_30) ref_start).
  - reflexivity.
  - reflexivity.
Defined.

(** C10: a transfer neither creates nor destroys money, whatever the outcome
    of the call: the sum of all balances moves by at most one cent, which is
    rounding, and not at all when the amount is a whole number of cents. *)
Theorem CreateTransaction_sync_conserves {P R A C}
    `{PgDriver P, RedisServer R, AmqpLib A, Clock C, !PgLaws P, JSON TxMessage, JSON Transaction}
    (s : transactionService (World P R A C)) input (w : World P R A C) :
  svc_queue s = false -> svc_db s = true ->
  wp (CreateTransaction s input) (fun _ w' =>
    Z.abs (total_balance (pg_committed (w_pg w')) - total_balance (pg_committed (w_pg w))) <= 1 /\
    (forall q, pg_literal (in_amount input) = Some q -> whole_cents q ->
       total_balance (pg_committed (w_pg w')) = total_balance (pg_committed (w_pg w)))) w.
Proof.
  intros Hq Hd.
  apply (CreateTransaction_sync s input w (fun _ tb' =>
    Z.abs (total_balance tb' - total_balance (pg_committed (w_pg w))) <= 1 /\
    (forall q, pg_literal (in_amount input) = Some q -> whole_cents q ->
       total_balance tb' = total_balance (pg_committed (w_pg w)))) Hq Hd).
  intros id now r tb' Hr.
  assert (tb' = pg_committed (w_pg w) \/ sync_applied (new_tx input id now) (pg_committed (w_pg w)) tb')
    as [->|Happ].
  { destruct r as [tx|e]; [right; apply Hr|]. destruct Hr as [[?|[_ ?]] _]; auto. }
  { split; [rw Z.sub_diag; lia|done]. }
  destruct (sync_applied_accounts _ _ _ Happ) as [Hs Hdst]. destruct Happ as (_ & _ & Hrun).
  exact (transfer_conserves _ _ _ _ _ _ Hrun (sync_rest_untouched _) Hs Hdst).
Qed.

Lemma CreateTransaction_sync_conserves_witness :
  wp (CreateTransaction (ref_service false false) (mkInput 1001 1002 amount_30)) (fun _ w' =>
    Z.abs (total_balance (pg_committed (w_pg w')) - total_balance (pg_committed (w_pg ref_start))) <= 1 /\
    (forall q, pg_literal amount_30 = Some q -> whole_cents q ->
       total_balance (pg_committed (w_pg w')) = total_balance (pg_committed (w_pg ref_start)))) ref_start.
Proof.
  apply (CreateTransaction_sync_conserves (ref_service false false) (mkInput 1001 1002 amount_30) ref_start).
  - reflexivity.
  - reflexivity.
Defined.

(** C11: the check [balance < amount] in [float64] protects the balances held
    in cents: as long as the paying account holds at most 2^43 units, a
    synchronous [CreateTransaction] with a finite positive amount leaves no
    account overdrawn, whatever its outcome. *)
Theorem CreateTransaction_sync_no_overdraft {P R A C}
    `{PgDriver P, RedisServer R, AmqpLib A, Clock C, !PgLaws P, !PgLiteral P, JSON TxMessage, JSON Transaction}
    (s : transactionService (World P R A C)) input (w : World P R A C) :
  svc_queue s = false -> svc_db s = true -> good_amount (in_amount input) ->
  no_overdraft (pg_committed (w_pg w)) ->
  (forall c, balance_of (in_source input) (pg_committed (w_pg w)) = Some c -> c <= safe_cents) ->
  wp (CreateTransaction s input) (fun _ w' => no_overdraft (pg_committed (w_pg w'))) w.
Proof.
  intros Hq Hd Ha Hno Hsafe. apply (CreateTransaction_sync s input w (fun _ tb' => no_overdraft tb') Hq Hd).
  intros id now r tb' Hr.
  assert (tb' = pg_committed (w_pg w) \/ sync_applied (new_tx input id now) (pg_committed (w_pg w)) tb')
    as [->|Happ]; [|done|].
  { destruct r as [tx|e]; [right; apply Hr|]. destruct Hr as [[?|[_ ?]] _]; auto. }
  by eapply sync_applied_no_overdraft.
Qed.

Lemma ref_tables_balances id c : balance_of id ref_tables = Some c -> 0 <= c <= 10000.
Proof.
  unfold balance_of. intros (row & Hrow & ->)%fmap_Some. cbn in Hrow.
  apply lookup_insert_Some in Hrow as [[_ <-]|[_ Hrow]]; [cbn; lia|].
  apply lookup_singleton_Some in Hrow as [_ <-]. cbn; lia.
Qed.

Lemma amount_30_good : good_amount amount_30.
Proof. by vm_compute. Qed.

Lemma CreateTransaction_sync_no_overdraft_witness :
  wp (CreateTransaction (ref_service false false) (mkInput 1001 1002 amount_30))
    (fun _ w' => no_overdraft (pg_committed (w_pg w'))) ref_start.
Proof.
  apply (CreateTransaction_sync_no_overdraft (ref_service false false) (mkInput 1001 1002 amount_30) ref_start).
  - reflexivity.
  - reflexivity.
  - exact amount_30_good.
  - intros id c Hc. apply (ref_tables_balances id c Hc).
  - intros c Hc. pose proof (ref_tables_balances _ c Hc). unfold safe_cents. lia.
Defined.

(** ** What the asynchronous path guarantees *)

Lemma CreateTransaction_async {P R A C}
    `{PgDriver P, RedisServer R, AmqpLib A, Clock C, !AmqpLaws A, JSON TxMessage, JSON Transaction}
    (s : transactionService (World P R A C)) `{!TxRepoLaws (svc_repo s)} input (w : World P R A C) :
  svc_queue s = true ->
  wp (CreateTransaction s input) (fun r w' => exists t now,
    let tx := new_tx input (format_id (next_id t (w_counter w))) now in
    async_outcome tx (repo_status w) (w_amqp w) r (repo_status w') (w_amqp w')) w.
Proof.
  intros Hq. apply CreateTransaction_envelope. intros t now w1 (Hp & Hr & Ha & Hc & Hm & _).
  unfold create_path. rw Hq. wp_apply createAsync_spec. intros r w2 Ho w3 (Hp3 & _ & Ha3 & _ & Hm3 & _).
  exists t, now. rw (repo_status_frame w w1 Hp Hm) Ha in Ho.
  by rw (repo_status_frame w2 w3 Hp3 Hm3) Ha3.
Qed.

(** C21: with a queue, [CreateTransaction] answers with a pending transaction
    only when it is stored as pending and its message, persistent and with the
    same identifier, accounts and amount, was sent once to the "transactions"
    queue.  A failed call leaves the new transaction unstored, pending or
    failed, never completed; whatever fails, nothing is published unless the
    transaction was stored, so the store comes before the message. *)
Theorem CreateTransaction_async_outcome {P R A C}
    `{PgDriver P, RedisServer R, AmqpLib A, Clock C, !AmqpLaws A, JSON TxMessage, JSON Transaction}
    (s : transactionService (World P R A C)) `{!TxRepoLaws (svc_repo s)} input (w : World P R A C) :
  svc_queue s = true ->
  wp (CreateTransaction s input) (fun r w' => exists t now,
    let tx := new_tx input (format_id (next_id t (w_counter w))) now in
    async_outcome tx (repo_status w) (w_amqp w) r (repo_status w') (w_amqp w')) w.
Proof. apply CreateTransaction_async. Qed.

Definition ref_repo_laws q r : TxRepoLaws (svc_repo (ref_service q r)) :=
  postgres_repo_laws (P := RefPg) (R := RefRedis) (A := RefAmqp) (C := Z).

Lemma CreateTransaction_async_outcome_witness :
  wp (CreateTransaction (ref_service true false) (mkInput 1001 1002 amount_30)) (fun r w' => exists t now,
    let tx := new_tx (mkInput 1001 1002 amount_30) (format_id (next_id t (w_counter ref_start))) now in
    async_outcome tx (repo_status (TxRepoLaws := ref_repo_laws true false) ref_start) (w_amqp ref_start) r
      (repo_status (TxRepoLaws := ref_repo_laws true false) w') (w_amqp w')) ref_start.
Proof.
  apply (CreateTransaction_async_outcome (ref_service true false) (TxRepoLaws0 := ref_repo_laws true false)
    (mkInput 1001 1002 amount_30) ref_start).
  reflexivity.
Defined.

(** ** The in-memory path, and identifiers *)

(** Without queue and database, [CreateTransaction] always succeeds: it
    stores the transaction as completed under a fresh identifier and touches
    nothing else, no account in particular. *)
Theorem CreateTransaction_memory {P R A C}
    `{PgDriver P, RedisServer R, AmqpLib A, Clock C, JSON TxMessage, JSON Transaction}
    (s : transactionService (World P R A C)) input (w : World P R A C) :
  svc_queue s = false -> svc_db s = false -> svc_repo s = memory.NewTransactionRepository ->
  wp (CreateTransaction s input) (fun r w' => exists t now,
    let tx := set_status StatusCompleted (new_tx input (format_id (next_id t (w_counter w))) now) in
    r = Ok tx /\ w_mem_tx w' = <[ID tx := tx]> (w_mem_tx w) /\
    w_pg w' = w_pg w /\ w_redis w' = w_redis w /\ w_amqp w' = w_amqp w /\ w_mem_acc w' = w_mem_acc w) w.
Proof.
  intros Hq Hd Hr. apply CreateTransaction_envelope. intros t now w1 (Hp & Hre & Ha & Hc & Hm & Hacc).
  unfold create_path, createMemory. rw Hq Hd Hr. wp_steps. cbn [Save memory.NewTransactionRepository].
  unfold memory.Save. wp_steps. intros w3 (Hp3 & Hre3 & Ha3 & Hc3 & Hm3 & Hacc3). exists t, now. cbn in *.
  rw Hm3 Hm Hp3 Hre3 Ha3 Hacc3. by split_and!.
Qed.

Definition ref_memory_service : transactionService RefWorld :=
  mkTxService memory.NewTransactionRepository false false false (30 * Second).

Lemma CreateTransaction_memory_witness :
  wp (CreateTransaction ref_memory_service (mkInput 1001 1002 amount_30)) (fun r w' => exists t now,
    let tx := set_status StatusCompleted
      (new_tx (mkInput 1001 1002 amount_30) (format_id (next_id t (w_counter ref_start))) now) in
    r = Ok tx /\ w_mem_tx w' = <[ID tx := tx]> (w_mem_tx ref_start) /\
    w_pg w' = w_pg ref_start /\ w_redis w' = w_redis ref_start /\ w_amqp w' = w_amqp ref_start /\
    w_mem_acc w' = w_mem_acc ref_start) ref_start.
Proof.
  apply (CreateTransaction_memory ref_memory_service (mkInput 1001 1002 amount_30) ref_start);
    reflexivity.
Defined.

(** The sequential [nextTransactionID] that the service calls is the
    concurrent one run without interruption: on any configuration of
    goroutines with the same counter, its result and its effect on the
    counter are those of three steps of the goroutine that calls it. *)
Theorem nextTransactionID_refines {P R A C} `{Clock C} (w : World P R A C) (c : config) t :
  txCounter c = w_counter w -> goroutines c !! t = Some AtLoop ->
  wp nextTransactionID (fun id w' => exists c',
    nsteps (step (fun _ => True)) 3 c c' /\ goroutines c' !! t = Some AtLoop /\
    txCounter c' = w_counter w' /\ issued c' = issued c ++ [w_counter w'] /\
    id = format_id (w_counter w') /\ same_stores w w') w.
Proof.
  intros Hc Ht. apply nextTransactionID_once, wp_of. intros now cl _.
  exists (mkConfig (next_id now (w_counter w))
    (<[t := AtLoop]> (<[t := AtCAS now (txCounter c)]> (<[t := AtLoad now]> (goroutines c))))
    (issued c ++ [next_id now (w_counter w)])).
  split_and!; try done; [|by cbn; rw lookup_insert_eq].
  eapply nsteps_l; [by apply (step_now _ c t now)|].
  eapply nsteps_l; [eapply (step_load _ _ t now); cbn; apply lookup_insert_eq|].
  eapply nsteps_l; [|apply nsteps_O]. rw -Hc. cbn [txCounter goroutines issued].
  exact (step_cas_ok (fun _ => True) (mkConfig (txCounter c)
    (<[t := AtCAS now (txCounter c)]> (<[t := AtLoad now]> (goroutines c))) (issued c)) t now (txCounter c)
    (lookup_insert_eq _ _ _) eq_refl).
Qed.

Lemma nextTransactionID_refines_witness :
  wp nextTransactionID (fun id w' => exists c',
    nsteps (step (fun _ => True)) 3 (initial {[0%nat; 1%nat]}) c' /\ goroutines c' !! 0%nat = Some AtLoop /\
    txCounter c' = w_counter w' /\ issued c' = issued (initial {[0%nat; 1%nat]}) ++ [w_counter w'] /\
    id = format_id (w_counter w') /\ same_stores ref_start w') ref_start.
Proof. apply (nextTransactionID_refines ref_start (initial {[0%nat; 1%nat]}) 0%nat); reflexivity. Defined.
