(* ===== verification/AccountService.v ===== *)
(** * The account service

    internal/service/account.go: [GetBalance], cache-aside over an account
    repository; and the contract an account repository keeps with it. *)

From S2P Require Import Prelude GoNum Float64 Domain Sql Postgres Redis Queue World Reference.
From S2P Require Import Session Repository TransactionService.

(** [type accountService struct]: the repository, whether the redis pointer
    is non-nil, and the TTL. *)
Record accountService (W : Type) : Type := mkAccService {
  acc_repo : AccountRepository W;
  acc_redis : bool;
  acc_balanceTTL : Z;
}.
Arguments mkAccService {W}.
Arguments acc_repo {W}.
Arguments acc_redis {W}.
Arguments acc_balanceTTL {W}.

Section service.
Context {P R A C : Type} `{RedisServer R, JSON Account}.
#[local] Abbreviation World := (World P R A C).
Context (s : accountService World).
Local Open Scope go_scope.

(** The lookup in the cache at the head of [GetBalance]. *)
Definition cached_account (id : Z) : M World (option Account) :=
  cached <- on_redis (rd_get (balance_key id)) ;;
  match cached with
  | Err _ => mret None
  | Ok data => mret (match json_Unmarshal data with Ok acc => Some acc | Err _ => None end)
  end.

(** [GetBalance] after the cache lookup found nothing. *)
Definition load_balance (id : Z) : M World (result Account) :=
  r <- GetAccountByID (acc_repo s) id ;;
  match r with
  | Err e =>
      logger_Set "account_error" (LErr e) ;;;
      mret (Err e)
  | Ok acc =>
      (if acc_redis s then
         match json_Marshal acc with
         | Ok data => on_redis (rd_set (balance_key id) data (acc_balanceTTL s)) ;;; mret tt
         | Err _ => mret tt
         end
       else mret tt) ;;;
      logger_Set "account_balance" (LFloat (Balance acc)) ;;;
      mret (Ok acc)
  end.

Definition GetBalance (id : Z) : M World (result Account) :=
  logger_Set "account_id" (LInt id) ;;;
  if acc_redis s then
    hit <- cached_account id ;;
    match hit with
    | Some acc =>
        logger_Set "cache_hit" (LBool true) ;;;
        logger_Set "account_balance" (LFloat (Balance acc)) ;;;
        CacheHits_Inc "balance" ;;;
        mret (Ok acc)
    | None =>
        CacheMisses_Inc "balance" ;;;
        logger_Set "cache_hit" (LBool false) ;;;
        load_balance id
    end
  else load_balance id.
End service.

(** ** The contract of an account repository

    [acc_view] is the account each identifier reads as; a successful lookup
    returns it and leaves everything else alone. *)
Section contract.
Context {P R A C : Type}.
#[local] Abbreviation World := (World P R A C).

Class AccRepoLaws (repo : AccountRepository World) : Type := {
  acc_view : World -> Z -> option Account;
  acc_view_frame w w' : w_pg w' = w_pg w -> w_mem_acc w' = w_mem_acc w -> acc_view w' = acc_view w;
  GetAccountByID_law id w :
    wp (GetAccountByID repo id) (fun r w' => outside_repo w w' /\
      match r with Ok acc => acc_view w id = Some acc | Err _ => True end) w;
}.

(** What is read for an identifier is the account with that identifier. *)
Definition accounts_keyed (view : Z -> option Account) : Prop :=
  forall id acc, view id = Some acc -> AccountID acc = id.
End contract.

Section implementations.
Context {P R A C : Type} `{PgDriver P} `{!PgLaws P}.
#[local] Abbreviation World := (World P R A C).

#[export] Program Instance memory_account_laws :
  AccRepoLaws (P := P) (R := R) (A := A) (C := C) memory.NewAccountRepository :=
  { acc_view w id := w_mem_acc w !! id }.
Next Obligation. intros w w' _ Hm. cbn. by rw Hm. Qed.
Next Obligation.
  intros id w. cbn. unfold memory.GetAccountByID. wp_steps. split; [done|].
  by destruct (w_mem_acc w !! id).
Qed.

Definition pg_account_view (h : DB) (w : World) (id : Z) : option Account :=
  scan_account id <$> accounts (pg_view h (w_pg w)) !! id.

#[export] Program Instance postgres_account_laws (h : option DB) :
  AccRepoLaws (P := P) (R := R) (A := A) (C := C) (postgres.NewAccountRepository Primary h) :=
  { acc_view := pg_account_view (default Primary h) }.
Next Obligation. intros h w w' Hp _. unfold pg_account_view. by rw Hp. Qed.
Next Obligation.
  intros h id w. cbn. unfold postgres.GetAccountByID, on_pg. wp_steps. wp_apply pg_get_account_law.
  assert (postgres.replica (postgres.new_pools Primary h) = default Primary h) as -> by (by destruct h).
  unfold pg_account_view. intros [row|e] p [_ Hr]; wp_steps; (split; [done|]); [|done].
  subst row. by destruct (accounts _ !! id).
Qed.

Lemma pg_account_keyed h w : accounts_keyed (pg_account_view h w).
Proof. intros id acc. unfold pg_account_view. by intros (row & _ & ->)%fmap_Some. Qed.
End implementations.

(** The accounts of a new memory repository are keyed by their identifier. *)
Lemma memory_accounts_keyed now : accounts_keyed (fun id => memory.memory_accounts now !! id).
Proof.
  intros id acc. unfold memory.memory_accounts. rw !lookup_insert_Some lookup_empty.
  naive_solver.
Qed.
