(* ===== verification/Cache.v ===== *)
(** * What the caches guarantee

    [GetBalance] and [GetTransactionStatus] answer from the cache or from
    the repository; what a request leaves in the cache; and the invariants of
    the cache contents: whose balance an entry holds, and how long a pending
    status is kept. *)

From S2P Require Import Prelude GoNum TxId Float64 Domain Sql Postgres Redis Queue World Reference.
From S2P Require Import Session Repository TransactionService AccountService.

(** ** One request on the cache *)
Section cache.
Context {P R A C : Type} `{RedisServer R} `{!RedisLaws R}.
#[local] Abbreviation World := (World P R A C).
Local Open Scope go_scope.

(** Entries may be dropped, and time passes. *)
Definition cache_shrinks (r r' : R) : Prop := rd_entries r' ⊆ rd_entries r /\ rd_time r <= rd_time r'.

(** The cache has a live entry that reads as [t]. *)
Definition served_from_cache {T} `{JSON T} (key : string) (t : T) (r : R) : Prop :=
  exists e, rd_entries r !! key = Some e /\ live (rd_time r) e /\ json_Unmarshal (e_value e) = Ok t.

(** The cache after [t] was put under [key]: at most that entry is new, and
    it expires [ttl] after a time within the call. *)
Definition cache_after {T} `{JSON T} (key : string) (t : T) (ttl : Z) (r r' : R) : Prop :=
  rd_time r <= rd_time r' /\
  (rd_entries r' ⊆ rd_entries r \/
   exists data t0, json_Marshal t = Ok data /\ rd_time r <= t0 <= rd_time r' /\
     rd_entries r' ⊆ <[key := mkEntry data (deadline t0 ttl)]> (rd_entries r)).

Lemma cache_shrinks_trans r1 r2 r3 : cache_shrinks r1 r2 -> cache_shrinks r2 r3 -> cache_shrinks r1 r3.
Proof. intros [H1 T1] [H2 T2]. split; [by etrans|lia]. Qed.

Lemma cache_after_shrinks {T} `{JSON T} key (t : T) ttl r1 r2 r3 :
  cache_shrinks r1 r2 -> cache_after key t ttl r2 r3 -> cache_after key t ttl r1 r3.
Proof.
  intros [H1 T1] [T2 [H2|(data & t0 & Hd & Ht & H2)]]; (split; [lia|]); [left; by etrans|].
  right. exists data, t0. split_and!; [done|lia|lia|]. etrans; [exact H2|]. by apply insert_mono.
Qed.

Lemma wp_cache_get {T} `{JSON T} key Q (w : World) :
  (forall hit r', cache_shrinks (w_redis w) r' ->
     match hit with Some t => served_from_cache (T := T) key t (w_redis w) | None => True end ->
     Q hit (set_redis r' w)) ->
  wp (cached <- on_redis (rd_get key) ;;
      match cached with
      | Err _ => mret None
      | Ok data => mret (match json_Unmarshal data with Ok t => Some t | Err _ => None end)
      end) Q w.
Proof.
  intros HQ. unfold on_redis. wp_steps. wp_apply rd_get_law.
  intros [data|e] r' (Hs & Ht & Hd); wp_steps; [|by apply HQ].
  destruct Hd as (en & He & <- & Hl). destruct (json_Unmarshal (e_value en)) eqn:Hj; apply HQ; try done.
  by exists en.
Qed.

Lemma wp_cache_put {T} `{JSON T} key (t : T) ttl (on : bool) Q (w : World) :
  0 <= ttl ->
  (forall r', cache_after key t ttl (w_redis w) r' -> (on = false -> r' = w_redis w) ->
     Q tt (set_redis r' w)) ->
  wp (if on then
        match json_Marshal t with
        | Ok data => on_redis (rd_set key data ttl) ;;; mret tt
        | Err _ => mret tt
        end
      else mret tt) Q w.
Proof.
  intros Httl HQ.
  assert (w = set_redis (w_redis w) w) as Hid by (by destruct w).
  assert (cache_after key t ttl (w_redis w) (w_redis w)) as Hrefl by (split; [lia|by left]).
  destruct on; [|wp_steps; rw Hid; by apply HQ].
  destruct (json_Marshal t) as [data|e] eqn:Hj; [|wp_steps; rw Hid; by apply HQ].
  unfold on_redis. wp_steps. wp_apply rd_set_law; [done|]. intros res r' [Ht Hr]. wp_steps.
  apply HQ; [|done]. split; [done|]. destruct Hr as [(t0 & Ht0 & Hs)|[_ Hs]]; [right|by left].
  by exists data, t0.
Qed.
End cache.

(** ** [GetBalance] and [GetTransactionStatus], every case *)
Section outcome.
Context {P R A C : Type} `{RedisServer R} `{!RedisLaws R}.
#[local] Abbreviation World := (World P R A C).

(** The lookup counted as one hit, or as one miss, of [label]. *)
Definition counted_hit (label : string) (m m' : Metrics) : Prop :=
  CacheHits m' = inc label (CacheHits m) /\ CacheMisses m' = CacheMisses m.
Definition counted_miss (label : string) (m m' : Metrics) : Prop :=
  CacheMisses m' = inc label (CacheMisses m) /\ CacheHits m' = CacheHits m.
Definition counted_nothing (m m' : Metrics) : Prop :=
  CacheMisses m' = CacheMisses m /\ CacheHits m' = CacheHits m.

(** A request for [key]: [loaded t] says that the repository reads [t], and
    [ttl t] is the expiration given to its entry. *)
Definition cache_aside {T} `{JSON T} (redis : bool) (label key : string) (ttl : T -> Z)
    (loaded : T -> Prop) (w : World) (r : result T) (w' : World) : Prop :=
  (exists t, redis = true /\ r = Ok t /\ served_from_cache key t (w_redis w) /\
     cache_shrinks (w_redis w) (w_redis w') /\ counted_hit label (w_metrics w) (w_metrics w') /\
     w_pg w' = w_pg w) \/
  ((if redis then counted_miss label else counted_nothing) (w_metrics w) (w_metrics w') /\
   match r with
   | Ok t => loaded t /\ cache_after key t (ttl t) (w_redis w) (w_redis w')
   | Err _ => cache_shrinks (w_redis w) (w_redis w')
   end /\
   (redis = false -> w_redis w' = w_redis w)).

Lemma GetBalance_spec `{JSON Account} (s : accountService World) `{!AccRepoLaws (acc_repo s)} id w :
  0 <= acc_balanceTTL s ->
  wp (GetBalance s id) (fun r w' =>
    cache_aside (acc_redis s) "balance" (balance_key id) (fun _ => acc_balanceTTL s)
      (fun acc => acc_view w id = Some acc) w r w') w.
Proof.
  intros Httl. unfold GetBalance. wp_steps. apply wp_logger_Set. intros e1.
  assert (forall (w1 : World), w_pg w1 = w_pg w -> w_mem_acc w1 = w_mem_acc w ->
    cache_shrinks (w_redis w) (w_redis w1) -> (acc_redis s = false -> w_redis w1 = w_redis w) ->
    (if acc_redis s then counted_miss "balance" else counted_nothing) (w_metrics w) (w_metrics w1) ->
    wp (load_balance s id) (fun r w' =>
      cache_aside (acc_redis s) "balance" (balance_key id) (fun _ => acc_balanceTTL s)
        (fun acc => acc_view w id = Some acc) w r w') w1) as Hload.
  { intros w1 Hp Hm Hsh Hno Hcnt. unfold load_balance. wp_steps. wp_apply GetAccountByID_law.
    intros [acc|e] w2 ((Hr & _ & _ & _ & _ & Hmet) & Hview).
    - wp_steps. apply wp_cache_put; [done|]. intros r' Hc Hoff. wp_steps. apply wp_logger_Set. intros e2.
      wp_steps. right. cbn. rw Hr in Hc Hoff. rw Hmet. split; [done|]. split.
      + split; [by rw -(acc_view_frame w w1)|]. by eapply cache_after_shrinks.
      + intros Hf. by rw Hoff // Hno.
    - wp_steps. apply wp_logger_Set. intros e2. wp_steps. right. cbn. rw Hmet Hr. by split_and!. }
  destruct (acc_redis s) eqn:Hon.
  - unfold cached_account. apply wp_bind, (wp_cache_get (T := Account)).
    intros [acc|] r' Hsh Hit; cbn in Hit.
    + wp_steps. apply wp_logger_Set. intros e2. wp_steps. apply wp_logger_Set. intros e3. wp_steps.
      unfold CacheHits_Inc, on_metrics. wp_steps. left. by exists acc.
    + unfold CacheMisses_Inc, on_metrics. wp_steps. apply wp_logger_Set. intros e2. wp_steps.
      by apply Hload.
  - by apply Hload.
Qed.

Lemma GetTransactionStatus_spec `{PgDriver P, AmqpLib A, JSON Transaction}
    (s : transactionService World) `{!TxRepoLaws (svc_repo s)} id w :
  0 <= svc_txStatusTTL s ->
  wp (GetTransactionStatus s id) (fun r w' =>
    cache_aside (svc_redis s) "tx_status" (tx_status_key id) (status_ttl s)
      (fun tx => repo_status w !! id = Some (TxStatus tx)) w r w') w.
Proof.
  intros Httl. unfold GetTransactionStatus. wp_steps. apply wp_logger_Set. intros e1.
  assert (forall (w1 : World), w_pg w1 = w_pg w -> w_mem_tx w1 = w_mem_tx w ->
    cache_shrinks (w_redis w) (w_redis w1) -> (svc_redis s = false -> w_redis w1 = w_redis w) ->
    (if svc_redis s then counted_miss "tx_status" else counted_nothing) (w_metrics w) (w_metrics w1) ->
    wp (load_tx_status s id) (fun r w' =>
      cache_aside (svc_redis s) "tx_status" (tx_status_key id) (status_ttl s)
        (fun tx => repo_status w !! id = Some (TxStatus tx)) w r w') w1) as Hload.
  { intros w1 Hp Hm Hsh Hno Hcnt. unfold load_tx_status. wp_steps. wp_apply GetByID_law.
    intros [tx|e] w2 ((Hr & _ & _ & _ & _ & Hmet) & _ & Hview).
    - wp_steps. apply wp_cache_put; [unfold status_ttl; destruct (String.eqb _ _); [done|exact Httl]|].
      intros r' Hc Hoff. wp_steps. apply wp_logger_Set. intros e2.
      wp_steps. right. cbn. rw Hr in Hc Hoff. rw Hmet. split; [done|]. split.
      + split; [by rw -(repo_status_frame w w1)|]. by eapply cache_after_shrinks.
      + intros Hf. by rw Hoff // Hno.
    - wp_steps. apply wp_logger_Set. intros e2. wp_steps. right. cbn. rw Hmet Hr. by split_and!. }
  destruct (svc_redis s) eqn:Hon.
  - unfold cached_tx. apply wp_bind, (wp_cache_get (T := Transaction)).
    intros [tx|] r' Hsh Hit; cbn in Hit.
    + wp_steps. apply wp_logger_Set. intros e2. wp_steps. apply wp_logger_Set. intros e3. wp_steps.
      unfold CacheHits_Inc, on_metrics. wp_steps. left. by exists tx.
    + unfold CacheMisses_Inc, on_metrics. wp_steps. apply wp_logger_Set. intros e2. wp_steps.
      by apply Hload.
  - by apply Hload.
Qed.
End outcome.

(** ** Invariants of the cache contents *)

(** What the program relies on of [encoding/json]: an account keeps its
    identifier, and a transaction read back as pending was pending. *)
Class JSONAccountID `{JSON Account} : Prop := {
  json_keeps_id acc acc' data :
    json_Marshal acc = Ok data -> json_Unmarshal data = Ok acc' -> AccountID acc' = AccountID acc;
}.
Class JSONPending `{JSON Transaction} : Prop := {
  json_keeps_pending tx tx' data :
    json_Marshal tx = Ok data -> json_Unmarshal data = Ok tx' ->
    TxStatus tx' = StatusPending -> TxStatus tx = StatusPending;
}.

#[export] Instance ref_json_account_id : JSONAccountID (H := Account_json).
Proof. split. intros acc acc' data Hm Hu. pose proof (ref_roundtrip _ _ _ Hm) as Hr. cbn in Hu. congruence. Qed.
#[export] Instance ref_json_pending : JSONPending (H := Transaction_json).
Proof. split. intros tx tx' data Hm Hu. pose proof (ref_roundtrip _ _ _ Hm) as Hr. cbn in Hu. congruence. Qed.

Section invariants.
Context {R : Type} `{RedisServer R}.

(** An entry under the key of an account holds that account. *)
Definition balance_keyed `{JSON Account} (r : R) : Prop :=
  forall id e acc, rd_entries r !! balance_key id = Some e ->
    json_Unmarshal (e_value e) = Ok acc -> AccountID acc = id.

(** An entry that holds a pending transaction expires within two seconds. *)
Definition pending_bounded `{JSON Transaction} (r : R) : Prop :=
  forall id e tx, rd_entries r !! tx_status_key id = Some e ->
    json_Unmarshal (e_value e) = Ok tx -> TxStatus tx = StatusPending ->
    exists d, e_deadline e = Some d /\ d <= rd_time r + 2 * Second.

Lemma balance_keyed_shrinks `{JSON Account} r r' :
  cache_shrinks r r' -> balance_keyed r -> balance_keyed r'.
Proof. intros [Hs _] Hk id e acc He. apply (Hk id). by eapply lookup_weaken. Qed.

Lemma pending_bounded_shrinks `{JSON Transaction} r r' :
  cache_shrinks r r' -> pending_bounded r -> pending_bounded r'.
Proof.
  intros [Hs Ht] Hb id e tx He Hu Hp.
  destruct (Hb id e tx (lookup_weaken _ _ _ _ He Hs) Hu Hp) as (d & Hd & ?). exists d. split; [done|lia].
Qed.

(** Storing under a key of the other kind counts as nothing. *)
Lemma cache_after_other {T} `{JSON T} key (t : T) ttl r r' k e :
  cache_after key t ttl r r' -> k <> key -> rd_entries r' !! k = Some e -> rd_entries r !! k = Some e.
Proof.
  intros [_ [Hs|(data & t0 & _ & _ & Hs)]] Hk He; [by eapply lookup_weaken|].
  pose proof (lookup_weaken _ _ _ _ He Hs) as Hi. by rw lookup_insert_ne in Hi.
Qed.

(** The entry under the key itself: an old one, or the one just stored. *)
Lemma cache_after_key {T} `{JSON T} key (t : T) ttl r r' e :
  cache_after key t ttl r r' -> rd_entries r' !! key = Some e ->
  rd_entries r !! key = Some e \/
  (json_Marshal t = Ok (e_value e) /\ exists t0, t0 <= rd_time r' /\ e_deadline e = deadline t0 ttl).
Proof.
  intros [_ [Hs|(data & t0 & Hm & Ht & Hs)]] He; [left; by eapply lookup_weaken|].
  pose proof (lookup_weaken _ _ _ _ He Hs) as Hi. rw lookup_insert_eq in Hi. injection Hi as <-.
  right. split; [done|]. exists t0. split; [lia|done].
Qed.

Lemma balance_keyed_after `{JSON Account, !JSONAccountID} acc ttl r r' :
  cache_after (balance_key (AccountID acc)) acc ttl r r' -> balance_keyed r -> balance_keyed r'.
Proof.
  intros Hc Hk id e acc' He Hu. destruct (decide (id = AccountID acc)) as [->|Hne].
  - destruct (cache_after_key _ _ _ _ _ _ Hc He) as [Ho|[Hm _]]; [by eapply Hk|].
    by eapply json_keeps_id.
  - eapply Hk; [|exact Hu]. eapply cache_after_other; [exact Hc| |exact He].
    intros Heq. by apply balance_key_inj in Heq.
Qed.

Lemma pending_bounded_after `{JSON Transaction, !JSONPending} key tx ttl r r' :
  cache_after key tx ttl r r' -> (TxStatus tx = StatusPending -> ttl = 2 * Second) ->
  pending_bounded r -> pending_bounded r'.
Proof.
  intros Hc Httl Hb id e tx' He Hu Hp. pose proof (proj1 Hc) as Ht.
  assert (rd_entries r !! tx_status_key id = Some e ->
    exists d, e_deadline e = Some d /\ d <= rd_time r' + 2 * Second) as Hold.
  { intros Ho. destruct (Hb id e tx' Ho Hu Hp) as (d & Hd & ?). exists d. split; [done|lia]. }
  destruct (decide (tx_status_key id = key)) as [<-|Hne].
  - destruct (cache_after_key _ _ _ _ _ _ Hc He) as [Ho|(Hm & t0 & Ht0 & Hd)]; [by apply Hold|].
    rw (Httl (json_keeps_pending _ _ _ Hm Hu Hp)) in Hd. exists (t0 + 2 * Second). by split; [|lia].
  - apply Hold. by eapply cache_after_other.
Qed.
End invariants.

(** ** Properties *)


(** An account service on the reference servers. *)
Definition ref_accounts : accountService RefWorld :=
  mkAccService (postgres.NewAccountRepository Primary None) true (10 * Second).
Definition ref_account_laws : AccRepoLaws (acc_repo ref_accounts) :=
  postgres_account_laws (P := RefPg) (R := RefRedis) (A := RefAmqp) (C := Z) None.


(** [GetTransactionStatus] is cache-aside as well: hits, misses and
    errors as for balances; a new entry expires after two seconds when the
    transaction is pending and after the configured TTL otherwise. *)
Theorem GetTransactionStatus_cache_aside {P R A C}
    `{PgDriver P, RedisServer R, AmqpLib A, !RedisLaws R, JSON Transaction}
    (s : transactionService (World P R A C)) `{!TxRepoLaws (svc_repo s)} id (w : World P R A C) :
  0 <= svc_txStatusTTL s ->
  wp (GetTransactionStatus s id) (fun r w' =>
    cache_aside (svc_redis s) "tx_status" (tx_status_key id) (status_ttl s)
      (fun tx => repo_status w !! id = Some (TxStatus tx)) w r w') w.
Proof. apply GetTransactionStatus_spec. Qed.

Lemma GetTransactionStatus_cache_aside_witness :
  wp (GetTransactionStatus (ref_service true true) "T1") (fun r w' =>
    cache_aside true "tx_status" (tx_status_key "T1") (status_ttl (ref_service true true))
      (fun tx => repo_status (TxRepoLaws := ref_repo_laws true true) ref_queued !! "T1" = Some (TxStatus tx))
      ref_queued r w') ref_queued.
Proof.
  apply (GetTransactionStatus_cache_aside (ref_service true true)
    (TxRepoLaws0 := ref_repo_laws true true) "T1" ref_queued).
  vm_compute. discriminate.
Defined.

Lemma GetBalance_keyed {P R A C} `{RedisServer R, !RedisLaws R, JSON Account, !JSONAccountID}
    (s : accountService (World P R A C)) `{!AccRepoLaws (acc_repo s)} id (w : World P R A C) :
  0 <= acc_balanceTTL s -> accounts_keyed (acc_view w) -> balance_keyed (w_redis w) ->
  wp (GetBalance s id) (fun r w' =>
    balance_keyed (w_redis w') /\ (forall acc, r = Ok acc -> AccountID acc = id)) w.
Proof.
  intros Httl Hacc Hk. wp_apply GetBalance_spec; [exact Httl|].
  intros r w' [(acc & _ & -> & (e & He & _ & Hu) & Hs & _)|(_ & Hr & _)].
  - split; [by eapply balance_keyed_shrinks|]. intros ? [= <-]. by eapply Hk.
  - destruct r as [acc|e]; [|split; [by eapply balance_keyed_shrinks|done]].
    destruct Hr as [Hv Hc]. pose proof (Hacc _ _ Hv) as Hid. rw -Hid in Hc.
    split; [by eapply balance_keyed_after|]. by intros ? [= <-].
Qed.

(** A client is never shown another account's balance: if every balance
    entry holds the account of its key, then [GetBalance id] answers with
    account [id], from the cache or not, and keeps the entries so. *)
Theorem GetBalance_own_account {P R A C} `{RedisServer R, !RedisLaws R, JSON Account, !JSONAccountID}
    (s : accountService (World P R A C)) `{!AccRepoLaws (acc_repo s)} id (w : World P R A C) :
  0 <= acc_balanceTTL s -> accounts_keyed (acc_view w) -> balance_keyed (w_redis w) ->
  wp (GetBalance s id) (fun r w' =>
    balance_keyed (w_redis w') /\ (forall acc, r = Ok acc -> AccountID acc = id)) w.
Proof. apply GetBalance_keyed. Qed.

Lemma GetBalance_own_account_witness :
  wp (GetBalance ref_accounts 1001) (fun r w' =>
    balance_keyed (w_redis w') /\ (forall acc, r = Ok acc -> AccountID acc = 1001)) ref_start.
Proof.
  apply (GetBalance_own_account ref_accounts (AccRepoLaws0 := ref_account_laws) 1001 ref_start).
  - vm_compute. discriminate.
  - intros id acc Hv. by apply (pg_account_keyed Primary ref_start).
  - intros id e acc He. cbn in He. by rw lookup_empty in He.
Defined.

(** C26: a pending status is cached for two seconds at most, so that a client
    that polls sees the settlement: [GetTransactionStatus] keeps the
    invariant that every entry that reads as pending expires within two
    seconds of the server's clock. *)
Theorem GetTransactionStatus_pending_bounded {P R A C}
    `{PgDriver P, RedisServer R, AmqpLib A, !RedisLaws R, JSON Transaction, !JSONPending}
    (s : transactionService (World P R A C)) `{!TxRepoLaws (svc_repo s)} id (w : World P R A C) :
  0 <= svc_txStatusTTL s -> pending_bounded (w_redis w) ->
  wp (GetTransactionStatus s id) (fun _ w' => pending_bounded (w_redis w')) w.
Proof.
  intros Httl Hb. wp_apply GetTransactionStatus_spec; [exact Httl|].
  intros r w' [(tx & _ & _ & _ & Hs & _)|(_ & Hr & _)]; [by eapply pending_bounded_shrinks|].
  destruct r as [tx|e]; [|by eapply pending_bounded_shrinks]. destruct Hr as [_ Hc].
  eapply pending_bounded_after; [exact Hc| |exact Hb]. intros Hst. unfold status_ttl. by rw Hst.
Qed.

Lemma GetTransactionStatus_pending_bounded_witness :
  wp (GetTransactionStatus (ref_service true true) "T1") (fun _ w' => pending_bounded (w_redis w')) ref_queued.
Proof.
  apply (GetTransactionStatus_pending_bounded (ref_service true true)
    (TxRepoLaws0 := ref_repo_laws true true) "T1" ref_queued).
  - vm_compute. discriminate.
  - intros id e tx He. cbn in He. by rw lookup_empty in He.
Defined.
