(* ===== verification/Staleness.v ===== *)
(** * How stale a cached answer can be

    [GetBalance] and [GetTransactionStatus] in the steps that other requests
    and settlements can come between: the lookup in the cache, the SELECT, the
    [Set] of the cache, with the commits and the [Del]s of writers in any
    order around them.  One key is followed: what is stored under it, a value
    of type [V], and its cache entry.  Redis operations may fail and entries
    may vanish at any time; the SELECT may read a replica that lags.

    A writer commits and then deletes the entry; a reader that loaded before
    the commit may still store what it loaded after the [Del].  The deletion
    therefore does not bound the staleness; the TTL and the deadline of the
    request do, unless the TTL is 0: such an entry never expires.

    The second half runs [GetBalance] itself in these steps. *)

From S2P Require Import Prelude GoNum Float64 Domain Sql Postgres Redis Queue World Reference.
From S2P Require Import Session Repository TransactionService AccountService Cache.

(** [middleware.ContextTimeout(60 * time.Second)] of cmd/server/main.go: a
    request starts no command on Redis after it. *)
Definition request_timeout : Z := 60 * Second.

(** Where a request stands: before the lookup in the cache; before the
    SELECT; with what the SELECT returned and when, before the [Set]; with
    its answer and the time it was read (from the cache, or by the SELECT);
    or ended by an error of the SELECT. *)
Inductive reader (V : Type) : Type :=
| Looking
| Loading
| Storing (v : V) (loaded : Z)
| Answering (v : V) (read : Z)
| Refused.
Arguments Looking {V}.
Arguments Loading {V}.
Arguments Storing {V}.
Arguments Answering {V}.
Arguments Refused {V}.

Record skey (V : Type) : Type := mkSkey {
  s_now : Z;
  s_value : V;                       (* committed *)
  s_since : Z;                       (* since when *)
  s_past : list (Z * Z * V);         (* earlier values, from and until when *)
  s_entry : option (V * option Z);   (* the cache entry, with its deadline if it has one *)
  s_readers : gmap nat (reader V);
}.
Arguments mkSkey {V}.
Arguments s_now {V}.
Arguments s_value {V}.
Arguments s_since {V}.
Arguments s_past {V}.
Arguments s_entry {V}.
Arguments s_readers {V}.

(** [v] was committed at time [t]. *)
Definition was {V} (c : skey V) (v : V) (t : Z) : Prop :=
  (v = s_value c /\ s_since c <= t <= s_now c) \/ exists a b, (a, b, v) ∈ s_past c /\ a <= t <= b.

(** A value is at most [age] old at time [t]. *)
Definition recent {V} (c : skey V) (v : V) (t age : Z) : Prop := exists t0, was c v t0 /\ t0 <= t <= t0 + age.

Definition set_reader {V} (t : nat) (r : reader V) (c : skey V) : skey V :=
  mkSkey (s_now c) (s_value c) (s_since c) (s_past c) (s_entry c) (<[t := r]> (s_readers c)).
Definition set_entry {V} (e : option (V * option Z)) (c : skey V) : skey V :=
  mkSkey (s_now c) (s_value c) (s_since c) (s_past c) e (s_readers c).
Definition set_now {V} (now : Z) (c : skey V) : skey V :=
  mkSkey now (s_value c) (s_since c) (s_past c) (s_entry c) (s_readers c).
Definition set_value {V} (v : V) (c : skey V) : skey V :=
  mkSkey (s_now c) v (s_now c) ((s_since c, s_now c, s_value c) :: s_past c) (s_entry c) (s_readers c).

(** The deadline is not over. *)
Definition unexpired (now : Z) (d : option Z) : Prop := match d with Some d => now < d | None => True end.

Section steps.
(** [grace]: for how long a command of go-redis that was started before the
    deadline of its request can still take effect after it.  [lag]: how far
    behind the primary the database that is read can be, 0 for the primary. *)
Context {V : Type} (ttl : V -> Z) (grace lag : Z).

Inductive rstep : skey V -> skey V -> Prop :=
| r_request c t : s_readers c !! t = None -> rstep c (set_reader t Looking c)
| r_hit c t v d :
    s_readers c !! t = Some Looking -> s_entry c = Some (v, d) -> unexpired (s_now c) d ->
    rstep c (set_reader t (Answering v (s_now c)) c)
(** no entry, or [Get] failed *)
| r_miss c t : s_readers c !! t = Some Looking -> rstep c (set_reader t Loading c)
| r_load c t v :
    s_readers c !! t = Some Loading -> recent c v (s_now c) lag ->
    rstep c (set_reader t (Storing v (s_now c)) c)
| r_fail c t : s_readers c !! t = Some Loading -> rstep c (set_reader t Refused c)
| r_store c t v t0 :
    s_readers c !! t = Some (Storing v t0) -> s_now c <= t0 + request_timeout + grace ->
    rstep c (set_entry (Some (v, deadline (s_now c) (ttl v))) (set_reader t (Answering v t0) c))
(** [Set] failed *)
| r_store_lost c t v t0 :
    s_readers c !! t = Some (Storing v t0) -> rstep c (set_reader t (Answering v t0) c)
(** a writer commits *)
| r_commit c v : rstep c (set_value v c)
(** [Del], or the entry expires or is evicted *)
| r_del c : rstep c (set_entry None c)
| r_tick c now : s_now c < now -> rstep c (set_now now c).

(** Nothing was asked yet. *)
Definition fresh_key (now : Z) (v : V) : skey V := mkSkey now v now [] None ∅.

(** ** The invariant *)

(** The most that an answer can be behind. *)
Definition stale_bound (v : V) : Z := ttl v + request_timeout + grace + lag.

Definition reader_ok (c : skey V) (r : reader V) : Prop :=
  match r with
  | Looking | Loading | Refused => True
  | Storing v t1 => recent c v t1 lag
  | Answering v t => 0 < ttl v -> recent c v t (stale_bound v)
  end.

Definition entry_ok (c : skey V) (e : option (V * option Z)) : Prop :=
  forall v d, e = Some (v, d) -> 0 < ttl v -> exists t0 d', was c v t0 /\ d = Some d' /\ d' <= t0 + stale_bound v.

Record stale_inv (c : skey V) : Prop := {
  si_since : s_since c <= s_now c;
  si_past : Forall (fun x => snd (fst x) <= s_now c) (s_past c);
  si_entry : entry_ok c (s_entry c);
  si_readers : map_Forall (fun _ => reader_ok c) (s_readers c);
}.

Lemma was_before c v t : stale_inv c -> was c v t -> t <= s_now c.
Proof.
  intros Hi [[_ Ht]|(a & b & Hin & Ht)]; [lia|]. pose proof (si_past c Hi) as Hall.
  rw list.Forall_forall in Hall. specialize (Hall _ Hin). cbn in Hall. lia.
Qed.

(** What was committed stays so, whatever happens next. *)
Lemma was_step c c' v t : rstep c c' -> s_since c <= s_now c -> was c v t -> was c' v t.
Proof.
  intros Hstep Hs [[-> Ht]|(a & b & Hin & Ht)].
  - destruct Hstep; try (by left); [right|left; cbn; split; [done|lia]]. do 2 eexists. split; [by left|]. lia.
  - destruct Hstep; try (by right; exists a, b). right. exists a, b. split; [by right|done].
Qed.

Lemma recent_step c c' v t age : rstep c c' -> s_since c <= s_now c -> recent c v t age -> recent c' v t age.
Proof. intros Hstep Hs (t0 & H0 & Ht). exists t0. split; [by eapply was_step|done]. Qed.

Lemma recent_mono (c : skey V) v t age age' : age <= age' -> recent c v t age -> recent c v t age'.
Proof. intros Hle (t0 & H0 & Ht). exists t0. split; [done|lia]. Qed.

Lemma reader_ok_step c c' r : rstep c c' -> s_since c <= s_now c -> reader_ok c r -> reader_ok c' r.
Proof. intros Hstep Hs. destruct r; cbn; try done; [by apply recent_step|]. intros Hr Ht. by eapply recent_step, Hr. Qed.

Lemma entry_ok_step c c' e : rstep c c' -> s_since c <= s_now c -> entry_ok c e -> entry_ok c' e.
Proof.
  intros Hstep Hs He v d Hv Ht. destruct (He v d Hv Ht) as (t0 & d' & H0 & Hd). exists t0, d'.
  split; [by eapply was_step|done].
Qed.

Context (grace_nonneg : 0 <= grace).

(** A step of one reader, or none; time and the committed value stay. *)
Lemma stale_inv_reader c c' t r :
  stale_inv c -> rstep c c' -> s_readers c' = <[t := r]> (s_readers c) -> reader_ok c' r ->
  s_now c' = s_now c -> s_since c' = s_since c -> s_past c' = s_past c -> entry_ok c' (s_entry c') -> stale_inv c'.
Proof.
  intros [Hs Hp He Hr] Hstep Er Hok En Es Ep He'. split; [by rw En Es|by rw En Ep|done|].
  rw Er. apply map_Forall_insert_2; [done|]. intros t' r' Hr'. eapply reader_ok_step; [exact Hstep|done|by apply (Hr t')].
Qed.

Lemma stale_inv_step c c' : rstep c c' -> stale_inv c -> stale_inv c'.
Proof.
  intros Hstep Hi. pose proof (si_since c Hi) as Hs. pose proof (entry_ok_step c c' _ Hstep Hs (si_entry c Hi)) as Hent.
  assert (map_Forall (fun _ => reader_ok c') (s_readers c)) as Hr'.
  { intros t r Ht. eapply reader_ok_step; [exact Hstep|done|by apply (si_readers c Hi t)]. }
  assert (0 < request_timeout) as Hto by done. pose proof Hstep as Hstep'.
  destruct Hstep' as [c t Ht|c t v d Ht Hv Hd|c t Ht|c t v Ht Hv|c t Ht|c t v t1 Ht Hto2|c t v t1 Ht|c v|c|c now Hd].
  - by eapply stale_inv_reader.
  - eapply stale_inv_reader; [done|exact Hstep|done| |done..]. intros Hpos.
    destruct (si_entry c Hi v d Hv Hpos) as (t0 & d' & H0 & -> & Hd'). exists t0. pose proof (was_before c v t0 Hi H0).
    cbn in Hd. split; [by eapply was_step|lia].
  - by eapply stale_inv_reader.
  - eapply stale_inv_reader; [done|exact Hstep|done| |done..]. by eapply recent_step.
  - by eapply stale_inv_reader.
  - pose proof (si_readers c Hi t _ Ht) as Hw. apply (recent_step _ _ _ _ _ Hstep Hs) in Hw.
    eapply stale_inv_reader; [done|exact Hstep|done| |done..|].
    + intros Hpos. eapply recent_mono; [|exact Hw]. unfold stale_bound. lia.
    + intros v' d [= <- <-] Hpos. destruct Hw as (t0 & H0 & Hle). unfold deadline.
      destruct (Z.eqb_spec (ttl v) 0); [lia|]. exists t0, (s_now c + ttl v). unfold stale_bound. split_and!; [done|done|lia].
  - pose proof (si_readers c Hi t _ Ht) as Hw. apply (recent_step _ _ _ _ _ Hstep Hs) in Hw.
    eapply stale_inv_reader; [done|exact Hstep|done| |done..].
    intros Hpos. eapply recent_mono; [|exact Hw]. unfold stale_bound. lia.
  - split; [cbn; lia|constructor; [cbn; lia|apply Hi]|done|done].
  - by split; [|apply Hi| |].
  - split; [cbn; lia| |done|done]. eapply list.Forall_impl; [apply (si_past c Hi)|]. cbn. intros x Hx. lia.
Qed.

Lemma fresh_key_inv now v : stale_inv (fresh_key now v).
Proof. by split; try constructor. Qed.

Lemma stale_inv_steps c c' : rtc rstep c c' -> stale_inv c -> stale_inv c'.
Proof. induction 1 as [|c c1 c' Hs _ IH]; [done|]. intros Hi. by eapply IH, stale_inv_step. Qed.

(** Every answer with a positive TTL was the committed value at most the bound
    before it was read. *)
Lemma answers_recent c0 c t v T :
  stale_inv c0 -> rtc rstep c0 c -> s_readers c !! t = Some (Answering v T) -> 0 < ttl v ->
  recent c v T (stale_bound v).
Proof. intros Hi Hsteps Ht. apply (si_readers c (stale_inv_steps _ _ Hsteps Hi) t _ Ht). Qed.
End steps.

(** ** [GetBalance] in these steps *)
Section calls.
Context {P R A C : Type} `{RedisServer R, JSON Account}.
#[local] Abbreviation World := (World P R A C).
Context (s : accountService World) (id : Z).

Section code.
Local Open Scope go_scope.

(** [GetBalance] up to the SELECT: a hit ends it. *)
Definition lookup_call : M World (option Account) :=
  logger_Set "account_id" (LInt id) ;;;
  hit <- cached_account id ;;
  match hit with
  | Some acc =>
      logger_Set "cache_hit" (LBool true) ;;;
      logger_Set "account_balance" (LFloat (Balance acc)) ;;;
      CacheHits_Inc "balance" ;;;
      mret (Some acc)
  | None =>
      CacheMisses_Inc "balance" ;;;
      logger_Set "cache_hit" (LBool false) ;;;
      mret None
  end.

(** ... and from the SELECT's result on. *)
Definition finish_call (r : result Account) : M World (result Account) :=
  match r with
  | Err e =>
      logger_Set "account_error" (LErr e) ;;;
      mret (Err e)
  | Ok acc =>
      (if acc_redis s then
         match json_Marshal acc with
         | Ok data => on_redis (rd_set (balance_key id) data (acc_balanceTTL s)) ;;; mret tt
         | Err _ => mret tt
         end
       else mret tt) ;;;
      logger_Set "account_balance" (LFloat (Balance acc)) ;;;
      mret (Ok acc)
  end.

Definition uninterrupted : M World (result Account) :=
  hit <- lookup_call ;;
  match hit with
  | Some acc => mret (Ok acc)
  | None => r <- GetAccountByID (acc_repo s) id ;; finish_call r
  end.

Lemma GetBalance_parts w : acc_redis s = true -> GetBalance s id w = uninterrupted w.
Proof.
  intros Hon. unfold GetBalance, uninterrupted, lookup_call, load_balance, finish_call. rw Hon. unfold mbind, mret.
  destruct (logger_Set "account_id" _ w) as [u w1]. destruct (cached_account id w1) as [[a|] w2].
  - destruct (logger_Set "cache_hit" _ w2) as [? w3]. destruct (logger_Set "account_balance" _ w3) as [? w4].
    by destruct (CacheHits_Inc _ w4).
  - destruct (CacheMisses_Inc _ w2) as [? w3]. destruct (logger_Set "cache_hit" _ w3) as [? w4].
    by destruct (GetAccountByID _ _ w4) as [[]].
Qed.
End code.

(** Any number of calls of [GetBalance] for [id]: the world; the balance that
    is committed, since when, and what was before; where each call stands. *)
Record calls : Type := mkCalls {
  k_world : World;
  k_value : Account;
  k_since : Z;
  k_past : list (Z * Z * Account);
  k_calls : gmap nat (reader Account);
}.

Definition k_now (c : calls) : Z := rd_time (w_redis (k_world c)).

(** The entry of the balance of [id]. *)
Definition balance_entry (r : R) : option (Account * option Z) :=
  match rd_entries r !! balance_key id with
  | Some e => match json_Unmarshal (e_value e) with Ok a => Some (a, e_deadline e) | Err _ => None end
  | None => None
  end.

(** The key that the calls share. *)
Definition key_of (c : calls) : skey Account :=
  mkSkey (k_now c) (k_value c) (k_since c) (k_past c) (balance_entry (w_redis (k_world c))) (k_calls c).

Definition moved (t : nat) (rd : reader Account) (w : World) (c : calls) : calls :=
  mkCalls w (k_value c) (k_since c) (k_past c) (<[t := rd]> (k_calls c)).

(** What others do to the cache: time passes, and the entry of [id] stays or
    goes.  Nothing but [GetBalance] sets it. *)
Definition key_shrinks (r r' : R) : Prop :=
  rd_time r <= rd_time r' /\
  (rd_entries r' !! balance_key id = rd_entries r !! balance_key id \/ rd_entries r' !! balance_key id = None).

Context `{!AccRepoLaws (acc_repo s)} (grace lag : Z).

(** The database that the repository reads is at most [lag] behind. *)
Definition view_recent (c : calls) : Prop :=
  forall a, acc_view (k_world c) id = Some a -> recent (key_of c) a (k_now c) lag.

Inductive kstep : calls -> calls -> Prop :=
| k_request c t : k_calls c !! t = None -> kstep c (moved t Looking (k_world c) c)
| k_lookup c t hit w :
    k_calls c !! t = Some Looking -> lookup_call (k_world c) = (hit, w) ->
    kstep c (moved t (match hit with Some a => Answering a (k_now c) | None => Loading end) w c)
| k_select c t r w :
    k_calls c !! t = Some Loading -> view_recent c -> GetAccountByID (acc_repo s) id (k_world c) = (r, w) ->
    kstep c (match r with
             | Ok a => moved t (Storing a (k_now c)) w c
             | Err _ => moved t Refused (snd (finish_call r w)) c
             end)
(** within the deadline of the request *)
| k_finish c t a t1 r w :
    k_calls c !! t = Some (Storing a t1) -> finish_call (Ok a) (k_world c) = (r, w) ->
    rd_time (w_redis w) <= t1 + request_timeout + grace ->
    kstep c (moved t (match r with Ok a' => Answering a' t1 | Err _ => Refused end) w c)
(** the worker, or another request, commits a new balance; or does anything else *)
| k_commit c v w :
    key_shrinks (w_redis (k_world c)) (w_redis w) ->
    kstep c (mkCalls w v (rd_time (w_redis w)) ((k_since c, rd_time (w_redis w), k_value c) :: k_past c) (k_calls c))
| k_others c w :
    key_shrinks (w_redis (k_world c)) (w_redis w) ->
    kstep c (mkCalls w (k_value c) (k_since c) (k_past c) (k_calls c)).

(** Nothing was asked yet, and nothing is cached. *)
Definition first_call (w : World) (v : Account) : calls := mkCalls w v (rd_time (w_redis w)) [] ∅.

(** *** Each of these steps is a step of a reader, or of a writer *)
Context `{!RedisLaws R, !JSONLaws Account (fun _ => True)}.
Context (Httl : 0 <= acc_balanceTTL s).
#[local] Abbreviation rd_step := (rstep (fun _ => acc_balanceTTL s) grace lag).

Lemma tick_steps (c : skey Account) now : s_now c <= now -> rtc rd_step c (set_now now c).
Proof.
  intros Hle. destruct (decide (now = s_now c)) as [->|Hne]; [by destruct c|]. apply rtc_once, r_tick. lia.
Qed.

Lemma shrinks_key r r' : cache_shrinks r r' -> key_shrinks r r'.
Proof.
  intros [Hs Ht]. split; [done|]. destruct (rd_entries r' !! balance_key id) as [e|] eqn:He; [left|by right].
  by rw (lookup_weaken _ _ _ _ He Hs).
Qed.

(** Time passes, and the entry may go. *)
Lemma others_steps c (w : World) rs :
  key_shrinks (w_redis (k_world c)) (w_redis w) ->
  rtc rd_step (mkSkey (k_now c) (k_value c) (k_since c) (k_past c) (balance_entry (w_redis (k_world c))) rs)
    (mkSkey (rd_time (w_redis w)) (k_value c) (k_since c) (k_past c) (balance_entry (w_redis w)) rs).
Proof.
  intros [Ht He]. etrans; [by apply (tick_steps _ (rd_time (w_redis w)))|]. unfold set_now, balance_entry. cbn.
  destruct He as [->| ->]; [done|]. apply rtc_once, r_del.
Qed.

(** The [Set] of a call that read the database at [t1]. *)
Lemma store_steps c t a t1 (w : World) :
  k_calls c !! t = Some (Storing a t1) -> rd_time (w_redis w) <= t1 + request_timeout + grace ->
  cache_after (balance_key id) a (acc_balanceTTL s) (w_redis (k_world c)) (w_redis w) ->
  rtc rd_step (key_of c) (key_of (moved t (Answering a t1) w c)).
Proof.
  intros Ht Hto [Hle Hor]. unfold key_of, moved, k_now. cbn. destruct Hor as [Hs|(data & t0 & Hj & Ht0 & Hs)].
  - eapply rtc_l; [by apply (r_store_lost _ _ _ _ t)|]. by apply (others_steps c), shrinks_key.
  - etrans; [apply (tick_steps _ t0); cbn; lia|]. eapply rtc_l; [apply (r_store _ _ _ _ t a t1); cbn; [done|lia]|].
    etrans; [apply (tick_steps _ (rd_time (w_redis w))); cbn; lia|]. cbn. unfold balance_entry at 1.
    destruct (rd_entries (w_redis w) !! balance_key id) as [e|] eqn:He.
    + pose proof (lookup_weaken _ _ _ _ He Hs) as He'. rw lookup_insert_eq in He'. injection He' as <-.
      unfold balance_entry. rw He. cbn. by rw (json_roundtrip a data).
    + unfold balance_entry. rw He. apply rtc_once, r_del.
Qed.

Lemma lookup_call_spec w :
  wp lookup_call (fun hit w' => key_shrinks (w_redis w) (w_redis w') /\
    match hit with
    | Some a => exists d, balance_entry (w_redis w) = Some (a, d) /\ unexpired (rd_time (w_redis w)) d
    | None => True
    end) w.
Proof.
  unfold lookup_call. wp_steps. apply wp_logger_Set. intros e1. unfold cached_account.
  apply wp_bind, (wp_cache_get (T := Account)). intros [a|] r' Hsh Hit; cbn in Hsh, Hit.
  - wp_steps. apply wp_logger_Set. intros e2. wp_steps. apply wp_logger_Set. intros e3. wp_steps.
    unfold CacheHits_Inc, on_metrics. wp_steps. split; [by apply shrinks_key|].
    destruct Hit as (e & He & Hl & Hj). exists (e_deadline e). unfold balance_entry. by rw He Hj.
  - unfold CacheMisses_Inc, on_metrics. wp_steps. apply wp_logger_Set. intros e2. wp_steps.
    split; [by apply shrinks_key|done].
Qed.

Lemma finish_call_spec a w :
  wp (finish_call (Ok a)) (fun r w' => r = Ok a /\
    cache_after (balance_key id) a (acc_balanceTTL s) (w_redis w) (w_redis w')) w.
Proof.
  unfold finish_call. wp_steps. apply wp_cache_put; [done|]. intros r' Hc _. wp_steps. apply wp_logger_Set.
  intros e2. by wp_steps.
Qed.

Lemma finish_error_redis e (w : World) : w_redis (snd (finish_call (Err e) w)) = w_redis w.
Proof.
  assert (wp (finish_call (Err e)) (fun _ w' => w_redis w' = w_redis w) w) as Hw.
  { unfold finish_call. wp_steps. apply wp_logger_Set. intros e1. by wp_steps. }
  unfold wp in Hw. by destruct (finish_call (Err e) w).
Qed.

Lemma kstep_steps c c' : kstep c c' -> rtc rd_step (key_of c) (key_of c').
Proof.
  intros [c0 t Ht|c0 t hit w Ht Hw|c0 t r w Ht Hv Hw|c0 t a t1 r w Ht Hw Hto|c0 v w Hs|c0 w Hs].
  - by apply rtc_once, r_request.
  - pose proof (lookup_call_spec (k_world c0)) as Hl. unfold wp in Hl. rw Hw in Hl. destruct Hl as [Hsh Hit].
    destruct hit as [a|].
    + destruct Hit as (d & He & Hd). eapply rtc_l; [apply (r_hit _ _ _ (key_of c0) t a d); [exact Ht|exact He|exact Hd]|].
      by apply (others_steps c0).
    + eapply rtc_l; [apply (r_miss _ _ _ (key_of c0) t), Ht|]. by apply (others_steps c0).
  - pose proof (GetAccountByID_law id (k_world c0)) as Hl. unfold wp in Hl. rw Hw in Hl. destruct Hl as [[Er _] Ha].
    assert (key_shrinks (w_redis (k_world c0)) (w_redis w)) as Hsh by (rw Er; split; [lia|by left]).
    destruct r as [a|e].
    + eapply rtc_l; [apply (r_load _ _ _ (key_of c0) t a); [exact Ht|exact (Hv a Ha)]|]. by apply (others_steps c0).
    + eapply rtc_l; [apply (r_fail _ _ _ (key_of c0) t), Ht|]. apply (others_steps c0).
      pose proof (finish_error_redis e w) as Hf. by rw Hf.
  - pose proof (finish_call_spec a (k_world c0)) as Hl. unfold wp in Hl. rw Hw in Hl. destruct Hl as [-> Hc].
    by apply store_steps.
  - etrans; [apply (tick_steps _ (rd_time (w_redis w))), Hs|]. eapply rtc_l; [by apply (r_commit _ _ _ _ v)|].
    unfold key_of, k_now, set_value, set_now, balance_entry. cbn. destruct Hs as [_ [->| ->]]; [done|apply rtc_once, r_del].
  - by apply (others_steps c0).
Qed.

Lemma ksteps_steps c c' : rtc kstep c c' -> rtc rd_step (key_of c) (key_of c').
Proof. induction 1 as [|c c1 c' Hs _ IH]; [done|]. etrans; [by apply kstep_steps|exact IH]. Qed.
End calls.

(** ** Properties *)

(** C27: requests, commits and invalidations in any order, with entries that
    vanish, commands that fail or take effect late, and reads of a database
    that is at most [lag] behind: every answer of a cached read, from the
    cache or not, whose value has a positive TTL, was the committed value at
    some time at most that TTL, the deadline of a request, the delay of a late
    command and the lag before it was read. *)
Theorem cached_answers_recent {V} (ttl : V -> Z) grace lag now v0 c t v T :
  0 <= grace -> rtc (rstep ttl grace lag) (fresh_key now v0) c ->
  s_readers c !! t = Some (Answering v T) -> 0 < ttl v ->
  recent c v T (ttl v + request_timeout + grace + lag).
Proof. intros Hg Hsteps Ht Hpos. by eapply answers_recent; [|apply fresh_key_inv|..]. Qed.

(** With the TTL of [GetTransactionStatus], the answer "pending" is at most
    62 seconds behind the database that is read. *)
Corollary pending_answers_recent {P R A C} (s : transactionService (World P R A C)) grace lag now tx0 c t tx T :
  0 <= grace -> rtc (rstep (status_ttl s) grace lag) (fresh_key now tx0) c ->
  s_readers c !! t = Some (Answering tx T) -> TxStatus tx = StatusPending ->
  recent c tx T (62 * Second + grace + lag).
Proof.
  intros Hg Hsteps Ht Hp.
  assert (status_ttl s tx = 2 * Second) as Httl by (unfold status_ttl; by rw Hp).
  replace (62 * Second + grace + lag) with (stale_bound (status_ttl s) grace lag tx)
    by (unfold stale_bound; rw Httl; unfold request_timeout; lia).
  eapply answers_recent; [done|apply fresh_key_inv|exact Hsteps|exact Ht|by rw Httl].
Qed.

(** C29: a TTL of 0 is no bound at all: go-redis then stores the entry without
    an expiration, so once the deletion of an entry is lost, a value that was
    replaced is answered for as long as one likes. *)
Theorem zero_ttl_never_expires {V} (ttl : V -> Z) grace lag v0 v1 age :
  ttl v0 = 0 -> v0 <> v1 -> 0 <= grace -> 0 <= lag -> 0 <= age ->
  exists c T, rtc (rstep ttl grace lag) (fresh_key 0 v0) c /\ s_readers c !! 1%nat = Some (Answering v0 T) /\
    ~ recent c v0 T age.
Proof.
  intros Httl Hne Hg Hl Ha. eexists _, (1 + age). split; [|split].
  - eapply rtc_l; [by apply (r_request _ _ _ _ 0%nat)|]. eapply rtc_l; [by apply (r_miss _ _ _ _ 0%nat)|].
    eapply rtc_l; [apply (r_load _ _ _ _ 0%nat v0); [done|exists 0; split; [left; cbn; split; [done|lia]|cbn; lia]]|].
    eapply rtc_l; [apply (r_store _ _ _ _ 0%nat v0 0); [done|cbn; unfold request_timeout, Second; lia]|].
    eapply rtc_l; [apply (r_commit _ _ _ _ v1)|]. eapply rtc_l; [apply (r_tick _ _ _ _ (1 + age)); cbn; lia|].
    eapply rtc_l; [by apply (r_request _ _ _ _ 1%nat)|].
    eapply rtc_l; [apply (r_hit _ _ _ _ 1%nat v0 None); [done|cbn; by rw Httl|done]|]. apply rtc_refl.
  - done.
  - cbn. intros (t0 & [[Hv _]|(a & b & Hin & Ht)] & Hle); [done|]. cbn in Hin.
    apply list_elem_of_singleton in Hin. injection Hin as -> ->. lia.
Qed.

Lemma zero_ttl_never_expires_witness :
  exists c T, rtc (rstep (fun _ : Z => 0) 0 0) (fresh_key 0 10) c /\ s_readers c !! 1%nat = Some (Answering 10 T) /\
    ~ recent c 10 T (86400 * Second).
Proof. by apply (zero_ttl_never_expires (fun _ : Z => 0) 0 0 10 7 (86400 * Second)); vm_compute. Defined.

(** A balance of 10, a request that loads it at once and stores it 55 s
    later, a transfer that replaces it after 1 s and deletes the entry, and a
    second request 64 s after the start. *)
Definition slow_reader_run : skey Z :=
  mkSkey (64 * Second) 7 (1 * Second) [(0, 1 * Second, 10)] (Some (10, Some (65 * Second)))
    (<[1%nat := Answering 10 (64 * Second)]> (<[1%nat := Looking]> (<[0%nat := Answering 10 0]>
      (<[0%nat := Storing 10 0]> (<[0%nat := Loading]> (<[0%nat := Looking]> ∅)))))).

Lemma slow_reader_steps : rtc (rstep (fun _ : Z => 10 * Second) 0 0) (fresh_key 0 10) slow_reader_run.
Proof.
  eapply rtc_l; [by apply (r_request _ _ _ _ 0%nat)|]. eapply rtc_l; [by apply (r_miss _ _ _ _ 0%nat)|].
  eapply rtc_l; [apply (r_load _ _ _ _ 0%nat 10); [done|exists 0; split; [by left|done]]|].
  eapply rtc_l; [by apply (r_tick _ _ _ _ (1 * Second))|]. eapply rtc_l; [by apply (r_commit _ _ _ _ 7)|].
  eapply rtc_l; [apply r_del|]. eapply rtc_l; [by apply (r_tick _ _ _ _ (55 * Second))|].
  eapply rtc_l; [by apply (r_store _ _ _ _ 0%nat 10 0)|]. eapply rtc_l; [by apply (r_tick _ _ _ _ (64 * Second))|].
  eapply rtc_l; [by apply (r_request _ _ _ _ 1%nat)|].
  eapply rtc_l; [by apply (r_hit _ _ _ _ 1%nat 10 (Some (65 * Second)))|]. apply rtc_refl.
Qed.

(** The deletion of the entry does not end the staleness, nor does the TTL
    alone: with a TTL of ten seconds a request is answered with a balance that
    was replaced, and whose entry was deleted, 63 seconds ago. *)
Example answer_after_invalidation :
  exists c, rtc (rstep (fun _ : Z => 10 * Second) 0 0) (fresh_key 0 10) c /\
    s_readers c !! 1%nat = Some (Answering 10 (64 * Second)) /\
    s_value c = 7 /\ s_since c = 1 * Second.
Proof. exists slow_reader_run. split; [apply slow_reader_steps|]. by vm_compute. Qed.

Lemma cached_answers_recent_witness :
  recent slow_reader_run 10 (64 * Second) (10 * Second + request_timeout + 0 + 0).
Proof.
  apply (cached_answers_recent (fun _ : Z => 10 * Second) 0 0 0 10 slow_reader_run 1 10 (64 * Second)).
  - done.
  - apply slow_reader_steps.
  - by vm_compute.
  - done.
Defined.

(** C28: calls of [GetBalance] for one account, any number at a time,
    interrupted between their commands by commits of its balance, deletions
    of its entry and anything else that others do, are readers of the step
    relation: run alone, a call is its lookup, its SELECT and the rest, one
    after the other; and any interleaving of these, of any calls, within the
    deadlines of their requests, is a run of the step relation, in which each
    call is the reader that looks up, loads, stores and answers what the call
    does.  So every such call with a positive TTL answers with a balance that
    was committed at most the TTL, the deadline, the delay of a late command
    and the lag of the database before it was read. *)
Theorem GetBalance_calls_are_readers {P R A C}
    `{RedisServer R, !RedisLaws R, JSON Account, !JSONLaws Account (fun _ => True)}
    (s : accountService (World P R A C)) `{!AccRepoLaws (acc_repo s)} id grace lag :
  acc_redis s = true -> 0 <= acc_balanceTTL s -> 0 <= grace ->
  (forall w, GetBalance s id w = uninterrupted s id w) /\
  (forall c c', rtc (kstep s id grace lag) c c' ->
     rtc (rstep (fun _ => acc_balanceTTL s) grace lag) (key_of id c) (key_of id c')) /\
  (forall w v c t a T, rd_entries (w_redis w) !! balance_key id = None ->
     rtc (kstep s id grace lag) (first_call w v) c -> k_calls c !! t = Some (Answering a T) -> 0 < acc_balanceTTL s ->
     recent (key_of id c) a T (acc_balanceTTL s + request_timeout + grace + lag)).
Proof.
  intros Hon Httl Hg. split_and!.
  - intros w. by apply GetBalance_parts.
  - intros c c' Hrun. exact (ksteps_steps s id grace lag Httl _ _ Hrun).
  - intros w v c t a T Hno Hrun Ht Hpos.
    pose proof (ksteps_steps s id grace lag Httl _ _ Hrun) as Hsteps.
    assert (key_of id (first_call w v) = fresh_key (rd_time (w_redis w)) v) as Efresh.
    { unfold key_of, first_call, balance_entry. cbn. by rw Hno. }
    rw Efresh in Hsteps. exact (answers_recent (fun _ => acc_balanceTTL s) grace lag Hg _ _ t a T
      (fresh_key_inv _ grace lag _ v) Hsteps Ht Hpos).
Qed.

(** Two calls for account 1001 on the reference servers.  The first reads
    100.00; the balance becomes 70.00, and the entry, if there were one, is
    deleted; the first call stores what it read; one second later the second
    call finds it. *)
Definition ref_balance : Account := mkAccount 1001 "Budi Santoso" (scan_numeric 10000) 0.
Definition ref_balance_after : Account := mkAccount 1001 "Budi Santoso" (scan_numeric 7000) 0.
Definition part {B} (m : M RefWorld B) (w : RefWorld) : RefWorld := snd (m w).
Definition wait (d : Z) (w : RefWorld) : RefWorld :=
  set_redis (mkRefRedis (rr_entries (w_redis w)) (rr_time (w_redis w) + d) (rr_faults (w_redis w))) w.
Abbreviation ref_kstep := (kstep (AccRepoLaws0 := ref_account_laws) ref_accounts 1001 0 0).

Definition k0 : calls := first_call ref_start ref_balance.
Definition k1 : calls := moved 0 Looking ref_start k0.
Definition w2 : RefWorld := part (lookup_call 1001) ref_start.
Definition k2 : calls := moved 0 Loading w2 k1.
Definition w3 : RefWorld := part (GetAccountByID (acc_repo ref_accounts) 1001) w2.
Definition k3 : calls := moved 0 (Storing ref_balance 0) w3 k2.
Definition w4 : RefWorld := part (on_redis (rd_del [balance_key 1001])) (wait Second w3).
Definition k4 : calls := mkCalls w4 ref_balance_after Second [(0, Second, ref_balance)] (k_calls k3).
Definition w5 : RefWorld := part (finish_call ref_accounts 1001 (Ok ref_balance)) w4.
Definition k5 : calls := moved 0 (Answering ref_balance 0) w5 k4.
Definition w6 : RefWorld := wait Second w5.
Definition k6 : calls := mkCalls w6 ref_balance_after Second [(0, Second, ref_balance)] (k_calls k5).
Definition k7 : calls := moved 1 Looking w6 k6.
Definition w8 : RefWorld := part (lookup_call 1001) w6.
Definition k8 : calls := moved 1 (Answering ref_balance (k_now k7)) w8 k7.

Lemma ref_view_recent : view_recent ref_accounts (AccRepoLaws0 := ref_account_laws) 1001 0 k2.
Proof.
  intros a Ha. assert (acc_view (AccRepoLaws := ref_account_laws) (k_world k2) 1001 = Some ref_balance) as Hb by (by vm_compute).
  assert (a = ref_balance) as -> by (rw Hb in Ha; by injection Ha as <-).
  exists 0. split; [left; split; [reflexivity|split; vm_compute; discriminate]|split; vm_compute; discriminate].
Qed.

Lemma ref_calls_run : rtc ref_kstep k0 k8.
Proof.
  eapply rtc_l; [apply (k_request _ _ _ _ k0 0); reflexivity|].
  eapply rtc_l; [apply (k_lookup _ _ _ _ k1 0 None w2); vm_compute; reflexivity|].
  eapply rtc_l; [apply (k_select _ _ _ _ k2 0 (Ok ref_balance) w3);
    [vm_compute; reflexivity|exact ref_view_recent|vm_compute; reflexivity]|].
  eapply rtc_l; [apply (k_commit _ _ _ _ k3 ref_balance_after w4); split; [|right]; vm_compute; [discriminate|reflexivity]|].
  eapply rtc_l; [apply (k_finish _ _ _ _ k4 0 ref_balance 0 (Ok ref_balance) w5);
    vm_compute; [reflexivity|reflexivity|discriminate]|].
  eapply rtc_l; [apply (k_others _ _ _ _ k5 w6); split; [|left]; vm_compute; [discriminate|reflexivity]|].
  eapply rtc_l; [apply (k_request _ _ _ _ k6 1); vm_compute; reflexivity|].
  change (rtc ref_kstep k7 k8). apply rtc_once. apply (k_lookup _ _ _ _ k7 1 (Some ref_balance) w8); vm_compute; reflexivity.
Qed.

Lemma GetBalance_calls_are_readers_witness :
  GetBalance ref_accounts 1001 ref_start = uninterrupted ref_accounts 1001 ref_start /\
  rtc (rstep (fun _ => 10 * Second) 0 0) (key_of 1001 k0) (key_of 1001 k8) /\
  recent (key_of 1001 k8) ref_balance (2 * Second) (10 * Second + request_timeout + 0 + 0).
Proof.
  pose proof (GetBalance_calls_are_readers ref_accounts (AccRepoLaws0 := ref_account_laws) 1001 0 0 eq_refl
    ltac:(by vm_compute) ltac:(done)) as (Heq & Hrun & Hrecent).
  split_and!; [apply Heq|exact (Hrun k0 k8 ref_calls_run)|].
  apply (Hrecent ref_start ref_balance k8 1%nat ref_balance (2 * Second)); [reflexivity|exact ref_calls_run|vm_compute; reflexivity|reflexivity].
Defined.
