(* ===== verification/Http.v ===== *)
(** * The web framework, as an interface

    Echo is not part of the repository.  The handlers see a request context:
    path parameters, the bound request body, and [c.JSON], which encodes a
    map and sends it with a status code, or fails (a value that cannot be
    encoded, a lost connection) and sends nothing. *)

From S2P Require Import Prelude GoNum Float64 Domain Postgres Redis Queue World.

(** The values of a JSON response; times as nanoseconds. *)
Inductive JVal : Type :=
| JInt (z : Z)
| JFloat (x : f64)
| JStr (s : string)
| JTime (t : Z).

(** [map[string]any], [map[string]string] *)
Definition Body : Type := list (string * JVal).

Class Echo (E : Type) : Type := {
  (** [c.Param(name)] *)
  c_Param : string -> E -> string;
  (** [c.Bind(&req)] *)
  c_Bind : M E (result CreateTransactionRequest);
  (** [c.JSON(code, body)] *)
  c_JSON : Z -> Body -> M E (result unit);
  (** method, URL path and X-Request-ID response header *)
  c_Method : E -> string;
  c_Path : E -> string;
  c_RequestID : E -> string;
  (** [echo.UnwrapResponse(c.Response())]: the status, if there is a response *)
  c_Status : E -> option Z;

  (** the responses sent, oldest first *)
  c_sent : E -> list (Z * Body);
}.

Class EchoLaws (E : Type) `{Echo E} : Prop := {
  c_Bind_law e : wp c_Bind (fun _ e' => c_sent e' = c_sent e) e;
  c_JSON_law code body e :
    wp (c_JSON code body) (fun r e' =>
      match r with
      | Ok _ => c_sent e' = c_sent e ++ [(code, body)] /\ c_Status e' = Some code
      | Err _ => c_sent e' = c_sent e
      end) e;
}.

(** A handler runs on its request context and the state of the process. *)
Section handler.
Context {E W : Type}.

Definition on_echo {B} (m : M E B) : M (E * W) B := mlift fst (fun e ew => (e, snd ew)) m.
Definition on_world {B} (m : M W B) : M (E * W) B := mlift snd (fun w ew => (fst ew, w)) m.

(** [echo.HandlerFunc] *)
Definition HandlerFunc : Type := M (E * W) (result unit).
End handler.
Arguments HandlerFunc : clear implicits.

(** The answer [code], [body] was sent, or its encoding failed. *)
Definition replied {E} `{Echo E} (code : Z) (body : Body) (e : E) (r : result unit) (e' : E) : Prop :=
  match r with
  | Ok _ => c_sent e' = c_sent e ++ [(code, body)] /\ c_Status e' = Some code
  | Err _ => c_sent e' = c_sent e
  end.

Lemma wp_reply {E W} `{Echo E, !EchoLaws E} code body (Q : result unit -> E * W -> Prop) ew :
  (forall r e', replied code body (fst ew) r e' -> Q r (e', snd ew)) ->
  wp (on_echo (c_JSON code body)) Q ew.
Proof. intros HQ. unfold on_echo. wp_steps. wp_apply c_JSON_law. exact HQ. Qed.

(** ** A reference context *)
Record RefEcho : Type := mkRefEcho {
  re_params : gmap string string;
  re_body : result CreateTransactionRequest;
  re_method : string;
  re_path : string;
  re_request_id : string;
  re_status : option Z;
  re_sent : list (Z * Body);
}.

Definition encodable (v : JVal) : bool :=
  match v with JFloat x => f64_finite x | _ => true end.

#[export] Instance RefEcho_echo : Echo RefEcho := {
  c_Param := fun name e => default "" (re_params e !! name);
  c_Bind := fun e => (re_body e, e);
  c_JSON := fun code body e =>
    if forallb (fun kv => encodable (snd kv)) body
    then (Ok tt, mkRefEcho (re_params e) (re_body e) (re_method e) (re_path e) (re_request_id e)
                   (Some code) (re_sent e ++ [(code, body)]))
    else (Err (ErrorString "json: unsupported value"), e);
  c_Method := re_method;
  c_Path := re_path;
  c_RequestID := re_request_id;
  c_Status := re_status;
  c_sent := re_sent;
}.

#[export] Instance RefEcho_laws : EchoLaws RefEcho.
Proof. split; [done|]. intros code body e. rw /wp /=. by destruct (forallb _ body). Qed.

Definition ref_request (params : gmap string string) (body : result CreateTransactionRequest) : RefEcho :=
  mkRefEcho params body "POST" "/" "req-1" (Some 200) [].
