(* ===== verification/Handlers.v ===== *)
(** * The HTTP handlers

    internal/handler: [TransactionHandler] and [AccountHandler], over the
    interfaces of their services. *)

From S2P Require Import Prelude GoNum TxId Float64 Domain Sql Postgres Redis Queue World Reference.
From S2P Require Import Session Transfer Repository TransactionService AccountService Cache Http.

(** [type TransactionService interface] *)
Record TransactionServiceI (W : Type) : Type := mkTransactionServiceI {
  svc_CreateTransaction : CreateTransactionInput -> M W (result Transaction);
  svc_GetTransactionStatus : string -> M W (result Transaction);
}.
Arguments mkTransactionServiceI {W}.
Arguments svc_CreateTransaction {W}.
Arguments svc_GetTransactionStatus {W}.

(** [type AccountService interface] *)
Record AccountServiceI (W : Type) : Type := mkAccountServiceI {
  svc_GetBalance : Z -> M W (result Account);
}.
Arguments mkAccountServiceI {W}.
Arguments svc_GetBalance {W}.

(** [service.NewTransactionService], [service.NewAccountService] *)
Definition NewTransactionService {P R A C}
    `{PgDriver P, RedisServer R, AmqpLib A, Clock C, JSON TxMessage, JSON Transaction}
    (s : transactionService (World P R A C)) : TransactionServiceI (World P R A C) :=
  mkTransactionServiceI (CreateTransaction s) (GetTransactionStatus s).
Definition NewAccountService {P R A C} `{RedisServer R, JSON Account}
    (s : accountService (World P R A C)) : AccountServiceI (World P R A C) :=
  mkAccountServiceI (GetBalance s).

Definition error_body (msg : string) : Body := [("error", JStr msg)].

(** The map of a transaction in a response. *)
Definition tx_body (tx : Transaction) : Body :=
  [("id", JStr (ID tx)); ("source_account", JInt (SourceAccount tx)); ("dest_account", JInt (DestAccount tx));
   ("amount", JFloat (Amount tx)); ("status", JStr (TxStatus tx)); ("created_at", JTime (CreatedAt tx))].

Definition account_body (acc : Account) : Body :=
  [("id", JInt (AccountID acc)); ("name", JStr (Name acc)); ("balance", JFloat (Balance acc));
   ("updated_at", JTime (AccountUpdatedAt acc))].

Definition req_input (req : CreateTransactionRequest) : CreateTransactionInput :=
  mkInput (req_source req) (req_dest req) (req_amount req).

Section handlers.
Context {E W : Type} `{Echo E}.
Local Open Scope go_scope.

Definition handle_CreateTransaction (svc : TransactionServiceI W) : HandlerFunc E W :=
  b <- on_echo c_Bind ;;
  match b with
  | Err _ => on_echo (c_JSON 400 (error_body "invalid request body"))
  | Ok req =>
      if (req_source req =? 0) || (req_dest req =? 0)
      then on_echo (c_JSON 400 (error_body "source_account and dest_account are required"))
      else if f64_leb (req_amount req) f64_zero
      then on_echo (c_JSON 400 (error_body "amount must be greater than 0"))
      else
        r <- on_world (svc_CreateTransaction svc (req_input req)) ;;
        match r with
        | Err e =>
            if errors_Is e ErrInsufficientFunds then mret (Err (HTTPError 422 "insufficient funds"))
            else if errors_Is e ErrAccountNotFound then mret (Err (HTTPError 422 "account not found"))
            else on_echo (c_JSON 500 (error_body "failed to save transaction"))
        | Ok tx =>
            let statusCode := if String.eqb (TxStatus tx) StatusPending then 202 else 201 in
            on_echo (c_JSON statusCode (tx_body tx))
        end
  end.

Definition handle_GetTransactionStatus (svc : TransactionServiceI W) : HandlerFunc E W :=
  id <- on_echo (mget (c_Param "id")) ;;
  if String.eqb id "" then on_echo (c_JSON 400 (error_body "id is required"))
  else
    r <- on_world (svc_GetTransactionStatus svc id) ;;
    match r with
    | Err _ => on_echo (c_JSON 404 (error_body "transaction not found"))
    | Ok tx => on_echo (c_JSON 200 (tx_body tx))
    end.

Definition handle_GetBalance (svc : AccountServiceI W) : HandlerFunc E W :=
  idStr <- on_echo (mget (c_Param "id")) ;;
  match ParseInt idStr with
  | Err _ => on_echo (c_JSON 400 (error_body "invalid account id"))
  | Ok id =>
      r <- on_world (svc_GetBalance svc id) ;;
      match r with
      | Err _ => on_echo (c_JSON 404 (error_body "account not found"))
      | Ok acc => on_echo (c_JSON 200 (account_body acc))
      end
  end.
End handlers.

(** ** Rules for the handlers *)

(** What the validation of the handler lets through. *)
Definition request_ok (req : CreateTransactionRequest) : bool :=
  negb ((req_source req =? 0) || (req_dest req =? 0)) && negb (f64_leb (req_amount req) f64_zero).

Section rules.
Context {E W : Type} `{Echo E, !EchoLaws E}.

(** The service is called for a valid request only. *)
Lemma on_create (svc : TransactionServiceI W) (Q : result unit -> E * W -> Prop) e w :
  (forall msg r e', replied 400 (error_body msg) e r e' -> Q r (e', w)) ->
  (forall req e1, request_ok req = true -> c_sent e1 = c_sent e ->
     wp (svc_CreateTransaction svc (req_input req)) (fun res w' =>
       match res with
       | Err er =>
           if errors_Is er ErrInsufficientFunds then Q (Err (HTTPError 422 "insufficient funds")) (e1, w')
           else if errors_Is er ErrAccountNotFound then Q (Err (HTTPError 422 "account not found")) (e1, w')
           else forall r e', replied 500 (error_body "failed to save transaction") e1 r e' -> Q r (e', w')
       | Ok tx =>
           forall r e', replied (if String.eqb (TxStatus tx) StatusPending then 202 else 201) (tx_body tx) e1 r e' ->
             Q r (e', w')
       end) w) ->
  wp (handle_CreateTransaction svc) Q (e, w).
Proof.
  intros Hbad Hgood. unfold handle_CreateTransaction, on_echo at 1. wp_steps. wp_apply c_Bind_law.
  assert (forall msg e1 r e', c_sent e1 = c_sent e -> replied 400 (error_body msg) e1 r e' -> Q r (e', w)) as Hb.
  { intros msg e1 r e' Hs Hr. apply (Hbad msg). unfold replied in *. by rw -Hs. }
  intros [req|er] e1 Hs; [|apply wp_reply; intros r e' Hr; by eapply Hb].
  destruct ((req_source req =? 0) || (req_dest req =? 0)) eqn:H1;
    [apply wp_reply; intros r e' Hr; by eapply Hb|].
  destruct (f64_leb (req_amount req) f64_zero) eqn:H2; [apply wp_reply; intros r e' Hr; by eapply Hb|].
  unfold on_world. wp_steps. cbn [fst snd]. wp_apply Hgood; [by unfold request_ok; rw H1 H2|exact Hs|].
  intros [tx|er] w' HQ; [by apply wp_reply|]. destruct (errors_Is er ErrInsufficientFunds); [by wp_steps|].
  destruct (errors_Is er ErrAccountNotFound); [by wp_steps|by apply wp_reply].
Qed.
End rules.

(** A reply after nothing was sent since [e0]. *)
Lemma replied_from {E} `{Echo E} code body e0 e1 r e' :
  c_sent e1 = c_sent e0 -> replied code body e1 r e' -> replied code body e0 r e'.
Proof. intros Hs. unfold replied. by rw Hs. Qed.

Section outcomes.
Context {P R A C : Type} `{PgDriver P, RedisServer R, AmqpLib A, Clock C}.
Context {E : Type} `{Echo E, JSON TxMessage}.
#[local] Abbreviation World := (World P R A C).

(** The outcomes of a POST on a database without a queue: tables before and
    after, request context before and after, and the returned error. *)
Inductive post_sync_outcome (tb : Tables) (e : E) : Tables -> result unit -> E -> Prop :=
| post_rejected msg r e' :
    replied 400 (error_body msg) e r e' -> post_sync_outcome tb e tb r e'
| post_created req id now tb' r e' :
    request_ok req = true -> sync_applied (new_tx (req_input req) id now) tb tb' ->
    replied 201 (tx_body (set_status StatusCompleted (new_tx (req_input req) id now))) e r e' ->
    post_sync_outcome tb e tb' r e'
| post_no_funds req cents e' :
    request_ok req = true -> c_sent e' = c_sent e ->
    balance_of (req_source req) tb = Some cents -> f64_ltb (scan_numeric cents) (req_amount req) = true ->
    post_sync_outcome tb e tb (Err (HTTPError 422 "insufficient funds")) e'
| post_no_account req e' :
    request_ok req = true -> c_sent e' = c_sent e ->
    balance_of (req_source req) tb = None \/ accounts tb !! req_dest req = None ->
    post_sync_outcome tb e tb (Err (HTTPError 422 "account not found")) e'
| post_failed req id now tb' r e' :
    request_ok req = true -> tb' = tb \/ sync_applied (new_tx (req_input req) id now) tb tb' ->
    (commit_definite P -> tb' = tb) ->
    replied 500 (error_body "failed to save transaction") e r e' ->
    post_sync_outcome tb e tb' r e'.

(** The outcomes of a POST with a queue: stored statuses before and after,
    and the broker after. *)
Inductive post_async_outcome (st : gmap string Status) (e : E) :
    gmap string Status -> A -> result unit -> E -> Prop :=
| async_rejected a msg r e' :
    replied 400 (error_body msg) e r e' -> post_async_outcome st e st a r e'
| async_accepted req id now a r e' :
    let tx := new_tx (req_input req) id now in
    request_ok req = true -> message_sent tx a ->
    replied 202 (tx_body (set_status StatusPending tx)) e r e' ->
    post_async_outcome st e (<[id := StatusPending]> st) a r e'
| async_failed id status st' a r e' :
    st' = st \/ (st' = <[id := status]> st /\ (status = StatusPending \/ status = StatusFailed)) ->
    (exists er, r = Err er /\ c_sent e' = c_sent e) \/
      replied 500 (error_body "failed to save transaction") e r e' ->
    post_async_outcome st e st' a r e'.
End outcomes.

(** C22: what a client is told is what happened: on a database without a
    queue, a POST answers 201 with the completed transaction exactly when the
    transfer was committed, 422 only when the payer is missing or short of
    funds or the payee is missing, and 400 for a refused request; after any
    of the refusals the tables are as before.  Only a 500 may hide a committed
    transfer, when the answer to the commit was lost. *)
Theorem post_transaction_sync {P R A C E}
    `{PgDriver P, RedisServer R, AmqpLib A, Clock C, !PgLaws P, JSON TxMessage, JSON Transaction}
    `{Echo E, !EchoLaws E} (s : transactionService (World P R A C)) e (w : World P R A C) :
  svc_queue s = false -> svc_db s = true ->
  wp (handle_CreateTransaction (NewTransactionService s)) (fun r ew' =>
    post_sync_outcome (pg_committed (w_pg w)) e (pg_committed (w_pg (snd ew'))) r (fst ew')) (e, w).
Proof.
  intros Hq Hd. apply on_create; [intros; by eapply post_rejected|]. intros req e1 Hok Hs.
  eapply wp_mono.
  { apply (CreateTransaction_sync s (req_input req) w (fun res tb' => exists id now,
      sync_outcome (new_tx (req_input req) id now) (pg_committed (w_pg w)) res tb') Hq Hd). eauto. }
  intros [tx|er] w' (id & now & Ho); cbn [fst snd]; set (tb' := pg_committed (w_pg w')) in *.
  - destruct Ho as [-> Happ]. intros r e' Hr. eapply post_created; [exact Hok|exact Happ|].
    eapply replied_from; [exact Hs|exact Hr].
  - destruct Ho as (Hor & Hdef & Hna & Hni). destruct (errors_Is er ErrInsufficientFunds).
    { destruct (Hni eq_refl) as (-> & cents & Hb & Hlt). by eapply post_no_funds. }
    destruct (errors_Is er ErrAccountNotFound).
    { destruct (Hna eq_refl) as (-> & Hmiss). by eapply post_no_account. }
    intros r e' Hr. eapply (post_failed _ _ req id now); [exact Hok| |exact Hdef|by eapply replied_from].
    destruct Hor as [->|[_ ?]]; auto.
Qed.

Definition ref_post : RefEcho := ref_request ∅ (Ok (mkRequest 1001 1002 amount_30)).

Lemma post_transaction_sync_witness :
  wp (handle_CreateTransaction (NewTransactionService (ref_service false false))) (fun r ew' =>
    post_sync_outcome (P := RefPg) (pg_committed (w_pg ref_start)) ref_post
      (pg_committed (w_pg (snd ew'))) r (fst ew')) (ref_post, ref_start).
Proof.
  apply (post_transaction_sync (ref_service false false) ref_post ref_start).
  - reflexivity.
  - reflexivity.
Defined.

(** C23: with a queue, a POST answers 202 with the pending transaction only
    after it was stored as pending and its message sent; a refused request
    stores nothing; and after any other answer the new transaction is not
    stored, or is pending or failed, never completed. *)
Theorem post_transaction_async {P R A C E}
    `{PgDriver P, RedisServer R, AmqpLib A, Clock C, !AmqpLaws A, JSON TxMessage, JSON Transaction}
    `{Echo E, !EchoLaws E} (s : transactionService (World P R A C)) `{!TxRepoLaws (svc_repo s)}
    e (w : World P R A C) :
  svc_queue s = true ->
  wp (handle_CreateTransaction (NewTransactionService s)) (fun r ew' =>
    post_async_outcome (repo_status w) e (repo_status (snd ew')) (w_amqp (snd ew')) r (fst ew')) (e, w).
Proof.
  intros Hq. apply on_create; [intros; by eapply async_rejected|]. intros req e1 Hok Hs.
  eapply wp_mono; [apply (CreateTransaction_async s (req_input req) w Hq)|].
  intros [tx|er] w' (t & now & Ho); cbn [fst snd].
  - destruct Ho as (-> & -> & Hm & _). intros r e' Hr. apply (async_accepted _ _ req (format_id (next_id t (w_counter w))) now); [exact Hok|exact Hm|].
    eapply replied_from; [exact Hs|exact Hr].
  - assert (exists id status, repo_status w' = repo_status w \/
      (repo_status w' = <[id := status]> (repo_status w) /\ (status = StatusPending \/ status = StatusFailed)))
      as (id & status & Hst).
    { destruct Ho as [[? _]|(st & -> & Hst & _)]; [exists "", ""; by left|]. do 2 eexists. right. by split. }
    destruct (errors_Is er ErrInsufficientFunds);
      [eapply (async_failed _ _ id status); [exact Hst|left; by eexists]|].
    destruct (errors_Is er ErrAccountNotFound);
      [eapply (async_failed _ _ id status); [exact Hst|left; by eexists]|].
    intros r e' Hr. eapply (async_failed _ _ id status); [exact Hst|right; by eapply replied_from].
Qed.

Lemma post_transaction_async_witness :
  wp (handle_CreateTransaction (NewTransactionService (ref_service true false))) (fun r ew' =>
    post_async_outcome (repo_status (TxRepoLaws := ref_repo_laws true false) ref_start) ref_post
      (repo_status (TxRepoLaws := ref_repo_laws true false) (snd ew')) (w_amqp (snd ew')) r (fst ew'))
    (ref_post, ref_start).
Proof.
  apply (post_transaction_async (ref_service true false) (TxRepoLaws0 := ref_repo_laws true false)
    ref_post ref_start).
  reflexivity.
Defined.

(** C33: [GET /accounts/:id/balance] answers 200 only with the account whose
    identifier is the int64 that the path names, from the cache or not; a
    path that is no int64 is refused with 400 before any lookup. *)
Theorem get_balance_own_account {P R A C E} `{RedisServer R, !RedisLaws R, JSON Account, !JSONAccountID}
    `{Echo E, !EchoLaws E} (s : accountService (World P R A C)) `{!AccRepoLaws (acc_repo s)} e (w : World P R A C) :
  0 <= acc_balanceTTL s -> accounts_keyed (acc_view w) -> balance_keyed (w_redis w) ->
  wp (handle_GetBalance (NewAccountService s)) (fun r ew' =>
    balance_keyed (w_redis (snd ew')) /\
    match ParseInt (c_Param "id" e) with
    | Err _ => snd ew' = w /\ replied 400 (error_body "invalid account id") e r (fst ew')
    | Ok id =>
        is_int64 id /\
        (replied 404 (error_body "account not found") e r (fst ew') \/
         exists acc, AccountID acc = id /\ replied 200 (account_body acc) e r (fst ew'))
    end) (e, w).
Proof.
  intros Httl Hacc Hk. unfold handle_GetBalance, on_echo at 1. wp_steps.
  destruct (ParseInt (c_Param "id" e)) as [id|er] eqn:Hp; [|by apply wp_reply].
  unfold on_world. wp_steps. cbn [fst snd]. wp_apply GetBalance_keyed; [done..|].
  intros [acc|er] w' [Hk' Hid]; apply wp_reply; intros r e' Hr; (split; [exact Hk'|]);
    (split; [by eapply ParseInt_range|]); [right|by left].
  exists acc. split; [by apply Hid|exact Hr].
Qed.

Lemma get_balance_own_account_witness :
  let e := ref_request {["id" := "1001"]} (Err ErrNoRows) in
  wp (handle_GetBalance (NewAccountService ref_accounts)) (fun r ew' =>
    balance_keyed (w_redis (snd ew')) /\
    match ParseInt (c_Param "id" e) with
    | Err _ => snd ew' = ref_start /\ replied 400 (error_body "invalid account id") e r (fst ew')
    | Ok id =>
        is_int64 id /\
        (replied 404 (error_body "account not found") e r (fst ew') \/
         exists acc, AccountID acc = id /\ replied 200 (account_body acc) e r (fst ew'))
    end) (e, ref_start).
Proof.
  apply (get_balance_own_account ref_accounts (AccRepoLaws0 := ref_account_laws)).
  - vm_compute. discriminate.
  - intros id acc Hv. by apply (pg_account_keyed Primary ref_start).
  - intros id e acc He. cbn in He. by rw lookup_empty in He.
Defined.

(** The in-memory service, without database, queue or cache. *)
Definition memory_service : transactionService RefWorld :=
  mkTxService memory.NewTransactionRepository false false false (30 * Second).

(** The check [req.Amount <= 0] lets NaN through: the transaction is
    created as completed, and only the encoding of the answer fails. *)
Theorem nan_amount_passes_validation :
  let '(r, (e', w')) := handle_CreateTransaction (NewTransactionService memory_service)
    (ref_request ∅ (Ok (mkRequest 1001 1002 S754_nan)), ref_start) in
  is_ok r = false /\ c_sent e' = [] /\
  (fun tx => (Amount tx, TxStatus tx)) <$> w_mem_tx w' !! "txn0000000000000000000008"
    = Some (S754_nan, StatusCompleted).
Proof. by vm_compute. Qed.
