(* ===== verification/RequestLog.v ===== *)
(** * The request log middleware

    internal/middleware/log.go: one wide event per request, filled in by the
    handlers and services, written as one line when the handler returns. *)

From S2P Require Import Prelude GoNum TxId Float64 Domain Sql Postgres Redis Queue World Reference.
From S2P Require Import Session Repository TransactionService AccountService Cache Http Handlers.

Section middleware.
Context {P R A C E : Type} `{Clock C, Echo E}.
#[local] Abbreviation World := (World P R A C).
Local Open Scope go_scope.

(** [event[key] = val]: the event is the map that the context holds. *)
Definition event_set (key : string) (val : LogVal) : M (E * World) unit :=
  on_world (logger_Set key val).

(** [time.Since(start).Milliseconds()] *)
Definition Milliseconds (d : Z) : Z := Z.quot d 1000000.

Definition RequestLogger (next : HandlerFunc E World) : HandlerFunc E World :=
  start <- on_world time_Now ;;
  method <- on_echo (mget c_Method) ;;
  path <- on_echo (mget c_Path) ;;
  on_world (WithEvent (<["path" := LStr path]> (<["method" := LStr method]> NewEvent))) ;;;
  handlerErr <- next ;;
  status <- on_echo (mget c_Status) ;;
  match status with
  | Some status => event_set "status" (LInt status)
  | None => mret tt
  end ;;;
  requestID <- on_echo (mget c_RequestID) ;;
  event_set "request_id" (LStr requestID) ;;;
  now <- on_world time_Now ;;
  event_set "duration_ms" (LInt (Milliseconds (now - start))) ;;;
  match handlerErr with
  | Err e => event_set "error" (LErr e)
  | Ok _ => mret tt
  end ;;;
  event <- on_world EventFromContext ;;
  match event with
  | Some event => on_world (Emit event)
  | None => mret tt
  end ;;;
  mret handlerErr.
End middleware.

(** ** Properties *)

(** The event after the fields that the middleware adds. *)
Definition completed_event (status : option Z) (request_id : string) (duration : Z)
    (r : result unit) (ev : WideEvent) : WideEvent :=
  let ev := match status with Some s => <["status" := LInt s]> ev | None => ev end in
  let ev := <["duration_ms" := LInt duration]> (<["request_id" := LStr request_id]> ev) in
  match r with Err e => <["error" := LErr e]> ev | Ok _ => ev end.

(** A handler that keeps the event in the context: it may only add fields. *)
Definition keeps_event {E P R A C} (next : HandlerFunc E (World P R A C)) : Prop :=
  forall ew, is_Some (w_event (snd ew)) -> wp next (fun _ ew' => is_Some (w_event (snd ew'))) ew.

Section lemmas.
Context {P R A C E : Type} `{Clock C, Echo E}.
#[local] Abbreviation World := (World P R A C).

Lemma on_event_set key val ev (Q : unit -> E * World -> Prop) e w :
  w_event w = Some ev -> Q tt (e, set_event (Some (<[key := val]> ev)) w) ->
  wp (event_set key val) Q (e, w).
Proof.
  intros Hev HQ. unfold event_set, on_world, logger_Set, EventFromContext. wp_steps. cbn [snd fst].
  rw Hev. by wp_steps.
Qed.

Lemma on_time_Now (Q : Z -> E * World -> Prop) e w :
  (forall t c, Q t (e, set_clock c w)) -> wp (on_world time_Now) Q (e, w).
Proof. intros HQ. unfold on_world, time_Now. wp_steps. apply wp_of. intros t c _. apply HQ. Qed.
End lemmas.

(** C32: one canonical log line per request.  The middleware runs the handler
    on an event with the method and the path, returns what the handler
    returned, leaves the stores as the handler left them, and adds exactly one
    line to the log: the event as the handler left it, with the status of the
    response, the request identifier, the duration, and the error if the
    handler returned one. *)
Theorem RequestLogger_one_line {P R A C E} `{Clock C, Echo E} (next : HandlerFunc E (World P R A C)) e w :
  keeps_event next ->
  wp (RequestLogger next) (fun r ew' => exists c1 e2 w2 ev duration,
    let ev0 := <["path" := LStr (c_Path e)]> (<["method" := LStr (c_Method e)]> NewEvent) in
    next (e, set_event (Some ev0) (set_clock c1 w)) = (r, (e2, w2)) /\ w_event w2 = Some ev /\
    fst ew' = e2 /\ same_stores w2 (snd ew') /\
    w_log (snd ew') = w_log w2 ++
      [mkLogLine "INFO" "request"
         (map_to_list (completed_event (c_Status e2) (c_RequestID e2) duration r ev))]) (e, w).
Proof.
  intros Hk. unfold RequestLogger. wp_steps. apply on_time_Now. intros start c1. wp_steps.
  unfold on_echo at 1. wp_steps. unfold on_echo at 1. wp_steps. unfold on_world at 1, WithEvent. wp_steps.
  cbn [fst snd]. set (ev0 := <["path" := _]> _). set (w1 := set_event (Some ev0) (set_clock c1 w)).
  specialize (Hk (e, w1) ltac:(by eexists)). unfold wp at 1. unfold wp in Hk.
  destruct (next (e, w1)) as [r [e2 w2]] eqn:Hn. destruct Hk as [ev Hev]. cbn [snd fst] in Hev.
  wp_steps. unfold on_echo at 1. wp_steps. cbn [fst snd].
  set (ev1 := match c_Status e2 with Some s => <["status" := LInt s]> ev | None => ev end).
  assert (forall (Q : unit -> E * World P R A C -> Prop),
    (forall w3, w_event w3 = Some ev1 -> same_stores w2 w3 -> w_log w3 = w_log w2 -> Q tt (e2, w3)) ->
    wp (match c_Status e2 with Some s => event_set "status" (LInt s) | None => mret tt end) Q (e2, w2)) as Hstatus.
  { intros Q HQ. unfold ev1 in HQ. destruct (c_Status e2).
    - apply (on_event_set _ _ ev); [exact Hev|]. by apply HQ.
    - wp_steps. by apply HQ. }
  apply Hstatus. intros w3 Hev3 Hs3 Hl3. wp_steps. unfold on_echo at 1. wp_steps. cbn [fst snd].
  apply (on_event_set _ _ ev1); [exact Hev3|]. wp_steps. apply on_time_Now. intros now c4. wp_steps.
  eapply on_event_set; [done|]. wp_steps.
  assert (same_stores w2 w3) as (S1 & S2 & S3 & S4 & S5 & S6) by exact Hs3.
  destruct r as [[]|er].
  - wp_steps. unfold on_world at 1, EventFromContext. wp_steps. unfold on_world at 1, Emit, log_write. wp_steps.
    exists c1, e2, w2, ev, (Milliseconds (now - start)). cbn. rw Hl3. by split_and!.
  - wp_steps. eapply on_event_set; [done|]. wp_steps. unfold on_world at 1, EventFromContext. wp_steps.
    unfold on_world at 1, Emit, log_write. wp_steps.
    exists c1, e2, w2, ev, (Milliseconds (now - start)). cbn. rw Hl3. by split_and!.
Qed.

(** The status handler of the in-memory service. *)
Definition status_handler : HandlerFunc RefEcho RefWorld :=
  handle_GetTransactionStatus (NewTransactionService memory_service).

Lemma logger_Set_keeps {P R A C} k v (w : World P R A C) :
  is_Some (w_event w) -> wp (logger_Set k v) (fun _ w' => is_Some (w_event w') /\ same_stores w w') w.
Proof.
  intros [ev Hev]. unfold logger_Set, EventFromContext. wp_steps. rw Hev. wp_steps. by split.
Qed.

Lemma status_handler_keeps : keeps_event status_handler.
Proof.
  intros [e w] Hev. unfold status_handler, handle_GetTransactionStatus, on_echo at 1. wp_steps. cbn [fst snd].
  destruct (String.eqb _ ""); [by apply wp_reply|]. unfold on_world. wp_steps. cbn [fst snd].
  eapply wp_mono with (Q := fun _ w' => is_Some (w_event w')).
  - cbn [svc_GetTransactionStatus NewTransactionService]. unfold GetTransactionStatus. cbn [svc_redis memory_service].
    wp_steps. wp_apply logger_Set_keeps; [exact Hev|]. intros _ w1 [H1 _]. unfold load_tx_status. wp_steps.
    cbn [svc_repo memory_service GetByID memory.NewTransactionRepository]. unfold memory.GetByID. wp_steps.
    destruct (w_mem_tx w1 !! _).
    + wp_steps. cbn [svc_redis memory_service]. wp_steps. wp_apply logger_Set_keeps; [exact H1|].
      intros _ w2 [H2 _]. by wp_steps.
    + wp_steps. wp_apply logger_Set_keeps; [exact H1|]. intros _ w2 [H2 _]. by wp_steps.
  - intros [tx|er] w' Hw'; by apply wp_reply.
Qed.

Definition status_request : RefEcho := ref_request {["id" := "T1"]} (Err ErrNoRows).

Lemma RequestLogger_one_line_witness :
  wp (RequestLogger status_handler) (fun r ew' => exists c1 e2 w2 ev duration,
    let ev0 := <["path" := LStr (c_Path status_request)]>
                 (<["method" := LStr (c_Method status_request)]> NewEvent) in
    status_handler (status_request, set_event (Some ev0) (set_clock c1 ref_start)) = (r, (e2, w2)) /\
    w_event w2 = Some ev /\ fst ew' = e2 /\ same_stores w2 (snd ew') /\
    w_log (snd ew') = w_log w2 ++
      [mkLogLine "INFO" "request"
         (map_to_list (completed_event (c_Status e2) (c_RequestID e2) duration r ev))])
    (status_request, ref_start).
Proof. apply (RequestLogger_one_line status_handler status_request ref_start). exact status_handler_keeps. Defined.
