(* ===== verification/Config.v ===== *)
(** * Configuration

    internal/config: the struct, the defaults of its tags, and [Load].
    Parsing the environment is library code ([EnvParser]); a missing variable
    gives the default, or the zero value where there is none.  Durations are
    nanoseconds. *)

From S2P Require Import Prelude GoNum Float64 Domain Postgres Redis Queue World Reference TransactionService.

Record Config : Type := mkConfig {
  AppPort : Z;
  AppEnv : string;
  CacheEnabled : bool;
  QueueEnabled : bool;
  RateLimitEnabled : bool;
  RateLimitRPS : f64;
  RateLimitBurst : Z;
  CircuitBreakerEnabled : bool;
  CBMaxFailures : Z;
  CBTimeoutSeconds : Z;
  DBReadReplicaEnabled : bool;
  DBPrimaryDSN : string;
  PgBouncerDSN : string;
  PgBouncerReadDSN : string;
  RedisAddr : string;
  CacheBalanceTTL : Z;
  CacheTxStatusTTL : Z;
  QueueURL : string;
  QueueWorkers : Z;
}.

(** The configuration of an empty environment. *)
Definition default_config : Config :=
  mkConfig 8080 "development" false false false (f64_of_Z 100) 200 false 5 10 false "" "" ""
    "redis:6379" (10 * Second) (30 * Second) "" 10.

(** [var cfg Config] *)
Definition zero_config : Config :=
  mkConfig 0 "" false false false f64_zero 0 false 0 0 false "" "" "" "" 0 0 "" 0.

(** [env.Parse(&cfg)] of caarlos0/env: the struct as it leaves it, and its
    error. *)
Class EnvParser (I : Type) : Type := { env_Parse : Config -> M I (Config * option goerror) }.

(** A struct that was returned with [nil], or with an error. *)
Definition Load {I} `{EnvParser I} : M I (Config * option goerror) :=
  mbind (env_Parse zero_config) (fun parsed =>
    match snd parsed with
    | Some err => mret (fst parsed, Some err)
    | None => mret (fst parsed, None)
    end).
