(* ===== verification/Breaker.v ===== *)
(** * The circuit breaker middleware

    internal/middleware/circuit_breaker.go, over an interface for
    sony/gobreaker. *)

From S2P Require Import Prelude GoNum TxId Float64 Domain Sql Postgres Redis Queue World Reference.
From S2P Require Import Session Repository TransactionService AccountService Cache Http Handlers Config.

(** [gobreaker.State] *)
Inductive BState : Type := StateClosed | StateHalfOpen | StateOpen.

#[export] Instance BState_eq_dec : EqDecision BState.
Proof. solve_decision. Defined.

(** ** gobreaker, as an interface

    [Execute] asks the breaker whether the request may run ([cb_before]) and
    tells it afterwards whether it succeeded ([cb_after]).  Both return the
    state changes they announce to [OnStateChange], in order. *)
Class Gobreaker (B : Type) : Type := {
  (** with the [Timeout] of the settings; [MaxRequests] is 1, [Interval] 0 *)
  cb_New : Z -> B;
  cb_before : B -> result unit * B * list BState;
  (** with the [ReadyToTrip] of the settings, on [ConsecutiveFailures] *)
  cb_after : (Z -> bool) -> bool -> B -> B * list BState;

  cb_state : B -> BState;
  cb_failures : B -> Z;
}.

(** The last of the states announced, or the state before. *)
Definition announced (st : BState) (changes : list BState) : BState := fold_left (fun _ st => st) changes st.

Class GobreakerLaws (B : Type) `{Gobreaker B} : Prop := {
  cb_New_law t : cb_state (cb_New t) = StateClosed /\ cb_failures (cb_New t) = 0;
  (** a closed breaker lets every request through; an open one refuses until
      its timeout, then lets one probe through *)
  cb_before_law b :
    let '(r, b', changes) := cb_before b in
    cb_state b' = announced (cb_state b) changes /\
    (cb_state b = StateClosed -> r = Ok tt /\ cb_state b' = StateClosed /\ cb_failures b' = cb_failures b) /\
    match r with
    | Ok _ => cb_state b' <> StateOpen
    | Err e => (e = ErrOpenState /\ cb_state b' = StateOpen) \/
               (e = ErrTooManyRequests /\ cb_state b' = StateHalfOpen)
    end;
  (** a success clears the consecutive failures and closes a half-open
      breaker; a failure opens a half-open breaker, and a closed one when
      [ReadyToTrip] says so *)
  cb_after_law trip ok b :
    let '(b', changes) := cb_after trip ok b in
    cb_state b' = announced (cb_state b) changes /\
    match cb_state b with
    | StateClosed =>
        if (ok : bool) then cb_state b' = StateClosed /\ cb_failures b' = 0
        else if (trip (cb_failures b + 1) : bool) then cb_state b' = StateOpen
        else cb_state b' = StateClosed /\ cb_failures b' = cb_failures b + 1
    | StateHalfOpen => cb_state b' = if ok then StateClosed else StateOpen
    | StateOpen => True
    end;
}.

(** ** The middleware *)

(** [circuitBreakerStateValue] *)
Definition circuitBreakerStateValue (state : BState) : Z :=
  match state with StateOpen => 1 | StateHalfOpen => 2 | StateClosed => 0 end.

(** [http.StatusText] of the server errors *)
Definition StatusText (code : Z) : string :=
  if code =? 500 then "Internal Server Error"
  else if code =? 501 then "Not Implemented"
  else if code =? 502 then "Bad Gateway"
  else if code =? 503 then "Service Unavailable"
  else if code =? 504 then "Gateway Timeout"
  else if code =? 505 then "HTTP Version Not Supported"
  else if code =? 506 then "Variant Also Negotiates"
  else if code =? 507 then "Insufficient Storage"
  else if code =? 508 then "Loop Detected"
  else if code =? 510 then "Not Extended"
  else if code =? 511 then "Network Authentication Required"
  else "".

Section middleware.
Context {P R A C E B : Type} `{Echo E, Gobreaker B}.
#[local] Abbreviation World := (World P R A C).
Context (cfg : Config).
Local Open Scope go_scope.

(** The breaker, the request context and the process. *)
#[local] Abbreviation St := (B * (E * World))%type.

Definition on_breaker {X} (m : M B X) : M St X := mlift fst (fun b st => (b, snd st)) m.
Definition on_handler {X} (m : M (E * World) X) : M St X := mlift snd (fun ew st => (fst st, ew)) m.

(** [OnStateChange] *)
Definition OnStateChange (to : BState) : M World unit :=
  CircuitBreakerState_Set "api" (circuitBreakerStateValue to) ;;;
  match to with
  | StateOpen => CircuitBreakerOpen_Set 1
  | _ => CircuitBreakerOpen_Set 0
  end.

Fixpoint announce (changes : list BState) : M World unit :=
  match changes with
  | [] => mret tt
  | to :: changes => OnStateChange to ;;; announce changes
  end.

(** [ReadyToTrip], on [counts.ConsecutiveFailures] *)
Definition ReadyToTrip (ConsecutiveFailures : Z) : bool := CBMaxFailures cfg <=? ConsecutiveFailures.

(** [cb.Execute(req)] *)
Definition cb_Execute (req : HandlerFunc E World) : M St (result unit) :=
  before <- on_breaker (fun b => let '(r, b, changes) := cb_before b in ((r, changes), b)) ;;
  on_handler (on_world (announce (snd before))) ;;;
  match fst before with
  | Err e => mret (Err e)
  | Ok _ =>
      r <- on_handler req ;;
      changes <- on_breaker (fun b => let '(b, changes) := cb_after ReadyToTrip (is_ok r) b in (changes, b)) ;;
      on_handler (on_world (announce changes)) ;;;
      mret r
  end.

(** The function passed to [Execute]. *)
Definition guarded (next : HandlerFunc E World) : HandlerFunc E World :=
  try _ <- next catch (fun handlerErr => mret (Err handlerErr)) ;;
  status <- on_echo (mget c_Status) ;;
  mret (match status with
        | Some status => if 500 <=? status then Err (HTTPError status (StatusText status)) else Ok tt
        | None => Ok tt
        end).

(** Setting up the middleware: the breaker and the gauges. *)
Definition CircuitBreaker_init : M World B :=
  CircuitBreakerState_Set "api" (circuitBreakerStateValue StateClosed) ;;;
  CircuitBreakerOpen_Set 0 ;;;
  mret (cb_New (CBTimeoutSeconds cfg * Second)).

Definition CircuitBreaker (next : HandlerFunc E World) : M St (result unit) :=
  if negb (CircuitBreakerEnabled cfg) then on_handler next
  else
    cbErr <- cb_Execute (guarded next) ;;
    match cbErr with
    | Ok _ => mret (Ok tt)
    | Err e =>
        if errors_Is e ErrOpenState || errors_Is e ErrTooManyRequests
        then on_handler (on_echo (c_JSON 503 (error_body "circuit open, try again later")))
        else mret (Err e)
    end.
End middleware.

(** ** Properties *)

(** The gauges show the state [st]. *)
Definition gauges_show (st : BState) (m : Metrics) : Prop :=
  CircuitBreakerState m !! "api" = Some (circuitBreakerStateValue st) /\
  CircuitBreakerOpen m = match st with StateOpen => 1 | _ => 0 end.

Section lemmas.
Context {P R A C E B : Type} `{Echo E, Gobreaker B} `{!EchoLaws E, !GobreakerLaws B}.
#[local] Abbreviation World := (World P R A C).
#[local] Abbreviation St := (B * (E * World))%type.

(** Only the metrics differ. *)
Definition only_metrics (w w' : World) : Prop := w' = set_metrics (w_metrics w') w.

Lemma only_metrics_refl w : only_metrics w w.
Proof. by destruct w. Qed.

Lemma only_metrics_trans w1 w2 w3 : only_metrics w1 w2 -> only_metrics w2 w3 -> only_metrics w1 w3.
Proof. unfold only_metrics. intros H1 H2. by rw H2 H1. Qed.

Lemma only_metrics_stores w w' : only_metrics w w' -> same_stores w w' /\ w_log w' = w_log w.
Proof. unfold only_metrics. by intros ->. Qed.

Lemma OnStateChange_spec to (w : World) :
  wp (OnStateChange to) (fun _ w' => only_metrics w w' /\ gauges_show to (w_metrics w')) w.
Proof.
  unfold OnStateChange, CircuitBreakerState_Set, CircuitBreakerOpen_Set, on_metrics.
  destruct to; wp_steps; (split; [done|]); (split; [cbn; by rw lookup_insert_eq|done]).
Qed.

Lemma announce_spec changes st (w : World) :
  wp (announce changes) (fun _ w' => only_metrics w w' /\
    (gauges_show st (w_metrics w) -> gauges_show (announced st changes) (w_metrics w'))) w.
Proof.
  revert st w. induction changes as [|to changes IH]; intros st w; cbn [announce].
  - wp_steps. by split; [apply only_metrics_refl|].
  - wp_steps. wp_apply OnStateChange_spec. intros _ w1 [H1 Hg]. wp_apply (IH to).
    intros _ w2 [H2 Hg2]. split; [by eapply only_metrics_trans|]. intros _. by apply Hg2.
Qed.

Lemma on_announce changes st (Q : unit -> St -> Prop) b e w :
  (forall w', only_metrics w w' ->
     (gauges_show st (w_metrics w) -> gauges_show (announced st changes) (w_metrics w')) -> Q tt (b, (e, w'))) ->
  wp (on_handler (on_world (announce changes))) Q (b, (e, w)).
Proof.
  intros HQ. unfold on_handler, on_world. wp_steps. wp_apply announce_spec.
  intros [] w' [H1 H2]. by apply HQ.
Qed.

(** A request is refused, or runs between the two questions to the breaker. *)
Lemma on_execute cfg (req : HandlerFunc E World) (Q : result unit -> St -> Prop) b e w :
  (forall er b1 w1, only_metrics w w1 -> er = ErrOpenState \/ er = ErrTooManyRequests ->
     fst (fst (cb_before b)) = Err er -> cb_state b1 <> StateClosed ->
     (gauges_show (cb_state b) (w_metrics w) -> gauges_show (cb_state b1) (w_metrics w1)) ->
     Q (Err er) (b1, (e, w1))) ->
  (forall b1 w1, only_metrics w w1 -> fst (fst (cb_before b)) = Ok tt -> cb_state b1 <> StateOpen ->
     (cb_state b = StateClosed -> cb_state b1 = StateClosed /\ cb_failures b1 = cb_failures b) ->
     (gauges_show (cb_state b) (w_metrics w) -> gauges_show (cb_state b1) (w_metrics w1)) ->
     wp req (fun r ew2 => forall w3, only_metrics (snd ew2) w3 ->
       let b3 := fst (cb_after (ReadyToTrip cfg) (is_ok r) b1) in
       (gauges_show (cb_state b1) (w_metrics (snd ew2)) -> gauges_show (cb_state b3) (w_metrics w3)) ->
       Q r (b3, (fst ew2, w3))) (e, w1)) ->
  wp (cb_Execute cfg req) Q (b, (e, w)).
Proof.
  intros Hrej Hrun. unfold cb_Execute, on_breaker. wp_steps. unfold wp at 1. cbn [fst snd].
  pose proof (cb_before_law b) as Hb. destruct (cb_before b) as [[r b1] ch].
  destruct Hb as (Hst & Hclosed & Hr). wp_steps. apply (on_announce _ (cb_state b)).
  intros w1 Hm Hg. rw -Hst in Hg. destruct r as [[]|er]; cbn [fst snd] in *.
  - wp_steps. unfold on_handler at 1. wp_steps. cbn [fst snd]. eapply wp_mono.
    { apply (Hrun b1 w1); try done. intros Hc. destruct (Hclosed Hc) as (_ & ? & ?). done. }
    intros r [e2 w2] HQ. wp_steps. unfold wp at 1. cbn [fst snd].
    pose proof (cb_after_law (ReadyToTrip cfg) (is_ok r) b1) as Ha.
    destruct (cb_after (ReadyToTrip cfg) (is_ok r) b1) as [b3 ch3]. destruct Ha as [Hst3 _].
    wp_steps. apply (on_announce _ (cb_state b1)). intros w3 Hm3 Hg3. wp_steps. rw -Hst3 in Hg3.
    by apply (HQ w3 Hm3 Hg3).
  - wp_steps. apply Hrej; try done; destruct Hr as [[-> Hs]|[-> Hs]]; auto; by rw Hs.
Qed.
End lemmas.

(** ** A reference breaker

    [rb_expired] says, for each request that meets the open breaker, whether
    the timeout has passed. *)
Record RefBreaker : Type := mkRefBreaker {
  rb_state : BState;
  rb_failures : Z;
  rb_probes : Z;
  rb_expired : list bool;
}.

#[export] Instance RefBreaker_breaker : Gobreaker RefBreaker := {
  cb_New := fun _ => mkRefBreaker StateClosed 0 0 [];
  cb_before := fun b =>
    match rb_state b with
    | StateClosed => (Ok tt, b, [])
    | StateOpen =>
        match rb_expired b with
        | true :: l => (Ok tt, mkRefBreaker StateHalfOpen 0 1 l, [StateHalfOpen])
        | l => (Err ErrOpenState, mkRefBreaker StateOpen 0 0 (tail l), [])
        end
    | StateHalfOpen =>
        if rb_probes b <? 1 then (Ok tt, mkRefBreaker StateHalfOpen 0 (rb_probes b + 1) (rb_expired b), [])
        else (Err ErrTooManyRequests, b, [])
    end;
  cb_after := fun trip ok b =>
    match rb_state b with
    | StateClosed =>
        if ok then (mkRefBreaker StateClosed 0 0 (rb_expired b), [])
        else if trip (rb_failures b + 1) then (mkRefBreaker StateOpen 0 0 (rb_expired b), [StateOpen])
        else (mkRefBreaker StateClosed (rb_failures b + 1) 0 (rb_expired b), [])
    | StateHalfOpen =>
        if ok then (mkRefBreaker StateClosed 0 0 (rb_expired b), [StateClosed])
        else (mkRefBreaker StateOpen 0 0 (rb_expired b), [StateOpen])
    | StateOpen => (b, [])
    end;
  cb_state := rb_state;
  cb_failures := rb_failures;
}.

#[export] Instance RefBreaker_laws : GobreakerLaws RefBreaker.
Proof.
  split.
  - done.
  - intros [[] f p ex]; cbn; try done.
    + destruct (p <? 1); cbn; split_and!; try done; auto.
    + destruct ex as [|[] ex]; cbn; split_and!; try done; auto.
  - intros trip ok [[] f p ex]; cbn; try done.
    + destruct ok; [done|]. by destruct (trip (f + 1)).
    + by destruct ok.
Qed.

(** The handler leaves the gauges of the breaker alone. *)
Definition keeps_gauges {E P R A C} (next : HandlerFunc E (World P R A C)) : Prop :=
  forall ew st, gauges_show st (w_metrics (snd ew)) ->
    wp next (fun _ ew' => gauges_show st (w_metrics (snd ew'))) ew.

(** The request fails: an error, or a response with a 5xx status. *)
Definition failed_response {E} `{Echo E} (r : result unit) (e : E) : Prop :=
  is_ok r = false \/ exists status, c_Status e = Some status /\ 500 <= status.
Definition failing {E W} `{Echo E} (next : HandlerFunc E W) : Prop :=
  forall ew, wp next (fun r ew' => failed_response r (fst ew')) ew.

Lemma guarded_spec {E P R A C} `{Echo E} (next : HandlerFunc E (World P R A C)) ew (Q : result unit -> E * World P R A C -> Prop) :
  wp next (fun r ew' => forall r', (is_ok r' = false <-> failed_response r (fst ew')) -> Q r' ew') ew ->
  wp (guarded next) Q ew.
Proof.
  intros HQ. unfold guarded. wp_steps. eapply wp_mono; [exact HQ|]. intros [[]|er] ew' Hr'; wp_steps.
  - unfold on_echo. wp_steps. destruct ew' as [e' w']. cbn [fst snd] in *. apply Hr'. unfold failed_response.
    destruct (c_Status e') as [st|]; [destruct (Z.leb_spec 500 st)|]; split; try done.
    + intros _. right. by exists st.
    + intros [?|(st' & [= ->] & ?)]; [done|lia].
    + by intros [?|(st' & ? & ?)].
  - apply Hr'. split; [|done]. by left.
Qed.

(** The gauges of the circuit breaker always show its state: setting up
    the middleware makes them so, and every request keeps them so, whatever
    the handler answers and whatever the breaker decides. *)
Theorem breaker_gauges {P R A C E B} `{Echo E, Gobreaker B, !EchoLaws E, !GobreakerLaws B}
    cfg (next : HandlerFunc E (World P R A C)) :
  (forall w : World P R A C, wp (CircuitBreaker_init (B := B) cfg)
     (fun b w' => gauges_show (cb_state b) (w_metrics w')) w) /\
  (keeps_gauges next -> forall b e w, gauges_show (cb_state b) (w_metrics w) ->
     wp (CircuitBreaker cfg next) (fun _ st =>
       gauges_show (cb_state (fst st)) (w_metrics (snd (snd st)))) (b, (e, w))).
Proof.
  split.
  - intros w. unfold CircuitBreaker_init, CircuitBreakerState_Set, CircuitBreakerOpen_Set, on_metrics.
    wp_steps. destruct (cb_New_law (CBTimeoutSeconds cfg * Second)) as [-> _]. split; [|done].
    cbn. by rw lookup_insert_eq.
  - intros Hk b e w Hg. unfold CircuitBreaker. destruct (CircuitBreakerEnabled cfg); cbn [negb].
    2: { unfold on_handler. wp_steps. cbn [fst snd]. by apply Hk. }
    wp_steps. apply on_execute.
    + intros er b1 w1 _ Her _ _ Hg1. assert (errors_Is er ErrOpenState || errors_Is er ErrTooManyRequests = true) as ->.
      { by destruct Her as [->| ->]. }
      unfold on_handler. wp_steps. apply wp_reply. intros r e' _. by apply Hg1.
    + intros b1 w1 _ _ _ _ Hg1. apply guarded_spec. wp_apply Hk; [by apply Hg1|].
      intros r [e2 w2] Hg2 r' _ w3 _ b3 Hg3. cbn [fst snd] in *. specialize (Hg3 Hg2).
      destruct r' as [[]|er]; wp_steps; [exact Hg3|].
      destruct (errors_Is er ErrOpenState || errors_Is er ErrTooManyRequests); [|by wp_steps].
      unfold on_handler. wp_steps. apply wp_reply. intros r0 e' _. exact Hg3.
Qed.

(** The middleware enabled, with the default limits. *)
Definition breaker_config : Config :=
  mkConfig 8080 "development" false false false (f64_of_Z 100) 200 true 5 10 false "" "" ""
    "redis:6379" (10 * Second) (30 * Second) "" 10.

(** A handler that fails. *)
Definition failing_handler : HandlerFunc RefEcho RefWorld := mret (Err (ErrorString "boom")).

Lemma breaker_gauges_witness :
  (forall w : RefWorld, wp (CircuitBreaker_init (B := RefBreaker) breaker_config)
     (fun b w' => gauges_show (cb_state b) (w_metrics w')) w) /\
  (keeps_gauges failing_handler -> forall b e w, gauges_show (cb_state b) (w_metrics w) ->
     wp (CircuitBreaker (B := RefBreaker) breaker_config failing_handler) (fun _ st =>
       gauges_show (cb_state (fst st)) (w_metrics (snd (snd st)))) (b, (e, w))).
Proof. apply (breaker_gauges breaker_config failing_handler). Defined.

Lemma refused_spec {P R A C E B} `{Echo E, Gobreaker B, !EchoLaws E, !GobreakerLaws B}
    cfg (next : HandlerFunc E (World P R A C)) b e (w : World P R A C) er :
  CircuitBreakerEnabled cfg = true -> fst (fst (cb_before b)) = Err er ->
  wp (CircuitBreaker cfg next) (fun r st =>
    replied 503 (error_body "circuit open, try again later") e r (fst (snd st)) /\
    same_stores w (snd (snd st)) /\ w_log (snd (snd st)) = w_log w /\
    cb_state (fst st) <> StateClosed) (b, (e, w)).
Proof.
  intros Hen Hb. unfold CircuitBreaker. rw Hen. cbn [negb]. wp_steps. apply on_execute.
  - intros er' b1 w1 Hm Her _ Hst _.
    assert (errors_Is er' ErrOpenState || errors_Is er' ErrTooManyRequests = true) as -> by (by destruct Her as [->| ->]).
    unfold on_handler. wp_steps. apply wp_reply. intros r e' Hr. cbn [fst snd] in *.
    by destruct (only_metrics_stores _ _ Hm).
  - intros b1 w1 _ Hb'. by rw Hb in Hb'.
Qed.

(** A request the breaker refuses is answered 503 without calling the
    handler: whatever the handler is, the stores, the broker and the log are
    untouched, and only the gauges may move. *)
Theorem open_circuit_rejects {P R A C E B} `{Echo E, Gobreaker B, !EchoLaws E, !GobreakerLaws B}
    cfg (next : HandlerFunc E (World P R A C)) b e (w : World P R A C) er :
  CircuitBreakerEnabled cfg = true -> fst (fst (cb_before b)) = Err er ->
  wp (CircuitBreaker cfg next) (fun r st =>
    replied 503 (error_body "circuit open, try again later") e r (fst (snd st)) /\
    same_stores w (snd (snd st)) /\ w_log (snd (snd st)) = w_log w /\
    cb_state (fst st) <> StateClosed) (b, (e, w)).
Proof. apply refused_spec. Qed.

Definition open_breaker : RefBreaker := mkRefBreaker StateOpen 0 0 [].

Lemma open_circuit_rejects_witness :
  wp (CircuitBreaker breaker_config failing_handler) (fun r st =>
    replied 503 (error_body "circuit open, try again later") ref_post r (fst (snd st)) /\
    same_stores ref_start (snd (snd st)) /\ w_log (snd (snd st)) = w_log ref_start /\
    cb_state (fst st) <> StateClosed) (open_breaker, (ref_post, ref_start)).
Proof.
  apply (open_circuit_rejects breaker_config failing_handler open_breaker ref_post ref_start ErrOpenState).
  - reflexivity.
  - reflexivity.
Defined.

(** The requests that arrive, one after the other. *)
Fixpoint requests {P R A C E B} `{Echo E, Gobreaker B} (cfg : Config)
    (nexts : list (HandlerFunc E (World P R A C))) : M (B * (E * World P R A C)) unit :=
  match nexts with
  | [] => mret tt
  | next :: nexts => mbind (CircuitBreaker cfg next) (fun _ => requests cfg nexts)
  end.

(** One request on a closed breaker. *)
Lemma closed_request {P R A C E B} `{Echo E, Gobreaker B, !EchoLaws E, !GobreakerLaws B}
    cfg (next : HandlerFunc E (World P R A C)) b e (w : World P R A C) :
  CircuitBreakerEnabled cfg = true -> cb_state b = StateClosed -> failing next ->
  wp (CircuitBreaker cfg next) (fun _ st =>
    if CBMaxFailures cfg <=? cb_failures b + 1 then cb_state (fst st) = StateOpen
    else cb_state (fst st) = StateClosed /\ cb_failures (fst st) = cb_failures b + 1) (b, (e, w)).
Proof.
  intros Hen Hc Hf. unfold CircuitBreaker. rw Hen. cbn [negb]. wp_steps. apply on_execute.
  - intros er b1 w1 _ _ Hb _ _. pose proof (cb_before_law b) as Hl.
    destruct (cb_before b) as [[r b'] ch]. destruct Hl as (_ & Hl & _). destruct (Hl Hc) as [-> _]. done.
  - intros b1 w1 _ _ _ Hb1 _. destruct (Hb1 Hc) as [Hc1 Hk]. apply guarded_spec. wp_apply Hf.
    intros r [e2 w2] Hfail r' Hr' w3 _ b3 _. cbn [fst snd] in *.
    assert (if CBMaxFailures cfg <=? cb_failures b + 1 then cb_state b3 = StateOpen
      else cb_state b3 = StateClosed /\ cb_failures b3 = cb_failures b + 1) as Hgoal.
    { pose proof (cb_after_law (ReadyToTrip cfg) (is_ok r') b1) as Ha. subst b3.
      destruct (cb_after (ReadyToTrip cfg) (is_ok r') b1) as [b3 ch3]. destruct Ha as [_ Ha].
      rw Hc1 (proj2 Hr' Hfail) Hk in Ha. exact Ha. }
    destruct r' as [[]|er]; wp_steps; [exact Hgoal|].
    destruct (errors_Is er ErrOpenState || errors_Is er ErrTooManyRequests); [|by wp_steps].
    unfold on_handler. wp_steps. by apply wp_reply.
Qed.

(** C31: the breaker opens at the [CBMaxFailures]-th consecutive failure and
    not before: from a closed breaker with [k] consecutive failures, [n]
    failing requests leave it closed with [k + n] failures while [k + n] is
    below [CBMaxFailures], and open when [k + n] reaches it. *)
Theorem breaker_trips {P R A C E B} `{Echo E, Gobreaker B, !EchoLaws E, !GobreakerLaws B}
    cfg (nexts : list (HandlerFunc E (World P R A C))) b e (w : World P R A C) :
  CircuitBreakerEnabled cfg = true -> cb_state b = StateClosed -> cb_failures b < CBMaxFailures cfg ->
  Forall failing nexts -> cb_failures b + Z.of_nat (length nexts) <= CBMaxFailures cfg ->
  wp (requests cfg nexts) (fun _ st =>
    if cb_failures b + Z.of_nat (length nexts) =? CBMaxFailures cfg then cb_state (fst st) = StateOpen
    else cb_state (fst st) = StateClosed /\ cb_failures (fst st) = cb_failures b + Z.of_nat (length nexts))
    (b, (e, w)).
Proof.
  intros Hen. revert b e w. induction nexts as [|next nexts IH]; intros b e w Hc Hlt Hall Hle;
    cbn [requests length] in *; wp_steps.
  - destruct (Z.eqb_spec (cb_failures b + Z.of_nat 0) (CBMaxFailures cfg)); [lia|]. split; [done|lia].
  - inversion_clear Hall as [|?? Hf Hrest]. wp_apply closed_request; [done..|].
    intros _ [b1 [e1 w1]] H1. cbn [fst snd] in H1.
    destruct (Z.leb_spec (CBMaxFailures cfg) (cb_failures b + 1)) as [Hmax|Hmax].
    + destruct nexts; [|cbn in Hle; lia]. wp_steps. cbn [requests]. wp_steps.
      cbn [length] in *. destruct (Z.eqb_spec (cb_failures b + Z.of_nat 1) (CBMaxFailures cfg)) as [_|Hne]; [exact H1|lia].
    + destruct H1 as [Hc1 Hk1]. wp_apply (IH b1 e1 w1); [done|lia|done|lia|].
      intros [] st. rw Hk1. replace (cb_failures b + 1 + Z.of_nat (length nexts))
        with (cb_failures b + Z.of_nat (S (length nexts))) by lia. done.
Qed.

Definition new_breaker : RefBreaker := cb_New (10 * Second).

Lemma breaker_trips_witness :
  let nexts := replicate 5 failing_handler in
  wp (requests breaker_config nexts) (fun _ st =>
    if cb_failures new_breaker + Z.of_nat (length nexts) =? CBMaxFailures breaker_config
    then cb_state (fst st) = StateOpen
    else cb_state (fst st) = StateClosed /\
         cb_failures (fst st) = cb_failures new_breaker + Z.of_nat (length nexts))
    (new_breaker, (ref_post, ref_start)).
Proof.
  apply (breaker_trips breaker_config (replicate 5 failing_handler) new_breaker ref_post ref_start).
  - reflexivity.
  - reflexivity.
  - vm_compute. reflexivity.
  - repeat (constructor; [by left|]). constructor.
  - vm_compute. discriminate.
Defined.

(** A client that asks five times for more money than the account holds. *)
Definition greedy_client : RefEcho :=
  ref_request {["id" := "1002"]} (Ok (mkRequest 1001 1002 (f64_of_Z 1000000))).
Definition post_handler : HandlerFunc RefEcho RefWorld :=
  handle_CreateTransaction (NewTransactionService (ref_service false false)).
Definition balance_handler : HandlerFunc RefEcho RefWorld := handle_GetBalance (NewAccountService ref_accounts).

(** The breaker counts every error a handler returns, not only 5xx
    responses: five requests refused with 422 for want of funds open it, and
    the next client, who asks for a balance, gets 503. *)
Theorem business_errors_open_circuit :
  let st := snd (requests breaker_config (replicate 5 post_handler) (new_breaker, (greedy_client, ref_start))) in
  c_sent (fst (snd st)) = [] /\ cb_state (fst st) = StateOpen /\
  c_sent (fst (snd (snd (CircuitBreaker breaker_config balance_handler st))))
    = [(503, error_body "circuit open, try again later")] /\
  fst (post_handler (greedy_client, ref_start)) = Err (HTTPError 422 "insufficient funds").
Proof. by vm_compute. Qed.
