(* ===== verification/Resources.v ===== *)
(** * The runtime collector

    internal/metrics/resources.go: the memory limit read from the environment
    or the cgroup files, the process CPU time, and the gauges that the
    collector sets once at its start and then at every tick. *)

From S2P Require Import Prelude GoNum Float64 Domain Postgres Redis Queue World Reference TransactionService.

(** ** Arithmetic on [float64] *)
Definition f64_add (x y : f64) : f64 := SFadd 53 1024 x y.
Definition f64_sub (x y : f64) : f64 := SFsub 53 1024 x y.
Definition f64_div (x y : f64) : f64 := SFdiv 53 1024 x y.

Definition f64_is_zero (x : f64) : bool := match x with S754_zero _ => true | _ => false end.

(** [math.Max] *)
Definition math_Max (x y : f64) : f64 :=
  match x, y with
  | S754_infinity false, _ | _, S754_infinity false => S754_infinity false
  | S754_nan, _ | _, S754_nan => S754_nan
  | S754_zero sx, S754_zero _ => if sx then y else x
  | _, _ => if f64_ltb y x then x else y
  end.

(** ** The memory limit *)
Definition fallbackMemoryLimitBytes : Z := 512 * 1024 * 1024.

Definition parsePositiveUint (raw : string) : Z :=
  match raw with
  | EmptyString => 0
  | _ => match ParseUint raw with Ok value => value | Err _ => 0 end
  end.

Definition cgroup_paths : list string :=
  ["/sys/fs/cgroup/memory.max"; "/sys/fs/cgroup/memory/memory.limit_in_bytes"].

(** The loop over the cgroup files, with [os.ReadFile]. *)
Fixpoint cgroup_limit (readFile : string -> result string) (paths : list string) : option Z :=
  match paths with
  | [] => None
  | path :: paths =>
      match readFile path with
      | Err _ => cgroup_limit readFile paths
      | Ok data =>
          let raw := TrimSpace data in
          if String.eqb raw "max" then cgroup_limit readFile paths
          else
            let limit := parsePositiveUint raw in
            if (0 <? limit) && (limit <? 2 ^ 60) then Some limit else cgroup_limit readFile paths
      end
  end.

(** With [os.Getenv] and [os.ReadFile]. *)
Definition detectMemoryLimitBytes (getenv : string -> string) (readFile : string -> result string) : Z :=
  let limit := parsePositiveUint (getenv "APP_MEMORY_LIMIT_BYTES") in
  if 0 <? limit then limit
  else match cgroup_limit readFile cgroup_paths with
       | Some limit => limit
       | None => fallbackMemoryLimitBytes
       end.

(** ** The collector *)

(** [syscall.Rusage]: user and system time, seconds and microseconds. *)
Record Rusage : Type := mkRusage { Utime_Sec : Z; Utime_Usec : Z; Stime_Sec : Z; Stime_Usec : Z }.

(** The operating system and the Go runtime. *)
Class Runtime (S : Type) : Type := {
  rt_clock :: Clock S;
  rt_Getrusage : M S (result Rusage);
  rt_Sys : M S Z;           (* runtime.MemStats.Sys *)
  rt_GOMAXPROCS : M S Z;
  rt_Getenv : string -> S -> string;
  rt_ReadFile : string -> S -> result string;
}.

(** The gauges of the collector. *)
Record Gauges : Type := mkGauges {
  AppCPUUtilizationRatio : f64;
  AppMemoryUsageBytes : f64;
  AppMemoryLimitBytes : f64;
  AppMemoryUtilizationRatio : f64;
}.
Definition no_gauges : Gauges := mkGauges f64_zero f64_zero f64_zero f64_zero.

(** The variables captured by [collect]; [None] is the zero [time.Time]. *)
Record Collector : Type := mkCollector {
  lastCPUSeconds : f64;
  lastWall : option Z;
  gauges : Gauges;
}.
Definition collector_init : Collector := mkCollector f64_zero None no_gauges.

(** [t.Sub(u)] saturates; [d.Seconds()] *)
Definition time_Sub (t u : Z) : Z := Z.max min_int64 (Z.min max_int64 (t - u)).
Definition Seconds (d : Z) : f64 :=
  f64_add (f64_of_Z (Z.quot d Second)) (f64_div (f64_of_Z (Z.rem d Second)) (f64_of_Z 1000000000)).

Inductive tick_event : Type := TickDone | Tick.

Section collector.
Context {S : Type} `{Runtime S}.
Local Open Scope go_scope.

(** The system, with the collector. *)
#[local] Abbreviation St := (S * Collector)%type.
Definition on_runtime {B} (m : M S B) : M St B := mlift fst (fun s st => (s, snd st)) m.
Definition set_collector (f : Collector -> Collector) : M St unit := mput (fun st => (fst st, f (snd st))).
Definition set_gauges (f : Gauges -> Gauges) : M St unit :=
  set_collector (fun c => mkCollector (lastCPUSeconds c) (lastWall c) (f (gauges c))).

Definition processCPUSeconds : M S (f64 * bool) :=
  usage <- rt_Getrusage ;;
  match usage with
  | Err _ => mret (f64_zero, false)
  | Ok u =>
      let user := f64_add (f64_of_Z (Utime_Sec u)) (f64_div (f64_of_Z (Utime_Usec u)) (f64_of_Z 1000000)) in
      let system := f64_add (f64_of_Z (Stime_Sec u)) (f64_div (f64_of_Z (Stime_Usec u)) (f64_of_Z 1000000)) in
      mret (f64_add user system, true)
  end.

(** The CPU part of [collect]. *)
Definition collect_cpu (now : Z) (cpuSeconds : f64) : M St unit :=
  c <- mget snd ;;
  match lastWall c with
  | None => mret tt
  | Some last =>
      let wallSeconds := Seconds (time_Sub now last) in
      if f64_ltb f64_zero wallSeconds then
        procs <- on_runtime rt_GOMAXPROCS ;;
        let cpuRatio := f64_div (f64_div (f64_sub cpuSeconds (lastCPUSeconds c)) wallSeconds) (f64_of_Z procs) in
        set_gauges (fun g => mkGauges (math_Max f64_zero cpuRatio) (AppMemoryUsageBytes g)
          (AppMemoryLimitBytes g) (AppMemoryUtilizationRatio g))
      else mret tt
  end.

Definition collect (memoryLimit : Z) : M St unit :=
  now <- on_runtime clock_now ;;
  cpu <- on_runtime processCPUSeconds ;;
  (if snd cpu then
     collect_cpu now (fst cpu) ;;;
     set_collector (fun c => mkCollector (fst cpu) (Some now) (gauges c))
   else mret tt) ;;;
  sys <- on_runtime rt_Sys ;;
  let usage := f64_of_Z sys in
  set_gauges (fun g => mkGauges (AppCPUUtilizationRatio g) usage (AppMemoryLimitBytes g)
    (f64_div usage (f64_of_Z memoryLimit))).

(** The loop over the ticker and the context. *)
Fixpoint collector_loop (memoryLimit : Z) (events : list tick_event) : M St unit :=
  match events with
  | [] => mret tt
  | TickDone :: _ => mret tt
  | Tick :: events => collect memoryLimit ;;; collector_loop memoryLimit events
  end.

Definition StartRuntimeCollector (events : list tick_event) : M St unit :=
  memoryLimit <- mget (fun st => detectMemoryLimitBytes (fun k => rt_Getenv k (fst st))
                                   (fun p => rt_ReadFile p (fst st))) ;;
  set_gauges (fun g => mkGauges (AppCPUUtilizationRatio g) (AppMemoryUsageBytes g) (f64_of_Z memoryLimit)
    (AppMemoryUtilizationRatio g)) ;;;
  collect memoryLimit ;;;
  collector_loop memoryLimit events.

(** The interval of the ticker. *)
Definition collector_interval (interval : Z) : Z := if interval <=? 0 then 5 * Second else interval.
End collector.

(** ** Properties *)

Lemma parsePositiveUint_range raw : 0 <= parsePositiveUint raw <= max_uint64.
Proof.
  unfold parsePositiveUint. destruct raw as [|c raw]; [by compute|].
  destruct (ParseUint (String c raw)) as [v|e] eqn:Hp; [by apply ParseUint_range in Hp|by compute].
Qed.

Lemma cgroup_limit_Some readFile paths limit :
  cgroup_limit readFile paths = Some limit ->
  exists path data, path ∈ paths /\ readFile path = Ok data /\ TrimSpace data <> "max" /\
    parsePositiveUint (TrimSpace data) = limit /\ 0 < limit < 2 ^ 60.
Proof.
  induction paths as [|path paths IH]; [done|]. cbn [cgroup_limit]. intros Hl.
  assert (cgroup_limit readFile paths = Some limit -> exists path' data, path' ∈ path :: paths /\
    readFile path' = Ok data /\ TrimSpace data <> "max" /\
    parsePositiveUint (TrimSpace data) = limit /\ 0 < limit < 2 ^ 60) as Hrest.
  { intros (p & d & Hp & Hd)%IH. exists p, d. split; [by apply elem_of_cons; right|done]. }
  destruct (readFile path) as [data|e] eqn:Hr; [|by apply Hrest].
  destruct (String.eqb_spec (TrimSpace data) "max") as [_|Hmax]; [by apply Hrest|].
  destruct (andb _ _) eqn:Hb; [|by apply Hrest]. apply andb_prop in Hb as [H1 H2].
  injection Hl as <-. exists path, data. split_and!; try done; [by apply elem_of_cons; left|lia|lia].
Qed.

(** The memory limit used as a divisor is always positive and a uint64.
    A positive APP_MEMORY_LIMIT_BYTES wins; otherwise the limit is the one of
    a cgroup file that does not say "max" and is below 2^60, or 512 MiB. *)
Theorem memory_limit_cases getenv readFile :
  let env := parsePositiveUint (getenv "APP_MEMORY_LIMIT_BYTES") in
  let limit := detectMemoryLimitBytes getenv readFile in
  0 < limit <= max_uint64 /\
  (0 < env -> limit = env) /\
  (env = 0 -> limit = fallbackMemoryLimitBytes \/
     exists path data, path ∈ cgroup_paths /\ readFile path = Ok data /\ TrimSpace data <> "max" /\
       parsePositiveUint (TrimSpace data) = limit /\ limit < 2 ^ 60).
Proof.
  intros env limit. subst limit. unfold detectMemoryLimitBytes. fold env.
  assert (0 <= env <= max_uint64) as Henv by apply parsePositiveUint_range.
  destruct (Z.ltb_spec 0 env) as [Hpos|Hneg]; [split; [lia|]; split; [done|lia]|].
  destruct (cgroup_limit readFile cgroup_paths) as [limit|] eqn:Hl.
  - apply cgroup_limit_Some in Hl as (path & data & Hp & Hr & Hm & Hv & Hb).
    assert (2 ^ 60 <= max_uint64) by (by compute). split; [lia|]. split; [lia|]. intros _. right.
    exists path, data. split_and!; done || apply Hb.
  - split; [by compute|]. split; [lia|]. intros _. by left.
Qed.

(** A container whose second cgroup file holds the limit. *)
Example memory_limit_example :
  detectMemoryLimitBytes (fun _ => "lots") (fun path =>
    if String.eqb path "/sys/fs/cgroup/memory.max" then Ok ("max" +:+ bytes_string [10%nat])
    else Ok ("1073741824" +:+ bytes_string [10%nat])) = 1073741824.
Proof. by vm_compute. Qed.

Section lemmas.
Context {S : Type} `{Runtime S}.

Lemma math_Max_nonneg x : f64_ltb (math_Max f64_zero x) f64_zero = false.
Proof.
  unfold math_Max, f64_zero.
  by destruct x as [[]|[]| |[] m e].
Qed.

Definition cpu_nonneg (c : Collector) : Prop := f64_ltb (AppCPUUtilizationRatio (gauges c)) f64_zero = false.

Lemma collect_cpu_spec now cpu (st : S * Collector) :
  cpu_nonneg (snd st) ->
  wp (collect_cpu now cpu) (fun _ st' => cpu_nonneg (snd st') /\
    AppMemoryLimitBytes (gauges (snd st')) = AppMemoryLimitBytes (gauges (snd st))) st.
Proof.
  intros Hc. unfold collect_cpu. wp_steps. destruct (lastWall (snd st)); [|by wp_steps].
  destruct (f64_ltb f64_zero _); [|by wp_steps]. unfold on_runtime, set_gauges, set_collector. wp_steps.
  apply wp_of. intros procs s _. wp_steps. split; [|done]. apply math_Max_nonneg.
Qed.

Lemma collect_spec limit (st : S * Collector) :
  cpu_nonneg (snd st) ->
  wp (collect limit) (fun _ st' => cpu_nonneg (snd st') /\
    AppMemoryLimitBytes (gauges (snd st')) = AppMemoryLimitBytes (gauges (snd st))) st.
Proof.
  intros Hc. unfold collect, on_runtime, set_gauges, set_collector. wp_steps. apply wp_of. intros now s1 _.
  wp_steps. apply wp_of. intros [cpu ok] s2 _. wp_steps. cbn [fst snd].
  destruct ok; wp_steps.
  - wp_apply collect_cpu_spec; [exact Hc|]. intros _ st1 [H1 L1]. wp_steps. cbn [fst snd] in *.
    apply wp_of. intros sys s3 _. by wp_steps.
  - apply wp_of. intros sys s3 _. by wp_steps.
Qed.

Lemma collector_loop_spec limit events (st : S * Collector) :
  cpu_nonneg (snd st) ->
  wp (collector_loop limit events) (fun _ st' => cpu_nonneg (snd st') /\
    AppMemoryLimitBytes (gauges (snd st')) = AppMemoryLimitBytes (gauges (snd st))) st.
Proof.
  revert st. induction events as [|[] events IH]; intros st Hc; cbn; try by wp_steps.
  wp_steps. wp_apply collect_spec; [exact Hc|]. intros _ st1 [H1 L1]. wp_apply IH; [exact H1|].
  intros _ st2 [H2 L2]. by rw L2.
Qed.
End lemmas.

(** Whatever the clock, the kernel and the runtime report, and however
    many ticks come, the CPU gauge is never negative and the limit gauge shows
    the detected limit. *)
Theorem collector_gauges {S} `{Runtime S} events (s : S) :
  wp (StartRuntimeCollector events) (fun _ st' =>
    f64_ltb (AppCPUUtilizationRatio (gauges (snd st'))) f64_zero = false /\
    AppMemoryLimitBytes (gauges (snd st')) =
      f64_of_Z (detectMemoryLimitBytes (fun k => rt_Getenv k s) (fun p => rt_ReadFile p s)))
    (s, collector_init).
Proof.
  unfold StartRuntimeCollector, set_gauges, set_collector. wp_steps. cbn [fst snd].
  wp_apply collect_spec; [done|]. intros _ st1 [H1 L1]. wp_apply collector_loop_spec; [exact H1|].
  intros _ st2 [H2 L2]. split; [exact H2|]. by rw L2 L1.
Qed.
