(* ===== verification/Seeds.v ===== *)
(** * The seeding command

    cmd/seeds/main.go: [seedAccounts] and [seedTransactions], over an
    interface for the random source and for [COPY].  A failed [COPY] ends the
    command ([log.Fatalf]). *)

From S2P Require Import Prelude GoNum TxId Float64 Domain Sql Postgres Redis Queue World Reference.
From S2P Require Import TransactionService Resources.

Definition numAccounts : Z := 100000.
Definition numTransactions : Z := 1000000.
Definition txBatchSize : Z := 10000.
Definition startAccountID : Z := 1001.

Definition statuses : list string :=
  ["completed"; "completed"; "completed"; "completed"; "completed"; "completed"; "completed"; "completed";
   "pending"; "pending"; "pending"; "failed"].

(** [time.Hour] *)
Definition Hour : Z := 3600 * Second.

Definition f64_mul (x y : f64) : f64 := SFmul 53 1024 x y.

(** The rows given to [CopyFrom]. *)
Record AccountSeed : Type := mkAccountSeed {
  seed_id : Z; seed_name : string; seed_balance : f64; seed_updated : Z }.
Record TxSeed : Type := mkTxSeed {
  seed_tx_id : string; seed_src : Z; seed_dst : Z; seed_amount : f64; seed_status : string; seed_created : Z }.

(** [math/rand], the clock, and [conn.CopyFrom] (rows inserted, or an error
    and none). *)
Class SeedEnv (S : Type) : Type := {
  seed_clock :: Clock S;
  rand_Intn : Z -> M S Z;
  rand_Float64 : M S f64;
  copy_accounts : list AccountSeed -> M S (result Z);
  copy_transactions : list TxSeed -> M S (result Z);

  (** the rows copied so far *)
  copied_accounts : S -> list AccountSeed;
  copied_transactions : S -> list TxSeed;
}.

Class SeedLaws (S : Type) `{SeedEnv S} : Prop := {
  seed_clock_law s : wp clock_now (fun _ s' => copied_accounts s' = copied_accounts s /\
    copied_transactions s' = copied_transactions s) s;
  rand_Intn_law n s : 0 < n -> wp (rand_Intn n) (fun k s' => 0 <= k < n /\
    copied_accounts s' = copied_accounts s /\ copied_transactions s' = copied_transactions s) s;
  rand_Float64_law s : wp rand_Float64 (fun _ s' =>
    copied_accounts s' = copied_accounts s /\ copied_transactions s' = copied_transactions s) s;
  copy_accounts_law rows s : wp (copy_accounts rows) (fun r s' =>
    copied_transactions s' = copied_transactions s /\
    match r with
    | Ok n => n = Z.of_nat (length rows) /\ copied_accounts s' = copied_accounts s ++ rows
    | Err _ => copied_accounts s' = copied_accounts s
    end) s;
  copy_transactions_law rows s : wp (copy_transactions rows) (fun r s' =>
    copied_accounts s' = copied_accounts s /\
    match r with
    | Ok n => n = Z.of_nat (length rows) /\ copied_transactions s' = copied_transactions s ++ rows
    | Err _ => copied_transactions s' = copied_transactions s
    end) s;
}.

Section seeds.
Context {Env : Type} `{SeedEnv Env}.
Local Open Scope go_scope.

(** [for i := range n { rows[i] = row(first + i) }] *)
Fixpoint build_rows {T} (row : Z -> M Env T) (first : Z) (n : nat) : M Env (list T) :=
  match n with
  | O => mret []
  | S n =>
      r <- row first ;;
      rs <- build_rows row (first + 1) n ;;
      mret (r :: rs)
  end.

Definition account_row (i : Z) : M Env AccountSeed :=
  let id := startAccountID + i in
  x <- rand_Float64 ;;
  now <- clock_now ;;
  mret (mkAccountSeed id ("User " +:+ Sprintf_d id)
          (f64_add (f64_of_Z 100000) (f64_mul x (f64_of_Z (50000000 - 100000)))) now).

Definition seedAccounts : M Env (result Z) :=
  rows <- build_rows account_row 0 (Z.to_nat numAccounts) ;;
  copy_accounts rows.

(** The row of transaction [idx]; [dstID] skips [srcID]. *)
Definition transaction_row (now idx : Z) : M Env TxSeed :=
  r1 <- rand_Intn numAccounts ;;
  let srcID := startAccountID + r1 in
  r2 <- rand_Intn (numAccounts - 1) ;;
  let dstID := startAccountID + r2 in
  let dstID := if srcID <=? dstID then dstID + 1 else dstID in
  hours <- rand_Intn (30 * 24) ;;
  let createdAt := now + - hours * Hour in
  x <- rand_Float64 ;;
  k <- rand_Intn (Z.of_nat (length statuses)) ;;
  mret (mkTxSeed (format_id idx) srcID dstID
          (f64_add (f64_of_Z 1000) (f64_mul x (f64_of_Z (1000000 - 1000))))
          (nth (Z.to_nat k) statuses "") createdAt).

(** The loop over the batches, [fuel] of them at most. *)
Fixpoint seed_batches (fuel : nat) (total batch now batchStart totalInserted : Z) : M Env (result Z) :=
  match fuel with
  | O => mret (Ok totalInserted)
  | S fuel =>
      if batchStart <? total then
        let batchEnd := Z.min (batchStart + batch) total in
        rows <- build_rows (transaction_row now) batchStart (Z.to_nat (batchEnd - batchStart)) ;;
        try n <- copy_transactions rows catch (fun e => mret (Err e)) ;;
        seed_batches fuel total batch now (batchStart + batch) (totalInserted + n)
      else mret (Ok totalInserted)
  end.

(** One round for each batch, and one to leave the loop. *)
Definition seedTransactions : M Env (result Z) :=
  now <- clock_now ;;
  seed_batches (Z.to_nat (numTransactions / txBatchSize + 1)) numTransactions txBatchSize now 0 0.

(** [main], from the two calls on. *)
Definition seed_main : M Env (result Z) :=
  try _ <- seedAccounts catch (fun e => mret (Err e)) ;;
  seedTransactions.
End seeds.

(** ** Properties *)

(** What a seeded transaction looks like. *)
Definition good_row (idx : Z) (r : TxSeed) : Prop :=
  seed_tx_id r = format_id idx /\
  startAccountID <= seed_src r < startAccountID + numAccounts /\
  startAccountID <= seed_dst r < startAccountID + numAccounts /\
  seed_src r <> seed_dst r /\
  seed_status r ∈ [StatusCompleted; StatusPending; StatusFailed].

Section lemmas.
Context {Env : Type} `{SeedEnv Env} `{!SeedLaws Env}.

(** Nothing was copied. *)
Definition copied_same (s s' : Env) : Prop :=
  copied_accounts s' = copied_accounts s /\ copied_transactions s' = copied_transactions s.

Lemma copied_same_trans s1 s2 s3 : copied_same s1 s2 -> copied_same s2 s3 -> copied_same s1 s3.
Proof. unfold copied_same. intuition congruence. Qed.

Lemma build_rows_spec {T} (row : Z -> M Env T) (Q : Z -> T -> Prop) first n s :
  (forall i s, wp (row i) (fun r s' => Q i r /\ copied_same s s') s) ->
  wp (build_rows row first n) (fun rs s' =>
    Forall2 Q (seqZ first (Z.of_nat n)) rs /\ copied_same s s') s.
Proof.
  intros Hrow. revert first s. induction n as [|n IH]; intros first s; cbn [build_rows].
  - wp_steps. by split; [constructor|].
  - wp_steps. wp_apply Hrow. intros r s1 [Hr H1]. wp_steps. wp_apply IH. intros rs s2 [Hrs H2]. wp_steps.
    split; [|by eapply copied_same_trans]. rw seqZ_cons; [lia|].
    replace (Z.pred (Z.of_nat (S n))) with (Z.of_nat n) by lia. by constructor.
Qed.

Lemma status_row k : 0 <= k < Z.of_nat (length statuses) ->
  nth (Z.to_nat k) statuses "" ∈ [StatusCompleted; StatusPending; StatusFailed].
Proof.
  intros Hk. cbn in Hk.
  assert (k = 0 \/ k = 1 \/ k = 2 \/ k = 3 \/ k = 4 \/ k = 5 \/ k = 6 \/ k = 7 \/ k = 8 \/ k = 9 \/ k = 10 \/ k = 11)
    as Hcases by lia.
  rw !elem_of_cons. naive_solver.
Qed.

Lemma transaction_row_spec now idx s :
  wp (transaction_row now idx) (fun r s' => good_row idx r /\ copied_same s s') s.
Proof.
  unfold transaction_row. wp_steps. wp_apply rand_Intn_law; [by compute|]. intros r1 s1 [H1 C1]. wp_steps.
  wp_apply rand_Intn_law; [by compute|]. intros r2 s2 [H2 C2]. wp_steps.
  wp_apply rand_Intn_law; [lia|]. intros hours s3 [_ C3]. wp_steps.
  wp_apply rand_Float64_law. intros x s4 C4. wp_steps.
  wp_apply rand_Intn_law; [by compute|]. intros k s5 [Hk C5]. wp_steps. unfold good_row, numAccounts in *. cbn.
  split; [|unfold copied_same; intuition congruence].
  split; [done|]. split; [lia|]. destruct (Z.leb_spec (startAccountID + r1) (startAccountID + r2));
    (split; [lia|]); (split; [lia|]); by apply status_row.
Qed.

Lemma seed_batches_spec fuel total batch now start ins s :
  0 < batch -> 0 <= start ->
  wp (seed_batches fuel total batch now start ins) (fun r s' => exists m rows,
    0 <= m /\ start + m <= Z.max start total /\
    Forall2 good_row (seqZ start m) rows /\
    copied_accounts s' = copied_accounts s /\
    copied_transactions s' = copied_transactions s ++ rows /\
    match r with
    | Ok n => n = ins + m /\ (total - start <= Z.of_nat fuel * batch -> start + m = Z.max start total)
    | Err _ => True
    end) s.
Proof.
  intros Hb. revert start ins s. induction fuel as [|fuel IH]; intros start ins s Hs; cbn [seed_batches].
  - wp_steps. exists 0, []. rw app_nil_r. split_and!; try done; try lia.
  - destruct (Z.ltb_spec start total).
    2: { wp_steps. exists 0, []. rw app_nil_r. split_and!; try done; try lia. }
    wp_steps. set (bend := Z.min (start + batch) total).
    wp_apply (build_rows_spec _ good_row); [intros; apply transaction_row_spec|].
    intros rows s1 [Hrows [A1 T1]]. wp_steps. wp_apply copy_transactions_law.
    rw Z2Nat.id in Hrows; [unfold bend; lia|]. pose proof Hrows as Hlen%Forall2_length.
    rw length_seqZ in Hlen. intros [n|e] s2 [A2 T2]; wp_steps.
    + destruct T2 as [-> T2]. wp_apply IH; [lia|].
      intros r s3 (m & rows' & Hm & Hle & Hrows' & A3 & T3 & Hr).
      destruct (Z.leb_spec total (start + batch)) as [Hlast|Hmore].
      * assert (m = 0) as -> by lia. exists (bend - start), rows.
        rw seqZ_nil in Hrows'; [lia|]. apply Forall2_nil_inv_l in Hrows' as ->. rw app_nil_r in T3.
        split_and!; [unfold bend; lia|unfold bend; lia|done|congruence|congruence|].
        destruct r; [|done]. destruct Hr as [-> _]. split; [|unfold bend; lia].
        rw -Hlen. lia.
      * exists (batch + m), (rows ++ rows'). assert (bend = start + batch) as Hbe by (unfold bend; lia).
        split_and!; [lia|lia| |congruence| |].
        -- rw (seqZ_app start batch m); [lia|lia|]. apply Forall2_app; [|done]. rw Hbe in Hrows.
           by replace (start + batch - start) with batch in Hrows by lia.
        -- rw T3 T2 T1. by rw app_assoc.
        -- destruct r as [n|]; [|done]. destruct Hr as [-> Hfuel]. split; [lia|].
           intros Hf. assert (start + batch + m = Z.max (start + batch) total); [|lia]. apply Hfuel. lia.
    + exists 0, []. rw app_nil_r. split_and!; try done; try lia; try congruence.
Qed.
End lemmas.

Lemma seeded_ids rows start m :
  Forall2 good_row (seqZ start m) rows -> map seed_tx_id rows = map format_id (seqZ start m).
Proof. induction 1 as [|i r ix rs Hr _ IH]; cbn; [done|]. destruct Hr as [-> _]. by rw IH. Qed.

Lemma good_rows_all rows start m :
  Forall2 good_row (seqZ start m) rows -> Forall (fun r => exists idx, good_row idx r) rows.
Proof. induction 1; constructor; eauto. Qed.

(** The accounts as [seedAccounts] writes them. *)
Definition good_account (i : Z) (r : AccountSeed) : Prop :=
  seed_id r = startAccountID + i /\ seed_name r = "User " +:+ Sprintf_d (startAccountID + i).

Lemma seedAccounts_spec {Env} `{SeedEnv Env, !SeedLaws Env} (s : Env) :
  wp seedAccounts (fun r s' => copied_transactions s' = copied_transactions s /\
    match r with
    | Ok n => exists rows, Forall2 good_account (seqZ 0 numAccounts) rows /\
        copied_accounts s' = copied_accounts s ++ rows
    | Err _ => copied_accounts s' = copied_accounts s
    end) s.
Proof.
  unfold seedAccounts. wp_steps. wp_apply (build_rows_spec _ good_account).
  - intros i s1. unfold account_row. wp_steps. wp_apply rand_Float64_law. intros x s2 C2. wp_steps.
    wp_apply seed_clock_law. intros now s3 C3. wp_steps. split; [done|]. unfold copied_same. intuition congruence.
  - intros rows s1 [Hrows [A1 T1]]. rw Z2Nat.id in Hrows; [done|]. wp_apply copy_accounts_law.
    intros [n|e] s2 [T2 A2]; (split; [congruence|]); [|congruence]. destruct A2 as [_ A2].
    exists rows. split; [exact Hrows|]. by rw A2 A1.
Qed.

Lemma seed_main_spec {Env} `{SeedEnv Env, !SeedLaws Env} (s : Env) :
  wp seed_main (fun r s' => exists accs m txs,
    copied_accounts s' = copied_accounts s ++ accs /\
    copied_transactions s' = copied_transactions s ++ txs /\
    (accs = [] \/ Forall2 good_account (seqZ 0 numAccounts) accs) /\
    Forall2 good_row (seqZ 0 m) txs /\ m <= numTransactions /\
    NoDup (map seed_tx_id txs) /\
    (forall n, numTransactions <= n -> format_id n ∉ map seed_tx_id txs) /\
    (forall n, r = Ok n -> n = numTransactions /\ m = numTransactions)) s.
Proof.
  unfold seed_main. wp_steps. wp_apply seedAccounts_spec. intros [na|e] s1 [T1 A1].
  2: { wp_steps. exists [], 0, []. rw !app_nil_r. rw (seqZ_nil 0 0); [lia|]. split_and!; try done; [by left|apply NoDup_nil_2|].
       intros n _. apply not_elem_of_nil. }
  destruct A1 as (accs & Haccs & A1). unfold seedTransactions. wp_steps. wp_apply seed_clock_law.
  intros now s2 [A2 T2]. wp_apply seed_batches_spec; [done|done|].
  intros r s3 (m & rows & Hm & Hle & Hrows & A3 & T3 & Hr). exists accs, m, rows.
  assert (forall l, (forall i, i ∈ l -> 0 <= i) -> NoDup l -> NoDup (map format_id l)) as Hnodup.
  { intros l Hl Hnd. apply (NoDup_fmap_2_strong format_id); [|done]. intros x y Hx%Hl Hy%Hl. by apply format_id_inj. }
  assert (forall i, i ∈ seqZ 0 m -> 0 <= i < m) as Hin by (intros i Hi%elem_of_seqZ; lia).
  assert (Z.max 0 numTransactions = numTransactions) as Hmax by done.
  split_and!; try congruence; [by right|lia| | |].
  - rw (seeded_ids _ _ _ Hrows). apply Hnodup; [|apply NoDup_seqZ]. intros i Hi%Hin. lia.
  - intros n Hn. rw (seeded_ids _ _ _ Hrows). intros (i & Heq & Hi%Hin)%list_elem_of_fmap.
    apply format_id_inj in Heq; lia.
  - intros n ->. destruct Hr as [-> Hf].
    assert (0 + m = Z.max 0 numTransactions) as E by (apply Hf; by compute). lia.
Qed.

(** C35: seeding is correct.  The accounts are 1001, 1002, ..., 101000, each
    once.  Of the transactions a whole prefix is copied, whatever fails:
    number [i] has the identifier txn and [i] in 22 digits, moves money
    between two different seeded accounts, and has one of the three statuses;
    no identifier occurs twice, and none is one that the running service
    generates from a clock past the first millisecond of 1970.  If the command
    succeeds, exactly a million transactions were copied. *)
Theorem seed_main_correct {Env} `{SeedEnv Env, !SeedLaws Env} (s : Env) :
  wp seed_main (fun r s' => exists accs m txs,
    copied_accounts s' = copied_accounts s ++ accs /\
    copied_transactions s' = copied_transactions s ++ txs /\
    (accs = [] \/ Forall2 good_account (seqZ 0 numAccounts) accs) /\
    Forall2 good_row (seqZ 0 m) txs /\ m <= numTransactions /\
    NoDup (map seed_tx_id txs) /\
    (forall n, numTransactions <= n -> format_id n ∉ map seed_tx_id txs) /\
    (forall n, r = Ok n -> n = numTransactions /\ m = numTransactions)) s.
Proof. apply seed_main_spec. Qed.

(** A reference environment: a congruential generator, and a number of
    copies after which the connection fails. *)
Record RefSeed : Type := mkRefSeed {
  rs_next : Z;
  rs_left : nat;
  rs_accounts : list AccountSeed;
  rs_txs : list TxSeed;
}.

Definition rs_draw (s : RefSeed) : RefSeed :=
  mkRefSeed ((rs_next s * 6364136223846793005 + 1442695040888963407) mod 2 ^ 64) (rs_left s)
    (rs_accounts s) (rs_txs s).

#[export] Instance RefSeed_env : SeedEnv RefSeed := {
  seed_clock := {| clock_now := fun s => (rs_next s, rs_draw s) |};
  rand_Intn := fun n s => (rs_next s mod n, rs_draw s);
  rand_Float64 := fun s => (f64_of_frac (rs_next s) (2 ^ 64), rs_draw s);
  copy_accounts := fun rows s =>
    match rs_left s with
    | O => (Err ErrConn, s)
    | S k => (Ok (Z.of_nat (length rows)), mkRefSeed (rs_next s) k (rs_accounts s ++ rows) (rs_txs s))
    end;
  copy_transactions := fun rows s =>
    match rs_left s with
    | O => (Err ErrConn, s)
    | S k => (Ok (Z.of_nat (length rows)), mkRefSeed (rs_next s) k (rs_accounts s) (rs_txs s ++ rows))
    end;
  copied_accounts := rs_accounts;
  copied_transactions := rs_txs;
}.

#[export] Instance RefSeed_laws : SeedLaws RefSeed.
Proof.
  split.
  - done.
  - intros n s Hn. rw /wp /=. split; [by apply Z.mod_pos_bound|done].
  - done.
  - intros rows s. rw /wp /=. by destruct (rs_left s).
  - intros rows s. rw /wp /=. by destruct (rs_left s).
Qed.

Definition ref_seed : RefSeed := mkRefSeed 42 200 [] [].

Lemma seed_main_correct_witness :
  wp seed_main (fun r s' => exists accs m txs,
    copied_accounts s' = copied_accounts ref_seed ++ accs /\
    copied_transactions s' = copied_transactions ref_seed ++ txs /\
    (accs = [] \/ Forall2 good_account (seqZ 0 numAccounts) accs) /\
    Forall2 good_row (seqZ 0 m) txs /\ m <= numTransactions /\
    NoDup (map seed_tx_id txs) /\
    (forall n, numTransactions <= n -> format_id n ∉ map seed_tx_id txs) /\
    (forall n, r = Ok n -> n = numTransactions /\ m = numTransactions)) ref_seed.
Proof. apply (seed_main_correct ref_seed). Defined.
