(* ===== verification/Worker.v ===== *)
(** * The queue worker

    internal/worker/transaction.go: [process] handles one delivery, [settle]
    executes the transfer, a goroutine of [Start] handles deliveries until
    its context ends or the delivery channel is closed. *)

From S2P Require Import Prelude GoNum TxId Float64 Domain Sql Postgres Transfer Redis Queue.
From S2P Require Import World Session Repository Reference TransactionService.

(** [amqp.Delivery]: the body, and the channel and tag it is acknowledged
    with. *)
Record Delivery : Type := mkDelivery {
  d_body : string;
  d_chan : nat;
  d_tag : Z;
}.

(** [type Worker struct]: whether the redis pointer is non-nil, and the
    repository (the database and the queue are always set). *)
Record Worker (W : Type) : Type := mkWorker {
  wk_redis : bool;
  wk_repo : TxRepository W;
}.
Arguments mkWorker {W}.
Arguments wk_redis {W}.
Arguments wk_repo {W}.

(** What the [select] of a goroutine receives. *)
Inductive event : Type :=
| CtxDone
| ChannelClosed
| Deliver (d : Delivery).

Section worker.
Context {P R A C : Type} `{PgDriver P, RedisServer R, AmqpLib A}.
Context `{JSON TxMessage}.
#[local] Abbreviation World := (World P R A C).
Context (wk : Worker World).
Local Open Scope go_scope.

(** [msg.Ack(false)], [msg.Nack(false, false)] *)
Definition Ack (d : Delivery) : M World (result unit) :=
  on_amqp (chan_send (d_chan d) (FAck (d_tag d) false)).
Definition Nack (d : Delivery) : M World (result unit) :=
  on_amqp (chan_send (d_chan d) (FNack (d_tag d) false false)).

Definition worker_invalidateBalanceCache (accountIDs : list Z) : M World unit :=
  if negb (wk_redis wk) then mret tt
  else on_redis (rd_del (map balance_key accountIDs)) ;;; mret tt.

Definition invalidateTxStatusCache (txID : string) : M World unit :=
  if negb (wk_redis wk) then mret tt
  else on_redis (rd_del [tx_status_key txID]) ;;; mret tt.

Definition err_no_source (id : Z) : goerror :=
  ErrorString ("source account " +:+ Sprintf_d id +:+ " not found").
Definition err_insufficient (balance amount : f64) : goerror :=
  ErrorString ("insufficient funds: balance " +:+ Sprintf_2f balance +:+ " < amount " +:+
               Sprintf_2f amount).

(** The statements between [BeginTxx] and the deferred [Rollback]. *)
Definition settle_body (payload : TxMessage) : M World (result unit) :=
  row <- on_pg (pg_select_balance (msg_source payload)) ;;
  match scan_balance row with
  | Err e =>
      if errors_Is e ErrNoRows then mret (Err (err_no_source (msg_source payload)))
      else mret (Err (Wrapped "query source account" e))
  | Ok balance =>
      if f64_ltb balance (msg_amount payload)
      then mret (Err (err_insufficient balance (msg_amount payload)))
      else
        try _ <- on_pg (pg_tx_exec (Debit (msg_amount payload) (msg_source payload)))
          catch (fun e => mret (Err (Wrapped "debit source" e))) ;;
        try _ <- on_pg (pg_tx_exec (Credit (msg_amount payload) (msg_dest payload)))
          catch (fun e => mret (Err (Wrapped "credit dest" e))) ;;
        try _ <- on_pg (pg_tx_exec (MarkCompleted (msg_tx_id payload)))
          catch (fun e => mret (Err (Wrapped "update transaction status" e))) ;;
        on_pg pg_commit
  end.

Definition settle (payload : TxMessage) : M World (result unit) :=
  try _ <- on_pg pg_begin catch (fun e => mret (Err (Wrapped "begin transaction" e))) ;;
  r <- settle_body payload ;;
  on_pg pg_rollback ;;;
  mret r.

(** The end of [process], for a transaction not known to be completed. *)
Definition process_settle (msg : Delivery) (payload : TxMessage) : M World unit :=
  settled <- settle payload ;;
  match settled with
  | Err e =>
      L_Error "worker: failed to settle transaction"
        [("tx_id", LStr (msg_tx_id payload)); ("error", LErr e)] ;;;
      UpdateStatus (wk_repo wk) (msg_tx_id payload) StatusFailed ;;;
      Nack msg ;;;
      mret tt
  | Ok _ =>
      worker_invalidateBalanceCache [msg_source payload; msg_dest payload] ;;;
      invalidateTxStatusCache (msg_tx_id payload) ;;;
      Ack msg ;;;
      mret tt
  end.

Definition process (msg : Delivery) : M World unit :=
  match json_Unmarshal (d_body msg) with
  | Err e =>
      L_Error "worker: bad message payload" [("error", LErr e)] ;;;
      Nack msg ;;;
      mret tt
  | Ok payload =>
      existing <- GetByID (wk_repo wk) (msg_tx_id payload) ;;
      let completed := match existing with
                       | Ok tx => String.eqb (TxStatus tx) StatusCompleted
                       | Err _ => false
                       end in
      if (completed : bool) then
        L_Info "worker: transaction already completed, skipping"
          [("tx_id", LStr (msg_tx_id payload))] ;;;
        Ack msg ;;;
        mret tt
      else process_settle msg payload
  end.

(** One goroutine of [Start], over what its [select] receives. *)
Fixpoint goroutine (events : list event) : M World unit :=
  match events with
  | [] => mret tt
  | CtxDone :: _ => mret tt
  | ChannelClosed :: _ => mret tt
  | Deliver msg :: events => process msg ;;; goroutine events
  end.
End worker.

(** ** The settlement as a transfer *)
Section settle.
Context {P R A C : Type} `{PgDriver P} `{!PgLaws P}.
#[local] Abbreviation World := (World P R A C).

Definition settle_applied (p : TxMessage) (tb tb' : Tables) : Prop :=
  funds_checked (msg_amount p) (msg_source p) tb /\
  sql_steps (transfer_statements (msg_amount p) (msg_source p) (msg_dest p)
    [MarkCompleted (msg_tx_id p)]) tb tb'.

(** Every outcome of [settle]: an error leaves the tables alone, unless it
    is the error of a commit that went through. *)
Definition settle_outcome (p : TxMessage) (tb : Tables) (r : result unit) (tb' : Tables) : Prop :=
  match r with
  | Ok _ => settle_applied p tb tb'
  | Err e => (tb' = tb \/ settle_applied p tb tb') /\ (commit_definite P -> tb' = tb)
  end.

Lemma settle_body_spec payload tb (w : World) :
  in_tx tb tb (w_pg w) ->
  wp (settle_body payload) (fun r w' =>
    (exists p, w' = set_pg p w) /\ settle_outcome payload tb r (pg_committed (w_pg w'))) w.
Proof.
  intros Hin. unfold settle_body. wp_steps.
  assert (forall p e, pg_committed p = tb -> (exists p', set_pg p w = set_pg p' w) /\
    settle_outcome payload tb (Err e) (pg_committed (w_pg (set_pg p w)))) as Hlib.
  { intros p e <-. split; [eauto|by split; [left|]]. }
  apply (on_select_balance _ tb tb); [done| |]; cbn [scan_balance].
  2: { intros p e Hc He. destruct (foreign_not e He) as (_ & _ & ->). wp_steps. by apply Hlib. }
  intros p1 I1. destruct (balance_of (msg_source payload) tb) as [cents|] eqn:Hb;
    cbn [scan_balance errors_Is]; [|wp_steps; apply Hlib, I1].
  destruct (f64_ltb (scan_numeric cents) (msg_amount payload)) eqn:Hfunds; [wp_steps; apply Hlib, I1|].
  wp_steps. apply (on_tx_exec _ tb tb); [done| |intros; wp_steps; by apply Hlib].
  intros p3 tb3 I3 S3. wp_steps.
  apply (on_tx_exec _ tb tb3); [done| |intros; wp_steps; by apply Hlib]. intros p4 tb4 I4 S4. wp_steps.
  apply (on_tx_exec _ tb tb4); [done| |intros; wp_steps; by apply Hlib]. intros p5 tb5 I5 S5. wp_steps.
  assert (settle_applied payload tb tb5) as Happ.
  { split; [by exists cents|]. apply (sql_steps_snoc [_; _] _ _ tb4); [|done].
    apply (sql_steps_snoc [_] _ _ tb3); [|done]. by apply sql_steps_one. }
  apply (on_commit tb tb5); [done| |].
  - intros p6 I6. split; [by exists p6|]. cbn. by rw I6.
  - intros p6 e [Hp|Hp] Hdef _; [by apply Hlib|]. split; [by exists p6|]. cbn. rw Hp. rw Hp in Hdef.
    split; [by right|done].
Qed.

Lemma settle_spec payload (w : World) :
  wp (settle payload) (fun r w' =>
    (exists p, w' = set_pg p w) /\
    settle_outcome payload (pg_committed (w_pg w)) r (pg_committed (w_pg w'))) w.
Proof.
  unfold settle. wp_steps. apply on_begin.
  - intros p Hin. wp_steps. wp_apply settle_body_spec; [exact Hin|].
    intros r w1 [[p1 ->] Hr]. wp_steps. apply on_rollback. intros r2 p2 Hp. wp_steps.
    split; [by exists p2|]. cbn in *. by rw Hp.
  - intros p e Hc He. wp_steps. split; [by exists p|]. cbn. rw Hc. by split; [left|].
Qed.
End settle.

(** ** What [process] does with a delivery *)

Section process.
Context {P R A C : Type} `{PgDriver P, RedisServer R, AmqpLib A} `{!PgLaws P, !AmqpLaws A}.
Context `{JSON TxMessage}.
#[local] Abbreviation World := (World P R A C).

(** The worker of cmd/server/main.go: the repository on the primary pool,
    reading from [h]. *)
Definition pg_worker (redis : bool) (h : option DB) : Worker World :=
  mkWorker redis (postgres.NewTransactionRepository Primary h).
Definition read_handle (h : option DB) : DB := default Primary h.

(** The repository may not know that the transaction is completed: the
    tables it reads do not say so, or its reads can fail. *)
Definition not_known_completed (h : DB) (id : string) (tv : Tables) : Prop :=
  reads_definite P h -> forall r, transactions tv !! id = Some r -> row_status r <> StatusCompleted.

(** The world after [GetByID] of the repository that reads from [h]. *)
Definition looked (h : DB) (id : string) (w : World) : World := set_pg (snd (pg_get_tx h id (w_pg w))) w.

(** The cache after the [Del]s that follow a settlement. *)
Definition invalidated (redis : bool) (p : TxMessage) (r : R) : R :=
  if redis
  then snd (rd_del [tx_status_key (msg_tx_id p)] (snd (rd_del (map balance_key [msg_source p; msg_dest p]) r)))
  else r.

(** The broker after [f] was sent on the channel of the delivery. *)
Definition answer (msg : Delivery) (f : frame) (a : A) : A := snd (chan_send (d_chan msg) f a).

(** [process_case redis h msg w w' f]: what [process] does with a delivery,
    and the frame [f] it answers with: the database and the cache that it
    leaves, down to the operations that led there. *)
Inductive process_case (redis : bool) (h : DB) (msg : Delivery) (w w' : World) : frame -> Prop :=
(** an unreadable message: nothing but the rejection *)
| outcome_bad_payload e :
    json_Unmarshal (T := TxMessage) (d_body msg) = Err e ->
    w_pg w' = w_pg w -> w_redis w' = w_redis w ->
    process_case redis h msg w w' (FNack (d_tag msg) false false)
(** the repository reads the transaction as completed *)
| outcome_already_completed payload r :
    json_Unmarshal (d_body msg) = Ok payload ->
    transactions (pg_view h (w_pg w)) !! msg_tx_id payload = Some r -> row_status r = StatusCompleted ->
    w_pg w' = w_pg (looked h (msg_tx_id payload) w) -> w_redis w' = w_redis w ->
    process_case redis h msg w w' (FAck (d_tag msg) false)
(** [settle] succeeds, and the cache is invalidated *)
| outcome_settled payload w1 :
    json_Unmarshal (d_body msg) = Ok payload ->
    not_known_completed h (msg_tx_id payload) (pg_view h (w_pg w)) ->
    settle payload (looked h (msg_tx_id payload) w) = (Ok tt, w1) ->
    settle_applied payload (pg_committed (w_pg w)) (pg_committed (w_pg w')) ->
    w_pg w' = w_pg w1 -> w_redis w' = invalidated redis payload (w_redis w) ->
    process_case redis h msg w w' (FAck (d_tag msg) false)
(** [settle] fails, and the failure is written *)
| outcome_failed payload e w1 :
    json_Unmarshal (d_body msg) = Ok payload ->
    not_known_completed h (msg_tx_id payload) (pg_view h (w_pg w)) ->
    settle payload (looked h (msg_tx_id payload) w) = (Err e, w1) ->
    settle_outcome payload (pg_committed (w_pg w)) (Err e) (pg_committed (w_pg w1)) ->
    w_pg w' = snd (pg_exec (UpdateTxStatus StatusFailed (msg_tx_id payload)) (w_pg w1)) ->
    w_redis w' = w_redis w ->
    process_case redis h msg w w' (FNack (d_tag msg) false false).

(** The same on the level of the tables.  [delivery_effect h msg tv tb tb' f]:
    with the repository reading the tables [tv] on [h], the committed tables
    go from [tb] to [tb'] and the delivery is answered with [f]; the failure
    mark may be lost. *)
Inductive delivery_effect (h : DB) (msg : Delivery) (tv tb : Tables) : Tables -> frame -> Prop :=
| case_bad_payload e :
    json_Unmarshal (T := TxMessage) (d_body msg) = Err e ->
    delivery_effect h msg tv tb tb (FNack (d_tag msg) false false)
| case_already_completed payload r :
    json_Unmarshal (d_body msg) = Ok payload ->
    transactions tv !! msg_tx_id payload = Some r -> row_status r = StatusCompleted ->
    delivery_effect h msg tv tb tb (FAck (d_tag msg) false)
| case_settled payload tb' :
    json_Unmarshal (d_body msg) = Ok payload -> not_known_completed h (msg_tx_id payload) tv ->
    settle_applied payload tb tb' ->
    delivery_effect h msg tv tb tb' (FAck (d_tag msg) false)
| case_failed payload tb1 tb' :
    json_Unmarshal (d_body msg) = Ok payload -> not_known_completed h (msg_tx_id payload) tv ->
    tb1 = tb \/ settle_applied payload tb tb1 -> (commit_definite P -> tb1 = tb) ->
    tb' = tb1 \/ sql_step (UpdateTxStatus StatusFailed (msg_tx_id payload)) tb1 tb' ->
    delivery_effect h msg tv tb tb' (FNack (d_tag msg) false false).

(** The frames sent: the answer, if the channel accepted it. *)
Definition answered (msg : Delivery) (f : frame) (a a' : A) : Prop :=
  amqp_trace a' = amqp_trace a ++ [(d_chan msg, f)] \/ amqp_trace a' = amqp_trace a.

Lemma answer_answered msg f a : answered msg f a (answer msg f a).
Proof.
  unfold answer. pose proof (chan_send_law (d_chan msg) f a) as Hl. unfold wp in Hl.
  destruct (chan_send (d_chan msg) f a) as [[u|e] a']; [by left|]. destruct Hl; [by right|by left].
Qed.

Lemma process_case_effect redis h msg (w w' : World) f : process_case redis h msg w w' f ->
  delivery_effect h msg (pg_view h (w_pg w)) (pg_committed (w_pg w)) (pg_committed (w_pg w')) f.
Proof.
  intros [e He Hp _|p r Hj Hr Hst Hp _|p w1 Hj Hn _ Happ _ _|p e w1 Hj Hn _ [Ho Hdef] Hp _].
  - rw Hp. by eapply case_bad_payload.
  - assert (pg_committed (w_pg w') = pg_committed (w_pg w)) as ->; [|by eapply case_already_completed].
    rw Hp. cbn. pose proof (pg_get_tx_law h (msg_tx_id p) (w_pg w)) as Hl. unfold wp in Hl.
    destruct (pg_get_tx h (msg_tx_id p) (w_pg w)) as [row p1]. apply Hl.
  - by eapply case_settled.
  - eapply (case_failed _ _ _ _ _ (pg_committed (w_pg w1))); [exact Hj|exact Hn|exact Ho|exact Hdef|].
    pose proof (pg_exec_law (UpdateTxStatus StatusFailed (msg_tx_id p)) (w_pg w1)) as Hl. unfold wp in Hl.
    rw Hp. destruct (pg_exec _ _) as [[u|e'] p']; cbn; [by right|exact Hl].
Qed.

Lemma wp_answer msg f (Q : World -> Prop) w :
  Q (set_amqp (answer msg f (w_amqp w)) w) ->
  wp (on_amqp (chan_send (d_chan msg) f)) (fun _ => wp (mret tt) (fun _ w' => Q w')) w.
Proof.
  intros HQ. unfold on_amqp, answer in *. unfold wp, mlift, mret. by destruct (chan_send _ _ _).
Qed.

Lemma wp_log lvl (Q : World -> Prop) w :
  (forall l, Q (set_log l w)) -> wp (log_write lvl) (fun _ w' => Q w') w.
Proof. intros HQ. unfold log_write. by wp_steps. Qed.

Lemma wp_redis_del (redis : bool) ks (w : World) Q :
  Q tt (set_redis (if redis then snd (rd_del ks (w_redis w)) else w_redis w) w) ->
  wp (if negb redis then mret tt else mbind (on_redis (rd_del ks)) (fun _ => mret tt)) Q w.
Proof.
  intros HQ. destruct redis; cbn in *; [|by destruct w]. unfold on_redis, wp, mbind, mlift, mret.
  by destruct (rd_del ks (w_redis w)).
Qed.

Lemma process_settle_spec redis h msg payload (w : World) :
  json_Unmarshal (d_body msg) = Ok payload ->
  not_known_completed (read_handle h) (msg_tx_id payload) (pg_view (read_handle h) (w_pg w)) ->
  pg_committed (w_pg (looked (read_handle h) (msg_tx_id payload) w)) = pg_committed (w_pg w) ->
  wp (process_settle (pg_worker redis h) msg payload) (fun _ w' => exists f,
    process_case redis (read_handle h) msg w w' f /\ w_amqp w' = answer msg f (w_amqp w))
    (looked (read_handle h) (msg_tx_id payload) w).
Proof.
  intros Hj Hn Hlook. unfold process_settle, Ack, Nack, L_Error. wp_steps.
  pose proof (settle_spec payload (looked (read_handle h) (msg_tx_id payload) w)) as Hs. unfold wp in Hs.
  unfold wp at 1. destruct (settle payload _) as [r w1] eqn:Hrun. destruct Hs as [[p1 ->] Hr]. rw Hlook in Hr.
  destruct r as [[]|e].
  - wp_steps. apply wp_redis_del. wp_steps. apply wp_redis_del. wp_steps. apply wp_answer.
    eexists. split; [|by cbn]. eapply outcome_settled; [exact Hj|exact Hn|exact Hrun|exact Hr|done|].
    unfold invalidated. cbn. by destruct redis.
  - wp_steps. apply wp_log. intros l. wp_steps.
    cbn [wk_repo pg_worker UpdateStatus postgres.NewTransactionRepository].
    unfold postgres.UpdateStatus, on_pg. wp_steps. unfold wp at 1. cbn [w_pg set_log set_pg].
    destruct (pg_exec (UpdateTxStatus StatusFailed (msg_tx_id payload)) p1) as [r p2] eqn:Hu.
    wp_steps. apply wp_answer. eexists. split; [|by cbn].
    eapply outcome_failed; [exact Hj|exact Hn|exact Hrun|exact Hr| |done]. cbn. by rw Hu.
Qed.

Lemma process_exact redis h msg (w : World) :
  wp (process (pg_worker redis h) msg) (fun _ w' => exists f,
    process_case redis (read_handle h) msg w w' f /\ w_amqp w' = answer msg f (w_amqp w)) w.
Proof.
  unfold process, Ack, Nack, L_Error, L_Info.
  destruct (json_Unmarshal (d_body msg)) as [payload|e] eqn:Hj.
  2: { wp_steps. apply wp_log. intros l. wp_steps. apply wp_answer. eexists.
       split; [by eapply outcome_bad_payload|done]. }
  wp_steps. cbn [wk_repo pg_worker GetByID postgres.NewTransactionRepository].
  unfold postgres.GetByID, on_pg. wp_steps.
  assert (postgres.replica (postgres.new_pools Primary h) = read_handle h) as -> by (by destruct h).
  assert (reads_definite P (read_handle h) -> _) as Hdef
    by exact (fun Hd => Hd (msg_tx_id payload) (w_pg w)).
  unfold wp at 1. unfold wp at 1 in Hdef.
  pose proof (pg_get_tx_law (read_handle h) (msg_tx_id payload) (w_pg w)) as Hlaw. unfold wp at 1 in Hlaw.
  pose proof (process_settle_spec redis h msg payload w Hj) as Hs. unfold looked in Hs. cbn [w_pg set_pg] in Hs.
  destruct (pg_get_tx (read_handle h) (msg_tx_id payload) (w_pg w)) as [row p] eqn:Hg. cbn [snd] in Hs.
  destruct Hlaw as [Hc Hrow]. specialize (fun Hn => Hs Hn Hc).
  destruct row as [[r|]|e]; wp_steps.
  2: { apply Hs. intros _ r'. by rw -Hrow. }
  2: { apply Hs. intros Hd. by specialize (Hdef Hd). }
  destruct (String.eqb_spec (TxStatus (scan_tx (msg_tx_id payload) r)) StatusCompleted) as [Hst|Hst].
  2: { apply Hs. intros _ r'. rw -Hrow. by intros [= <-]. }
  wp_steps. apply wp_log. intros l. wp_steps. apply wp_answer. eexists. split; [|done].
  eapply outcome_already_completed; [exact Hj|by rw -Hrow|exact Hst| |done]. cbn. by rw Hg.
Qed.

Lemma process_spec redis h msg (w : World) :
  wp (process (pg_worker redis h) msg) (fun _ w' => exists f,
    delivery_effect (read_handle h) msg (pg_view (read_handle h) (w_pg w)) (pg_committed (w_pg w))
      (pg_committed (w_pg w')) f /\
    answered msg f (w_amqp w) (w_amqp w')) w.
Proof.
  wp_apply process_exact. intros _ w' (f & Hc & ->). exists f.
  split; [by eapply process_case_effect|apply answer_answered].
Qed.
End process.
