(* ===== verification/Settlement.v ===== *)
(** * What the worker guarantees

    Properties of [process] and of a goroutine of [Start] over the deliveries
    it receives: money, overdrafts, redelivery. *)

From S2P Require Import Prelude GoNum Float64 Domain Sql Postgres Transfer Redis Queue World.
From S2P Require Import Session Repository Reference TransactionService Worker.

(** ** One delivery, on the level of the tables *)
Section tables.
Context {P R A C : Type} `{PgDriver P} `{JSON TxMessage}.

(** The delivery's message, if it can be read, is one that [createAsync]
    saved before it published it. *)
Definition payload_backed (tb : Tables) (p : TxMessage) : Prop :=
  exists r, transactions tb !! msg_tx_id p = Some r /\
    row_source r = msg_source p /\ row_dest r = msg_dest p.

Definition backed (tb : Tables) (msg : Delivery) : Prop :=
  forall p, json_Unmarshal (d_body msg) = Ok p -> payload_backed tb p.

(** The amount of the delivery is a whole number of cents; or a valid
    positive float. *)
Definition whole_amount (msg : Delivery) : Prop :=
  forall p q, json_Unmarshal (d_body msg) = Ok p -> pg_literal (msg_amount p) = Some q -> whole_cents q.
Definition positive_amount (msg : Delivery) : Prop :=
  forall p, json_Unmarshal (d_body msg) = Ok p -> good_amount (msg_amount p).

Definition untouched (ss : list stmt) : Prop := Forall (fun s => touches_balances s = false) ss.

(** A delivery executes a sequence of statements on the tables: none that
    touches a balance, or one transfer that passed the funds check. *)
Lemma process_case_run h msg tv tb tb' f : delivery_effect h msg tv tb tb' f ->
  (exists ss, untouched ss /\ sql_steps ss tb tb') \/
  (exists p ss, json_Unmarshal (d_body msg) = Ok p /\ untouched ss /\
     funds_checked (msg_amount p) (msg_source p) tb /\
     sql_steps (transfer_statements (msg_amount p) (msg_source p) (msg_dest p) ss) tb tb').
Proof.
  assert (forall s : stmt, touches_balances s = false -> untouched [s]) as Hone
    by (intros s Hs; constructor; [exact Hs|constructor]).
  intros [e He|p r Hj Hr Hst|p tb1 Hj _ [Hf Hrun]|p tb1 tb2 Hj _ Hset _ Hst].
  - left. exists []. split; constructor.
  - left. exists []. split; constructor.
  - right. exists p, [MarkCompleted (msg_tx_id p)]. split_and!; auto.
  - destruct Hset as [->|[Hf Hrun]], Hst as [->|Hst].
    + left. exists []. split; constructor.
    + left. eexists [_]. split; [|by apply sql_steps_one]. auto.
    + right. exists p, [MarkCompleted (msg_tx_id p)]. split_and!; auto.
    + right. exists p, [MarkCompleted (msg_tx_id p); UpdateTxStatus StatusFailed (msg_tx_id p)].
      split_and!; auto; [by repeat constructor|]. by apply (sql_steps_snoc [_; _; _] _ _ tb1).
Qed.

Lemma process_case_sql h msg tv tb tb' f : delivery_effect h msg tv tb tb' f ->
  exists ss, sql_steps ss tb tb'.
Proof. intros [(ss & _ & ?)|(p & ss & _ & _ & _ & ?)]%process_case_run; eauto. Qed.

Lemma backed_preserved h msg msg' tv tb tb' f :
  delivery_effect h msg tv tb tb' f -> backed tb msg' -> backed tb' msg'.
Proof.
  intros [ss Hrun]%process_case_sql Hb p Hj. destruct (Hb p Hj) as (r & Hr & Hs & Hd).
  destruct (sql_run_rows _ _ _ _ _ _ _ Hrun Hr) as (r' & Hr' & Es & Ed & _).
  exists r'. by rw Es Ed.
Qed.

Lemma fk_preserved h msg tv tb tb' f : delivery_effect h msg tv tb tb' f -> fk_inv tb -> fk_inv tb'.
Proof. intros [ss Hrun]%process_case_sql. by eapply sql_run_fk. Qed.

(** One delivery moves the sum of the balances by at most a rounding cent. *)
Lemma process_case_total h msg tv tb tb' f :
  delivery_effect h msg tv tb tb' f -> fk_inv tb -> backed tb msg ->
  Z.abs (total_balance tb' - total_balance tb) <= 1 /\
  (whole_amount msg -> total_balance tb' = total_balance tb).
Proof.
  intros [(ss & Hss & Hrun)|(p & ss & Hj & Hss & _ & Hrun)]%process_case_run Hfk Hb.
  - unfold total_balance. rw (sql_run_same_accounts _ _ _ _ _ Hss Hrun). lia.
  - destruct (Hb p Hj) as (r & Hr & Hs & Hd). destruct (Hfk _ _ Hr) as [Is Id]. rw Hs in Is. rw Hd in Id.
    destruct (transfer_conserves _ _ _ _ _ _ Hrun Hss Is Id) as [H1 H2]. split; [done|].
    intros Hw. destruct (transfer_inv _ _ _ _ _ _ Hrun) as (q & _ & _ & _ & _ & Hq & _). eauto.
Qed.

(** One delivery overdraws no account. *)
Lemma process_case_no_overdraft `{!PgLiteral P} h msg tv tb tb' f :
  delivery_effect h msg tv tb tb' f -> positive_amount msg -> no_overdraft tb ->
  total_balance tb <= safe_cents -> no_overdraft tb'.
Proof.
  intros [(ss & Hss & Hrun)|(p & ss & Hj & Hss & Hf & Hrun)]%process_case_run Ha Hno Ht.
  - intros id c. unfold balance_of. rw (sql_run_same_accounts _ _ _ _ _ Hss Hrun). apply Hno.
  - eapply transfer_keeps_no_overdraft; eauto. intros c Hc.
    pose proof (balance_le_total _ _ _ Hno Hc). lia.
Qed.
End tables.

(** ** Redelivery of one message *)
Section redelivery.
Context {P R A C : Type} `{PgDriver P} `{JSON TxMessage}.

Definition same_message (p : TxMessage) (msg : Delivery) : Prop := json_Unmarshal (d_body msg) = Ok p.

Definition row_completed (tb : Tables) (id : string) : Prop :=
  exists r, transactions tb !! id = Some r /\ row_status r = StatusCompleted.

(** The accounts went through one settlement of [p], or none. *)
Definition settled_once (p : TxMessage) (tb0 tb : Tables) : Prop :=
  exists tb1 tb2, accounts tb1 = accounts tb0 /\ settle_applied p tb1 tb2 /\ accounts tb = accounts tb2.
Definition settled_at_most_once (p : TxMessage) (tb0 tb : Tables) : Prop :=
  accounts tb = accounts tb0 \/ (settled_once p tb0 tb /\ row_completed tb (msg_tx_id p)).

Lemma settle_applied_completed p tb tb' :
  settle_applied p tb tb' -> payload_backed tb p -> row_completed tb' (msg_tx_id p).
Proof.
  intros [_ Hrun] (r & Hr & _). destruct (transfer_inv _ _ _ _ _ _ Hrun) as (q & n1 & tb1 & n2 & tb2 & _ & S1 & S2 & S3).
  apply update_balance_Some in S1 as (_ & _ & E1 & _). apply update_balance_Some in S2 as (_ & _ & E2 & _).
  inversion S3 as [|n3 ??? tb3 ? S4 S5]; subst. inversion S5; subst. cbn in S4. unfold update_status in S4.
  rw E2 E1 Hr in S4. injection S4 as <-. eexists. cbn. split; [apply lookup_insert_eq|done].
Qed.

Lemma process_case_once p msg tb0 tb tb' f :
  commit_definite P -> reads_definite P Primary ->
  same_message p msg -> payload_backed tb p -> settled_at_most_once p tb0 tb ->
  delivery_effect Primary msg tb tb tb' f -> settled_at_most_once p tb0 tb'.
Proof.
  intros Hcd Hrd Hj Hb Ho [e He|p' r Hj' Hr Hst|p' tb1 Hj' Hn Hset|p' tb1 tb2 Hj' Hn Hset Hcd1 Hst]; try done.
  all: unfold same_message in Hj; rw Hj in Hj'; injection Hj' as <-.
  all: assert (accounts tb = accounts tb0) as E by
    (destruct Ho as [?|[_ (r & Hr & Hrc)]]; [done|by destruct (Hn Hrd r Hr)]).
  - right. split; [|by eapply settle_applied_completed]. by exists tb, tb1.
  - left. rw (Hcd1 Hcd) in Hst. destruct Hst as [->|[now Hst]]; [done|]. rw -E.
    by eapply sql_exec_same_accounts in Hst.
Qed.
End redelivery.

(** ** A goroutine *)
Section goroutine.
Context {P R A C : Type} `{PgDriver P, RedisServer R, AmqpLib A} `{!PgLaws P, !AmqpLaws A}.
Context `{JSON TxMessage}.
#[local] Abbreviation World := (World P R A C).

(** Induction over what the goroutine receives: [I evs tb] holds of the
    committed tables when [evs] is still to come. *)
Lemma goroutine_ind redis h (I : list event -> Tables -> Prop) evs (w : World) :
  (forall msg evs tv tb tb' f, I (Deliver msg :: evs) tb -> (h = None -> tv = tb) ->
     delivery_effect (read_handle h) msg tv tb tb' f -> I evs tb') ->
  I evs (pg_committed (w_pg w)) ->
  wp (goroutine (pg_worker redis h) evs) (fun _ w' => exists rest, I rest (pg_committed (w_pg w'))) w.
Proof.
  intros Hstep. revert w. induction evs as [|[| |msg] evs IH]; intros w Hi; cbn; try (wp_steps; by eexists).
  wp_steps. wp_apply process_spec. intros _ w1 (f & Hc & _). apply IH.
  eapply Hstep; [exact Hi| |exact Hc]. by intros ->.
Qed.
End goroutine.

(** The deliveries of a list of events. *)
Fixpoint deliveries (evs : list event) : list Delivery :=
  match evs with
  | [] => []
  | Deliver msg :: evs => msg :: deliveries evs
  | _ :: evs => deliveries evs
  end.

(** C16: what [process] does with one delivery, in every case.  It acknowledges
    a message whose transaction the repository shows as completed, without
    settling it, and one that [settle] settled, after deleting the cached
    balances and status; it sends everything else, the unreadable messages and
    the failed settlements, to the dead-letter queue, after writing the status
    of a failed settlement, and never requeues.  The database is what the
    look-up, [settle] and that write leave; the broker is what sending this
    one answer leaves. *)
Theorem process_outcome {P R A C}
    `{PgDriver P, RedisServer R, AmqpLib A, !PgLaws P, JSON TxMessage}
    redis h msg (w : World P R A C) :
  wp (process (pg_worker redis h) msg) (fun _ w' => exists f,
    process_case redis (read_handle h) msg w w' f /\ w_amqp w' = answer msg f (w_amqp w)) w.
Proof. apply process_exact. Qed.

Lemma process_outcome_witness :
  wp (process (pg_worker true (Some Replica)) (mkDelivery ref_body 1 1)) (fun _ w' => exists f,
    process_case (P := RefPg) true (read_handle (Some Replica)) (mkDelivery ref_body 1 1) ref_queued w' f /\
    w_amqp w' = answer (mkDelivery ref_body 1 1) f (w_amqp ref_queued)) ref_queued.
Proof. apply (process_outcome true (Some Replica) (mkDelivery ref_body 1 1) ref_queued). Defined.

(** C18: over any sequence of deliveries of messages whose transactions are
    stored, with the accounts of the message, and whatever fails on the way, a
    goroutine of the worker moves the sum of all balances by at most one cent
    of rounding per delivery, and not at all if every amount is a whole number
    of cents.  (Stored transactions matter: [settle] does not check the payee,
    see [Anomalies.missing_payee_loses_money].) *)
Theorem goroutine_conserves {P R A C}
    `{PgDriver P, RedisServer R, AmqpLib A, !PgLaws P, !AmqpLaws A, JSON TxMessage}
    redis h evs (w : World P R A C) :
  fk_inv (pg_committed (w_pg w)) -> Forall (backed (pg_committed (w_pg w))) (deliveries evs) ->
  wp (goroutine (pg_worker redis h) evs) (fun _ w' =>
    Z.abs (total_balance (pg_committed (w_pg w')) - total_balance (pg_committed (w_pg w)))
      <= Z.of_nat (length (deliveries evs)) /\
    (Forall whole_amount (deliveries evs) ->
       total_balance (pg_committed (w_pg w')) = total_balance (pg_committed (w_pg w)))) w.
Proof.
  intros Hfk Hb. set (t0 := total_balance _). wp_apply (goroutine_ind redis h (fun rest tb =>
    fk_inv tb /\ Forall (backed tb) (deliveries rest) /\
    Z.abs (total_balance tb - t0) + Z.of_nat (length (deliveries rest)) <= Z.of_nat (length (deliveries evs)) /\
    (Forall whole_amount (deliveries evs) -> Forall whole_amount (deliveries rest) /\ total_balance tb = t0))).
  - intros msg rest tv tb tb' f (Hfk1 & Hb1 & Hd1 & Hw1) _ Hc. cbn [deliveries length] in Hb1, Hd1, Hw1.
    inversion_clear Hb1 as [|?? Hbm Hbr].
    destruct (process_case_total _ _ _ _ _ _ Hc Hfk1 Hbm) as [Hd2 Hw2]. split_and!.
    + by eapply fk_preserved.
    + eapply list.Forall_impl; [exact Hbr|]. intros m. by eapply backed_preserved.
    + lia.
    + intros Hall. destruct (Hw1 Hall) as [Hrest Ht]. inversion_clear Hrest as [|?? Hwm Hwr].
      split; [done|]. by rw Hw2.
  - split_and!; try done. unfold t0. lia.
  - intros _ w' (rest & _ & _ & Hd & Hw). split; [lia|]. intros Hall. by apply Hw.
Qed.

(** The message of [ref_pending], delivered twice. *)
Definition ref_delivery : Delivery := mkDelivery ref_body 1 1.
Definition ref_events : list event := [Deliver ref_delivery; Deliver ref_delivery; ChannelClosed].

Lemma ref_delivery_message : same_message ref_message ref_delivery.
Proof. by vm_compute. Qed.

Lemma ref_delivery_backed : payload_backed ref_pending ref_message.
Proof. by eexists. Qed.

Lemma ref_events_forall (Q : Delivery -> Prop) : Q ref_delivery -> Forall Q (deliveries ref_events).
Proof. intros HQ. by repeat constructor. Qed.

Lemma ref_delivery_is p : json_Unmarshal (d_body ref_delivery) = Ok p -> p = ref_message.
Proof. intros Hp. pose proof ref_delivery_message as Hm. unfold same_message in Hm. congruence. Qed.

Lemma ref_backed : backed ref_pending ref_delivery.
Proof. intros p ->%ref_delivery_is. exact ref_delivery_backed. Qed.

Lemma goroutine_conserves_witness :
  wp (goroutine (pg_worker true None) ref_events) (fun _ w' =>
    Z.abs (total_balance (pg_committed (w_pg w')) - total_balance (pg_committed (w_pg ref_queued)))
      <= Z.of_nat (length (deliveries ref_events)) /\
    (Forall whole_amount (deliveries ref_events) ->
       total_balance (pg_committed (w_pg w')) = total_balance (pg_committed (w_pg ref_queued)))) ref_queued.
Proof.
  apply (goroutine_conserves true None ref_events ref_queued).
  - exact ref_pending_fk.
  - apply ref_events_forall, ref_backed.
Defined.

(** C19: over any sequence of deliveries of messages whose transactions are
    stored and whose amounts are finite and positive, however often they are
    redelivered and whatever fails, a goroutine of the worker overdraws no
    account, if nobody was overdrawn before and the money in the bank plus one
    cent per delivery is at most 2^43 units. *)
Theorem goroutine_no_overdraft {P R A C}
    `{PgDriver P, RedisServer R, AmqpLib A, !PgLaws P, !PgLiteral P, !AmqpLaws A, JSON TxMessage}
    redis h evs (w : World P R A C) :
  fk_inv (pg_committed (w_pg w)) -> Forall (backed (pg_committed (w_pg w))) (deliveries evs) ->
  Forall positive_amount (deliveries evs) -> no_overdraft (pg_committed (w_pg w)) ->
  total_balance (pg_committed (w_pg w)) + Z.of_nat (length (deliveries evs)) <= safe_cents ->
  wp (goroutine (pg_worker redis h) evs) (fun _ w' => no_overdraft (pg_committed (w_pg w'))) w.
Proof.
  intros Hfk Hb Hpos Hno Hsafe. wp_apply (goroutine_ind redis h (fun rest tb =>
    fk_inv tb /\ Forall (backed tb) (deliveries rest) /\ Forall positive_amount (deliveries rest) /\
    no_overdraft tb /\ total_balance tb + Z.of_nat (length (deliveries rest)) <= safe_cents)); [|done|].
  - intros msg rest tv tb tb' f (Hfk1 & Hb1 & Hp1 & Hno1 & Ht1) _ Hc. cbn [deliveries length] in Hb1, Hp1, Ht1.
    inversion_clear Hb1 as [|?? Hbm Hbr]. inversion_clear Hp1 as [|?? Hpm Hpr].
    destruct (process_case_total _ _ _ _ _ _ Hc Hfk1 Hbm) as [Hd2 _]. split_and!; try done.
    + by eapply fk_preserved.
    + eapply list.Forall_impl; [exact Hbr|]. intros m. by eapply backed_preserved.
    + eapply process_case_no_overdraft; eauto. lia.
    + lia.
  - intros _ w' (rest & _ & _ & _ & ? & _). done.
Qed.

Lemma goroutine_no_overdraft_witness :
  wp (goroutine (pg_worker true None) ref_events)
    (fun _ w' => no_overdraft (pg_committed (w_pg w'))) ref_queued.
Proof.
  apply (goroutine_no_overdraft true None ref_events ref_queued).
  - exact ref_pending_fk.
  - apply ref_events_forall, ref_backed.
  - apply ref_events_forall. intros p ->%ref_delivery_is. exact amount_30_good.
  - intros id c Hc. apply (ref_tables_balances id c Hc).
  - vm_compute. discriminate.
Defined.

(** C15: redelivery is harmless to one goroutine that reads the primary: if
    the reads of the primary do not fail, the answers to commits arrive, and
    the transaction of the message is stored, then any number of deliveries of
    the message, one after the other, moves the money of its transaction at
    most once. *)
Theorem redelivery_settles_at_most_once {P R A C}
    `{PgDriver P, RedisServer R, AmqpLib A, !PgLaws P, !AmqpLaws A, JSON TxMessage}
    redis p evs (w : World P R A C) :
  commit_definite P -> reads_definite P Primary ->
  payload_backed (pg_committed (w_pg w)) p -> Forall (same_message p) (deliveries evs) ->
  wp (goroutine (pg_worker redis None) evs) (fun _ w' =>
    settled_at_most_once p (pg_committed (w_pg w)) (pg_committed (w_pg w'))) w.
Proof.
  intros Hcd Hrd Hb Hall. set (tb0 := pg_committed (w_pg w)). wp_apply (goroutine_ind redis None (fun rest tb =>
    payload_backed tb p /\ Forall (same_message p) (deliveries rest) /\ settled_at_most_once p tb0 tb)).
  - intros msg rest tv tb tb' f (Hb1 & Hs1 & Ho1) Htv Hc. rw (Htv eq_refl) in Hc.
    cbn [deliveries] in Hs1. inversion_clear Hs1 as [|?? Hm Hr]. split_and!; [|done|].
    + assert (backed tb msg) as Hbm.
      { intros p' Hj. unfold same_message in Hm. rw Hm in Hj. by injection Hj as <-. }
      by apply (backed_preserved _ _ msg _ _ _ _ Hc Hbm).
    + by eapply process_case_once.
  - split_and!; [done|done|by left].
  - by intros _ w' (rest & _ & _ & ?).
Qed.

Definition sure_queued : World SurePg RefRedis RefAmqp Z :=
  ref_world (mkSurePg (ref_pg ref_pending [])) (ref_amqp []).

Lemma redelivery_settles_at_most_once_witness :
  wp (goroutine (pg_worker true None) ref_events) (fun _ w' =>
    settled_at_most_once (P := SurePg) ref_message (pg_committed (w_pg sure_queued)) (pg_committed (w_pg w'))) sure_queued.
Proof.
  apply (redelivery_settles_at_most_once true ref_message ref_events sure_queued).
  - exact SurePg_commit.
  - exact (SurePg_reads Primary).
  - exact ref_delivery_backed.
  - apply ref_events_forall, ref_delivery_message.
Defined.

(** ** Every delivery is answered once *)

(** The answer to a delivery: an acknowledgement, or a rejection to the
    dead-letter queue. *)
Definition is_answer (msg : Delivery) (cf : nat * frame) : Prop :=
  cf = (d_chan msg, FAck (d_tag msg) false) \/ cf = (d_chan msg, FNack (d_tag msg) false false).

Section answers.
Context {P R A C : Type} `{PgDriver P, RedisServer R, AmqpLib A} `{!PgLaws P, !AmqpLaws A}.
Context `{JSON TxMessage}.
#[local] Abbreviation World := (World P R A C).

(** [sent] holds at most one answer for each delivery, in their order. *)
Inductive answers : list Delivery -> list (nat * frame) -> Prop :=
| answers_nil msgs : answers msgs []
| answers_one msg msgs cf sent : is_answer msg cf -> answers msgs sent -> answers (msg :: msgs) (cf :: sent)
| answers_lost msg msgs sent : answers msgs sent -> answers (msg :: msgs) sent.

Lemma goroutine_answers_spec redis h evs (w : World) :
  wp (goroutine (pg_worker redis h) evs) (fun _ w' => exists sent,
    amqp_trace (w_amqp w') = amqp_trace (w_amqp w) ++ sent /\ answers (deliveries evs) sent) w.
Proof.
  revert w. induction evs as [|ev evs IH]; intros w; cbn [goroutine];
    [|destruct ev as [| |msg]]; try (wp_steps; exists []; rw app_nil_r; by split; [|constructor]).
  wp_steps. wp_apply process_spec. intros _ w1 (f & Hc & Ha). wp_apply IH.
  intros _ w2 (sent & Htr & Hs). cbn [deliveries]. destruct Ha as [Ha|Ha]; rw Ha in Htr.
  - exists ((d_chan msg, f) :: sent). rw Htr -app_assoc. split; [done|]. constructor; [|done].
    destruct Hc; unfold is_answer; auto.
  - exists sent. split; [done|]. by constructor.
Qed.
End answers.

(** A goroutine sends at most one answer for each delivery, on the channel
    and with the tag of that delivery, in the order of the deliveries; no
    answer requeues a message or covers more than one. *)
Theorem goroutine_answers {P R A C}
    `{PgDriver P, RedisServer R, AmqpLib A, !PgLaws P, !AmqpLaws A, JSON TxMessage}
    redis h evs (w : World P R A C) :
  wp (goroutine (pg_worker redis h) evs) (fun _ w' => exists sent,
    amqp_trace (w_amqp w') = amqp_trace (w_amqp w) ++ sent /\ answers (deliveries evs) sent) w.
Proof. apply goroutine_answers_spec. Qed.

Lemma goroutine_answers_witness :
  wp (goroutine (pg_worker true None) ref_events) (fun _ w' => exists sent,
    amqp_trace (w_amqp w') = amqp_trace (w_amqp ref_queued) ++ sent /\ answers (deliveries ref_events) sent) ref_queued.
Proof. apply (goroutine_answers true None ref_events ref_queued). Defined.

(** ** What redelivery and lost answers can do

    Runs of the worker on the reference servers. *)

(** The balances, in cents, after a run from [w]. *)
Definition balances {P} `{PgDriver P} {B} (m : M (World P RefRedis RefAmqp Z) B)
    (w : World P RefRedis RefAmqp Z) : option Z * option Z :=
  let tb := pg_committed (w_pg (snd (m w))) in (balance_of 1001 tb, balance_of 1002 tb).
Definition status_after {P} `{PgDriver P} {B} (m : M (World P RefRedis RefAmqp Z) B)
    (w : World P RefRedis RefAmqp Z) : option Status :=
  row_status <$> transactions (pg_committed (w_pg (snd (m w)))) !! "T1".

(** A replica that has not seen the settlement yet. *)
Definition lagging_world : RefWorld :=
  ref_world (mkRefPg ref_pending None (Some ref_pending) [] 0) (ref_amqp []).

(** The worker of cmd/server/main.go reads the transaction through the
    repository that holds the read replica.  While the replica still shows
    the transaction as pending, a redelivery moves the money again: of 100.00
    and 50.00, a transfer of 30.00 delivered twice leaves 40.00 and 110.00. *)
Theorem lagging_replica_settles_twice :
  balances (goroutine (pg_worker true (Some Replica)) ref_events) lagging_world = (Some 4000, Some 11000) /\
  balances (goroutine (pg_worker true None) ref_events) lagging_world = (Some 7000, Some 8000).
Proof. by split; vm_compute. Qed.

(** The commit is applied, but its answer is lost (the seventh operation:
    read, begin, select, debit, credit, update, commit). *)
Definition lost_answer_world : RefWorld :=
  ref_world (ref_pg ref_pending [Fine; Fine; Fine; Fine; Fine; Fine; FailAfter]) (ref_amqp []).

(** When the answer to the commit of a settlement is lost, the money
    has moved but the transaction is recorded as failed, and a redelivery
    moves the money again. *)
Theorem lost_commit_answer_marks_failed :
  balances (process (pg_worker true None) ref_delivery) lost_answer_world = (Some 7000, Some 8000) /\
  status_after (process (pg_worker true None) ref_delivery) lost_answer_world = Some StatusFailed /\
  balances (goroutine (pg_worker true None) ref_events) lost_answer_world = (Some 4000, Some 11000).
Proof. by split_and!; vm_compute. Qed.
