(* ===== verification/Frames.v ===== *)
(** * What a call leaves alone

    [keeps f m]: the call [m] does not change [f] of the state it runs in.
    The rules follow the structure of the code; the calls that only log,
    count or use the cache keep every part of the state that is not the log,
    the metrics or the cache ([Quiet]). *)

From S2P Require Import Prelude GoNum TxId Float64 Domain Sql Postgres Redis Queue World.
From S2P Require Import Session Repository TransactionService AccountService Http Handlers Worker.

Definition keeps {W X B} (f : W -> X) (m : M W B) : Prop := forall w, wp m (fun _ w' => f w' = f w) w.

Section rules.
Context {W X : Type} (f : W -> X).

Lemma keeps_ret {B} (b : B) : keeps f (mret b).
Proof. done. Qed.

Lemma keeps_bind {B D} (m : M W B) (k : B -> M W D) : keeps f m -> (forall b, keeps f (k b)) -> keeps f (mbind m k).
Proof.
  intros Hm Hk w. apply wp_bind. wp_apply Hm. intros b w1 <-. apply Hk.
Qed.

Lemma keeps_try {B D} (m : M W (result B)) h (k : B -> M W (result D)) :
  keeps f m -> (forall e, keeps f (h e)) -> (forall b, keeps f (k b)) -> keeps f (mtry m h k).
Proof. intros Hm Hh Hk. apply keeps_bind; [done|]. by intros [b|e]. Qed.

Lemma keeps_get {B} (g : W -> B) : keeps f (mget g).
Proof. done. Qed.

Lemma keeps_put g : (forall w, f (g w) = f w) -> keeps f (mput g).
Proof. intros Hg w. apply Hg. Qed.

Lemma keeps_lift {Y B} (get : W -> Y) set (m : M Y B) : (forall y w, f (set y w) = f w) -> keeps f (mlift get set m).
Proof. intros Hs w. unfold wp, mlift. destruct (m (get w)). apply Hs. Qed.

(** A call on a part of the state, seen from that part. *)
Lemma keeps_part {Y B} (get : W -> Y) set (m : M Y B) (g : Y -> X) :
  (forall y w, f (set y w) = g y) -> (forall w, f w = g (get w)) -> keeps g m -> keeps f (mlift get set m).
Proof.
  intros Hs Hg Hm w. apply wp_lift. wp_apply Hm. intros b y Hy. by rw Hs Hg.
Qed.

Lemma keeps_run {B} (m : M W B) w : keeps f m -> f (snd (m w)) = f w.
Proof. intros Hm. specialize (Hm w). unfold wp in Hm. by destruct (m w). Qed.
End rules.

(** A part of the process state that logging, counting, caching and the clock
    do not touch. *)
Class Quiet {P R A C X} (f : World P R A C -> X) : Prop := {
  quiet_redis x w : f (set_redis x w) = f w;
  quiet_clock x w : f (set_clock x w) = f w;
  quiet_event x w : f (set_event x w) = f w;
  quiet_metrics x w : f (set_metrics x w) = f w;
  quiet_log x w : f (set_log x w) = f w;
}.

#[export] Hint Resolve keeps_ret keeps_get : bank.

(** Follow the code with the rules, case by case. *)
Ltac keeps_step :=
  lazymatch goal with
  | |- keeps _ (mbind _ _) => apply keeps_bind
  | |- keeps _ (mtry _ _ _) => apply keeps_try
  | |- keeps _ (match ?x with _ => _ end) => destruct x
  | |- keeps _ _ => solve [eauto 3 with bank]
  end.
Ltac keeps := intros; repeat (keeps_step; intros; cbv zeta).

Section quiet.
Context {P R A C X : Type} `{PgDriver P, RedisServer R, AmqpLib A}.
#[local] Abbreviation World := (World P R A C).
Context (f : World -> X) `{!Quiet f}.

Lemma keeps_logger_Set k v : keeps f (logger_Set k v).
Proof.
  unfold logger_Set, EventFromContext. keeps. apply keeps_put. intros w. apply quiet_event.
Qed.

Lemma keeps_log_write l : keeps f (log_write l).
Proof. apply keeps_put. intros w. apply quiet_log. Qed.

Lemma keeps_on_metrics g : keeps f (on_metrics g).
Proof. apply keeps_put. intros w. apply quiet_metrics. Qed.

Lemma keeps_on_redis {B} (m : M R B) : keeps f (on_redis m).
Proof. apply keeps_lift. intros. apply quiet_redis. Qed.

Lemma keeps_time_Now `{Clock C} : keeps f time_Now.
Proof. apply keeps_lift. intros. apply quiet_clock. Qed.
End quiet.

#[export] Hint Resolve keeps_logger_Set keeps_log_write keeps_on_metrics keeps_on_redis keeps_time_Now : bank.
#[export] Hint Extern 1 (Quiet _) => exact _ : bank.

(** ** The services and the worker *)
Section services.
Context {P R A C X : Type} `{PgDriver P, RedisServer R, AmqpLib A, Clock C}.
Context `{JSON TxMessage, JSON Transaction, JSON Account}.
#[local] Abbreviation World := (World P R A C).
Context (f : World -> X) `{!Quiet f}.

Lemma keeps_GetBalance (s : accountService World) id :
  keeps f (GetAccountByID (acc_repo s) id) -> keeps f (GetBalance s id).
Proof.
  intros Hr. unfold GetBalance, cached_account, load_balance, CacheHits_Inc, CacheMisses_Inc. keeps.
Qed.

Lemma keeps_GetTransactionStatus (s : transactionService World) id :
  keeps f (GetByID (svc_repo s) id) -> keeps f (GetTransactionStatus s id).
Proof.
  intros Hr. unfold GetTransactionStatus, cached_tx, load_tx_status, CacheHits_Inc, CacheMisses_Inc. keeps.
Qed.
End services.

(** ** The database, the broker and the counter *)
Section parts.
Context {P R A C : Type} `{PgDriver P, RedisServer R, AmqpLib A, Clock C} `{!PgLaws P}.
Context `{JSON TxMessage, JSON Transaction, JSON Account}.
#[local] Abbreviation World := (World P R A C).

(** The broker as the process sees it, and [txCounter]. *)
Definition broker_part (w : World) : A * Client * Z := (w_amqp w, w_client w, w_counter w).
(** The same, with the committed tables. *)
Definition bank_part (w : World) : Tables * (A * Client * Z) := (pg_committed (w_pg w), broker_part w).

#[export] Instance broker_part_quiet : Quiet broker_part.
Proof. by split. Qed.
#[export] Instance bank_part_quiet : Quiet bank_part.
Proof. by split. Qed.
#[export] Instance counter_quiet : Quiet (w_counter : World -> Z).
Proof. by split. Qed.

Lemma keeps_on_pg {X B} (f : World -> X) (m : M P B) : (forall p w, f (set_pg p w) = f w) -> keeps f (on_pg m).
Proof. intros Hf. by apply keeps_lift. Qed.

Lemma keeps_createSync (s : transactionService World) tx : keeps broker_part (createSync s tx).
Proof.
  assert (forall B (m : M P B), keeps broker_part (on_pg m)) as Hpg by (intros; by apply keeps_on_pg).
  unfold createSync, createSync_body, invalidateBalanceCache. keeps.
Qed.

Lemma keeps_process (wk : Worker World) msg :
  (forall id, keeps w_counter (GetByID (wk_repo wk) id)) ->
  (forall id st, keeps w_counter (UpdateStatus (wk_repo wk) id st)) -> keeps w_counter (process wk msg).
Proof.
  intros Hg Hu.
  assert (forall B (m : M P B), keeps (w_counter : World -> Z) (on_pg m)) as Hpg by (intros; by apply keeps_on_pg).
  assert (forall B (m : M A B), keeps (w_counter : World -> Z) (on_amqp m)) as Ha by (intros; by apply keeps_lift).
  unfold process, process_settle, settle, settle_body, worker_invalidateBalanceCache, invalidateTxStatusCache,
    Ack, Nack, L_Error, L_Info. keeps.
Qed.

(** The reads of the PostgreSQL repositories. *)
Lemma keeps_pg_read {B} (m : M P B) :
  (forall p, wp m (fun _ p' => pg_committed p' = pg_committed p) p) -> keeps bank_part (on_pg m).
Proof.
  intros Hm w. unfold on_pg. apply wp_lift. wp_apply Hm. intros b p Hp. by rw /bank_part /= Hp.
Qed.

Lemma keeps_pg_GetByID h id :
  keeps (bank_part) (GetByID (postgres.NewTransactionRepository (P := P) (R := R) (A := A) (C := C) Primary h) id).
Proof.
  cbn. unfold postgres.GetByID. apply keeps_try; [|by keeps..]. apply keeps_pg_read. intros p.
  wp_apply pg_get_tx_law. by intros r p' [Hp _].
Qed.

Lemma keeps_pg_GetAccountByID h id :
  keeps (bank_part) (GetAccountByID (postgres.NewAccountRepository (P := P) (R := R) (A := A) (C := C) Primary h) id).
Proof.
  cbn. unfold postgres.GetAccountByID. apply keeps_try; [|by keeps..]. apply keeps_pg_read. intros p.
  wp_apply pg_get_account_law. by intros r p' [Hp _].
Qed.
End parts.

(** ** The handlers *)
Section handlers.
Context {E W X : Type} `{Echo E} (f : W -> X).

Lemma keeps_on_echo {B} (m : M E B) : keeps (fun ew : E * W => f (snd ew)) (on_echo m).
Proof. by apply keeps_lift. Qed.

Lemma keeps_on_world {B} (m : M W B) : keeps f m -> keeps (fun ew : E * W => f (snd ew)) (on_world m).
Proof. intros Hm. by apply (keeps_part _ _ _ _ f). Qed.

Lemma keeps_handle_GetTransactionStatus (svc : TransactionServiceI W) :
  (forall id, keeps f (svc_GetTransactionStatus svc id)) ->
  keeps (fun ew : E * W => f (snd ew)) (handle_GetTransactionStatus svc).
Proof.
  intros Hs. pose proof (@keeps_on_echo) as He. pose proof (@keeps_on_world) as Hw.
  unfold handle_GetTransactionStatus. keeps.
Qed.

Lemma keeps_handle_GetBalance (svc : AccountServiceI W) :
  (forall id, keeps f (svc_GetBalance svc id)) ->
  keeps (fun ew : E * W => f (snd ew)) (handle_GetBalance svc).
Proof.
  intros Hs. pose proof (@keeps_on_echo) as He. pose proof (@keeps_on_world) as Hw.
  unfold handle_GetBalance. keeps.
Qed.

(** A POST leaves the process alone, or does what the service does with a
    valid request. *)
Definition posted (svc : TransactionServiceI W) (e : E) (w w' : W) : Prop :=
  w' = w \/ exists req, fst (c_Bind e) = Ok req /\ request_ok req = true /\
    w' = snd (svc_CreateTransaction svc (req_input req) w).

Lemma post_world (svc : TransactionServiceI W) e w :
  wp (handle_CreateTransaction svc) (fun _ ew' => posted svc e w (snd ew')) (e, w).
Proof.
  assert (forall code b e0 w0, posted svc e w w0 ->
    wp (on_echo (c_JSON code b)) (fun _ ew' => posted svc e w (snd ew')) (e0, w0)) as Hjson.
  { intros code b e0 w0 HQ. unfold on_echo. wp_steps. by apply wp_of. }
  assert (posted svc e w w) as Hsame by by left.
  unfold handle_CreateTransaction, on_echo at 1. wp_steps. unfold wp at 1. cbn [fst].
  destruct (c_Bind e) as [[req|er] e1] eqn:Hb; [|by apply Hjson].
  destruct ((req_source req =? 0) || (req_dest req =? 0)) eqn:H1; [by apply Hjson|].
  destruct (f64_leb (req_amount req) f64_zero) eqn:H2; [by apply Hjson|].
  unfold on_world. wp_steps. cbn [fst snd]. unfold wp at 1.
  destruct (svc_CreateTransaction svc (req_input req) w) as [r w1] eqn:Hc.
  assert (posted svc e w w1) as Hdone.
  { right. exists req. rw Hb. split_and!; [done|by unfold request_ok; rw H1 H2|by rw Hc]. }
  destruct r as [tx|er]; [by apply Hjson|]. cbn [fst].
  destruct (errors_Is er ErrInsufficientFunds); [by wp_steps|].
  destruct (errors_Is er ErrAccountNotFound); [by wp_steps|by apply Hjson].
Qed.
End handlers.
