(* ===== verification/Ledger.v ===== *)
(** * The database as a bank

    [bank_of] reads the tables as the abstract bank of [Bank]: the balances
    and the book of transfers.  When an amount is a whole number of cents and
    a finite positive float, what [createSync], [createAsync] and the worker
    do to the tables are moves of the bank. *)

From S2P Require Import Prelude GoNum Float64 Domain Sql Postgres Transfer Bank Redis Queue World.
From S2P Require Import Session Repository TransactionService Worker Settlement.

Definition posting_of (r : TxRow) : Posting :=
  mkPosting (row_source r) (row_dest r) (row_amount r) (row_status r).

Definition bank_of (tb : Tables) : Bank :=
  mkBank (row_balance <$> accounts tb) (posting_of <$> transactions tb).

Lemma map_sum_fmap {K V V'} `{Countable K} (g : V -> V') (f : V' -> Z) (m : gmap K V) :
  map_sum f (g <$> m) = map_sum (fun v => f (g v)) m.
Proof.
  induction m as [|k v m Hk IH] using map_ind; [done|].
  rw fmap_insert !map_sum_insert_new ?IH //. by rw lookup_fmap Hk.
Qed.

Lemma bank_total tb : map_sum id (holdings (bank_of tb)) = total_balance tb.
Proof. cbn. by rw map_sum_fmap. Qed.

Lemma bank_no_overdraft tb : bank_ok (bank_of tb) -> no_overdraft tb.
Proof.
  intros [Hb _] i c Hc. apply (Hb i c). cbn. by rw lookup_fmap.
Qed.

(** No account holds more than 2^43 units: the [float64] comparison of the
    funds check is exact for it. *)
Definition modest (tb : Tables) : Prop := forall id c, balance_of id tb = Some c -> c <= safe_cents.

Lemma total_modest tb : no_overdraft tb -> total_balance tb <= safe_cents -> modest tb.
Proof. intros Hno Ht id c Hc. pose proof (balance_le_total _ _ _ Hno Hc). lia. Qed.

Lemma bank_fk tb : bank_ok (bank_of tb) -> fk_inv tb.
Proof.
  intros [_ Hk] i r Hr. destruct (Hk i (posting_of r)) as (Hs & Hd & _); [cbn; by rw lookup_fmap Hr|].
  cbn in Hs, Hd. by rw !lookup_fmap !fmap_is_Some in Hs, Hd.
Qed.

Section ledger.
Context {P : Type} `{PgDriver P} `{!PgLiteral P}.

(** The amount is [k] cents; and a finite positive float as well. *)
Definition exact_cents (a : f64) (k : Z) : Prop :=
  exists q, pg_literal a = Some q /\ 100 * fnum q = k * Zpos (fden q).

#[export] Instance exact_cents_dec a k : Decision (exact_cents a k).
Proof.
  unfold exact_cents. destruct (pg_literal a) as [q|]; [|right; by intros (? & ? & _)].
  destruct (decide (100 * fnum q = k * Zpos (fden q))) as [He|Hne]; [left; by exists q|right].
  by intros (? & [= <-] & ?).
Defined.

Definition fair_amount (a : f64) (k : Z) : Prop := good_amount a /\ exact_cents a k.

Lemma exact_round n d k : 0 < d -> n = k * d -> round_half_away n d = k.
Proof. intros Hd ->. pose proof (round_half_away_exact (k * d) d Hd (Z.divide_factor_r _ _)). nia. Qed.

Lemma fair_nonneg a k : fair_amount a k -> 0 <= k.
Proof. intros [Hg (q & Hq & He)]. pose proof (literal_positive a q Hg Hq). nia. Qed.

Lemma exact_whole a k q : exact_cents a k -> pg_literal a = Some q -> whole_cents q.
Proof. intros (q' & Hq & He) Hq'. simplify_eq. unfold whole_cents. rw He. apply Z.divide_factor_r. Qed.

Lemma update_balance_exact sign now a i tb tb' k :
  exact_cents a k -> update_balance pg_literal sign now a i tb = Some tb' ->
  row_balance <$> accounts tb' = alter (fun b => b + sign * k) i (row_balance <$> accounts tb) /\
  transactions tb' = transactions tb.
Proof.
  intros (q & Hq & He) Hu. destruct (update_balance_Some _ _ _ _ _ _ _ Hu) as (q' & Hq' & Ht & Hacc).
  split; [|done]. simplify_eq. destruct (accounts tb !! i) as [r|] eqn:Hr.
  - destruct Hacc as (b & Hb & ->). rw fmap_insert. cbn.
    apply numeric_18_2_Some in Hb as (-> & _); [|lia].
    rw (exact_round _ _ (row_balance r + sign * k)); [lia|nia|].
    apply map_eq. intros j. rw lookup_alter lookup_insert !lookup_fmap.
    case_decide; subst; by rw ?Hr.
  - subst. symmetry. apply alter_missing. by rw lookup_fmap Hr.
Qed.

Lemma transfer_exact a src dst k rest tb tb' :
  exact_cents a k -> sql_steps (transfer_statements a src dst rest) tb tb' ->
  exists tb2, row_balance <$> accounts tb2 = move src dst k (row_balance <$> accounts tb) /\
    transactions tb2 = transactions tb /\ sql_steps rest tb2 tb'.
Proof.
  intros He Hrun. destruct (transfer_inv _ _ _ _ _ _ Hrun) as (q & n1 & tb1 & n2 & tb2 & _ & S1 & S2 & S3).
  destruct (update_balance_exact _ _ _ _ _ _ k He S1) as [A1 T1].
  destruct (update_balance_exact _ _ _ _ _ _ k He S2) as [A2 T2].
  exists tb2. split; [|split; [by rw T2 T1|exact S3]]. rw A2 A1. unfold move.
  apply map_eq. intros j.
  rw !lookup_alter. repeat case_decide; subst; rw ?lookup_alter; repeat case_decide; try done;
    destruct (_ !! _); cbn; f_equal; lia.
Qed.

(** What the funds check says in cents. *)
Lemma funds_exact a src k tb :
  fair_amount a k -> funds_checked a src tb -> no_overdraft tb -> modest tb ->
  exists c, balance_of src tb = Some c /\ k <= c.
Proof.
  intros [Hg (q & Hq & He)] (c & Hc & Hlt) Hno Hsafe. exists c. split; [done|].
  pose proof (Hsafe _ _ Hc). pose proof (Hno _ _ Hc).
  pose proof (funds_check_sound a q c Hg Hq ltac:(lia) Hlt). nia.
Qed.

Lemma lookup_holdings tb i : holdings (bank_of tb) !! i = balance_of i tb.
Proof. apply lookup_fmap. Qed.

Lemma lookup_book tb i : book (bank_of tb) !! i = posting_of <$> transactions tb !! i.
Proof. apply lookup_fmap. Qed.

Lemma holdings_is_Some tb i : is_Some (holdings (bank_of tb) !! i) <-> is_Some (accounts tb !! i).
Proof. cbn. by rw lookup_fmap fmap_is_Some. Qed.

Lemma tx_row_exact tx r k : exact_cents (Amount tx) k -> tx_row pg_literal pg_timestamptz tx = Some r ->
  posting_of r = mkPosting (SourceAccount tx) (DestAccount tx) k (TxStatus tx).
Proof.
  intros (q & Hq & He) Hr. unfold tx_row in Hr. rw Hq in Hr. case_match; [done|].
  destruct (numeric_18_2 _ _) as [c|] eqn:Hc; [|done]. injection Hr as <-.
  apply numeric_18_2_Some in Hc as (-> & _); [|lia]. unfold posting_of. cbn.
  by rw (exact_round _ _ k); [lia|done|].
Qed.

Lemma insert_bank tx tb tb' k : exact_cents (Amount tx) k -> sql_step (InsertTx tx) tb tb' ->
  accounts tb' = accounts tb /\ transactions tb !! ID tx = None /\
  is_Some (accounts tb !! SourceAccount tx) /\ is_Some (accounts tb !! DestAccount tx) /\
  posting_of <$> transactions tb' =
    <[ID tx := mkPosting (SourceAccount tx) (DestAccount tx) k (TxStatus tx)]> (posting_of <$> transactions tb).
Proof.
  intros He [now Hi]. cbn in Hi. unfold insert_tx in Hi.
  destruct (tx_row pg_literal pg_timestamptz tx) as [r|] eqn:Hr; [|done].
  destruct (transactions tb !! ID tx) eqn:Hn; [done|]. destruct (fk_ok r tb) eqn:Hfk; [|done]. injection Hi as <-.
  pose proof (tx_row_exact tx r k He Hr) as Hpo. apply andb_prop in Hfk as [Hs Hd].
  apply bool_decide_eq_true_1 in Hs, Hd. injection Hpo as Es Ed Ek Est. rw Es in Hs. rw Ed in Hd.
  split_and!; try done. cbn. rw fmap_insert. f_equal. unfold posting_of. by rw Es Ed Ek Est.
Qed.

Lemma insert_row tx tb tb' k : exact_cents (Amount tx) k -> sql_step (InsertTx tx) tb tb' ->
  exists r, transactions tb' !! ID tx = Some r /\
    posting_of r = mkPosting (SourceAccount tx) (DestAccount tx) k (TxStatus tx).
Proof.
  intros He Hs. destruct (insert_bank tx tb tb' k He Hs) as (_ & _ & _ & _ & Hbk).
  apply (f_equal (lookup (ID tx))) in Hbk. rw lookup_insert_eq lookup_fmap in Hbk.
  apply fmap_Some in Hbk as (r & ? & ?). by exists r.
Qed.

(** The transaction of a message is stored, with the message's data. *)
Definition recorded (tb : Tables) (p : TxMessage) : Prop :=
  exists r, transactions tb !! msg_tx_id p = Some r /\ row_source r = msg_source p /\
    row_dest r = msg_dest p /\ fair_amount (msg_amount p) (row_amount r).

Lemma recorded_run p ss tb tb' : sql_steps ss tb tb' -> recorded tb p -> recorded tb' p.
Proof.
  intros Hrun (r & Hr & Hs & Hd & Hf). destruct (sql_run_rows _ _ _ _ _ _ _ Hrun Hr) as (r' & Hr' & Es & Ed & Ea).
  exists r'. by rw Es Ed Ea.
Qed.

Lemma recorded_backed tb p : recorded tb p -> payload_backed tb p.
Proof. intros (r & Hr & Hs & Hd & _). by exists r. Qed.

(** ** The moves of the bank *)

(** [Save] of a new pending transaction. *)
Lemma record_step tx tb tb' k : fair_amount (Amount tx) k -> TxStatus tx = StatusPending ->
  sql_step (InsertTx tx) tb tb' -> bank_step (bank_of tb) (bank_of tb').
Proof.
  intros Hf Hst Hs. pose proof (fair_nonneg _ _ Hf). destruct Hf as [_ He].
  destruct (insert_bank tx tb tb' k He Hs) as (Ha & Hn & Is & Id & Hbk).
  unfold bank_of at 2. rw Ha Hbk. apply (bank_record (bank_of tb)); rw ?holdings_is_Some; try done.
  by rw lookup_book Hn.
Qed.

(** The committed transfer of [createSync], with a new identifier. *)
Lemma sync_step tx tb tb' k : fair_amount (Amount tx) k -> transactions tb !! ID tx = None ->
  bank_ok (bank_of tb) -> modest tb ->
  sync_applied tx tb tb' -> bank_step (bank_of tb) (bank_of tb').
Proof.
  intros Hf Hn Hok Hsafe (Hfunds & Hd & Hrun). pose proof (fair_nonneg _ _ Hf).
  destruct (funds_exact _ _ k tb Hf Hfunds (bank_no_overdraft _ Hok) Hsafe) as (c & Hc & Hle).
  destruct Hf as [_ He]. destruct (transfer_exact _ _ _ k _ _ _ He Hrun) as (tb2 & Hbal & Htx & Hrest).
  inversion Hrest as [|n ??? tb3 ? S1 S2]; subst. inversion S2; subst.
  assert (sql_step (InsertTx (set_status StatusCompleted tx)) tb2 tb') as Hins.
  { exists n. unfold sql_exec, upsert_tx in S1. cbn [ID set_status] in S1. rw Htx Hn in S1.
    destruct (tx_row _ _ _) in S1; [exact S1|done]. }
  destruct (insert_bank (set_status StatusCompleted tx) tb2 tb' k He Hins) as (Ha & _ & _ & _ & Hbk). cbn in Hbk. rw Htx in Hbk.
  assert (bank_of tb' = settled (ID tx) (mkPosting (SourceAccount tx) (DestAccount tx) k StatusCompleted) (bank_of tb)) as ->.
  { unfold settled, bank_of. cbn [holdings book po_source po_dest po_cents]. by rw Hbk -Hbal Ha. }
  apply bank_transfer; try done; [by rw lookup_book Hn|]. split; cbn [po_source po_dest po_cents].
  - exists c. by rw lookup_holdings.
  - by apply holdings_is_Some.
Qed.

(** The committed settlement of a message whose transaction is stored: its
    payer could pay, and the money moved. *)
Lemma settle_settled p tb tb' r : fair_amount (msg_amount p) (row_amount r) ->
  transactions tb !! msg_tx_id p = Some r -> row_source r = msg_source p -> row_dest r = msg_dest p ->
  bank_ok (bank_of tb) -> modest tb -> settle_applied p tb tb' ->
  covered (posting_of r) (holdings (bank_of tb)) /\ bank_of tb' = settled (msg_tx_id p) (posting_of r) (bank_of tb).
Proof.
  intros Hf Hr Es Ed Hok Hsafe [Hfunds Hrun].
  destruct (funds_exact _ _ _ tb Hf Hfunds (bank_no_overdraft _ Hok) Hsafe) as (c & Hc & Hle).
  destruct Hf as [_ He]. destruct (transfer_exact _ _ _ _ _ _ _ He Hrun) as (tb2 & Hbal & Htx & Hrest).
  inversion Hrest as [|n ??? tb3 ? S1 S2]; subst. inversion S2; subst. cbn in S1. unfold update_status in S1.
  rw Htx Hr in S1. injection S1 as <-. split.
  - split; cbn [po_source po_dest po_cents posting_of]; [exists c; by rw lookup_holdings Es|].
    apply holdings_is_Some. by apply (bank_fk _ Hok _ _ Hr).
  - unfold settled, bank_of. cbn [holdings book po_source po_dest po_cents posting_of accounts transactions].
    by rw Hbal fmap_insert /post_status /posting_of /= Es Ed.
Qed.

Lemma settle_step p tb tb' r : fair_amount (msg_amount p) (row_amount r) ->
  transactions tb !! msg_tx_id p = Some r -> row_source r = msg_source p -> row_dest r = msg_dest p ->
  row_status r <> StatusCompleted -> bank_ok (bank_of tb) -> modest tb ->
  settle_applied p tb tb' -> bank_step (bank_of tb) (bank_of tb').
Proof.
  intros Hf Hr Es Ed Hst Hok Hsafe Happ. destruct (settle_settled p tb tb' r) as [Hcov ->]; try done.
  apply bank_settle; try done. by rw lookup_book Hr.
Qed.

(** Recording a failure. *)
Lemma fail_posted id tb tb' r : transactions tb !! id = Some r -> sql_step (UpdateTxStatus StatusFailed id) tb tb' ->
  bank_of tb' = mkBank (holdings (bank_of tb)) (<[id := post_status StatusFailed (posting_of r)]> (book (bank_of tb))).
Proof.
  intros Hr [now Hs]. cbn in Hs. unfold update_status in Hs. rw Hr in Hs. cbn in Hs. injection Hs as <-.
  unfold bank_of. cbn. by rw fmap_insert.
Qed.

(** ... of a transaction that is not completed. *)
Lemma fail_step id tb tb' :
  (forall r, transactions tb !! id = Some r -> row_status r <> StatusCompleted) ->
  sql_step (UpdateTxStatus StatusFailed id) tb tb' -> rtc bank_step (bank_of tb) (bank_of tb').
Proof.
  intros Hst Hs. destruct (transactions tb !! id) as [r|] eqn:Hr.
  - apply rtc_once. rw (fail_posted id tb tb' r Hr Hs).
    apply (bank_fail (bank_of tb) id (posting_of r)); [by rw lookup_book Hr|by apply Hst].
  - destruct Hs as [now Hs]. cbn in Hs. unfold update_status in Hs. rw Hr in Hs. by injection Hs as <-.
Qed.
End ledger.
