(* ===== verification/Concurrency.v ===== *)
(** * Transfers that run at the same time

    The requests of the synchronous path and the goroutines of the worker run
    their database transactions concurrently, under READ COMMITTED with row
    locks.  A step relation interleaves them statement by statement: [SELECT
    ... FOR UPDATE] and every [UPDATE] or [INSERT] take the lock of their row
    and wait while another transaction holds it; a transaction sees its own
    writes over the committed tables; commit publishes them and releases the
    locks, and a transaction may be aborted at any time, as the server does to
    break a deadlock.  The theorems say that every interleaving is equivalent
    to the committed transfers, one after the other, in the order of their
    commits. *)

From S2P Require Import Prelude GoNum Float64 Domain Sql Postgres Transfer Redis Queue World.
From S2P Require Import Reference Session Repository TransactionService Worker Settlement.

(** ** Rows *)

(** The key of a row: an account or a transaction. *)
Definition row : Type := (Z + string)%type.

Definition row_at (k : row) (tb : Tables) : option (AccountRow + TxRow) :=
  match k with
  | inl id => inl <$> accounts tb !! id
  | inr id => inr <$> transactions tb !! id
  end.

Lemma tables_eq tb1 tb2 : (forall k, row_at k tb1 = row_at k tb2) -> tb1 = tb2.
Proof.
  intros Heq. destruct tb1 as [a1 t1], tb2 as [a2 t2]. f_equal; apply map_eq; intros i.
  - specialize (Heq (inl i)). cbn in Heq. destruct (a1 !! i), (a2 !! i); cbn in Heq; congruence.
  - specialize (Heq (inr i)). cbn in Heq. destruct (t1 !! i), (t2 !! i); cbn in Heq; congruence.
Qed.

(** The row a statement writes. *)
Definition target (s : stmt) : row :=
  match s with
  | Debit _ id | Credit _ id => inl id
  | InsertTx tx | UpsertTx tx => inr (ID tx)
  | MarkCompleted id | UpdateTxStatus _ id => inr id
  end.

(** The rows [own] written over the tables [tb]. *)
Definition overlay (own tb : Tables) : Tables :=
  mkTables (accounts own ∪ accounts tb) (transactions own ∪ transactions tb).

(** Add row [k] of [tv] to the written rows. *)
Definition record_row (own : Tables) (k : row) (tv : Tables) : Tables :=
  match k with
  | inl id =>
      match accounts tv !! id with
      | Some r => mkTables (<[id := r]> (accounts own)) (transactions own)
      | None => own
      end
  | inr id =>
      match transactions tv !! id with
      | Some r => mkTables (accounts own) (<[id := r]> (transactions own))
      | None => own
      end
  end.

Definition no_rows : Tables := mkTables ∅ ∅.

Lemma row_at_overlay k own tb :
  row_at k (overlay own tb) = match row_at k own with Some r => Some r | None => row_at k tb end.
Proof.
  destruct k as [id|id]; cbn; rw lookup_union.
  - by destruct (accounts own !! id), (accounts tb !! id).
  - by destruct (transactions own !! id), (transactions tb !! id).
Qed.

Lemma overlay_is_Some k own tb : is_Some (row_at k tb) -> is_Some (row_at k (overlay own tb)).
Proof. rw row_at_overlay. by destruct (row_at k own). Qed.

Lemma overlay_none tb : overlay no_rows tb = tb.
Proof. apply tables_eq. intros k. rw row_at_overlay. by destruct k; cbn; rw lookup_empty. Qed.

Lemma row_at_record k j own tv :
  row_at j (record_row own k tv) =
    if decide (j = k) then match row_at k tv with Some r => Some r | None => row_at k own end
    else row_at j own.
Proof.
  destruct k as [id|id]; cbn.
  - destruct (accounts tv !! id) as [r|] eqn:Hr; cbn; case_decide as Hj; subst; cbn; try done.
    + by rw lookup_insert_eq.
    + destruct j as [j|j]; cbn; [|done]. by rw lookup_insert_ne; [congruence|].
  - destruct (transactions tv !! id) as [r|] eqn:Hr; cbn; case_decide as Hj; subst; cbn; try done.
    + by rw lookup_insert_eq.
    + destruct j as [j|j]; cbn; [done|]. by rw lookup_insert_ne; [congruence|].
Qed.

(** ** A statement works on its own row *)
Section local.
Context {P : Type} `{PgDriver P}.

Definition same_accounts (tb1 tb2 : Tables) : Prop :=
  forall id, is_Some (accounts tb1 !! id) <-> is_Some (accounts tb2 !! id).

Lemma sql_step_frame s tb tb' k : sql_step s tb tb' -> k <> target s -> row_at k tb' = row_at k tb.
Proof.
  intros [now Hs] Hk. destruct s as [a i|a i|tx|tx|i|st i]; cbn in *.
  1,2: apply update_balance_Some in Hs as (q & _ & Ht & Ha);
    destruct (accounts tb !! i) as [r|]; [destruct Ha as (b & _ & Ha)|by subst];
    destruct k as [j|j]; cbn; [rw Ha lookup_insert_ne //; congruence|by rw Ht].
  all: unfold upsert_tx, insert_tx, update_status in Hs; case_all;
    destruct k as [j|j]; cbn; try done; rw lookup_insert_ne //; congruence.
Qed.

Lemma sql_step_keeps s tb tb' k : sql_step s tb tb' -> is_Some (row_at k tb) -> is_Some (row_at k tb').
Proof.
  intros [now Hs] Hk. destruct k as [id|id]; cbn in *.
  - rw fmap_is_Some. rw fmap_is_Some in Hk. by apply (sql_exec_accounts _ _ _ _ _ _ id Hs).
  - destruct (transactions tb !! id) as [r|] eqn:Hr; [|by destruct Hk].
    destruct (sql_exec_rows _ _ _ _ _ _ id r Hs Hr) as (r' & -> & _). by eexists.
Qed.

Lemma same_accounts_refl tb : same_accounts tb tb.
Proof. done. Qed.

Lemma row_at_account tb1 tb2 id :
  row_at (inl id) tb2 = row_at (inl id) tb1 -> accounts tb2 !! id = accounts tb1 !! id.
Proof. cbn. destruct (accounts tb1 !! id), (accounts tb2 !! id); cbn; congruence. Qed.

Lemma row_at_transaction tb1 tb2 id :
  row_at (inr id) tb2 = row_at (inr id) tb1 -> transactions tb2 !! id = transactions tb1 !! id.
Proof. cbn. destruct (transactions tb1 !! id), (transactions tb2 !! id); cbn; congruence. Qed.

Lemma fk_ok_same r tb1 tb2 : same_accounts tb1 tb2 -> fk_ok r tb2 = fk_ok r tb1.
Proof. intros Hs. unfold fk_ok. by rw !(bool_decide_ext _ _ (Hs _)). Qed.

(** The effect on the row depends on that row and on which accounts exist. *)
Lemma sql_step_local s tb1 tb1' tb2 :
  sql_step s tb1 tb1' -> row_at (target s) tb2 = row_at (target s) tb1 -> same_accounts tb1 tb2 ->
  exists tb2', sql_step s tb2 tb2' /\ row_at (target s) tb2' = row_at (target s) tb1'.
Proof.
  intros [now Hs] Hrow Hacc.
  assert (forall sign a i, target s = inl i -> update_balance pg_literal sign now a i tb1 = Some tb1' ->
    exists tb2', update_balance pg_literal sign now a i tb2 = Some tb2' /\
      row_at (target s) tb2' = row_at (target s) tb1') as Hbal.
  { intros sign a i Ht Hu. rw Ht in Hrow |- *. apply row_at_account in Hrow.
    unfold update_balance in *. rw Hrow. destruct (pg_literal a); [|done].
    destruct (accounts tb1 !! i) as [r|] eqn:Hr; [|injection Hu as <-; exists tb2; cbn; by rw Hrow Hr].
    destruct (numeric_18_2 _ _); [|done]. injection Hu as <-. eexists. split; [done|]. cbn. by rw !lookup_insert_eq. }
  assert (forall st i, target s = inr i -> update_status now st i tb1 = Some tb1' ->
    exists tb2', update_status now st i tb2 = Some tb2' /\ row_at (target s) tb2' = row_at (target s) tb1') as Hst.
  { intros st i Ht Hu. rw Ht in Hrow |- *. apply row_at_transaction in Hrow.
    unfold update_status in *. rw Hrow. destruct (20 <? String.length st)%nat; [done|].
    destruct (transactions tb1 !! i) as [r|] eqn:Hr; [|injection Hu as <-; exists tb2; cbn; by rw Hrow Hr].
    injection Hu as <-. eexists. split; [done|]. cbn. by rw !lookup_insert_eq. }
  assert (forall tx, target s = inr (ID tx) -> insert_tx pg_literal pg_timestamptz tx tb1 = Some tb1' ->
    exists tb2', insert_tx pg_literal pg_timestamptz tx tb2 = Some tb2' /\
      row_at (target s) tb2' = row_at (target s) tb1') as Hins.
  { intros tx Ht Hu. rw Ht in Hrow |- *. apply row_at_transaction in Hrow. unfold insert_tx in *. rw Hrow.
    destruct (tx_row _ _ tx) as [r|]; [|done]. destruct (transactions tb1 !! ID tx); [done|].
    rw (fk_ok_same r tb1 tb2 Hacc). destruct (fk_ok r tb1); [|done]. injection Hu as <-.
    eexists. split; [done|]. cbn. by rw !lookup_insert_eq. }
  unfold sql_step. destruct s as [a i|a i|tx|tx|i|st i]; cbn in Hs.
  - destruct (Hbal _ _ _ eq_refl Hs) as (tb2' & ? & ?). exists tb2'. split; [by exists now|done].
  - destruct (Hbal _ _ _ eq_refl Hs) as (tb2' & ? & ?). exists tb2'. split; [by exists now|done].
  - destruct (Hins _ eq_refl Hs) as (tb2' & ? & ?). exists tb2'. split; [by exists now|done].
  - apply row_at_transaction in Hrow as Hrow'. unfold upsert_tx in Hs.
    destruct (tx_row pg_literal pg_timestamptz tx) as [r|] eqn:Hr; [|done].
    destruct (transactions tb1 !! ID tx) as [old|] eqn:Hold.
    + injection Hs as <-. eexists. split; [exists now; cbn; unfold upsert_tx; by rw Hr Hrow'|].
      cbn. by rw !lookup_insert_eq.
    + destruct (Hins _ eq_refl Hs) as (tb2' & Hi & ?). exists tb2'. split; [|done]. exists now. cbn.
      unfold upsert_tx. by rw Hr Hrow'.
  - destruct (Hst StatusCompleted i eq_refl Hs) as (tb2' & ? & ?). exists tb2'. split; [by exists now|done].
  - destruct (Hst st i eq_refl Hs) as (tb2' & ? & ?). exists tb2'. split; [by exists now|done].
Qed.

Lemma sql_step_accounts s tb tb' : sql_step s tb tb' -> same_accounts tb tb'.
Proof. intros [now Hs] id. symmetry. by eapply sql_exec_accounts. Qed.

Lemma sql_steps_frame ss tb tv k :
  sql_steps ss tb tv -> (forall s, s ∈ ss -> k <> target s) -> row_at k tv = row_at k tb.
Proof.
  induction 1 as [tb|now s ss tb tb1 tv Hs Hrun IH]; intros Hk; [done|].
  rw IH; [by intros s' Hs'; apply Hk, elem_of_cons; right|]. apply (sql_step_frame s); [by exists now|apply Hk, elem_of_cons; by left].
Qed.

(** Replaying statements on tables that agree on their rows. *)
Lemma sql_steps_local ss tb1 tv1 tb2 :
  sql_steps ss tb1 tv1 -> (forall s, s ∈ ss -> row_at (target s) tb2 = row_at (target s) tb1) ->
  same_accounts tb1 tb2 ->
  exists tv2, sql_steps ss tb2 tv2 /\
    (forall s, s ∈ ss -> row_at (target s) tv2 = row_at (target s) tv1) /\
    (forall k, (forall s, s ∈ ss -> k <> target s) -> row_at k tv2 = row_at k tb2).
Proof.
  intros Hrun. revert tb2. induction Hrun as [tb1|now s ss tb1 tb1' tv1 Hs Hrun IH]; intros tb2 Hrows Hacc.
  { exists tb2. split_and!; [constructor|by intros s ?%not_elem_of_nil|done]. }
  assert (sql_step s tb1 tb1') as Hstep by (by exists now).
  destruct (sql_step_local s tb1 tb1' tb2 Hstep) as (tb2' & Hs2 & Hrow2); [apply Hrows, elem_of_cons; by left|done|].
  destruct (IH tb2') as (tv2 & Hrun2 & Htg & Hfr).
  - intros s' Hs'. destruct (decide (target s' = target s)) as [->|Hne]; [done|].
    rw (sql_step_frame s tb2 tb2') // (sql_step_frame s tb1 tb1') //. apply Hrows, elem_of_cons. by right.
  - intros id. rw -(sql_step_accounts _ _ _ Hstep id) (Hacc id). by apply sql_step_accounts in Hs2.
  - exists tv2. split; [destruct Hs2 as [now2 Hs2]; by eapply sql_run_cons|]. split.
    + intros s' [->|Hs']%elem_of_cons; [|by apply Htg].
      destruct (decide (Exists (fun s' => target s' = target s) ss)) as [Hex|Hno].
      * apply list.Exists_exists in Hex as (s' & Hs' & <-). by apply Htg.
      * assert (forall s', s' ∈ ss -> target s <> target s') as Hno'.
        { intros s' Hs' Heq. apply Hno, list.Exists_exists. by exists s'. }
        rw (Hfr _ Hno') Hrow2. symmetry. by eapply sql_steps_frame.
    + intros k Hk. rw Hfr; [intros s' Hs'; apply Hk, elem_of_cons; by right|].
    apply (sql_step_frame s); [done|apply Hk, elem_of_cons; by left].
Qed.
End local.

(** ** Jobs and threads *)

(** A database transaction: [createSync] of a request, [settle] of a
    message. *)
Inductive job : Type :=
| JobSync (tx : Transaction)
| JobSettle (p : TxMessage).

Definition job_amount (j : job) : f64 :=
  match j with JobSync tx => Amount tx | JobSettle p => msg_amount p end.
Definition job_source (j : job) : Z :=
  match j with JobSync tx => SourceAccount tx | JobSettle p => msg_source p end.
Definition job_dest (j : job) : Z :=
  match j with JobSync tx => DestAccount tx | JobSettle p => msg_dest p end.

(** What follows the debit and the credit. *)
Definition job_rest (j : job) : list stmt :=
  match j with
  | JobSync tx => [UpsertTx (set_status StatusCompleted tx)]
  | JobSettle p => [MarkCompleted (msg_tx_id p)]
  end.
Definition job_statements (j : job) : list stmt :=
  transfer_statements (job_amount j) (job_source j) (job_dest j) (job_rest j).

(** [createSync] verifies the destination, [settle] does not. *)
Definition dest_checked (j : job) (tb : Tables) : Prop :=
  match j with JobSync tx => is_Some (accounts tb !! DestAccount tx) | JobSettle _ => True end.

(** The atomic transfer a job stands for. *)
Definition atomic_job {P} `{PgDriver P} (j : job) (tb tb' : Tables) : Prop :=
  match j with JobSync tx => sync_applied tx tb tb' | JobSettle p => settle_applied p tb tb' end.

Lemma atomic_job_spec {P} `{PgDriver P} j tb tb' :
  atomic_job j tb tb' <->
  funds_checked (job_amount j) (job_source j) tb /\ dest_checked j tb /\ sql_steps (job_statements j) tb tb'.
Proof. destruct j; [done|]. unfold atomic_job, settle_applied. cbn. tauto. Qed.

(** Where a thread stands: before [BeginTxx]; inside its transaction, with
    the statements executed, those to come, and the rows written; or ended. *)
Inductive thread : Type :=
| Waiting (j : job)
| Running (j : job) (past todo : list stmt) (own : Tables)
| Ended (j : job) (committed : bool).

Record cfg : Type := mkCfg {
  tables : Tables;                 (* committed *)
  locks : gmap row nat;            (* row locks, with their thread *)
  threads : gmap nat thread;
  committed_jobs : list job;       (* in the order of the commits *)
}.

(** Row [k] is free, or thread [t] has its lock. *)
Definition lockable (c : cfg) (t : nat) (k : row) : Prop :=
  locks c !! k = None \/ locks c !! k = Some t.

Definition release (t : nat) (ls : gmap row nat) : gmap row nat := filter (fun kt => snd kt <> t) ls.

Section steps.
Context {P : Type} `{PgDriver P}.

(** A statement locks its row if the row exists or it may insert it. *)
Definition takes_lock (s : stmt) (tv : Tables) : bool :=
  match s with InsertTx _ | UpsertTx _ => true | _ => bool_decide (is_Some (row_at (target s) tv)) end.

Inductive cstep : cfg -> cfg -> Prop :=
(** [SELECT balance ... FOR UPDATE], the check of the funds, and for
    [createSync] the [SELECT EXISTS]: which accounts exist never changes *)
| cstep_check c t j :
    threads c !! t = Some (Waiting j) -> lockable c t (inl (job_source j)) ->
    funds_checked (job_amount j) (job_source j) (tables c) -> dest_checked j (tables c) ->
    cstep c (mkCfg (tables c) (<[inl (job_source j) := t]> (locks c))
               (<[t := Running j [] (job_statements j) no_rows]> (threads c)) (committed_jobs c))
(** the checks fail, or any error ends the transaction before or in it *)
| cstep_refuse c t j :
    threads c !! t = Some (Waiting j) ->
    cstep c (mkCfg (tables c) (locks c) (<[t := Ended j false]> (threads c)) (committed_jobs c))
| cstep_abort c t j past todo own :
    threads c !! t = Some (Running j past todo own) ->
    cstep c (mkCfg (tables c) (release t (locks c)) (<[t := Ended j false]> (threads c)) (committed_jobs c))
(** one statement, on its own writes over the committed tables *)
| cstep_exec c t j past s todo own tv :
    threads c !! t = Some (Running j past (s :: todo) own) -> lockable c t (target s) ->
    sql_step s (overlay own (tables c)) tv ->
    cstep c (mkCfg (tables c)
               (if takes_lock s tv then <[target s := t]> (locks c) else locks c)
               (<[t := Running j (past ++ [s]) todo (record_row own (target s) tv)]> (threads c))
               (committed_jobs c))
| cstep_commit c t j past own :
    threads c !! t = Some (Running j past [] own) ->
    cstep c (mkCfg (overlay own (tables c)) (release t (locks c)) (<[t := Ended j true]> (threads c))
               (committed_jobs c ++ [j])).

(** The steps as a function of the scheduler's choice. *)
Inductive choice : Type :=
| Begin (t : nat) | Exec (t : nat) (now : Z) | Finish (t : nat) | Kill (t : nat).

Definition lockable_b (c : cfg) (t : nat) (k : row) : bool :=
  match locks c !! k with None => true | Some t' => Nat.eqb t' t end.

Definition checks_b (j : job) (tb : Tables) : bool :=
  match balance_of (job_source j) tb with
  | Some cents => negb (f64_ltb (scan_numeric cents) (job_amount j))
  | None => false
  end &&
  match j with JobSync tx => bool_decide (is_Some (accounts tb !! DestAccount tx)) | JobSettle _ => true end.

Definition step_choice (ch : choice) (c : cfg) : option cfg :=
  match ch with
  | Begin t =>
      match threads c !! t with
      | Some (Waiting j) =>
          if lockable_b c t (inl (job_source j))
          then Some (if checks_b j (tables c)
                     then mkCfg (tables c) (<[inl (job_source j) := t]> (locks c))
                            (<[t := Running j [] (job_statements j) no_rows]> (threads c)) (committed_jobs c)
                     else mkCfg (tables c) (locks c) (<[t := Ended j false]> (threads c)) (committed_jobs c))
          else None
      | _ => None
      end
  | Exec t now =>
      match threads c !! t with
      | Some (Running j past (s :: todo) own) =>
          if lockable_b c t (target s)
          then match sql_exec pg_literal pg_timestamptz now s (overlay own (tables c)) with
               | Some tv =>
                   Some (mkCfg (tables c)
                           (if takes_lock s tv then <[target s := t]> (locks c) else locks c)
                           (<[t := Running j (past ++ [s]) todo (record_row own (target s) tv)]> (threads c))
                           (committed_jobs c))
               | None => None
               end
          else None
      | _ => None
      end
  | Finish t =>
      match threads c !! t with
      | Some (Running j past [] own) =>
          Some (mkCfg (overlay own (tables c)) (release t (locks c)) (<[t := Ended j true]> (threads c))
                  (committed_jobs c ++ [j]))
      | _ => None
      end
  | Kill t =>
      match threads c !! t with
      | Some (Running j past todo own) =>
          Some (mkCfg (tables c) (release t (locks c)) (<[t := Ended j false]> (threads c)) (committed_jobs c))
      | _ => None
      end
  end.

Fixpoint schedule (chs : list choice) (c : cfg) : option cfg :=
  match chs with
  | [] => Some c
  | ch :: chs => match step_choice ch c with Some c1 => schedule chs c1 | None => None end
  end.

Lemma lockable_b_true c t k : lockable_b c t k = true -> lockable c t k.
Proof. unfold lockable_b, lockable. destruct (locks c !! k); [intros ->%Nat.eqb_eq|]; auto. Qed.

Lemma checks_b_true j tb : checks_b j tb = true -> funds_checked (job_amount j) (job_source j) tb /\ dest_checked j tb.
Proof.
  unfold checks_b, funds_checked. intros [Hf Hd]%andb_prop. destruct (balance_of _ tb) as [c|]; [|done].
  apply negb_true_iff in Hf. split; [by exists c|]. destruct j; [|done]. by apply bool_decide_eq_true_1 in Hd.
Qed.

Lemma step_choice_sound ch c c' : step_choice ch c = Some c' -> cstep c c'.
Proof.
  destruct ch as [t|t now|t|t]; cbn; intros Hs; destruct (threads c !! t) as [[j|j past [|s todo] own|]|] eqn:Ht; try done.
  - destruct (lockable_b c t _) eqn:Hl; [|done]. destruct (checks_b j (tables c)) eqn:Hc; injection Hs as <-;
      [|by apply cstep_refuse]. apply checks_b_true in Hc as [Hf Hd]. by apply cstep_check; [|apply lockable_b_true| |].
  - destruct (lockable_b c t _) eqn:Hl; [|done]. destruct (sql_exec _ _ _ _ _) as [tv|] eqn:Hx; [|done].
    injection Hs as <-. apply (cstep_exec c t); [done|by apply lockable_b_true|by exists now].
  - injection Hs as <-. by eapply cstep_commit.
  - injection Hs as <-. by eapply cstep_abort.
  - injection Hs as <-. by eapply cstep_abort.
Qed.

Lemma schedule_sound chs c c' : schedule chs c = Some c' -> rtc cstep c c'.
Proof.
  revert c. induction chs as [|ch chs IH]; cbn; intros c Hs; [by injection Hs as ->|].
  destruct (step_choice ch c) as [c1|] eqn:Hc; [|done]. eapply rtc_l; [by eapply step_choice_sound|by apply IH].
Qed.

(** A job alone, every statement at time [now]. *)
Fixpoint exec_all (now : Z) (ss : list stmt) (tb : Tables) : option Tables :=
  match ss with
  | [] => Some tb
  | s :: ss =>
      match sql_exec pg_literal pg_timestamptz now s tb with Some tb1 => exec_all now ss tb1 | None => None end
  end.
Definition exec_job (now : Z) (j : job) (tb : Tables) : option Tables :=
  if checks_b j tb then exec_all now (job_statements j) tb else None.

Lemma exec_job_sound now j tb tb' : exec_job now j tb = Some tb' -> atomic_job j tb tb'.
Proof.
  unfold exec_job. destruct (checks_b j tb) eqn:Hc; [|done]. apply checks_b_true in Hc as [Hf Hd]. intros Hx.
  apply atomic_job_spec. split_and!; [done|done|]. clear Hf Hd. revert tb Hx.
  induction (job_statements j) as [|s ss IH]; cbn; intros tb Hx; [injection Hx as ->; constructor|].
  destruct (sql_exec _ _ _ _ _) as [tb1|] eqn:Hs; [|done]. eapply sql_run_cons; [exact Hs|by apply IH].
Qed.

(** The transfers of [js], one after the other. *)
Inductive serial : list job -> Tables -> Tables -> Prop :=
| serial_nil tb : serial [] tb tb
| serial_snoc js j tb tb1 tb2 : serial js tb tb1 -> atomic_job j tb1 tb2 -> serial (js ++ [j]) tb tb2.

(** ** The invariant *)

(** A settlement refers to a stored transaction. *)
Definition job_backed (j : job) (tb : Tables) : Prop :=
  match j with JobSync _ => True | JobSettle p => payload_backed tb p end.

(** A running transaction: replaying what it executed on the committed tables
    gives what it sees; the rows it wrote or checked are locked by it. *)
Record thread_inv (tb : Tables) (ls : gmap row nat) (t : nat) (j : job) (past todo : list stmt)
    (own : Tables) : Prop := {
  ti_replay : sql_steps past tb (overlay own tb);
  ti_split : past ++ todo = job_statements j;
  ti_locked : forall s, s ∈ past -> ls !! target s = Some t \/
                (exists id, target s = inl id /\ accounts tb !! id = None);
  ti_own : forall k, is_Some (row_at k own) -> ls !! k = Some t /\ exists s, s ∈ past /\ k = target s;
  ti_source : ls !! inl (job_source j) = Some t;
  ti_funds : funds_checked (job_amount j) (job_source j) tb;
  ti_dest : dest_checked j tb;
}.

Definition threads_inv (c : cfg) : Prop :=
  map_Forall (fun t th =>
    match th with
    | Waiting j => job_backed j (tables c)
    | Running j past todo own => job_backed j (tables c) /\ thread_inv (tables c) (locks c) t j past todo own
    | Ended _ _ => True
    end) (threads c).

Lemma thread_inv_locks tb ls ls' t j past todo own :
  (forall k, ls !! k = Some t -> ls' !! k = Some t) ->
  thread_inv tb ls t j past todo own -> thread_inv tb ls' t j past todo own.
Proof.
  intros Hl [Hr Hsp Hlk Ho Hs Hf Hd]. split; try done; [| |by apply Hl].
  - intros s Hs'. destruct (Hlk s Hs') as [?|?]; [left; by apply Hl|by right].
  - intros k Hk. destruct (Ho k Hk) as [? ?]. split; [by apply Hl|done].
Qed.

(** The commit of another transaction leaves the rows of [t] alone. *)
Lemma thread_inv_tables tb tb' ls t j past todo own :
  (forall k, ls !! k = Some t -> row_at k tb' = row_at k tb) -> same_accounts tb tb' ->
  thread_inv tb ls t j past todo own -> thread_inv tb' ls t j past todo own.
Proof.
  intros Hrows Hacc [Hr Hsp Hlk Ho Hs Hf Hd].
  assert (forall s, s ∈ past -> row_at (target s) tb' = row_at (target s) tb) as Htg.
  { intros s Hsd. destruct (Hlk s Hsd) as [?|(id & -> & Hnone)]; [by apply Hrows|]. cbn. rw Hnone.
    enough (accounts tb' !! id = None) as -> by done. apply eq_None_not_Some. intros Hsome%Hacc.
    by rw Hnone in Hsome; destruct Hsome. }
  split; try done.
  - destruct (sql_steps_local past tb (overlay own tb) tb' Hr Htg Hacc) as (tv & Hrun & Ht & Hfr).
    enough (tv = overlay own tb') as -> by done. apply tables_eq. intros k. rw row_at_overlay.
    destruct (decide (Exists (fun s => target s = k) past)) as [Hex|Hno].
    + apply list.Exists_exists in Hex as (s & Hsd & <-). rw (Ht s Hsd) row_at_overlay.
      destruct (row_at (target s) own); [done|]. by rw Htg.
    + assert (forall s, s ∈ past -> k <> target s) as Hno'.
      { intros s Hsd ->. apply Hno, list.Exists_exists. by exists s. }
      rw (Hfr k Hno'). destruct (row_at k own) as [rk|] eqn:Hk; [|done].
      destruct (Ho k ltac:(by eexists)) as (_ & s0 & Hsd & ->). by destruct (Hno' s0 Hsd).
  - intros s Hsd. destruct (Hlk s Hsd) as [?|(id & Hid & Hnone)]; [by left|]. right. exists id. split; [done|].
    apply eq_None_not_Some. intros Hsome%Hacc. by rw Hnone in Hsome; destruct Hsome.
  - destruct Hf as (cents & Hb & Hlt). exists cents. split; [|done]. unfold balance_of in *.
    by rw (row_at_account _ _ _ (Hrows _ Hs)).
  - destruct j; [|done]. by apply Hacc.
Qed.

Lemma lock_insert_other (c : cfg) t t' k k' :
  lockable c t k -> t' <> t -> locks c !! k' = Some t' -> <[k := t]> (locks c) !! k' = Some t'.
Proof.
  intros Hk Hne Hk'. rw lookup_insert_ne //. intros ->. destruct Hk as [Hk|Hk]; congruence.
Qed.

Lemma lock_insert_own (ls : gmap row nat) t k k' : ls !! k' = Some t -> <[k := t]> ls !! k' = Some t.
Proof. intros Hk. rw lookup_insert. by case_decide. Qed.

Lemma release_other t t' ls k : t' <> t -> ls !! k = Some t' -> release t ls !! k = Some t'.
Proof. intros Hne Hk. unfold release. by apply map_lookup_filter_Some. Qed.

Lemma job_backed_steps j ss tb tb' : sql_steps ss tb tb' -> job_backed j tb -> job_backed j tb'.
Proof.
  intros Hrun. destruct j as [tx|p]; [done|]. intros (r & Hr & Hs & Hd).
  destruct (sql_run_rows _ _ _ _ _ _ _ Hrun Hr) as (r' & Hr' & Es & Ed & _). exists r'. by rw Es Ed.
Qed.

Lemma sql_steps_accounts ss tb tb' : sql_steps ss tb tb' -> same_accounts tb tb'.
Proof. intros Hrun id. symmetry. by eapply sql_run_accounts. Qed.

(** One thread moves; the others keep their invariant. *)
Lemma threads_inv_update c t th tb' ls' js :
  threads_inv c ->
  (forall t' k, t' <> t -> locks c !! k = Some t' -> ls' !! k = Some t' /\ row_at k tb' = row_at k (tables c)) ->
  (exists ss, sql_steps ss (tables c) tb') ->
  match th with
  | Waiting j => job_backed j tb'
  | Running j past todo own => job_backed j tb' /\ thread_inv tb' ls' t j past todo own
  | Ended _ _ => True
  end ->
  threads_inv (mkCfg tb' ls' (<[t := th]> (threads c)) js).
Proof.
  intros Hinv Hothers [ss Hrun] Hth t' th' Ht'. cbn in *.
  destruct (decide (t' = t)) as [->|Hne]; [rw lookup_insert_eq in Ht'; by injection Ht' as <-|].
  rw lookup_insert_ne in Ht'; [congruence|]. specialize (Hinv t' th' Ht'). cbn in Hinv.
  destruct th' as [j|j past todo own|]; [by eapply job_backed_steps| |done].
  destruct Hinv as [Hb Hi]. split; [by eapply job_backed_steps|].
  apply (thread_inv_locks _ (locks c)); [intros k Hk; by apply (Hothers t' k Hne Hk)|].
  apply (thread_inv_tables (tables c)); [|by eapply sql_steps_accounts|done].
  intros k Hk. by apply (Hothers t' k Hne Hk).
Qed.

(** ** Every step keeps the invariant *)

Lemma thread_inv_start tb ls t j :
  ls !! inl (job_source j) = Some t -> funds_checked (job_amount j) (job_source j) tb -> dest_checked j tb ->
  thread_inv tb ls t j [] (job_statements j) no_rows.
Proof.
  intros Hl Hf Hd. split; try done.
  - rw overlay_none. constructor.
  - by intros s ?%not_elem_of_nil.
  - intros k. destruct k as [id|id]; cbn; rw lookup_empty; by intros [? ?].
Qed.

(** What a transaction sees after a statement: its rows over the tables. *)
Lemma overlay_record s own tb tv :
  sql_step s (overlay own tb) tv -> overlay (record_row own (target s) tv) tb = tv.
Proof.
  intros Hs. apply tables_eq. intros k. rw row_at_overlay row_at_record. case_decide as Hk.
  - subst k. destruct (row_at (target s) tv) as [r|] eqn:Htv; [done|].
    pose proof (sql_step_keeps s _ _ (target s) Hs) as Hkeep. rw row_at_overlay Htv in Hkeep.
    destruct (row_at (target s) own); [by destruct Hkeep|]. destruct (row_at (target s) tb); [by destruct Hkeep|done].
  - by rw (sql_step_frame s _ _ k Hs Hk) row_at_overlay.
Qed.

(** A statement that takes no lock is an update of an account that is not
    there. *)
Lemma takes_lock_false j s own tb tv :
  s ∈ job_statements j -> job_backed j tb -> sql_step s (overlay own tb) tv -> takes_lock s tv = false ->
  exists id, target s = inl id /\ accounts tb !! id = None.
Proof.
  intros Hin Hb Hs Hl.
  pose proof (fun h => sql_step_keeps s _ _ (target s) Hs (overlay_is_Some _ own tb h)) as Hkeep.
  assert (forall id, target s = inl id -> row_at (target s) tv = None -> accounts tb !! id = None) as Hacc.
  { intros id Ht Hnone. rw Hnone Ht in Hkeep. apply eq_None_not_Some. intros [r Hr].
    cbn in Hkeep. rw Hr in Hkeep. by destruct (Hkeep ltac:(by eexists)). }
  destruct s as [a i|a i|tx|tx|i|st i]; cbn [takes_lock] in Hl; try done;
    apply bool_decide_eq_false_1, eq_None_not_Some in Hl; try by exists i; auto.
  all: destruct j as [tx|p]; cbn in Hin; repeat (apply elem_of_cons in Hin as [Hin|Hin]; [try done|]);
    try by apply not_elem_of_nil in Hin.
  injection Hin as ->. destruct Hb as (r & Hr & _). rw Hl in Hkeep. cbn in Hkeep.
  rw Hr in Hkeep. by destruct (Hkeep ltac:(by eexists)).
Qed.

Lemma thread_inv_exec tb ls t j past s todo own tv :
  job_backed j tb -> sql_step s (overlay own tb) tv -> thread_inv tb ls t j past (s :: todo) own ->
  thread_inv tb (if takes_lock s tv then <[target s := t]> ls else ls) t j
    (past ++ [s]) todo (record_row own (target s) tv).
Proof.
  intros Hb Hs [Hr Hsp Hlk Ho Hso Hf Hd].
  set (ls' := if takes_lock s tv then _ else ls).
  assert (forall k, ls !! k = Some t -> ls' !! k = Some t) as Hmono.
  { intros k Hk. unfold ls'. destruct (takes_lock s tv); [by apply lock_insert_own|done]. }
  assert (is_Some (row_at (target s) tv) -> ls' !! target s = Some t) as Hown.
  { intros Hrow. unfold ls'. enough (takes_lock s tv = true) as -> by apply lookup_insert_eq.
    destruct s; cbn; try done; by apply bool_decide_eq_true_2. }
  split; try done; [| | | |by apply Hmono].
  - rw overlay_record //. by eapply sql_steps_snoc.
  - by rw -app_assoc.
  - intros s' [Hs'|Hs']%elem_of_app.
    { destruct (Hlk s' Hs'); [left; by apply Hmono|by right]. }
    apply list_elem_of_singleton in Hs' as ->. destruct (takes_lock s tv) eqn:Htl.
    + left. unfold ls'. apply lookup_insert_eq.
    + right. eapply takes_lock_false; try done. rw -Hsp. apply elem_of_app. right. apply elem_of_cons. by left.
  - intros k. rw row_at_record. case_decide as Hk.
    + subst k. intros Hrow. split; [|exists s; split; [apply elem_of_app; right; by apply list_elem_of_singleton|done]].
      destruct (row_at (target s) tv) as [r|] eqn:Htv; [apply Hown; by eexists|]. by apply Hmono, Ho.
    + intros Hrow. destruct (Ho k Hrow) as (Hk' & s' & Hs' & ->). split; [by apply Hmono|].
      exists s'. split; [apply elem_of_app; by left|done].
Qed.

Lemma threads_inv_step c c' : cstep c c' -> threads_inv c -> threads_inv c'.
Proof.
  intros Hstep Hinv.
  assert (exists ss, sql_steps ss (tables c) (tables c)) as Hrefl by (exists []; constructor).
  destruct Hstep as [c t j Ht Hl Hf Hd|c t j Ht|c t j past todo own Ht|c t j past s todo own tv Ht Hl Hs|c t j past own Ht];
    pose proof (Hinv _ _ Ht) as Hth; cbn in Hth; apply threads_inv_update; try done.
  - intros t' k Hne Hk. split; [by eapply lock_insert_other|done].
  - split; [done|]. apply thread_inv_start; try done. apply lookup_insert_eq.
  - intros t' k Hne Hk. split; [by apply release_other|done].
  - intros t' k Hne Hk. split; [|done]. destruct (takes_lock s tv); [by eapply lock_insert_other|done].
  - destruct Hth as [Hb Hi]. split; [done|]. by apply thread_inv_exec.
  - destruct Hth as [_ Hi]. intros t' k Hne Hk. split; [by apply release_other|]. rw row_at_overlay.
    destruct (row_at k own) as [r|] eqn:Hr; [|done].
    destruct (ti_own _ _ _ _ _ _ _ Hi k ltac:(by eexists)) as [Hk' _]. congruence.
  - destruct Hth as [_ Hi]. eexists. apply (ti_replay _ _ _ _ _ _ _ Hi).
Qed.

(** A step publishes nothing, or commits one job as an atomic transfer. *)
Lemma cstep_tables c c' : cstep c c' -> threads_inv c ->
  (tables c' = tables c /\ committed_jobs c' = committed_jobs c) \/
  exists j, committed_jobs c' = committed_jobs c ++ [j] /\ atomic_job j (tables c) (tables c').
Proof.
  intros Hstep Hinv. destruct Hstep as [c t j Ht|c t j Ht|c t j past todo own Ht|c t j past s todo own tv Ht|c t j past own Ht];
    try by left. right. exists j. split; [done|]. destruct (Hinv _ _ Ht) as [_ [Hr Hsp _ _ _ Hf Hd]].
  apply atomic_job_spec. rw app_nil_r in Hsp. by rw -Hsp.
Qed.

(** ** Jobs that may still commit *)

Definition thread_job (th : thread) : job :=
  match th with Waiting j => j | Running j _ _ _ => j | Ended j _ => j end.
Definition live (th : thread) : Z := match th with Ended _ _ => 0 | _ => 1 end.
Definition pending (c : cfg) : Z := map_sum live (threads c).
Lemma pending_nonneg c : 0 <= pending c.
Proof. apply map_sum_nonneg. by intros t [] _. Qed.

Definition all_jobs (Q : job -> Prop) (c : cfg) : Prop := map_Forall (fun _ th => Q (thread_job th)) (threads c).

Lemma cstep_thread c c' : cstep c c' -> exists t th th',
  threads c !! t = Some th /\ threads c' = <[t := th']> (threads c) /\ thread_job th' = thread_job th /\
  live th' - live th = match th' with Ended _ _ => - 1 | _ => 0 end /\
  (committed_jobs c' = committed_jobs c \/ committed_jobs c' = committed_jobs c ++ [thread_job th] /\ live th' = 0).
Proof.
  destruct 1 as [c t j Ht|c t j Ht|c t j past todo own Ht|c t j past s todo own tv Ht|c t j past own Ht];
    do 3 eexists; (split; [exact Ht|]); split_and!; try done; try by left. by right.
Qed.

Lemma all_jobs_step Q c c' : cstep c c' -> all_jobs Q c ->
  all_jobs Q c' /\ exists js, committed_jobs c' = committed_jobs c ++ js /\ Forall Q js /\
    Z.of_nat (length js) + pending c' <= pending c.
Proof.
  intros (t & th & th' & Ht & Hth & Hj & Hlive & Hc)%cstep_thread HQ.
  pose proof (HQ t th Ht) as HQt. cbn in HQt. unfold pending, all_jobs.
  rw Hth (map_sum_insert live _ _ _ _ Ht). split; [by apply map_Forall_insert_2; [rw Hj|]|].
  destruct Hc as [->|[-> Hdead]].
  - exists []. rw app_nil_r. split_and!; [done|constructor|]. cbn [length]. destruct th'; lia.
  - eexists. split_and!; [done|by constructor|]. cbn [length]. destruct th'; cbn in *; lia.
Qed.

Lemma interleavings_spec Q c c' : rtc cstep c c' -> threads_inv c -> all_jobs Q c ->
  exists js, committed_jobs c' = committed_jobs c ++ js /\ serial js (tables c) (tables c') /\ Forall Q js /\
    Z.of_nat (length js) + pending c' <= pending c.
Proof.
  intros Hrun Hinv HQ.
  enough (threads_inv c' /\ all_jobs Q c' /\ exists js, committed_jobs c' = committed_jobs c ++ js /\
    serial js (tables c) (tables c') /\ Forall Q js /\ Z.of_nat (length js) + pending c' <= pending c)
    by intuition.
  revert c' Hrun. apply (rtc_ind_r _ c).
  - split_and!; try done. exists []. rw app_nil_r. split_and!; try done; constructor.
  - intros c1 c2 _ Hstep (Hinv1 & HQ1 & js & Hjs & Hser & HQs & Hp).
    destruct (all_jobs_step Q c1 c2 Hstep HQ1) as (HQ2 & js2 & Hjs2 & HQs2 & Hp2).
    split_and!; [by eapply threads_inv_step|done|]. exists (js ++ js2).
    split_and!; [by rw Hjs2 Hjs app_assoc| |by apply Forall_app|rw length_app; lia].
    destruct (cstep_tables c1 c2 Hstep Hinv1) as [[-> Hc]|(j & Hc & Hj)]; rw Hc in Hjs2.
    + rw -{1}(app_nil_r (committed_jobs c1)) in Hjs2. apply app_inv_head in Hjs2 as <-. by rw app_nil_r.
    + apply app_inv_head in Hjs2 as <-. by eapply serial_snoc.
Qed.

(** ** What the serial order says about the money *)

Lemma job_rest_untouched j : untouched (job_rest j).
Proof. destruct j; by repeat constructor. Qed.

Lemma atomic_job_parties j tb tb' : atomic_job j tb tb' -> fk_inv tb -> job_backed j tb ->
  is_Some (accounts tb !! job_source j) /\ is_Some (accounts tb !! job_dest j).
Proof.
  intros ((c & Hc & _) & Hd & _)%atomic_job_spec Hfk Hb. split; [by eapply balance_of_is_Some|].
  destruct j as [tx|p]; [done|]. destruct Hb as (r & Hr & _ & Hrd). cbn. rw -Hrd. by eapply Hfk.
Qed.

Lemma serial_steps js tb tb' : serial js tb tb' -> exists ss, sql_steps ss tb tb'.
Proof.
  induction 1 as [tb|js j tb tb1 tb2 _ [ss IH] (_ & _ & Hrun)%atomic_job_spec]; [exists []; constructor|].
  exists (ss ++ job_statements j). clear -IH Hrun.
  induction IH as [tb|now s ss tb tb0 tb1 Hs _ IH]; [done|]. eapply sql_run_cons; [done|by apply IH].
Qed.

Definition job_whole (j : job) : Prop := forall q, pg_literal (job_amount j) = Some q -> whole_cents q.

Lemma serial_conserves js tb tb' : serial js tb tb' -> fk_inv tb -> Forall (fun j => job_backed j tb) js ->
  Z.abs (total_balance tb' - total_balance tb) <= Z.of_nat (length js) /\
  (Forall job_whole js -> total_balance tb' = total_balance tb).
Proof.
  intros Hser. induction Hser as [tb|js j tb tb1 tb2 Hser IH Hj]; intros Hfk Hb; [cbn; lia|].
  apply Forall_app in Hb as [Hbs Hbj]. apply Forall_inv in Hbj.
  destruct (IH Hfk Hbs) as [IH1 IH2]. destruct (serial_steps _ _ _ Hser) as [ss Hss].
  destruct (atomic_job_parties _ _ _ Hj (sql_run_fk _ _ _ _ _ Hss Hfk) (job_backed_steps _ _ _ _ Hss Hbj)) as [Hs Hd].
  apply atomic_job_spec in Hj as (_ & _ & Hrun).
  destruct (transfer_conserves _ _ _ _ _ _ Hrun (job_rest_untouched j) Hs Hd) as [H1 H2].
  rw length_app. cbn [length]. split; [lia|]. intros [Hws Hwj]%Forall_app. apply Forall_inv in Hwj.
  destruct (transfer_inv _ _ _ _ _ _ Hrun) as (q & _ & _ & _ & _ & Hq & _). rw (H2 q Hq (Hwj q Hq)). by apply IH2.
Qed.

Lemma serial_no_overdraft `{!PgLiteral P} js tb tb' :
  serial js tb tb' -> fk_inv tb -> Forall (fun j => job_backed j tb) js ->
  Forall (fun j => good_amount (job_amount j)) js -> no_overdraft tb ->
  total_balance tb + Z.of_nat (length js) <= safe_cents -> no_overdraft tb'.
Proof.
  intros Hser. induction Hser as [tb|js j tb tb1 tb2 Hser IH Hj]; intros Hfk Hb Hg Hno Hsafe; [done|].
  apply Forall_app in Hb as [Hbs _]. apply Forall_app in Hg as [Hgs Hgj]. apply Forall_inv in Hgj.
  rw length_app in Hsafe. cbn [length] in Hsafe.
  destruct (serial_conserves _ _ _ Hser Hfk Hbs) as [Htot _]. apply atomic_job_spec in Hj as (Hf & _ & Hrun).
  assert (no_overdraft tb1) as Hno1 by (apply IH; try done; lia).
  eapply transfer_keeps_no_overdraft; [exact Hrun|apply job_rest_untouched|done|done|done|].
  intros c Hc. pose proof (balance_le_total _ _ _ Hno1 Hc). lia.
Qed.

(** ** Runs *)

(** Nobody else holds a lock. *)
Definition locks_of (t : nat) (ls : gmap row nat) : Prop := map_Forall (fun _ t' => t' = t) ls.

Lemma locks_of_lockable c t k : locks_of t (locks c) -> lockable c t k.
Proof. intros Hl. unfold lockable. destruct (locks c !! k) as [t'|] eqn:Hk; [right|by left]. by rw (Hl k t' Hk). Qed.

Lemma locks_of_insert t ls k : locks_of t ls -> locks_of t (<[k := t]> ls).
Proof. intros Hl. by apply map_Forall_insert_2. Qed.

Lemma locks_of_release t ls : locks_of t ls -> release t ls = ∅.
Proof.
  intros Hl. apply map_eq. intros k. rw lookup_empty. apply map_lookup_filter_None. right.
  intros t' Hk Hne. by apply Hne, (Hl k).
Qed.

Lemma exec_run t j todo : forall c past own tb',
  threads c !! t = Some (Running j past todo own) -> locks_of t (locks c) ->
  sql_steps todo (overlay own (tables c)) tb' ->
  exists ls own', locks_of t ls /\ overlay own' (tables c) = tb' /\
    rtc cstep c (mkCfg (tables c) ls (<[t := Running j (past ++ todo) [] own']> (threads c)) (committed_jobs c)).
Proof.
  induction todo as [|s todo IH]; intros c past own tb' Ht Hl Hrun.
  - inversion Hrun; subst. exists (locks c), own. split_and!; [done|done|]. rw app_nil_r (insert_id _ _ _ Ht).
    by destruct c.
  - inversion Hrun as [|now ??? tv ? Hs Hrest]; subst. assert (sql_step s (overlay own (tables c)) tv) as Hst by (by exists now).
    set (c1 := mkCfg (tables c) (if takes_lock s tv then <[target s := t]> (locks c) else locks c)
                 (<[t := Running j (past ++ [s]) todo (record_row own (target s) tv)]> (threads c)) (committed_jobs c)).
    destruct (IH c1 (past ++ [s]) (record_row own (target s) tv) tb') as (ls & own' & Hls & Hov & Hsteps).
    + apply lookup_insert_eq.
    + cbn. destruct (takes_lock s tv); [by apply locks_of_insert|done].
    + cbn. by rw overlay_record.
    + exists ls, own'. split_and!; [done|done|]. eapply rtc_l; [by eapply cstep_exec; [|apply locks_of_lockable|]|].
      cbn in Hsteps. rw -app_assoc insert_insert_eq in Hsteps. exact Hsteps.
Qed.

(** A transaction that nobody disturbs commits its transfer. *)
Lemma transaction_run c t j tb' :
  threads c !! t = Some (Waiting j) -> locks_of t (locks c) -> atomic_job j (tables c) tb' ->
  rtc cstep c (mkCfg tb' ∅ (<[t := Ended j true]> (threads c)) (committed_jobs c ++ [j])).
Proof.
  intros Ht Hl (Hf & Hd & Hrun)%atomic_job_spec.
  eapply rtc_l; [by apply (cstep_check c t j); [|apply locks_of_lockable| |]|].
  set (c1 := mkCfg (tables c) (<[inl (job_source j) := t]> (locks c))
               (<[t := Running j [] (job_statements j) no_rows]> (threads c)) (committed_jobs c)).
  destruct (exec_run t j (job_statements j) c1 [] no_rows tb') as (ls & own & Hls & <- & Hsteps).
  - apply lookup_insert_eq.
  - by apply locks_of_insert.
  - cbn. by rw overlay_none.
  - etrans; [exact Hsteps|]. apply rtc_once. cbn. rw insert_insert_eq.
    pose proof (cstep_commit (mkCfg (tables c) ls (<[t := Running j (job_statements j) [] own]> (threads c)) (committed_jobs c))
      t j (job_statements j) own (lookup_insert_eq _ _ _)) as Hc.
    cbn in Hc. by rw insert_insert_eq locks_of_release in Hc.
Qed.

(** ** Deadlock *)

(** [t] has debited its source and waits for [t'] to release the row that its
    credit needs. *)
Definition blocked_by (c : cfg) (t t' : nat) (j : job) : Prop :=
  (exists own, threads c !! t = Some (Running j [Debit (job_amount j) (job_source j)]
     (Credit (job_amount j) (job_dest j) :: job_rest j) own)) /\
  locks c !! inl (job_dest j) = Some t' /\ t' <> t.

(** Only two threads, each blocked by the other: a step aborts one. *)
Lemma deadlocked_step c c' t1 t2 j1 j2 :
  (forall t, is_Some (threads c !! t) -> t = t1 \/ t = t2) -> blocked_by c t1 t2 j1 -> blocked_by c t2 t1 j2 ->
  cstep c c' ->
  tables c' = tables c /\ committed_jobs c' = committed_jobs c /\
  (threads c' !! t1 = Some (Ended j1 false) \/ threads c' !! t2 = Some (Ended j2 false)).
Proof.
  intros Hdom ([own1 H1] & L1 & N1) ([own2 H2] & L2 & N2) Hstep.
  destruct Hstep as [c t j Ht|c t j Ht|c t j past todo own Ht|c t j past s todo own tv Ht Hlk|c t j past own Ht];
    destruct (Hdom t ltac:(by rw Ht)) as [-> | ->]; rewrite ?H1 ?H2 in Ht; simplify_eq; cbn.
  - split_and!; [done|done|]. left. apply lookup_insert_eq.
  - split_and!; [done|done|]. right. apply lookup_insert_eq.
  - destruct Hlk as [Hlk|Hlk]; cbn in Hlk; rewrite L1 in Hlk; congruence.
  - destruct Hlk as [Hlk|Hlk]; cbn in Hlk; rewrite L2 in Hlk; congruence.
Qed.

(** [t] begins its transaction and debits its source. *)
Lemma begin_and_debit c t j tv n :
  threads c !! t = Some (Waiting j) -> lockable c t (inl (job_source j)) ->
  funds_checked (job_amount j) (job_source j) (tables c) -> dest_checked j (tables c) ->
  sql_exec pg_literal pg_timestamptz n (Debit (job_amount j) (job_source j)) (tables c) = Some tv ->
  rtc cstep c (mkCfg (tables c) (<[inl (job_source j) := t]> (locks c))
    (<[t := Running j [Debit (job_amount j) (job_source j)] (Credit (job_amount j) (job_dest j) :: job_rest j)
              (record_row no_rows (inl (job_source j)) tv)]> (threads c)) (committed_jobs c)).
Proof.
  intros Ht Hl Hf Hd Hs. eapply rtc_l; [by apply (cstep_check c t j)|]. apply rtc_once.
  set (c1 := mkCfg _ _ _ _).
  pose proof (cstep_exec c1 t j [] (Debit (job_amount j) (job_source j))
    (Credit (job_amount j) (job_dest j) :: job_rest j) no_rows tv (lookup_insert_eq _ _ _)) as Hx.
  assert (takes_lock (Debit (job_amount j) (job_source j)) tv = true) as Htl.
  { apply bool_decide_eq_true_2. eapply sql_step_keeps; [by exists n|]. destruct Hf as (cents & Hb & _).
    apply balance_of_is_Some in Hb as [row Hrow]. cbn. by rw Hrow. }
  rw Htl in Hx. cbn [tables locks threads committed_jobs c1 target app] in Hx. rw !insert_insert_eq in Hx.
  apply Hx; [right; apply lookup_insert_eq|]. rw overlay_none. by exists n.
Qed.

(** Every thread is about to begin its transaction. *)
Definition started (c : cfg) : Prop :=
  map_Forall (fun _ th => exists j, th = Waiting j /\ job_backed j (tables c)) (threads c).

Lemma started_inv c : started c ->
  threads_inv c /\ all_jobs (fun j => job_backed j (tables c)) c /\ pending c = Z.of_nat (size (threads c)).
Proof.
  intros Hst. split_and!.
  - intros t th Ht. by destruct (Hst t th Ht) as (j & -> & Hb).
  - intros t th Ht. by destruct (Hst t th Ht) as (j & -> & Hb).
  - unfold started, pending in *. induction (threads c) as [|t th m Ht IH] using map_ind; [done|].
    apply map_Forall_insert in Hst as [(j & -> & _) Hm]; [|done].
    rw map_sum_insert_new // map_size_insert_None // IH //. cbn. lia.
Qed.
End steps.

(** C9: any interleaving of synchronous transfers and settlements, statement
    by statement, with aborts, leaves the committed tables as its committed
    transfers leave them when each runs alone, in the order of the commits;
    every committed transfer is the job of one of the threads, none commits
    twice. *)
Theorem interleavings_serializable {P} `{PgDriver P} (c c' : cfg) :
  started c -> rtc cstep c c' ->
  exists js, committed_jobs c' = committed_jobs c ++ js /\ serial js (tables c) (tables c') /\
    Forall (fun j => exists t, threads c !! t = Some (Waiting j)) js /\
    Z.of_nat (length js) <= Z.of_nat (size (threads c)).
Proof.
  intros Hst Hrun. destruct (started_inv c Hst) as (Hinv & _ & Hp).
  destruct (interleavings_spec (fun j => exists t, threads c !! t = Some (Waiting j)) c c' Hrun Hinv)
    as (js & Hjs & Hser & HQ & Hn).
  { intros t th Ht. destruct (Hst t th Ht) as (j & -> & _). by exists t. }
  exists js. split_and!; try done. pose proof (pending_nonneg c'). lia.
Qed.

(** C12: under any interleaving of synchronous transfers and settlements of
    stored transactions the sum of the balances moves by at most one cent per
    transaction that was started, and not at all when the amounts are whole
    cents; and if the amounts are finite and positive, nobody is overdrawn at
    the start, and the money in the bank plus one cent per transaction is at
    most 2^43 units, nobody is overdrawn at any later time. *)
Theorem interleaved_transfers_safe {P} `{PgDriver P} `{!PgLiteral P} (c c' : cfg) :
  started c -> rtc cstep c c' -> fk_inv (tables c) ->
  Z.abs (total_balance (tables c') - total_balance (tables c)) <= Z.of_nat (size (threads c)) /\
  (all_jobs job_whole c -> total_balance (tables c') = total_balance (tables c)) /\
  (all_jobs (fun j => good_amount (job_amount j)) c -> no_overdraft (tables c) ->
   total_balance (tables c) + Z.of_nat (size (threads c)) <= safe_cents -> no_overdraft (tables c')).
Proof.
  intros Hst Hrun Hfk. destruct (started_inv c Hst) as (Hinv & Hbk & Hp).
  pose proof (pending_nonneg c') as Hp'.
  destruct (interleavings_spec _ c c' Hrun Hinv Hbk) as (js & Hjs & Hser & Hb & Hn).
  destruct (serial_conserves _ _ _ Hser Hfk Hb) as [H1 H2].
  assert (forall Q, all_jobs Q c -> Forall Q js) as Hall.
  { intros Q HQ. destruct (interleavings_spec Q c c' Hrun Hinv HQ) as (js' & Hjs' & _ & HQs & _).
    rw Hjs in Hjs'. by apply app_inv_head in Hjs' as ->. }
  split_and!; [lia|intros Hw; by apply H2, Hall|]. intros Hg Hno Hsafe.
  eapply serial_no_overdraft; eauto. lia.
Qed.

(** Both transactions have begun and debited their source. *)
Lemma deadlock_reached {P} `{PgDriver P} tb j1 j2 tb1 tb2 (t1 t2 : nat) :
  t1 <> t2 -> job_source j1 <> job_dest j1 ->
  job_source j2 = job_dest j1 -> job_dest j2 = job_source j1 ->
  atomic_job j1 tb tb1 -> atomic_job j2 tb tb2 ->
  exists c, rtc cstep (mkCfg tb ∅ {[t1 := Waiting j1; t2 := Waiting j2]} []) c /\
    tables c = tb /\ committed_jobs c = [] /\
    (forall t, is_Some (threads c !! t) -> t = t1 \/ t = t2) /\ blocked_by c t1 t2 j1 /\ blocked_by c t2 t1 j2.
Proof.
  intros Hne Hsd Hs2 Hd2 (F1 & D1 & R1)%atomic_job_spec (F2 & D2 & R2)%atomic_job_spec.
  inversion R1 as [|n1 ??? tv1 ? S1 _]; subst. inversion R2 as [|n2 ??? tv2 ? S2 _]; subst.
  eexists. split.
  { etrans; [apply (begin_and_debit _ t1 j1 tv1 n1); cbn; try done; [by rw lookup_insert_eq|by left]|].
    apply (begin_and_debit _ t2 j2 tv2 n2); cbn; try done.
    - rw lookup_insert_ne //. rw lookup_insert_ne //. apply lookup_insert_eq.
    - left. rw lookup_insert_ne; [congruence|done]. }
  cbn. split_and!; try done.
  - intros t. rw !lookup_insert_is_Some' lookup_empty. intros [?|[?|[?|[?|[? ?]]]]]; auto; done.
  - split; [eexists; rw lookup_insert_ne // lookup_insert_eq //|]. split; [|done]. by rw -Hs2 lookup_insert_eq.
  - split; [eexists; by rw lookup_insert_eq|]. split; [|done].
    rw Hd2 lookup_insert_ne; [congruence|]. by rw lookup_insert_eq.
Qed.

(** ** Runs *)

(** The settlement of [ref_message] and, at the same time, a synchronous
    transfer in the opposite direction. *)
Definition ref_opposite : Transaction := mkTransaction "T2" 1002 1001 amount_30 StatusPending 5 5.
Definition ref_cfg : cfg :=
  mkCfg ref_pending ∅ {[0%nat := Waiting (JobSettle ref_message); 1%nat := Waiting (JobSync ref_opposite)]} [].

Lemma ref_cfg_started : started ref_cfg.
Proof.
  intros t th Ht. unfold ref_cfg in Ht. cbn [threads] in Ht. apply lookup_insert_Some in Ht as [[_ <-]|[_ Ht]].
  - eexists. split; [done|]. exact ref_delivery_backed.
  - apply lookup_singleton_Some in Ht as [_ <-]. by eexists.
Qed.

(** Both debit their source, the second is killed, the first commits. *)
Definition ref_choices : list choice := [Begin 0; Begin 1; Exec 1 10; Exec 0 11; Kill 1; Exec 0 12; Exec 0 13; Finish 0].
Definition ref_after : cfg := match schedule (P := RefPg) ref_choices ref_cfg with Some c => c | None => ref_cfg end.

Lemma ref_after_reached : rtc (cstep (P := RefPg)) ref_cfg ref_after.
Proof. by apply (schedule_sound ref_choices); vm_compute. Qed.

Lemma interleavings_serializable_witness :
  exists js, committed_jobs ref_after = committed_jobs ref_cfg ++ js /\
    serial (P := RefPg) js (tables ref_cfg) (tables ref_after) /\
    Forall (fun j => exists t, threads ref_cfg !! t = Some (Waiting j)) js /\
    Z.of_nat (length js) <= Z.of_nat (size (threads ref_cfg)).
Proof. exact (interleavings_serializable ref_cfg ref_after ref_cfg_started ref_after_reached). Defined.

Lemma interleaved_transfers_safe_witness :
  Z.abs (total_balance (tables ref_after) - total_balance (tables ref_cfg)) <= Z.of_nat (size (threads ref_cfg)) /\
  (all_jobs (job_whole (P := RefPg)) ref_cfg -> total_balance (tables ref_after) = total_balance (tables ref_cfg)) /\
  (all_jobs (fun j => good_amount (job_amount j)) ref_cfg -> no_overdraft (tables ref_cfg) ->
   total_balance (tables ref_cfg) + Z.of_nat (size (threads ref_cfg)) <= safe_cents -> no_overdraft (tables ref_after)).
Proof. exact (interleaved_transfers_safe (P := RefPg) ref_cfg ref_after ref_cfg_started ref_after_reached ref_pending_fk). Defined.

(** C37: the lock order is the order of debit and credit, so any two transfers
    in opposite directions, each of which would go through alone, can
    deadlock: they reach a state in which both are running, each has debited
    its source and waits for the row that the other has locked, and the only
    steps left are to abort one of them. *)
Theorem opposite_transfers_deadlock {P} `{PgDriver P} tb j1 j2 tb1 tb2 (t1 t2 : nat) :
  t1 <> t2 -> job_source j1 <> job_dest j1 ->
  job_source j2 = job_dest j1 -> job_dest j2 = job_source j1 ->
  atomic_job j1 tb tb1 -> atomic_job j2 tb tb2 ->
  exists c, rtc cstep (mkCfg tb ∅ {[t1 := Waiting j1; t2 := Waiting j2]} []) c /\
    blocked_by c t1 t2 j1 /\ blocked_by c t2 t1 j2 /\ (exists c', cstep c c') /\
    forall c', cstep c c' -> tables c' = tb /\ committed_jobs c' = [] /\
      (threads c' !! t1 = Some (Ended j1 false) \/ threads c' !! t2 = Some (Ended j2 false)).
Proof.
  intros Hne Hsd Hs2 Hd2 H1 H2. destruct (deadlock_reached tb j1 j2 tb1 tb2 t1 t2 Hne Hsd Hs2 Hd2 H1 H2)
    as (c & Hrun & Htb & Hjs & Hths & B1 & B2).
  exists c. split_and!; [done|done|done| |].
  - destruct B1 as ([own Ht] & _). eexists. by eapply cstep_abort.
  - intros c' Hc'. rw -Htb -Hjs. eapply deadlocked_step; eauto.
Qed.

(** What each of the two jobs does alone. *)
Definition ref_settled : Tables := default ref_pending (exec_job (P := RefPg) 1 (JobSettle ref_message) ref_pending).
Definition ref_returned : Tables := default ref_pending (exec_job (P := RefPg) 1 (JobSync ref_opposite) ref_pending).

Lemma opposite_transfers_deadlock_witness :
  exists c, rtc (cstep (P := RefPg))
      (mkCfg ref_pending ∅ {[0%nat := Waiting (JobSettle ref_message); 1%nat := Waiting (JobSync ref_opposite)]} []) c /\
    blocked_by c 0 1 (JobSettle ref_message) /\ blocked_by c 1 0 (JobSync ref_opposite) /\
    (exists c', cstep (P := RefPg) c c') /\
    forall c', cstep (P := RefPg) c c' -> tables c' = ref_pending /\ committed_jobs c' = [] /\
      (threads c' !! 0%nat = Some (Ended (JobSettle ref_message) false) \/
       threads c' !! 1%nat = Some (Ended (JobSync ref_opposite) false)).
Proof.
  apply (opposite_transfers_deadlock ref_pending (JobSettle ref_message) (JobSync ref_opposite) ref_settled ref_returned 0 1).
  - done.
  - done.
  - reflexivity.
  - reflexivity.
  - apply (exec_job_sound 1). by vm_compute.
  - apply (exec_job_sound 1). by vm_compute.
Defined.
