(* ===== verification/Deliveries.v ===== *)
(** * Deliveries handled at the same time

    [process] of internal/worker, in the steps that other goroutines can come
    between: the look at the status (in the primary tables, or in a replica
    that lags behind), the database transaction of [settle] (statement by
    statement, in [Concurrency]), the status written after a failure, and the
    answer.  Reads may fail, and the answer to a commit may be lost.

    [process] run alone is such a sequence of steps.  The invariants here are
    those of any number of deliveries in any interleaving; [Pool] has the
    goroutines that run them. *)

From S2P Require Import Prelude GoNum Float64 Domain Sql Postgres Transfer Bank Redis Queue World Reference.
From S2P Require Import Session Repository TransactionService Worker Settlement Ledger Concurrency.

(** ** The steps of [process]

    Where a delivery stands: received, before [GetByID]; in [settle], whose
    transaction is the thread with the same number; after its error, before
    [UpdateStatus]; answered, with an ack or not. *)
Inductive proc : Type :=
| Checking (p : TxMessage)
| Settling (p : TxMessage)
| Failing (p : TxMessage)
| Answered (acked : bool).

Definition handles (s : proc) : option TxMessage :=
  match s with Checking p | Settling p | Failing p => Some p | Answered _ => None end.

(** The primary database with its transactions; the tables of the replica, if
    the repository of the worker reads one; and the deliveries. *)
Record pcfg : Type := mkPcfg {
  db : cfg;
  replica : option Tables;
  procs : gmap nat proc;
}.

(** What [GetByID] reads. *)
Definition seen (c : pcfg) : Tables := default (tables (db c)) (replica c).

Definition with_proc (t : nat) (s : proc) (c : pcfg) : pcfg := mkPcfg (db c) (replica c) (<[t := s]> (procs c)).

(** The thread of [settle], about to begin its transaction. *)
Definition begin_settle (t : nat) (p : TxMessage) (d : cfg) : cfg :=
  mkCfg (tables d) (locks d) (<[t := Waiting (JobSettle p)]> (threads d)) (committed_jobs d).

(** [GetByID] fails; the answer to a commit that went through is lost. *)
Inductive incident : Type := ReadFailed | CommitLost.

Section steps.
Context {P : Type} `{PgDriver P}.
(** Which incidents can happen. *)
Context (may : incident -> Prop).

Inductive pstep : pcfg -> pcfg -> Prop :=
| p_skip c t p :
    procs c !! t = Some (Checking p) -> row_completed (seen c) (msg_tx_id p) ->
    pstep c (with_proc t (Answered true) c)
| p_settle c t p :
    procs c !! t = Some (Checking p) -> ~ row_completed (seen c) (msg_tx_id p) ->
    pstep c (mkPcfg (begin_settle t p (db c)) (replica c) (<[t := Settling p]> (procs c)))
(** an error of [GetByID] counts as "not completed" *)
| p_read_failed c t p :
    may ReadFailed -> procs c !! t = Some (Checking p) ->
    pstep c (mkPcfg (begin_settle t p (db c)) (replica c) (<[t := Settling p]> (procs c)))
| p_db c d : cstep (db c) d -> pstep c (mkPcfg d (replica c) (procs c))
| p_ack c t p :
    procs c !! t = Some (Settling p) -> threads (db c) !! t = Some (Ended (JobSettle p) true) ->
    pstep c (with_proc t (Answered true) c)
| p_error c t p :
    procs c !! t = Some (Settling p) -> threads (db c) !! t = Some (Ended (JobSettle p) false) ->
    pstep c (with_proc t (Failing p) c)
| p_commit_lost c t p :
    may CommitLost -> procs c !! t = Some (Settling p) ->
    threads (db c) !! t = Some (Ended (JobSettle p) true) ->
    pstep c (with_proc t (Failing p) c)
(** the statement waits for the lock of its row *)
| p_failed c t p tb :
    procs c !! t = Some (Failing p) -> locks (db c) !! inr (msg_tx_id p) = None ->
    sql_step (UpdateTxStatus StatusFailed (msg_tx_id p)) (tables (db c)) tb ->
    pstep c (mkPcfg (mkCfg tb (locks (db c)) (threads (db c)) (committed_jobs (db c))) (replica c)
               (<[t := Answered false]> (procs c)))
(** and may itself fail *)
| p_failed_lost c t p :
    procs c !! t = Some (Failing p) -> pstep c (with_proc t (Answered false) c).
End steps.

(** What is outside [process]: which deliveries are received next, what is
    stored by requests, and when the replica catches up. *)
Section environment.
Context {P : Type} `{PgDriver P} `{JSON TxMessage}.

Record limits : Type := mkLimits {
  may : incident -> Prop;
  admits : pcfg -> Delivery -> Prop;
  saves : Transaction -> Prop;
  unsent : pcfg -> string -> Prop;
}.

(** The start of [process]. *)
Definition received (d : Delivery) : proc :=
  match json_Unmarshal (d_body d) with Ok p => Checking p | Err _ => Answered false end.

Inductive env_step (L : limits) : pcfg -> pcfg -> Prop :=
(** [Save] of [createAsync] waits for nobody: its row is new *)
| env_save c tx tb :
    saves L tx -> locks (db c) !! inr (ID tx) = None ->
    sql_step (InsertTx (set_status StatusPending tx)) (tables (db c)) tb ->
    env_step L c (mkPcfg (mkCfg tb (locks (db c)) (threads (db c)) (committed_jobs (db c))) (replica c) (procs c))
(** its [UpdateStatus], when [Publish] fails *)
| env_unsent c i tb :
    unsent L c i -> locks (db c) !! inr i = None ->
    sql_step (UpdateTxStatus StatusFailed i) (tables (db c)) tb ->
    env_step L c (mkPcfg (mkCfg tb (locks (db c)) (threads (db c)) (committed_jobs (db c))) (replica c) (procs c))
| env_replay c tb :
    replica c = Some tb -> env_step L c (mkPcfg (db c) (Some (tables (db c))) (procs c)).

(** Any number of calls of [process]. *)
Inductive dstep (L : limits) : pcfg -> pcfg -> Prop :=
| d_receive c t d : procs c !! t = None -> admits L c d -> dstep L c (with_proc t (received d) c)
| d_work c c' : pstep (may L) c c' -> dstep L c c'
| d_env c c' : env_step L c c' -> dstep L c c'.
End environment.

(** ** The shape of a configuration *)

(** The transaction of a delivery. *)
Definition thread_of (s : proc) (o : option thread) : Prop :=
  match s with
  | Checking _ => o = None
  | Settling p => exists x, o = Some x /\ thread_job x = JobSettle p
  | Failing p => exists b, o = Some (Ended (JobSettle p) b)
  | Answered _ => forall x, o = Some x -> live x = 0
  end.

Record shape (c : pcfg) : Prop := {
  sh_thread : map_Forall (fun t s => thread_of s (threads (db c) !! t)) (procs c);
  sh_dom : forall t, is_Some (threads (db c) !! t) -> is_Some (procs c !! t);
}.

(** The steps that are left of a delivery. *)
Definition todo_steps (th : thread) : Z :=
  match th with
  | Waiting j => 2 + Z.of_nat (length (job_statements j))
  | Running _ _ todo _ => 1 + Z.of_nat (length todo)
  | Ended _ _ => 0
  end.
Definition proc_steps (s : proc) (o : option thread) : Z :=
  match s with
  | Checking _ => 8
  | Settling _ => 2 + default 0 (todo_steps <$> o)
  | Failing _ => 1
  | Answered _ => 0
  end.
Definition total_steps (c : pcfg) : Z :=
  map_sum id (map_imap (fun t s => Some (proc_steps s (threads (db c) !! t))) (procs c)).

Section shape.
Context {P : Type} `{PgDriver P}.

(** One delivery goes on, with its thread. *)
Lemma shape_update c c' t s' :
  shape c -> procs c' = <[t := s']> (procs c) ->
  (forall t', t' <> t -> threads (db c') !! t' = threads (db c) !! t') ->
  thread_of s' (threads (db c') !! t) -> shape c'.
Proof.
  intros [Ht Hd] Ep Eth Hs'. split; rw Ep.
  - intros t' s. rw lookup_insert. case_decide as Hdec; [by intros [= <-]; subst|]. intros Hs.
    rw Eth; [congruence|]. by apply Ht.
  - intros t' Hx. rw lookup_insert. case_decide as Hdec; [done|]. apply Hd. by rw -Eth.
Qed.

Lemma total_steps_update c c' t s s' :
  procs c !! t = Some s -> procs c' = <[t := s']> (procs c) ->
  (forall t', t' <> t -> threads (db c') !! t' = threads (db c) !! t') ->
  total_steps c' = total_steps c - proc_steps s (threads (db c) !! t) + proc_steps s' (threads (db c') !! t).
Proof.
  intros Hs Ep Eth. unfold total_steps. rw Ep.
  assert (map_imap (fun t0 s0 => Some (proc_steps s0 (threads (db c') !! t0))) (<[t := s']> (procs c)) =
    <[t := proc_steps s' (threads (db c') !! t)]>
      (map_imap (fun t0 s0 => Some (proc_steps s0 (threads (db c) !! t0))) (procs c))) as ->.
  { apply map_eq. intros t'. rw map_lookup_imap !lookup_insert. case_decide as Hdec; [by subst|].
    rw map_lookup_imap Eth; [congruence|done]. }
  rw (map_sum_insert id _ _ _ (proc_steps s (threads (db c) !! t))); [by rw map_lookup_imap Hs|done].
Qed.

Lemma total_steps_receive `{JSON TxMessage} c t d :
  procs c !! t = None -> total_steps (with_proc t (received d) c) <= total_steps c + 8.
Proof.
  intros Ht. unfold total_steps. cbn. rw (map_imap_insert_Some _ _ (received d) _ (proc_steps (received d) (threads (db c) !! t))); [done|].
  rw map_sum_insert_new; [by rw map_lookup_imap Ht|]. unfold received. destruct (json_Unmarshal _); cbn; lia.
Qed.

Lemma total_steps_nonneg c : 0 <= total_steps c.
Proof.
  apply map_sum_nonneg. intros t z Hz. rw map_lookup_imap in Hz. destruct (procs c !! t) as [s|]; [|done].
  injection Hz as <-. destruct s, (threads (db c) !! t) as [[| |]|]; cbn; lia.
Qed.

(** One thread moves, towards its end. *)
Lemma cstep_moves c c' : cstep c c' -> exists t th th',
  threads c !! t = Some th /\ live th = 1 /\ threads c' = <[t := th']> (threads c) /\ thread_job th' = thread_job th /\
  todo_steps th' < todo_steps th.
Proof.
  intros Hstep. destruct Hstep as [c t j Ht|c t j Ht|c t j past todo own Ht|c t j past s todo own tv Ht|c t j past own Ht];
    do 3 eexists; (split; [exact Ht|]); split_and!; try done; cbn [todo_steps length]; lia.
Qed.

(** It is the thread of a delivery in [settle]. *)
Lemma shape_owner c t th : shape c -> threads (db c) !! t = Some th -> live th = 1 ->
  exists p, procs c !! t = Some (Settling p) /\ thread_job th = JobSettle p.
Proof.
  intros [Hth Hd] Ht Hl. destruct (Hd t) as [s Hs]; [by rw Ht|]. pose proof (Hth t s Hs) as Hp. cbn in Hp.
  rw Ht in Hp. destruct s as [p|p|p|b]; cbn in Hp.
  - done.
  - destruct Hp as (x & [= <-] & Hj). by exists p.
  - by destruct Hp as [b [= ->]].
  - specialize (Hp th eq_refl). lia.
Qed.

(** Every step of [process] keeps the shape, and there are only so many. *)
Lemma pstep_shape may c c' : pstep may c c' -> shape c -> shape c' /\ total_steps c' < total_steps c.
Proof.
  intros Hstep Hsh.
  assert (forall t s s' c1, procs c !! t = Some s -> procs c1 = <[t := s']> (procs c) ->
    (forall t', t' <> t -> threads (db c1) !! t' = threads (db c) !! t') ->
    thread_of s' (threads (db c1) !! t) ->
    proc_steps s' (threads (db c1) !! t) < proc_steps s (threads (db c) !! t) ->
    shape c1 /\ total_steps c1 < total_steps c) as Hone.
  { intros t s s' c1 Hs Ep Eth Hs' Hlt. split; [by eapply shape_update|].
    rw (total_steps_update c c1 t s s' Hs Ep Eth). lia. }
  assert (forall t s, procs c !! t = Some s -> thread_of s (threads (db c) !! t)) as Hth by apply (sh_thread c Hsh).
  assert (forall t p th', procs c !! t = Some (Checking p) -> todo_steps th' <= 5 -> thread_job th' = JobSettle p ->
    let c1 := mkPcfg (mkCfg (tables (db c)) (locks (db c)) (<[t := th']> (threads (db c))) (committed_jobs (db c)))
                (replica c) (<[t := Settling p]> (procs c)) in
    shape c1 /\ total_steps c1 < total_steps c) as Hbegin.
  { intros t p th' Ht Hle Hj. apply (Hone t (Checking p) (Settling p)); [exact Ht|done| | |]; cbn [db threads].
    - intros t' Hne. by rw lookup_insert_ne.
    - rw lookup_insert_eq. by exists th'.
    - rw lookup_insert_eq. cbn. lia. }
  destruct Hstep as [c t p Ht Hc|c t p Ht Hc|c t p _ Ht|c d Hs|c t p Ht Hx|c t p Ht Hx|c t p _ Ht Hx|c t p tb Ht Hl Hup|c t p Ht].
  - apply (Hone t (Checking p) (Answered true) (with_proc t (Answered true) c) Ht eq_refl); cbn; [done|by rw (Hth t _ Ht)|lia].
  - by apply Hbegin.
  - by apply Hbegin.
  - destruct (cstep_moves _ _ Hs) as (t & th & th' & Ht & Hl & Hths & Hj & Hlt).
    destruct (shape_owner c t th Hsh Ht Hl) as (p & Hp & Hjob).
    apply (Hone t (Settling p) (Settling p) (mkPcfg d (replica c) (procs c)) Hp); cbn [procs db]; [by rw insert_id| | |]; rw Hths.
    + intros t' Hne. by rw lookup_insert_ne.
    + rw lookup_insert_eq. exists th'. by rw Hj.
    + rw lookup_insert_eq Ht. cbn. lia.
  - apply (Hone t (Settling p) (Answered true) (with_proc t (Answered true) c) Ht eq_refl); cbn; rw ?Hx; [done| |cbn; lia].
    by intros x [= <-].
  - apply (Hone t (Settling p) (Failing p) (with_proc t (Failing p) c) Ht eq_refl); cbn; rw ?Hx; [done|by eexists|cbn; lia].
  - apply (Hone t (Settling p) (Failing p) (with_proc t (Failing p) c) Ht eq_refl); cbn; rw ?Hx; [done|by eexists|cbn; lia].
  - destruct (Hth t _ Ht) as [b Hb].
    apply (Hone t (Failing p) (Answered false) (mkPcfg (mkCfg tb (locks (db c)) (threads (db c)) (committed_jobs (db c)))
      (replica c) (<[t := Answered false]> (procs c))) Ht eq_refl); cbn; rw ?Hb; [done| |lia]. by intros x [= <-].
  - destruct (Hth t _ Ht) as [b Hb].
    apply (Hone t (Failing p) (Answered false) (with_proc t (Answered false) c) Ht eq_refl); cbn; rw ?Hb; [done| |lia].
    by intros x [= <-].
Qed.

(** A delivery that is not answered can always go on. *)
Lemma pstep_progress may c t s : shape c -> procs c !! t = Some s -> (forall b, s <> Answered b) ->
  exists c', pstep may c c'.
Proof.
  intros Hsh Hs Hna. pose proof (sh_thread c Hsh t s Hs) as Hth. cbn in Hth. destruct s as [p|p|p|b]; cbn in Hth.
  - destruct (transactions (seen c) !! msg_tx_id p) as [r|] eqn:Hr;
      [destruct (decide (row_status r = StatusCompleted)) as [Hc|Hc]|].
    + eexists. eapply p_skip; [exact Hs|by exists r].
    + eexists. eapply p_settle; [exact Hs|]. intros (r' & Hr' & Hc'). congruence.
    + eexists. eapply p_settle; [exact Hs|]. intros (r' & Hr' & Hc'). congruence.
  - destruct Hth as (x & Hx & Hj). destruct x as [j|j past todo own|j b]; cbn in Hj; subst j.
    + eexists. eapply p_db. by eapply cstep_refuse.
    + eexists. eapply p_db. by eapply cstep_abort.
    + destruct b; eexists; [by eapply p_ack|by eapply p_error].
  - eexists. by eapply p_failed_lost.
  - by destruct (Hna b).
Qed.
End shape.

Definition job_id (j : job) : string := match j with JobSync tx => ID tx | JobSettle p => msg_tx_id p end.
Definition settled_ids (c : pcfg) : list string := map job_id (committed_jobs (db c)).

(** ** Lemmas on the interleaved transactions *)
Section database.
Context {P : Type} `{PgDriver P}.

(** One thread moves: it publishes nothing, or commits. *)
Lemma cstep_cases c c' : cstep c c' -> threads_inv c -> exists t th th',
  threads c !! t = Some th /\ live th = 1 /\ threads c' = <[t := th']> (threads c) /\ thread_job th' = thread_job th /\
  ((tables c' = tables c /\ committed_jobs c' = committed_jobs c /\ (forall j, th' <> Ended j true)) \/
   (th' = Ended (thread_job th) true /\ committed_jobs c' = committed_jobs c ++ [thread_job th] /\
    atomic_job (thread_job th) (tables c) (tables c'))).
Proof.
  intros Hstep Hinv. destruct Hstep as [c t j Ht|c t j Ht|c t j past todo own Ht|c t j past s todo own tv Ht|c t j past own Ht];
    do 3 eexists; (split; [exact Ht|]); (split; [done|]); (split; [done|]); (split; [done|]);
    try by left. right. split_and!; try done. destruct (Hinv _ _ Ht) as [_ [Hr Hsp _ _ _ Hf Hd]].
  apply atomic_job_spec. rw app_nil_r in Hsp. by rw -Hsp.
Qed.

(** Tables that differ in the row of transaction [i] at most. *)
Definition same_but (i : string) (tb tb' : Tables) : Prop :=
  (forall j, j <> i -> transactions tb' !! j = transactions tb !! j) /\ exists ss, sql_steps ss tb tb'.

Lemma settle_same_but p tb tb' : settle_applied p tb tb' -> same_but (msg_tx_id p) tb tb'.
Proof.
  intros [_ Hrun]. split; [|by eexists]. intros j Hj. apply row_at_transaction.
  eapply sql_steps_frame; [exact Hrun|]. intros s Hs.
  repeat (apply elem_of_cons in Hs as [->|Hs]; [by intros [= ?]|]). by apply not_elem_of_nil in Hs.
Qed.

Lemma update_same_but st i tb tb' : sql_step (UpdateTxStatus st i) tb tb' -> same_but i tb tb'.
Proof.
  intros Hs. split; [|eexists; by apply sql_steps_one]. intros j Hj. apply row_at_transaction.
  apply (sql_step_frame _ _ _ _ Hs). by intros [= ?].
Qed.

Lemma same_but_completed i j tb tb' : same_but i tb tb' -> j <> i -> row_completed tb' j <-> row_completed tb j.
Proof. intros [Hs _] Hj. unfold row_completed. by rw (Hs j Hj). Qed.

Lemma failed_not_completed i tb tb' : sql_step (UpdateTxStatus StatusFailed i) tb tb' -> ~ row_completed tb' i.
Proof.
  intros Hup%update_status_status (r & Hr & Hst). apply (f_equal (lookup i)) in Hup.
  rw lookup_alter_eq !lookup_fmap Hr in Hup. destruct (transactions tb !! i); cbn in Hup; [|done].
  by rw Hst in Hup.
Qed.

(** A statement outside the transactions, on a row that nobody has locked. *)
Lemma threads_inv_outside c s tb :
  threads_inv c -> locks c !! target s = None -> sql_step s (tables c) tb ->
  threads_inv (mkCfg tb (locks c) (threads c) (committed_jobs c)).
Proof.
  intros Hinv Hl Hs t th Ht. specialize (Hinv t th Ht). cbn in *.
  pose proof (sql_steps_one _ _ _ Hs) as Hrun.
  destruct th as [j|j past todo own|]; [by eapply job_backed_steps| |done].
  destruct Hinv as [Hb Hi]. split; [by eapply job_backed_steps|].
  apply (thread_inv_tables (tables c)); [|by eapply sql_steps_accounts|done].
  intros k Hk. eapply sql_step_frame; [exact Hs|]. intros ->. by rw Hl in Hk.
Qed.
End database.

(** ** What holds whatever happens

    No restriction: reads fail, answers are lost, the replica lags, and a
    message is delivered again while it is being handled. *)
Section money.
Context {P : Type} `{PgDriver P} `{!PgLiteral P}.

Record money (c : pcfg) : Prop := {
  mo_threads : threads_inv (db c);
  mo_bank : bank_ok (bank_of (tables (db c)));
  mo_recorded : map_Forall (fun _ s => forall p, handles s = Some p -> recorded (tables (db c)) p) (procs c);
}.

(** The database makes moves of the careless bank; the deliveries stay. *)
Lemma money_db c tb ls ths js ps :
  money c -> rtc careless_step (bank_of (tables (db c))) (bank_of tb) ->
  (exists ss, sql_steps ss (tables (db c)) tb) -> threads_inv (mkCfg tb ls ths js) ->
  map_Forall (fun _ s => forall p, handles s = Some p -> recorded (tables (db c)) p) ps ->
  forall r, money (mkPcfg (mkCfg tb ls ths js) r ps).
Proof.
  intros [_ Hb _] Hsteps [ss Hrun] Hinv Hps r. destruct (careless_keeps_steps _ _ Hsteps Hb) as [Hok _].
  split; cbn; [done|done|].
  intros t s Hs p Hp. eapply recorded_run; [exact Hrun|]. by eapply Hps.
Qed.

Lemma money_procs c t s : money c -> (forall p, handles s = Some p -> recorded (tables (db c)) p) ->
  map_Forall (fun _ s => forall p, handles s = Some p -> recorded (tables (db c)) p) (<[t := s]> (procs c)).
Proof. intros [_ _ Hr] Hs. by apply map_Forall_insert_2. Qed.

(** Only a delivery goes on. *)
Lemma money_proc c t s : money c -> (forall p, handles s = Some p -> recorded (tables (db c)) p) ->
  money (with_proc t s c).
Proof. intros Hm Hs. split; cbn; [apply Hm..|by apply money_procs]. Qed.

Lemma money_begin c t p : money c -> procs c !! t = Some (Checking p) ->
  money (mkPcfg (begin_settle t p (db c)) (replica c) (<[t := Settling p]> (procs c))).
Proof.
  intros Hm Ht. pose proof (mo_recorded c Hm t _ Ht p eq_refl) as Hr. split; cbn; [|apply Hm..|].
  - intros t' th'. cbn. rw lookup_insert. case_decide; [intros [= <-]; by apply recorded_backed|]. apply (mo_threads c Hm).
  - apply money_procs; [done|]. by intros q [= <-].
Qed.

Lemma money_pstep may c c' : pstep may c c' -> modest (tables (db c)) -> shape c -> money c ->
  money c' /\ rtc careless_step (bank_of (tables (db c))) (bank_of (tables (db c'))).
Proof.
  intros Hstep Hmod Hsh Hm.
  destruct Hstep as [c t p Ht Hc|c t p Ht Hc|c t p _ Ht|c d Hs|c t p Ht Hx|c t p Ht Hx|c t p _ Ht Hx|c t p tb Ht Hl Hup|c t p Ht];
    try (pose proof (mo_recorded c Hm t _ Ht p eq_refl) as Hr).
  - split; [by apply money_proc|done].
  - split; [by apply money_begin|done].
  - split; [by apply money_begin|done].
  - pose proof (threads_inv_step _ _ Hs (mo_threads c Hm)) as Hinv.
    destruct (cstep_cases _ _ Hs (mo_threads c Hm)) as (t & th & th' & Ht & Hl & _ & _ & Hcase).
    destruct (shape_owner c t th Hsh Ht Hl) as (p & Hp & Hjob).
    assert (rtc careless_step (bank_of (tables (db c))) (bank_of (tables d)) /\ exists ss, sql_steps ss (tables (db c)) (tables d))
      as [Hb Hrun].
    { destruct Hcase as [(-> & _)|(_ & _ & Happ)]; [split; [done|exists []; constructor]|]. rw Hjob in Happ. cbn in Happ.
      split; [|eexists; apply Happ]. destruct (mo_recorded c Hm t _ Hp p eq_refl) as (r & Hrow & Es & Ed & Hf).
      destruct (settle_settled p _ _ r Hf Hrow Es Ed (mo_bank c Hm) Hmod Happ) as [Hcov ->].
      apply rtc_once, careless_settle; [|exact Hcov]. by rw lookup_book Hrow. }
    split; [|done]. destruct d as [tb ls ths js]. by eapply (money_db c); [..|apply Hm].
  - split; [by apply money_proc|done].
  - split; [apply money_proc; [done|by intros q [= <-]]|done].
  - split; [apply money_proc; [done|by intros q [= <-]]|done].
  - destruct Hr as (r & Hrow & _).
    assert (rtc careless_step (bank_of (tables (db c))) (bank_of tb)) as Hb.
    { rw (fail_posted _ _ tb r Hrow Hup). apply rtc_once, careless_fail. by rw lookup_book Hrow. }
    split; [|done]. eapply (money_db c); [done|done|eexists; by apply sql_steps_one| |].
    + by apply (threads_inv_outside (db c) (UpdateTxStatus StatusFailed (msg_tx_id p))); [apply Hm|..].
    + by apply money_procs.
  - split; [by apply money_proc|done].
Qed.
End money.

(** A request stores a transaction of whole cents. *)
Definition fair_save {P} `{PgDriver P} (tx : Transaction) : Prop := exists k, fair_amount (Amount tx) k.

(** A delivery of a message whose transaction is stored. *)
Definition recorded_delivery {P} `{PgDriver P} `{JSON TxMessage} (c : pcfg) (d : Delivery) : Prop :=
  forall p, json_Unmarshal (d_body d) = Ok p -> recorded (tables (db c)) p.

Section reachable.
Context {P : Type} `{PgDriver P} `{!PgLiteral P} `{JSON TxMessage}.

Lemma fail_careless i tb tb' : sql_step (UpdateTxStatus StatusFailed i) tb tb' ->
  rtc careless_step (bank_of tb) (bank_of tb').
Proof.
  intros Hs. destruct (transactions tb !! i) as [r|] eqn:Hr.
  - rw (fail_posted _ _ tb' r Hr Hs). apply rtc_once, careless_fail. by rw lookup_book Hr.
  - destruct Hs as [now Hs]. cbn in Hs. unfold update_status in Hs. rw Hr in Hs. by injection Hs as <-.
Qed.

Lemma env_step_bank L c c' : (forall tx, saves L tx -> fair_save tx) -> env_step L c c' ->
  rtc careless_step (bank_of (tables (db c))) (bank_of (tables (db c'))) /\
  (exists ss, sql_steps ss (tables (db c)) (tables (db c'))) /\ (threads_inv (db c) -> threads_inv (db c')).
Proof.
  intros Hsv [c0 tx tb Hs Hl Hi|c0 i tb Hu Hl Hi|c0 tb Hr]; cbn.
  - destruct (Hsv tx Hs) as [k Hf]. split_and!.
    + apply rtc_once, careless_bank. by apply (record_step (set_status StatusPending tx) _ _ k).
    + eexists. by apply sql_steps_one.
    + intros Hinv. by apply (threads_inv_outside (db c0) (InsertTx (set_status StatusPending tx))).
  - split_and!; [by apply (fail_careless i)|eexists; by apply sql_steps_one|]. intros Hinv.
    by apply (threads_inv_outside (db c0) (UpdateTxStatus StatusFailed i)).
  - split_and!; [done|exists []; constructor|done].
Qed.

Lemma shape_receive c t d : shape c -> procs c !! t = None -> shape (with_proc t (received d) c).
Proof.
  intros Hsh Hn. assert (threads (db c) !! t = None) as Hth.
  { apply eq_None_not_Some. intros Hx%(sh_dom c Hsh). rw Hn in Hx. by destruct Hx. }
  eapply shape_update; [done|done|done|]. cbn. rw Hth. unfold received. by destruct (json_Unmarshal _).
Qed.

Lemma env_shape L c c' : env_step L c c' -> shape c -> shape c'.
Proof. by intros [c0 tx tb Hs Hl Hi|c0 i tb Hu Hl Hi|c0 tb Hr] [Ht Hd]. Qed.

Lemma dstep_shape L c c' : dstep L c c' -> shape c -> shape c'.
Proof.
  intros [c0 t d Hn Ha|c0 c1 Hp|c0 c1 He] Hsh; [by apply shape_receive|by eapply pstep_shape|by eapply env_shape].
Qed.

(** The messages are those of stored transactions, and what is stored in the
    meantime is whole cents. *)
Definition fair_limits (L : limits) : Prop :=
  (forall c d, admits L c d -> recorded_delivery c d) /\ (forall tx, saves L tx -> fair_save tx).

Lemma dstep_money L c c' : fair_limits L -> dstep L c c' -> modest (tables (db c)) -> shape c -> money c ->
  money c' /\ rtc careless_step (bank_of (tables (db c))) (bank_of (tables (db c'))).
Proof.
  intros [Ha Hsv] [c0 t d Hn Hadm|c0 c1 Hp|c0 c1 He] Hmod Hsh Hm.
  - split; [|done]. apply money_proc; [done|]. intros p. unfold received.
    destruct (json_Unmarshal (d_body d)) as [p'|e] eqn:Hj; [|done]. intros [= <-]. by apply (Ha c0 d Hadm).
  - by eapply money_pstep.
  - destruct (env_step_bank _ _ _ Hsv He) as (Hb & Hrun & Hinv). split; [|exact Hb].
    specialize (Hinv (mo_threads c0 Hm)). assert (procs c1 = procs c0) as Ep by (by destruct He).
    destruct c1 as [[tb ls ths js] r ps]. cbn in *. subst ps. eapply (money_db c0); try done. apply Hm.
Qed.

(** Steps from a state in which no account holds more than 2^43 units. *)
Definition modest_step (L : limits) (c c' : pcfg) : Prop := modest (tables (db c)) /\ dstep L c c'.

Lemma dsteps_money L c c' : fair_limits L -> rtc (modest_step L) c c' -> shape c -> money c ->
  money c' /\ rtc careless_step (bank_of (tables (db c))) (bank_of (tables (db c'))).
Proof.
  intros HL. induction 1 as [c|c c1 c' [Hmod Hs] _ IH]; intros Hsh Hm; [done|].
  destruct (dstep_money L c c1 HL Hs Hmod Hsh Hm) as [Hm1 Hb1].
  destruct (IH (dstep_shape L _ _ Hs Hsh) Hm1) as [Hm' Hb']. split; [done|]. by etrans.
Qed.
End reachable.

(** ** [process], run alone, is these steps *)

(** The frame of an answer. *)
Definition answer_frame (msg : Delivery) (acked : bool) : frame :=
  if acked then FAck (d_tag msg) false else FNack (d_tag msg) false false.

Section alone.
Context {P R A C : Type} `{PgDriver P, RedisServer R, AmqpLib A} `{!PgLaws P} `{JSON TxMessage}.
#[local] Abbreviation World := (World P R A C).

(** The incidents that the database allows. *)
Definition possible (h : DB) (i : incident) : Prop :=
  match i with ReadFailed => ~ reads_definite P h | CommitLost => ~ commit_definite P end.

(** From the state after [begin_settle]: the transaction commits. *)
Lemma settle_runs may c t p tb :
  locks (db c) = ∅ -> settle_applied p (tables (db c)) tb ->
  rtc (pstep may) (mkPcfg (begin_settle t p (db c)) (replica c) (<[t := Settling p]> (procs c)))
    (mkPcfg (mkCfg tb ∅ (<[t := Ended (JobSettle p) true]> (threads (db c))) (committed_jobs (db c) ++ [JobSettle p]))
       (replica c) (<[t := Settling p]> (procs c))).
Proof.
  intros Hl Happ. pose proof (transaction_run (begin_settle t p (db c)) t (JobSettle p) tb) as Hrun.
  cbn in Hrun. rw insert_insert_eq Hl in Hrun. specialize (Hrun (lookup_insert_eq _ _ _) (map_Forall_empty _) Happ).
  revert Hrun. unfold begin_settle. rw Hl. generalize (mkCfg (tables (db c)) ∅ (<[t := Waiting (JobSettle p)]> (threads (db c))) (committed_jobs (db c))) as d1.
  generalize (mkCfg tb ∅ (<[t := Ended (JobSettle p) true]> (threads (db c))) (committed_jobs (db c) ++ [JobSettle p])) as d2.
  induction 1 as [d|d d' d2 Hs _ IH]; [done|]. eapply rtc_l; [by apply (p_db may (mkPcfg d _ _) d')|exact IH].
Qed.

(** ... and the delivery is acknowledged. *)
Lemma settle_and_ack may c t p tb :
  locks (db c) = ∅ -> settle_applied p (tables (db c)) tb ->
  rtc (pstep may) (mkPcfg (begin_settle t p (db c)) (replica c) (<[t := Settling p]> (procs c)))
    (mkPcfg (mkCfg tb ∅ (<[t := Ended (JobSettle p) true]> (threads (db c))) (committed_jobs (db c) ++ [JobSettle p]))
       (replica c) (<[t := Answered true]> (procs c))).
Proof.
  intros Hl Happ. etrans; [by apply settle_runs|]. apply rtc_once. set (c2 := mkPcfg _ _ _).
  pose proof (p_ack may c2 t p (lookup_insert_eq _ _ _) (lookup_insert_eq _ _ _)) as Hs.
  unfold with_proc in Hs. cbn in Hs. by rw insert_insert_eq in Hs.
Qed.

(** A delivery whose transaction is not known to be completed begins to settle. *)
Lemma begins h c t p :
  procs c !! t = Some (Checking p) -> not_known_completed h (msg_tx_id p) (seen c) ->
  pstep (possible h) c (mkPcfg (begin_settle t p (db c)) (replica c) (<[t := Settling p]> (procs c))).
Proof.
  intros Ht Hn. destruct (transactions (seen c) !! msg_tx_id p) as [r|] eqn:Hr;
    [destruct (decide (row_status r = StatusCompleted)) as [Hc|Hc]|].
  - apply p_read_failed; [|done]. intros Hd. by apply (Hn Hd r).
  - apply p_settle; [done|]. intros (r' & Hr' & Hc'). congruence.
  - apply p_settle; [done|]. intros (r' & Hr' & Hc'). congruence.
Qed.

(** The failure is written, or the write is lost. *)
Lemma fails may c t p tb :
  procs c !! t = Some (Failing p) -> locks (db c) = ∅ ->
  tb = tables (db c) \/ sql_step (UpdateTxStatus StatusFailed (msg_tx_id p)) (tables (db c)) tb ->
  pstep may c (mkPcfg (mkCfg tb ∅ (threads (db c)) (committed_jobs (db c))) (replica c) (<[t := Answered false]> (procs c))).
Proof.
  intros Ht Hl [->|Hup].
  - pose proof (p_failed_lost may c t p Ht) as Hs. unfold with_proc in Hs. destruct c as [[tb ls ths js] r ps].
    cbn in *. by subst ls.
  - rw -Hl. eapply p_failed; [exact Ht|by rw Hl|done].
Qed.

Lemma process_runs redis h msg (w : World) c t :
  tables (db c) = pg_committed (w_pg w) -> seen c = pg_view (read_handle h) (w_pg w) -> locks (db c) = ∅ ->
  procs c !! t = Some (received msg) -> threads (db c) !! t = None ->
  wp (process (pg_worker redis h) msg) (fun _ w' => exists c' acked,
    rtc (pstep (possible (read_handle h))) c c' /\ tables (db c') = pg_committed (w_pg w') /\ locks (db c') = ∅ /\
    procs c' = <[t := Answered acked]> (procs c) /\ w_amqp w' = answer msg (answer_frame msg acked) (w_amqp w)) w.
Proof.
  intros Htb Hseen Hl Ht Hth. wp_apply process_exact. intros _ w' (f & Hc & Ha). apply process_case_effect in Hc.
  rw -Htb -Hseen in Hc. set (tb' := pg_committed (w_pg w')) in *. unfold received in Ht.
  assert (forall p c1 acked, rtc (pstep (possible (read_handle h)))
      (mkPcfg (begin_settle t p (db c)) (replica c) (<[t := Settling p]> (procs c))) c1 ->
      procs c !! t = Some (Checking p) -> not_known_completed (read_handle h) (msg_tx_id p) (seen c) ->
      tables (db c1) = tb' -> locks (db c1) = ∅ -> procs c1 = <[t := Answered acked]> (procs c) ->
      w_amqp w' = answer msg (answer_frame msg acked) (w_amqp w) ->
      exists c' acked, rtc (pstep (possible (read_handle h))) c c' /\ tables (db c') = tb' /\ locks (db c') = ∅ /\
        procs c' = <[t := Answered acked]> (procs c) /\ w_amqp w' = answer msg (answer_frame msg acked) (w_amqp w)) as Hgo.
  { intros p c1 acked Hrun Hp Hn Etb El Ep Ea. exists c1, acked. split_and!; try done.
    eapply rtc_l; [by apply (begins (read_handle h) c t p)|exact Hrun]. }
  destruct Hc as [e He|p r Hj Hr Hst|p tb1 Hj Hn Happ|p tb1 tb2 Hj Hn Hset Hdef Hst].
  - rw He in Ht. exists c, false. split_and!; try done. by rw insert_id.
  - rw Hj in Ht. exists (with_proc t (Answered true) c), true. split_and!; try done.
    apply rtc_once. eapply p_skip; [exact Ht|by exists r].
  - rw Hj in Ht.
    eapply (Hgo p (mkPcfg (mkCfg tb1 ∅ (<[t := Ended (JobSettle p) true]> (threads (db c))) (committed_jobs (db c) ++ [JobSettle p]))
      (replica c) (<[t := Answered true]> (procs c))) true); try done.
    by apply settle_and_ack.
  - rw Hj in Ht. assert (exists b, rtc (pstep (possible (read_handle h)))
      (mkPcfg (begin_settle t p (db c)) (replica c) (<[t := Settling p]> (procs c)))
      (mkPcfg (mkCfg tb1 ∅ (<[t := Ended (JobSettle p) b]> (threads (db c)))
         (committed_jobs (db c) ++ if b then [JobSettle p] else [])) (replica c) (<[t := Failing p]> (procs c)))) as [b Hb].
    { destruct (decide (tb1 = tables (db c))) as [->|Hne].
      - exists false. rw app_nil_r. set (c0 := mkPcfg _ _ _).
        pose proof (p_db (possible (read_handle h)) c0 _
          (cstep_refuse (db c0) t (JobSettle p) (lookup_insert_eq _ _ _))) as Hr0.
        eapply rtc_l; [exact Hr0|]. cbn. rw insert_insert_eq Hl. apply rtc_once. set (c1 := mkPcfg _ _ _).
        pose proof (p_error (possible (read_handle h)) c1 t p (lookup_insert_eq _ _ _) (lookup_insert_eq _ _ _)) as Hr1.
        unfold with_proc in Hr1. cbn in Hr1. by rw insert_insert_eq in Hr1.
      - exists true. destruct Hset as [?|Happ]; [done|]. etrans; [by apply settle_runs|]. apply rtc_once.
        set (c1 := mkPcfg _ _ _).
        assert (possible (read_handle h) CommitLost) as Hlost by (intros Hd; by apply Hne, Hdef).
        pose proof (p_commit_lost (possible (read_handle h)) c1 t p Hlost (lookup_insert_eq _ _ _) (lookup_insert_eq _ _ _)) as Hr1.
        unfold with_proc in Hr1. cbn in Hr1. by rw insert_insert_eq in Hr1. }
    eapply (Hgo p (mkPcfg (mkCfg tb2 ∅ (<[t := Ended (JobSettle p) b]> (threads (db c)))
      (committed_jobs (db c) ++ if b then [JobSettle p] else [])) (replica c)
      (<[t := Answered false]> (<[t := Failing p]> (procs c)))) false); try done; [|cbn; by rw insert_insert_eq].
    etrans; [exact Hb|]. apply rtc_once. set (c1 := mkPcfg _ _ (<[t := Failing p]> _)).
    by apply (fails _ c1 t p tb2 (lookup_insert_eq _ _ _) eq_refl).
Qed.
End alone.

(** ** When each message is handled by one delivery at a time

    The worker reads the primary, reads do not fail, the answers to commits
    arrive, and no message is received while a delivery of it is handled. *)
Definition one_at_a_time {P} `{PgDriver P} `{JSON TxMessage} (c : pcfg) (d : Delivery) : Prop :=
  recorded_delivery c d /\
  forall p, json_Unmarshal (d_body d) = Ok p ->
    map_Forall (fun _ s => forall p', handles s = Some p' -> msg_tx_id p' <> msg_tx_id p) (procs c).

(** A message that could not be published is not delivered. *)
Definition never_settled (c : pcfg) (i : string) : Prop :=
  ~ row_completed (tables (db c)) i /\ map_Forall (fun _ s => forall p, handles s = Some p -> msg_tx_id p <> i) (procs c).

Definition careful_limits {P} `{PgDriver P} `{JSON TxMessage} : limits :=
  mkLimits (fun _ => False) one_at_a_time fair_save never_settled.

Section careful.
Context {P : Type} `{PgDriver P} `{!PgLiteral P} `{JSON TxMessage}.

(** What is not settled yet is not completed. *)
Definition status_ok (tb : Tables) (o : option thread) (s : proc) : Prop :=
  match s with
  | Settling p => o = Some (Ended (JobSettle p) true) \/ ~ row_completed tb (msg_tx_id p)
  | Failing p => ~ row_completed tb (msg_tx_id p)
  | _ => True
  end.

Definition exclusive (ps : gmap nat proc) : Prop :=
  forall t1 t2 s1 s2 p1 p2, ps !! t1 = Some s1 -> ps !! t2 = Some s2 ->
    handles s1 = Some p1 -> handles s2 = Some p2 -> msg_tx_id p1 = msg_tx_id p2 -> t1 = t2.

Record careful (c : pcfg) : Prop := {
  ca_shape : shape c;
  ca_money : money c;
  ca_primary : replica c = None;
  ca_status : map_Forall (fun t s => status_ok (tables (db c)) (threads (db c) !! t) s) (procs c);
  ca_exclusive : exclusive (procs c);
  ca_once : NoDup (settled_ids c);
  ca_done : Forall (row_completed (tables (db c))) (settled_ids c);
}.

Lemma careful_limits_fair : fair_limits careful_limits.
Proof. split; [by intros c d [Hr _]|done]. Qed.

(** Delivery [t] goes on to [s'], by a step that changes no message. *)
Lemma exclusive_update ps t s s' :
  exclusive ps -> ps !! t = Some s -> (forall p, handles s' = Some p -> handles s = Some p) ->
  exclusive (<[t := s']> ps).
Proof.
  intros He Ht Hp t1 t2 s1 s2 p1 p2 H1 H2 E1 E2 Hid.
  apply lookup_insert_Some in H1 as [[<- <-]|[N1 H1]], H2 as [[<- <-]|[N2 H2]]; [done| | |by eapply He].
  - by eapply He; [exact Ht|exact H2|by apply Hp|..].
  - by eapply He; [exact H1|exact Ht| |by apply Hp|].
Qed.

Lemma row_completed_keep i tb tb' j :
  same_but i tb tb' -> (j = i -> row_completed tb' i) -> row_completed tb j -> row_completed tb' j.
Proof.
  intros Hsame Hi Hj. destruct (decide (j = i)) as [->|Hne]; [by apply Hi|].
  by apply (same_but_completed i j tb tb' Hsame Hne).
Qed.

(** A change of one transaction row leaves the other deliveries alone. *)
Lemma status_ok_same_but i tb tb' o s :
  same_but i tb tb' -> (forall p, handles s = Some p -> msg_tx_id p <> i) -> status_ok tb o s -> status_ok tb' o s.
Proof.
  intros Hsame Hne. destruct s as [p|p|p|b]; cbn; try done; rw (same_but_completed i _ tb tb' Hsame); try done; by apply Hne.
Qed.

(** Delivery [t] goes on to [s'], and at most the row of its transaction
    changes. *)
Lemma careful_row c c' t s s' p :
  careful c -> shape c' -> money c' -> replica c' = replica c ->
  procs c !! t = Some s -> handles s = Some p -> procs c' = <[t := s']> (procs c) ->
  (forall q, handles s' = Some q -> handles s = Some q) ->
  (forall t', t' <> t -> threads (db c') !! t' = threads (db c) !! t') ->
  same_but (msg_tx_id p) (tables (db c)) (tables (db c')) ->
  status_ok (tables (db c')) (threads (db c') !! t) s' ->
  NoDup (settled_ids c') -> Forall (row_completed (tables (db c'))) (settled_ids c') ->
  careful c'.
Proof.
  intros Hc Hsh Hm Er Hs Hp Ep Hp' Eth Hsame Hst Hn Hd. split; try done; [by rw Er; apply Hc| |].
  - rw Ep. intros t' s1. rw lookup_insert. case_decide as Hdec; [intros [= <-]; by subst|]. intros Ht'.
    cbn. rw Eth; [congruence|]. eapply status_ok_same_but; [exact Hsame| |by apply (ca_status c Hc t')].
    intros p' Hp1 Hid. apply Hdec. by eapply (ca_exclusive c Hc t t' s s1 p p').
  - rw Ep. by eapply exclusive_update; [apply Hc|..].
Qed.

(** ... and nothing changes in the database. *)
Lemma careful_proc c c' t s s' p :
  careful c -> shape c' -> money c' -> replica c' = replica c ->
  procs c !! t = Some s -> handles s = Some p -> procs c' = <[t := s']> (procs c) ->
  (forall q, handles s' = Some q -> handles s = Some q) ->
  (forall t', t' <> t -> threads (db c') !! t' = threads (db c) !! t') ->
  tables (db c') = tables (db c) -> committed_jobs (db c') = committed_jobs (db c) ->
  status_ok (tables (db c)) (threads (db c') !! t) s' -> careful c'.
Proof.
  intros Hc Hsh Hm Er Hs Hp Ep Hp' Eth Et Ej Hst. eapply (careful_row c c' t s s' p); try done.
  - rw Et. by split; [|exists []; constructor].
  - by rw Et.
  - unfold settled_ids. rw Ej. apply Hc.
  - unfold settled_ids. rw Ej Et. apply Hc.
Qed.

(** A step of the database. *)
Lemma careful_db c d : careful c -> modest (tables (db c)) -> cstep (db c) d ->
  let c' := mkPcfg d (replica c) (procs c) in shape c' -> money c' ->
  careful c' /\ rtc bank_step (bank_of (tables (db c))) (bank_of (tables d)).
Proof.
  intros Hc Hmod Hstep c' Hsh' Hm'.
  destruct (cstep_cases _ _ Hstep (mo_threads c (ca_money c Hc))) as (t & th & th' & Ht & Hl & Hths & Hj & Hcase).
  destruct (shape_owner c t th (ca_shape c Hc) Ht Hl) as (p & Hs & Hjob).
  pose proof (mo_recorded c (ca_money c Hc) t _ Hs p eq_refl) as Hr.
  assert (~ row_completed (tables (db c)) (msg_tx_id p)) as Hnc.
  { pose proof (ca_status c Hc t _ Hs) as Hst. cbn in Hst. destruct Hst as [Hx|]; [|done].
    rw Ht in Hx. injection Hx as ->. done. }
  assert (procs c = <[t := Settling p]> (procs c)) as Ep by (by rw insert_id).
  assert (forall t', t' <> t -> threads d !! t' = threads (db c) !! t') as Eth.
  { intros t' Hne. by rw Hths lookup_insert_ne. }
  destruct Hcase as [(Et & Ej & Hne)|(-> & Ejs & Happ)].
  - rw Et. split; [|done]. eapply (careful_proc c c' t _ _ p); try done. by right.
  - rw Hjob in Ejs, Happ, Hths. cbn in Happ. pose proof (settle_same_but p _ _ Happ) as Hsame.
    pose proof (settle_applied_completed p _ _ Happ (recorded_backed _ _ Hr)) as Hcomp. split.
    + assert (settled_ids c' = settled_ids c ++ [msg_tx_id p]) as Eids by (unfold settled_ids; cbn; by rw Ejs map_app).
      eapply (careful_row c c' t _ (Settling p) p); try done.
      * cbn. rw Hths lookup_insert_eq. by left.
      * rw Eids. apply list.NoDup_app. split_and!; [apply Hc| |apply NoDup_singleton].
        intros i Hin [= ->]%list_elem_of_singleton. pose proof (ca_done c Hc) as Hd. rw list.Forall_forall in Hd. by apply Hnc, Hd.
      * rw Eids. apply Forall_app. split; [|by repeat constructor]. eapply list.Forall_impl; [apply (ca_done c Hc)|].
        intros i. by apply row_completed_keep with (i := msg_tx_id p).
    + apply rtc_once. destruct Hr as (r & Hrow & Es & Ed & Hf).
      eapply settle_step; [exact Hf|exact Hrow|done|done| |apply Hc|exact Hmod|exact Happ]. intros Hst. apply Hnc. by exists r.
Qed.

Lemma careful_pstep c c' : pstep (fun _ => False) c c' -> modest (tables (db c)) -> careful c -> shape c' -> money c' ->
  careful c' /\ rtc bank_step (bank_of (tables (db c))) (bank_of (tables (db c'))).
Proof.
  intros Hstep Hmod Hc Hsh' Hm'. pose proof (ca_primary c Hc) as Hrep.
  assert (seen c = tables (db c)) as Hseen by (unfold seen; by rw Hrep).
  destruct Hstep as [c t p Ht Hcp|c t p Ht Hcp|c t p [] _|c d Hs|c t p Ht Hx|c t p Ht Hx|c t p [] _|c t p tb Ht Hl Hup|c t p Ht];
    try (pose proof (ca_status c Hc t _ Ht) as Hst).
  - split; [|done]. by eapply (careful_proc c _ t _ _ p).
  - split; [|done]. eapply (careful_proc c _ t _ _ p); try done; cbn.
    + intros t' Hne. by rw lookup_insert_ne.
    + right. by rw -Hseen.
  - by apply careful_db.
  - split; [|done]. by eapply (careful_proc c _ t _ _ p).
  - split; [|done]. eapply (careful_proc c _ t _ _ p); try done. cbn in *. rw Hx in Hst. by destruct Hst.
  - cbn in Hst.
    assert (rtc bank_step (bank_of (tables (db c))) (bank_of tb)) as Hb.
    { eapply fail_step; [|exact Hup]. intros r Hrow Hcr. apply Hst. by exists r. }
    split; [|done]. pose proof (update_same_but _ _ _ _ Hup) as Hsame.
    eapply (careful_row c _ t _ (Answered false) p); try done; [apply Hc|].
    eapply list.Forall_impl; [apply (ca_done c Hc)|]. intros i Hci.
    eapply row_completed_keep; [exact Hsame| |exact Hci]. by intros ->.
  - split; [|done]. by eapply (careful_proc c _ t _ _ p).
Qed.

Lemma careful_receive c t d : careful c -> one_at_a_time c d -> procs c !! t = None ->
  shape (with_proc t (received d) c) -> money (with_proc t (received d) c) -> careful (with_proc t (received d) c).
Proof.
  intros Hc [_ Hone] Hn Hsh Hm. split; try done; [apply Hc| | |apply Hc|apply Hc]; cbn.
  - apply map_Forall_insert_2; [|apply Hc]. unfold received. by destruct (json_Unmarshal _).
  - intros t1 t2 s1 s2 p1 p2 H1 H2 E1 E2 Hid. unfold received in *. destruct (json_Unmarshal (d_body d)) as [p|e] eqn:Hj.
    + specialize (Hone p eq_refl).
      apply lookup_insert_Some in H1 as [[<- <-]|[N1 H1]], H2 as [[<- <-]|[N2 H2]]; [done| | |by eapply (ca_exclusive c Hc)];
        cbn in *; simplify_eq.
      * by destruct (Hone t2 s2 H2 p2 E2).
      * by destruct (Hone t1 s1 H1 p1 E1).
    + apply lookup_insert_Some in H1 as [[<- <-]|[N1 H1]]; [done|].
      apply lookup_insert_Some in H2 as [[<- <-]|[N2 H2]]; [done|]. by eapply (ca_exclusive c Hc).
Qed.

Lemma insert_same_but tx tb tb' : sql_step (InsertTx tx) tb tb' -> same_but (ID tx) tb tb' /\ transactions tb !! ID tx = None.
Proof.
  intros Hs. split.
  - split; [|eexists; by apply sql_steps_one]. intros j Hj. apply row_at_transaction.
    apply (sql_step_frame _ _ _ _ Hs). by intros [= ?].
  - destruct Hs as [now Hs]. cbn in Hs. unfold insert_tx in Hs. case_match; [|done]. by case_match.
Qed.

(** A row that no delivery handles changes, and is not completed. *)
Lemma careful_other c i tb :
  careful c -> same_but i (tables (db c)) tb ->
  map_Forall (fun _ s => forall p, handles s = Some p -> msg_tx_id p <> i) (procs c) ->
  ~ row_completed (tables (db c)) i ->
  let c' := mkPcfg (mkCfg tb (locks (db c)) (threads (db c)) (committed_jobs (db c))) (replica c) (procs c) in
  shape c' -> money c' -> careful c'.
Proof.
  intros Hc Hsame Hoth Hnc c' Hsh Hm. split; try done; cbn; try apply Hc.
  - intros t s Ht. cbn. eapply status_ok_same_but; [exact Hsame| |by apply (ca_status c Hc)]. by apply (Hoth t).
  - eapply list.Forall_impl; [apply (ca_done c Hc)|]. intros j Hcj.
    eapply row_completed_keep; [exact Hsame| |exact Hcj]. by intros ->.
Qed.

Lemma careful_env c c' : env_step careful_limits c c' -> careful c -> shape c' -> money c' ->
  careful c' /\ rtc bank_step (bank_of (tables (db c))) (bank_of (tables (db c'))).
Proof.
  intros [c0 tx tb [k Hf] Hl Hi|c0 i tb [Hnc Hoth] Hl Hi|c0 tb Hr] Hc Hsh Hm; [| |by rw (ca_primary c0 Hc) in Hr].
  - destruct (insert_same_but _ _ _ Hi) as [Hsame Hnone]. split.
    + apply (careful_other c0 (ID tx)); try done; [|intros (r & Hrow & _); cbn in Hnone; congruence].
      intros t s Ht p Hp Hid. destruct (mo_recorded c0 (ca_money c0 Hc) t s Ht p Hp) as (r & Hrow & _). cbn in Hnone. congruence.
    + apply rtc_once. by apply (record_step (set_status StatusPending tx) _ _ k).
  - split; [apply (careful_other c0 i); try done; by apply (update_same_but StatusFailed)|].
    apply (fail_step i); [|exact Hi]. intros r Hr Hst. apply Hnc. by exists r.
Qed.

Lemma careful_step c c' : modest_step careful_limits c c' -> careful c ->
  careful c' /\ rtc bank_step (bank_of (tables (db c))) (bank_of (tables (db c'))).
Proof.
  intros [Hmod Hstep] Hc. pose proof (dstep_shape _ _ _ Hstep (ca_shape c Hc)) as Hsh.
  destruct (dstep_money _ _ _ careful_limits_fair Hstep Hmod (ca_shape c Hc) (ca_money c Hc)) as [Hm _].
  destruct Hstep as [c0 t d Hn Ha|c0 c1 Hp|c0 c1 He].
  - split; [by apply careful_receive|done].
  - by apply careful_pstep.
  - by apply careful_env.
Qed.

Lemma careful_steps c c' : rtc (modest_step careful_limits) c c' -> careful c ->
  careful c' /\ rtc bank_step (bank_of (tables (db c))) (bank_of (tables (db c'))).
Proof.
  induction 1 as [c|c c1 c' Hs _ IH]; intros Hi; [done|]. destruct (careful_step _ _ Hs Hi) as [Hi1 Hb1].
  destruct (IH Hi1) as [Hi' Hb']. split; [done|]. by etrans.
Qed.
End careful.

(** No delivery was received yet. *)
Definition fresh (tb : Tables) (rep : option Tables) : pcfg := mkPcfg (mkCfg tb ∅ ∅ []) rep ∅.

Lemma fresh_shape tb rep : shape (fresh tb rep).
Proof. split; cbn; [done|]. intros t. rw !lookup_empty. by intros [? ?]. Qed.

Lemma fresh_money {P} `{PgDriver P} tb rep : bank_ok (bank_of tb) -> money (fresh tb rep).
Proof. by split. Qed.

Lemma fresh_careful {P} `{PgDriver P} tb : bank_ok (bank_of tb) -> careful (fresh tb None).
Proof. intros Hb. split; [apply fresh_shape|by apply fresh_money|done|done|done|constructor|constructor]. Qed.

(** The reference tables, in which [ref_message] waits to be settled. *)
Lemma ref_pending_ok : bank_ok (bank_of ref_pending).
Proof.
  split; intros i x Hx.
  - rw lookup_holdings in Hx. apply (ref_tables_balances i x Hx).
  - rw lookup_book in Hx. apply fmap_Some in Hx as (r & Hr & ->). cbn in Hr.
    apply lookup_singleton_Some in Hr as [_ <-]. split_and!; [by eexists|by eexists|done|by left].
Qed.

Lemma ref_message_recorded : recorded (P := RefPg) ref_pending ref_message.
Proof.
  eexists. split_and!; [done|done|done|]. split; [by vm_compute|]. apply (bool_decide_eq_true_1 _). by vm_compute.
Qed.

Lemma ref_settles : settle_applied (P := RefPg) ref_message ref_pending ref_settled.
Proof. apply (exec_job_sound 1 (JobSettle ref_message)). by vm_compute. Qed.

(** C17: [process] of the worker of cmd/server/main.go, run alone on the tables
    of the primary database, is a run of the steps that the interleavings of
    the worker are made of: it reads the status, settles, answers, and leaves
    the tables and sends the frame that those steps say.  Its incidents are
    those the database allows. *)
Theorem process_is_steps {P R A C} `{PgDriver P, RedisServer R, AmqpLib A, !PgLaws P, JSON TxMessage}
    redis h msg (w : World P R A C) c t :
  tables (db c) = pg_committed (w_pg w) -> seen c = pg_view (read_handle h) (w_pg w) -> locks (db c) = ∅ ->
  procs c !! t = Some (received msg) -> threads (db c) !! t = None ->
  wp (process (pg_worker redis h) msg) (fun _ w' => exists c' acked,
    rtc (pstep (possible (read_handle h))) c c' /\ tables (db c') = pg_committed (w_pg w') /\ locks (db c') = ∅ /\
    procs c' = <[t := Answered acked]> (procs c) /\ w_amqp w' = answer msg (answer_frame msg acked) (w_amqp w)) w.
Proof. intros Htb Hseen Hl Ht Hth. by apply (process_runs redis h msg w c t). Qed.

Lemma process_is_steps_witness :
  let c := with_proc 0 (received ref_delivery) (fresh ref_pending None) in
  wp (process (pg_worker true None) ref_delivery) (fun _ w' => exists c' acked,
    rtc (pstep (P := RefPg) (possible (P := RefPg) (read_handle None))) c c' /\
    tables (db c') = pg_committed (w_pg w') /\ locks (db c') = ∅ /\
    procs c' = <[0%nat := Answered acked]> (procs c) /\
    w_amqp w' = answer ref_delivery (answer_frame ref_delivery acked) (w_amqp ref_queued)) ref_queued.
Proof. intros c. by apply (process_is_steps true None ref_delivery ref_queued c 0). Defined.
