(* ===== verification/Pool.v ===== *)
(** * The pool of workers

    [Start] of internal/worker/transaction.go: it consumes from the
    "transactions" queue with a number of goroutines that share one delivery
    channel, and returns when each of them has reported on the unbuffered
    channel [done].  A step relation interleaves the goroutines, each inside
    [process] (the steps of [Deliveries]), the broker, the cancellation of the
    context and the loop of [Start] that receives the reports; requests that
    store transactions and a replica that catches up come in between. *)

From S2P Require Import Prelude GoNum TxId Float64 Domain Sql Postgres Transfer Bank Redis Queue.
From S2P Require Import World Session Repository Reference TransactionService Worker Settlement Ledger Concurrency Deliveries.

(** A goroutine waits in its [select], or is in [process] with the delivery of
    that number, or is blocked on [done <- struct{}{}], or has ended. *)
Inductive gstate : Type := InSelect | Handling (t : nat) | SendingDone | Gone.

Record pool : Type := mkPool {
  p_cfg : pcfg;                  (* the database, and where each delivery stands *)
  p_channel : list Delivery;     (* delivered, not yet received *)
  p_closed : bool;               (* msgs is closed *)
  p_cancelled : bool;            (* ctx is done *)
  p_goroutines : list gstate;
  p_waiting : nat;               (* rounds of [for range concurrency { <-done }] to come *)
  p_sent : list Delivery;        (* everything the broker delivered *)
  p_handled : list Delivery;     (* what the goroutines received, in order *)
}.

Definition with_cfg (c : pcfg) (p : pool) : pool :=
  mkPool c (p_channel p) (p_closed p) (p_cancelled p) (p_goroutines p) (p_waiting p) (p_sent p) (p_handled p).

Section start.
Context {P R A C : Type} `{PgDriver P, RedisServer R, AmqpLib A}.
#[local] Abbreviation World := (World P R A C).
Local Open Scope go_scope.

(** [Start] of a worker whose repository reads from [h]: [None] when consuming
    fails, else the pool it goes on with. *)
Definition Start (h : option DB) (concurrency : Z) : M World (option pool) :=
  msgs <- on_queue (Consume "transactions") ;;
  match msgs with
  | Err e =>
      L_Error "worker: failed to start consumer" [("error", LErr e)] ;;;
      mret None
  | Ok _ =>
      w <- mget id ;;
      let rep := match read_handle h with Primary => None | Replica => Some (pg_replica (w_pg w)) end in
      let n := Z.to_nat concurrency in
      mret (Some (mkPool (fresh (pg_committed (w_pg w)) rep) [] false false (replicate n InSelect) n [] []))
  end.
End start.

Section pool.
Context {P : Type} `{PgDriver P} `{JSON TxMessage}.

Inductive pool_step (L : limits) : pool -> pool -> Prop :=
(** the broker delivers, or the connection is lost and the channel closed *)
| pool_deliver p d :
    p_closed p = false ->
    pool_step L p (mkPool (p_cfg p) (p_channel p ++ [d]) false (p_cancelled p) (p_goroutines p)
      (p_waiting p) (p_sent p ++ [d]) (p_handled p))
| pool_close p :
    p_closed p = false ->
    pool_step L p (mkPool (p_cfg p) (p_channel p) true (p_cancelled p) (p_goroutines p)
      (p_waiting p) (p_sent p) (p_handled p))
| pool_cancel p :
    p_cancelled p = false ->
    pool_step L p (mkPool (p_cfg p) (p_channel p) (p_closed p) true (p_goroutines p)
      (p_waiting p) (p_sent p) (p_handled p))
(** [case <-ctx.Done()] *)
| pool_ctx_done p i :
    p_goroutines p !! i = Some InSelect -> p_cancelled p = true ->
    pool_step L p (mkPool (p_cfg p) (p_channel p) (p_closed p) true (<[i := SendingDone]> (p_goroutines p))
      (p_waiting p) (p_sent p) (p_handled p))
(** [case msg, ok := <-msgs]: a closed channel is drained before [ok] is false *)
| pool_not_ok p i :
    p_goroutines p !! i = Some InSelect -> p_closed p = true -> p_channel p = [] ->
    pool_step L p (mkPool (p_cfg p) [] true (p_cancelled p) (<[i := SendingDone]> (p_goroutines p))
      (p_waiting p) (p_sent p) (p_handled p))
| pool_receive p i d ds :
    p_goroutines p !! i = Some InSelect -> p_channel p = d :: ds -> admits L (p_cfg p) d ->
    pool_step L p (mkPool (with_proc (length (p_handled p)) (received d) (p_cfg p)) ds (p_closed p) (p_cancelled p)
      (<[i := Handling (length (p_handled p))]> (p_goroutines p)) (p_waiting p) (p_sent p) (p_handled p ++ [d]))
(** a goroutine goes on in [process], and returns from it *)
| pool_work p c : pstep (may L) (p_cfg p) c -> pool_step L p (with_cfg c p)
| pool_return p i t b :
    p_goroutines p !! i = Some (Handling t) -> procs (p_cfg p) !! t = Some (Answered b) ->
    pool_step L p (mkPool (p_cfg p) (p_channel p) (p_closed p) (p_cancelled p) (<[i := InSelect]> (p_goroutines p))
      (p_waiting p) (p_sent p) (p_handled p))
(** [done <- struct{}{}] meets [<-done] *)
| pool_join p i k :
    p_goroutines p !! i = Some SendingDone -> p_waiting p = S k ->
    pool_step L p (mkPool (p_cfg p) (p_channel p) (p_closed p) (p_cancelled p) (<[i := Gone]> (p_goroutines p))
      k (p_sent p) (p_handled p)).

(** [n] steps of the pool, with any number of steps of its environment, each
    from tables that satisfy [Q]. *)
Inductive pool_run (L : limits) (Q : Tables -> Prop) : nat -> pool -> pool -> Prop :=
| run_nil p : pool_run L Q 0 p p
| run_step n p p1 p2 :
    Q (tables (db (p_cfg p))) -> pool_step L p p1 -> pool_run L Q n p1 p2 -> pool_run L Q (S n) p p2
| run_env n p c p2 :
    Q (tables (db (p_cfg p))) -> env_step L (p_cfg p) c -> pool_run L Q n (with_cfg c p) p2 -> pool_run L Q n p p2.

(** [Start] has returned. *)
Definition returned (p : pool) : Prop := p_waiting p = 0%nat.

(** Nothing is left for the pool to do but to cancel the context. *)
Definition idle (L : limits) (p : pool) : Prop := forall p', pool_step L p p' -> p_cancelled p' <> p_cancelled p.

Lemma pool_run_trans L Q n m p p1 p2 : pool_run L Q n p p1 -> pool_run L Q m p1 p2 -> pool_run L Q (n + m) p p2.
Proof. induction 1 as [p|n p p0 p1 HQ Hs _ IH|n p c p1 HQ He _ IH]; intros Hm; [done|..]; by econstructor; [| |apply IH]. Qed.

(** ** Invariants *)

Definition alive (g : gstate) : nat := match g with Gone => 0 | _ => 1 end.
Definition alive_count (gs : list gstate) : nat := sum_list_with alive gs.
#[local] Arguments alive_count : simpl never.

Lemma sum_list_update (f : gstate -> nat) gs i g g' :
  gs !! i = Some g -> (sum_list_with f (<[i := g']> gs) + f g = sum_list_with f gs + f g')%nat.
Proof.
  revert i. induction gs as [|g0 gs IH]; intros [|i] Hi; cbn in *; try done.
  - injection Hi as ->. lia.
  - rw -!Nat.add_assoc. exact (f_equal (Nat.add (f g0)) (IH i Hi)).
Qed.

Lemma alive_update gs i g g' :
  gs !! i = Some g -> (alive_count (<[i := g']> gs) + alive g = alive_count gs + alive g')%nat.
Proof. apply sum_list_update. Qed.

(** A step of [process] answers some deliveries, and takes no answer back. *)
Lemma pstep_procs may c c' t : pstep may c c' ->
  (is_Some (procs c' !! t) <-> is_Some (procs c !! t)) /\
  (forall b, procs c !! t = Some (Answered b) -> procs c' !! t = Some (Answered b)).
Proof.
  assert (forall t0 s s' (ps : gmap nat proc), ps !! t0 = Some s -> (forall b, s <> Answered b) ->
    (is_Some (<[t0 := s']> ps !! t) <-> is_Some (ps !! t)) /\
    (forall b, ps !! t = Some (Answered b) -> <[t0 := s']> ps !! t = Some (Answered b))) as Hone.
  { intros t0 s s' ps Hs Hn. rw lookup_insert. case_decide as Hd; [subst t0; rw Hs|done].
    split; [done|]. intros b [= ->]. by destruct (Hn b). }
  intros [c0 t0 p Ht Hc|c0 t0 p Ht Hc|c0 t0 p _ Ht|c0 d Hs|c0 t0 p Ht Hx|c0 t0 p Ht Hx|c0 t0 p _ Ht Hx|c0 t0 p tb Ht Hl Hup|c0 t0 p Ht];
    cbn; first [done | by eapply Hone].
Qed.

Lemma env_procs L c c' : env_step L c c' -> procs c' = procs c /\ threads (db c') = threads (db c).
Proof. by destruct 1. Qed.

(** A goroutine is in [process] with each delivery that has no answer. *)
Definition attended (gs : list gstate) (ps : gmap nat proc) : Prop :=
  (forall i t, gs !! i = Some (Handling t) -> is_Some (ps !! t)) /\
  (forall t s, ps !! t = Some s -> (exists b, s = Answered b) \/ exists i, gs !! i = Some (Handling t)).

Record pool_inv (p : pool) : Prop := {
  pi_sent : p_sent p = p_handled p ++ p_channel p;
  pi_waiting : p_waiting p = alive_count (p_goroutines p);
  pi_shape : shape (p_cfg p);
  pi_numbers : forall t, is_Some (procs (p_cfg p) !! t) -> (t < length (p_handled p))%nat;
  pi_attended : attended (p_goroutines p) (procs (p_cfg p));
}.

(** A goroutine that is not in [process] moves. *)
Lemma attended_update gs ps i g g' :
  attended gs ps -> gs !! i = Some g -> (forall t, g <> Handling t) -> (forall t, g' <> Handling t) ->
  attended (<[i := g']> gs) ps.
Proof.
  intros [H1 H2] Hi Hg Hg'. split.
  - intros j t [(_ & Hj & _)|[_ Hj]]%list_lookup_insert_Some; [by destruct (Hg' t)|by eapply H1].
  - intros t s [Ha|[j Hj]]%H2; [by left|right]. exists j. rw list_lookup_insert_ne //.
    intros ->. rw Hi in Hj. injection Hj as ->. by destruct (Hg t).
Qed.

Lemma attended_receive gs ps i t s :
  attended gs ps -> gs !! i = Some InSelect -> ps !! t = None -> attended (<[i := Handling t]> gs) (<[t := s]> ps).
Proof.
  intros [H1 H2] Hi Ht. split.
  - intros j t' [(_ & [= <-] & _)|[_ Hj]]%list_lookup_insert_Some; [by rw lookup_insert_eq|].
    apply lookup_insert_is_Some'. right. by eapply H1.
  - intros t' s' [[<- <-]|[Hne Hs]]%lookup_insert_Some.
    + right. exists i. apply list_lookup_insert_eq. by eapply lookup_lt_Some.
    + destruct (H2 t' s' Hs) as [Ha|[j Hj]]; [by left|right]. exists j. rw list_lookup_insert_ne //. congruence.
Qed.

Lemma attended_return gs ps i t b :
  attended gs ps -> gs !! i = Some (Handling t) -> ps !! t = Some (Answered b) -> attended (<[i := InSelect]> gs) ps.
Proof.
  intros [H1 H2] Hi Ht. split.
  - intros j t' [(_ & Hj & _)|[_ Hj]]%list_lookup_insert_Some; [done|by eapply H1].
  - intros t' s Hs. destruct (decide (t' = t)) as [->|Hne]; [left; exists b; congruence|].
    destruct (H2 t' s Hs) as [Ha|[j Hj]]; [by left|right]. exists j. rw list_lookup_insert_ne //. congruence.
Qed.

Lemma attended_work may gs c c' : pstep may c c' -> attended gs (procs c) -> attended gs (procs c').
Proof.
  intros Hs [H1 H2]. split.
  - intros i t Hi. apply (pstep_procs _ _ _ t Hs). by eapply H1.
  - intros t s Ht. assert (is_Some (procs c !! t)) as [s0 Hs0] by (apply (pstep_procs _ _ _ t Hs); by rw Ht).
    destruct (H2 t s0 Hs0) as [[b ->]|Hi]; [|by right]. left. exists b.
    pose proof (proj2 (pstep_procs _ _ _ t Hs) b Hs0). congruence.
Qed.

Lemma received_new p : pool_inv p -> procs (p_cfg p) !! length (p_handled p) = None.
Proof. intros Hi. apply eq_None_not_Some. intros Hx%(pi_numbers p Hi). lia. Qed.

Lemma pool_inv_step L p p' : pool_step L p p' -> pool_inv p -> pool_inv p'.
Proof.
  intros Hs Hi. pose proof (received_new p Hi) as Hnew. destruct Hi as [Hsent Hwait Hsh Hnum Hatt].
  destruct Hs as [p d|p|p|p i Hi|p i Hi _ Hch|p i d ds Hi Hch Ha|p c Hc|p i t b Hi Ht|p i k Hi Hk];
    split; cbn; try done; try by rw Hch in Hsent.
  - by rw Hsent app_assoc.
  - pose proof (alive_update _ i _ SendingDone Hi). cbn in *. lia.
  - by eapply attended_update.
  - pose proof (alive_update _ i _ SendingDone Hi). cbn in *. lia.
  - by eapply attended_update.
  - by rw Hsent Hch -app_assoc.
  - pose proof (alive_update _ i _ (Handling (length (p_handled p))) Hi). cbn in *. lia.
  - by apply shape_receive.
  - intros t. rw lookup_insert_is_Some' length_app. cbn. intros [->|Ht%Hnum]; lia.
  - by apply attended_receive.
  - by eapply pstep_shape.
  - intros t Ht. apply Hnum. by apply (pstep_procs _ _ _ t Hc).
  - by eapply attended_work.
  - pose proof (alive_update _ i _ InSelect Hi). cbn in *. lia.
  - by eapply attended_return.
  - pose proof (alive_update _ i _ Gone Hi). cbn in *. lia.
  - by eapply attended_update.
Qed.

Lemma pool_inv_env L p c : env_step L (p_cfg p) c -> pool_inv p -> pool_inv (with_cfg c p).
Proof.
  intros He [Hsent Hwait Hsh Hnum Hatt]. destruct (env_procs _ _ _ He) as [Ep _].
  split; cbn; rw ?Ep; try done. by eapply env_shape.
Qed.

Lemma alive_replicate n : alive_count (replicate n InSelect) = n.
Proof. unfold alive_count. induction n as [|n IH]; cbn; lia. Qed.

(** ** Winding down *)

Definition rounds (g : gstate) : nat := match g with InSelect => 2 | Handling _ => 3 | SendingDone => 1 | Gone => 0 end.
Definition rounds_left (gs : list gstate) : nat := sum_list_with rounds gs.
#[local] Arguments rounds_left : simpl never.

(** Bounds the steps of a pool whose channel is closed. *)
Definition measure (p : pool) : Z :=
  Z.of_nat (rounds_left (p_goroutines p)) + 10 * Z.of_nat (length (p_channel p)) + (if p_cancelled p then 0 else 1) +
  total_steps (p_cfg p).

Lemma rounds_update gs i g g' :
  gs !! i = Some g -> (rounds_left (<[i := g']> gs) + rounds g = rounds_left gs + rounds g')%nat.
Proof. apply sum_list_update. Qed.

Lemma closed_step L p p' : p_closed p = true -> pool_inv p -> pool_step L p p' ->
  p_closed p' = true /\ measure p' < measure p.
Proof.
  intros Hc Hinv Hs. pose proof (received_new p Hinv) as Hnew. pose proof (pi_shape p Hinv) as Hsh. unfold measure.
  destruct Hs as [p d Hd|p Hd|p Hd|p i Hi Hd|p i Hi _ Hch|p i d ds Hi Hch Ha|p c Hp|p i t b Hi Ht|p i k Hi Hk];
    cbn [p_cfg p_closed p_goroutines p_channel p_cancelled with_cfg]; try congruence; (split; [done|]).
  - rw Hd. lia.
  - pose proof (rounds_update _ i _ SendingDone Hi). cbn in *. rw Hd. lia.
  - pose proof (rounds_update _ i _ SendingDone Hi). cbn in *. rw Hch. cbn. lia.
  - pose proof (rounds_update _ i _ (Handling (length (p_handled p))) Hi).
    pose proof (total_steps_receive (p_cfg p) _ d Hnew). rw Hch. cbn in *. lia.
  - destruct (pstep_shape _ _ _ Hp Hsh) as [_ Hlt]. lia.
  - pose proof (rounds_update _ i _ InSelect Hi). cbn in *. lia.
  - pose proof (rounds_update _ i _ Gone Hi). cbn in *. lia.
Qed.

Lemma closed_run L Q n p p' : pool_run L Q n p p' -> p_closed p = true -> pool_inv p ->
  p_closed p' = true /\ Z.of_nat n + measure p' <= measure p.
Proof.
  induction 1 as [p|n p p1 p' _ Hs _ IH|n p c p' _ He _ IH]; intros Hc Hinv; [by split; [|lia]|..].
  - destruct (closed_step L p p1 Hc Hinv Hs) as [Hc1 Hm].
    destruct (IH Hc1 (pool_inv_step _ _ _ Hs Hinv)) as [Hc2 Hm2]. split; [done|lia].
  - destruct (IH Hc (pool_inv_env _ _ _ He Hinv)) as [Hc2 Hm2]. split; [done|].
    destruct (env_procs _ _ _ He) as [Ep Et]. assert (measure (with_cfg c p) = measure p) as <-; [|done].
    unfold measure, total_steps. cbn. by rw Ep Et.
Qed.

Lemma measure_nonneg p : 0 <= measure p.
Proof. unfold measure. pose proof (total_steps_nonneg (p_cfg p)). destruct (p_cancelled p); lia. Qed.

Lemma alive_zero gs : alive_count gs = 0%nat -> Forall (fun g => g = Gone) gs.
Proof.
  unfold alive_count. induction gs as [|[] gs IH]; cbn; intros Hz; [constructor|lia|lia|lia|].
  constructor; [done|by apply IH].
Qed.

Lemma some_alive gs : alive_count gs <> 0%nat -> exists i g, gs !! i = Some g /\ g <> Gone.
Proof.
  unfold alive_count. induction gs as [|g gs IH]; cbn; intros Hw; [done|].
  destruct (decide (alive g = 0)%nat) as [Hz|Hz].
  - destruct IH as (i & g' & Hi & Hg); [lia|]. by exists (S i), g'.
  - exists 0%nat, g. split; [done|]. by intros ->.
Qed.

(** A goroutine that has not ended can go on, once the channel is closed. *)
Lemma alive_moves L p i g :
  (forall c d, admits L c d) -> pool_inv p -> p_closed p = true -> p_goroutines p !! i = Some g -> g <> Gone ->
  exists p', pool_step L p p' /\ p_cancelled p' = p_cancelled p.
Proof.
  intros Hadm Hinv Hc Hi Hg. destruct g as [|t| |]; [| | |done].
  - destruct (p_channel p) as [|d ds] eqn:Hch; eexists.
    + split; [by eapply pool_not_ok|done].
    + split; [by eapply pool_receive|done].
  - destruct (proj1 (pi_attended p Hinv) i t Hi) as [s Hs].
    assert ((exists b, s = Answered b) \/ forall b, s <> Answered b) as [[b ->]|Hn] by (destruct s; [by right..|by left; eexists]).
    + eexists. split; [by eapply pool_return|done].
    + destruct (pstep_progress (may L) (p_cfg p) t s (pi_shape p Hinv) Hs Hn) as [c Hp].
      eexists. split; [by eapply pool_work|done].
  - pose proof (pi_waiting p Hinv) as Hw. pose proof (alive_update _ i _ Gone Hi) as Ha. cbn in Ha.
    destruct (p_waiting p) as [|k] eqn:Hk; [lia|]. eexists. split; [by eapply pool_join|done].
Qed.

Lemma idle_returned L p : (forall c d, admits L c d) -> pool_inv p -> p_closed p = true -> idle L p ->
  returned p /\ Forall (fun g => g = Gone) (p_goroutines p) /\
  map_Forall (fun _ s => exists b, s = Answered b) (procs (p_cfg p)).
Proof.
  intros Hadm Hinv Hc Hidle.
  assert (alive_count (p_goroutines p) = 0%nat) as Hz.
  { destruct (decide (alive_count (p_goroutines p) = 0%nat)) as [|Hn]; [done|]. exfalso.
    destruct (some_alive _ Hn) as (i & g & Hi & Hg).
    destruct (alive_moves L p i g Hadm Hinv Hc Hi Hg) as (p' & Hs & He). by apply (Hidle p' Hs). }
  pose proof (alive_zero _ Hz) as Hgone. split_and!; [unfold returned; by rw (pi_waiting p Hinv)|done|].
  intros t s Hs. destruct (proj2 (pi_attended p Hinv) t s Hs) as [Ha|[i Hi]]; [done|].
  rewrite list.Forall_lookup in Hgone. by specialize (Hgone i _ Hi).
Qed.

(** Without cancellation a goroutine leaves its loop only when the channel is
    closed and drained. *)
Definition looping (g : gstate) : Prop := match g with InSelect | Handling _ => True | _ => False end.
Definition drained (p : pool) : Prop :=
  p_cancelled p = false -> (exists i g, p_goroutines p !! i = Some g /\ ~ looping g) ->
  p_closed p = true /\ p_channel p = [].

Lemma drained_update (gs : list gstate) (i j : nat) g g' (Q : Prop) :
  ((exists i g, gs !! i = Some g /\ ~ looping g) -> Q) ->
  <[i := g']> gs !! j = Some g -> ~ looping g -> looping g' -> Q.
Proof.
  intros HQ [(_ & Hj & _)|[_ Hj]]%list_lookup_insert_Some Hn Hl; [by subst|]. by apply HQ; exists j, g.
Qed.

Lemma drained_step L p p' : pool_step L p p' -> drained p -> drained p'.
Proof.
  intros Hs Hd Hnc (j & g & Hj & Hg).
  assert (p_cancelled p = false -> forall i g0, p_goroutines p !! i = Some g0 -> ~ looping g0 ->
    p_closed p = true /\ p_channel p = []) as Hd' by (intros ? i g0 ? ?; apply Hd; eauto).
  destruct Hs as [p d Hc|p Hc|p Hc|p i Hi Hc|p i Hi Hc Hch|p i d ds Hi Hch Ha|p c Hp|p i t b Hi Ht|p i k Hi Hk]; cbn in *; try done.
  - destruct (Hd' Hnc j g Hj Hg); congruence.
  - split; [done|]. by destruct (Hd' Hnc j g Hj Hg).
  - destruct (drained_update _ _ _ _ _ _ (Hd Hnc) Hj Hg I); congruence.
  - by eapply Hd'.
  - exact (drained_update _ _ _ _ _ _ (Hd Hnc) Hj Hg I).
  - exact (Hd' Hnc i SendingDone Hi (fun Hf => Hf)).
Qed.

Lemma goroutines_step L p p' : pool_step L p p' -> length (p_goroutines p') = length (p_goroutines p).
Proof. destruct 1; cbn; by rw ?length_insert. Qed.

Lemma run_inv L Q n p p' : pool_run L Q n p p' -> pool_inv p -> drained p ->
  pool_inv p' /\ drained p' /\ length (p_goroutines p') = length (p_goroutines p).
Proof.
  induction 1 as [p|n p p1 p' _ Hs _ IH|n p c p' _ He _ IH]; intros Hi Hd; [done|..].
  - rw -(goroutines_step _ _ _ Hs). apply IH; [by eapply pool_inv_step|by eapply drained_step].
  - by apply IH; [eapply pool_inv_env|].
Qed.

(** The pool and its environment are steps of deliveries handled at the same
    time. *)
Lemma pool_step_cfg L p p' : pool_step L p p' -> pool_inv p -> p_cfg p' = p_cfg p \/ dstep L (p_cfg p) (p_cfg p').
Proof.
  intros Hs Hi. pose proof (received_new p Hi) as Hnew.
  destruct Hs as [p d|p|p|p i|p i|p i d ds Hg Hch Ha|p c Hc|p i t b|p i k]; cbn; try by left.
  - right. by apply d_receive.
  - right. by apply d_work.
Qed.

Lemma run_dsteps L n p p' : pool_run L modest n p p' -> pool_inv p -> rtc (modest_step L) (p_cfg p) (p_cfg p').
Proof.
  induction 1 as [p|n p p1 p' HQ Hs _ IH|n p c p' HQ He _ IH]; intros Hi; [done|..].
  - specialize (IH (pool_inv_step _ _ _ Hs Hi)). destruct (pool_step_cfg L p p1 Hs Hi) as [Ec|Hd]; [by rw -Ec|].
    by eapply rtc_l; [split; [exact HQ|exact Hd]|].
  - eapply rtc_l; [split; [exact HQ|by apply d_env]|]. by apply IH, (pool_inv_env L).
Qed.

(** When all the money is at most 2^43 units, no account ever holds more. *)
Lemma total_run `{!PgLiteral P} L n p p' : fair_limits L -> pool_run L (fun _ => True) n p p' -> pool_inv p -> money (p_cfg p) ->
  total_balance (tables (db (p_cfg p))) <= safe_cents -> pool_run L modest n p p'.
Proof.
  intros HL. induction 1 as [p|n p p1 p' _ Hs _ IH|n p c p' _ He _ IH]; intros Hi Hm Ht; [constructor|..].
  all: assert (modest (tables (db (p_cfg p)))) as Hmod by (apply total_modest; [by apply bank_no_overdraft, Hm|done]).
  all: assert (forall c1, dstep L (p_cfg p) c1 -> money c1 /\ total_balance (tables (db c1)) <= safe_cents) as Hstep.
  1,3: intros c1 Hd; destruct (dstep_money L _ _ HL Hd Hmod (pi_shape p Hi) Hm) as [Hm1 Hb]; split; [done|];
    destruct (careless_keeps_steps _ _ Hb (mo_bank _ Hm)) as [_ Heq]; rw !bank_total in Heq; by rw Heq.
  - eapply run_step; [done|exact Hs|]. apply IH; [by eapply pool_inv_step| |];
      (destruct (pool_step_cfg L p p1 Hs Hi) as [->|Hd]; [done|by apply (Hstep _ Hd)]).
  - destruct (Hstep c) as [Hm1 Ht1]; [by apply d_env|].
    eapply run_env; [done|exact He|]. apply IH; [by eapply pool_inv_env|done|done].
Qed.
End pool.

(** [process] of one goroutine, nothing else happening. *)
Lemma pool_works {P} `{PgDriver P, JSON TxMessage} L (Q : Tables -> Prop) p c :
  (forall tb, Q tb) -> rtc (pstep (may L)) (p_cfg p) c -> exists n, pool_run L Q n p (with_cfg c p).
Proof.
  intros HQ. destruct p as [c0 ch cl ca gs k sent hd]. unfold with_cfg. cbn. induction 1 as [c|c c1 c2 Hs _ [n IH]].
  - exists 0%nat. constructor.
  - exists (S n). eapply run_step; [apply HQ| |exact IH]. by apply (pool_work L (mkPool c ch cl ca gs k sent hd) c1).
Qed.

Section reachable.
Context {P R A C : Type} `{PgDriver P, RedisServer R, AmqpLib A} `{JSON TxMessage}.
#[local] Abbreviation World := (World P R A C).

Lemma Start_inv h concurrency (w : World) :
  wp (Start h concurrency) (fun r _ => forall p, r = Some p ->
    pool_inv p /\ drained p /\ length (p_goroutines p) = Z.to_nat concurrency /\
    exists rep, p_cfg p = fresh (pg_committed (w_pg w)) rep /\ (read_handle h = Primary -> rep = None)) w.
Proof.
  unfold Start, on_queue. wp_steps. apply wp_of. intros [ch|e] q _; wp_steps.
  - intros p [= <-]. split_and!.
    + split; cbn; [done|exact (eq_sym (alive_replicate _))|apply fresh_shape|intros t; rw lookup_empty; by intros [? ?]|].
      split; [|done]. intros i t Hi. by apply lookup_replicate in Hi as [? _].
    + intros _ (i & g & Hi & Hg). cbn in Hi. apply lookup_replicate in Hi as [-> _]. by destruct Hg.
    + apply length_replicate.
    + eexists. split; [done|]. by intros ->.
  - unfold L_Error, log_write. by wp_steps.
Qed.
End reachable.

(** C3: the pool of [Start], with any number of goroutines, implements the
    bank.  Whatever the interleaving of the goroutines inside [process], of
    the statements of their database transactions, and of the requests that
    store transactions: the database makes moves of the bank only, every
    message is settled at most once, its transfer stays completed, and the
    deliveries are received in the order of the channel.  The conditions: the
    worker reads the primary database, reads do not fail, the answers to
    commits arrive, a message is that of a stored transaction and is not
    received while a delivery of it is being handled, a message reported as
    unsent is not delivered, amounts are whole cents, nobody is overdrawn at
    the start, and no account holds more than 2^43 units on the way (as when
    that is all the money there is, [total_run]). *)
Theorem pool_refines_bank {P R A C} `{PgDriver P, !PgLiteral P, RedisServer R, AmqpLib A, JSON TxMessage}
    concurrency (w : World P R A C) :
  bank_ok (bank_of (pg_committed (w_pg w))) ->
  wp (Start None concurrency) (fun r _ => forall p n p', r = Some p -> pool_run careful_limits modest n p p' ->
    rtc bank_step (bank_of (pg_committed (w_pg w))) (bank_of (tables (db (p_cfg p')))) /\
    NoDup (settled_ids (p_cfg p')) /\ Forall (row_completed (tables (db (p_cfg p')))) (settled_ids (p_cfg p')) /\
    p_sent p' = p_handled p' ++ p_channel p') w.
Proof.
  intros Hb. wp_apply (Start_inv None). intros r _ Hr p n p' Hp Hrun.
  destruct (Hr p Hp) as (Hi & Hd & _ & rep & Hc & Hrep). rw (Hrep eq_refl) in Hc.
  pose proof (run_dsteps _ _ _ _ Hrun Hi) as Hsteps. rw Hc in Hsteps.
  destruct (careful_steps _ _ Hsteps (fresh_careful _ Hb)) as [Hca Hbank].
  split_and!; [exact Hbank|apply Hca|apply Hca|]. by destruct (run_inv _ _ _ _ _ Hrun Hi Hd) as ([] & _).
Qed.

(** C4: and whatever goes wrong, no money appears or disappears and nobody is
    overdrawn: reads may fail, the answers to commits may be lost, the worker
    may read a lagging replica, messages reported as unsent may be delivered,
    and any number of deliveries of one message may be handled at the same
    time.  The conditions: the messages are those of stored transactions,
    amounts are whole cents, nobody is overdrawn at the start, and no account
    holds more than 2^43 units on the way.  What such a pool can get wrong is
    which transfers are settled, how often, and what their status says. *)
Theorem pool_money_safe {P R A C} `{PgDriver P, !PgLiteral P, RedisServer R, AmqpLib A, JSON TxMessage}
    (L : limits) h concurrency (w : World P R A C) :
  fair_limits L -> bank_ok (bank_of (pg_committed (w_pg w))) ->
  wp (Start h concurrency) (fun r _ => forall p n p', r = Some p -> pool_run L modest n p p' ->
    rtc careless_step (bank_of (pg_committed (w_pg w))) (bank_of (tables (db (p_cfg p')))) /\
    total_balance (tables (db (p_cfg p'))) = total_balance (pg_committed (w_pg w)) /\
    no_overdraft (tables (db (p_cfg p')))) w.
Proof.
  intros HL Hb. wp_apply (Start_inv h). intros r _ Hr p n p' Hp Hrun.
  destruct (Hr p Hp) as (Hi & Hd & _ & rep & Hc & _).
  pose proof (run_dsteps _ _ _ _ Hrun Hi) as Hsteps. rw Hc in Hsteps.
  destruct (dsteps_money _ _ _ HL Hsteps (fresh_shape _ _) (fresh_money _ _ Hb)) as [Hm Hbank]. cbn in Hbank.
  split_and!; [exact Hbank| |apply bank_no_overdraft, Hm].
  destruct (careless_keeps_steps _ _ Hbank Hb) as [_ Heq]. by rw !bank_total in Heq.
Qed.

(** C24: [Start] ends with the delivery channel, not only with the context.
    Once the channel is closed, as it is when the connection to the broker is
    lost, every run takes only so many more steps, whatever its environment
    does; and when nothing is left to do but to cancel the context, [Start]
    has returned, all its goroutines have ended, every delivery that was
    received is answered, and unless the context was cancelled they have
    received every delivery. *)
Theorem Start_ends_with_channel {P R A C} `{PgDriver P, RedisServer R, AmqpLib A, JSON TxMessage}
    (L : limits) h concurrency (w : World P R A C) :
  0 < concurrency -> (forall c d, admits L c d) ->
  wp (Start h concurrency) (fun r _ => forall p n1 p1, r = Some p -> pool_run L (fun _ => True) n1 p p1 -> p_closed p1 = true ->
    (forall n p2, pool_run L (fun _ => True) n p1 p2 -> Z.of_nat n <= measure p1) /\
    (forall n p2, pool_run L (fun _ => True) n p1 p2 -> idle L p2 ->
       returned p2 /\ Forall (fun g => g = Gone) (p_goroutines p2) /\
       map_Forall (fun _ s => exists b, s = Answered b) (procs (p_cfg p2)) /\
       (p_cancelled p2 = false -> p_handled p2 = p_sent p2))) w.
Proof.
  intros Hn Hadm. wp_apply (Start_inv h). intros r _ Hr p n1 p1 Hp Hrun Hc. destruct (Hr p Hp) as (Hi & Hd & Hl & _).
  destruct (run_inv _ _ _ _ _ Hrun Hi Hd) as (Hi1 & Hd1 & Hl1). split; intros n p2 Hs; [|intros Hidle].
  { destruct (closed_run L _ n p1 p2 Hs Hc Hi1). pose proof (measure_nonneg p2). lia. }
  destruct (closed_run L _ n p1 p2 Hs Hc Hi1) as [Hc2 _]. destruct (run_inv _ _ _ _ _ Hs Hi1 Hd1) as (Hi2 & Hd2 & Hl2).
  destruct (idle_returned L p2 Hadm Hi2 Hc2 Hidle) as (Hret & Hgone & Hans). split_and!; [done|done|done|].
  intros Hnc. rw (pi_sent p2 Hi2). enough (p_channel p2 = []) as -> by (by rw app_nil_r).
  destruct (p_goroutines p2) as [|g gs] eqn:Hg; [cbn in Hl2; lia|].
  apply Hd2; [done|]. exists 0%nat, g. rw Hg. split; [done|]. apply Forall_inv in Hgone. subst g. by intros [].
Qed.

(** Two goroutines on the reference servers.  The first settles [ref_message]
    and returns to its [select]; the message is delivered again, and the
    second finds it completed. *)
Definition ref_pool : pool := mkPool (fresh ref_pending None) [] false false [InSelect; InSelect] 2 [] [].
Definition ref_settled_db : cfg :=
  mkCfg ref_settled ∅ {[0%nat := Ended (JobSettle ref_message) true]} [JobSettle ref_message].
Definition ref_pool_1 : pool :=
  mkPool (mkPcfg ref_settled_db None {[0%nat := Answered true]}) [] false false [InSelect; InSelect] 2
    [ref_delivery] [ref_delivery].
Definition ref_pool_2 : pool :=
  mkPool (mkPcfg ref_settled_db None {[0%nat := Answered true; 1%nat := Answered true]}) [] false false
    [InSelect; InSelect] 2 [ref_delivery; ref_delivery] [ref_delivery; ref_delivery].

Lemma ref_pool_start h : read_handle h = Primary -> fst (Start (P := RefPg) h 2 ref_queued) = Some ref_pool.
Proof. by destruct h as [[]|]. Qed.

Lemma ref_received : received ref_delivery = Checking ref_message.
Proof. unfold received. by rw ref_delivery_message. Qed.

(** Every delivery is one of [ref_message], which stays stored. *)
Lemma ref_admitted c : recorded (P := RefPg) (tables (db c)) ref_message ->
  map_Forall (fun _ s => handles s = None) (procs c) -> one_at_a_time (P := RefPg) c ref_delivery.
Proof.
  intros Hr Hp. split.
  - intros p Hj. by rw (ref_delivery_is p Hj).
  - intros p _ t s Hs p' Hh. specialize (Hp t s Hs). cbn in Hp. congruence.
Qed.

Lemma ref_pool_run_1 : exists n, pool_run (P := RefPg) careful_limits (fun _ => True) n ref_pool ref_pool_1.
Proof.
  set (p1 := mkPool (with_proc 0 (received ref_delivery) (fresh ref_pending None)) [] false false
               [Handling 0; InSelect] 2 [ref_delivery] [ref_delivery]).
  destruct (pool_works (P := RefPg) careful_limits (fun _ => True) p1 (mkPcfg ref_settled_db None {[0%nat := Answered true]})
    (fun _ => I)) as [n Hw].
  { subst p1. cbn [p_cfg]. rw ref_received. eapply rtc_l.
    - apply (p_settle _ (with_proc 0 (Checking ref_message) (fresh ref_pending None)) 0 ref_message (lookup_insert_eq _ _ _)).
      intros (r & Hr & Hst). cbn in Hr. by injection Hr as <-.
    - pose proof (settle_and_ack (P := RefPg) (fun _ => False) (with_proc 0 (Checking ref_message) (fresh ref_pending None)) 0
        ref_message ref_settled eq_refl ref_settles) as Hrun. cbn in Hrun. cbn. by rw !insert_insert_eq in Hrun |- *. }
  eexists. eapply run_step; [done|by apply (pool_deliver careful_limits ref_pool ref_delivery)|].
  eapply run_step; [done| |].
  { apply (pool_receive careful_limits (mkPool (fresh ref_pending None) [ref_delivery] false false
      [InSelect; InSelect] 2 [ref_delivery] []) 0 ref_delivery []); [done..|].
    apply ref_admitted; [exact ref_message_recorded|done]. }
  eapply pool_run_trans; [exact Hw|]. eapply run_step; [done| |constructor].
  by apply (pool_return careful_limits (with_cfg _ p1) 0 0 true).
Qed.

Lemma ref_pool_run_2 : exists n, pool_run (P := RefPg) careful_limits (fun _ => True) n ref_pool ref_pool_2.
Proof.
  destruct ref_pool_run_1 as [n1 H1]. eexists. eapply pool_run_trans; [exact H1|].
  eapply run_step; [done|by apply (pool_deliver careful_limits ref_pool_1 ref_delivery)|].
  eapply run_step; [done| |].
  - apply (pool_receive careful_limits (mkPool (p_cfg ref_pool_1) [ref_delivery] false false
      [InSelect; InSelect] 2 [ref_delivery; ref_delivery] [ref_delivery]) 1 ref_delivery []); [done..|].
    apply ref_admitted; [|by apply map_Forall_singleton].
    eapply recorded_run; [apply ref_settles|exact ref_message_recorded].
  - set (q := mkPool (with_proc 1 (Checking ref_message) (p_cfg ref_pool_1)) [] false false [InSelect; Handling 1] 2
               [ref_delivery; ref_delivery] [ref_delivery; ref_delivery]).
    assert (with_proc 1 (received ref_delivery) (p_cfg ref_pool_1) = p_cfg q) as Eq by (by rw ref_received).
    cbn [p_handled ref_pool_1 length p_cfg] in Eq |- *. rw Eq. eapply run_step; [done| |].
    + apply (pool_work careful_limits q), (p_skip _ (p_cfg q) 1 ref_message (lookup_insert_eq _ _ _)).
      apply (settle_applied_completed ref_message _ _ ref_settles). apply recorded_backed, ref_message_recorded.
    + eapply run_step; [done|by apply (pool_return careful_limits (with_cfg (with_proc 1 (Answered true) (p_cfg q)) q) 1 1 true)|].
      constructor.
Qed.

Lemma ref_pool_inv : pool_inv ref_pool.
Proof.
  split; cbn; [done|done|apply fresh_shape|intros t; rw lookup_empty; by intros [? ?]|].
  split; [|done]. intros i t Hi. by destruct i as [|[|]].
Qed.

Lemma pool_refines_bank_witness :
  fst (Start (P := RefPg) None 2 ref_queued) = Some ref_pool /\
  (exists n, pool_run (P := RefPg) careful_limits modest n ref_pool ref_pool_2) /\
  wp (Start (P := RefPg) None 2) (fun r _ => forall p n p', r = Some p -> pool_run (P := RefPg) careful_limits modest n p p' ->
    rtc bank_step (bank_of ref_pending) (bank_of (tables (db (p_cfg p')))) /\
    NoDup (settled_ids (p_cfg p')) /\ Forall (row_completed (tables (db (p_cfg p')))) (settled_ids (p_cfg p')) /\
    p_sent p' = p_handled p' ++ p_channel p') ref_queued.
Proof.
  split_and!; [by apply ref_pool_start| |exact (pool_refines_bank 2 ref_queued ref_pending_ok)].
  destruct ref_pool_run_2 as [n Hrun]. exists n.
  apply (total_run (P := RefPg)); [apply careful_limits_fair|exact Hrun|exact ref_pool_inv|apply fresh_money, ref_pending_ok|by vm_compute].
Defined.

(** Anything may go wrong. *)
Definition any_limits : limits :=
  mkLimits (fun _ => True) (recorded_delivery (P := RefPg)) (fair_save (P := RefPg)) (fun _ _ => True).

Lemma any_limits_fair : fair_limits (P := RefPg) any_limits.
Proof. by split. Qed.

Lemma pool_money_safe_witness :
  wp (Start (P := RefPg) (Some Replica) 2) (fun r _ => forall p n p', r = Some p -> pool_run (P := RefPg) any_limits modest n p p' ->
    rtc careless_step (bank_of ref_pending) (bank_of (tables (db (p_cfg p')))) /\
    total_balance (tables (db (p_cfg p'))) = total_balance ref_pending /\
    no_overdraft (tables (db (p_cfg p')))) ref_queued.
Proof.
  exact (pool_money_safe any_limits (Some Replica) 2 ref_queued any_limits_fair ref_pending_ok).
Defined.

Lemma Start_ends_with_channel_witness :
  let L := mkLimits (fun _ => True) (fun _ _ => True) (fun _ => True) (fun _ _ => True) in
  fst (Start (P := RefPg) None 2 ref_queued) = Some ref_pool /\
  wp (Start (P := RefPg) None 2) (fun r _ => forall p n1 p1, r = Some p -> pool_run (P := RefPg) L (fun _ => True) n1 p p1 -> p_closed p1 = true ->
    (forall n p2, pool_run (P := RefPg) L (fun _ => True) n p1 p2 -> Z.of_nat n <= measure p1) /\
    (forall n p2, pool_run (P := RefPg) L (fun _ => True) n p1 p2 -> idle (P := RefPg) L p2 ->
       returned p2 /\ Forall (fun g => g = Gone) (p_goroutines p2) /\
       map_Forall (fun _ s => exists b, s = Answered b) (procs (p_cfg p2)) /\
       (p_cancelled p2 = false -> p_handled p2 = p_sent p2))) ref_queued.
Proof. intros L. split; [by apply ref_pool_start|]. exact (Start_ends_with_channel L None 2 ref_queued eq_refl (fun _ _ => I)). Defined.
