(* ===== verification/Duplicates.v ===== *)
(** * Why the worker handles each message by one delivery at a time

    The refinement of [Pool] restricts what may happen: no delivery of a
    message is handled while another one is, the worker reads the primary
    database, reads do not fail, the answers to commits arrive, and a message
    that could not be published is not delivered.  Here each of these
    restrictions is lifted, and the others kept, and the same message is
    settled twice, whatever the amount, the accounts and the tables: the
    status is looked at outside the database transaction of [settle]. *)

From S2P Require Import Prelude GoNum Float64 Domain Sql Postgres Transfer Bank Redis Queue World Reference.
From S2P Require Import Session Repository TransactionService Worker Settlement Ledger Concurrency Deliveries.

Section duplicates.
Context {P : Type} `{PgDriver P} `{JSON TxMessage}.

(** The failure mark changes no account. *)
Lemma mark_exists st i tb r : (String.length st <= 20)%nat -> transactions tb !! i = Some r ->
  exists tb', sql_step (UpdateTxStatus st i) tb tb' /\ accounts tb' = accounts tb /\
    row_status <$> transactions tb' !! i = Some st.
Proof.
  intros Hst Hr. eexists. split; [exists 0; cbn; unfold update_status|].
  { destruct (Nat.ltb_spec 20 (String.length st)); [lia|]. by rw Hr. }
  split; [done|]. cbn. by rw lookup_insert_eq.
Qed.

Lemma update_balance_accounts sign now a i tb tb' tc :
  accounts tc = accounts tb -> update_balance pg_literal sign now a i tb = Some tb' ->
  exists tc', update_balance pg_literal sign now a i tc = Some tc' /\ accounts tc' = accounts tb' /\
    transactions tc' = transactions tc.
Proof.
  intros Ha Hu. unfold update_balance in *. rw Ha. destruct (pg_literal a); [|done].
  destruct (accounts tb !! i); [|by injection Hu as <-; exists tc].
  destruct (numeric_18_2 _ _); [|done]. injection Hu as <-. by eexists.
Qed.

(** A settlement does to the accounts what it does whatever the status. *)
Lemma settle_applied_accounts p tb tb' tc r :
  accounts tc = accounts tb -> transactions tc !! msg_tx_id p = Some r -> settle_applied p tb tb' ->
  exists tc', settle_applied p tc tc' /\ accounts tc' = accounts tb'.
Proof.
  intros Ha Hr [(cents & Hb & Hf) Hrun]. unfold settle_applied, funds_checked, balance_of in *. rw Ha.
  inversion Hrun as [|n1 ??? tb1 ? S1 R1]; subst. inversion R1 as [|n2 ??? tb2 ? S2 R2]; subst.
  inversion R2 as [|n3 ??? tb3 ? S3 R3]; subst. inversion R3; subst. cbn in S1, S2, S3.
  destruct (update_balance_accounts _ _ _ _ _ _ tc Ha S1) as (tc1 & T1 & A1 & X1).
  destruct (update_balance_accounts _ _ _ _ _ _ tc1 A1 S2) as (tc2 & T2 & A2 & X2).
  unfold update_status in S3. cbn in S3. assert (accounts tb' = accounts tb2) as ->.
  { by destruct (transactions tb2 !! _); injection S3 as <-. }
  exists (mkTables (accounts tc2) (<[msg_tx_id p := mkTxRow (row_source r) (row_dest r) (row_amount r) StatusCompleted
    (row_created r) n3]> (transactions tc2))). split; [|done]. split; [by exists cents|].
  eapply sql_run_cons; [exact T1|]. eapply sql_run_cons; [exact T2|]. eapply (sql_run_cons _ _ n3); [|constructor].
  cbn. unfold update_status. cbn. by rw X2 X1 Hr.
Qed.

(** ** Runs *)

(** The configuration after delivery [t] has settled its message. *)
Definition settled_cfg (t : nat) (p : TxMessage) (tb : Tables) (c : pcfg) : pcfg :=
  mkPcfg (mkCfg tb ∅ (<[t := Ended (JobSettle p) true]> (threads (db c))) (committed_jobs (db c) ++ [JobSettle p]))
    (replica c) (<[t := Answered true]> (procs c)).

Lemma work_steps L c c' : rtc (pstep (may L)) c c' -> rtc (dstep L) c c'.
Proof. induction 1 as [c|c c1 c' Hs _ IH]; [done|]. eapply rtc_l; [by apply d_work|done]. Qed.

(** A delivery begins to settle: its status is not known to be completed. *)
Lemma starts_settling L c t p :
  procs c !! t = Some (Checking p) -> ~ row_completed (seen c) (msg_tx_id p) \/ may L ReadFailed ->
  dstep L c (mkPcfg (begin_settle t p (db c)) (replica c) (<[t := Settling p]> (procs c))).
Proof. intros Ht [Hn|Hm]; apply d_work; [by apply p_settle|by apply p_read_failed]. Qed.

(** A message is received, settled and acknowledged, nothing else happening. *)
Lemma delivery_settles L c t d p tb :
  json_Unmarshal (d_body d) = Ok p -> procs c !! t = None -> admits L c d -> locks (db c) = ∅ ->
  ~ row_completed (seen c) (msg_tx_id p) \/ may L ReadFailed -> settle_applied p (tables (db c)) tb ->
  rtc (dstep L) c (settled_cfg t p tb c).
Proof.
  intros Hj Hn Ha Hl Hread Happ. eapply rtc_l; [by apply (d_receive L c t d)|].
  unfold received. rw Hj. set (c1 := with_proc t (Checking p) c).
  eapply rtc_l; [by apply (starts_settling L c1 t p); [apply lookup_insert_eq|]|]. apply work_steps.
  pose proof (settle_and_ack (may L) c1 t p tb Hl Happ) as Hrun. cbn in Hrun |- *. by rw !insert_insert_eq in Hrun |- *.
Qed.

(** Every restriction but the one that [m], [adm] or [un] lifts. *)
Definition lifted (m : incident -> Prop) (adm : pcfg -> Delivery -> Prop) (un : pcfg -> string -> Prop) : limits :=
  mkLimits m adm fair_save un.
Definition nothing (i : incident) : Prop := False.

(** A run from tables [tb] that settles [p] twice: the accounts end as two
    transfers leave them. *)
Definition settled_twice (L : limits) (rep : option Tables) (tb : Tables) (p : TxMessage) (tb2 : Tables) : Prop :=
  exists c, rtc (dstep L) (fresh tb rep) c /\ settled_ids c = [msg_tx_id p; msg_tx_id p] /\
    accounts (tables (db c)) = accounts tb2.

Section message.
Context (tb : Tables) (p : TxMessage) (d : Delivery) (tb1 : Tables).
Hypothesis Hj : json_Unmarshal (d_body d) = Ok p.
Hypothesis Hrec : recorded tb p.
Hypothesis Hnc : ~ row_completed tb (msg_tx_id p).
Hypothesis Happ : settle_applied p tb tb1.

Lemma first_admitted rep : one_at_a_time (fresh tb rep) d.
Proof. split; intros q Hq; [by assert (q = p) as -> by congruence|apply map_Forall_empty]. Qed.

Lemma later_admitted c ss : sql_steps ss tb (tables (db c)) -> map_Forall (fun _ s => handles s = None) (procs c) ->
  one_at_a_time c d.
Proof.
  intros Hrun Hp. split; [intros q Hq; assert (q = p) as -> by congruence; by eapply recorded_run|].
  intros q _ t s Hs q' Hh. specialize (Hp t s Hs). cbn in Hp. congruence.
Qed.

Lemma first_settled L rep : admits L (fresh tb rep) d -> ~ row_completed (seen (fresh tb rep)) (msg_tx_id p) ->
  rtc (dstep L) (fresh tb rep) (settled_cfg 0 p tb1 (fresh tb rep)).
Proof. intros Ha Hn. apply (delivery_settles L (fresh tb rep) 0 d); try done. by left. Qed.

(** The message is settled again, on tables with the same accounts. *)
Lemma second_settled L rep tb2 tb3 c :
  json_Unmarshal (d_body d) = Ok p -> rtc (dstep L) (fresh tb rep) c -> procs c !! 1%nat = None -> admits L c d ->
  locks (db c) = ∅ -> settled_ids c = [msg_tx_id p] ->
  ~ row_completed (seen c) (msg_tx_id p) \/ may L ReadFailed -> settle_applied p (tables (db c)) tb3 ->
  accounts tb3 = accounts tb2 -> settled_twice L rep tb p tb2.
Proof.
  intros Hd Hrun Hp Ha Hl Hids Hread Happ3 Hacc. exists (settled_cfg 1 p tb3 c). split_and!; [|by unfold settled_ids in *; cbn; rw map_app Hids|done].
  etrans; [exact Hrun|]. by apply (delivery_settles L c 1 d).
Qed.

(** A failure mark of the completed transaction. *)
Lemma marked_failed : exists tbf, sql_step (UpdateTxStatus StatusFailed (msg_tx_id p)) tb1 tbf /\
  accounts tbf = accounts tb1 /\ row_status <$> transactions tbf !! msg_tx_id p = Some StatusFailed /\
  exists ss, sql_steps ss tb tbf.
Proof.
  destruct (settle_applied_completed p tb tb1 Happ (recorded_backed _ _ Hrec)) as (r & Hr & _).
  destruct (mark_exists StatusFailed (msg_tx_id p) tb1 r) as (tbf & Hm & Ha & Hs); [cbn; lia|done|].
  exists tbf. split_and!; try done. destruct Happ as [_ Hrun]. destruct Hm as [n Hm].
  eexists. eapply sql_steps_snoc; [exact Hrun|by exists n].
Qed.

(** The two deliveries have both been received, and both saw the status. *)
Lemma both_begun L : (forall c, tables (db c) = tb -> admits L c d) ->
  rtc (dstep L) (fresh tb None) (mkPcfg (mkCfg tb ∅ {[0%nat := Waiting (JobSettle p); 1%nat := Waiting (JobSettle p)]} [])
    None {[0%nat := Settling p; 1%nat := Settling p]}).
Proof.
  intros Ha. eapply rtc_l; [by apply (d_receive L _ 1 d), Ha|]. eapply rtc_l; [by apply (d_receive L _ 0 d), Ha|].
  unfold received. rw Hj. set (c := with_proc 0 (Checking p) (with_proc 1 (Checking p) (fresh tb None))).
  eapply rtc_l; [apply (starts_settling L c 1 p); [done|by left]|]. set (c1 := mkPcfg _ _ _).
  eapply rtc_l; [apply (starts_settling L c1 0 p); [done|by left]|]. cbn.
  by rw (insert_insert_ne _ 1%nat 0%nat) // !insert_insert_eq.
Qed.

(** ... and the first is settled and acknowledged. *)
Lemma one_settled L : (forall c, tables (db c) = tb -> admits L c d) ->
  rtc (dstep L) (fresh tb None)
    (mkPcfg (mkCfg tb1 ∅ {[0%nat := Ended (JobSettle p) true; 1%nat := Waiting (JobSettle p)]} [JobSettle p])
       None {[0%nat := Answered true; 1%nat := Settling p]}).
Proof.
  intros Ha. etrans; [by apply both_begun|]. apply work_steps.
  set (c := mkPcfg (mkCfg tb ∅ {[1%nat := Waiting (JobSettle p)]} []) None {[1%nat := Settling p]}).
  exact (settle_and_ack (may L) c 0 p tb1 eq_refl Happ).
Qed.

(** The answer to the commit is lost, and the failure recorded. *)
Lemma lost_and_marked L tbf : admits L (fresh tb None) d -> may L CommitLost ->
  sql_step (UpdateTxStatus StatusFailed (msg_tx_id p)) tb1 tbf ->
  rtc (dstep L) (fresh tb None)
    (mkPcfg (mkCfg tbf ∅ {[0%nat := Ended (JobSettle p) true]} [JobSettle p]) None {[0%nat := Answered false]}).
Proof.
  intros Ha Hmay Hm. eapply rtc_l; [by apply (d_receive L _ 0 d)|]. unfold received. rw Hj.
  set (c := with_proc 0 (Checking p) (fresh tb None)).
  eapply rtc_l; [apply (starts_settling L c 0 p); [done|by left]|]. apply work_steps.
  etrans; [exact (settle_runs (may L) c 0 p tb1 eq_refl Happ)|].
  set (c1 := mkPcfg _ _ _). eapply rtc_l; [by apply (p_commit_lost _ c1 0 p Hmay)|].
  apply rtc_once. set (c2 := with_proc _ _ _). by apply (p_failed _ c2 0 p tbf (lookup_insert_eq _ _ _) eq_refl).
Qed.
End message.

(** Delivery 0 has settled, delivery 1 is about to begin its transaction. *)
Lemma second_of_two L p tb1 tb2 : settle_applied p tb1 tb2 ->
  rtc (dstep L)
    (mkPcfg (mkCfg tb1 ∅ {[0%nat := Ended (JobSettle p) true; 1%nat := Waiting (JobSettle p)]} [JobSettle p])
       None {[0%nat := Answered true; 1%nat := Settling p]})
    (mkPcfg (mkCfg tb2 ∅ {[0%nat := Ended (JobSettle p) true; 1%nat := Ended (JobSettle p) true]}
       [JobSettle p; JobSettle p]) None {[0%nat := Answered true; 1%nat := Answered true]}).
Proof.
  intros Happ. apply work_steps.
  set (c := mkPcfg (mkCfg tb1 ∅ {[0%nat := Ended (JobSettle p) true]} [JobSettle p]) None {[0%nat := Answered true]}).
  pose proof (settle_and_ack (may L) c 1 p tb2 eq_refl Happ) as Hrun. unfold begin_settle in Hrun. cbn in Hrun.
  by rw !(insert_insert_ne _ 0%nat 1%nat) // in Hrun |- *.
Qed.

(** Or its transaction is refused, and the failure recorded. *)
Lemma second_marks_failed L p tb1 tbf : sql_step (UpdateTxStatus StatusFailed (msg_tx_id p)) tb1 tbf ->
  rtc (dstep L)
    (mkPcfg (mkCfg tb1 ∅ {[0%nat := Ended (JobSettle p) true; 1%nat := Waiting (JobSettle p)]} [JobSettle p])
       None {[0%nat := Answered true; 1%nat := Settling p]})
    (mkPcfg (mkCfg tbf ∅ {[0%nat := Ended (JobSettle p) true; 1%nat := Ended (JobSettle p) false]} [JobSettle p])
       None {[0%nat := Answered true; 1%nat := Answered false]}).
Proof.
  intros Hm. apply work_steps. set (c := mkPcfg _ _ _).
  eapply rtc_l; [apply (p_db _ c), (cstep_refuse (db c) 1 (JobSettle p) eq_refl)|].
  set (c1 := mkPcfg _ _ _). eapply rtc_l; [by apply (p_error _ c1 1 p eq_refl)|].
  apply rtc_once. set (c2 := with_proc _ _ _). by apply (p_failed _ c2 1 p tbf (lookup_insert_eq _ _ _) eq_refl).
Qed.
End duplicates.

(** C13: each restriction is needed.  Take any message of a stored transaction
    that is not completed, and that the payer can pay twice.  If it may be
    received again while a delivery of it is handled; or if the worker reads a
    replica that lags; or if reads may fail; or if the answer to a commit may
    be lost; or if [createAsync] may report a message as unsent that was sent:
    then, with all the other restrictions kept, a run settles the transfer
    twice, and the accounts end as two transfers leave them. *)
Theorem restrictions_needed {P} `{PgDriver P, JSON TxMessage} tb p tb1 tb2 d :
  json_Unmarshal (d_body d) = Ok p -> recorded tb p -> ~ row_completed tb (msg_tx_id p) ->
  settle_applied p tb tb1 -> settle_applied p tb1 tb2 ->
  settled_twice (lifted nothing recorded_delivery never_settled) None tb p tb2 /\
  settled_twice (lifted nothing one_at_a_time never_settled) (Some tb) tb p tb2 /\
  settled_twice (lifted (fun i => i = ReadFailed) one_at_a_time never_settled) None tb p tb2 /\
  settled_twice (lifted (fun i => i = CommitLost) one_at_a_time never_settled) None tb p tb2 /\
  settled_twice (lifted nothing one_at_a_time (fun _ _ => True)) None tb p tb2.
Proof.
  intros Hj Hrec Hnc H1 H2.
  destruct (marked_failed tb p tb1 Hrec H1) as (tbf & Hm & Ha & Hs & ss & Hrun).
  assert (exists r, transactions tbf !! msg_tx_id p = Some r) as [r Hr] by (destruct (transactions tbf !! _); [by eexists|done]).
  destruct (settle_applied_accounts p tb1 tb2 tbf r Ha Hr H2) as (tb3 & H3 & Ha3).
  assert (forall c t, procs c = {[0%nat := Answered t]} -> map_Forall (fun _ s => handles s = None) (procs c)) as Hans
    by (intros c t ->; by apply map_Forall_singleton).
  pose proof (fun rep => first_admitted tb p d Hj Hrec rep) as Hfirst.
  assert (~ row_completed tbf (msg_tx_id p)) as Hfail by (by apply (failed_not_completed _ tb1)).
  split_and!.
  - eexists. split; [etrans; [apply (one_settled tb p d tb1 Hj Hnc H1)|by apply (second_of_two _ p tb1 tb2 H2)]|done].
    intros c Hc q Hq. assert (q = p) as -> by congruence. by rw Hc.
  - eapply (second_settled tb p d _ (Some tb) tb2 tb2); [exact Hj|apply (first_settled tb p d tb1 Hj H1); [apply Hfirst|exact Hnc]|..]; try done.
    + eapply (later_admitted tb p d Hj Hrec); [apply H1|by eapply Hans].
    + by left.
  - eapply (second_settled tb p d _ None tb2 tb2); [exact Hj|apply (first_settled tb p d tb1 Hj H1); [apply Hfirst|exact Hnc]|..]; try done.
    + eapply (later_admitted tb p d Hj Hrec); [apply H1|by eapply Hans].
    + by right.
  - eapply (second_settled tb p d _ None tb2 tb3); [exact Hj|apply (lost_and_marked tb p d tb1 Hj Hnc H1); [apply Hfirst|done|exact Hm]|..]; try done.
    + eapply (later_admitted tb p d Hj Hrec); [exact Hrun|by eapply Hans].
    + by left.
  - eapply (second_settled tb p d _ None tb2 tb3); [exact Hj| |..].
    + eapply rtc_r; [apply (first_settled tb p d tb1 Hj H1); [apply Hfirst|exact Hnc]|]. by apply d_env, (env_unsent _ _ (msg_tx_id p) tbf).
    + done.
    + eapply (later_admitted tb p d Hj Hrec); [exact Hrun|by eapply Hans].
    + done.
    + done.
    + by left.
    + done.
    + done.
Qed.

(** C14: a delivery that overlaps another one can also undo the record of it.
    Take any message of a stored transaction that is not completed and that
    the payer can pay: two deliveries handled at the same time can end with
    the transfer settled and acknowledged by the first, and marked as failed
    by the second, whose transaction was refused, for lack of funds or for
    any other reason: the money has moved, and the transaction says failed. *)
Theorem completed_transfer_marked_failed {P} `{PgDriver P, JSON TxMessage} tb p tb1 d :
  json_Unmarshal (d_body d) = Ok p -> recorded tb p -> ~ row_completed tb (msg_tx_id p) -> settle_applied p tb tb1 ->
  exists c, rtc (dstep (lifted nothing recorded_delivery never_settled)) (fresh tb None) c /\
    procs c = {[0%nat := Answered true; 1%nat := Answered false]} /\ settled_ids c = [msg_tx_id p] /\
    accounts (tables (db c)) = accounts tb1 /\
    row_status <$> transactions (tables (db c)) !! msg_tx_id p = Some StatusFailed.
Proof.
  intros Hj Hrec Hnc H1. destruct (marked_failed tb p tb1 Hrec H1) as (tbf & Hm & Ha & Hs & _).
  eexists. split; [etrans; [apply (one_settled tb p d tb1 Hj Hnc H1)|by apply (second_marks_failed _ p tb1 tbf Hm)]|done].
  intros c Hc q Hq. assert (q = p) as -> by congruence. by rw Hc.
Qed.

(** The message of 30.00 on the reference tables. *)
Definition ref_settled_again : Tables := default ref_settled (exec_job (P := RefPg) 2 (JobSettle ref_message) ref_settled).

Lemma ref_settles_again : settle_applied (P := RefPg) ref_message ref_settled ref_settled_again.
Proof. apply (exec_job_sound 2 (JobSettle ref_message)). by vm_compute. Qed.

Lemma ref_not_completed : ~ row_completed ref_pending "T1".
Proof. intros (r & Hr & Hst). cbn in Hr. by injection Hr as <-. Qed.

Lemma restrictions_needed_witness :
  let twice L rep := settled_twice (P := RefPg) L rep ref_pending ref_message ref_settled_again in
  twice (lifted (P := RefPg) nothing (recorded_delivery (P := RefPg)) never_settled) None /\
  twice (lifted (P := RefPg) nothing (one_at_a_time (P := RefPg)) never_settled) (Some ref_pending) /\
  twice (lifted (P := RefPg) (fun i => i = ReadFailed) (one_at_a_time (P := RefPg)) never_settled) None /\
  twice (lifted (P := RefPg) (fun i => i = CommitLost) (one_at_a_time (P := RefPg)) never_settled) None /\
  twice (lifted (P := RefPg) nothing (one_at_a_time (P := RefPg)) (fun _ _ => True)) None.
Proof.
  intros twice. exact (restrictions_needed ref_pending ref_message ref_settled ref_settled_again ref_delivery
    ref_delivery_message ref_message_recorded ref_not_completed ref_settles ref_settles_again).
Defined.

Lemma completed_transfer_marked_failed_witness :
  exists c, rtc (dstep (P := RefPg) (lifted (P := RefPg) nothing (recorded_delivery (P := RefPg)) never_settled))
      (fresh ref_pending None) c /\
    procs c = {[0%nat := Answered true; 1%nat := Answered false]} /\ settled_ids c = ["T1"] /\
    accounts (tables (db c)) = accounts ref_settled /\
    row_status <$> transactions (tables (db c)) !! "T1" = Some StatusFailed.
Proof.
  exact (completed_transfer_marked_failed ref_pending ref_message ref_settled ref_delivery
    ref_delivery_message ref_message_recorded ref_not_completed ref_settles).
Defined.
