(* ===== verification/Anomalies.v ===== *)
(** * Runs in which the program does not do what it means to

    Executions of the service and the worker on the reference servers, each
    an instance of a behaviour that the theorems of the other files exclude
    by a hypothesis: amounts below a cent, balances beyond the exact range of
    [float64], colliding identifiers, a failed settlement. *)

From S2P Require Import Prelude GoNum TxId Float64 Domain Sql Postgres Transfer Redis Queue World.
From S2P Require Import Reference Session Repository TransactionService AccountService Cache Worker Settlement Frames.

(** An amount of 0.125 is accepted and creates a cent: from 100.00 and
    50.00 the debit and the credit are rounded separately to 99.88 and 50.13,
    and the recorded amount is 0.13. *)
Theorem sub_cent_transfer_creates_money :
  let '(r, w') := CreateTransaction (ref_service false false) (mkInput 1001 1002 amount_eighth) ref_start in
  is_ok r = true /\
  (balance_of 1001 (pg_committed (w_pg w')), balance_of 1002 (pg_committed (w_pg w'))) = (Some 9988, Some 5013) /\
  row_amount <$> transactions (pg_committed (w_pg w')) !! "txn0000000000000000000008" = Some 13 /\
  total_balance (pg_committed (w_pg w')) = total_balance (pg_committed (w_pg ref_start)) + 1.
Proof. by vm_compute. Qed.

(** An account that holds 9007199254740995.00, which [float64] reads as
    9007199254740996. *)
Definition rich_tables : Tables :=
  mkTables {[1001 := mkAccountRow "Budi Santoso" 900719925474099500 0;
             1002 := mkAccountRow "Siti Rahayu" 5000 0]} ∅.
Definition rich_start : RefWorld := ref_world (ref_pg rich_tables []) (ref_amqp []).

(** The bound of 2^43 units is not idle: an account of 2^53 + 3 units is
    read as one unit more than it holds, and a transfer of what was read
    leaves it overdrawn by one unit. *)
Theorem float_funds_check_overdraws :
  let '(r, w') := CreateTransaction (ref_service false false)
    (mkInput 1001 1002 (f64_of_Z 9007199254740996)) rich_start in
  is_ok r = true /\ balance_of 1001 (pg_committed (w_pg w')) = Some (-100).
Proof. by vm_compute. Qed.

(** Another process has stored a transaction of the same nanosecond. *)
Definition collision_tables : Tables :=
  mkTables (accounts ref_tables)
    {["txn0000000000000000000008" := mkTxRow 1002 1001 700 StatusCompleted 0 0]}.
Definition collision_start : RefWorld := ref_world (ref_pg collision_tables []) (ref_amqp []).

Section collision.
Context {P R A C : Type} `{PgDriver P, RedisServer R, AmqpLib A, Clock C, !PgLaws P}.
Context `{JSON TxMessage, JSON Transaction}.
#[local] Abbreviation World := (World P R A C).

(** The money of [tx] moved, and no stored transaction tells of it: none is
    new, and none has other accounts or another amount than before. *)
Definition moved_unrecorded (tx : Transaction) (tb tb' : Tables) : Prop :=
  (exists tb1, sql_steps [Debit (Amount tx) (SourceAccount tx); Credit (Amount tx) (DestAccount tx)] tb tb1 /\
     accounts tb' = accounts tb1) /\
  (forall i r', transactions tb' !! i = Some r' -> exists r, transactions tb !! i = Some r /\ same_parties r r').

Lemma sync_applied_collision tx tb tb' row :
  sync_applied tx tb tb' -> transactions tb !! ID tx = Some row -> moved_unrecorded tx tb tb'.
Proof.
  intros (_ & _ & Hrun) Hrow. split.
  - destruct (transfer_inv _ _ _ _ _ _ Hrun) as (q & n1 & tb1 & n2 & tb2 & _ & S1 & S2 & S3). exists tb2. split.
    + apply (sql_steps_cons _ _ _ tb1); [by exists n1|]. apply sql_steps_one. by exists n2.
    + eapply sql_run_same_accounts; [|exact S3]. apply sync_rest_untouched.
  - intros i r' Hr'. destruct (sql_run_keys _ _ _ _ _ i Hrun) as [[r Hr]|Hi]; [by rw Hr'| |].
    + exists r. split; [done|]. destruct (sql_run_rows _ _ _ _ _ _ _ Hrun Hr) as (r2 & Hr2 & Hs). congruence.
    + cbn in Hi. apply list_elem_of_singleton in Hi as ->. exists row. split; [done|].
      destruct (sql_run_rows _ _ _ _ _ _ _ Hrun Hrow) as (r2 & Hr2 & Hs). congruence.
Qed.

(** A row with the identifier refuses the insert. *)
Lemma insert_collision tx row tb tb' : transactions tb !! ID tx = Some row -> ~ sql_step (InsertTx tx) tb tb'.
Proof. intros Hrow [now Hs]. cbn in Hs. unfold insert_tx in Hs. rw Hrow in Hs. by case_match. Qed.

Lemma createAsync_collision (s : transactionService World) h tx row w :
  svc_repo s = postgres.NewTransactionRepository Primary h ->
  transactions (pg_committed (w_pg w)) !! ID tx = Some row ->
  wp (createAsync s tx) (fun r w' =>
    is_ok r = false /\ pg_committed (w_pg w') = pg_committed (w_pg w) /\ w_amqp w' = w_amqp w) w.
Proof.
  intros Hrepo Hrow. unfold createAsync. rw Hrepo. wp_steps. cbn [Save postgres.NewTransactionRepository].
  unfold postgres.Save, on_pg. wp_steps. wp_apply pg_exec_law.
  intros [u|e] p1 Hp1; wp_steps; [by eapply insert_collision in Hp1|].
  split_and!; try done. destruct Hp1 as [|Hp1]; [done|by eapply insert_collision in Hp1].
Qed.

Lemma createAsync_counter (s : transactionService World) h tx w :
  svc_repo s = postgres.NewTransactionRepository Primary h ->
  wp (createAsync s tx) (fun _ w' => w_counter w' = w_counter w) w.
Proof.
  intros Hrepo. unfold createAsync. rw Hrepo. wp_steps. cbn [Save UpdateStatus postgres.NewTransactionRepository].
  unfold postgres.Save, postgres.UpdateStatus, on_pg, on_queue. wp_steps. apply wp_of. intros [u|e] p _; wp_steps; [|done].
  destruct (json_Marshal _); wp_steps; [|done]. apply wp_of. intros [u'|e] q _; wp_steps; [done|].
  apply wp_of. intros r p' _. by wp_steps.
Qed.
End collision.

(** C38: identifiers are unique within one process only.  When the identifier
    that [CreateTransaction] generates, that of the counter after the call, is
    already stored, by another process: the asynchronous path fails, stores
    nothing and sends nothing; but the synchronous path, if it reports
    success, has moved the money of a transfer that is in no record: the row
    with its identifier is still the other's. *)
Theorem colliding_identifier_hides_transfer {P R A C}
    `{PgDriver P, RedisServer R, AmqpLib A, Clock C, !PgLaws P, JSON TxMessage, JSON Transaction}
    (s : transactionService (World P R A C)) h input (w : World P R A C) :
  svc_repo s = postgres.NewTransactionRepository Primary h -> svc_db s = true ->
  wp (CreateTransaction s input) (fun r w' => forall row,
    transactions (pg_committed (w_pg w)) !! format_id (w_counter w') = Some row ->
    if svc_queue s
    then is_ok r = false /\ pg_committed (w_pg w') = pg_committed (w_pg w) /\ w_amqp w' = w_amqp w
    else forall tx, r = Ok tx -> ID tx = format_id (w_counter w') /\
      moved_unrecorded tx (pg_committed (w_pg w)) (pg_committed (w_pg w'))) w.
Proof.
  intros Hrepo Hd. apply CreateTransaction_run. intros t now w1 (Ep & _ & Ea & _) Ec. unfold create_path. rw -Ec.
  destruct (svc_queue s).
  - destruct (transactions (pg_committed (w_pg w)) !! format_id (w_counter w1)) as [row|] eqn:Hrow.
    + eapply wp_mono; [eapply (createAsync_collision s h _ row); [done|by rw Ep]|].
      intros r w2 (Hr & Hp & Ha) w3 (Ep3 & _ & Ea3 & _) _ row' _. by rw Ep3 Ea3 Hp Ha Ep Ea.
    + eapply wp_mono; [by apply (createAsync_counter s h)|]. intros r w2 Hc w3 _ Ec3 row'. by rw Ec3 Hc Hrow.
  - rw Hd. eapply wp_mono; [apply wp_and; [apply createSync_spec|apply (keeps_createSync s)]|].
    intros r w2 [Ho Hk] w3 (Ep3 & _) Ec3 row' Hrow' tx ->. injection Hk as _ _ Hc. rw Ec3 Hc in Hrow' |- *.
    destruct Ho as [-> Happ]. split; [done|]. rw Ep3. rw Ep in Happ. by eapply sync_applied_collision in Happ.
Qed.

Lemma colliding_identifier_hides_transfer_witness :
  (exists row, transactions (pg_committed (w_pg collision_start)) !!
     format_id (w_counter (snd (CreateTransaction (ref_service false false) (mkInput 1001 1002 amount_30) collision_start))) =
     Some row) /\
  wp (CreateTransaction (ref_service false false) (mkInput 1001 1002 amount_30)) (fun r w' => forall row,
    transactions (pg_committed (w_pg collision_start)) !! format_id (w_counter w') = Some row ->
    if svc_queue (ref_service false false)
    then is_ok r = false /\ pg_committed (w_pg w') = pg_committed (w_pg collision_start) /\
         w_amqp w' = w_amqp collision_start
    else forall tx, r = Ok tx -> ID tx = format_id (w_counter w') /\
      moved_unrecorded (P := RefPg) tx (pg_committed (w_pg collision_start)) (pg_committed (w_pg w'))) collision_start.
Proof.
  split; [eexists; vm_compute; reflexivity|].
  apply (colliding_identifier_hides_transfer (ref_service false false) None (mkInput 1001 1002 amount_30) collision_start).
  - reflexivity.
  - reflexivity.
Defined.

(** Such a run: 30.00 moved, and the row is the other's. *)
Example collision_run :
  let '(r, w') := CreateTransaction (ref_service false false) (mkInput 1001 1002 amount_30) collision_start in
  is_ok r = true /\
  (balance_of 1001 (pg_committed (w_pg w')), balance_of 1002 (pg_committed (w_pg w'))) = (Some 7000, Some 8000) /\
  (fun row => (row_source row, row_dest row, row_amount row)) <$>
    transactions (pg_committed (w_pg w')) !! "txn0000000000000000000008" = Some (1002, 1001, 700).
Proof. by vm_compute. Qed.

(** A delivery whose payee does not exist, as no request can leave it: [settle]
    does not check the payee, and the credit of a missing account changes
    nothing and is no error. *)
Definition lost_message : TxMessage := mkTxMessage "T1" 1001 4711 amount_30.
Example missing_payee_loses_money :
  let w' := snd (process (pg_worker true None)
    (mkDelivery (match json_Marshal lost_message with Ok b => b | Err _ => "" end) 1 1) ref_start) in
  total_balance (pg_committed (w_pg w')) = total_balance (pg_committed (w_pg ref_start)) - 3000 /\
  map snd (amqp_trace (w_amqp w')) = [FAck 1 false].
Proof. by vm_compute. Qed.

(** A pending transfer of more money than the payer holds. *)
Definition poor_message : TxMessage := mkTxMessage "T1" 1001 1002 (f64_of_Z 200).
Definition poor_delivery : Delivery :=
  mkDelivery (match json_Marshal poor_message with Ok b => b | Err _ => "" end) 1 1.
Definition poor_pending : RefWorld :=
  ref_world (ref_pg (mkTables (accounts ref_tables) {["T1" := mkTxRow 1001 1002 20000 StatusPending 0 0]}) [])
    (ref_amqp []).
Definition status_of_T1 (w : RefWorld) : option Status :=
  match fst (GetTransactionStatus (ref_service true true) "T1" w) with Ok tx => Some (TxStatus tx) | Err _ => None end.

(** When a settlement fails the worker records the failure but leaves
    the cached status alone, so a client that polled before still reads
    pending from the cache; after a settlement that succeeds it reads the new
    status at once. *)
Theorem failed_settlement_keeps_cached_status :
  let polled := snd (GetTransactionStatus (ref_service true true) "T1" poor_pending) in
  let failed := snd (process (pg_worker true None) poor_delivery polled) in
  row_status <$> transactions (pg_committed (w_pg failed)) !! "T1" = Some StatusFailed /\
  status_of_T1 failed = Some StatusPending /\
  let polled := snd (GetTransactionStatus (ref_service true true) "T1" ref_queued) in
  status_of_T1 polled = Some StatusPending /\
  status_of_T1 (snd (process (pg_worker true None) ref_delivery polled)) = Some StatusCompleted.
Proof. by vm_compute. Qed.

(** The next operations of the database fail as [faults] says. *)
Definition with_faults (faults : list fault) (w : RefWorld) : RefWorld :=
  set_pg (mkRefPg (rp_committed (w_pg w)) (rp_working (w_pg w)) (rp_replica (w_pg w)) faults (rp_now (w_pg w))) w.

(** The check of the status counts a failed read as "not completed": a
    message whose transfer is completed is settled again when the read of its
    second delivery fails and the database recovers in time for the rest. *)
Theorem failed_read_settles_twice :
  let once := snd (process (pg_worker true None) ref_delivery ref_queued) in
  let twice := snd (process (pg_worker true None) ref_delivery (with_faults [Fail] once)) in
  row_status <$> transactions (pg_committed (w_pg once)) !! "T1" = Some StatusCompleted /\
  (balance_of 1001 (pg_committed (w_pg once)), balance_of 1002 (pg_committed (w_pg once))) = (Some 7000, Some 8000) /\
  (balance_of 1001 (pg_committed (w_pg twice)), balance_of 1002 (pg_committed (w_pg twice))) = (Some 4000, Some 11000) /\
  map snd (amqp_trace (w_amqp twice)) = [FAck 1 false; FAck 1 false].
Proof. by vm_compute. Qed.
