(* ===== verification/Server.v ===== *)
(** * The server

    internal/infrastructure/postgres, internal/infrastructure/redis and
    cmd/server/main.go: connecting to what the configuration names, building
    repositories, services and worker, the middleware chain, and the
    collection of the dependency gauges. *)

From S2P Require Import Prelude GoNum TxId Float64 Domain Sql Postgres Redis Queue World Reference.
From S2P Require Import Session Repository TransactionService AccountService Cache Http Handlers.
From S2P Require Import RequestLog Config Breaker Worker Resources.

(** ** Infrastructure *)

(** The settings of a connection pool. *)
Record PoolSettings : Type := mkPoolSettings {
  SimpleProtocol : bool;
  MaxOpenConns : Z;
  MaxIdleConns : Z;
  ConnMaxLifetime : Z;
  ConnMaxIdleTime : Z;
}.

Definition Minute : Z := 60 * Second.

(** [migrate.ErrNoChange] *)
Definition ErrNoChange : goerror := ErrorString "no change".

(** pgx, sqlx, golang-migrate and go-redis, as far as they connect: a pool or
    a client is known by the address it was opened with. *)
Class Infra (I : Type) : Type := {
  pgx_ParseConfig : string -> M I (result unit);
  db_Ping : string -> M I (result unit);
  (** connections in use, idle connections *)
  db_Stats : string -> M I (Z * Z);
  migrate_New : string -> string -> M I (result unit);
  migrate_Up : M I (result unit);
  migrate_Close : M I unit;
  redis_Ping : string -> M I (result unit);
  (** [fmt.Fprintf(os.Stderr, ...)] *)
  stderr : string -> M I unit;
}.

Section infra.
Context {I : Type} `{Infra I}.
Local Open Scope go_scope.

(** [postgres.New] *)
Definition postgres_New (dsn : string) : M I (result PoolSettings) :=
  try _ <- pgx_ParseConfig dsn catch (fun e => mret (Err e)) ;;
  let db := mkPoolSettings true 20 10 (5 * Minute) (1 * Minute) in
  try _ <- db_Ping dsn catch (fun e => mret (Err e)) ;;
  mret (Ok db).

Definition RunMigrations (dsn : string) : M I (result unit) :=
  try _ <- migrate_New "file://migrations" dsn catch (fun e => mret (Err e)) ;;
  up <- migrate_Up ;;
  migrate_Close ;;;
  match up with
  | Err e => if errors_Is e ErrNoChange then mret (Ok tt) else mret (Err e)
  | Ok _ => mret (Ok tt)
  end.

(** [redis.New] *)
Definition redis_New (addr : string) : M I (result unit) :=
  try _ <- redis_Ping addr catch (fun e => mret (Err e)) ;;
  mret (Ok tt).
End infra.

(** ** Wiring *)

(** What [main] builds from the configuration: the pools, the clients, the
    services, and the worker with its concurrency if it is started. *)
Record App (W : Type) : Type := mkApp {
  app_db : option string;                (* the DSN of db, if it is not nil *)
  app_replica : option string;
  app_redis : option string;
  app_queue : option Client;
  app_accountSvc : accountService W;
  app_txSvc : transactionService W;
  app_worker : option (Worker W * Z);
}.
Arguments mkApp {W}.
Arguments app_db {W}.
Arguments app_replica {W}.
Arguments app_redis {W}.
Arguments app_queue {W}.
Arguments app_accountSvc {W}.
Arguments app_txSvc {W}.
Arguments app_worker {W}.

Definition nonempty (s : string) : bool := negb (String.eqb s "").

Section wiring.
Context {P R A C I : Type} `{PgDriver P, RedisServer R, AmqpLib A, Clock C, Infra I}.
Context `{JSON TxMessage, JSON Transaction, JSON Account}.
#[local] Abbreviation World := (World P R A C).
Local Open Scope go_scope.
Context (cfg : Config).

#[local] Abbreviation St := (I * A)%type.
Definition on_infra {B} (m : M I B) : M St B := mlift fst (fun i st => (i, snd st)) m.
Definition on_broker {B} (m : M A B) : M St B := mlift snd (fun a st => (fst st, a)) m.

(** [os.Exit(1)] is [Err]. *)
Definition fatal {B} (what : string) (e : goerror) : M St (result B) :=
  on_infra (stderr what) ;;;
  mret (Err e).

(** The primary pool: [None] without a DSN. *)
Definition connect_db : M St (result (option string)) :=
  if nonempty (DBPrimaryDSN cfg) then
    let appDSN := if nonempty (PgBouncerDSN cfg) then PgBouncerDSN cfg else DBPrimaryDSN cfg in
    try _ <- on_infra (postgres_New appDSN) catch (fatal "failed to connect to postgres") ;;
    mret (Ok (Some appDSN))
  else mret (Ok None).

(** The replica pool, inside the same [if]. *)
Definition connect_replica : M St (option string) :=
  if nonempty (DBPrimaryDSN cfg) && (DBReadReplicaEnabled cfg && nonempty (PgBouncerReadDSN cfg)) then
    r <- on_infra (postgres_New (PgBouncerReadDSN cfg)) ;;
    match r with
    | Err e =>
        on_infra (stderr "warning: read replica unavailable, falling back to primary") ;;;
        mret None
    | Ok _ => mret (Some (PgBouncerReadDSN cfg))
    end
  else mret None.

Definition connect_redis : M St (option string) :=
  if CacheEnabled cfg && nonempty (RedisAddr cfg) then
    r <- on_infra (redis_New (RedisAddr cfg)) ;;
    match r with
    | Err e => on_infra (stderr "warning: redis unavailable") ;;; mret None
    | Ok _ => mret (Some (RedisAddr cfg))
    end
  else mret None.

Definition connect_queue : M St (option Client) :=
  if QueueEnabled cfg && nonempty (QueueURL cfg) then
    r <- on_broker (Queue.New (QueueURL cfg)) ;;
    match r with
    | Err e => on_infra (stderr "warning: queue unavailable") ;;; mret None
    | Ok c => mret (Some c)
    end
  else mret None.

(** The repositories and services over what was connected. *)
Definition accountRepo (db replica : option string) : AccountRepository World :=
  match db with
  | None => memory.NewAccountRepository
  | Some _ => postgres.NewAccountRepository Primary (match replica with None => None | Some _ => Some Replica end)
  end.
Definition txRepo (db replica : option string) : TxRepository World :=
  match db with
  | None => memory.NewTransactionRepository
  | Some _ => postgres.NewTransactionRepository Primary (match replica with None => None | Some _ => Some Replica end)
  end.

Definition is_set {B} (x : option B) : bool := match x with Some _ => true | None => false end.

Definition build (db replica redis : option string) (queue : option Client) : App World :=
  let accountRepo := accountRepo db replica in
  let txRepo := txRepo db replica in
  mkApp db replica redis queue
    (mkAccService accountRepo (is_set redis) (CacheBalanceTTL cfg))
    (mkTxService txRepo (is_set db) (is_set queue) (is_set redis) (CacheTxStatusTTL cfg))
    (if QueueEnabled cfg && is_set queue && is_set db
     then Some (mkWorker (is_set redis) txRepo, QueueWorkers cfg) else None).

(** [main], up to the start of the server. *)
Definition main : M St (result (App World)) :=
  try _ <- (if nonempty (DBPrimaryDSN cfg)
            then try _ <- on_infra (RunMigrations (DBPrimaryDSN cfg)) catch (fatal "migrations failed") ;;
                 mret (Ok tt)
            else mret (Ok tt)) catch (fun e => mret (Err e)) ;;
  try db <- connect_db catch (fun e => mret (Err e)) ;;
  replica <- connect_replica ;;
  redis <- connect_redis ;;
  queue <- connect_queue ;;
  mret (Ok (build db replica redis queue)).
End wiring.

(** ** Routes and middleware *)
Section chain.
Context {P R A C E B L : Type} `{PgDriver P, RedisServer R, AmqpLib A, Clock C, Echo E, Gobreaker B}.
Context `{JSON TxMessage, JSON Transaction, JSON Account}.
#[local] Abbreviation World := (World P R A C).
Local Open Scope go_scope.

Inductive route : Type := GetBalanceRoute | CreateTransactionRoute | GetTransactionStatusRoute.

(** [e.GET], [e.POST] *)
Definition route_handler (app : App World) (r : route) : HandlerFunc E World :=
  match r with
  | GetBalanceRoute => handle_GetBalance (NewAccountService (app_accountSvc app))
  | CreateTransactionRoute => handle_CreateTransaction (NewTransactionService (app_txSvc app))
  | GetTransactionStatusRoute => handle_GetTransactionStatus (NewTransactionService (app_txSvc app))
  end.

(** [middleware.ErrRateLimitExceeded], 429 *)
Definition ErrRateLimitExceeded : goerror := HTTPError 429 "rate limit exceeded".

(** The [DenyHandler] of the rate limiter. *)
Definition DenyHandler (err : goerror) : M World (result unit) :=
  RateLimiterDrops_Inc "global" ;;;
  mret (Err ErrRateLimitExceeded).

(** The order of [e.Use]: the rate limiter, if enabled, with its decision
    [allow], around the breaker, around the request log, around the handler. *)
Definition serve (cfg : Config) (allow : result unit) (app : App World) (r : route)
    : M (B * (E * World)) (result unit) :=
  let inner := CircuitBreaker cfg (RequestLogger (route_handler app r)) in
  if RateLimitEnabled cfg then
    match allow with
    | Ok _ => inner
    | Err e => on_handler (on_world (DenyHandler e))
    end
  else inner.
End chain.

(** ** The dependency gauges *)
Section collect.
Context {P R A C I : Type} `{PgDriver P, RedisServer R, AmqpLib A, Infra I}.
#[local] Abbreviation World := (World P R A C).
#[local] Abbreviation St := (I * World)%type.
Local Open Scope go_scope.

Definition from_infra {X} (m : M I X) : M St X := mlift fst (fun i st => (i, snd st)) m.
Definition from_world {X} (m : M World X) : M St X := mlift snd (fun w st => (fst st, w)) m.

Definition collect_db (db : option string) : M St unit :=
  match db with
  | None => mret tt
  | Some dsn =>
      r <- from_infra (db_Ping dsn) ;;
      match r with
      | Err _ => from_world (DependencyUp_Set "database" 0)
      | Ok _ =>
          from_world (DependencyUp_Set "database" 1) ;;;
          s <- from_infra (db_Stats dsn) ;;
          from_world (DBConnectionsActive_Set (fst s)) ;;;
          from_world (DBConnectionsIdle_Set (snd s))
      end
  end.

Definition collect_redis (redis : option string) : M St unit :=
  match redis with
  | None => mret tt
  | Some addr =>
      r <- from_infra (redis_Ping addr) ;;
      match r with
      | Err _ => from_world (DependencyUp_Set "redis" 0)
      | Ok _ => from_world (DependencyUp_Set "redis" 1)
      end
  end.

Definition collect_queue (queue : option Client) : M St unit :=
  match queue with
  | None => mret tt
  | Some _ =>
      r <- from_world (on_queue (QueueDepth "transactions")) ;;
      match r with
      | Err _ => from_world (DependencyUp_Set "rabbitmq" 0)
      | Ok depth =>
          from_world (DependencyUp_Set "rabbitmq" 1) ;;;
          from_world (QueueDepth_Set "transactions" depth)
      end
  end.

(** The closure [collect] of the collecting goroutine. *)
Definition collect_dependencies (app : App World) : M St unit :=
  collect_db (app_db app) ;;;
  collect_redis (app_redis app) ;;;
  collect_queue (app_queue app).
End collect.

(** The loop of the collecting goroutine over its ticker and context, and the
    goroutine. *)
Fixpoint dependency_loop {P R A C I} `{AmqpLib A, Infra I} (app : App (World P R A C))
    (events : list tick_event) : M (I * World P R A C) unit :=
  match events with
  | [] => mret tt
  | TickDone :: _ => mret tt
  | Tick :: events => mbind (collect_dependencies app) (fun _ => dependency_loop app events)
  end.

Definition dependency_collector {P R A C I} `{AmqpLib A, Infra I} (app : App (World P R A C))
    (events : list tick_event) : M (I * World P R A C) unit :=
  mbind (collect_dependencies app) (fun _ => dependency_loop app events).

(** ** Properties *)

Section lemmas.
Context {P R A C I : Type} `{PgDriver P, RedisServer R, AmqpLib A, Clock C, Infra I} `{!AmqpLaws A}.
Context `{JSON TxMessage, JSON Transaction, JSON Account}.
#[local] Abbreviation World := (World P R A C).
Context (cfg : Config).

Lemma connect_db_spec (st : I * A) :
  wp (connect_db cfg) (fun r _ =>
    match r with
    | Ok db => is_set db = nonempty (DBPrimaryDSN cfg)
    | Err _ => nonempty (DBPrimaryDSN cfg) = true
    end) st.
Proof.
  unfold connect_db. destruct (nonempty (DBPrimaryDSN cfg)); [|by wp_steps]. wp_steps. unfold on_infra at 1.
  wp_steps. apply wp_of. intros [s|e] i _; wp_steps; [done|]. unfold fatal, on_infra. wp_steps.
  apply wp_of. intros u i' _. by wp_steps.
Qed.

Lemma connect_replica_spec (st : I * A) :
  wp (connect_replica cfg) (fun r _ => is_set r = true ->
    nonempty (DBPrimaryDSN cfg) && (DBReadReplicaEnabled cfg && nonempty (PgBouncerReadDSN cfg)) = true) st.
Proof.
  unfold connect_replica. destruct (_ && _); [|by wp_steps]. unfold on_infra. wp_steps.
  apply wp_of. intros [s|e] i _; wp_steps; [done|]. apply wp_of. intros u i' _. by wp_steps.
Qed.

Lemma connect_redis_spec (st : I * A) :
  wp (connect_redis cfg) (fun r _ => is_set r = true -> CacheEnabled cfg && nonempty (RedisAddr cfg) = true) st.
Proof.
  unfold connect_redis. destruct (_ && _); [|by wp_steps]. unfold on_infra. wp_steps.
  apply wp_of. intros [s|e] i _; wp_steps; [done|]. apply wp_of. intros u i' _. by wp_steps.
Qed.

(** A connected queue client stands on a channel with both queues declared. *)
Definition queue_ready (c : Client) (a : A) : Prop :=
  exists k ch tr, c = mkClient (QueueURL cfg) (Some k) (Some ch) /\ amqp_trace a = tr ++ declare_frames ch.

Lemma connect_queue_spec (st : I * A) :
  wp (connect_queue cfg) (fun r st' =>
    match r with
    | Some c => QueueEnabled cfg && nonempty (QueueURL cfg) = true /\ queue_ready c (snd st')
    | None => True
    end) st.
Proof.
  unfold connect_queue. destruct (_ && _); [|by wp_steps]. unfold on_broker, on_infra. wp_steps.
  pose proof (dial_spec (mkClient (QueueURL cfg) None None) (snd st)) as Hd.
  unfold wp at 1. unfold Queue.New. unfold wp in Hd.
  destruct (dial (mkClient (QueueURL cfg) None None, snd st)) as [[[]|e] [c a]]; wp_steps.
  - split; [done|]. destruct Hd as (k & ch & Hc & Htr). cbn in Hc, Htr. subst c. exists k, ch, (amqp_trace (snd st)). by split.
  - by apply wp_of.
Qed.
End lemmas.

Lemma main_spec {P R A C I}
    `{PgDriver P, RedisServer R, AmqpLib A, Clock C, Infra I, !AmqpLaws A}
    `{JSON TxMessage, JSON Transaction, JSON Account} cfg (st : I * A) :
  wp (main (P := P) (R := R) (C := C) cfg) (fun r st' =>
    match r with
    | Err _ => DBPrimaryDSN cfg <> ""
    | Ok app =>
        svc_db (app_txSvc app) = nonempty (DBPrimaryDSN cfg) /\
        (is_set (app_replica app) = true ->
           DBReadReplicaEnabled cfg = true /\ svc_db (app_txSvc app) = true) /\
        (svc_redis (app_txSvc app) = true -> CacheEnabled cfg = true) /\
        acc_redis (app_accountSvc app) = svc_redis (app_txSvc app) /\
        (forall c, app_queue app = Some c -> QueueEnabled cfg = true /\ queue_ready cfg c (snd st')) /\
        svc_queue (app_txSvc app) = is_set (app_queue app) /\
        is_set (app_worker app) = svc_queue (app_txSvc app) && svc_db (app_txSvc app) /\
        (forall wk n, app_worker app = Some (wk, n) ->
           n = QueueWorkers cfg /\ wk_repo wk = svc_repo (app_txSvc app))
    end) st.
Proof.
  unfold main. wp_steps. eapply wp_mono with (Q := fun r _ => is_ok r = false -> nonempty (DBPrimaryDSN cfg) = true).
  { destruct (nonempty (DBPrimaryDSN cfg)); [|by wp_steps]. by apply wp_of. }
  assert (nonempty (DBPrimaryDSN cfg) = true -> DBPrimaryDSN cfg <> "") as Hne.
  { unfold nonempty. by destruct (String.eqb_spec (DBPrimaryDSN cfg) ""). }
  intros [u|e] st1 Hmig; wp_steps; [|by auto]. wp_apply connect_db_spec. intros [db|e] st2 Hdb; wp_steps; [|by auto].
  wp_apply connect_replica_spec. intros replica st3 Hrep. wp_steps. wp_apply connect_redis_spec.
  intros redis st4 Hred. wp_steps. wp_apply connect_queue_spec. intros queue st5 Hq. wp_steps.
  unfold build. cbn. split_and!; try done.
  - intros Hr. apply Hrep, andb_prop in Hr as [E1 E2]. apply andb_prop in E2 as [E2 _]. by rw Hdb.
  - intros Hr. by apply Hred, andb_prop in Hr as [? _].
  - intros c ->. destruct Hq as [[Hq1 _]%andb_prop Hq2]. done.
  - destruct queue as [c|]; [|by rw andb_false_r]. destruct Hq as [[-> _]%andb_prop _]. by destruct (is_set db).
  - intros wk n Hwk. destruct (QueueEnabled cfg), queue, db; cbn in Hwk; by simplify_eq.
Qed.

(** ** What is reachable decides the wiring *)

(** The call would succeed in state [i]. *)
Definition reachable {I X} (m : M I (result X)) (i : I) : bool := is_ok (fst (m i)).
(** While the server starts, what can be reached stays so: the operations go
    between [alike] states, in which the same calls succeed. *)
Class InfraSteady (I : Type) `{Infra I} : Type := {
  alike : I -> I -> Prop;
  alike_equiv :: Equivalence alike;
  parse_steady dsn i i' : alike i i' -> reachable (pgx_ParseConfig dsn) i = reachable (pgx_ParseConfig dsn) i';
  ping_steady dsn i i' : alike i i' -> reachable (db_Ping dsn) i = reachable (db_Ping dsn) i';
  redis_steady addr i i' : alike i i' -> reachable (redis_Ping addr) i = reachable (redis_Ping addr) i';
  migrate_New_steady src dsn i i' : alike i i' -> reachable (migrate_New src dsn) i = reachable (migrate_New src dsn) i';
  migrate_Up_steady i i' : alike i i' -> fst (migrate_Up i) = fst (migrate_Up i');
  parse_alike dsn i : alike i (snd (pgx_ParseConfig dsn i));
  ping_alike dsn i : alike i (snd (db_Ping dsn i));
  redis_alike addr i : alike i (snd (redis_Ping addr i));
  migrate_New_alike src dsn i : alike i (snd (migrate_New src dsn i));
  migrate_Up_alike i : alike i (snd (migrate_Up i));
  migrate_Close_alike i : alike i (snd (migrate_Close i));
  stderr_alike line i : alike i (snd (stderr line i));
}.

(** A composed call keeps what can be reached, and succeeds alike. *)
Definition steady {I X} `{InfraSteady I} (m : M I (result X)) : Prop :=
  forall i i', alike i i' ->
    reachable m i = reachable m i' /\ alike i (snd (m i)).

Section steady.
Context {I : Type} `{InfraSteady I}.

Lemma steady_try {X Y} (m : M I (result X)) (k : X -> M I (result Y)) :
  steady m -> (forall x y i i', alike i i' -> reachable (k x) i = reachable (k y) i' /\ alike i (snd (k x i))) ->
  steady (mtry m (fun e => mret (Err e)) k).
Proof.
  intros Hm Hk i i' Ha. destruct (Hm i i' Ha) as [Hr Hi]. destruct (Hm i' i (symmetry Ha)) as [_ Hi'].
  unfold reachable, mtry, mbind, mret in *.
  destruct (m i) as [[x|e] j], (m i') as [[x'|e'] j']; cbn in *; try done.
  destruct (Hk x x' j j') as [Hr1 Ha1]; [by rw -Hi -Hi'|]. split; [done|]. by rw Hi.
Qed.

Lemma steady_op {X} (m : M I (result X)) :
  (forall i i', alike i i' -> reachable m i = reachable m i') -> (forall i, alike i (snd (m i))) -> steady m.
Proof. intros Hr Ha i i' Hi. split; [by apply Hr|apply Ha]. Qed.

Lemma postgres_New_steady dsn : steady (postgres_New dsn).
Proof.
  apply steady_try; [apply steady_op; [apply parse_steady|apply parse_alike]|].
  intros _ _. apply (steady_try (db_Ping dsn)); [apply steady_op; [apply ping_steady|apply ping_alike]|done].
Qed.

Lemma redis_New_steady addr : steady (redis_New addr).
Proof. apply steady_try; [apply steady_op; [apply redis_steady|apply redis_alike]|done]. Qed.

Lemma RunMigrations_steady dsn : steady (RunMigrations dsn).
Proof.
  apply steady_try; [apply steady_op; [apply migrate_New_steady|apply migrate_New_alike]|].
  intros _ _ i i' Ha. unfold reachable, mbind, mret. pose proof (migrate_Up_steady i i' Ha) as Hu.
  pose proof (migrate_Up_alike i) as Hi.
  destruct (migrate_Up i) as [x k], (migrate_Up i') as [x' k']. cbn in Hu, Hi. subst x'.
  pose proof (migrate_Close_alike k) as Hc. destruct (migrate_Close k) as [u l], (migrate_Close k') as [u' l'].
  cbn in Hc. assert (alike i l) as Hl by (by rw Hi).
  destruct x as [?|e]; [done|]. by destruct (errors_Is e ErrNoChange).
Qed.
End steady.

(** [b] selects a dependency that is used when [m] succeeds. *)
Definition optional {I X Y} (b : bool) (m : M I (result X)) (i : I) (y : Y) : option Y :=
  if b && reachable m i then Some y else None.

(** The pool of the primary database: through PgBouncer if it is configured. *)
Definition primary_dsn (cfg : Config) : string :=
  if nonempty (PgBouncerDSN cfg) then PgBouncerDSN cfg else DBPrimaryDSN cfg.

(** The server can start: without a database, or migrated and connected. *)
Definition startable {I} `{Infra I} (cfg : Config) (i : I) : bool :=
  negb (nonempty (DBPrimaryDSN cfg)) ||
  (reachable (RunMigrations (DBPrimaryDSN cfg)) i && reachable (postgres_New (primary_dsn cfg)) i).

Section exact.
Context {P R A C I : Type} `{PgDriver P, RedisServer R, AmqpLib A, Clock C, InfraSteady I}.
Context `{JSON TxMessage, JSON Transaction, JSON Account}.
Context (cfg : Config).

Lemma wp_on_infra {X} (m : M I (result X)) i0 Q (st : I * A) : steady m -> alike i0 (fst st) ->
  (forall r i, alike i0 i -> is_ok r = reachable m i0 -> Q r (i, snd st)) -> wp (on_infra m) Q st.
Proof.
  intros Hs Ha HQ. unfold on_infra. wp_steps. apply wp_of. intros r i Hr.
  destruct (Hs (fst st) i0 (symmetry Ha)) as [Hr1 Ha1]. rw Hr in Ha1. apply HQ; [by rw Ha|].
  rw -Hr1. unfold reachable. by rw Hr.
Qed.

Lemma wp_warn what i0 Q (st : I * A) : alike i0 (fst st) ->
  (forall i, alike i0 i -> Q tt (i, snd st)) -> wp (on_infra (stderr what)) Q st.
Proof.
  intros Ha HQ. unfold on_infra. wp_steps. apply wp_of. intros [] i Hi. apply HQ. rw Ha.
  pose proof (stderr_alike what (fst st)) as Hs. by rw Hi in Hs.
Qed.

Lemma connect_db_exact i0 (st : I * A) : alike i0 (fst st) ->
  wp (connect_db cfg) (fun r st' => (alike i0 (fst st') /\ snd st' = snd st) /\
    is_ok r = negb (nonempty (DBPrimaryDSN cfg)) || reachable (postgres_New (primary_dsn cfg)) i0 /\
    forall db, r = Ok db -> db = if nonempty (DBPrimaryDSN cfg) then Some (primary_dsn cfg) else None) st.
Proof.
  intros Ha. unfold connect_db. fold (primary_dsn cfg). destruct (nonempty (DBPrimaryDSN cfg)); cbn [negb orb];
    [|wp_steps; split_and!; [done..|by intros db [= <-]]].
  wp_steps. apply (wp_on_infra _ i0); [apply postgres_New_steady|done|]. intros [s|e] i Hi <-; wp_steps.
  - split_and!; [done..|by intros db [= <-]].
  - unfold fatal. wp_steps. apply (wp_warn _ i0); [done|]. intros i' Hi'. by wp_steps.
Qed.

Lemma connect_replica_exact i0 (st : I * A) : alike i0 (fst st) ->
  wp (connect_replica cfg) (fun r st' => (alike i0 (fst st') /\ snd st' = snd st) /\
    r = optional (nonempty (DBPrimaryDSN cfg) && (DBReadReplicaEnabled cfg && nonempty (PgBouncerReadDSN cfg)))
          (postgres_New (PgBouncerReadDSN cfg)) i0 (PgBouncerReadDSN cfg)) st.
Proof.
  intros Ha. unfold connect_replica, optional. destruct (_ && _); [|by wp_steps]. wp_steps.
  apply (wp_on_infra _ i0); [apply postgres_New_steady|done|]. intros [s|e] i Hi <-; wp_steps; [done|].
  apply (wp_warn _ i0); [done|]. intros i' Hi'. by wp_steps.
Qed.

Lemma connect_redis_exact i0 (st : I * A) : alike i0 (fst st) ->
  wp (connect_redis cfg) (fun r st' => (alike i0 (fst st') /\ snd st' = snd st) /\
    r = optional (CacheEnabled cfg && nonempty (RedisAddr cfg)) (redis_New (RedisAddr cfg)) i0 (RedisAddr cfg)) st.
Proof.
  intros Ha. unfold connect_redis, optional. destruct (_ && _); [|by wp_steps]. wp_steps.
  apply (wp_on_infra _ i0); [apply redis_New_steady|done|]. intros [s|e] i Hi <-; wp_steps; [done|].
  apply (wp_warn _ i0); [done|]. intros i' Hi'. by wp_steps.
Qed.

(** The client that [queue.New] connects, if the queue is enabled. *)
Definition queue_client (a : A) : option Client :=
  if QueueEnabled cfg && nonempty (QueueURL cfg)
  then match fst (Queue.New (QueueURL cfg) a) with Ok c => Some c | Err _ => None end
  else None.

Lemma connect_queue_exact (st : I * A) :
  wp (connect_queue cfg) (fun r _ => r = queue_client (snd st)) st.
Proof.
  unfold connect_queue, queue_client. destruct (_ && _); [|by wp_steps]. unfold on_broker. wp_steps.
  unfold wp at 1. destruct (Queue.New (QueueURL cfg) (snd st)) as [[c|e] a]; wp_steps; [done|].
  apply (wp_warn _ (fst st)); [done|]. intros i' Hi'. by wp_steps.
Qed.

Lemma main_exact (st : I * A) :
  wp (main (P := P) (R := R) (C := C) cfg) (fun r _ =>
    is_ok r = startable cfg (fst st) /\
    forall app, r = Ok app ->
      app_db app = (if nonempty (DBPrimaryDSN cfg) then Some (primary_dsn cfg) else None) /\
      app_replica app =
        optional (nonempty (DBPrimaryDSN cfg) && (DBReadReplicaEnabled cfg && nonempty (PgBouncerReadDSN cfg)))
          (postgres_New (PgBouncerReadDSN cfg)) (fst st) (PgBouncerReadDSN cfg) /\
      app_redis app =
        optional (CacheEnabled cfg && nonempty (RedisAddr cfg)) (redis_New (RedisAddr cfg)) (fst st) (RedisAddr cfg) /\
      app_queue app = queue_client (snd st) /\
      app = build cfg (app_db app) (app_replica app) (app_redis app) (app_queue app)) st.
Proof.
  unfold main, startable. wp_steps. eapply wp_mono with (Q := fun r (st1 : I * A) => (alike (fst st) (fst st1) /\ snd st1 = snd st) /\
    is_ok r = negb (nonempty (DBPrimaryDSN cfg)) || reachable (RunMigrations (DBPrimaryDSN cfg)) (fst st)).
  { destruct (nonempty (DBPrimaryDSN cfg)); [|by wp_steps]. wp_steps.
    apply (wp_on_infra _ (fst st)); [apply RunMigrations_steady|done|]. intros [s|e] i Hi <-; wp_steps; [done|].
    unfold fatal. wp_steps. apply (wp_warn _ (fst st)); [done|]. intros i' Hi'. by wp_steps. }
  intros [u|e] st1 [[A1 E1] Hm]; wp_steps.
  2: { cbn in Hm. symmetry in Hm. apply orb_false_iff in Hm as [Hn ->]. by rw Hn. }
  wp_apply (connect_db_exact (fst st)); [done|]. intros [db|e] st2 ([A2 E2] & Hc & Hdb); wp_steps.
  2: { split; [|done]. cbn in *. destruct (nonempty (DBPrimaryDSN cfg)); [|done]. cbn in *. by rw -Hm -Hc. }
  wp_apply (connect_replica_exact (fst st)); [done|]. intros replica st3 [[A3 E3] ->]. wp_steps.
  wp_apply (connect_redis_exact (fst st)); [done|]. intros redis st4 [[A4 E4] ->]. wp_steps.
  wp_apply connect_queue_exact. intros queue st5 ->. wp_steps. rw E4 E3 E2 E1. rw (Hdb db eq_refl).
  split; [cbn in *; by destruct (nonempty (DBPrimaryDSN cfg)); cbn in *; rw -?Hm -?Hc|].
  intros app [= <-]. by split_and!.
Qed.
End exact.


(** ** The dependency gauges *)

Definition dep_gauge {P R A C} (label : string) (w : World P R A C) : option Z := DependencyUp (w_metrics w) !! label.
Definition up {B} (r : result B) : option Z := Some (if is_ok r then 1 else 0).

(** One round of [collect]: what each gauge shows afterwards. *)
Section gauges.
Context {P R A C I : Type} `{AmqpLib A, Infra I}.
#[local] Abbreviation World := (World P R A C).

Lemma collect_db_spec db i (w : World) :
  wp (collect_db db) (fun _ st' => exists m, snd st' = set_metrics m w /\
    QueueDepthGauge m = QueueDepthGauge (w_metrics w) /\
    DependencyUp m = match db with
                     | None => DependencyUp (w_metrics w)
                     | Some dsn => <["database" := if is_ok (fst (db_Ping dsn i)) then 1 else 0]> (DependencyUp (w_metrics w))
                     end) (i, w).
Proof.
  destruct db as [dsn|]; cbn; [|by exists (w_metrics w); destruct w].
  unfold from_infra, from_world, DependencyUp_Set, on_metrics. wp_steps. unfold wp at 1. cbn [fst].
  destruct (db_Ping dsn i) as [[u|e] i1]; cbn [fst is_ok]; wp_steps; [|by eexists].
  apply wp_of. intros s i2 _. unfold DBConnectionsActive_Set, DBConnectionsIdle_Set, on_metrics. wp_steps.
  by eexists.
Qed.

Lemma collect_redis_spec redis i (w : World) :
  wp (collect_redis redis) (fun _ st' => exists m, snd st' = set_metrics m w /\
    QueueDepthGauge m = QueueDepthGauge (w_metrics w) /\
    DependencyUp m = match redis with
                     | None => DependencyUp (w_metrics w)
                     | Some addr => <["redis" := if is_ok (fst (redis_Ping addr i)) then 1 else 0]> (DependencyUp (w_metrics w))
                     end) (i, w).
Proof.
  destruct redis as [addr|]; cbn; [|by exists (w_metrics w); destruct w].
  unfold from_infra, from_world, DependencyUp_Set, on_metrics. wp_steps. unfold wp at 1. cbn [fst].
  destruct (redis_Ping addr i) as [[u|e] i1]; cbn [fst is_ok]; wp_steps; by eexists.
Qed.

Lemma collect_queue_spec queue i (w : World) :
  wp (collect_queue queue) (fun _ (st' : I * World) => exists m q,
    snd st' = set_metrics m (match queue with None => w | Some _ => set_queue q w end) /\
    match queue with
    | None => m = w_metrics w
    | Some _ => exists r, QueueDepth "transactions" (w_client w, w_amqp w) = (r, q) /\
        DependencyUp m = <["rabbitmq" := if is_ok r then 1 else 0]> (DependencyUp (w_metrics w)) /\
        QueueDepthGauge m = match r with
                            | Ok depth => <["transactions" := depth]> (QueueDepthGauge (w_metrics w))
                            | Err _ => QueueDepthGauge (w_metrics w)
                            end
    end) (i, w).
Proof.
  destruct queue as [c|]; cbn; [|by exists (w_metrics w), (w_client w, w_amqp w); destruct w].
  unfold from_world, on_queue, DependencyUp_Set, QueueDepth_Set, on_metrics. wp_steps. unfold wp at 1. cbn [snd].
  destruct (QueueDepth "transactions" (w_client w, w_amqp w)) as [[depth|e] q]; wp_steps;
    eexists _, q; (split; [done|]); eexists; (split; [reflexivity|done]).
Qed.
End gauges.

(** The dependency gauges tell the truth.  After a round of [collect] the
    gauge of each configured dependency is 1 if it answered in this round and
    0 if not, the queue depth is the one the broker reported, and the gauges
    of the API and of dependencies that are not configured are as they were;
    nothing but metrics changes, and the broker client only by asking it. *)
Theorem dependency_gauges {P R A C I} `{AmqpLib A, Infra I} (app : App (World P R A C)) i (w : World P R A C) :
  wp (collect_dependencies app) (fun _ st' => exists i2 q,
    let w' := snd st' in
    let depth := QueueDepth "transactions" (w_client w, w_amqp w) in
    snd st' = set_metrics (w_metrics w') (match app_queue app with None => w | Some _ => set_queue q w end) /\
    dep_gauge "api" w' = dep_gauge "api" w /\
    dep_gauge "database" w' =
      match app_db app with None => dep_gauge "database" w | Some dsn => up (fst (db_Ping dsn i)) end /\
    dep_gauge "redis" w' =
      match app_redis app with None => dep_gauge "redis" w | Some addr => up (fst (redis_Ping addr i2)) end /\
    dep_gauge "rabbitmq" w' =
      match app_queue app with None => dep_gauge "rabbitmq" w | Some _ => up (fst depth) end /\
    QueueDepthGauge (w_metrics w') !! "transactions" =
      match app_queue app, fst depth with
      | Some _, Ok n => Some n
      | _, _ => QueueDepthGauge (w_metrics w) !! "transactions"
      end) (i, w).
Proof.
  unfold collect_dependencies. wp_steps. wp_apply collect_db_spec. intros _ [i1 w1] (m1 & E1 & Q1 & D1).
  wp_steps. wp_apply collect_redis_spec. intros _ [i2 w2] (m2 & E2 & Q2 & D2). wp_steps.
  wp_apply collect_queue_spec. intros _ [i3 w3] (m3 & q & E3 & D3). exists i1, q.
  cbn [snd] in *. subst w1 w2 w3. unfold dep_gauge, up. cbn [w_metrics w_client w_amqp set_metrics] in *.
  destruct (app_db app), (app_redis app), (app_queue app); try destruct D3 as (r & Hr & D3 & Q3); subst;
    rw ?Hr; cbn in *; rw ?D3 ?Q3 ?D2 ?D1 ?Q2 ?Q1; split_and!; try done; simplify_map_eq; try done.
  all: by destruct r; simplify_map_eq.
Qed.

(** Reference infrastructure: the addresses that answer, what [migrate.Up]
    returns, and the lines written to standard error. *)
Record RefInfra : Type := mkRefInfra {
  ri_up : list string;
  ri_migrate : result unit;
  ri_stderr : list string;
}.

Definition ri_ping (addr : string) : M RefInfra (result unit) :=
  fun i => (if decide (addr ∈ ri_up i) then Ok tt else Err ErrConn, i).

#[export] Instance RefInfra_infra : Infra RefInfra := {
  pgx_ParseConfig := fun _ i => (Ok tt, i);
  db_Ping := ri_ping;
  db_Stats := fun _ i => ((3, 7), i);
  migrate_New := fun _ _ i => (Ok tt, i);
  migrate_Up := fun i => (ri_migrate i, i);
  migrate_Close := fun i => (tt, i);
  redis_Ping := ri_ping;
  stderr := fun line i => (tt, mkRefInfra (ri_up i) (ri_migrate i) (ri_stderr i ++ [line]));
}.

(** A queue, but no database. *)
Definition queue_only_config : Config :=
  mkConfig 8080 "development" false true false (f64_of_Z 100) 200 false 5 10 false "" "" ""
    "redis:6379" (10 * Second) (30 * Second) "amqp://" 10.
Definition ref_infra : RefInfra := mkRefInfra ["redis:6379"] (Err ErrNoChange) [].
Definition idle_broker : RefAmqp := mkRefAmqp [] ∅ ∅ 0 [].

Definition queue_only_app : result (App RefWorld) :=
  fst (main (P := RefPg) (R := RefRedis) (C := Z) queue_only_config (ref_infra, idle_broker)).

Definition ri_alike (i i' : RefInfra) : Prop := ri_up i = ri_up i' /\ ri_migrate i = ri_migrate i'.

#[export] Instance RefInfra_steady : InfraSteady RefInfra.
Proof.
  unshelve eapply (Build_InfraSteady _ _ ri_alike); unfold ri_alike, reachable; cbn; unfold ri_ping; try done.
  - split; [done|by intros i i' [-> ->]|by intros i i' i'' [-> ->] [-> ->]].
  - by intros dsn i i' [-> _].
  - by intros dsn i i' [-> _].
  - by intros i i' [_ ->].
Defined.

(** Everything is enabled, but only the primary database, through PgBouncer,
    and the broker answer. *)
Definition full_config : Config :=
  mkConfig 8080 "production" true true true (f64_of_Z 100) 200 true 5 10 true "postgres://" "bouncer" "replica"
    "redis:6379" (10 * Second) (30 * Second) "amqp://" 10.
Definition primary_only : RefInfra := mkRefInfra ["bouncer"] (Err ErrNoChange) [].


(** It starts, without replica and cache, with its worker. *)
Example primary_only_starts :
  match fst (main (P := RefPg) (R := RefRedis) (C := Z) full_config (primary_only, idle_broker)) with
  | Ok app => (app_db app, app_replica app, app_redis app, is_set (app_queue app), is_set (app_worker app))
              = (Some "bouncer", None, None, true, true)
  | Err _ => False
  end.
Proof. by vm_compute. Qed.

(** With a queue and no database the server accepts transfers that nobody
    will ever settle: it starts without a worker, and a POST is answered 202
    and stored in memory as pending. *)
Theorem queue_without_database_never_settles :
  match queue_only_app with
  | Err _ => False
  | Ok app =>
      is_set (app_worker app) = false /\
      let '(r, (e', w')) := route_handler app CreateTransactionRoute (ref_post, ref_start) in
      r = Ok tt /\ map fst (c_sent e') = [202] /\
      TxStatus <$> w_mem_tx w' !! "txn0000000000000000000008" = Some StatusPending
  end.
Proof. by vm_compute. Qed.

(** C39: a request that is refused, by the rate limiter with 429, or by the
    circuit breaker with 503 (when the limiter is off or lets the request
    pass), reaches neither the handler nor the request log: the stores and the
    log are untouched.  The rate limiter counts the refusal and does not
    involve the breaker. *)
Theorem refused_requests_not_logged {P R A C E B}
    `{PgDriver P, RedisServer R, AmqpLib A, Clock C, Echo E, Gobreaker B, !EchoLaws E, !GobreakerLaws B}
    `{JSON TxMessage, JSON Transaction, JSON Account}
    cfg allow (app : App (World P R A C)) rt b e (w : World P R A C) er :
  (RateLimitEnabled cfg = true /\ allow = Err er) \/
  ((RateLimitEnabled cfg = true -> is_ok allow = true) /\ CircuitBreakerEnabled cfg = true /\
   fst (fst (cb_before b)) = Err er) ->
  wp (serve cfg allow app rt) (fun r st =>
    same_stores w (snd (snd st)) /\ w_log (snd (snd st)) = w_log w /\
    ((r = Err ErrRateLimitExceeded /\ fst st = b /\ fst (snd st) = e /\
      RateLimiterDrops (w_metrics (snd (snd st))) = inc "global" (RateLimiterDrops (w_metrics w))) \/
     replied 503 (error_body "circuit open, try again later") e r (fst (snd st)))) (b, (e, w)).
Proof.
  unfold serve. intros [[-> ->]|(Hrl & Hen & Hb)].
  - unfold on_handler, on_world, DenyHandler, RateLimiterDrops_Inc, on_metrics. wp_steps. cbn [fst snd].
    split; [done|]. split; [done|]. by left.
  - assert (forall X (x y : X), (if RateLimitEnabled cfg then match allow with Ok _ => x | Err _ => y end else x) = x)
      as Hinner by (intros; destruct (RateLimitEnabled cfg), allow; try done; by specialize (Hrl eq_refl)).
    destruct (RateLimitEnabled cfg) eqn:Hr; [destruct allow as [u|er']; [|by specialize (Hrl eq_refl)]|];
      (wp_apply refused_spec; [exact Hen|exact Hb|]; intros r st (Hre & Hs & Hl & _); by auto).
Qed.

Definition rate_limited_config : Config :=
  mkConfig 8080 "development" false true true (f64_of_Z 100) 200 true 5 10 false "" "" ""
    "redis:6379" (10 * Second) (30 * Second) "amqp://" 10.
Definition memory_app : App RefWorld := build rate_limited_config None None None None.

Lemma refused_requests_not_logged_witness :
  wp (serve rate_limited_config (Err ErrConn) memory_app CreateTransactionRoute) (fun r st =>
    same_stores ref_start (snd (snd st)) /\ w_log (snd (snd st)) = w_log ref_start /\
    ((r = Err ErrRateLimitExceeded /\ fst st = new_breaker /\ fst (snd st) = ref_post /\
      RateLimiterDrops (w_metrics (snd (snd st))) = inc "global" (RateLimiterDrops (w_metrics ref_start))) \/
     replied 503 (error_body "circuit open, try again later") ref_post r (fst (snd st))))
    (new_breaker, (ref_post, ref_start)).
Proof.
  apply (refused_requests_not_logged rate_limited_config (Err ErrConn) memory_app CreateTransactionRoute
    new_breaker ref_post ref_start ErrConn).
  left. split; reflexivity.
Defined.
