(* ===== verification/Startup.v ===== *)
(** * The entry points

    [main] of cmd/server and of cmd/seeds: from the environment to the running
    server, and to the seeded tables. *)

From S2P Require Import Prelude GoNum TxId Float64 Domain Sql Postgres Redis Queue World Reference.
From S2P Require Import Session Repository TransactionService AccountService Config Worker Resources Seeds Server.

(** ** cmd/server *)

(** [echo.StartConfig{Address, GracefulTimeout}.Start]: serves until the
    context ends; its error. *)
Class HttpServer (I : Type) : Type := {
  http_Start : string -> Z -> M I (result unit);
  (** the addresses that were served *)
  http_served : I -> list string;
}.

Section server.
Context {P R A C I : Type} `{PgDriver P, RedisServer R, AmqpLib A, Clock C, Infra I, EnvParser I, HttpServer I}.
Context `{JSON TxMessage, JSON Transaction, JSON Account}.
#[local] Abbreviation World := (World P R A C).
Local Open Scope go_scope.

(** The wiring part of [main], with the broker of the process. *)
Definition with_broker {B} (m : M (I * A) B) : M (I * World) B :=
  mlift (fun st => (fst st, w_amqp (snd st))) (fun x st => (fst x, set_amqp (snd x) (snd st))) m.

(** The queue client of the process. *)
Definition install_client (queue : option Client) : M (I * World) unit :=
  match queue with
  | None => mret tt
  | Some c => from_world (mput (fun w => set_queue (c, w_amqp w) w))
  end.

(** [sc.Start], to the end of [main]. *)
Definition listen (cfg : Config) : M (I * World) unit :=
  r <- from_infra (http_Start (":" +:+ Sprintf_d (AppPort cfg)) (5 * Second)) ;;
  match r with
  | Err e => from_world (L_Error "failed to start server" [("error", LErr e)])
  | Ok _ => mret tt
  end.

(** [main], with the configuration and the wiring it serves with; [None] when
    it exits before. *)
Definition server_main : M (I * World) (option (Config * App World)) :=
  loaded <- from_infra Load ;;
  match snd loaded with
  | Some err =>
      from_infra (stderr "failed to load config") ;;;
      mret None
  | None =>
      let cfg := fst loaded in
      from_world (logger_Init (AppEnv cfg)) ;;;
      wired <- with_broker (main cfg) ;;
      match wired with
      | Err _ => mret None
      | Ok app =>
          install_client (app_queue app) ;;;
          listen cfg ;;;
          mret (Some (cfg, app))
      end
  end.
End server.

(** ** cmd/seeds *)

(** [pgx.Connect], [conn.Close] *)
Class SeedConn (S : Type) : Type := {
  pgx_Connect : string -> M S (result unit);
  pgx_Close : M S unit;
}.

Section seeds.
Context {Env : Type} `{SeedEnv Env, EnvParser Env, SeedConn Env}.
Local Open Scope go_scope.

(** [main]; [Err] is [log.Fatalf], after which the deferred [Close] does not
    run. *)
Definition seeds_command : M Env (result Z) :=
  loaded <- Load ;;
  match snd loaded with
  | Some err => mret (Err (Wrapped "load config" err))
  | None =>
      let dsn := DBPrimaryDSN (fst loaded) in
      if String.eqb dsn "" then mret (Err (ErrorString "DB_PRIMARY_DSN is required"))
      else
        try _ <- pgx_Connect dsn catch (fun e => mret (Err (Wrapped "connect" e))) ;;
        try n <- seed_main catch (fun e => mret (Err e)) ;;
        pgx_Close ;;;
        mret (Ok n)
  end.
End seeds.

(** ** Properties *)

Section startup.
Context {P R A C I : Type} `{PgDriver P, RedisServer R, AmqpLib A, Clock C, Infra I, EnvParser I, HttpServer I}.
Context `{!AmqpLaws A, JSON TxMessage, JSON Transaction, JSON Account}.
#[local] Abbreviation World := (World P R A C).

(** The process serves with [cfg] and [app]: the configuration was loaded, the
    wiring is the one it asks for, and the log begins with the environment. *)
Record serving (i : I) (w : World) (cfg : Config) (app : App World) (w' : World) : Prop := {
  serving_loaded : fst (Load i) = (cfg, None);
  serving_db : svc_db (app_txSvc app) = nonempty (DBPrimaryDSN cfg);
  serving_queue : svc_queue (app_txSvc app) = is_set (app_queue app);
  serving_worker : is_set (app_worker app) = svc_queue (app_txSvc app) && svc_db (app_txSvc app);
  serving_client : forall q, app_queue app = Some q -> w_client w' = q;
  serving_log : exists ls, w_log w' =
    w_log w ++ mkLogLine "INFO" "logger initialized" [("app_env", LStr (AppEnv cfg))] :: ls;
}.

Lemma listen_spec cfg (i : I) (w : World) :
  wp (listen cfg) (fun _ st' => exists ls, snd st' = set_log (w_log w ++ ls) w) (i, w).
Proof.
  unfold listen, from_infra. wp_steps. apply wp_of. intros [u|e] i1 _; wp_steps.
  - exists []. rw app_nil_r. by destruct w.
  - unfold from_world, L_Error, log_write. wp_steps. by eexists.
Qed.

Lemma install_client_spec queue (i : I) (w : World) :
  wp (install_client (P := P) (R := R) (C := C) queue) (fun _ st' => w_log (snd st') = w_log w /\
    forall q, queue = Some q -> w_client (snd st') = q) (i, w).
Proof.
  destruct queue as [q|]; cbn; unfold from_world; wp_steps; [|done]. split; [done|]. by intros q' [= <-].
Qed.

(** The server is reached only through a configuration that was loaded; it
    then runs with the wiring of that configuration, the worker exactly with
    a queue and a database, the client of the queue in place, and the first
    line of its log names the environment. *)
Theorem server_main_starts (i : I) (w : World) :
  wp server_main (fun r st' => forall cfg app, r = Some (cfg, app) -> serving i w cfg app (snd st')) (i, w).
Proof.
  unfold server_main, from_infra at 1. wp_steps. unfold wp at 1. destruct (Load i) as [[cfg e] i1] eqn:Hl. cbn [fst snd].
  destruct e as [e|]; [unfold from_infra; wp_steps; apply wp_of; intros; by wp_steps|].
  unfold from_world at 1, logger_Init, L_Info, log_write, with_broker. wp_steps. wp_apply main_spec.
  intros [app|e] [i2 a2] Hm; wp_steps; [|done]. destruct Hm as (Hdb & _ & _ & _ & _ & Hq & Hwk & _).
  wp_apply install_client_spec. intros _ [i3 w3] [Hlog Hc]. wp_steps. wp_apply listen_spec.
  intros _ [i4 w4] [ls Hw4]. wp_steps. intros ? ? [= <- <-]. cbn in *. subst w4. split; try done; [by rw Hl|].
  exists ls. cbn. by rw Hlog -app_assoc.
Qed.
End startup.

(** Connecting and parsing copy no rows. *)
Class SeedConnLaws (S : Type) `{SeedEnv S, EnvParser S, SeedConn S} : Prop := {
  env_Parse_law cfg s : wp (env_Parse cfg) (fun _ s' => copied_same s s') s;
  pgx_Connect_law dsn s : wp (pgx_Connect dsn) (fun _ s' => copied_same s s') s;
  pgx_Close_law s : wp pgx_Close (fun _ s' => copied_same s s') s;
}.

(** The command copies rows only through a connection to the primary database
    of its configuration; every way to end before that is an error that
    copied nothing, and success means a million transactions. *)
Theorem seeds_command_outcome {Env} `{SeedEnv Env, EnvParser Env, SeedConn Env, !SeedLaws Env, !SeedConnLaws Env} s :
  wp seeds_command (fun r s' =>
    (is_ok r = false /\ copied_same s s') \/
    (snd (fst (Load s)) = None /\ DBPrimaryDSN (fst (fst (Load s))) <> "" /\
     exists txs, copied_transactions s' = copied_transactions s ++ txs /\
       (forall n, r = Ok n -> n = numTransactions /\ Z.of_nat (length txs) = numTransactions))) s.
Proof.
  unfold seeds_command. wp_steps.
  assert (wp Load (fun _ s1 => copied_same s s1) s) as Hload.
  { unfold Load. wp_steps. wp_apply env_Parse_law. intros [cfg [e|]] s1 Hs; by wp_steps. }
  unfold wp at 1. unfold wp in Hload. destruct (Load s) as [[cfg e] s1]. cbn [fst snd].
  destruct e as [e|]; [wp_steps; by left|].
  destruct (String.eqb_spec (DBPrimaryDSN cfg) "") as [Hdsn|Hdsn]; [wp_steps; by left|].
  wp_steps. wp_apply pgx_Connect_law. intros [u|e] s2 H2; wp_steps; [|left; split; [done|by eapply copied_same_trans]].
  wp_apply seed_main_spec. intros r s3 (accs & m & txs & _ & Ht & _ & Hrows & _ & _ & _ & Hok).
  assert (copied_transactions s3 = copied_transactions s ++ txs) as Ht'.
  { rw Ht. destruct (copied_same_trans _ _ _ Hload H2) as [_ E]. by rw E. }
  destruct r as [n|e]; wp_steps.
  - wp_apply pgx_Close_law. intros _ s4 [_ H4]. wp_steps. right. split_and!; try done. exists txs. rw H4.
    split; [done|]. intros n' [= <-]. destruct (Hok n eq_refl) as [-> ->]. split; [done|].
    apply list.Forall2_length in Hrows. rw -Hrows length_seqZ. by vm_compute.
  - right. split_and!; try done. by exists txs.
Qed.
