(* ===== verification/System.v ===== *)
(** * The whole system

    The server that [main] builds, as a step relation: a request is served, a
    goroutine of the worker handles a delivery of a published message, or
    something outside the program happens.  Requests and deliveries are one
    step each ([Concurrency] interleaves their database transactions, [Pool]
    the goroutines of the worker); any statement of them may fail, and
    messages may be lost, delayed, reordered and repeated.

    On a database without a replica, whose primary reads do not fail and whose
    answers to commits arrive, and for amounts of whole cents, every step is a
    sequence of moves of the abstract bank of [Bank].  [WellFormed] has what
    holds without these conditions. *)

From S2P Require Import Prelude GoNum TxId Float64 Domain Sql Postgres Transfer Bank Redis Queue World Reference.
From S2P Require Import Session Repository TransactionService AccountService Cache Http Handlers.
From S2P Require Import Config Worker Settlement Frames Ledger Server.

(** A message the program sends: its fields have their Go types, the amount
    is finite and positive, the identifier is one of [nextTransactionID]. *)
Definition sendable (m : TxMessage) : Prop :=
  (exists n, 0 <= n /\ msg_tx_id m = format_id n) /\
  is_int64 (msg_source m) /\ is_int64 (msg_dest m) /\ good_amount (msg_amount m).

(** ** The system *)
Section system.
Context {P R A C E : Type} `{PgDriver P, RedisServer R, AmqpLib A, Clock C, Echo E}.
Context `{JSON TxMessage, JSON Transaction, JSON Account}.
#[local] Abbreviation World := (World P R A C).

Definition tables (w : World) : Tables := pg_committed (w_pg w).
Definition messages (w : World) : list (string * string) := published (amqp_trace (w_amqp w)).

(** Any request that JSON can carry: the fields of the struct are 64-bit
    integers and a finite [float64]. *)
Definition decoded_request (e : E) : Prop :=
  forall req, fst (c_Bind e) = Ok req ->
    is_int64 (req_source req) /\ is_int64 (req_dest req) /\
    f64_valid (req_amount req) /\ f64_finite (req_amount req) = true.

(** Moreover the amount of a valid request is a whole number of cents. *)
Definition fair_request (e : E) : Prop :=
  decoded_request e /\
  forall req, fst (c_Bind e) = Ok req -> request_ok req = true -> exists k, fair_amount (req_amount req) k.

(** What the program does not do: clients, servers, clock, cache and broker
    move on; the committed tables, the messages and [txCounter] are the
    program's. *)
Definition outside (w w' : World) : Prop :=
  tables w' = tables w /\ messages w' = messages w /\ w_counter w' = w_counter w.

(** The requests that are sent, and the server that [main] has built. *)
Context (sent : E -> Prop) (app : App World).

Inductive sys_step : World -> World -> Prop :=
| sys_request rt e w :
    sent e -> w_counter w < max_int64 ->
    sys_step w (snd (snd (route_handler app rt (e, w))))
| sys_delivery wk n msg w :
    app_worker app = Some (wk, n) -> ("transactions", d_body msg) ∈ messages w ->
    sys_step w (snd (process wk msg w))
| sys_outside w w' : outside w w' -> sys_step w w'.

(** From a state in which no account holds more than 2^43 units. *)
Definition modest_sys_step (w w' : World) : Prop := modest (tables w) /\ sys_step w w'.
End system.
Arguments sys_step {P R A C E _ _ _ _ _ _ _ _} sent app.
Arguments modest_sys_step {P R A C E _ _ _ _ _ _ _ _} sent app.

(** ** The invariant *)
Section invariant.
Context {P R A C : Type} `{PgDriver P, RedisServer R, AmqpLib A}.
Context `{JSON TxMessage}.
#[local] Abbreviation World := (World P R A C).

Definition bank_in (w : World) : Bank := bank_of (tables w).

Record sys_inv (w : World) : Prop := {
  inv_bank : bank_ok (bank_in w);
  inv_counter : 0 <= w_counter w;
  (** no stored identifier is ahead of the counter *)
  inv_ids : forall n, 0 <= n -> is_Some (transactions (tables w) !! format_id n) -> n <= w_counter w;
  (** every message in the broker can be read and its transaction is stored *)
  inv_messages : forall body, ("transactions", body) ∈ messages w ->
    exists p, json_Unmarshal body = Ok p /\ recorded (tables w) p;
}.

(** A step of the program keeps the invariant when it makes moves of the
    bank, by statements that add at most the row of the new identifier, and
    publishes only what it recorded. *)
Lemma sys_inv_step w w' ss :
  sys_inv w -> rtc bank_step (bank_in w) (bank_in w') -> sql_steps ss (tables w) (tables w') ->
  w_counter w <= w_counter w' ->
  Forall (fun i => i = format_id (w_counter w')) (omap row_added ss) ->
  (forall body, ("transactions", body) ∈ messages w' ->
     ("transactions", body) ∈ messages w \/ exists p, json_Unmarshal body = Ok p /\ recorded (tables w') p) ->
  sys_inv w'.
Proof.
  intros [Hb Hc Hi Hm] Hsteps Hrun Hle Hnew Hpub. destruct (bank_keeps_steps _ _ Hsteps) as (Hok & _). split.
  - by apply Hok.
  - lia.
  - intros n Hn [Hs|Hs]%(sql_run_keys _ _ _ _ _ _ Hrun); [specialize (Hi n Hn Hs); lia|].
    rw list.Forall_forall in Hnew. apply Hnew, format_id_inj in Hs; lia.
  - intros body [Hin|?]%Hpub; [|done]. destruct (Hm body Hin) as (p & Hp & Hr).
    exists p. split; [done|]. by eapply recorded_run.
Qed.

Lemma sys_inv_outside w w' : sys_inv w -> outside w w' -> sys_inv w'.
Proof. intros [Hb Hc Hi Hm] (Et & Em & Ec). split; unfold bank_in in *; by rw ?Et ?Em ?Ec. Qed.
End invariant.

(** ** Requests *)
Section requests.
Context {P R A C : Type} `{PgDriver P, RedisServer R, AmqpLib A, Clock C}.
Context `{!PgLaws P, !PgLiteral P, !AmqpLaws A}.
Context `{JSON TxMessage, JSON Transaction, JSON Account, !JSONLaws TxMessage sendable}.
#[local] Abbreviation World := (World P R A C).
Context (s : transactionService World) (h : option DB).
Context (Hrepo : svc_repo s = postgres.NewTransactionRepository Primary h).

(** What [createAsync] did to the tables and the broker. *)
Definition queued (tx : Transaction) (w w' : World) : Prop :=
  (tables w' = tables w /\ messages w' = messages w) \/
  exists tb1, sql_step (InsertTx (set_status StatusPending tx)) (tables w) tb1 /\
    (tables w' = tb1 \/ sql_step (UpdateTxStatus StatusFailed (ID tx)) tb1 (tables w')) /\
    (messages w' = messages w \/ exists body, json_Marshal (tx_message tx) = Ok body /\
       messages w' = messages w ++ [("transactions", body)]).

Lemma createAsync_queued tx w :
  wp (createAsync s tx) (fun _ w' => queued tx w w' /\ w_counter w' = w_counter w) w.
Proof.
  unfold createAsync. rw Hrepo. wp_steps. cbn [Save UpdateStatus postgres.NewTransactionRepository].
  unfold postgres.Save, postgres.UpdateStatus, on_pg, queued, tables, messages. wp_steps. wp_apply pg_exec_law.
  intros [u|e] p1 Hp1; wp_steps.
  2: { split; [|done]. destruct Hp1 as [Hp1|Hp1]; [by left|right; eauto 6]. }
  change (tx_message (set_status StatusPending tx)) with (tx_message tx).
  destruct (json_Marshal (tx_message tx)) as [body|e] eqn:Hj; wp_steps; [|split; [right; eauto 6|done]].
  unfold on_queue. wp_steps. wp_apply Publish_published. intros [u'|e] [c' a'] Hpub; wp_steps; cbn in Hpub.
  - split; [right|done]. exists (pg_committed p1). cbn. destruct Hpub as [->|[? _]]; [|done].
    split_and!; [done|by left|right; eauto].
  - wp_apply pg_exec_law. intros r p2 Hp2. wp_steps. split; [right|done]. exists (pg_committed p1).
    split; [done|]. split.
    + cbn in Hp2. destruct r as [?|?]; [by right|]. by destruct Hp2; [left|right].
    + cbn. destruct Hpub as [->|[_ ->]]; [right; eauto|by left].
Qed.

(** A new transaction: its identifier is the counter, which no stored
    identifier has reached. *)
Record new_transaction (tx : Transaction) (k : Z) (w : World) : Prop := {
  new_inv : sys_inv w;
  new_id : ID tx = format_id (w_counter w);
  new_fresh : transactions (tables w) !! ID tx = None;
  new_amount : fair_amount (Amount tx) k;
  new_typed : is_int64 (SourceAccount tx) /\ is_int64 (DestAccount tx);
}.

Lemma new_sendable tx k w : new_transaction tx k w -> sendable (tx_message tx).
Proof.
  intros [Hi Hid _ [Ha _] [Hs Hd]]. split; [|done]. exists (w_counter w). split; [apply Hi|done].
Qed.

Lemma queued_sys tx k w w' : new_transaction tx k w -> queued tx w w' -> w_counter w' = w_counter w ->
  sys_inv w' /\ rtc bank_step (bank_in w) (bank_in w').
Proof.
  intros Hnew Hq Ec. pose proof (new_sendable tx k w Hnew) as Hsend. destruct Hnew as [Hi Hid Hn Hf _].
  destruct Hq as [[Et Em]|(tb1 & Hins & Hup & Hpub)].
  { split; [by eapply sys_inv_outside|]. unfold bank_in. by rw Et. }
  pose proof (record_step (set_status StatusPending tx) _ _ k Hf eq_refl Hins) as Hrec.
  destruct (insert_row (set_status StatusPending tx) _ _ k (proj2 Hf) Hins) as (r & Hr & Hpo).
  injection Hpo as Es Ed Ek Est.
  assert (rtc bank_step (bank_of tb1) (bank_in w')) as Hfail.
  { destruct Hup as [<-|Hup]; [done|]. eapply fail_step; [|exact Hup]. intros r'. rw Hr. intros [= <-]. by rw Est. }
  assert (exists ss, sql_steps ss tb1 (tables w') /\ omap row_added ss = []) as (ss & Hss & Hadd).
  { destruct Hup as [->|Hup]; [exists []; by split; [constructor|]|].
    exists [UpdateTxStatus StatusFailed (ID tx)]. by split; [apply sql_steps_one|]. }
  assert (rtc bank_step (bank_in w) (bank_in w')) as Hsteps by (by eapply rtc_l).
  split; [|done]. eapply sys_inv_step; [done..|by eapply sql_steps_cons| | |].
  - by rw Ec.
  - cbn. rw Hadd Ec -Hid. by repeat constructor.
  - intros body. destruct Hpub as [->|(b & Hb & ->)]; [by left|].
    rw elem_of_app list_elem_of_singleton. intros [?|[= ->]]; [by left|right]. exists (tx_message tx).
    split; [by eapply json_roundtrip|]. eapply recorded_run; [exact Hss|]. exists r. by rw Es Ed Ek.
Qed.

Lemma sync_sys tx k r (w w' : World) : commit_definite P -> modest (tables w) -> new_transaction tx k w ->
  sync_outcome tx (tables w) r (tables w') -> broker_part w' = broker_part w ->
  sys_inv w' /\ rtc bank_step (bank_in w) (bank_in w').
Proof.
  intros Hdef Hmod [Hi Hid Hn Hf _] Ho Hbr. injection Hbr as Ea Ecl Ec.
  assert (messages w' = messages w) as Em by (unfold messages; by rw Ea).
  assert (tables w' = tables w \/ sync_applied tx (tables w) (tables w')) as [Et|Happ].
  { destruct r as [tx'|e]; [right; apply Ho|left]. destruct Ho as (_ & Ho & _). by apply Ho. }
  { split; [by eapply sys_inv_outside|]. unfold bank_in. by rw Et. }
  assert (rtc bank_step (bank_in w) (bank_in w')) as Hsteps.
  { apply rtc_once. eapply sync_step; [exact Hf|exact Hn|apply Hi|exact Hmod|exact Happ]. }
  split; [|done]. eapply sys_inv_step; [done..|apply Happ| | |].
  - by rw Ec.
  - cbn. rw Ec -Hid. by repeat constructor.
  - rw Em. by left.
Qed.

(** [CreateTransaction] on a database, with or without a queue. *)
Lemma CreateTransaction_sys input k w :
  commit_definite P -> svc_db s = true -> modest (tables w) -> sys_inv w -> w_counter w < max_int64 ->
  fair_amount (in_amount input) k -> is_int64 (in_source input) -> is_int64 (in_dest input) ->
  wp (CreateTransaction s input) (fun _ w' => sys_inv w' /\ rtc bank_step (bank_in w) (bank_in w')) w.
Proof.
  intros Hdef Hd Hmod Hi Hroom Hf Hs Hds. pose proof (inv_counter _ Hi) as Hc0.
  apply CreateTransaction_run. intros t now w1 (Ep & _ & Ea & _) Ec1.
  pose proof (next_id_gt t (w_counter w) ltac:(lia)) as Hgt.
  assert (tables w1 = tables w) as Et by (unfold tables; by rw Ep).
  assert (messages w1 = messages w) as Em by (unfold messages; by rw Ea).
  set (tx := new_tx input _ now).
  assert (new_transaction tx k w1) as Hnew.
  { split; [|by rw Ec1| |exact Hf|done].
    - apply (sys_inv_step w w1 [] Hi); unfold bank_in; rw ?Et ?Em ?Ec1; [done|constructor|lia|constructor|by left].
    - rw Et. apply eq_None_not_Some. intros Hx. apply (inv_ids _ Hi) in Hx; lia. }
  assert (wp (create_path s tx) (fun _ w2 => sys_inv w2 /\ rtc bank_step (bank_in w) (bank_in w2)) w1) as Hpath.
  { replace (bank_in w) with (bank_in w1) by (unfold bank_in; by rw Et). unfold create_path. destruct (svc_queue s).
    - wp_apply createAsync_queued. intros r w2 [Hq Hc]. by eapply queued_sys.
    - rw Hd. eapply wp_mono; [apply wp_and; [apply createSync_spec|apply (keeps_createSync s tx)]|].
      intros r w2 [Ho Hbr]. eapply sync_sys; [done|by rw Et|done..]. }
  wp_apply Hpath. intros r w2 [Hi2 Hb2] w3 (Ep3 & _ & Ea3 & _) Ec3.
  assert (outside w2 w3) as Ho by (unfold outside, tables, messages; by rw Ep3 Ea3).
  split; [by eapply sys_inv_outside|]. unfold bank_in in *. by rw (proj1 Ho).
Qed.
End requests.

(** ** Deliveries *)
Section deliveries.
Context {P R A C : Type} `{PgDriver P, RedisServer R, AmqpLib A}.
Context `{!PgLaws P, !PgLiteral P, !AmqpLaws A, JSON TxMessage}.
#[local] Abbreviation World := (World P R A C).

Lemma process_counter redis h msg (w : World) :
  w_counter (snd (process (pg_worker redis h) msg w)) = w_counter w.
Proof.
  apply keeps_run, keeps_process; intros; cbn; [|by apply keeps_on_pg].
  apply keeps_try; [by apply keeps_on_pg|by keeps..].
Qed.

Lemma process_messages h msg tv tb tb' f (w w' : World) : delivery_effect h msg tv tb tb' f ->
  answered msg f (w_amqp w) (w_amqp w') -> messages w' = messages w.
Proof.
  intros Hc [Htr|Htr]; unfold messages; rw Htr //. rw published_app. by destruct Hc; rw app_nil_r.
Qed.

(** What one delivery of a message in the broker does to the bank. *)
Lemma process_moves msg f (w w' : World) :
  commit_definite P -> reads_definite P Primary -> modest (tables w) -> sys_inv w ->
  ("transactions", d_body msg) ∈ messages w ->
  delivery_effect Primary msg (tables w) (tables w) (tables w') f ->
  rtc bank_step (bank_in w) (bank_in w') /\
  exists ss, sql_steps ss (tables w) (tables w') /\ omap row_added ss = [].
Proof.
  intros Hcd Hrd Hmod Hi Hmsg Hcase. destruct (inv_messages _ Hi _ Hmsg) as (p & Hp & r & Hr & Hs & Hd & Hf).
  unfold bank_in. inversion Hcase as [e He|p' r' Hj Hr' Hst|p' tb Hj Hn Hset|p' tb1 tb Hj Hn _ Hd1 Hst]; subst;
    try (assert (p' = p) as -> by congruence); try (split; [done|]; exists []; by split; [constructor|]).
  - split; [|by eexists; split; [apply Hset|]]. apply rtc_once.
    eapply settle_step; [exact Hf|exact Hr|done|done|exact (Hn Hrd r Hr)|apply Hi|exact Hmod|exact Hset].
  - rw (Hd1 Hcd) in Hst. destruct Hst as [->|Hst]; [split; [done|]; exists []; by split; [constructor|]|].
    split; [eapply fail_step; [exact (Hn Hrd)|exact Hst]|]. eexists. by split; [apply sql_steps_one|].
Qed.

Lemma process_sys redis msg (w : World) :
  commit_definite P -> reads_definite P Primary -> modest (tables w) -> sys_inv w ->
  ("transactions", d_body msg) ∈ messages w ->
  let w' := snd (process (pg_worker redis None) msg w) in
  sys_inv w' /\ rtc bank_step (bank_in w) (bank_in w').
Proof.
  intros Hcd Hrd Hmod Hi Hmsg. cbv zeta. pose proof (process_spec redis None msg w) as Hspec.
  pose proof (process_counter redis None msg w) as Hc. unfold wp in Hspec.
  destruct (process (pg_worker redis None) msg w) as [u w']. destruct Hspec as (f & Hcase & Hans).
  pose proof (process_messages _ _ _ _ _ _ _ _ Hcase Hans) as Em. cbn [snd] in *.
  destruct (process_moves msg f w w' Hcd Hrd Hmod Hi Hmsg Hcase) as (Hsteps & ss & Hss & Hadd).
  split; [|done]. eapply sys_inv_step; [done..| | |].
  - by rw Hc.
  - by rw Hadd.
  - rw Em. by left.
Qed.
End deliveries.

(** ** Reads *)
Section reads.
Context {P R A C E : Type} `{PgDriver P, RedisServer R, AmqpLib A, Clock C, Echo E, !PgLaws P}.
Context `{JSON TxMessage, JSON Transaction, JSON Account}.
#[local] Abbreviation World := (World P R A C).
Context (cfg : Config) (dsn : string) (replica redis : option string) (queue : option Client).
#[local] Abbreviation app := (build (P := P) (R := R) (A := A) (C := C) cfg (Some dsn) replica redis queue).

(** A read changes nothing that the bank consists of. *)
Lemma route_read rt e (w : World) : rt <> CreateTransactionRoute ->
  outside w (snd (snd (route_handler app rt (e, w)))).
Proof.
  intros Hrt.
  assert (bank_part (snd (snd (route_handler app rt (e, w)))) = bank_part w) as Hb.
  { apply (keeps_run (fun ew : E * World => bank_part (snd ew))).
    destruct rt; [apply keeps_handle_GetBalance|done|apply keeps_handle_GetTransactionStatus]; intros id; cbn.
    - apply keeps_GetBalance; [exact _|apply keeps_pg_GetAccountByID].
    - apply keeps_GetTransactionStatus; [exact _|apply keeps_pg_GetByID]. }
  injection Hb as Et Ea _ Ec. unfold outside, messages, tables. by rw Et Ea Ec.
Qed.
End reads.

(** ** One step *)
Section steps.
Context {P R A C E : Type} `{PgDriver P, RedisServer R, AmqpLib A, Clock C, Echo E}.
Context `{!PgLaws P, !PgLiteral P, !AmqpLaws A}.
Context `{JSON TxMessage, JSON Transaction, JSON Account, !JSONLaws TxMessage sendable}.
#[local] Abbreviation World := (World P R A C).
Context (cfg : Config) (dsn : string) (redis : option string) (queue : option Client).
#[local] Abbreviation app := (build (P := P) (R := R) (A := A) (C := C) cfg (Some dsn) None redis queue).

Lemma sys_step_spec (w w' : World) :
  commit_definite P -> reads_definite P Primary -> modest_sys_step (E := E) (fair_request (P := P)) app w w' -> sys_inv w ->
  sys_inv w' /\ rtc bank_step (bank_in w) (bank_in w').
Proof.
  intros Hcd Hrd [Hmod Hstep] Hi.
  assert (forall w1 : World, outside w w1 -> sys_inv w1 /\ rtc bank_step (bank_in w) (bank_in w1)) as Hout.
  { intros w1 Ho. split; [by eapply sys_inv_outside|]. unfold bank_in. by rw (proj1 Ho). }
  destruct Hstep as [rt e w Hreq Hroom|wk n msg w Hwk Hmsg|w w' Ho]; [| |by apply Hout].
  - destruct rt; [by apply Hout, route_read| |by apply Hout, route_read].
    pose proof (post_world (NewTransactionService (app_txSvc app)) e w) as Hpost. unfold wp in Hpost. cbn [route_handler].
    destruct (handle_CreateTransaction _ (e, w)) as [r [e' w']]. cbn [snd] in *.
    destruct Hpost as [->|(req & Hb & Hok & ->)]; [by apply Hout|].
    destruct (proj1 Hreq req Hb) as (Hs & Hd & _). destruct (proj2 Hreq req Hb Hok) as [k Hf].
    pose proof (CreateTransaction_sys (app_txSvc app) None eq_refl (req_input req) k w Hcd eq_refl Hmod Hi Hroom Hf Hs Hd) as Hc.
    unfold wp in Hc. cbn [NewTransactionService svc_CreateTransaction].
    by destruct (CreateTransaction _ _ w).
  - cbn in Hwk. destruct (_ && _); simplify_eq. by apply process_sys.
Qed.

Lemma sys_steps_spec (w w' : World) :
  commit_definite P -> reads_definite P Primary -> rtc (modest_sys_step (E := E) (fair_request (P := P)) app) w w' -> sys_inv w ->
  sys_inv w' /\ rtc bank_step (bank_in w) (bank_in w').
Proof.
  intros Hcd Hrd. induction 1 as [w|w w1 w' Hs _ IH]; intros Hi; [done|].
  destruct (sys_step_spec w w1 Hcd Hrd Hs Hi) as [Hi1 Hb1]. destruct (IH Hi1) as [Hi' Hb']. split; [done|].
  by etrans.
Qed.

(** When all the money is at most 2^43 units, no account ever holds more. *)
Lemma total_sys_steps (w w' : World) :
  commit_definite P -> reads_definite P Primary -> rtc (sys_step (E := E) (fair_request (P := P)) app) w w' -> sys_inv w ->
  total_balance (tables w) <= safe_cents -> rtc (modest_sys_step (E := E) (fair_request (P := P)) app) w w'.
Proof.
  intros Hcd Hrd. induction 1 as [w|w w1 w' Hs _ IH]; intros Hi Ht; [done|].
  assert (modest_sys_step (fair_request (P := P)) app w w1) as Hm.
  { split; [|done]. apply total_modest; [apply bank_no_overdraft, Hi|done]. }
  destruct (sys_step_spec w w1 Hcd Hrd Hm Hi) as [Hi1 Hb]. eapply rtc_l; [exact Hm|]. apply IH; [done|].
  destruct (bank_keeps_steps _ _ Hb) as (_ & Heq & _). unfold bank_in in Heq. rw !bank_total in Heq. by rw Heq.
Qed.
End steps.

(** ** Properties *)

(** C1: the server implements the bank, on a primary database without a
    replica whose reads do not fail and whose answers to commits arrive, when
    the amounts of requests are whole cents and no account holds more than
    2^43 units (as when that is all the money there is, [total_sys_steps]).
    Then any request, any delivery of a message that was sent, however late or
    repeated, and anything outside the program, one after the other and each
    failing at any other statement, is a sequence of moves of the abstract
    bank, and keeps what the proof needs: no stored identifier is ahead of the
    counter, and every message sent has its transaction stored with the same
    data. *)
Theorem system_refines_bank {P R A C E}
    `{PgDriver P, RedisServer R, AmqpLib A, Clock C, Echo E, !PgLaws P, !PgLiteral P, !AmqpLaws A}
    `{JSON TxMessage, JSON Transaction, JSON Account, !JSONLaws TxMessage sendable}
    cfg dsn redis queue (w w' : World P R A C) :
  commit_definite P -> reads_definite P Primary ->
  modest_sys_step (E := E) (fair_request (P := P)) (build cfg (Some dsn) None redis queue) w w' -> sys_inv w ->
  sys_inv w' /\ rtc bank_step (bank_in w) (bank_in w').
Proof. apply sys_step_spec. Qed.

(** C2: the books balance, under the conditions of the refinement: a primary
    database without a replica whose reads do not fail and whose answers to
    commits arrive, requests for whole cents, requests and deliveries one
    after the other, and no account with more than 2^43 units on the way.
    Then, whatever the order and whatever else fails: each account holds
    exactly its opening balance plus the completed transfers to it less the
    completed transfers from it; no money appears or disappears; no account
    is overdrawn; and a completed transfer stays completed. *)
Theorem ledger_consistent {P R A C E}
    `{PgDriver P, RedisServer R, AmqpLib A, Clock C, Echo E, !PgLaws P, !PgLiteral P, !AmqpLaws A}
    `{JSON TxMessage, JSON Transaction, JSON Account, !JSONLaws TxMessage sendable}
    cfg dsn redis queue (w w' : World P R A C) :
  commit_definite P -> reads_definite P Primary ->
  rtc (modest_sys_step (E := E) (fair_request (P := P)) (build cfg (Some dsn) None redis queue)) w w' -> sys_inv w ->
  (forall acc, opening acc (bank_in w') = opening acc (bank_in w)) /\
  total_balance (tables w') = total_balance (tables w) /\
  no_overdraft (tables w') /\
  (forall id, row_completed (tables w) id -> row_completed (tables w') id).
Proof.
  intros Hcd Hrd Hrun Hi. destruct (sys_steps_spec cfg dsn redis queue w w' Hcd Hrd Hrun Hi) as [Hi' Hb].
  destruct (bank_keeps_steps _ _ Hb) as (_ & Htot & Hop & Hcomp). split_and!.
  - exact Hop.
  - unfold bank_in in Htot. by rw !bank_total in Htot.
  - apply bank_no_overdraft, Hi'.
  - intros id (r & Hr & Hst). destruct (Hcomp id) as (p & Hp & Hps).
    { exists (posting_of r). unfold bank_in. by rw lookup_book Hr. }
    unfold bank_in in Hp. rw lookup_book in Hp. apply fmap_Some in Hp as (r' & Hr' & ->). by exists r'.
Qed.

(** A run: a transfer of 30.00 is posted, and its message is delivered twice. *)
#[export] Instance TxMessage_json_sendable : JSONLaws TxMessage sendable.
Proof. split. intros t b _. apply ref_roundtrip. Qed.

Definition queue_config : Config :=
  mkConfig 8080 "development" false true false (f64_of_Z 100) 200 false 5 10 false "postgres://" "" ""
    "redis:6379" (10 * Second) (30 * Second) "amqp://" 10.

Abbreviation SureWorld := (World SurePg RefRedis RefAmqp Z).
Definition sure_app : App SureWorld := build queue_config (Some "postgres://") None None (Some ref_client).
Abbreviation sure_step := (sys_step (E := RefEcho) (fair_request (P := SurePg)) sure_app).

Definition sure_start : SureWorld := ref_world (mkSurePg (ref_pg ref_tables [])) (ref_amqp []).
Definition sure_posted : SureWorld :=
  snd (snd (route_handler sure_app CreateTransactionRoute (ref_post, sure_start))).
Definition posted_body : string := match messages sure_posted with [(_, b)] => b | _ => "" end.
Definition posted_delivery : Delivery := mkDelivery posted_body 1 1.
Definition sure_settled (w : SureWorld) : SureWorld :=
  snd (process (pg_worker false None) posted_delivery w).

Lemma fair_30 : fair_amount (P := SurePg) amount_30 3000.
Proof. split; [exact amount_30_good|]. apply (bool_decide_eq_true_1 _). by vm_compute. Qed.

Lemma sure_start_inv : sys_inv sure_start.
Proof.
  split.
  - unfold bank_in. split; [intros i c Hc|intros i p Hp].
    + rw lookup_holdings in Hc. apply (ref_tables_balances i c Hc).
    + by rw lookup_book lookup_empty in Hp.
  - done.
  - intros n _ [r Hr]. cbn in Hr. by rw lookup_empty in Hr.
  - intros body Hin. cbn in Hin. set_solver.
Qed.

Lemma sure_start_step : sure_step sure_start sure_posted.
Proof.
  apply (sys_request (fair_request (P := SurePg)) sure_app CreateTransactionRoute ref_post sure_start); [|done].
  split; intros req [= <-]; [split_and!; apply amount_30_good || by vm_compute|]. intros _. exists 3000. exact fair_30.
Qed.

Lemma posted_step w : messages w = messages sure_posted -> sure_step w (sure_settled w).
Proof.
  intros Hm. apply (sys_delivery (fair_request (P := SurePg)) sure_app (pg_worker false None) 10 posted_delivery w eq_refl). rw Hm.
  apply (bool_decide_eq_true_1 _). by vm_compute.
Qed.

Lemma sure_run : rtc sure_step sure_start (sure_settled (sure_settled sure_posted)).
Proof.
  eapply rtc_l; [exact sure_start_step|]. eapply rtc_l; [exact (posted_step sure_posted eq_refl)|].
  apply rtc_once, (posted_step (sure_settled sure_posted)). by vm_compute.
Qed.

(** The transfer went through once. *)
Example sure_run_balances :
  holdings (bank_in (sure_settled (sure_settled sure_posted))) = {[1001 := 7000; 1002 := 8000]}.
Proof. by vm_compute. Qed.

Abbreviation modest_sure_step := (modest_sys_step (E := RefEcho) (fair_request (P := SurePg)) sure_app).

Lemma modest_sure_run : rtc modest_sure_step sure_start (sure_settled (sure_settled sure_posted)).
Proof.
  apply (total_sys_steps (P := SurePg) (E := RefEcho) queue_config "postgres://" None (Some ref_client));
    [exact SurePg_commit|exact (SurePg_reads Primary)|exact sure_run|exact sure_start_inv|by vm_compute].
Qed.

Lemma modest_start_step : modest_sure_step sure_start sure_posted.
Proof.
  split; [|exact sure_start_step]. apply total_modest; [apply bank_no_overdraft, sure_start_inv|by vm_compute].
Qed.

Lemma system_refines_bank_witness :
  sys_inv sure_posted /\ rtc bank_step (bank_in sure_start) (bank_in sure_posted).
Proof.
  apply (system_refines_bank (E := RefEcho) queue_config "postgres://" None (Some ref_client) sure_start sure_posted).
  - exact SurePg_commit.
  - exact (SurePg_reads Primary).
  - exact modest_start_step.
  - exact sure_start_inv.
Defined.

Lemma ledger_consistent_witness :
  let w' := sure_settled (sure_settled sure_posted) in
  (forall acc, opening acc (bank_in w') = opening acc (bank_in sure_start)) /\
  total_balance (tables w') = total_balance (tables sure_start) /\
  no_overdraft (tables w') /\
  (forall id, row_completed (tables sure_start) id -> row_completed (tables w') id).
Proof.
  apply (ledger_consistent (E := RefEcho) queue_config "postgres://" None (Some ref_client) sure_start).
  - exact SurePg_commit.
  - exact (SurePg_reads Primary).
  - exact modest_sure_run.
  - exact sure_start_inv.
Defined.
