(* ===== verification/WellFormed.v ===== *)
(** * What holds of the whole system without conditions

    The invariant of [System] needs whole cents, reads that do not fail,
    truthful answers to commits and the primary database.  The one here needs
    none of them: whatever the amounts, the failures, the lag of a replica and
    the money in the bank, the stored data stay well formed. *)

From S2P Require Import Prelude GoNum TxId Float64 Domain Sql Postgres Transfer Bank Redis Queue World Reference.
From S2P Require Import Session Repository TransactionService AccountService Cache Http Handlers.
From S2P Require Import Config Worker Settlement Frames Ledger Concurrency Server System.

(** ** Tables *)

(** Every stored transaction has one of the three statuses, an amount that is
    not negative, and two stored accounts. *)
Definition typed_row (tb : Tables) (r : TxRow) : Prop :=
  known_status (row_status r) /\ 0 <= row_amount r /\
  is_Some (accounts tb !! row_source r) /\ is_Some (accounts tb !! row_dest r).
Definition typed_tables (tb : Tables) : Prop := map_Forall (fun _ r => typed_row tb r) (transactions tb).

Section typed.
Context {P : Type} `{PgDriver P, !PgLiteral P}.

(** The statements of the program: the amounts and statuses they store. *)
Definition typed_stmt (s : stmt) : Prop :=
  match s with
  | InsertTx tx | UpsertTx tx => known_status (TxStatus tx) /\ good_amount (Amount tx)
  | UpdateTxStatus st _ => known_status st
  | Debit _ _ | Credit _ _ | MarkCompleted _ => True
  end.

Lemma tx_row_typed tx r :
  known_status (TxStatus tx) -> good_amount (Amount tx) -> tx_row pg_literal pg_timestamptz tx = Some r ->
  known_status (row_status r) /\ 0 <= row_amount r /\ row_source r = SourceAccount tx /\ row_dest r = DestAccount tx.
Proof.
  intros Hst (Hv & Hf & Hpos) Hr. unfold tx_row in Hr. case_match; [done|].
  destruct (pg_literal (Amount tx)) as [q|] eqn:Hq; [|done].
  destruct (numeric_18_2 _ _) as [a|] eqn:Ha; [|done]. injection Hr as <-. cbn. split_and!; try done.
  destruct (pg_literal_back (Amount tx) q Hv Hf Hq) as (_ & _ & Hnum). specialize (Hnum ltac:(lia)).
  apply numeric_18_2_Some in Ha as (-> & _); [|done]. apply round_half_away_nonneg; lia.
Qed.

Lemma typed_row_keep tb tb' r : same_accounts tb tb' -> typed_row tb r -> typed_row tb' r.
Proof. intros Hs (? & ? & Hsrc & Hd). split_and!; try done; by apply Hs. Qed.

(** A row that is added or changed is typed again. *)
Lemma typed_insert tb tb' i r : same_accounts tb tb' -> transactions tb' = <[i := r]> (transactions tb) ->
  typed_tables tb -> typed_row tb' r -> typed_tables tb'.
Proof.
  intros Hacc Ht Hty Hr j r' Hj. rw Ht in Hj. apply lookup_insert_Some in Hj as [[_ <-]|[_ Hj]]; [done|].
  eapply typed_row_keep; [exact Hacc|by apply (Hty j)].
Qed.

Lemma typed_status tb tb' now st i : known_status st -> update_status now st i tb = Some tb' ->
  typed_tables tb -> typed_tables tb'.
Proof.
  intros Hst Hu Hty. unfold update_status in Hu. case_match; [done|].
  destruct (transactions tb !! i) as [r|] eqn:Hr; [|by injection Hu as <-]. injection Hu as <-.
  destruct (Hty i r Hr) as (_ & Hrest). by eapply (typed_insert tb); [| | |split].
Qed.

Lemma insert_tx_Some tx tb tb' : insert_tx pg_literal pg_timestamptz tx tb = Some tb' ->
  exists r, tx_row pg_literal pg_timestamptz tx = Some r /\ fk_ok r tb = true /\ accounts tb' = accounts tb /\
    transactions tb' = <[ID tx := r]> (transactions tb).
Proof.
  intros Hi. unfold insert_tx in Hi. destruct (tx_row _ _ tx) as [r|]; [|done].
  destruct (transactions tb !! ID tx); [done|]. destruct (fk_ok r tb) eqn:Hfk; [|done]. injection Hi as <-. by exists r.
Qed.

Lemma typed_insert_tx tx tb tb' : known_status (TxStatus tx) -> good_amount (Amount tx) ->
  insert_tx pg_literal pg_timestamptz tx tb = Some tb' -> typed_tables tb -> typed_tables tb'.
Proof.
  intros Hst Hg Hi Hty. destruct (insert_tx_Some _ _ _ Hi) as (r & Hr & Hfk & Ha & Ht).
  destruct (tx_row_typed tx r Hst Hg Hr) as (Hs & Hn & _). unfold fk_ok in Hfk.
  apply andb_prop in Hfk as [H1%bool_decide_eq_true_1 H2%bool_decide_eq_true_1].
  eapply (typed_insert tb); [by intros id; rw Ha|exact Ht|done|]. unfold typed_row. by rw Ha.
Qed.

Lemma typed_step s tb tb' : typed_stmt s -> sql_step s tb tb' -> typed_tables tb -> typed_tables tb'.
Proof.
  intros Hs Hx Hty. pose proof (sql_step_accounts _ _ _ Hx) as Hacc. destruct Hx as [now Hx].
  destruct s as [a i|a i|tx|tx|i|st i]; cbn in Hs, Hx.
  1,2: apply update_balance_Some in Hx as (q & _ & Ht & _); intros j r Hj; rw Ht in Hj;
    by eapply typed_row_keep; [exact Hacc|apply (Hty j)].
  - destruct Hs. by eapply typed_insert_tx.
  - destruct Hs as [Hst Hg]. unfold upsert_tx in Hx. destruct (tx_row _ _ tx) as [r|] eqn:Hr; [|done].
    destruct (transactions tb !! ID tx) as [old|] eqn:Hold; [|by eapply typed_insert_tx]. injection Hx as <-.
    destruct (tx_row_typed tx r Hst Hg Hr) as [Hs _]. destruct (Hty _ _ Hold) as (_ & Hrest).
    by eapply (typed_insert tb); [| | |split].
  - apply (typed_status tb tb' now StatusCompleted i); [by right; left|exact Hx|done].
  - by apply (typed_status tb tb' now st i).
Qed.

Lemma typed_steps ss tb tb' : Forall typed_stmt ss -> sql_steps ss tb tb' -> typed_tables tb -> typed_tables tb'.
Proof.
  intros Hss Hrun. induction Hrun as [|now s ss tb tb1 tb2 Hx _ IH]; [done|]. inversion_clear Hss.
  intros Hty. apply IH; [done|]. by eapply typed_step; [|exists now|].
Qed.

Lemma typed_transfer a src dst rest : Forall typed_stmt rest -> Forall typed_stmt (transfer_statements a src dst rest).
Proof. intros Hr. by repeat constructor. Qed.

(** What a delivery executes, in every case. *)
Lemma effect_typed `{JSON TxMessage} h msg tv tb tb' f : delivery_effect h msg tv tb tb' f ->
  exists ss, Forall typed_stmt ss /\ sql_steps ss tb tb'.
Proof.
  assert (known_status StatusFailed) as Hf by (by right; right).
  intros [e He|p r Hj Hr Hst|p tb1 Hj _ [_ Hrun]|p tb1 tb2 Hj _ Hset _ Hst].
  - exists []. by split; constructor.
  - exists []. by split; constructor.
  - eexists. split; [|exact Hrun]. apply typed_transfer. by repeat constructor.
  - destruct Hset as [->|[_ Hrun]], Hst as [->|Hst].
    + exists []. by split; constructor.
    + eexists [_]. split; [|by apply sql_steps_one]. by repeat constructor.
    + eexists. split; [|exact Hrun]. apply typed_transfer. by repeat constructor.
    + eexists. split; [|by eapply sql_steps_snoc]. apply Forall_app. split; [apply typed_transfer|]; by repeat constructor.
Qed.
End typed.

(** ** Worlds *)
Section data.
Context {P R A C : Type} `{PgDriver P, RedisServer R, AmqpLib A, Clock C}.
Context `{!PgLaws P, !PgLiteral P, !AmqpLaws A}.
Context `{JSON TxMessage, JSON Transaction, JSON Account, !JSONLaws TxMessage sendable}.
#[local] Abbreviation World := (World P R A C).

Record data_ok (w : World) : Prop := {
  do_tables : typed_tables (tables w);
  do_counter : 0 <= w_counter w;
  (** every message in the broker can be read and its transaction is stored *)
  do_messages : forall body, ("transactions", body) ∈ messages w ->
    exists p, json_Unmarshal body = Ok p /\ payload_backed (tables w) p;
}.

Lemma data_ok_step w w' ss :
  data_ok w -> Forall typed_stmt ss -> sql_steps ss (tables w) (tables w') -> 0 <= w_counter w' ->
  (forall body, ("transactions", body) ∈ messages w' ->
     ("transactions", body) ∈ messages w \/ exists p, json_Unmarshal body = Ok p /\ payload_backed (tables w') p) ->
  data_ok w'.
Proof.
  intros [Ht Hc Hm] Hss Hrun Hc' Hpub. split; [by eapply typed_steps|done|].
  intros body [Hin|?]%Hpub; [|done]. destruct (Hm body Hin) as (p & Hp & Hb). exists p. split; [done|].
  by apply (job_backed_steps (JobSettle p) ss (tables w)).
Qed.

Lemma data_ok_outside w w' : data_ok w -> outside w w' -> data_ok w'.
Proof. intros [Ht Hc Hm] (Et & Em & Ec). split; by rw ?Et ?Em ?Ec. Qed.

(** [createAsync] of a transaction with the identifier of the counter. *)
Lemma queued_data tx (w w' : World) :
  data_ok w -> sendable (tx_message tx) -> queued tx w w' -> w_counter w' = w_counter w -> data_ok w'.
Proof.
  intros Hd Hsend Hq Ec. assert (good_amount (Amount tx)) as Hg by apply Hsend.
  destruct Hq as [[Et Em]|(tb1 & Hins & Hup & Hpub)]; [by apply (data_ok_outside w)|].
  assert (exists ss, Forall typed_stmt ss /\ sql_steps ss tb1 (tables w')) as (ss & Hty & Hss).
  { destruct Hup as [->|Hup]; [exists []; by split; constructor|].
    eexists [_]. split; [|by apply sql_steps_one]. apply Forall_singleton. by right; right. }
  eapply (data_ok_step w w' (InsertTx (set_status StatusPending tx) :: ss)); [done| | | |].
  - constructor; [|done]. split; [by left|done].
  - by eapply sql_steps_cons.
  - rw Ec. apply Hd.
  - intros body. destruct Hpub as [->|(b & Hb & ->)]; [by left|].
    rw elem_of_app list_elem_of_singleton. intros [?|[= ->]]; [by left|right]. exists (tx_message tx).
    split; [by eapply json_roundtrip|]. apply (job_backed_steps (JobSettle (tx_message tx)) ss tb1 _ Hss).
    destruct Hins as [now Hins]. destruct (insert_tx_Some _ _ _ Hins) as (r & Hr & _ & _ & Ht).
    destruct (tx_row_typed (set_status StatusPending tx) r (or_introl eq_refl) Hg Hr) as (_ & _ & Es & Ed).
    exists r. cbn in Ht, Es, Ed |- *. by rw Ht lookup_insert_eq.
Qed.

(** [createSync], whether or not its commit is known. *)
Lemma sync_data tx r (w w' : World) :
  data_ok w -> good_amount (Amount tx) -> sync_outcome tx (tables w) r (tables w') ->
  broker_part w' = broker_part w -> data_ok w'.
Proof.
  intros Hd Hg Ho Hbr. injection Hbr as Ea _ Ec. assert (messages w' = messages w) as Em by (unfold messages; by rw Ea).
  assert (tables w' = tables w \/ sync_applied tx (tables w) (tables w')) as [Et|(_ & _ & Hrun)].
  { destruct r as [tx'|e]; [right; apply Ho|]. destruct Ho as [[->|[_ Ha]] _]; [by left|by right]. }
  { by apply (data_ok_outside w). }
  eapply (data_ok_step w w'); [done| |exact Hrun|by rw Ec; apply Hd|by rw Em; left].
  apply typed_transfer, Forall_singleton. split; [by right; left|done].
Qed.

(** [CreateTransaction] on a database, for any amount a request can carry. *)
Lemma CreateTransaction_data (s : transactionService World) h input (w : World) :
  svc_repo s = postgres.NewTransactionRepository Primary h -> svc_db s = true ->
  data_ok w -> w_counter w < max_int64 ->
  good_amount (in_amount input) -> is_int64 (in_source input) -> is_int64 (in_dest input) ->
  wp (CreateTransaction s input) (fun _ w' => data_ok w') w.
Proof.
  intros Hrepo Hd Hok Hroom Hg Hs Hds. pose proof (do_counter _ Hok) as Hc0.
  apply CreateTransaction_run. intros t now w1 (Ep & _ & Ea & _) Ec1.
  pose proof (next_id_gt t (w_counter w) ltac:(lia)) as Hgt.
  assert (tables w1 = tables w) as Et by (unfold tables; by rw Ep).
  assert (messages w1 = messages w) as Em by (unfold messages; by rw Ea).
  assert (data_ok w1) as Hok1.
  { apply (data_ok_step w w1 [] Hok); rw ?Et ?Em ?Ec1; [constructor|constructor|lia|by left]. }
  set (tx := new_tx input _ now).
  assert (wp (create_path s tx) (fun _ w2 => data_ok w2) w1) as Hpath.
  { unfold create_path. destruct (svc_queue s).
    - wp_apply (createAsync_queued s h Hrepo). intros r w2 [Hq Hc]. eapply queued_data; [done| |done|done].
      split; [|done]. eexists. split; [|done]. lia.
    - rw Hd. eapply wp_mono; [apply wp_and; [apply createSync_spec|apply (keeps_createSync s tx)]|].
      intros r w2 [Ho Hbr]. by apply (sync_data tx r w1). }
  wp_apply Hpath. intros r w2 Hok2 w3 (Ep3 & _ & Ea3 & _) Ec3.
  apply (data_ok_outside w2); [done|]. unfold outside, tables, messages. by rw Ep3 Ea3.
Qed.

Lemma process_data redis h msg (w : World) : data_ok w -> data_ok (snd (process (pg_worker redis h) msg w)).
Proof.
  intros Hok. pose proof (process_spec redis h msg w) as Hspec. pose proof (process_counter redis h msg w) as Hc.
  unfold wp in Hspec. destruct (process (pg_worker redis h) msg w) as [u w']. destruct Hspec as (f & Hcase & Hans).
  pose proof (process_messages _ _ _ _ _ _ _ _ Hcase Hans) as Em. cbn [snd] in *.
  destruct (effect_typed _ _ _ _ _ _ Hcase) as (ss & Hty & Hss).
  apply (data_ok_step w w' ss); [done|done|done|rw Hc; apply Hok|rw Em; by left].
Qed.
End data.

(** ** The server *)
Section server.
Context {P R A C E : Type} `{PgDriver P, RedisServer R, AmqpLib A, Clock C, Echo E}.
Context `{!PgLaws P, !PgLiteral P, !AmqpLaws A}.
Context `{JSON TxMessage, JSON Transaction, JSON Account, !JSONLaws TxMessage sendable}.
#[local] Abbreviation World := (World P R A C).
Context (cfg : Config) (dsn : string) (replica redis : option string) (queue : option Client).
#[local] Abbreviation app := (build (P := P) (R := R) (A := A) (C := C) cfg (Some dsn) replica redis queue).

(** A request that passes the checks of the handler has a positive amount. *)
Lemma request_good (req : CreateTransactionRequest) :
  f64_valid (req_amount req) -> f64_finite (req_amount req) = true -> request_ok req = true -> good_amount (req_amount req).
Proof.
  intros Hv Hf [_ Hpos%negb_true_iff]%andb_prop. split_and!; [done|done|].
  destruct (req_amount req) as [s| | |s m e]; try done. destruct s; [done|]. cbn [fscaled cond_Zopp].
  apply valid_finite in Hv as [Hv _]. destruct (fscaled_sign m e); lia.
Qed.

Lemma sys_step_data (w w' : World) : sys_step (E := E) decoded_request app w w' -> data_ok w -> data_ok w'.
Proof.
  intros [rt e w0 Hreq Hroom|wk n msg w0 Hwk _|w0 w1 Ho] Hok; [| |by eapply data_ok_outside].
  - destruct rt; [by eapply data_ok_outside, route_read| |by eapply data_ok_outside, route_read].
    pose proof (post_world (NewTransactionService (app_txSvc app)) e w0) as Hpost. unfold wp in Hpost. cbn [route_handler].
    destruct (handle_CreateTransaction _ (e, w0)) as [r [e' w1]]. cbn [snd] in *.
    destruct Hpost as [->|(req & Hb & Hr & ->)]; [done|]. destruct (Hreq req Hb) as (Hs & Hd & Hv & Hf).
    pose proof (CreateTransaction_data (app_txSvc app) _ (req_input req) w0 eq_refl eq_refl Hok Hroom
      (request_good req Hv Hf Hr) Hs Hd) as Hc.
    unfold wp in Hc. cbn [NewTransactionService svc_CreateTransaction]. by destruct (CreateTransaction _ _ w0).
  - cbn in Hwk. destruct (_ && _); simplify_eq. by apply process_data.
Qed.
End server.

(** C7: the stored data stay well formed, whatever the server is asked and
    whatever fails: for any amount that a request can carry, on a database
    whose reads fail and whose answers to commits are lost, with a replica
    that lags, with any amount of money, and with requests, deliveries of
    messages that were sent and everything outside the program in any order,
    one after the other.  Each stored transaction has one of the three
    statuses, a non-negative amount and two existing accounts, and each
    message in the broker can be read and belongs to a stored transaction
    with the same accounts.  (The counter of the identifiers stays below
    2^63 - 1, as the clock does until the year 2262.) *)
Theorem system_well_formed {P R A C E}
    `{PgDriver P, RedisServer R, AmqpLib A, Clock C, Echo E, !PgLaws P, !PgLiteral P, !AmqpLaws A}
    `{JSON TxMessage, JSON Transaction, JSON Account, !JSONLaws TxMessage sendable}
    cfg dsn replica redis queue (w w' : World P R A C) :
  rtc (sys_step (E := E) decoded_request (build cfg (Some dsn) replica redis queue)) w w' -> data_ok w ->
  typed_tables (tables w') /\
  forall body, ("transactions", body) ∈ messages w' ->
    exists p, json_Unmarshal body = Ok p /\ payload_backed (tables w') p.
Proof.
  intros Hrun Hok. enough (data_ok w') as [] by done.
  induction Hrun as [w|w w1 w' Hs _ IH]; [done|]. by eapply IH, sys_step_data.
Qed.

(** A run on a database that loses the answer to the first commit, with a
    replica: a transfer is posted, and its message is delivered twice. *)
Definition faulty_app : App RefWorld := build queue_config (Some "postgres://") (Some "replica") None (Some ref_client).
Abbreviation faulty_step := (sys_step (E := RefEcho) decoded_request faulty_app).
Definition faulty_start : RefWorld :=
  ref_world (mkRefPg ref_tables None (Some ref_tables) (repeat Fine 7 ++ [FailAfter]) 0) (ref_amqp []).
Definition faulty_posted : RefWorld :=
  snd (snd (route_handler faulty_app CreateTransactionRoute (ref_post, faulty_start))).
Definition faulty_settled (w : RefWorld) : RefWorld :=
  snd (process (pg_worker false (Some Replica)) posted_delivery w).

Lemma faulty_delivery w : messages w = messages faulty_posted -> faulty_step w (faulty_settled w).
Proof.
  intros Hm. apply (sys_delivery decoded_request faulty_app (pg_worker false (Some Replica)) 10 posted_delivery w eq_refl).
  rw Hm. apply (bool_decide_eq_true_1 _). by vm_compute.
Qed.

Lemma faulty_run : rtc faulty_step faulty_start (faulty_settled (faulty_settled faulty_posted)).
Proof.
  eapply rtc_l.
  - apply (sys_request decoded_request faulty_app CreateTransactionRoute ref_post faulty_start); [|done].
    intros req [= <-]. split_and!; apply amount_30_good || by vm_compute.
  - eapply rtc_l; [by apply (faulty_delivery faulty_posted)|].
    apply rtc_once, (faulty_delivery (faulty_settled faulty_posted)). by vm_compute.
Qed.

(** The transfer of 30.00 was settled by both deliveries. *)
Example faulty_run_tables :
  let tb := tables (faulty_settled (faulty_settled faulty_posted)) in
  row_balance <$> accounts tb = {[1001 := 4000; 1002 := 11000]} /\
  (fun ir => row_status (snd ir)) <$> map_to_list (transactions tb) = [StatusCompleted].
Proof. by split; vm_compute. Qed.

Lemma system_well_formed_witness :
  let w' := faulty_settled (faulty_settled faulty_posted) in
  typed_tables (tables w') /\
  forall body, ("transactions", body) ∈ messages w' ->
    exists p, json_Unmarshal body = Ok p /\ payload_backed (tables w') p.
Proof.
  apply (system_well_formed (P := RefPg) (E := RefEcho) queue_config "postgres://" (Some "replica") None (Some ref_client) faulty_start).
  - exact faulty_run.
  - split; [by intros i r Hr; cbn in Hr; rw lookup_empty in Hr|done|].
    intros body Hin. cbn in Hin. set_solver.
Defined.
