(* ===== verification/Equivalence.v ===== *)
(** * Two paths, one transfer

    A transfer through the queue, once it is settled, leaves the bank exactly
    as the synchronous transfer would have: the same balances, to the cent
    and whatever the amount, and the same book.  Only the timestamps of the
    rows may differ. *)

From S2P Require Import Prelude GoNum TxId Float64 Domain Sql Postgres Transfer Bank Redis Queue World Reference.
From S2P Require Import Session Repository TransactionService Worker Settlement Ledger System.

Section tables.
Context {P : Type} `{PgDriver P}.

(** The balances after an update depend on nothing but the balances before. *)
Lemma update_balance_same sign n1 n2 a i tb1 tb2 tb1' tb2' :
  holdings (bank_of tb1) = holdings (bank_of tb2) ->
  update_balance pg_literal sign n1 a i tb1 = Some tb1' ->
  update_balance pg_literal sign n2 a i tb2 = Some tb2' ->
  holdings (bank_of tb1') = holdings (bank_of tb2').
Proof.
  intros Hh U1 U2. pose proof (lookup_holdings tb1 i) as L1. pose proof (lookup_holdings tb2 i) as L2.
  rw Hh L2 in L1. unfold balance_of in L1. clear L2. cbn in *. unfold update_balance in *.
  destruct (pg_literal a) as [q|]; [|done].
  destruct (accounts tb1 !! i) as [r1|] eqn:E1, (accounts tb2 !! i) as [r2|] eqn:E2; try done; [|by simplify_eq].
  injection L1 as Hr. rw Hr in U2. destruct (numeric_18_2 _ _) as [b|]; [|done]. simplify_eq. cbn.
  by rw !fmap_insert Hh.
Qed.

Lemma transfer_same a src dst rest1 rest2 tb1 tb2 tb1' tb2' :
  holdings (bank_of tb1) = holdings (bank_of tb2) ->
  sql_steps (transfer_statements a src dst rest1) tb1 tb1' ->
  sql_steps (transfer_statements a src dst rest2) tb2 tb2' ->
  exists m1 m2, holdings (bank_of m1) = holdings (bank_of m2) /\
    transactions m1 = transactions tb1 /\ transactions m2 = transactions tb2 /\
    sql_steps rest1 m1 tb1' /\ sql_steps rest2 m2 tb2'.
Proof.
  intros Hh R1 R2. destruct (transfer_inv _ _ _ _ _ _ R1) as (q & n1 & x1 & n2 & y1 & _ & D1 & C1 & S1).
  destruct (transfer_inv _ _ _ _ _ _ R2) as (q' & n3 & x2 & n4 & y2 & _ & D2 & C2 & S2).
  exists y1, y2. split; [eapply update_balance_same; [|exact C1|exact C2]; by eapply update_balance_same|].
  apply update_balance_Some in D1 as (_ & _ & E1 & _), C1 as (_ & _ & E2 & _), D2 as (_ & _ & E3 & _),
    C2 as (_ & _ & E4 & _). by rw E2 E1 E4 E3.
Qed.

(** Inserting the row of [tx], read as a posting. *)
Definition posting_row (tx : Transaction) (po : Posting) : Prop :=
  exists r, tx_row pg_literal pg_timestamptz tx = Some r /\ po = posting_of r.

Lemma posting_row_status tx st1 st2 po1 po2 :
  posting_row (set_status st1 tx) po1 -> posting_row (set_status st2 tx) po2 -> po2 = post_status st2 po1.
Proof.
  intros (r1 & H1 & ->) (r2 & H2 & ->). unfold tx_row in *. cbn in *. case_all.
Qed.

Lemma posting_row_is tx po : posting_row tx po -> po_status po = TxStatus tx.
Proof. intros (r & Hr & ->). unfold tx_row in Hr. case_all. Qed.

Lemma insert_book tx tb tb' : sql_step (InsertTx tx) tb tb' ->
  exists po, posting_row tx po /\ bank_of tb' = mkBank (holdings (bank_of tb)) (<[ID tx := po]> (book (bank_of tb))).
Proof.
  intros [now Hi]. cbn in Hi. unfold insert_tx in Hi. destruct (tx_row _ _ tx) as [r|] eqn:Hr; [|done].
  case_all. exists (posting_of r). split; [by exists r|]. unfold bank_of. cbn. by rw fmap_insert.
Qed.

Lemma completed_book id tb tb' po : sql_step (MarkCompleted id) tb tb' ->
  book (bank_of tb) !! id = Some po ->
  bank_of tb' = mkBank (holdings (bank_of tb)) (<[id := post_status StatusCompleted po]> (book (bank_of tb))).
Proof.
  intros [now Hu] Hp. cbn in Hu. unfold update_status in Hu. cbn in Hu. rw lookup_book in Hp.
  apply fmap_Some in Hp as (r & Hr & ->). rw Hr in Hu. simplify_eq. unfold bank_of. cbn. by rw fmap_insert.
Qed.

Lemma sql_steps_inv s tb tb' : sql_steps [s] tb tb' -> sql_step s tb tb'.
Proof. intros Hr. inversion Hr as [|n ??? tb1 ? S1 S2]; subst. inversion S2; subst. by exists n. Qed.

(** The synchronous transfer, and the queued one after its settlement. *)
Lemma sync_async_same tx tb tbs tb1 tba :
  transactions tb !! ID tx = None -> sync_applied tx tb tbs ->
  sql_step (InsertTx (set_status StatusPending tx)) tb tb1 -> settle_applied (tx_message tx) tb1 tba ->
  bank_of tba = bank_of tbs.
Proof.
  intros Hn (_ & _ & Rs) Hins (_ & Ra). destruct (insert_book _ _ _ Hins) as (po & Hpo & Hb1).
  destruct (transfer_same _ _ _ _ _ _ tb1 _ _ (f_equal holdings (eq_sym Hb1)) Rs Ra)
    as (m1 & m2 & Hh & E1 & E2 & Ss & Sa).
  apply sql_steps_inv in Ss, Sa.
  assert (sql_step (InsertTx (set_status StatusCompleted tx)) m1 tbs) as Hins'.
  { destruct Ss as [now Hx]. exists now. cbn in *. unfold upsert_tx in Hx. cbn in Hx. rw E1 Hn in Hx. by case_match. }
  destruct (insert_book _ _ _ Hins') as (po' & Hpo' & Hbs).
  assert (book (bank_of m2) = book (bank_of tb1)) as Hbk2 by (cbn; by rw E2).
  rw (completed_book _ _ _ po Sa) Hbk2 Hb1; [cbn; apply lookup_insert_eq|].
  rw Hbs -Hh (posting_row_status _ _ _ _ _ Hpo Hpo'). cbn. by rw E1 insert_insert_eq.
Qed.
End tables.

Section paths.
Context {P R A C : Type} `{PgDriver P, RedisServer R, AmqpLib A, Clock C}.
Context `{!PgLaws P, !AmqpLaws A, JSON TxMessage, JSON Transaction, !JSONLaws TxMessage sendable}.
#[local] Abbreviation World := (World P R A C).

Lemma createAsync_inserts (s : transactionService World) h tx w :
  svc_repo s = postgres.NewTransactionRepository Primary h ->
  wp (createAsync s tx) (fun r w' => is_ok r = true ->
    sql_step (InsertTx (set_status StatusPending tx)) (tables w) (tables w')) w.
Proof.
  intros Hrepo. unfold createAsync. rw Hrepo. wp_steps. cbn [Save UpdateStatus postgres.NewTransactionRepository].
  unfold postgres.Save, postgres.UpdateStatus, on_pg, tables. wp_steps. wp_apply pg_exec_law.
  intros [u|e] p1 Hp1; wp_steps; [|done]. case_match; wp_steps; [|done].
  unfold on_queue. wp_steps. apply wp_of. intros [u'|e] ca _; wp_steps; [done|]. by apply wp_of.
Qed.

(** A delivery that left its new transaction completed settled it. *)
Lemma process_settled redis msg p (w : World) :
  json_Unmarshal (d_body msg) = Ok p -> ~ row_completed (tables w) (msg_tx_id p) ->
  let w' := snd (process (pg_worker redis None) msg w) in
  row_completed (tables w') (msg_tx_id p) -> settle_applied p (tables w) (tables w').
Proof.
  intros Hp Hnot. cbv zeta. pose proof (process_spec redis None msg w) as Hspec. unfold wp in Hspec.
  destruct (process (pg_worker redis None) msg w) as [u w']. destruct Hspec as (f & Hcase & _). cbn [snd].
  assert (forall p', json_Unmarshal (d_body msg) = Ok p' -> p' = p) as Heq by (intros p' Hp'; congruence).
  inversion Hcase as [e He|p' r Hj Hr Hst|p' tb Hj Hn Hset|p' tb1 tb Hj Hn Hor _ Hst]; subst; intros Hc.
  - congruence.
  - destruct Hnot. exists r. by rw -(Heq _ Hj).
  - by rw -(Heq _ Hj).
  - rw (Heq _ Hj) in Hst. rw (Heq _ Hj) in Hor. destruct Hst as [Hst|Hst].
    + rw -Hst in Hor. destruct Hor as [Hor|Hor]; [|exact Hor]. destruct Hnot. unfold tables. by rw -Hor.
    + destruct Hc as (r & Hr & Hrs). pose proof (update_status_status _ _ _ _ Hst) as Hmap.
      apply (f_equal (lookup (msg_tx_id p))) in Hmap. rw lookup_alter_eq !lookup_fmap in Hmap.
      unfold tables in Hr. rw Hr in Hmap. destruct (transactions tb1 !! _); cbn in Hmap; [|done]. by rw Hrs in Hmap.
Qed.

Lemma paths_agree (s1 s2 : transactionService World) h redis tx msg w :
  svc_repo s2 = postgres.NewTransactionRepository Primary h ->
  sendable (tx_message tx) -> json_Marshal (tx_message tx) = Ok (d_body msg) ->
  transactions (tables w) !! ID tx = None ->
  let '(rs, ws) := createSync s1 tx w in
  let '(ra, wq) := createAsync s2 tx w in
  forall wa, wa = snd (process (pg_worker redis None) msg wq) ->
  is_ok rs = true -> is_ok ra = true -> row_completed (tables wa) (ID tx) -> bank_in wa = bank_in ws.
Proof.
  intros Hrepo Hsend Hj Hn. pose proof (createSync_spec s1 tx w) as Hs.
  pose proof (createAsync_inserts s2 h tx w Hrepo) as Ha. unfold wp in Hs, Ha.
  destruct (createSync s1 tx w) as [rs ws], (createAsync s2 tx w) as [ra wq].
  intros wa -> Hrs Hra Hc. destruct rs as [tx'|e]; [|done]. destruct Hs as [_ Hs].
  destruct (insert_book _ _ _ (Ha Hra)) as (po & Hpo & Hb).
  eapply sync_async_same; [exact Hn|exact Hs|exact (Ha Hra)|].
  apply process_settled; [by eapply json_roundtrip| |exact Hc].
  intros (r & Hr & Hst). apply (f_equal (fun b => book b !! ID tx)) in Hb. rw lookup_book Hr in Hb.
  cbn in Hb. rw lookup_insert_eq in Hb. injection Hb as <-. apply posting_row_is in Hpo. cbn in Hpo. by rw Hst in Hpo.
Qed.
End paths.

(** C5: a transfer through the queue ends where the synchronous one does.
    For the same new transaction, from the same state, if [createSync]
    commits, [createAsync] succeeds and a delivery of its message settles it,
    then both runs leave the same balances, to the cent and for any amount,
    and the same book of transfers. *)
Theorem queue_path_equals_sync_path {P R A C} `{PgDriver P, RedisServer R, AmqpLib A, Clock C, !PgLaws P, !AmqpLaws A}
    `{JSON TxMessage, JSON Transaction, !JSONLaws TxMessage sendable}
    (s1 s2 : transactionService (World P R A C)) h redis tx msg (w : World P R A C) :
  svc_repo s2 = postgres.NewTransactionRepository Primary h ->
  sendable (tx_message tx) -> json_Marshal (tx_message tx) = Ok (d_body msg) ->
  transactions (tables w) !! ID tx = None ->
  let '(rs, ws) := createSync s1 tx w in
  let '(ra, wq) := createAsync s2 tx w in
  forall wa, wa = snd (process (pg_worker redis None) msg wq) ->
  is_ok rs = true -> is_ok ra = true -> row_completed (tables wa) (ID tx) -> bank_in wa = bank_in ws.
Proof. apply paths_agree. Qed.

(** Both paths, on a transfer of an eighth of a unit: half a cent is rounded
    on each account. *)
Definition eighth_tx : Transaction := new_tx (mkInput 1001 1002 amount_eighth) (format_id 8) 7.
Definition eighth_delivery : Delivery :=
  mkDelivery (match json_Marshal (tx_message eighth_tx) with Ok b => b | Err _ => "" end) 1 1.

Lemma eighth_sendable : sendable (tx_message eighth_tx).
Proof.
  split_and!; [by exists 8|by vm_compute..].
Qed.

Lemma queue_path_equals_sync_path_witness :
  let '(rs, ws) := createSync (ref_service false false) eighth_tx ref_start in
  let '(ra, wq) := createAsync (ref_service true false) eighth_tx ref_start in
  forall wa, wa = snd (process (pg_worker false None) eighth_delivery wq) ->
  is_ok rs = true -> is_ok ra = true -> row_completed (tables wa) (ID eighth_tx) -> bank_in wa = bank_in ws.
Proof.
  apply (queue_path_equals_sync_path (ref_service false false) (ref_service true false) None false
    eighth_tx eighth_delivery ref_start).
  - reflexivity.
  - exact eighth_sendable.
  - vm_compute. reflexivity.
  - reflexivity.
Defined.

(** The premises hold there. *)
Definition eighth_sync := createSync (ref_service false false) eighth_tx ref_start.
Definition eighth_async := createAsync (ref_service true false) eighth_tx ref_start.
Definition eighth_settled : RefWorld := snd (process (pg_worker false None) eighth_delivery (snd eighth_async)).

Example eighth_both_paths :
  is_ok (fst eighth_sync) = true /\ is_ok (fst eighth_async) = true /\
  po_status <$> book (bank_in eighth_settled) !! ID eighth_tx = Some StatusCompleted /\
  holdings (bank_in eighth_settled) = {[1001 := 9988; 1002 := 5013]}.
Proof. by vm_compute. Qed.
