(* ===== verification/Roundtrip.v ===== *)
(** * What is created is read back

    A transaction that [CreateTransaction] answered with is the one that
    [GetTransactionStatus] finds: the amount went from [float64] through a
    decimal literal and NUMERIC(18,2) and back, unchanged. *)

From S2P Require Import Prelude GoNum TxId Float64 Domain Sql Postgres Transfer Bank Redis Queue World Reference.
From S2P Require Import Session Repository TransactionService Ledger System.

Section roundtrip.
Context {P R A C : Type} `{PgDriver P, RedisServer R, AmqpLib A, Clock C}.
Context `{!PgLaws P, !PgLiteral P, JSON TxMessage, JSON Transaction}.
#[local] Abbreviation World := (World P R A C).

(** The row of [tx] is stored under its identifier. *)
Definition stored (tx : Transaction) (w : World) : Prop :=
  exists r, tx_row pg_literal pg_timestamptz tx = Some r /\ transactions (tables w) !! ID tx = Some r.

(** [tx'] is what a reader sees of the stored [tx]. *)
Definition read_back (tx tx' : Transaction) : Prop :=
  ID tx' = ID tx /\ SourceAccount tx' = SourceAccount tx /\ DestAccount tx' = DestAccount tx /\
  Amount tx' = Amount tx /\ TxStatus tx' = TxStatus tx /\ CreatedAt tx' = pg_timestamptz (CreatedAt tx).

(** Whole cents go through NUMERIC(18,2) unchanged. *)
Lemma scan_numeric_exact a k : fair_amount a k -> scan_numeric k = a.
Proof.
  intros [(Hv & Hf & Hp) (q & Hq & He)]. unfold scan_numeric.
  rw (f64_of_frac_ratio k 100 (fnum q) (fden q)); [lia|].
  destruct (pg_literal_back a q Hv Hf Hq) as (_ & Hs & _).
  apply fscaled_inj; [apply f64_of_frac_valid|done|by rw Hs|done].
Qed.

Lemma stored_read tx k w r : fair_amount (Amount tx) k -> stored tx w ->
  transactions (tables w) !! ID tx = Some r -> read_back tx (scan_tx (ID tx) r).
Proof.
  intros Hf (r' & Hrow & Hst) Hr. rw Hr in Hst. injection Hst as <-.
  pose proof (tx_row_exact tx r k (proj2 Hf) Hrow) as Hpo. injection Hpo as Es Ed Ek Est.
  unfold read_back, scan_tx. cbn. rw Es Ed Ek Est (scan_numeric_exact _ _ Hf). split_and!; try done.
  unfold tx_row in Hrow. by case_all.
Qed.

Lemma insert_stored tx tb tb' : sql_step (InsertTx tx) tb tb' ->
  exists r, tx_row pg_literal pg_timestamptz tx = Some r /\ transactions tb' !! ID tx = Some r.
Proof.
  intros [now Hi]. cbn in Hi. unfold insert_tx in Hi. destruct (tx_row _ _ tx) as [r|]; [|done].
  case_all. exists r. split; [done|]. apply lookup_insert_eq.
Qed.

Context (s : transactionService World) (h : option DB).
Context (Hrepo : svc_repo s = postgres.NewTransactionRepository Primary h).

Lemma createAsync_stored tx w :
  wp (createAsync s tx) (fun r w' => forall tx', r = Ok tx' -> tx' = set_status StatusPending tx /\ stored tx' w') w.
Proof.
  unfold createAsync. rw Hrepo. wp_steps. cbn [Save UpdateStatus postgres.NewTransactionRepository].
  unfold postgres.Save, postgres.UpdateStatus, on_pg. wp_steps. wp_apply pg_exec_law.
  intros [u|e] p1 Hp1; wp_steps; [|done]. case_match; wp_steps; [|done].
  unfold on_queue. wp_steps. apply wp_of. intros [u'|e] ca _; wp_steps; [|by apply wp_of].
  intros tx' [= <-]. split; [done|]. by eapply insert_stored.
Qed.

Lemma createSync_stored tx w : transactions (tables w) !! ID tx = None ->
  wp (createSync s tx) (fun r w' => forall tx', r = Ok tx' -> tx' = set_status StatusCompleted tx /\ stored tx' w') w.
Proof.
  intros Hn. wp_apply createSync_spec. intros [tx1|e] w1 Ho tx' [= <-]. destruct Ho as [-> (_ & _ & Hrun)].
  split; [done|]. destruct (transfer_inv _ _ _ _ _ _ Hrun) as (q & n1 & tb1 & n2 & tb2 & _ & S1 & S2 & S3).
  apply update_balance_Some in S1 as (_ & _ & E1 & _), S2 as (_ & _ & E2 & _).
  inversion S3 as [|n ??? tb3 ? S4 S5]; subst. inversion S5; subst. eapply (insert_stored _ tb2).
  exists n. cbn in *. unfold upsert_tx in S4. cbn in S4. rw E2 E1 Hn in S4. by case_match.
Qed.

Lemma CreateTransaction_stored input w :
  svc_db s = true -> (forall n, w_counter w < n -> transactions (tables w) !! format_id n = None) ->
  0 <= w_counter w < max_int64 ->
  wp (CreateTransaction s input) (fun r w' => forall tx, r = Ok tx -> Amount tx = in_amount input /\ stored tx w') w.
Proof.
  intros Hd Hfresh Hc. apply CreateTransaction_run. intros t now w1 (Ep & _) Ec. set (tx := new_tx input _ now).
  assert (transactions (tables w1) !! ID tx = None) as Hn.
  { unfold tables. rw Ep. apply Hfresh. by apply next_id_gt. }
  assert (forall (m : M World (result Transaction)) st,
    wp m (fun r w' => forall tx', r = Ok tx' -> tx' = set_status st tx /\ stored tx' w') w1 ->
    wp m (fun r w2 => forall w3, same_stores w2 w3 -> w_counter w3 = w_counter w2 ->
      forall tx', r = Ok tx' -> Amount tx' = in_amount input /\ stored tx' w3) w1) as Hpath.
  { intros m st Hm. wp_apply Hm. intros r w2 Hr w3 (Ep3 & _) _ tx' ->. destruct (Hr _ eq_refl) as [-> Hs].
    split; [done|]. unfold stored, tables in *. by rw Ep3. }
  unfold create_path. destruct (svc_queue s); [by eapply Hpath, createAsync_stored|].
  rw Hd. by eapply Hpath, createSync_stored.
Qed.

(** [GetTransactionStatus] without a cache. *)
Lemma GetTransactionStatus_stored tx k w : svc_redis s = false -> h = None -> reads_definite P Primary ->
  fair_amount (Amount tx) k -> stored tx w ->
  wp (GetTransactionStatus s (ID tx)) (fun r _ => exists tx', r = Ok tx' /\ read_back tx tx') w.
Proof.
  intros Hred -> Hdef Hf Hst. unfold GetTransactionStatus, load_tx_status. rw Hred Hrepo. wp_steps.
  apply wp_logger_Set. intros e1. wp_steps. cbn [GetByID postgres.NewTransactionRepository].
  unfold postgres.GetByID, on_pg. wp_steps. cbn [postgres.replica postgres.new_pools].
  pose proof (Hdef (ID tx) (w_pg w)) as Hok. pose proof (pg_get_tx_law Primary (ID tx) (w_pg w)) as Hlaw.
  unfold wp at 1. unfold wp in Hok, Hlaw. cbn [w_pg set_event].
  destruct (pg_get_tx Primary (ID tx) (w_pg w)) as [[row|e] p]; [|done]. destruct Hlaw as [_ ->]. cbn [pg_view].
  destruct Hst as (r & Hrow & Hr). pose proof Hr as Hr'. unfold tables in Hr'. rw Hr'. wp_steps.
  apply wp_logger_Set. intros e2. wp_steps. eexists. split; [done|].
  eapply stored_read; [exact Hf|by exists r|exact Hr].
Qed.
End roundtrip.

(** C6: on a primary database whose reads do not fail, without a cache and
    without a replica, with the queue or without: what [CreateTransaction]
    answers with, for an amount of whole cents and an identifier that is not
    taken, is what a [GetTransactionStatus] right after it reads: the same
    identifier, accounts, amount and status.  The amount of whole cents
    survives the way from [float64] to a decimal literal, to NUMERIC(18,2), and
    back, bit for bit; other amounts are accepted too, and do not. *)
Theorem created_transaction_is_read {P R A C}
    `{PgDriver P, RedisServer R, AmqpLib A, Clock C, !PgLaws P, !PgLiteral P, JSON TxMessage, JSON Transaction}
    (s : transactionService (World P R A C)) input k (w : World P R A C) :
  svc_db s = true -> svc_redis s = false -> svc_repo s = postgres.NewTransactionRepository Primary None ->
  reads_definite P Primary -> fair_amount (in_amount input) k ->
  (forall n, w_counter w < n -> transactions (tables w) !! format_id n = None) -> 0 <= w_counter w < max_int64 ->
  wp (CreateTransaction s input) (fun r w1 => forall tx, r = Ok tx ->
    wp (GetTransactionStatus s (ID tx)) (fun r2 _ => exists tx2, r2 = Ok tx2 /\ read_back (P := P) tx tx2) w1) w.
Proof.
  intros Hd Hred Hrepo Hdef Hf Hfresh Hc. wp_apply (CreateTransaction_stored s None Hrepo); [done..|].
  intros r w1 Hr tx ->. destruct (Hr tx eq_refl) as [Ha Hs]. eapply GetTransactionStatus_stored; try done. by rw Ha.
Qed.

(** The service of [System.sure_start], without the queue. *)
Definition sure_service : transactionService SureWorld :=
  mkTxService (postgres.NewTransactionRepository Primary None) true false false (30 * Second).

Lemma created_transaction_is_read_witness :
  wp (CreateTransaction sure_service (mkInput 1001 1002 amount_30)) (fun r w1 => forall tx, r = Ok tx ->
    wp (GetTransactionStatus sure_service (ID tx)) (fun r2 _ => exists tx2, r2 = Ok tx2 /\
      read_back (P := SurePg) tx tx2) w1) sure_start.
Proof.
  apply (created_transaction_is_read sure_service (mkInput 1001 1002 amount_30) 3000 sure_start).
  - reflexivity.
  - reflexivity.
  - reflexivity.
  - exact (SurePg_reads Primary).
  - exact fair_30.
  - reflexivity.
  - split; vm_compute; congruence.
Defined.
